(* ===== verification/_CoqProject ===== *)
-Q . S2P
Prelude.v
RustStr.v
F64.v
Token.v
Errors.v
Lexer.v
LexerFacts.v
LexerRoundtrip.v
Ast.v
Schemas.v
SchemaCycle.v
IndexMap.v
Foreign.v
QueryTypes.v
Value.v
ValueFacts.v
Validator.v
ValidatorFacts.v
Serializer.v
Environment.v
Operators.v
Crates.v
ValueMethods.v
ValueMethodFacts.v
DocBson.v
DocBsonFacts.v
Auth.v
RouteLoader.v
RouteFacts.v
QueryBuilder.v
TraceContext.v
IndexInference.v
IndexFacts.v
FeatureFlags.v
Coverage.v
Migrations.v
MigrationFiles.v
Replay.v
PlanFacts.v
ReplayFacts.v
MigrationFacts.v
SqlTextFacts.v
MigrationFilesFacts.v
ProjectRuntime.v
Interaction.v
ParserState.v
Parser.v
ParserStatements.v
Formatter.v
FormatterFacts.v
ParserLogic.v
ParserFacts.v
ParserSound.v
ParserGrammar.v
Interp.v
EvalLogic.v
Namespaces.v
Infra.v
QueryPipeline.v
Calls.v
Evaluator.v
Loader.v
EvalSafe.v
EvaluatorFuel.v
EvalDemo.v
EvaluatorFacts.v
Config.v
OpenApi.v
OpenApiOperation.v
LoaderFacts.v
OpenApiFacts.v
ConfigFacts.v
Server.v
ServerFacts.v
BroadcastFacts.v
