(* ===== verification/Prelude.v ===== *)
(** * A model of the Marreta language runtime

    Marreta (src/src/*.rs) is an interpreted language for HTTP services.  A
    project is a set of [.marreta] files.  The tokenizer and the parser turn a
    file into statements; the loader splits them into routes, schemas,
    consumers and authentication providers and rejects inconsistent programs;
    at run time the server validates a request against the schema of its route,
    an evaluator runs the body of the route over an environment, database
    pipelines are turned into SQL or document queries, and the reply is
    filtered by its schema and serialised to JSON.  Migrations keep the tables
    of the relational store in step with the persistent schemas.

    This library models the parts of that program that are computation over its
    own data, and the evaluator's requests to the outside world, as executable
    definitions, and proves what makes each of them correct.

    ** How the code is represented

    - A [Result] is [result]; code that can also panic, or whose recursion
      needs fuel, is an [outcome].  [Panics] is Rust's panic (an index out of
      range, an arithmetic overflow, an [expect]).  [NoFuel] is a limit of the
      model only: where a component has fuel, a theorem shows that it is not
      reached, or, for the evaluator, whose programs need not end, that fuel
      does not change a result that was reached.
    - A [String] is a [string] of UTF-8 bytes, a [char] the [N] of its scalar
      value (RustStr.v); an [i64] is a [Z] with its bounds written out; an
      [f64] is the Standard Library's [spec_float] at 53 and 1024 bits (F64.v).
    - A [HashMap] is a [gmap].  Where the code iterates over one, the order is
      the class [HashOrder] below: the theorems hold for every order.
      An [IndexMap] is an association list without repeated keys (IndexMap.v).
    - A map value of the language is an [Arc<RwLock<..>>]; the operations of
      the language only read maps or build new ones, so a map is its contents.
      (The one write is to the body of an HTTP response that was just built.)
    - What the code takes from other crates is an interface with laws: [Ext]
      (decimals, times and dates, in Foreign.v), [Crates] (time zones, base64,
      decimal arithmetic, the square root, in Crates.v), [BsonCrate] (object
      identifiers and Decimal128, in DocBson.v), [AuthHost] (PEM and URL
      parsing, files and environment variables, in Auth.v), [Serializer]
      (serde, in Value.v), [FileSystem] (the faults of a disk, in
      MigrationFiles.v), [ServerCrates] (HTTP headers, signed tokens and key
      sets, password hashes, in Server.v), random draws (TraceContext.v) and
      SHA-256.  [demo_ext], [demo_crates], [demo_bson], [demo_host] and
      [demo_server] are concrete instances, which the witnesses use.
    - The parser is a state monad with panics over the tokens (ParserState.v).
    - The evaluator is a state monad over trees of requests (Interaction.v): a
      node asks a driver, the clock, the file system or standard output for
      something and goes on with the answer, and the branches of a broadcast
      are one node.  [run] follows a tree with a handler that answers; a
      [Protocol] with [wp] says what every path of a tree may ask, whatever
      the answers.

    ** The files

    - RustStr.v, F64.v: the standard library's strings, integers and floats.
    - Token.v, Lexer.v (token.rs, lexer.rs): one definition per method of the
      tokenizer over the record [Lexer]; [lex_loop] is the loop of [tokenize].
      LexerFacts.v: it terminates (fuel: the length of the source, since every
      step consumes a character), its [Indent] and [Dedent] tokens balance, and
      it panics only on a source that ends in a space.  LexerRoundtrip.v: a
      printed line of lexemes is read back exactly; line endings do not matter.
    - Errors.v (error.rs): the error type, its display, codes and positions.
    - Ast.v (ast.rs): the syntax tree; [children] and [tree_ind] are the
      generic traversal the other components' proofs share.
    - ParserState.v, Parser.v, ParserStatements.v (parser.rs): the methods that
      move over the tokens, expressions and pipelines, statements.  A cycle of
      calls goes through the record [Rec], tied with fuel in [parsers]; the
      number of tokens is enough, since every cycle consumes one.
      ParserLogic.v: a weakest precondition for parsers and its rules.
      ParserFacts.v, ParserSound.v: every parser advances, ends, reports errors
      at a token and builds a [well_formed] tree.  ParserGrammar.v: a grammar
      with precedences ([Reads]), and that the parser reads what it derives.
    - Formatter.v (formatter.rs): the passes over the lines of a source, on the
      list of its characters; the scan of a line has its length as fuel.
      FormatterFacts.v: atoms are scanned again from what is printed, depths
      are read back, and the second pass is the last.
    - Schemas.v, SchemaCycle.v (persistent_schema.rs, schema_cycle.rs and the
      checks of file_loader.rs): the checks of a set of schemas, with the
      reference definitions they decide.  The depth first search has the
      number of schemas as fuel: a path has no repetition.
    - IndexMap.v, Foreign.v, QueryTypes.v, Value.v (value.rs, db/driver.rs,
      doc/query.rs): runtime values, equality, display and JSON.  ValueFacts.v:
      symmetry and reflexivity of equality, round trips with JSON, agreement of
      the direct serialiser with the JSON tree.
    - Crates.v, ValueMethods.v (value.rs, [call_method_at]): the methods of
      values.  ValueMethodFacts.v: sorting, splitting and joining.
    - Validator.v, ValidatorFacts.v (validator.rs): coercion of a payload to a
      schema and of query or header text to a flat schema.  [has_type] and
      [conforms] specify what is accepted.  The fuel is [MAX_DEPTH] plus two,
      and the code's own depth guard stops the recursion first.
    - Serializer.v (response_serializer.rs): filtering of a reply.
    - Environment.v (environment.rs): scopes over a frozen base.
    - Operators.v (interpreter/operators.rs): the operators of the evaluator,
      with the exact conditions under which they panic.
    - Auth.v (auth.rs), RouteLoader.v, RouteFacts.v (route_loader.rs): the
      authentication configuration and the loading of a program.  [load] folds
      [load_statement] over the program, then runs the checks of Schemas.v and
      Auth.v; the facts say what a loaded registry guarantees.
    - ProjectRuntime.v (file_loader.rs): the modules of a loaded project, their
      environments, schemas and namespaces.
    - Loader.v (file_loader.rs, version.rs): the files below the root, the
      modules they define, their merge, the checks of the project, and the run
      of the startup statements in the evaluator.  LoaderFacts.v: discovery,
      and what a loaded project satisfies.
    - QueryBuilder.v (db/query_builder.rs): SQL text and its parameters; no
      value reaches the text, and identifiers are quoted or rejected.
    - DocBson.v, DocBsonFacts.v (doc/bson.rs, doc/mongodb.rs): values as BSON,
      filters, options, aggregations and raw pipeline stages.
    - Migrations.v, MigrationFiles.v, Replay.v (migrations.rs): tables of the
      schemas, plans, drift and SQL text; the files of a migration over a disk
      that can fail; the replay of the SQL of the local migrations.
      PlanFacts.v, ReplayFacts.v, MigrationFacts.v: a generated migration,
      printed and replayed, leaves nothing to migrate.  SqlTextFacts.v:
      statements with strings, comments and dollar quotes are split and
      stripped as they were written.  MigrationFilesFacts.v: the inventory, and
      what writing and discarding do to the disk.
    - TraceContext.v (trace_context.rs): W3C trace context headers.
    - IndexInference.v, IndexFacts.v (doc/index_inference.rs): indexes inferred
      from document queries.
    - FeatureFlags.v (feature_flags.rs), Coverage.v (coverage.rs).
    - The evaluator (interpreter.rs and interpreter/).  Interaction.v: requests,
      trees, protocols.  Interp.v: the state of an interpreter, the monad
      [Eval], the schemas it sees, rows and transactions.  Namespaces.v and
      Infra.v: the built-in namespaces, those that compute and those that ask
      drivers, and interpolation.  QueryPipeline.v: the stages of queries.
      Calls.v: tasks, broadcasts and the stages of pipelines.  Evaluator.v:
      statements and expressions.  All of them are over the evaluators of
      expressions and statements; [interp] ties the knot with fuel, one unit
      for each level of the recursion, a turn of [while] included.
      EvalLogic.v: the transaction protocol, the order [steps] on states and
      the rules and tactics for both; EvalSafe.v: every definition follows the
      protocol and steps.  EvaluatorFuel.v: more fuel approximates better.
      EvalDemo.v: a configuration, a handler and small programs, with the
      behaviours that surprise.  EvaluatorFacts.v, BroadcastFacts.v: the
      theorems about whole evaluations.
    - Server.v (server.rs): a handler is a tree of requests over the cache of
      key sets, which ends with a value, an early response or a panic.
      Authentication, [execute_route], error responses, logs, middlewares, and
      the consumers of queues, whose loop has a number of deliveries as fuel.
      ServerFacts.v: [calmly], the rules for handlers that leave the protocol
      where it was, the protocol of transactions and deliveries
      ([server_protocol]), and the theorems.

    - Config.v (config.rs): the env file, the variables, the errors they push
      and the connection URLs of the stores.  ConfigFacts.v: a reader of URLs
      finds the configured values.
    - OpenApi.v (openapi.rs): the document of a registry as a JSON tree.  The
      search for schemas, a loop over pending references, has enough fuel for
      every reference of every definition ([resolve_fuel]).  OpenApiFacts.v:
      the search ends and is closed, every route is documented, references
      name components.

    ** The theorems

    The comment of a main theorem starts with its number, C1 to C40, in the
    order of importance.

    - Refinement of a grammar and of reference definitions:
      [parse_implements_grammar]; payload conformance
      ([coerce_payload_conforms]), schema cycles
      ([find_disallowed_cycle_correct]), authentication of routes
      ([auth_contract_iff]).
    - Evaluation: transactions are opened and closed in pairs and nothing
      escapes them ([transactions_bracketed]); the state is kept
      ([evaluation_keeps_state]); arguments meet the contracts of tasks
      ([call_task_value_spec]); values are parameters of native queries
      ([native_query_parameters]); the two paths of a broadcast agree
      ([broadcast_paths_agree]); evaluation of plain expressions ends
      ([plain_expressions_evaluate]); fuel does not matter
      ([fuel_is_irrelevant]).
    - The server: nothing runs for a request that is not authenticated
      ([unauthenticated_requests_refused]); a token is verified with a key of
      the right kind ([accepted_token_verified]); every delivery is settled
      once, as its handler ended ([deliveries_settled], [delivery_verdict]);
      responses have a status, that of the log ([responses_bounded]).
    - The OpenAPI document: the search for schemas ends, closed
      ([schema_search_total]); references name components
      ([references_name_components]); the operations are those of the routes
      ([every_route_documented]).
    - Round trips: tokens, migrations and their files, SQL text, JSON, BSON,
      trace headers, connection URLs ([connection_urls_read_back]).
    - Safety of what is built: SQL ([build_select_parameters],
      [build_order_by_safe]), loaded projects ([discovery_spec],
      [loaded_project_sound]) and programs ([load_sound]), discarded migrations
      ([discard_only_pending]).
    - Well-formed results, errors, panics and termination of the tokenizer, the
      parser, the validator and the operators.
    - Formatting keeps the tokens and settles ([formatting_settles]).
    - Functional behaviour of direct serialisation, sorting, index inference
      and the inventory of migrations.

    Theorems and examples without a number record further facts, and behaviours
    that the comments of the source do not announce, such as
    [tokenize_only_spaces_panics], [index_name_collides] or
    [map_error_leaks_scope].

    ** What is not modelled

    Of the evaluator: the native stack, which deep recursion of the source can
    exhaust before the limit of calls; profiling timers; the debug assertion on
    the kind of a trace frame; a broadcast that starts outside a tokio runtime.
    What [sort] does to a list with NaN, where the comparison is not an order,
    is an operation of [Crates].  Broadcast branches are run one after
    the other by [run]; they share no state of the interpreter, but the order
    of their requests is not that of a real run.  Of the replay of migrations:
    what the code itself does not read (nested block comments, quoted
    identifiers).

    Of the loader: symbolic links.  Of the server: the router, CORS, the
    listener and shutdown, which are calls of other crates, the time a
    comparison takes, and two requests that use the cache of key sets at once.

    Of the OpenAPI generator: the printing of the JSON tree, which is
    serde_json's.

    Of the formatter: the listing of the files to format.

    The clients of the stores, queues and caches, the command line, the linter
    and the editor tooling are mostly calls of other systems or text for the
    user. *)
From stdpp Require Import base list strings gmap pretty sets.
From Stdlib Require Import ZArith Lia.

(** * Results and outcomes *)

(** Rust's [Result<A, E>]. *)
Inductive result (E A : Type) : Type :=
| Ok (a : A)
| Err (e : E).
Arguments Ok {E A} a.
Arguments Err {E A} e.

(** A computation that can also panic, and a loop that can exhaust the fuel
    the model gives it.  [NoFuel] is never a behaviour of the program: the
    theorems of the components that use it show that it is not reached. *)
Inductive outcome (E A : Type) : Type :=
| Done (a : A)
| Fails (e : E)
| Panics
| NoFuel.
Arguments Done {E A} a.
Arguments Fails {E A} e.
Arguments Panics {E A}.
Arguments NoFuel {E A}.

#[export] Instance result_ret {E} : MRet (result E) := fun _ a => Ok a.
#[export] Instance result_bind {E} : MBind (result E) := fun _ _ k m =>
  match m with Ok a => k a | Err e => Err e end.
#[export] Instance result_fmap {E} : FMap (result E) := fun _ _ f m =>
  match m with Ok a => Ok (f a) | Err e => Err e end.

#[export] Instance outcome_ret {E} : MRet (outcome E) := fun _ a => Done a.
#[export] Instance outcome_bind {E} : MBind (outcome E) := fun _ _ k m =>
  match m with
  | Done a => k a
  | Fails e => Fails e
  | Panics => Panics
  | NoFuel => NoFuel
  end.

(** [Result::map_err]. *)
Definition map_err {E E' A} (f : E -> E') (m : result E A) : result E' A :=
  match m with Ok a => Ok a | Err e => Err (f e) end.

(** [Option::ok_or]. *)
Definition ok_or {E A} (o : option A) (e : E) : result E A :=
  match o with Some a => Ok a | None => Err e end.

(** [Result::is_ok]. *)
Definition is_ok {E A} (m : result E A) : bool :=
  match m with Ok _ => true | Err _ => false end.

(** [iter().map(f).collect::<Result<Vec<_>, _>>()]: stops at the first error. *)
Fixpoint collect {E A B} (f : A -> result E B) (l : list A) : result E (list B) :=
  match l with
  | [] => Ok []
  | x :: l => match f x with
              | Err e => Err e
              | Ok y => match collect f l with
                        | Err e => Err e
                        | Ok ys => Ok (y :: ys)
                        end
              end
  end.

(** The same when an element can also panic. *)
Fixpoint collect_outcome {E A B} (f : A -> outcome E B) (l : list A) : outcome E (list B) :=
  match l with
  | [] => Done []
  | x :: l => y ← f x; ys ← collect_outcome f l; Done (y :: ys)
  end.

(** A computation that cannot panic, used where one that can is expected. *)
Definition of_result {E A} (r : result E A) : outcome E A :=
  match r with Ok a => Done a | Err e => Fails e end.

(** A [for] loop whose body can return early with an error. *)
Fixpoint for_each {E A} (f : A -> result E unit) (l : list A) : result E unit :=
  match l with
  | [] => Ok tt
  | x :: l => match f x with Ok _ => for_each f l | Err e => Err e end
  end.

(** [enumerate()], starting at [i]. *)
Fixpoint enumerate_from {A} (i : nat) (l : list A) : list (nat * A) :=
  match l with
  | [] => []
  | x :: l => (i, x) :: enumerate_from (S i) l
  end.
Notation enumerate := (enumerate_from 0).

Create HintDb marreta.

(** * Lemmas on results *)

Lemma bind_Ok {E A B} (m : result E A) (k : A -> result E B) b :
  m ≫= k = Ok b <-> exists a, m = Ok a /\ k a = Ok b.
Proof.
  destruct m; cbn; split; [eauto | intros (? & [= <-] & ?); done | done |].
  by intros (? & ? & ?).
Qed.

Lemma bind_Done {E A B} (m : outcome E A) (k : A -> outcome E B) b :
  m ≫= k = Done b <-> exists a, m = Done a /\ k a = Done b.
Proof.
  destruct m; cbn; split; try done; try (by intros (? & ? & ?)); [eauto |].
  intros (? & [= <-] & ?); done.
Qed.

Lemma map_err_Ok {E E' A} (f : E -> E') (m : result E A) a :
  map_err f m = Ok a <-> m = Ok a.
Proof. destruct m; cbn; split; congruence. Qed.

Lemma collect_Ok {E A B} (f : A -> result E B) l ys :
  collect f l = Ok ys <-> Forall2 (fun x y => f x = Ok y) l ys.
Proof.
  revert ys; induction l as [|x l IH]; intros ys; cbn.
  - split; [intros [= <-]; constructor | by inversion 1].
  - split.
    + destruct (f x) eqn:Hx; [|done]. destruct (collect f l) eqn:Hl; [|done].
      intros [= <-]. constructor; [done | by apply IH].
    + inversion 1 as [|? ? ? ys' Hx Hl]; subst. rewrite Hx.
      apply IH in Hl. by rewrite Hl.
Qed.

Lemma collect_Err {E A B} (f : A -> result E B) l e :
  collect f l = Err e <->
  exists l1 x l2, l = l1 ++ x :: l2 /\ f x = Err e /\ Forall (fun y => is_ok (f y)) l1.
Proof.
  induction l as [|x l IH]; cbn.
  - split; [done |]. intros ([|??] & ? & ? & ? & ?); discriminate.
  - split.
    + destruct (f x) eqn:Hx.
      * destruct (collect f l); [done |]. intros [= ->].
        destruct IH as [IH _]. destruct (IH eq_refl) as (l1 & y & l2 & -> & ? & ?).
        exists (x :: l1), y, l2. split_and!; [done.. |]. constructor; [by rewrite Hx | done].
      * intros [= ->]. exists [], x, l. by split_and!.
    + intros ([|z l1] & y & l2 & Heq & Hy & Hl1); simplify_eq/=.
      * by rewrite Hy.
      * apply Forall_cons in Hl1 as [Hz Hl1]. destruct (f z); [|done].
        destruct IH as [_ ->]; [done |]. exists l1, y, l2. by split_and!.
Qed.

Lemma collect_outcome_Done {E A B} (f : A -> outcome E B) l ys :
  collect_outcome f l = Done ys <-> Forall2 (fun x y => f x = Done y) l ys.
Proof.
  revert ys; induction l as [|x l IH]; intros ys; cbn.
  - split; [intros [= <-]; constructor | by inversion 1].
  - rewrite bind_Done. split.
    + intros (y & Hy & (zs & Hzs & [= <-])%bind_Done). constructor; [done | by apply IH].
    + inversion 1 as [|? y ? zs Hy Hl]; subst. exists y. split; [done |].
      apply bind_Done. exists zs. split; [by apply IH | done].
Qed.

Lemma of_result_Done {E A} (r : result E A) a : of_result r = Done a <-> r = Ok a.
Proof. destruct r; cbn; split; congruence. Qed.

(** A run over a list fails, panics or exhausts its fuel because an element does. *)
Lemma collect_outcome_stops {E A B} (f : A -> outcome E B) l :
  (exists ys, collect_outcome f l = Done ys) \/
  exists x, x ∈ l /\ match f x with
                    | Done _ => False
                    | Fails e => collect_outcome f l = Fails e
                    | Panics => collect_outcome f l = Panics
                    | NoFuel => collect_outcome f l = NoFuel
                    end.
Proof.
  induction l as [|x l IH]; cbn; [left; by eexists |].
  destruct (f x) eqn:Hx; cbn; try (right; exists x; split; [set_solver | by rewrite Hx]).
  destruct IH as [[ys ->] | (y & Hy & Hl)]; [left; by eexists |].
  right. exists y. split; [set_solver |]. destruct (f y); [done | by rewrite Hl..].
Qed.

Lemma collect_length {E A B} (f : A -> result E B) l ys :
  collect f l = Ok ys -> length ys = length l.
Proof. rewrite collect_Ok. intros H. by apply Forall2_length in H. Qed.

Lemma for_each_Ok {E A} (f : A -> result E unit) l :
  for_each f l = Ok tt <-> Forall (fun x => f x = Ok tt) l.
Proof.
  induction l as [|x l IH]; cbn; [done |].
  rewrite Forall_cons. destruct (f x) as [[]|] eqn:Hx; [tauto |].
  split; [done | by intros [? _]].
Qed.

Lemma enumerate_from_length {A} i (l : list A) :
  length (enumerate_from i l) = length l.
Proof. revert i; induction l; intros i; cbn; auto. Qed.

Lemma enumerate_from_lookup {A} i (l : list A) n :
  enumerate_from i l !! n = (fun x => (i + n, x)) <$> l !! n.
Proof.
  revert i n; induction l as [|x l IH]; intros i [|n]; cbn; [done.. | |].
  - by rewrite Nat.add_0_r.
  - rewrite IH. by replace (i + S n) with (S i + n) by lia.
Qed.

Lemma elem_of_concat_map {A B} (f : A -> list B) l y :
  y ∈ concat (map f l) <-> exists x, x ∈ l /\ y ∈ f x.
Proof.
  induction l as [|x l IH]; cbn.
  - split; [intros Hy; by inversion Hy | intros (? & Hx & _); by inversion Hx].
  - rewrite elem_of_app, IH. set_solver.
Qed.

Lemma elem_of_flat_map {A B} (f : A -> list B) l y :
  y ∈ flat_map f l <-> exists x, x ∈ l /\ y ∈ f x.
Proof. rewrite flat_map_concat_map. apply elem_of_concat_map. Qed.

(** Elements of a list with distinct keys are told apart by their keys. *)
Lemma NoDup_map_inj {A B} (g : A -> B) l x y :
  NoDup (map g l) -> x ∈ l -> y ∈ l -> g x = g y -> x = y.
Proof.
  induction l as [|z l IH]; cbn; [intros _ Hx; by inversion Hx |].
  intros [Hz Hl]%NoDup_cons Hx%elem_of_cons Hy%elem_of_cons Heq.
  destruct Hx as [-> | Hx], Hy as [-> | Hy]; [done | | | by apply IH];
    exfalso; apply Hz; [rewrite Heq | rewrite <- Heq]; by apply list_elem_of_fmap_2.
Qed.

#[export] Hint Rewrite @collect_Ok @for_each_Ok @map_err_Ok @bind_Ok @bind_Done : marreta.

Lemma for_each_Err {E A} (f : A -> result E unit) l e :
  for_each f l = Err e -> exists x, x ∈ l /\ f x = Err e.
Proof.
  induction l as [|x l IH]; cbn; [done |].
  destruct (f x) eqn:Hx; [intros (y & ? & ?)%IH | intros [= ->]];
    eexists; (split; [| eassumption]); set_solver.
Qed.

(** * Hash maps

    A [HashMap] is a [gmap].  Iterating over one visits its entries in an
    order the program cannot rely on: a parameter, constrained only to visit
    every entry once. *)

Class HashOrder : Type := {
  entries {V : Type} : gmap string V -> list (string * V);
  entries_perm {V : Type} (m : gmap string V) : entries m ≡ₚ map_to_list m;
}.

Lemma elem_of_entries `{HashOrder} {V} (m : gmap string V) k v :
  (k, v) ∈ entries m <-> m !! k = Some v.
Proof. by rewrite entries_perm, elem_of_map_to_list. Qed.

(** One such order, for the examples. *)
Definition sorted_order : HashOrder :=
  {| entries V m := map_to_list m; entries_perm V m := Permutation_refl _ |}.

(** * Tactics *)

(** Splits a hypothesis that a monadic program returned a value into the
    values of its parts. *)
Ltac inv_ok :=
  repeat match goal with
  | H : _ ≫= _ = Ok _ |- _ => apply bind_Ok in H as (? & ? & ?)
  | H : _ ≫= _ = Done _ |- _ => apply bind_Done in H as (? & ? & ?)
  | H : map_err _ _ = Ok _ |- _ => apply map_err_Ok in H
  | H : Ok _ = Ok _ |- _ => injection H as H
  | H : Done _ = Done _ |- _ => injection H as H
  | H : Err _ = Ok _ |- _ => discriminate H
  | H : Fails _ = Done _ |- _ => discriminate H
  | H : Panics = Done _ |- _ => discriminate H
  | H : NoFuel = Done _ |- _ => discriminate H
  | H : mret _ = _ |- _ => progress cbn in H
  end; subst.

(** Case analysis on the scrutinee of the match in hypothesis [H]. *)
Ltac case_in H :=
  match type of H with
  | context [match ?x with _ => _ end] => destruct x eqn:?
  end.
