(* ===== verification/RustStr.v ===== *)
(** The part of Rust's standard library on characters, strings and machine
    integers that the components use.  A [String] is its UTF-8 bytes (a Rocq
    [string]); a [char] is its Unicode scalar value (an [N]).  Byte-level
    operations ([split] on an ASCII character, [starts_with], [join], [len])
    are on [string]; operations the code performs per [char] go through
    [chars] and [of_chars]. *)
From stdpp Require Import base list strings gmap pretty.
From Stdlib Require Import ZArith Lia.
From Stdlib Require Ascii.
Export Ascii.AsciiSyntax.
From S2P Require Import Prelude.

(** * Machine integers *)

Definition i64_min : Z := - 2 ^ 63.
Definition i64_max : Z := 2 ^ 63 - 1.
Definition in_i64 (z : Z) : bool := (i64_min <=? z)%Z && (z <=? i64_max)%Z.
(** Two's complement wrap-around to 64 bits. *)
Definition wrap_i64 (z : Z) : Z := ((z + 2 ^ 63) mod 2 ^ 64 - 2 ^ 63)%Z.
(** [as u16] of an [i64]. *)
Definition to_u16 (z : Z) : Z := (z mod 2 ^ 16)%Z.

Lemma in_i64_spec z : in_i64 z = true <-> (i64_min <= z <= i64_max)%Z.
Proof. unfold in_i64. rewrite andb_true_iff, !Z.leb_le. done. Qed.

Lemma wrap_i64_range z : in_i64 (wrap_i64 z) = true.
Proof.
  apply in_i64_spec. unfold wrap_i64, i64_min, i64_max.
  pose proof (Z.mod_pos_bound (z + 2 ^ 63) (2 ^ 64) eq_refl). lia.
Qed.

Lemma wrap_i64_id z : in_i64 z = true -> wrap_i64 z = z.
Proof.
  rewrite in_i64_spec. unfold wrap_i64, i64_min, i64_max. intros ?.
  rewrite Z.mod_small by lia. lia.
Qed.

(** * Characters *)

Definition ch (a : Ascii.ascii) : N := Ascii.N_of_ascii a.
Arguments ch _%_char_scope.

Definition between (lo hi c : N) : bool := (lo <=? c)%N && (c <=? hi)%N.

Definition is_ascii_digit (c : N) : bool := between (ch "0") (ch "9") c.
Definition is_ascii_lowercase (c : N) : bool := between (ch "a") (ch "z") c.
Definition is_ascii_uppercase (c : N) : bool := between (ch "A") (ch "Z") c.
Definition is_ascii_alphabetic (c : N) : bool :=
  is_ascii_lowercase c || is_ascii_uppercase c.
Definition is_ascii_alphanumeric (c : N) : bool :=
  is_ascii_alphabetic c || is_ascii_digit c.
Definition is_ascii_control (c : N) : bool := (c <? 32)%N || (c =? 127)%N.

Definition to_ascii_lowercase_char (c : N) : N :=
  if is_ascii_uppercase c then (c + 32)%N else c.
Definition to_ascii_uppercase_char (c : N) : N :=
  if is_ascii_lowercase c then (c - 32)%N else c.

(** [char::is_whitespace]: the Unicode property White_Space. *)
Definition is_whitespace (c : N) : bool :=
  between 9 13 c || (c =? 32)%N || (c =? 133)%N || (c =? 160)%N || (c =? 5760)%N
  || between 8192 8202 c || (c =? 8232)%N || (c =? 8233)%N || (c =? 8239)%N
  || (c =? 8287)%N || (c =? 12288)%N.

(** A Unicode scalar value. *)
Definition is_scalar (c : N) : bool :=
  (c <? 55296)%N || between 57344 1114111 c.

(** * UTF-8 *)

Definition byte (n : N) : Ascii.ascii := Ascii.ascii_of_N n.

Definition encode_char (c : N) (rest : string) : string :=
  if (c <? 128)%N then String (byte c) rest
  else if (c <? 2048)%N then
    String (byte (192 + c / 64)) (String (byte (128 + c mod 64)) rest)
  else if (c <? 65536)%N then
    String (byte (224 + c / 4096))
      (String (byte (128 + (c / 64) mod 64)) (String (byte (128 + c mod 64)) rest))
  else
    String (byte (240 + c / 262144))
      (String (byte (128 + (c / 4096) mod 64))
        (String (byte (128 + (c / 64) mod 64)) (String (byte (128 + c mod 64)) rest))).

(** [iter().collect::<String>()] on [char]s. *)
Definition of_chars (l : list N) : string := foldr encode_char EmptyString l.

(** [str::chars] on a valid UTF-8 string (a Rust [str] always is one); on a
    malformed sequence it decodes the bytes that are there. *)
Fixpoint chars (s : string) : list N :=
  match s with
  | EmptyString => []
  | String a s1 =>
      let b0 := ch a in
      if (b0 <? 128)%N then b0 :: chars s1
      else if (b0 <? 224)%N then
        match s1 with
        | String b1 s2 => ((b0 - 192) * 64 + (ch b1 - 128))%N :: chars s2
        | EmptyString => [b0]
        end
      else if (b0 <? 240)%N then
        match s1 with
        | String b1 (String b2 s3) =>
            ((b0 - 224) * 4096 + (ch b1 - 128) * 64 + (ch b2 - 128))%N :: chars s3
        | _ => [b0]
        end
      else
        match s1 with
        | String b1 (String b2 (String b3 s4)) =>
            ((b0 - 240) * 262144 + (ch b1 - 128) * 4096 + (ch b2 - 128) * 64
               + (ch b3 - 128))%N :: chars s4
        | _ => [b0]
        end
  end.

Lemma ch_byte n : (n < 256)%N -> ch (byte n) = n.
Proof. apply Ascii.N_ascii_embedding. Qed.

Lemma ch_bounded a : (ch a < 256)%N.
Proof. apply Ascii.N_ascii_bounded. Qed.

Lemma byte_ch a : byte (ch a) = a.
Proof. apply Ascii.ascii_N_embedding. Qed.

Lemma ch_inj a b : ch a = ch b -> a = b.
Proof. intros H. by rewrite <- (byte_ch a), H, byte_ch. Qed.

Section Utf8.
#[local] Ltac Zify.zify_post_hook ::= Z.to_euclidean_division_equations.

Lemma encode_char_decode c rest :
    is_scalar c = true -> chars (encode_char c rest) = c :: chars rest.
Proof.
    unfold is_scalar, between.
    rewrite orb_true_iff, andb_true_iff, N.ltb_lt, !N.leb_le. intros Hc.
    unfold encode_char.
    destruct (N.ltb_spec c 128); [| destruct (N.ltb_spec c 2048);
      [| destruct (N.ltb_spec c 65536)]]; cbn [chars];
      rewrite ?ch_byte by lia;
      repeat match goal with
      | |- context [(?a <? ?b)%N] => destruct (N.ltb_spec a b); [try lia|try lia]
      end; f_equal; lia.
Qed.
End Utf8.

(** Decoding is a left inverse of encoding on scalar values. *)
Lemma chars_of_chars l :
  forallb is_scalar l = true -> chars (of_chars l) = l.
Proof.
  induction l as [|c l IH]; [done |]. cbn [forallb].
  intros [Hc Hl]%andb_true_iff. change (of_chars (c :: l)) with (encode_char c (of_chars l)).
  by rewrite encode_char_decode, IH.
Qed.

(** [bytes()] as values. *)
Fixpoint bytes (s : string) : list N :=
  match s with EmptyString => [] | String a s => ch a :: bytes s end.

(** A string of ASCII characters is its own encoding. *)
Definition is_ascii (s : string) : bool := forallb (fun c => (c <? 128)%N) (bytes s).

Lemma chars_ascii s : is_ascii s = true -> chars s = bytes s.
Proof.
  induction s as [|a s IH]; [done |]. unfold is_ascii; cbn [bytes forallb].
  intros [Ha Hs]%andb_true_iff. cbn [chars]. rewrite Ha. by rewrite IH.
Qed.

Lemma of_chars_bytes s : is_ascii s = true -> of_chars (bytes s) = s.
Proof.
  induction s as [|a s IH]; [done |]. unfold is_ascii; cbn [bytes forallb].
  intros [Ha Hs]%andb_true_iff.
  change (of_chars (ch a :: bytes s)) with (encode_char (ch a) (of_chars (bytes s))).
  unfold encode_char. rewrite Ha, byte_ch. by rewrite IH.
Qed.

(** * String operations *)

(** [str::starts_with] and [str::strip_prefix]. *)
Definition starts_with (p s : string) : bool := String.prefix p s.

Fixpoint strip_prefix (p s : string) : option string :=
  match p, s with
  | EmptyString, _ => Some s
  | String a p, String b s => if Ascii.eqb a b then strip_prefix p s else None
  | String _ _, EmptyString => None
  end.

(** [str::strip_suffix]. *)
Fixpoint strip_suffix (p s : string) : option string :=
  if String.eqb p s then Some EmptyString
  else match s with
       | EmptyString => None
       | String a s => String a <$> strip_suffix p s
       end.

(** [str::contains(&str)]. *)
Definition str_contains (needle s : string) : bool :=
  match String.index 0 needle s with Some _ => true | None => false end.

(** [str::contains(char)] for an ASCII character. *)
Fixpoint str_has (a : Ascii.ascii) (s : string) : bool :=
  match s with
  | EmptyString => false
  | String b s => Ascii.eqb a b || str_has a s
  end.
Arguments str_has _%_char_scope _.

(** [str::split(char)] for an ASCII separator: never empty. *)
Fixpoint split_on (a : Ascii.ascii) (s : string) : list string :=
  match s with
  | EmptyString => [EmptyString]
  | String b s =>
      if Ascii.eqb a b then EmptyString :: split_on a s
      else match split_on a s with
           | [] => [String b EmptyString]
           | w :: ws => String b w :: ws
           end
  end.
Arguments split_on _%_char_scope _.

(** [str::split_once(char)]. *)
Fixpoint split_once (a : Ascii.ascii) (s : string) : option (string * string) :=
  match s with
  | EmptyString => None
  | String b s =>
      if Ascii.eqb a b then Some (EmptyString, s)
      else match split_once a s with
           | None => None
           | Some (l, r) => Some (String b l, r)
           end
  end.
Arguments split_once _%_char_scope _.

(** [[String]::join(sep)]. *)
Fixpoint join (sep : string) (l : list string) : string :=
  match l with
  | [] => EmptyString
  | [w] => w
  | w :: ws => w +:+ sep +:+ join sep ws
  end.

(** [str::trim], [str::split_whitespace]. *)
Fixpoint drop_while {A} (p : A -> bool) (l : list A) : list A :=
  match l with
  | [] => []
  | x :: l' => if p x then drop_while p l' else l
  end.
Definition trim_chars (l : list N) : list N :=
  rev (drop_while is_whitespace (rev (drop_while is_whitespace l))).
Definition trim (s : string) : string := of_chars (trim_chars (chars s)).

(** The maximal runs of non-whitespace characters; [cur] is the run being
    read, reversed. *)
Fixpoint words_of (cur : list N) (l : list N) : list (list N) :=
  match l with
  | [] => match cur with [] => [] | _ => [rev cur] end
  | c :: l =>
      if is_whitespace c
      then match cur with [] => words_of [] l | _ => rev cur :: words_of [] l end
      else words_of (c :: cur) l
  end.
Definition split_whitespace (s : string) : list string :=
  of_chars <$> words_of [] (chars s).

Fixpoint map_bytes (f : N -> N) (s : string) : string :=
  match s with
  | EmptyString => EmptyString
  | String a s => String (byte (f (ch a))) (map_bytes f s)
  end.
(** [str::to_ascii_lowercase], [str::to_ascii_uppercase]. *)
Definition to_ascii_lowercase : string -> string := map_bytes to_ascii_lowercase_char.
Definition to_ascii_uppercase : string -> string := map_bytes to_ascii_uppercase_char.

(** [str::replace(char, char)] on ASCII characters. *)
Definition replace_char (a b : Ascii.ascii) : string -> string :=
  map_bytes (fun c => if (c =? ch a)%N then ch b else c).
Arguments replace_char _%_char_scope _%_char_scope.

Definition dquote : string := String (byte 34) EmptyString.

(** Decimal printing of integers ([Display]). *)
Definition show_Z (z : Z) : string := pretty z.
Definition show_nat (n : nat) : string := pretty n.

(** Reading decimal digits, most significant first. *)
Definition digits_value (l : list N) : Z :=
  foldl (fun acc c => (acc * 10 + Z.of_N (c - ch "0"))%Z) 0%Z l.

(** [str::parse::<i64>()]: an optional sign, at least one digit, in range. *)
Definition parse_i64_chars (l : list N) : option Z :=
  let '(neg, ds) :=
    match l with
    | c :: r => if (c =? ch "-")%N then (true, r)
                else if (c =? ch "+")%N then (false, r) else (false, l)
    | [] => (false, [])
    end in
  match ds with
  | [] => None
  | _ => if forallb is_ascii_digit ds
         then let n := digits_value ds in
              let z := if neg then (- n)%Z else n in
              if in_i64 z then Some z else None
         else None
  end.
Definition parse_i64 (s : string) : option Z := parse_i64_chars (chars s).

(** [str::parse::<u64>()]: an optional plus sign, at least one digit, in range. *)
Definition u64_max : Z := 2 ^ 64 - 1.
Definition parse_u64 (s : string) : option Z :=
  let ds := match chars s with
            | c :: r => if (c =? ch "+")%N then r else c :: r
            | [] => []
            end in
  match ds with
  | [] => None
  | _ => if forallb is_ascii_digit ds
         then let n := digits_value ds in if (n <=? u64_max)%Z then Some n else None
         else None
  end.

(** [byte.is_ascii_hexdigit()]. *)
Definition is_ascii_hexdigit (c : N) : bool :=
  is_ascii_digit c || between (ch "a") (ch "f") c || between (ch "A") (ch "F") c.

(** * Valid strings

    A Rust [String] is the UTF-8 encoding of scalar values.  Trimming and
    splitting keep it one. *)

Definition valid_str (s : string) : Prop :=
  exists l, s = of_chars l /\ forallb is_scalar l = true.

Lemma forallb_incl {A} (p : A -> bool) l l' :
  (forall x, x ∈ l' -> x ∈ l) -> forallb p l = true -> forallb p l' = true.
Proof.
  intros Hsub. rewrite !forallb_forall. intros Hp x Hx%list_elem_of_In.
  apply Hp, list_elem_of_In. auto.
Qed.

Lemma drop_while_incl {A} (p : A -> bool) l x : x ∈ drop_while p l -> x ∈ l.
Proof.
  induction l as [|y l IH]; cbn; [done |]. destruct (p y); [| done]. intros Hx. right. auto.
Qed.

Lemma elem_of_rev {A} (l : list A) x : x ∈ rev l <-> x ∈ l.
Proof. rewrite !list_elem_of_In. symmetry. apply in_rev. Qed.

Lemma valid_trim s : valid_str s -> valid_str (trim s).
Proof.
  intros (l & -> & Hl). exists (trim_chars l). unfold trim. rewrite chars_of_chars by done.
  split; [done |]. eapply forallb_incl; [| exact Hl]. unfold trim_chars.
  intros x Hx%elem_of_rev%drop_while_incl%elem_of_rev%drop_while_incl. done.
Qed.

Lemma words_of_incl cur l w x : w ∈ words_of cur l -> x ∈ w -> x ∈ cur \/ x ∈ l.
Proof.
  revert cur. induction l as [|c l IH]; intros cur; cbn.
  - destruct cur; [intros Hw; by inversion Hw |].
    intros ->%list_elem_of_singleton Hx. left. by apply elem_of_rev.
  - destruct (is_whitespace c).
    + destruct cur as [|d cur].
      * intros Hw Hx. destruct (IH _ Hw Hx) as [Hn | ?]; [by inversion Hn | right; by right].
      * intros [-> | Hw]%elem_of_cons Hx; [left; by apply elem_of_rev |].
        destruct (IH _ Hw Hx) as [Hn | ?]; [by inversion Hn | right; by right].
    + intros Hw Hx. destruct (IH _ Hw Hx) as [[-> | ?]%elem_of_cons | ?];
        [right; by left | by left | right; by right].
Qed.

Lemma valid_split_whitespace s w : valid_str s -> w ∈ split_whitespace s -> valid_str w.
Proof.
  intros (l & -> & Hl) (v & -> & Hv)%list_elem_of_fmap. rewrite chars_of_chars in Hv by done.
  exists v. split; [done |]. eapply forallb_incl; [| exact Hl].
  intros x Hx. by destruct (words_of_incl [] l v x Hv Hx) as [Hn | ?]; [inversion Hn |].
Qed.

(** Splitting a list of characters. *)
Fixpoint split_list (a : N) (l : list N) : list (list N) :=
  match l with
  | [] => [[]]
  | c :: l =>
      if (c =? a)%N then [] :: split_list a l
      else match split_list a l with
           | [] => [[c]]
           | w :: ws => (c :: w) :: ws
           end
  end.

Lemma split_list_incl a l w x : w ∈ split_list a l -> x ∈ w -> x ∈ l.
Proof.
  revert w. induction l as [|c l IH]; cbn; intros w.
  - intros ->%list_elem_of_singleton Hx. by inversion Hx.
  - destruct (c =? a)%N.
    + intros [-> | Hw]%elem_of_cons Hx; [by inversion Hx | right; eauto].
    + destruct (split_list a l) as [|w1 ws] eqn:Hs.
      * intros ->%list_elem_of_singleton ->%list_elem_of_singleton. by left.
      * intros [-> | Hw]%elem_of_cons Hx; [| right; eapply IH; [right |]; eauto].
        apply elem_of_cons in Hx as [-> | Hx]; [by left | right; eapply IH; [left |]; eauto].
Qed.

(** The bytes of a character. *)
Definition enc_bytes (c : N) : list Ascii.ascii :=
  if (c <? 128)%N then [byte c]
  else if (c <? 2048)%N then [byte (192 + c / 64); byte (128 + c mod 64)]
  else if (c <? 65536)%N then
    [byte (224 + c / 4096); byte (128 + (c / 64) mod 64); byte (128 + c mod 64)]
  else [byte (240 + c / 262144); byte (128 + (c / 4096) mod 64); byte (128 + (c / 64) mod 64);
        byte (128 + c mod 64)].

Lemma encode_char_bytes c rest : encode_char c rest = fold_right String rest (enc_bytes c).
Proof.
  unfold encode_char, enc_bytes.
  destruct (c <? 128)%N; [done |]. destruct (c <? 2048)%N; [done |]. by destruct (c <? 65536)%N.
Qed.

Section EncodeHigh.
#[local] Ltac Zify.zify_post_hook ::= Z.to_euclidean_division_equations.

  (** No byte of a character is another ASCII character. *)
Lemma enc_bytes_ne a c :
    is_scalar c = true -> (ch a < 128)%N -> c <> ch a -> Forall (fun b => b <> a) (enc_bytes c).
Proof.
    unfold is_scalar, between. rewrite orb_true_iff, andb_true_iff, N.ltb_lt, !N.leb_le.
    intros Hc Ha Hne.
    assert (Hb : forall n, (n < 256)%N -> n <> ch a -> byte n <> a)
      by (intros n Hn Hna <-; rewrite ch_byte in Hna by done; done).
    unfold enc_bytes. destruct (N.ltb_spec c 128); [| destruct (N.ltb_spec c 2048);
      [| destruct (N.ltb_spec c 65536)]]; repeat constructor; apply Hb; lia.
Qed.
End EncodeHigh.

Lemma split_on_nonnil a s : split_on a s <> [].
Proof.
  destruct s as [|b s]; cbn; [done |]. destruct (Ascii.eqb a b); [done |].
  by destruct (split_on a s).
Qed.

Lemma split_on_bytes a bs s w ws :
  Forall (fun b => b <> a) bs -> split_on a s = w :: ws ->
  split_on a (fold_right String s bs) = fold_right String w bs :: ws.
Proof.
  intros Hbs Hs. induction Hbs as [|b bs Hb _ IH]; cbn; [done |].
  destruct (Ascii.eqb_spec a b); [congruence |]. by rewrite IH.
Qed.

Lemma split_on_chars a l :
  (ch a < 128)%N -> forallb is_scalar l = true ->
  split_on a (of_chars l) = map of_chars (split_list (ch a) l).
Proof.
  intros Ha. induction l as [|c l IH]; [done |]. cbn [forallb]. intros [Hc Hl]%andb_true_iff.
  specialize (IH Hl). change (of_chars (c :: l)) with (encode_char c (of_chars l)).
  cbn [split_list]. destruct (N.eqb_spec c (ch a)) as [->|Hne].
  - unfold encode_char. rewrite (proj2 (N.ltb_lt _ _)) by done. cbn [split_on].
    rewrite byte_ch, Ascii.eqb_refl. cbn [map]. by rewrite IH.
  - rewrite encode_char_bytes.
    destruct (split_list (ch a) l) as [|w ws] eqn:Hs.
    { exfalso. by apply (split_on_nonnil a (of_chars l)). }
    rewrite (split_on_bytes _ _ _ (of_chars w) (map of_chars ws));
      [| by apply enc_bytes_ne | done].
    cbn [map]. by rewrite <- encode_char_bytes.
Qed.

Lemma valid_split a s w :
  (ch a < 128)%N -> valid_str s -> w ∈ split_on a s -> valid_str w.
Proof.
  intros Ha (l & -> & Hl). rewrite split_on_chars by done.
  intros (v & -> & Hv)%list_elem_of_fmap. exists v. split; [done |].
  eapply forallb_incl; [| exact Hl]. intros x Hx. by eapply split_list_incl.
Qed.

(** In a valid string, ASCII characters are bytes. *)
Lemma valid_ascii_bytes (p : N -> bool) s :
  (forall c, p c = true -> (c < 128)%N) -> valid_str s -> forallb p (chars s) = true ->
  chars s = bytes s.
Proof.
  intros Hp (l & -> & Hl). rewrite chars_of_chars by done. intros Hall.
  induction l as [|c l IH]; [done |]. cbn [forallb] in *.
  apply andb_true_iff in Hl as [_ Hl], Hall as [Hc Hall].
  change (of_chars (c :: l)) with (encode_char c (of_chars l)). unfold encode_char.
  apply Hp in Hc as Hlt. rewrite (proj2 (N.ltb_lt c 128)) by done. cbn [bytes].
  rewrite ch_byte by lia. f_equal. auto.
Qed.

Lemma valid_ascii s : is_ascii s = true -> valid_str s.
Proof.
  intros Hs. exists (bytes s). split; [by rewrite of_chars_bytes |].
  unfold is_ascii in Hs. rewrite forallb_forall in *. intros c Hc. specialize (Hs c Hc).
  unfold is_scalar. apply N.ltb_lt in Hs. rewrite (proj2 (N.ltb_lt c 55296)) by lia. done.
Qed.

(** ** Splitting and joining are inverse *)

Lemma split_on_free a s w : w ∈ split_on a s -> str_has a w = false.
Proof.
  revert w. induction s as [|b s IH]; cbn; intros w.
  - intros ->%list_elem_of_singleton. done.
  - destruct (Ascii.eqb a b) eqn:Hab.
    + intros [-> | Hw]%elem_of_cons; [done | auto].
    + destruct (split_on a s) as [|w1 ws] eqn:Hs.
      * intros ->%list_elem_of_singleton. cbn. by rewrite Hab.
      * intros [-> | Hw]%elem_of_cons; [| apply IH; by right].
        cbn. rewrite Hab. apply IH. by left.
Qed.

Lemma split_on_app a w s :
  str_has a w = false -> split_on a (w +:+ String a s) = w :: split_on a s.
Proof.
  induction w as [|b w IH]; cbn [str_has].
  - change (EmptyString +:+ String a s) with (String a s). cbn [split_on].
    by rewrite Ascii.eqb_refl.
  - intros [Hb Hw]%orb_false_iff.
    change (String b w +:+ String a s) with (String b (w +:+ String a s)). cbn [split_on].
    by rewrite Hb, IH.
Qed.

Lemma split_on_word a w : str_has a w = false -> split_on a w = [w].
Proof.
  induction w as [|b w IH]; cbn; [done |]. intros [Hb Hw]%orb_false_iff.
  by rewrite Hb, IH.
Qed.

Lemma split_join a l :
  l <> [] -> (forall w, w ∈ l -> str_has a w = false) ->
  split_on a (join (String a EmptyString) l) = l.
Proof.
  induction l as [|w l IH]; [done |]. intros _ Hl.
  destruct l as [|w2 l]; [apply split_on_word, Hl; by left |].
  change (join (String a EmptyString) (w :: w2 :: l))
    with (w +:+ String a (join (String a EmptyString) (w2 :: l))).
  rewrite split_on_app by (apply Hl; by left).
  f_equal. apply IH; [done |]. intros v Hv. apply Hl. by right.
Qed.

Lemma join_split a s : join (String a EmptyString) (split_on a s) = s.
Proof.
  induction s as [|b s IH]; cbn [split_on]; [done |].
  pose proof (split_on_nonnil a s) as Hne.
  destruct (Ascii.eqb_spec a b) as [<-|Hab].
  - destruct (split_on a s) as [|w ws] eqn:Hs; [done |].
    change (String a (join (String a EmptyString) (w :: ws)) = String a s). by rewrite IH.
  - destruct (split_on a s) as [|w [|w2 ws]] eqn:Hs; [done | |].
    + change (String b w = String b s). by f_equal.
    + change (String b (join (String a EmptyString) (w :: w2 :: ws)) = String b s). by rewrite IH.
Qed.
Arguments split_join a%_char_scope.

(** ** Concatenation *)

Lemma append_assoc a b c : (a +:+ b) +:+ c = a +:+ (b +:+ c).
Proof. induction a as [|x a IH]; [done |]. exact (f_equal (String x) IH). Qed.

Lemma append_nil_r a : a +:+ EmptyString = a.
Proof. induction a as [|x a IH]; [done |]. exact (f_equal (String x) IH). Qed.

Lemma str_has_app a s t : str_has a (s +:+ t) = str_has a s || str_has a t.
Proof.
  induction s as [|b s IH]; [done |]. change (String b s +:+ t) with (String b (s +:+ t)).
  cbn [str_has]. by rewrite IH, orb_assoc.
Qed.

Lemma bytes_cons a s : bytes (String a s) = ch a :: bytes s.
Proof. reflexivity. Qed.

Lemma strip_prefix_append p s : strip_prefix p (p +:+ s) = Some s.
Proof.
  induction p as [|a p IH]; [done |].
  change (String a p +:+ s) with (String a (p +:+ s)). cbn. by rewrite Ascii.eqb_refl.
Qed.

Lemma split_once_app (a : Ascii.ascii) w s :
  str_has a w = false -> split_once a (w +:+ String a s) = Some (w, s).
Proof.
  induction w as [|b w IH]; cbn [str_has].
  - change (EmptyString +:+ String a s) with (String a s). cbn. by rewrite Ascii.eqb_refl.
  - intros [Hb Hw]%orb_false_iff.
    change (String b w +:+ String a s) with (String b (w +:+ String a s)).
    cbn [split_once]. by rewrite Hb, IH.
Qed.

Lemma split_once_Some (a : Ascii.ascii) s l r :
  split_once a s = Some (l, r) -> s = l +:+ String a r /\ str_has a l = false.
Proof.
  revert l. induction s as [|b s IH]; intros l; [done |]. cbn [split_once].
  destruct (Ascii.eqb a b) eqn:Hb.
  - apply Ascii.eqb_eq in Hb as <-. by intros [= <- <-].
  - destruct (split_once a s) as [[l' r']|]; [| done]. intros [= <- <-].
    destruct (IH l') as [-> Hl]; [done |]. split; [done |]. cbn [str_has]. by rewrite Hb.
Qed.

Lemma bytes_app s t : bytes (s +:+ t) = bytes s ++ bytes t.
Proof. induction s as [|a s IH]; [done |]. cbn. by rewrite <- IH. Qed.
