(* ===== verification/F64.v ===== *)
(** Rust's [f64]: IEEE 754 binary64, as Rocq's [spec_float] with 53 bits of
    precision and maximal exponent 1024.  Arithmetic rounds to nearest even;
    [==], [<] and [partial_cmp] are the IEEE comparisons. *)
From stdpp Require Import base list strings pretty.
From Stdlib Require Import ZArith Lia SpecFloat.
From S2P Require Import Prelude RustStr.

Notation f64 := spec_float.

Definition f64_prec : Z := 53.
Definition f64_emax : Z := 1024.

Definition f64_add : f64 -> f64 -> f64 := SFadd f64_prec f64_emax.
Definition f64_sub : f64 -> f64 -> f64 := SFsub f64_prec f64_emax.
Definition f64_mul : f64 -> f64 -> f64 := SFmul f64_prec f64_emax.
Definition f64_div : f64 -> f64 -> f64 := SFdiv f64_prec f64_emax.
Definition f64_neg : f64 -> f64 := SFopp.
Definition f64_eqb : f64 -> f64 -> bool := SFeqb.
(** [partial_cmp]: [None] when an operand is NaN. *)
Definition f64_cmp : f64 -> f64 -> option comparison := SFcompare.

(** [n as f64] for an integer. *)
Definition f64_of_Z (n : Z) : f64 := binary_normalize f64_prec f64_emax n 0 false.

(** The value of [m * 10^e], correctly rounded. *)
Definition f64_of_decimal (neg : bool) (m : N) (e : Z) : f64 :=
  match m with
  | N0 => S754_zero neg
  | Npos p =>
      if (0 <=? e)%Z
      then binary_normalize f64_prec f64_emax
             ((if neg then Z.opp else id) (Zpos p * 10 ^ e)%Z) 0 neg
      else f64_div (S754_finite neg p 0)
             (S754_finite false (Z.to_pos (10 ^ (- e))) 0)
  end.

Definition f64_is_zero (x : f64) : bool :=
  match x with S754_zero _ => true | _ => false end.

Definition f64_is_finite (x : f64) : bool :=
  match x with S754_zero _ | S754_finite _ _ _ => true | _ => false end.

(** The integer part, truncated toward zero, of a finite float. *)
Definition f64_trunc (x : f64) : Z :=
  match x with
  | S754_finite s m e =>
      let a := if (0 <=? e)%Z then (Zpos m * 2 ^ e)%Z else (Zpos m / 2 ^ (- e))%Z in
      if s then (- a)%Z else a
  | _ => 0%Z
  end.

(** [x.fract() == 0.0]: infinities and NaN have a NaN fraction. *)
Definition f64_is_integral (x : f64) : bool :=
  match x with
  | S754_zero _ => true
  | S754_finite _ m e => (0 <=? e)%Z || (Zpos m mod 2 ^ (- e) =? 0)%Z
  | _ => false
  end.

(** [x as i64]: saturating, NaN is 0. *)
Definition f64_to_i64 (x : f64) : Z :=
  match x with
  | S754_nan => 0%Z
  | S754_infinity s => if s then i64_min else i64_max
  | _ => Z.max i64_min (Z.min i64_max (f64_trunc x))
  end.

(** [x.round()]: nearest integer, halfway cases away from zero. *)
Definition f64_round (x : f64) : f64 :=
  match x with
  | S754_finite s m e =>
      if (0 <=? e)%Z then x
      else
        let q := (2 ^ (- e))%Z in
        let a := ((2 * Zpos m + q) / (2 * q))%Z in
        binary_normalize f64_prec f64_emax (if s then (- a)%Z else a) 0 s
  | _ => x
  end.

(** [x % y]: the remainder of the truncated division, with the sign of [x]. *)
Definition f64_rem (x y : f64) : f64 :=
  match x, y with
  | S754_nan, _ | _, S754_nan => S754_nan
  | S754_infinity _, _ => S754_nan
  | _, S754_zero _ => S754_nan
  | S754_zero _, _ => x
  | _, S754_infinity _ => x
  | S754_finite sx mx ex, S754_finite _ my ey =>
      let e := Z.min ex ey in
      let r := ((Zpos mx * 2 ^ (ex - e)) mod (Zpos my * 2 ^ (ey - e)))%Z in
      binary_normalize f64_prec f64_emax (if sx then (- r)%Z else r) e sx
  end.

(** Splits the leading ASCII digits off. *)
Fixpoint take_digits (l : list N) : list N * list N :=
  match l with
  | c :: l' => if is_ascii_digit c
               then let '(d, r) := take_digits l' in (c :: d, r)
               else ([], l)
  | [] => ([], [])
  end.

(** [str::parse::<f64>()] after the sign: [inf], [infinity] or [nan] in any
    case, or digits with an optional fraction and an optional exponent, with
    at least one digit before the exponent. *)
Definition parse_f64_unsigned (neg : bool) (l : list N) : option f64 :=
  let low := to_ascii_lowercase_char <$> l in
  if decide (low = bytes "inf" \/ low = bytes "infinity") then Some (S754_infinity neg)
  else if decide (low = bytes "nan") then Some S754_nan
  else
    let '(ip, r) := take_digits l in
    let '(fp, r) := match r with
                    | c :: r' => if (c =? ch ".")%N then take_digits r' else ([], r)
                    | [] => ([], r)
                    end in
    match ip ++ fp with
    | [] => None
    | _ =>
        let m := Z.to_N (digits_value (ip ++ fp)) in
        let e := (- Z.of_nat (length fp))%Z in
        match r with
        | [] => Some (f64_of_decimal neg m e)
        | c :: r =>
            if (to_ascii_lowercase_char c =? ch "e")%N then
              let '(eneg, r) := match r with
                                | c :: r' => if (c =? ch "-")%N then (true, r')
                                             else if (c =? ch "+")%N then (false, r')
                                             else (false, r)
                                | [] => (false, r)
                                end in
              let '(ds, r) := take_digits r in
              match ds, r with
              | _ :: _, [] =>
                  let x := digits_value ds in
                  Some (f64_of_decimal neg m (e + (if eneg then (- x)%Z else x)))
              | _, _ => None
              end
            else None
        end
    end.

Definition parse_f64 (s : string) : option f64 :=
  match chars s with
  | [] => None
  | c :: r => if (c =? ch "-")%N then parse_f64_unsigned true r
              else if (c =? ch "+")%N then parse_f64_unsigned false r
              else parse_f64_unsigned false (c :: r)
  end.

Example parse_f64_pi : parse_f64 "3.14" = Some (S754_finite false 7070651414971679 (-51)).
Proof. vm_compute. reflexivity. Qed.

Example parse_f64_exponent : parse_f64 "-25e-1" = parse_f64 "-2.5".
Proof. vm_compute. reflexivity. Qed.

#[export] Instance f64_eq_dec : EqDecision f64.
Proof. solve_decision. Defined.

Lemma f64_eqb_refl x : x <> S754_nan -> f64_eqb x x = true.
Proof.
  destruct x as [s|s| |s m e]; try done; intros _; unfold f64_eqb, SFeqb; cbn;
    try by destruct s.
  rewrite Z.compare_refl, Pos.compare_cont_refl. by destruct s.
Qed.

Lemma f64_to_i64_range x : in_i64 (f64_to_i64 x) = true.
Proof.
  apply in_i64_spec. unfold f64_to_i64, i64_min, i64_max.
  destruct x as [|[]| |]; lia.
Qed.

(** * Printing

    [{}] on an [f64]: the shortest decimal digits that read back as the same
    number (the closest to it among those), in positional notation. *)

Definition digit_count (n : Z) : Z := Z.of_nat (String.length (show_Z n)).

(** The value of a positive finite float as a fraction. *)
Definition fraction (m : positive) (e : Z) : Z * Z :=
  if (0 <=? e)%Z then (Zpos m * 2 ^ e, 1)%Z else (Zpos m, 2 ^ (- e))%Z.

(** The least [k] with [num / den < 10^k]. *)
Definition decimal_exponent (num den : Z) : Z :=
  if (den <=? num)%Z then digit_count (num / den)
  else (- (digit_count ((den - 1) / num) - 1))%Z.

(** The best decimal of [n] digits for the float [x = num / den], if one of
    the two neighbours reads back as [x]. *)
Definition decimal_of_digits (x : f64) (num den k n : Z) : option (Z * Z) :=
  let e := (k - n)%Z in
  let '(a, b) := if (0 <=? e)%Z then (num, den * 10 ^ e)%Z else (num * 10 ^ (- e), den)%Z in
  let lo := (a / b)%Z in
  let reads q := bool_decide (f64_of_decimal false (Z.to_N q) e = x) in
  match reads lo, reads (lo + 1)%Z with
  | false, false => None
  | true, false => Some (lo, e)
  | false, true => Some (lo + 1, e)%Z
  | true, true => if (b <=? 2 * (a - lo * b))%Z then Some (lo + 1, e)%Z else Some (lo, e)
  end.

Fixpoint shortest_decimal (fuel : nat) (x : f64) (num den k n : Z) : Z * Z :=
  match fuel with
  | 0 => (0, 0)%Z
  | S fuel => match decimal_of_digits x num den k n with
              | Some d => d
              | None => shortest_decimal fuel x num den k (n + 1)%Z
              end
  end.

(** Removes the trailing zeros of [q * 10^e] when [e] is negative. *)
Fixpoint strip_zeros (fuel : nat) (q e : Z) : Z * Z :=
  match fuel with
  | 0 => (q, e)
  | S fuel => if (e <? 0)%Z && (q mod 10 =? 0)%Z then strip_zeros fuel (q / 10)%Z (e + 1)%Z
              else (q, e)
  end.

Fixpoint zeros (n : nat) : string :=
  match n with 0 => EmptyString | S n => String (byte 48) (zeros n) end.

(** [q * 10^e] in positional notation. *)
Definition positional (q e : Z) : string :=
  if (0 <=? e)%Z then show_Z q +:+ zeros (Z.to_nat e)
  else
    let d := show_Z q in
    let frac := Z.to_nat (- e) in
    let d := zeros (S frac - String.length d) +:+ d in
    let ip := String.length d - frac in
    String.substring 0 ip d +:+ "." +:+ String.substring ip frac d.

(** Seventeen digits always read back. *)
Definition show_f64_abs (m : positive) (e : Z) : string :=
  let '(num, den) := fraction m e in
  let '(q, d) := shortest_decimal 17 (S754_finite false m e) num den (decimal_exponent num den) 1 in
  let '(q, d) := strip_zeros 17 q d in
  positional q d.

Definition show_f64 (x : f64) : string :=
  match x with
  | S754_nan => "NaN"
  | S754_infinity s => if s then "-inf" else "inf"
  | S754_zero s => if s then "-0" else "0"
  | S754_finite s m e => (if s then "-" else "") +:+ show_f64_abs m e
  end.

(** [{:.1}] on a float without fractional part. *)
Definition show_f64_integral (x : f64) : string :=
  (match x with S754_zero true | S754_finite true _ _ => "-" | _ => "" end)
  +:+ show_Z (Z.abs (f64_trunc x)) +:+ ".0".

Example show_f64_examples :
  map (fun s => show_f64 <$> parse_f64 s) ["0.1"; "-3.14"; "5e-324"; "1e23"; "0.00001"; "123456.789"; "1.7976931348623157e308"]
  = [Some "0.1"; Some "-3.14";
     Some ("0." +:+ zeros 323 +:+ "5");
     Some "100000000000000000000000"; Some "0.00001"; Some "123456.789";
     Some ("17976931348623157" +:+ zeros 292)].
Proof. vm_compute. reflexivity. Qed.

(** ** Converting an integer never gives NaN *)

Lemma iter_pos_invariant {A} (P : A -> Prop) (f : A -> A) p x :
  (forall y, P y -> P (f y)) -> P x -> P (iter_pos f p x).
Proof. intros Hf. revert x. induction p; cbn; auto. Qed.

Lemma shr_1_nonneg r : (0 <= shr_m r)%Z -> (0 <= shr_m (shr_1 r))%Z.
Proof. destruct r as [[|[p|p|]|[p|p|]] b s]; cbn; lia. Qed.

Lemma shr_fexp_nonneg m e l :
  (0 <= m)%Z -> (0 <= shr_m (fst (shr_fexp f64_prec f64_emax m e l)))%Z.
Proof.
  intros Hm. unfold shr_fexp, shr.
  assert (0 <= shr_m (shr_record_of_loc m l))%Z by (destruct l as [|[]]; done).
  destruct (_ - _)%Z; cbn; try done.
  by apply (iter_pos_invariant (fun r => (0 <= shr_m r)%Z)); [apply shr_1_nonneg |].
Qed.

Lemma f64_of_Z_not_nan z : f64_of_Z z <> S754_nan.
Proof.
  unfold f64_of_Z, binary_normalize.
  assert (Haux : forall s m e l, (0 <= m)%Z ->
    binary_round_aux f64_prec f64_emax s m e l <> S754_nan).
  { intros s m e l Hm. unfold binary_round_aux.
    pose proof (shr_fexp_nonneg m e l Hm) as H1.
    destruct (shr_fexp f64_prec f64_emax m e l) as [r e1]. cbn in H1.
    assert (H2 : (0 <= round_nearest_even (shr_m r) (loc_of_shr_record r))%Z).
    { unfold round_nearest_even. destruct (loc_of_shr_record r) as [|[]]; try lia.
      destruct (Z.even _); lia. }
    pose proof (shr_fexp_nonneg _ e1 loc_Exact H2) as H3.
    destruct (shr_fexp f64_prec f64_emax _ e1 loc_Exact) as [r2 e2]. cbn in H3.
    destruct (shr_m r2); [done | by destruct (e2 <=? _)%Z | lia]. }
  unfold binary_round. destruct z as [|p|p]; [done | |];
    destruct (shl_align _ _ _) as [m e]; apply Haux; lia.
Qed.
