(* ===== verification/Token.v ===== *)
(** Tokens of the Marreta language and the reserved words (src/src/token.rs). *)
From stdpp Require Import base list strings.
From Stdlib Require Import ZArith.
From S2P Require Import Prelude RustStr F64.

(** All token types, in the order of the source. *)
Inductive TokenKind : Type :=
(* literals *)
| Integer (n : Z) | Float (x : f64) | StringLiteral (s : string) | True_ | False_ | Null
(* identifiers *)
| Identifier (s : string)
(* arithmetic and comparison operators *)
| Plus | Minus | Star | Slash | Percent
| Equal | NotEqual | Greater | Less | GreaterEqual | LessEqual
(* logical operators, assignment, pipelines, arrows *)
| And | Or | Not | Assign | Pipeline | Broadcast | Arrow | FatArrow
(* delimiters *)
| LeftParen | RightParen | LeftBracket | RightBracket | LeftBrace | RightBrace
| Comma | Dot | Colon
(* reserved words: core *)
| Task | Match | Fallback | Map | Reduce | Keep | Skip | Require_ | Reject | While | If | Else
(* HTTP *)
| Route | Take | Reply | Fail_ | Listen | Get | Post | Put | Patch | Delete
(* infrastructure *)
| Db | Queue | Cache | Fs | Json | Base64 | Uuid | Log | Time_ | Math | HttpClient
| Doc | Feature | Env
(* schemas, multi-file, database, errors, queue *)
| Schema | As | Export | Of | Transaction | Raise | Rescue | On | Topic | Nack | Requeue
(* schema type keywords *)
| TypeString | TypeInteger | TypeFloat | TypeBoolean | TypeInstant | TypeDate
| TypeDuration | TypeInterval | TypeList | TypeMap
(* control *)
| Newline | Indent | Dedent | Eof.

#[export] Instance TokenKind_eq_dec : EqDecision TokenKind.
Proof. solve_decision. Defined.

(** A token with its 1-based position. *)
Record Token : Type := mkToken {
  kind : TokenKind;
  line : nat;
  column : nat;
  lexeme : string;
}.

(** [Token::eof]. *)
Definition Token_eof (line column : nat) : Token := mkToken Eof line column EmptyString.

(** The reserved words, in the order of [keyword_lookup]'s match. *)
Definition keyword_table : list (string * TokenKind) := [
  ("task", Task); ("match", Match); ("fallback", Fallback); ("map", Map);
  ("reduce", Reduce); ("keep", Keep); ("skip", Skip); ("require", Require_);
  ("reject", Reject); ("while", While); ("if", If); ("else", Else);
  ("and", And); ("or", Or); ("not", Not);
  ("true", True_); ("false", False_); ("null", Null);
  ("route", Route); ("take", Take); ("reply", Reply); ("fail", Fail_); ("listen", Listen);
  ("db", Db); ("queue", Queue); ("cache", Cache); ("fs", Fs); ("json", Json);
  ("base64", Base64); ("uuid", Uuid); ("log", Log); ("time", Time_); ("math", Math);
  ("http_client", HttpClient); ("doc", Doc); ("feature", Feature); ("env", Env);
  ("GET", Get); ("POST", Post); ("PUT", Put); ("PATCH", Patch); ("DELETE", Delete);
  ("schema", Schema); ("as", As); ("export", Export); ("of", Of);
  ("string", TypeString); ("integer", TypeInteger); ("float", TypeFloat);
  ("boolean", TypeBoolean); ("instant", TypeInstant); ("date", TypeDate);
  ("duration", TypeDuration); ("interval", TypeInterval);
  ("transaction", Transaction); ("raise", Raise); ("rescue", Rescue);
  ("on", On); ("topic", Topic); ("nack", Nack); ("requeue", Requeue)
].

(** Looks up a word to determine if it is a reserved keyword. *)
Definition keyword_lookup (word : string) : option TokenKind :=
  snd <$> find (fun e => String.eqb (fst e) word) keyword_table.

Lemma keyword_lookup_None word :
  keyword_lookup word = None <-> word ∉ keyword_table.*1.
Proof.
  unfold keyword_lookup. split.
  - intros H [[w k] [-> Hin]]%list_elem_of_fmap.
    destruct (find _ _) eqn:Hf; [done |].
    apply find_none with (x := (w, k)) in Hf; [| by apply list_elem_of_In].
    cbn in Hf. by rewrite String.eqb_refl in Hf.
  - intros Hw. destruct (find _ _) as [[w k]|] eqn:Hf; [| done].
    apply find_some in Hf as [Hin Heq]. cbn in Heq. apply String.eqb_eq in Heq as ->.
    exfalso. apply Hw, list_elem_of_fmap. exists (word, k). split; [done |].
    by apply list_elem_of_In.
Qed.

Lemma keyword_lookup_Some word k :
  keyword_lookup word = Some k -> (word, k) ∈ keyword_table.
Proof.
  unfold keyword_lookup. destruct (find _ _) as [[w k']|] eqn:Hf; [| done].
  apply find_some in Hf as [Hin Heq]. cbn in *. apply String.eqb_eq in Heq as ->.
  intros [= <-]. by apply list_elem_of_In.
Qed.
