(* ===== verification/Errors.v ===== *)
(** The engine's error type (src/src/error.rs): constructors, semantic codes,
    the [Display] rendering, and the source location an error carries. *)
From stdpp Require Import base list strings pretty.
From Stdlib Require Import ZArith.
From S2P Require Import Prelude RustStr.

(** Semantic error categories. *)
Inductive ErrorCode : Type :=
| CRaiseError | CDbError | CUniqueViolation | CQueueError | CCacheError
| CHttpClientError | CTypeError | CReferenceError | CArityError | CArithmeticError
| CIoError | CConfigError | CInfrastructureError | CRuntimeError
| CInvalidIdentifier | CUnknownColumn.

#[export] Instance ErrorCode_eq_dec : EqDecision ErrorCode.
Proof. solve_decision. Defined.

Definition as_str (c : ErrorCode) : string :=
  match c with
  | CRaiseError => "raise_error"
  | CDbError => "db_error"
  | CUniqueViolation => "unique_violation"
  | CQueueError => "queue_error"
  | CCacheError => "cache_error"
  | CHttpClientError => "http_client_error"
  | CTypeError => "type_error"
  | CReferenceError => "reference_error"
  | CArityError => "arity_error"
  | CArithmeticError => "arithmetic_error"
  | CIoError => "io_error"
  | CConfigError => "config_error"
  | CInfrastructureError => "infrastructure_error"
  | CRuntimeError => "runtime_error"
  | CInvalidIdentifier => "invalid_identifier"
  | CUnknownColumn => "unknown_column"
  end.

(** All error types produced by the engine. *)
Inductive MarretaError : Type :=
(* lexer *)
| UnexpectedCharacter (char : N) (line column : nat)
| UnterminatedString (line column : nat)
| InvalidIndentation (line expected got : nat)
| UnexpectedIndentation (line : nat)
| InvalidNumber (lexeme : string) (line column : nat)
(* parser *)
| UnexpectedToken (expected got_lexeme : string) (line column : nat)
| UnexpectedEndOfInput (expected : string)
| ReservedWord (word : string) (line column : nat)
(* interpreter *)
| UndefinedVariable (name : string) (line column : nat)
| UndefinedTask (name : string) (line column : nat)
| TypeError (message : string) (line column : nat)
| DivisionByZero (line column : nat)
| WrongArity (task_name : string) (expected got : nat) (line column : nat)
| NotCallable (name : string) (line column : nat)
| RuntimeError (message : string) (line column : nat)
| PropertyNotFound (object_type property : string) (line column : nat)
(* HTTP *)
| HttpError (status_code : Z) (message : string)
| HttpResponse (status_code : Z) (body content_type : string)
    (extra_headers : list (string * string)) (is_error : bool)
| RouteConflict (verb path_a path_b : string) (line column : nat)
(* multi-file *)
| ExportConflict (name file_a file_b : string)
| IncompatibleRuntime (required actual : string)
(* schemas *)
| CircularSchemaReference (cycle : string)
| InvalidSchemaDefinition (schema_name message : string)
| InvalidPersistentSchemaReference (schema_name field_name target_schema : string)
| InvalidPersistentSchemaDefinition (schema_name message : string)
(* domain errors and infrastructure *)
| RaiseError (message : string)
| DbError (message operation : string)
| UniqueConstraintViolation (message operation : string)
| DbIdentifierError (code : ErrorCode) (message : string)
| NackSignal (requeue : bool)
| QueueError (message operation : string)
| CacheError (message operation : string)
| HttpClientError (message operation : string)
(* I/O *)
| FileNotFound (path : string)
| IoError (message : string).

#[export] Instance MarretaError_eq_dec : EqDecision MarretaError.
Proof. solve_decision. Defined.

(** The role of a reserved word, for the message of [ReservedWord]. *)
Definition reserved_word_roles : list (string * string) := [
  ("doc", "the document database namespace");
  ("feature", "the feature-flag namespace");
  ("env", "the environment accessor");
  ("db", "the database namespace");
  ("queue", "the queue namespace");
  ("topic", "the topic namespace");
  ("cache", "the cache namespace");
  ("fs", "the filesystem namespace");
  ("json", "the JSON namespace");
  ("base64", "the base64 namespace");
  ("uuid", "the UUID namespace");
  ("log", "the log namespace");
  ("time", "the time namespace");
  ("math", "the math namespace");
  ("http_client", "the HTTP client namespace")
].

Definition reserved_word_role (word : string) : option string :=
  snd <$> find (fun e => String.eqb (fst e) word) reserved_word_roles.

Definition reserved_word_message (word : string) : string :=
  match reserved_word_role word with
  | Some role => "'" +:+ word +:+ "' is a reserved word (" +:+ role +:+ "); rename the variable."
  | None => "'" +:+ word +:+ "' is a reserved word; rename the variable."
  end.

(** The prefix ["Error at {line}:{column}: "]. *)
Definition at_location (line column : nat) (rest : string) : string :=
  "Error at " +:+ show_nat line +:+ ":" +:+ show_nat column +:+ ": " +:+ rest.

Definition show_bool (b : bool) : string := if b then "true" else "false".

(** [impl Display for MarretaError]. *)
Definition Display (e : MarretaError) : string :=
  match e with
  | UnexpectedCharacter c l k =>
      at_location l k ("unexpected character '" +:+ of_chars [c] +:+ "'")
  | UnterminatedString l k => at_location l k "unterminated string literal"
  | InvalidIndentation l expected got =>
      "Error at line " +:+ show_nat l +:+ ": invalid indentation (expected "
      +:+ show_nat expected +:+ " spaces, got " +:+ show_nat got +:+ ")"
  | UnexpectedIndentation l =>
      "Error at line " +:+ show_nat l
      +:+ ": invalid indentation (this line is indented deeper than expected)"
  | InvalidNumber lx l k => at_location l k ("invalid number '" +:+ lx +:+ "'")
  | UnexpectedToken expected got l k =>
      at_location l k ("expected " +:+ expected +:+ ", got '" +:+ got +:+ "'")
  | UnexpectedEndOfInput expected =>
      "Error: unexpected end of input, expected " +:+ expected
  | ReservedWord w l k => at_location l k (reserved_word_message w)
  | UndefinedVariable n l k => at_location l k ("variable '" +:+ n +:+ "' is not defined")
  | UndefinedTask n l k => at_location l k ("task '" +:+ n +:+ "' is not defined")
  | TypeError m l k => at_location l k m
  | DivisionByZero l k => at_location l k "division by zero"
  | WrongArity n expected got l k =>
      at_location l k ("task '" +:+ n +:+ "' expects " +:+ show_nat expected
                       +:+ " argument(s), got " +:+ show_nat got)
  | NotCallable n l k => at_location l k ("'" +:+ n +:+ "' is not callable")
  | RuntimeError m l k => at_location l k m
  | PropertyNotFound ty p l k =>
      at_location l k ("property '" +:+ p +:+ "' not found on " +:+ ty)
  | HttpError code m => "HTTP " +:+ show_Z code +:+ ": " +:+ m
  | HttpResponse code _ ct _ is_error =>
      if is_error then "HTTP error " +:+ show_Z code
      else "HTTP response " +:+ show_Z code +:+ " (" +:+ ct +:+ ")"
  | RouteConflict verb a b l k =>
      at_location l k
        ("route conflict — " +:+ verb +:+ " " +:+ dquote +:+ a +:+ dquote +:+ " and "
         +:+ verb +:+ " " +:+ dquote +:+ b +:+ dquote +:+ " match the same URL pattern."
         +:+ of_chars [10%N] +:+ "  Use distinct path segments or different HTTP verbs.")
  | ExportConflict n a b =>
      "Export conflict: '" +:+ n +:+ "' is already exported by '" +:+ a
      +:+ "', redeclared in '" +:+ b +:+ "'"
  | IncompatibleRuntime required actual =>
      "this project requires marreta runtime " +:+ required
      +:+ ", but you are running " +:+ actual
  | CircularSchemaReference cycle =>
      "Circular schema reference detected: " +:+ cycle +:+ ". The server cannot start."
  | InvalidSchemaDefinition n m => "Invalid schema '" +:+ n +:+ "': " +:+ m
  | InvalidPersistentSchemaReference n f t =>
      "Persistent schema '" +:+ n +:+ "' field '" +:+ f
      +:+ "' references non-persistent schema '" +:+ t +:+ "'"
  | InvalidPersistentSchemaDefinition n m =>
      "Invalid persistent schema '" +:+ n +:+ "': " +:+ m
  | RaiseError m => "raise: " +:+ m
  | DbError m _ => "database error: " +:+ m
  | UniqueConstraintViolation m _ => "unique constraint violation: " +:+ m
  | DbIdentifierError _ m => m
  | NackSignal requeue => "nack(requeue=" +:+ show_bool requeue +:+ ")"
  | QueueError m _ => "queue error: " +:+ m
  | CacheError m _ => "cache error: " +:+ m
  | HttpClientError m _ => "http client error: " +:+ m
  | FileNotFound p => "Error: file not found '" +:+ p +:+ "'"
  | IoError m => "Error: " +:+ m
  end.

(** The structured [ErrorCode] of an error. *)
Definition error_code (e : MarretaError) : ErrorCode :=
  match e with
  | RaiseError _ => CRaiseError
  | DbError _ _ => CDbError
  | UniqueConstraintViolation _ _ => CUniqueViolation
  | DbIdentifierError code _ => code
  | NackSignal _ | QueueError _ _ => CQueueError
  | CacheError _ _ => CCacheError
  | HttpClientError _ _ => CHttpClientError
  | TypeError _ _ _ => CTypeError
  | RuntimeError _ _ _ => CRuntimeError
  | UndefinedVariable _ _ _ | UndefinedTask _ _ _ | PropertyNotFound _ _ _ _
  | NotCallable _ _ _ => CReferenceError
  | WrongArity _ _ _ _ _ => CArityError
  | DivisionByZero _ _ => CArithmeticError
  | IoError _ | FileNotFound _ => CIoError
  | RouteConflict _ _ _ _ _ | ExportConflict _ _ _ | CircularSchemaReference _
  | IncompatibleRuntime _ _ | InvalidPersistentSchemaReference _ _ _
  | InvalidSchemaDefinition _ _ | InvalidPersistentSchemaDefinition _ _ => CConfigError
  | _ => CRuntimeError
  end.

Definition semantic_code (e : MarretaError) : string := as_str (error_code e).

(** The operation name, for the [error.op] field of a rescue map. *)
Definition operation_name (e : MarretaError) : string :=
  match e with
  | RaiseError _ => "raise"
  | DbError _ op | UniqueConstraintViolation _ op => op
  | NackSignal _ => "nack"
  | QueueError _ op | CacheError _ op | HttpClientError _ op => op
  | UndefinedVariable n _ _ => "lookup '" +:+ n +:+ "'"
  | UndefinedTask n _ _ => "call '" +:+ n +:+ "'"
  | PropertyNotFound _ p _ _ => "access '." +:+ p +:+ "'"
  | WrongArity n _ _ _ _ => "call '" +:+ n +:+ "'"
  | DivisionByZero _ _ => "arithmetic"
  | _ => "interpreter"
  end.

(** The message of an error, for the [error.message] field of a rescue map. *)
Definition display_message (e : MarretaError) : string :=
  match e with
  | RaiseError m | DbError m _ | UniqueConstraintViolation m _ | DbIdentifierError _ m
  | QueueError m _ | CacheError m _ | HttpClientError m _ | TypeError m _ _
  | RuntimeError m _ _ | HttpError _ m | IoError m => m
  | NackSignal requeue => "nack(requeue=" +:+ show_bool requeue +:+ ")"
  | UndefinedVariable n _ _ => "variable '" +:+ n +:+ "' is not defined"
  | UndefinedTask n _ _ => "task '" +:+ n +:+ "' is not defined"
  | DivisionByZero _ _ => "division by zero"
  | WrongArity n expected got _ _ =>
      "task '" +:+ n +:+ "' expects " +:+ show_nat expected +:+ " argument(s), got " +:+ show_nat got
  | PropertyNotFound ty p _ _ => "property '" +:+ p +:+ "' not found on " +:+ ty
  | NotCallable n _ _ => "'" +:+ n +:+ "' is not callable — expected a task"
  | FileNotFound path => "file not found: " +:+ path
  | RouteConflict _ path_a _ _ _ => "route conflict: " +:+ path_a
  | ExportConflict n _ _ => "export conflict: '" +:+ n +:+ "' defined more than once"
  | CircularSchemaReference cycle => "circular schema reference involving '" +:+ cycle +:+ "'"
  | InvalidSchemaDefinition n m => "invalid schema '" +:+ n +:+ "': " +:+ m
  | InvalidPersistentSchemaReference n f t =>
      "persistent schema '" +:+ n +:+ "' field '" +:+ f
      +:+ "' references non-persistent schema '" +:+ t +:+ "'"
  | InvalidPersistentSchemaDefinition n m => "invalid persistent schema '" +:+ n +:+ "': " +:+ m
  | UnexpectedToken expected got _ _ => "unexpected token '" +:+ got +:+ "', expected " +:+ expected
  | UnexpectedCharacter c _ _ => "unexpected character '" +:+ of_chars [c] +:+ "'"
  | UnterminatedString _ _ => "unterminated string literal"
  | InvalidIndentation _ _ _ | UnexpectedIndentation _ => "invalid indentation"
  | InvalidNumber lx _ _ => "invalid number literal: " +:+ lx
  | UnexpectedEndOfInput expected => "unexpected end of input, expected " +:+ expected
  | ReservedWord w _ _ => reserved_word_message w
  | IncompatibleRuntime _ _ | HttpResponse _ _ _ _ _ => Display e
  end.

(** The operation frame shown innermost in an uncaught trace. *)
Definition trace_operation_label (e : MarretaError) : option string :=
  match e with
  | RaiseError _ => Some "raise"
  | DbError _ op | UniqueConstraintViolation _ op | QueueError _ op
  | CacheError _ op | HttpClientError _ op => Some op
  | _ => None
  end.

(** [MarretaError::line] and [MarretaError::column]. *)
Definition error_line (e : MarretaError) : option nat :=
  match e with
  | UnexpectedCharacter _ l _ | UnterminatedString l _ | InvalidIndentation l _ _
  | UnexpectedIndentation l | InvalidNumber _ l _ | UnexpectedToken _ _ l _
  | ReservedWord _ l _ | UndefinedVariable _ l _ | UndefinedTask _ l _
  | TypeError _ l _ | RuntimeError _ l _ | DivisionByZero l _ | WrongArity _ _ _ l _
  | NotCallable _ l _ | PropertyNotFound _ _ l _ | RouteConflict _ _ _ l _ => Some l
  | _ => None
  end.

Definition error_column (e : MarretaError) : option nat :=
  match e with
  | UnexpectedCharacter _ _ k | UnterminatedString _ k | InvalidNumber _ _ k
  | UnexpectedToken _ _ _ k | ReservedWord _ _ k | UndefinedVariable _ _ k
  | UndefinedTask _ _ k | TypeError _ _ k | RuntimeError _ _ k | DivisionByZero _ k
  | WrongArity _ _ _ _ k | NotCallable _ _ k | PropertyNotFound _ _ _ k
  | RouteConflict _ _ _ _ k => Some k
  | _ => None
  end.

(** The rendering of an error that carries a line and a column starts with
    that location, and an error that carries a column carries a line. *)
Theorem Display_location e :
  match error_column e with
  | Some k => exists l rest, error_line e = Some l /\ Display e = at_location l k rest
  | None => True
  end.
Proof. destruct e; cbn; try exact I; eexists _, _; split; reflexivity. Qed.
