(* ===== verification/Lexer.v ===== *)
(** The tokenizer (src/src/lexer.rs): its state, one definition per method,
    and the main loop.

    [usize] fields are [nat].  Indexing [source[pos]] out of range panics, so
    [current] and [advance] are outcomes; the guarded loops
    ([while !is_at_end() && ..]) run on the number of remaining characters,
    which bounds their iterations. *)
From stdpp Require Import base list strings pretty.
From Stdlib Require Import ZArith Lia.
From S2P Require Import Prelude RustStr F64 Token Errors.

Record Lexer : Type := mkLexer {
  source : list N;
  tokens : list Token;
  pos : nat;
  line_no : nat;
  col_no : nat;
  indent_stack : list nat;   (* the top of the stack is the head *)
  at_line_start : bool;
  nesting_depth : nat;
}.

(** The normalization of [Lexer::new]: [\r\n] and then [\r] become [\n]. *)
Fixpoint replace_crlf (l : list N) : list N :=
  match l with
  | 13%N :: (10%N :: l') => 10%N :: replace_crlf l'
  | c :: l' => c :: replace_crlf l'
  | [] => []
  end.
Definition replace_cr (l : list N) : list N :=
  (fun c => if (c =? 13)%N then 10%N else c) <$> l.
Definition normalize_newlines (src : string) : list N :=
  replace_cr (replace_crlf (chars src)).

Definition Lexer_new (src : string) : Lexer :=
  mkLexer (normalize_newlines src) [] 0 1 1 [0] true 0.

(** * Field updates *)

Definition set_tokens (ts : list Token) (s : Lexer) : Lexer :=
  mkLexer (source s) ts (pos s) (line_no s) (col_no s) (indent_stack s) (at_line_start s)
    (nesting_depth s).
Definition push (t : Token) (s : Lexer) : Lexer := set_tokens (tokens s ++ [t]) s.
Definition set_position (p l c : nat) (s : Lexer) : Lexer :=
  mkLexer (source s) (tokens s) p l c (indent_stack s) (at_line_start s) (nesting_depth s).
Definition set_indent_stack (st : list nat) (s : Lexer) : Lexer :=
  mkLexer (source s) (tokens s) (pos s) (line_no s) (col_no s) st (at_line_start s)
    (nesting_depth s).
Definition set_at_line_start (b : bool) (s : Lexer) : Lexer :=
  mkLexer (source s) (tokens s) (pos s) (line_no s) (col_no s) (indent_stack s) b
    (nesting_depth s).
Definition set_nesting_depth (d : nat) (s : Lexer) : Lexer :=
  mkLexer (source s) (tokens s) (pos s) (line_no s) (col_no s) (indent_stack s)
    (at_line_start s) d.

(** * Character access *)

Definition is_at_end (s : Lexer) : bool := length (source s) <=? pos s.
Definition remaining (s : Lexer) : nat := length (source s) - pos s.
Definition current (s : Lexer) : option N := source s !! pos s.
Definition peek (s : Lexer) : option N := source s !! (pos s + 1).
Definition peek_at (offset : nat) (s : Lexer) : option N := source s !! (pos s + offset).
(** [advance]'s effect on the state; its index panics at the end of the
    source, which [advance] reports. *)
Definition step1 (s : Lexer) : Lexer := set_position (pos s + 1) (line_no s) (col_no s + 1) s.
Definition advance (s : Lexer) : outcome MarretaError Lexer :=
  if is_at_end s then Panics else Done (step1 s).

(** [self.source[from..to]] collected into a string. *)
Definition slice (s : Lexer) (from to : nat) : list N :=
  take (to - from) (drop from (source s)).

(** [while !self.is_at_end() && p(self.current()) { self.advance(); }] *)
Fixpoint skip_while (p : N -> bool) (fuel : nat) (s : Lexer) : Lexer :=
  match fuel with
  | O => s
  | S fuel => match current s with
              | Some c => if p c then skip_while p fuel (step1 s) else s
              | None => s
              end
  end.

(** * Token emission *)

Definition emit_single (k : TokenKind) (lx : string) (s : Lexer)
    : outcome MarretaError Lexer :=
  advance (push (mkToken k (line_no s) (col_no s) lx) s).

Definition is_indent_or_dedent (t : Token) : bool :=
  match kind t with Indent | Dedent => true | _ => false end.
Definition is_newline (t : Token) : bool :=
  match kind t with Newline => true | _ => false end.

(** The removal of the newline before a leading [>>]: [rposition] of the last
    token that is not an indentation token, removed when it is a newline.
    Works on the reversed tokens. *)
Fixpoint remove_last_newline_rev (ts : list Token) : list Token :=
  match ts with
  | [] => []
  | t :: ts' => if is_indent_or_dedent t then t :: remove_last_newline_rev ts'
                else if is_newline t then ts' else ts
  end.
Definition remove_last_newline (ts : list Token) : list Token :=
  rev (remove_last_newline_rev (rev ts)).

Definition emit_double (k : TokenKind) (lx : string) (s : Lexer)
    : outcome MarretaError Lexer :=
  let s := match k with
           | Pipeline | Broadcast => set_tokens (remove_last_newline (tokens s)) s
           | _ => s
           end in
  s1 ← advance (push (mkToken k (line_no s) (col_no s) lx) s);
  advance s1.

Definition emit_triple (k : TokenKind) (lx : string) (s : Lexer)
    : outcome MarretaError Lexer :=
  s1 ← advance (push (mkToken k (line_no s) (col_no s) lx) s);
  s2 ← advance s1;
  advance s2.

(** * Indentation *)

Definition stack_top (st : list nat) : nat := match st with [] => 0 | x :: _ => x end.

(** Pops the levels deeper than [spaces], one [Dedent] each. *)
Fixpoint pop_deeper (fuel : nat) (spaces : nat) (s : Lexer) : Lexer :=
  match fuel with
  | O => s
  | S fuel =>
      if (1 <? length (indent_stack s)) && (spaces <? stack_top (indent_stack s))
      then pop_deeper fuel spaces
             (push (mkToken Dedent (line_no s) 1 "") (set_indent_stack (tail (indent_stack s)) s))
      else s
  end.

Definition handle_indentation (s : Lexer) : outcome MarretaError Lexer :=
  let s1 := skip_while (fun c => (c =? ch " ")%N) (remaining s) s in
  let spaces := pos s1 - pos s in
  match current s1 with
  | None => Done s1
  | Some c =>
      if (c =? 10)%N || (c =? ch "#")%N then Done s1
      else
        let current_indent := stack_top (indent_stack s1) in
        if current_indent <? spaces then
          Done (push (mkToken Indent (line_no s1) 1 "")
                  (set_indent_stack (spaces :: indent_stack s1) s1))
        else if spaces <? current_indent then
          let s2 := pop_deeper (length (indent_stack s1)) spaces s1 in
          let current := stack_top (indent_stack s2) in
          if negb (current =? spaces)
          then Fails (InvalidIndentation (line_no s2) current spaces)
          else Done s2
        else Done s1
  end.

(** * Newlines *)

(** Walks back past indentation tokens and newlines to the last meaningful
    token; on the reversed tokens. *)
Fixpoint suppresses_rev (ts : list Token) : bool :=
  match ts with
  | [] => true
  | t :: ts => match kind t with
               | Indent | Dedent | Newline => suppresses_rev ts
               | Pipeline | Broadcast | Arrow | FatArrow | Comma => true
               | _ => false
               end
  end.
Definition should_suppress_newline (s : Lexer) : bool := suppresses_rev (rev (tokens s)).

Definition last_is_newline (s : Lexer) : bool :=
  match last (tokens s) with Some t => is_newline t | None => false end.

(** Consumes the newline character: position, line and column. *)
Definition next_line (b : bool) (s : Lexer) : Lexer :=
  set_at_line_start b (set_position (pos s + 1) (line_no s + 1) 1 s).

Definition handle_newline (s : Lexer) : Lexer :=
  if 0 <? nesting_depth s then next_line false s
  else
    let s1 :=
      if should_suppress_newline s then s
      else if negb (last_is_newline s) && negb (length (tokens s) =? 0)
           then push (mkToken Newline (line_no s) (col_no s) "\n") s
           else s in
    next_line true s1.

(** * Comments *)

Definition skip_comment (s : Lexer) : Lexer :=
  skip_while (fun c => negb (c =? 10)%N) (remaining s) s.

(** * String literals *)

(** The character an escape stands for; [None] keeps the backslash. *)
Definition escape (c : N) : option N :=
  if (c =? ch "n")%N then Some 10%N
  else if (c =? ch "t")%N then Some 9%N
  else if (c =? ch "r")%N then Some 13%N
  else if (c =? ch "\")%N then Some (ch "\")
  else if (c =? 34)%N then Some 34%N
  else if (c =? ch "#")%N then Some (ch "#")
  else None.

(** The body of a string literal: returns the state at the closing quote or
    at the end of the source, and the value read (reversed). *)
Fixpoint read_string_body (l k : nat) (fuel : nat) (value : list N) (s : Lexer)
    : outcome MarretaError (list N * Lexer) :=
  match fuel with
  | O => Done (value, s)
  | S fuel =>
      match current s with
      | None => Done (value, s)
      | Some c =>
          if (c =? 34)%N then Done (value, s)
          else if (c =? 10)%N then Fails (UnterminatedString l k)
          else if (c =? ch "\")%N then
            let s1 := step1 s in
            match current s1 with
            | None => Fails (UnterminatedString l k)
            | Some e =>
                let value' := match escape e with
                              | Some d => d :: value
                              | None => e :: ch "\" :: value
                              end in
                read_string_body l k fuel value' (step1 s1)
            end
          else read_string_body l k fuel (c :: value) (step1 s)
      end
  end.

Definition read_string (s : Lexer) : outcome MarretaError Lexer :=
  let start_line := line_no s in
  let start_col := col_no s in
  s1 ← advance s;
  r ← read_string_body start_line start_col (remaining s1) [] s1;
  let '(value, s2) := (r : list N * Lexer) in
  if is_at_end s2 then Fails (UnterminatedString start_line start_col)
  else
    s3 ← advance s2;
    let value := of_chars (rev value) in
    Done (push (mkToken (StringLiteral value) start_line start_col
                  (dquote +:+ value +:+ dquote)) s3).

(** * Numbers *)

(** The digits and at most one dot followed by a digit; [has_dot] is returned. *)
Fixpoint read_number_body (start_pos start_col : nat) (fuel : nat) (has_dot : bool) (s : Lexer)
    : outcome MarretaError (bool * Lexer) :=
  match fuel with
  | O => Done (has_dot, s)
  | S fuel =>
      match current s with
      | None => Done (has_dot, s)
      | Some c =>
          if is_ascii_digit c || (c =? ch ".")%N then
            if (c =? ch ".")%N then
              match peek s with
              | Some d =>
                  if is_ascii_digit d then
                    if has_dot
                    then Fails (InvalidNumber (of_chars (slice s start_pos (pos s + 1)))
                                  (line_no s) start_col)
                    else read_number_body start_pos start_col fuel true (step1 s)
                  else Done (has_dot, s)
              | None => Done (has_dot, s)
              end
            else read_number_body start_pos start_col fuel has_dot (step1 s)
          else Done (has_dot, s)
      end
  end.

Definition read_number (s : Lexer) : outcome MarretaError Lexer :=
  let start_col := col_no s in
  let start_pos := pos s in
  r ← read_number_body start_pos start_col (remaining s) false s;
  let '(has_dot, s1) := (r : bool * Lexer) in
  let lx := of_chars (slice s1 start_pos (pos s1)) in
  if has_dot : bool then
    match parse_f64 lx with
    | Some n => Done (push (mkToken (Float n) (line_no s1) start_col lx) s1)
    | None => Fails (InvalidNumber lx (line_no s1) start_col)
    end
  else
    match parse_i64 lx with
    | Some n => Done (push (mkToken (Integer n) (line_no s1) start_col lx) s1)
    | None => Fails (InvalidNumber lx (line_no s1) start_col)
    end.

(** * Identifiers and keywords *)

Definition is_ident_char (c : N) : bool :=
  is_ascii_alphanumeric c || (c =? ch "_")%N || (c =? ch "?")%N.

Definition word_kind (word : string) : TokenKind :=
  match keyword_lookup word with Some k => k | None => Identifier word end.

Definition read_identifier (s : Lexer) : Lexer :=
  let start_col := col_no s in
  let start_pos := pos s in
  let s1 := skip_while is_ident_char (remaining s) s in
  let word := of_chars (slice s1 start_pos (pos s1)) in
  push (mkToken (word_kind word) (line_no s1) start_col word) s1.

(** * The main loop *)

(** The dispatch on the current character [ch]. *)
Definition lex_char (c : N) (s : Lexer) : outcome MarretaError Lexer :=
  let next d := match peek s with Some e => (e =? d)%N | None => false end in
  let next2 d := match peek_at 2 s with Some e => (e =? d)%N | None => false end in
  let unexpected := Fails (UnexpectedCharacter c (line_no s) (col_no s)) in
  let open := set_nesting_depth (nesting_depth s + 1) s in
  let close := set_nesting_depth (nesting_depth s - 1) s in
  if (c =? ch " ")%N || (c =? 9)%N || (c =? 13)%N then advance s
  else if (c =? 10)%N then Done (handle_newline s)
  else if (c =? ch "#")%N then Done (skip_comment s)
  else if (c =? 34)%N then read_string s
  else if (c =? ch "+")%N then emit_single Plus "+" s
  else if (c =? ch "-")%N then
    if next (ch ">") then emit_double Arrow "->" s else emit_single Minus "-" s
  else if (c =? ch "*")%N then
    if next (ch ">") && next2 (ch ">") then emit_triple Broadcast "*>>" s
    else emit_single Star "*" s
  else if (c =? ch "/")%N then emit_single Slash "/" s
  else if (c =? ch "%")%N then emit_single Percent "%" s
  else if (c =? ch "=")%N then
    if next (ch "=") then emit_double Equal "==" s
    else if next (ch ">") then emit_double FatArrow "=>" s
    else emit_single Assign "=" s
  else if (c =? ch "!")%N then
    if next (ch "=") then emit_double NotEqual "!=" s else unexpected
  else if (c =? ch ">")%N then
    if next (ch ">") then emit_double Pipeline ">>" s
    else if next (ch "=") then emit_double GreaterEqual ">=" s
    else emit_single Greater ">" s
  else if (c =? ch "<")%N then
    if next (ch "=") then emit_double LessEqual "<=" s else emit_single Less "<" s
  else if (c =? ch "(")%N then emit_single LeftParen "(" open
  else if (c =? ch ")")%N then emit_single RightParen ")" close
  else if (c =? ch "[")%N then emit_single LeftBracket "[" open
  else if (c =? ch "]")%N then emit_single RightBracket "]" close
  else if (c =? ch "{")%N then emit_single LeftBrace "{" open
  else if (c =? ch "}")%N then emit_single RightBrace "}" close
  else if (c =? ch ",")%N then emit_single Comma "," s
  else if (c =? ch ".")%N then emit_single Dot "." s
  else if (c =? ch ":")%N then emit_single Colon ":" s
  else if is_ascii_digit c then read_number s
  else if is_ascii_alphabetic c || (c =? ch "_")%N then Done (read_identifier s)
  else unexpected.

(** One iteration of the [while !self.is_at_end()] loop. *)
Definition lex_step (s : Lexer) : outcome MarretaError Lexer :=
  s1 ← (if at_line_start s
        then s1 ← handle_indentation s; Done (set_at_line_start false s1)
        else Done s);
  match current s1 with
  | None => Panics
  | Some c => lex_char c s1
  end.

Fixpoint lex_loop (fuel : nat) (s : Lexer) : outcome MarretaError Lexer :=
  if is_at_end s then Done s
  else match fuel with
       | O => NoFuel
       | S fuel => s1 ← lex_step s; lex_loop fuel s1
       end.

(** The dedents pending at the end of the source, then the end marker. *)
Definition close_indents (s : Lexer) : list Token :=
  replicate (length (indent_stack s) - 1) (mkToken Dedent (line_no s) (col_no s) "")
  ++ [Token_eof (line_no s) (col_no s)].

(** Every iteration consumes a character, so the length of the source is
    enough fuel. *)
Definition tokenize (src : string) : outcome MarretaError (list Token) :=
  let s := Lexer_new src in
  s1 ← lex_loop (length (source s)) s;
  Done (tokens s1 ++ close_indents s1).

(** The token kinds of a source, as the tests of the lexer look at them. *)
Definition kinds (src : string) : outcome MarretaError (list TokenKind) :=
  ts ← tokenize src; Done (map kind ts).
