(* ===== verification/LexerFacts.v ===== *)
(** Correctness of the tokenizer: termination, freedom from panics, and
    well-bracketed indentation. *)
From stdpp Require Import base list strings pretty sets.
From Stdlib Require Import ZArith Lia Sorting.Sorted.
From S2P Require Import Prelude RustStr F64 Token Errors Lexer.

(** * Indentation depth of a token stream *)

(** The nesting depth after a list of kinds, [None] when a [Dedent] has no
    matching [Indent]. *)
Fixpoint indent_depth (d : nat) (ks : list TokenKind) : option nat :=
  match ks with
  | [] => Some d
  | Indent :: ks => indent_depth (S d) ks
  | Dedent :: ks => match d with O => None | S d => indent_depth d ks end
  | _ :: ks => indent_depth d ks
  end.

Lemma indent_depth_app d ks1 ks2 :
  indent_depth d (ks1 ++ ks2) = d1 ← indent_depth d ks1; indent_depth d1 ks2.
Proof.
  revert d; induction ks1 as [|k ks1 IH]; intros d; cbn; [done |].
  destruct k; cbn; try apply IH. destruct d; [done | apply IH].
Qed.

Definition is_layout (k : TokenKind) : bool :=
  match k with Indent | Dedent => true | _ => false end.

Lemma indent_depth_neutral d k : is_layout k = false -> indent_depth d [k] = Some d.
Proof. by destruct k. Qed.

Lemma indent_depth_neutral_cons d k ks :
  is_layout k = false -> indent_depth d (k :: ks) = indent_depth d ks.
Proof. by destruct k. Qed.

(** * What one step of the loop does *)

(** The state [s'] is a continuation of [s]: same source, same indentation
    stack, strictly further in the source, and the tokens keep their depth
    and contain no end marker. *)
Record effect (s s' : Lexer) : Prop := mkEffect {
  effect_source : source s' = source s;
  effect_stack : indent_stack s' = indent_stack s;
  effect_pos : pos s < pos s' <= length (source s);
  effect_depth : forall d, indent_depth d (map kind (tokens s'))
                           = indent_depth d (map kind (tokens s));
  effect_eof : Forall (fun t => kind t <> Eof) (tokens s) ->
               Forall (fun t => kind t <> Eof) (tokens s');
}.

(** A part of a step: it either continues the state or reports an error. *)
Definition steps (s : Lexer) (m : outcome MarretaError Lexer) : Prop :=
  match m with Done s' => effect s s' | Fails _ => True | _ => False end.

Lemma current_lt s c : current s = Some c -> pos s < length (source s).
Proof. apply lookup_lt_Some. Qed.

Lemma current_None s : current s = None <-> length (source s) <= pos s.
Proof. apply lookup_ge_None. Qed.

Lemma advance_Done s : pos s < length (source s) -> advance s = Done (step1 s).
Proof.
  intros H. unfold advance, is_at_end. destruct (Nat.leb_spec (length (source s)) (pos s)); [lia | done].
Qed.

(** ** Pushing a token that is not a layout or end token *)

Lemma push_depth d t ts :
  is_layout (kind t) = false ->
  indent_depth d (map kind (ts ++ [t])) = indent_depth d (map kind ts).
Proof.
  intros Ht. rewrite map_app, indent_depth_app. cbn [map].
  destruct (indent_depth d (map kind ts)); [|done].
  change (indent_depth n [kind t] = Some n). by apply indent_depth_neutral.
Qed.

(** A state obtained by pushing a plain token and moving forward. *)
Lemma effect_push s s' t ts :
  is_layout (kind t) = false -> kind t <> Eof ->
  source s' = source s -> indent_stack s' = indent_stack s ->
  pos s < pos s' <= length (source s) ->
  (forall d, indent_depth d (map kind ts) = indent_depth d (map kind (tokens s))) ->
  (Forall (fun t => kind t <> Eof) (tokens s) -> Forall (fun t => kind t <> Eof) ts) ->
  tokens s' = ts ++ [t] ->
  effect s s'.
Proof.
  intros Hl He Hsrc Hst Hpos Hd Hf Ht. constructor; [done..| |]; rewrite Ht.
  - intros d. by rewrite push_depth.
  - intros H. apply Forall_app. split; [by apply Hf | by constructor].
Qed.

Lemma effect_silent s s' :
  source s' = source s -> indent_stack s' = indent_stack s ->
  pos s < pos s' <= length (source s) -> tokens s' = tokens s ->
  effect s s'.
Proof. intros ??? Ht. constructor; rewrite ?Ht; done. Qed.

(** [emit_single] after any update that leaves the source, the position, the
    stack and the tokens alone (the nesting counter). *)
Lemma emit_single_steps s s0 k lx c :
  current s = Some c -> is_layout k = false -> k <> Eof ->
  source s0 = source s -> pos s0 = pos s -> indent_stack s0 = indent_stack s ->
  tokens s0 = tokens s ->
  steps s (emit_single k lx s0).
Proof.
  intros Hc Hl He Hsrc Hpos Hst Ht. apply current_lt in Hc.
  unfold emit_single. rewrite advance_Done by (cbn; rewrite Hsrc, Hpos; done).
  apply (effect_push _ _ (mkToken k (line_no s0) (col_no s0) lx) (tokens s)); cbn;
    rewrite ?Hsrc, ?Hpos, ?Ht; try done; lia.
Qed.

(** ** The removal of a newline keeps the depth *)

Lemma remove_last_newline_rev_spec ts :
  remove_last_newline_rev ts = ts \/
  exists l1 t l2, ts = l1 ++ t :: l2 /\ is_newline t = true /\
                  remove_last_newline_rev ts = l1 ++ l2.
Proof.
  induction ts as [|t ts IH]; cbn; [by left |].
  destruct (is_indent_or_dedent t).
  - destruct IH as [-> | (l1 & n & l2 & -> & ? & ->)]; [by left |].
    right. by exists (t :: l1), n, l2.
  - destruct (is_newline t) eqn:?; [right | by left]. by exists [], t, ts.
Qed.

Lemma remove_last_newline_spec ts :
  remove_last_newline ts = ts \/
  exists l1 t l2, ts = l1 ++ t :: l2 /\ is_newline t = true /\
                  remove_last_newline ts = l1 ++ l2.
Proof.
  unfold remove_last_newline.
  destruct (remove_last_newline_rev_spec (rev ts)) as [-> | (l1 & t & l2 & H & Ht & ->)].
  - left. apply rev_involutive.
  - right. exists (rev l2), t, (rev l1). split_and!; [| done |].
    + rewrite <- (rev_involutive ts), H, rev_app_distr. cbn. by rewrite <- app_assoc.
    + apply rev_app_distr.
Qed.

Lemma remove_last_newline_depth d ts :
  indent_depth d (map kind (remove_last_newline ts)) = indent_depth d (map kind ts).
Proof.
  destruct (remove_last_newline_spec ts) as [-> | (l1 & t & l2 & -> & Ht & ->)]; [done |].
  rewrite !map_app, !indent_depth_app. cbn [map].
  destruct (indent_depth d (map kind l1)); [|done]. cbn.
  unfold is_newline in Ht. by destruct (kind t).
Qed.

Lemma remove_last_newline_Forall (P : Token -> Prop) ts :
  Forall P ts -> Forall P (remove_last_newline ts).
Proof.
  destruct (remove_last_newline_spec ts) as [-> | (l1 & t & l2 & -> & Ht & ->)]; [done |].
  rewrite !Forall_app, Forall_cons. tauto.
Qed.

Lemma emit_double_steps s k lx :
  pos s + 1 < length (source s) -> is_layout k = false -> k <> Eof ->
  steps s (emit_double k lx s).
Proof.
  intros Hc Hl He. unfold emit_double.
  set (s0 := match k with Pipeline | Broadcast => _ | _ => _ end).
  assert (source s0 = source s /\ pos s0 = pos s /\ indent_stack s0 = indent_stack s
          /\ (tokens s0 = tokens s \/ tokens s0 = remove_last_newline (tokens s)))
    as (Hsrc & Hpos & Hst & Ht) by (subst s0; destruct k; cbn; auto).
  rewrite advance_Done by (cbn; rewrite Hsrc, Hpos; lia). cbn [mbind outcome_bind].
  rewrite advance_Done by (cbn; rewrite Hsrc, Hpos; lia).
  apply (effect_push _ _ (mkToken k (line_no s0) (col_no s0) lx) (tokens s0)); cbn;
    rewrite ?Hsrc, ?Hpos; try done; try lia; destruct Ht as [-> | ->]; try done.
  - intros d. apply remove_last_newline_depth.
  - apply remove_last_newline_Forall.
Qed.

Lemma emit_triple_steps s k lx :
  pos s + 2 < length (source s) -> is_layout k = false -> k <> Eof ->
  steps s (emit_triple k lx s).
Proof.
  intros Hc Hl He. unfold emit_triple.
  rewrite advance_Done by (cbn; lia). cbn [mbind outcome_bind].
  rewrite advance_Done by (cbn; lia). cbn [mbind outcome_bind].
  rewrite advance_Done by (cbn; lia).
  apply (effect_push _ _ (mkToken k (line_no s) (col_no s) lx) (tokens s)); cbn; done || lia.
Qed.

(** ** Guarded loops *)

Lemma skip_while_spec p fuel s :
  pos s <= length (source s) ->
  exists n, skip_while p fuel s = set_position (pos s + n) (line_no s) (col_no s + n) s
            /\ pos s + n <= length (source s) /\ n <= fuel
            /\ Forall p (take n (drop (pos s) (source s)))
            /\ (n = fuel \/ match source s !! (pos s + n) with
                            | Some c => p c = false | None => True end).
Proof.
  revert s; induction fuel as [|fuel IH]; intros s Hs; cbn.
  - exists 0. rewrite !Nat.add_0_r. destruct s; cbn in *. split_and!; auto; lia.
  - assert (Hstop : match source s !! pos s with Some c => p c = false | None => True end ->
      exists n, s = set_position (pos s + n) (line_no s) (col_no s + n) s
            /\ pos s + n <= length (source s) /\ n <= S fuel
            /\ Forall p (take n (drop (pos s) (source s)))
            /\ (n = S fuel \/ match source s !! (pos s + n) with
                            | Some c => p c = false | None => True end)).
    { intros ?. exists 0. rewrite !Nat.add_0_r. destruct s; cbn in *. split_and!; auto; lia. }
    unfold current. destruct (source s !! pos s) as [c|] eqn:Hc; [|by apply Hstop].
    destruct (p c) eqn:Hp; [|by apply Hstop]. clear Hstop.
    assert (pos s < length (source s)) by (by eapply lookup_lt_Some).
    destruct (IH (step1 s)) as (n & -> & Hn & Hf & Hall & Hend); [cbn; lia |].
    exists (S n). cbn in *. replace (pos s + S n) with (pos s + 1 + n) by lia.
    replace (col_no s + S n) with (col_no s + 1 + n) by lia.
    rewrite (drop_S _ c) by done. cbn [take]. rewrite Forall_cons, Hp.
    replace (S (pos s)) with (pos s + 1) by lia.
    split_and!; try done; [lia.. |].
    destruct Hend as [-> | Hend]; [by left | by right].
Qed.

(** With the remaining length as fuel the loop ends at a character that
    fails the test or at the end of the source. *)
Lemma skip_while_remaining p s :
  pos s <= length (source s) ->
  exists n, skip_while p (remaining s) s
            = set_position (pos s + n) (line_no s) (col_no s + n) s
            /\ pos s + n <= length (source s)
            /\ Forall p (take n (drop (pos s) (source s)))
            /\ match source s !! (pos s + n) with Some c => p c = false | None => True end.
Proof.
  intros Hs. destruct (skip_while_spec p (remaining s) s Hs) as (n & -> & Hn & Hf & Ha & He).
  exists n. split_and!; [done.. |]. destruct He as [-> | He]; [|done].
  unfold remaining. rewrite lookup_ge_None_2 by lia. done.
Qed.

Lemma skip_comment_steps s c :
  current s = Some c -> (c =? 10)%N = false -> steps s (Done (skip_comment s)).
Proof.
  intros Hc H10. pose proof (current_lt _ _ Hc) as Hlt. unfold skip_comment.
  destruct (skip_while_remaining (fun c => negb (c =? 10)%N) s) as (n & -> & Hn & _ & He); [lia |].
  apply effect_silent; cbn; try done.
  destruct n as [|n]; [|lia]. rewrite Nat.add_0_r in He. unfold current in Hc.
  rewrite Hc, H10 in He. done.
Qed.

Lemma handle_newline_steps s c : current s = Some c -> steps s (Done (handle_newline s)).
Proof.
  intros Hc%current_lt. unfold handle_newline.
  destruct (0 <? nesting_depth s); [apply effect_silent; cbn; done || lia |].
  destruct (should_suppress_newline s); [apply effect_silent; cbn; done || lia |].
  destruct (_ && _); [| apply effect_silent; cbn; done || lia].
  apply (effect_push _ _ (mkToken Newline (line_no s) (col_no s) "\n") (tokens s));
    cbn; done || lia.
Qed.

Lemma read_string_body_spec l k fuel value s :
  pos s <= length (source s) ->
  match read_string_body l k fuel value s with
  | Done (_, s') => source s' = source s /\ indent_stack s' = indent_stack s /\
                    tokens s' = tokens s /\ pos s <= pos s' <= length (source s)
  | Fails _ => True
  | _ => False
  end.
Proof.
  revert value s; induction fuel as [|fuel IH]; intros value s Hs;
    cbn [read_string_body]; [auto with lia |].
  destruct (current s) as [c|] eqn:Hc; [| auto with lia].
  destruct (c =? 34)%N; [auto with lia |]. destruct (c =? 10)%N; [done |].
  apply current_lt in Hc.
  destruct (c =? _)%N.
  - destruct (current (step1 s)) as [e|] eqn:He; [| done]. apply current_lt in He.
    cbn in He. specialize (IH (match escape e with Some d => d :: value
                               | None => e :: ch "\" :: value end) (step1 (step1 s))).
    cbn in IH. specialize (IH ltac:(lia)).
    destruct (read_string_body _ _ _ _ _) as [[v s']| | |]; cbn in *; try done.
    destruct IH as (? & ? & ? & ?). split_and!; done || lia.
  - specialize (IH (c :: value) (step1 s)). cbn in IH. specialize (IH ltac:(lia)).
    destruct (read_string_body _ _ _ _ _) as [[v s']| | |]; cbn in *; try done.
    destruct IH as (? & ? & ? & ?). split_and!; done || lia.
Qed.

Lemma read_string_steps s c : current s = Some c -> steps s (read_string s).
Proof.
  intros Hc%current_lt. unfold read_string. rewrite advance_Done by done.
  cbn [mbind outcome_bind].
  pose proof (read_string_body_spec (line_no s) (col_no s) (remaining (step1 s)) [] (step1 s)) as H.
  cbn in H. specialize (H ltac:(lia)). cbn [remaining] in *.
  destruct (read_string_body _ _ _ _ _) as [[v s']| | |]; cbn in *; try done.
  destruct H as (Hsrc & Hst & Ht & Hp).
  destruct (is_at_end s') eqn:Hend; [done |].
  unfold is_at_end in Hend. apply Nat.leb_gt in Hend. rewrite advance_Done by done. cbn.
  apply (effect_push _ _ (mkToken (StringLiteral (of_chars (rev v))) (line_no s) (col_no s)
           (dquote +:+ of_chars (rev v) +:+ dquote)) (tokens s)); cbn;
    rewrite ?Hsrc, ?Hst, ?Ht in *; done || lia.
Qed.

Lemma read_number_body_spec p k fuel hd s :
  pos s <= length (source s) ->
  match read_number_body p k fuel hd s with
  | Done (_, s') => source s' = source s /\ indent_stack s' = indent_stack s /\
                    tokens s' = tokens s /\ pos s <= pos s' <= length (source s)
  | Fails _ => True
  | _ => False
  end.
Proof.
  revert hd s; induction fuel as [|fuel IH]; intros hd s Hs;
    cbn [read_number_body]; [auto with lia |].
  destruct (current s) as [c|] eqn:Hc; [| auto with lia]. apply current_lt in Hc.
  assert (forall hd', match read_number_body p k fuel hd' (step1 s) with
          | Done (_, s') => source s' = source s /\ indent_stack s' = indent_stack s /\
                    tokens s' = tokens s /\ pos s <= pos s' <= length (source s)
          | Fails _ => True
          | _ => False
          end) as Hstep.
  { intros hd'. specialize (IH hd' (step1 s)). cbn in IH. specialize (IH ltac:(lia)).
    destruct (read_number_body p k fuel hd' _) as [[v s']| | |]; cbn in *; try done.
    destruct IH as (? & ? & ? & ?). split_and!; done || lia. }
  destruct (_ || _); [| auto with lia]. destruct (c =? _)%N; [| apply Hstep].
  destruct (peek s) as [d|]; [| auto with lia].
  destruct (is_ascii_digit d); [| auto with lia]. destruct hd; [done | apply Hstep].
Qed.

(** A number starts with a digit, which the loop consumes. *)
Lemma read_number_body_consumes p k fuel hd s c :
  current s = Some c -> is_ascii_digit c = true -> 0 < fuel ->
  match read_number_body p k fuel hd s with
  | Done (_, s') => pos s < pos s'
  | _ => True
  end.
Proof.
  intros Hc Hd Hf. destruct fuel as [|fuel]; [lia |].
  cbn [read_number_body]. rewrite Hc, Hd. cbn [orb].
  assert ((c =? ch ".")%N = false) as ->.
  { apply N.eqb_neq. intros ->. done. }
  apply current_lt in Hc.
  pose proof (read_number_body_spec p k fuel hd (step1 s)) as H. cbn in H.
  specialize (H ltac:(lia)). destruct (read_number_body _ _ _ _ _) as [[? ?]| | |]; try done.
  lia.
Qed.

Lemma read_number_steps s c :
  current s = Some c -> is_ascii_digit c = true -> steps s (read_number s).
Proof.
  intros Hc Hd. unfold read_number. pose proof (current_lt _ _ Hc) as Hlt.
  pose proof (read_number_body_spec (pos s) (col_no s) (remaining s) false s) as H.
  specialize (H ltac:(lia)).
  pose proof (read_number_body_consumes (pos s) (col_no s) (remaining s) false s c Hc Hd
                ltac:(unfold remaining; lia)) as Hp.
  destruct (read_number_body _ _ _ _ _) as [[hd s']| | |]; cbn; try done.
  destruct H as (Hsrc & Hst & Ht & Hb).
  destruct hd; [destruct (parse_f64 _) as [x|] | destruct (parse_i64 _) as [x|]]; cbn; try done;
    (eapply effect_push; [| | | | | | | cbn; rewrite Ht; reflexivity]); cbn;
    try done; rewrite ?Hsrc, ?Hst, ?Ht; try done; lia.
Qed.

Lemma read_identifier_kind w :
  is_layout (word_kind w) = false /\ word_kind w <> Eof.
Proof.
  unfold word_kind. destruct (keyword_lookup w) as [k|] eqn:Hk; [| done].
  apply keyword_lookup_Some in Hk.
  assert (Forall (fun e => is_layout (snd e) = false /\ snd e <> Eof) keyword_table) as Hall
    by (unfold keyword_table; repeat constructor; cbn; done).
  rewrite Forall_forall in Hall. exact (Hall _ Hk).
Qed.

Lemma read_identifier_steps s c :
  current s = Some c -> is_ident_char c = true -> steps s (Done (read_identifier s)).
Proof.
  intros Hc Hi. pose proof (current_lt _ _ Hc) as Hlt. unfold read_identifier.
  destruct (skip_while_remaining is_ident_char s) as (n & -> & Hn & _ & He); [lia |].
  assert (0 < n).
  { destruct n; [| lia]. rewrite Nat.add_0_r in He. unfold current in Hc.
    by rewrite Hc, Hi in He. }
  set (w := of_chars _). pose proof (read_identifier_kind w) as [Hl He'].
  apply (effect_push _ _ (mkToken (word_kind w) (line_no s) (col_no s) w) (tokens s));
    cbn; done || lia.
Qed.

(** ** The dispatch *)

Lemma peek_is s d :
  (match peek s with Some e => (e =? d)%N | None => false end) = true ->
  pos s + 1 < length (source s).
Proof. unfold peek. destruct (_ !! _) eqn:H; [| done]. intros _. by apply lookup_lt_Some in H. Qed.

Lemma peek2_is s d :
  (match peek_at 2 s with Some e => (e =? d)%N | None => false end) = true ->
  pos s + 2 < length (source s).
Proof.
  unfold peek_at. destruct (_ !! _) eqn:H; [| done]. intros _. by apply lookup_lt_Some in H.
Qed.

Lemma lex_char_steps s c : current s = Some c -> steps s (lex_char c s).
Proof.
  intros Hc. pose proof (current_lt _ _ Hc) as Hlt. unfold lex_char.
  destruct (_ || _).
  { rewrite advance_Done by done. apply effect_silent; cbn; done || lia. }
  destruct (c =? 10)%N eqn:H10; [by eapply handle_newline_steps |].
  destruct (c =? ch "#")%N; [by eapply skip_comment_steps |].
  destruct (c =? 34)%N; [by eapply read_string_steps |].
  clear H10.
  repeat match goal with
  | |- steps _ (emit_single _ _ _) => eapply emit_single_steps; done
  | |- steps _ (Fails _) => exact I
  | |- steps _ (emit_double _ _ _) => apply emit_double_steps; done
  | |- steps _ (if (c =? ?d)%N then _ else _) => destruct (c =? d)%N
  | |- steps _ (if ?b && ?b' then _ else _) =>
      let H := fresh in destruct (b && b') eqn:H;
      [apply andb_true_iff in H as [_ H%peek2_is]; apply emit_triple_steps; done |]
  | |- steps _ (if match peek s with Some e => (e =? ?d)%N | None => false end then _ else _) =>
      let H := fresh in
      destruct (match peek s with Some e => (e =? d)%N | None => false end) eqn:H;
      [apply peek_is in H |]
  end.
  destruct (is_ascii_digit c) eqn:Hd; [by eapply read_number_steps |].
  destruct (is_ascii_alphabetic c || (c =? ch "_")%N) eqn:Ha; [| exact I].
  eapply read_identifier_steps; [done |]. unfold is_ident_char, is_ascii_alphanumeric.
  rewrite Hd. apply orb_true_iff in Ha as [-> | ->]; by rewrite ?orb_true_r.
Qed.

(** * The indentation invariant *)

(** The stack of open levels: strictly decreasing from the top, down to 0. *)
Definition stack_ok (st : list nat) : Prop :=
  StronglySorted (fun a b => b < a) st /\ last st = Some 0.

(** What holds of the state between two iterations of the loop. *)
Record lexer_inv (s : Lexer) : Prop := mkInv {
  inv_pos : pos s <= length (source s);
  inv_stack : stack_ok (indent_stack s);
  inv_depth : indent_depth 0 (map kind (tokens s)) = Some (length (indent_stack s) - 1);
  inv_eof : Forall (fun t => kind t <> Eof) (tokens s);
}.

Lemma lexer_inv_new src : lexer_inv (Lexer_new src).
Proof.
  constructor; cbn; [lia | | done | by constructor].
  split; [repeat constructor | done].
Qed.

Lemma effect_inv s s' : lexer_inv s -> effect s s' -> lexer_inv s'.
Proof.
  intros [Hp Hst Hd He] [Hsrc Hst' Hp' Hd' He']. constructor.
  - rewrite Hsrc. lia.
  - by rewrite Hst'.
  - by rewrite Hd', Hst'.
  - by apply He'.
Qed.

(** The layout part of an iteration: the text position may move, the
    invariant is kept. *)
Definition same_text (s s' : Lexer) : Prop :=
  source s' = source s /\ pos s' = pos s /\ line_no s' = line_no s.

Lemma pop_inv s t :
  kind t = Dedent -> 1 < length (indent_stack s) -> lexer_inv s ->
  lexer_inv (push t (set_indent_stack (tail (indent_stack s)) s)).
Proof.
  intros Ht Hlen [Hp [Hs Hl] Hd He].
  destruct (indent_stack s) as [|a [|b st]] eqn:Hst; cbn in Hlen; [lia | lia |].
  constructor; cbn; try done.
  - split; [by inversion Hs | by rewrite <- Hl].
  - rewrite map_app, indent_depth_app, Hd. cbn. rewrite Ht. cbn. by rewrite Nat.sub_0_r.
  - apply Forall_app. split; [done | constructor; [by rewrite Ht | constructor]].
Qed.

Lemma pop_deeper_spec fuel spaces s :
  lexer_inv s -> length (indent_stack s) <= fuel ->
  let s' := pop_deeper fuel spaces s in
  lexer_inv s' /\ same_text s s' /\ stack_top (indent_stack s') <= spaces.
Proof.
  revert s; induction fuel as [|fuel IH]; intros s Hs Hf s'; subst s'; cbn [pop_deeper].
  - destruct Hs as [_ [_ Hl] _ _]. destruct (indent_stack s); cbn in *; [done | lia].
  - destruct (_ && _) eqn:Hc.
    + apply andb_true_iff in Hc as [Hlen%Nat.ltb_lt _].
      destruct (IH (push (mkToken Dedent (line_no s) 1 "")
                      (set_indent_stack (tail (indent_stack s)) s))) as (Hi & (?&?&?) & Ht).
      * by apply pop_inv.
      * cbn. destruct (indent_stack s); cbn in *; lia.
      * by split_and!.
    + split_and!; try done. destruct Hs as [_ [Hs Hl] _ _].
      destruct (indent_stack s) as [|a [|b st]]; cbn in *; [done | injection Hl as ->; lia |].
      apply Nat.ltb_ge in Hc. done.
Qed.

(** Reading the indentation keeps the invariant; it reports a dedent to a
    level that is not open; and it reaches the end of the source only when
    nothing but spaces is left. *)
Lemma handle_indentation_spec s :
  lexer_inv s ->
  match handle_indentation s with
  | Done s' => lexer_inv s' /\ source s' = source s /\ pos s <= pos s' /\
               (current s' = None ->
                Forall (fun c => c = 32%N) (drop (pos s) (source s)))
  | Fails e => exists l expected got, e = InvalidIndentation l expected got /\ expected < got
  | _ => False
  end.
Proof.
  intros Hs. unfold handle_indentation.
  destruct (skip_while_remaining (fun c => (c =? ch " ")%N) s) as (n & -> & Hn & Hall & _);
    [by apply Hs |].
  set (s1 := set_position _ _ _ s).
  assert (lexer_inv s1) as Hs1 by (destruct Hs; by constructor).
  assert (pos s <= pos s1) as Hp1 by (cbn; lia).
  destruct (current s1) as [c|] eqn:Hc.
  2: { split_and!; try done. intros _. unfold current in Hc. cbn in Hc.
       apply lookup_ge_None in Hc. rewrite take_ge in Hall by (rewrite length_drop; lia).
       eapply Forall_impl; [exact Hall |]. cbn. intros x Hx. apply Is_true_true, N.eqb_eq in Hx.
       exact Hx. }
  destruct (_ || _); [by split_and!; try done; rewrite Hc |].
  destruct (Nat.ltb_spec (stack_top (indent_stack s1)) (pos s1 - pos s)) as [Hlt|Hge].
  - split_and!; try done; [| by unfold current in *; cbn in *; rewrite Hc].
    destruct Hs1 as [Hp [Hso Hl] Hd He]. constructor; cbn in *; try done.
    + split; [| by destruct (indent_stack s)].
      constructor; [done |]. destruct (indent_stack s) as [|a st]; [constructor |].
      cbn in Hlt. inversion Hso as [|? ? _ Hfa]; subst. constructor; [lia |].
      eapply Forall_impl; [exact Hfa |]. cbn. lia.
    + rewrite map_app, indent_depth_app, Hd. cbn.
      destruct (indent_stack s); [done |]. cbn. f_equal. lia.
    + apply Forall_app. split; [done | by constructor].
  - destruct (Nat.ltb_spec (pos s1 - pos s) (stack_top (indent_stack s1))) as [Hlt|_];
      [| by split_and!; try done; rewrite Hc].
    destruct (pop_deeper_spec (length (indent_stack s1)) (pos s1 - pos s) s1 Hs1)
      as (Hi & (Hsrc & Hpp & _) & Ht); [lia |].
    set (s2 := pop_deeper _ _ s1) in *.
    destruct (Nat.eqb_spec (stack_top (indent_stack s2)) (pos s1 - pos s)); cbn [negb].
    + split_and!; try done; [rewrite Hpp; lia |].
      unfold current in *. by rewrite Hsrc, Hpp, Hc.
    + eexists _, _, _. split; [done | lia].
Qed.

Lemma lex_step_spec s :
  lexer_inv s -> is_at_end s = false ->
  match lex_step s with
  | Done s' => lexer_inv s' /\ source s' = source s /\ pos s < pos s'
  | Fails _ => True
  | Panics => Forall (fun c => c = 32%N) (drop (pos s) (source s))
  | NoFuel => False
  end.
Proof.
  intros Hs Hend. unfold is_at_end in Hend. apply Nat.leb_gt in Hend. unfold lex_step.
  assert (match (if at_line_start s
        then s1 ← handle_indentation s; Done (set_at_line_start false s1)
        else Done s) with
          | Done s' => lexer_inv s' /\ source s' = source s /\ pos s <= pos s' /\
               (current s' = None -> Forall (fun c => c = 32%N) (drop (pos s) (source s)))
          | Fails _ => True
          | _ => False
          end) as H.
  { destruct (at_line_start s).
    - pose proof (handle_indentation_spec s Hs) as H.
      destruct (handle_indentation s) as [s1| | |]; cbn; try done.
      destruct H as ([] & ? & ? & ?). split_and!; try done.
    - split_and!; try done. unfold current. intros Hc%lookup_ge_None. lia. }
  destruct (if at_line_start s then _ else _) as [s1| | |]; cbn; try done.
  destruct H as (Hi & Hsrc & Hp & Hlast).
  destruct (current s1) as [c|] eqn:Hc; [|by apply Hlast].
  pose proof (lex_char_steps s1 c Hc) as Hst.
  destruct (lex_char c s1) as [s2| | |]; cbn in *; try done.
  split_and!; [by eapply effect_inv | rewrite (effect_source _ _ Hst); done |].
  pose proof (effect_pos _ _ Hst). lia.
Qed.

Lemma lex_loop_spec fuel s :
  lexer_inv s -> remaining s <= fuel ->
  match lex_loop fuel s with
  | Done s' => lexer_inv s' /\ source s' = source s /\ is_at_end s' = true
  | Fails _ => True
  | Panics => last (source s) = Some 32%N
  | NoFuel => False
  end.
Proof.
  revert s; induction fuel as [|fuel IH]; intros s Hs Hf; cbn [lex_loop].
  - destruct (is_at_end s) eqn:He; [by split_and! |].
    unfold is_at_end, remaining in *. apply Nat.leb_gt in He. lia.
  - destruct (is_at_end s) eqn:He; [by split_and! |].
    pose proof (lex_step_spec s Hs He) as H.
    unfold is_at_end, remaining in *. apply Nat.leb_gt in He.
    destruct (lex_step s) as [s1| | |]; cbn; try done.
    + destruct H as (Hi & Hsrc & Hp). specialize (IH s1 Hi). rewrite Hsrc in IH.
      specialize (IH ltac:(lia)). destruct (lex_loop fuel s1); try done.
    + rewrite <- (take_drop (pos s) (source s)), last_app.
      assert (drop (pos s) (source s) <> []) as Hne.
      { intros Hnil. apply (f_equal length) in Hnil. rewrite length_drop in Hnil. cbn in Hnil. lia. }
      destruct (last (drop (pos s) (source s))) as [c|] eqn:Hl.
      * rewrite Forall_forall in H. f_equal. apply H.
        apply last_Some in Hl as [l' ->]. set_solver.
      * by apply last_None in Hl.
Qed.

(** * The tokenizer *)

(** C28: the main loop terminates: the fuel of the model, the length of the
    source, is never exhausted, because every iteration consumes a character. *)
Theorem tokenize_terminates src : tokenize src <> NoFuel.
Proof.
  unfold tokenize.
  pose proof (lex_loop_spec (length (source (Lexer_new src))) _ (lexer_inv_new src)) as H.
  specialize (H ltac:(cbn; lia)). destruct (lex_loop _ _); cbn; done.
Qed.

(** The tokenizer does not panic on a source whose last character, after
    newline normalization, is not a space. *)
Theorem tokenize_no_panic src :
  last (normalize_newlines src) <> Some 32%N -> tokenize src <> Panics.
Proof.
  intros Hl. unfold tokenize.
  pose proof (lex_loop_spec (length (source (Lexer_new src))) _ (lexer_inv_new src)) as H.
  specialize (H ltac:(cbn; lia)). destruct (lex_loop _ _); cbn; done.
Qed.

Lemma tokenize_no_panic_witness : tokenize "total = 1" <> Panics.
Proof. apply (tokenize_no_panic "total = 1"). vm_compute. discriminate. Defined.

(** The shape of a successful result. *)
Lemma indent_depth_dedents d n :
  indent_depth d (replicate n Dedent) = if n <=? d then Some (d - n) else None.
Proof.
  revert d; induction n as [|n IH]; intros d; cbn -[Nat.leb]; [by rewrite Nat.sub_0_r |].
  destruct d; [done |]. rewrite IH. done.
Qed.

Lemma map_kind_replicate n t : map kind (replicate n t) = replicate n (kind t).
Proof. induction n; cbn; congruence. Qed.

(** The stream ends with the only end marker. *)
Lemma tokenize_shape src ts :
  tokenize src = Done ts ->
  exists body l c, ts = body ++ [Token_eof l c] /\ Forall (fun t => kind t <> Eof) body.
Proof.
  unfold tokenize. intros (s1 & Hs1 & [= <-])%bind_Done.
  pose proof (lex_loop_spec (length (source (Lexer_new src))) _ (lexer_inv_new src)) as H.
  specialize (H ltac:(cbn; lia)). rewrite Hs1 in H. destruct H as ([_ _ Hd He] & _ & _).
  unfold close_indents. rewrite app_assoc.
  eexists _, _, _. split; [reflexivity |]. apply Forall_app. split; [done |].
  by apply Forall_replicate.
Qed.

(** C29: every [Indent] of a successful tokenization is closed by a [Dedent],
    no [Dedent] comes without an open [Indent], and the stream ends with the
    only end marker. *)
Theorem tokenize_balanced src ts :
  tokenize src = Done ts ->
  indent_depth 0 (map kind ts) = Some 0 /\
  exists body l c, ts = body ++ [Token_eof l c] /\ Forall (fun t => kind t <> Eof) body.
Proof.
  intros Hts. split; [| by eapply tokenize_shape]. revert Hts.
  unfold tokenize. intros (s1 & Hs1 & [= <-])%bind_Done.
  pose proof (lex_loop_spec (length (source (Lexer_new src))) _ (lexer_inv_new src)) as H.
  specialize (H ltac:(cbn; lia)). rewrite Hs1 in H. destruct H as ([_ _ Hd _] & _ & _).
  unfold close_indents. rewrite app_assoc, !map_app, !indent_depth_app, Hd, map_kind_replicate.
  cbn [mbind option_bind]. rewrite indent_depth_dedents, Nat.leb_refl, Nat.sub_diag. done.
Qed.

(** A block with an indented body and a line that closes it. *)
Definition demo_block : string := of_chars (bytes "a" ++ 10%N :: bytes "  b" ++ 10%N :: bytes "c").

Lemma tokenize_balanced_witness :
  exists ts, tokenize demo_block = Done ts /\ indent_depth 0 (map kind ts) = Some 0.
Proof.
  assert (Hok : match tokenize demo_block with Done _ => true | _ => false end = true)
    by (vm_compute; reflexivity).
  destruct (tokenize demo_block) as [ts | e | |] eqn:Hts; try discriminate Hok.
  exists ts. split; [reflexivity |]. apply (tokenize_balanced demo_block ts Hts).
Defined.
