(* ===== verification/LexerRoundtrip.v ===== *)
(** The tokenizer inverts a printer: a line of space-separated lexemes is read
    back as exactly the tokens that were written.  Also the invariance of the
    tokenizer under Windows line endings. *)
From stdpp Require Import base list strings pretty.
From Stdlib Require Import ZArith Lia.
From S2P Require Import Prelude RustStr F64 Token Errors Lexer LexerFacts.

(** * Lexemes and their spelling *)

(** The punctuation tokens and their spelling. *)
Definition punctuation : list (TokenKind * string) := [
  (Plus, "+"); (Minus, "-"); (Star, "*"); (Slash, "/"); (Percent, "%");
  (Equal, "=="); (NotEqual, "!="); (Greater, ">"); (Less, "<");
  (GreaterEqual, ">="); (LessEqual, "<="); (Assign, "=");
  (Pipeline, ">>"); (Broadcast, "*>>"); (Arrow, "->"); (FatArrow, "=>");
  (LeftParen, "("); (RightParen, ")"); (LeftBracket, "["); (RightBracket, "]");
  (LeftBrace, "{"); (RightBrace, "}"); (Comma, ","); (Dot, "."); (Colon, ":")
].

Inductive lexeme_form : Type :=
| LWord (w : list N)               (* an identifier or a reserved word *)
| LInt (ds : list N)               (* decimal digits *)
| LFloat (ip fp : list N)          (* digits, a dot, digits *)
| LString (cs : list N)            (* the characters of a string literal *)
| LPunct (k : TokenKind) (s : string).

(** How a character is written inside a string literal. *)
Definition escaped (c : N) : list N :=
  if (c =? 10)%N then [ch "\"; ch "n"]
  else if (c =? 13)%N then [ch "\"; ch "r"]
  else if (c =? 34)%N then [ch "\"; 34%N]
  else if (c =? ch "\")%N then [ch "\"; ch "\"]
  else [c].

Definition spelling (f : lexeme_form) : list N :=
  match f with
  | LWord w => w
  | LInt ds => ds
  | LFloat ip fp => ip ++ ch "." :: fp
  | LString cs => 34%N :: flat_map escaped cs ++ [34%N]
  | LPunct _ s => bytes s
  end.

Definition form_kind (f : lexeme_form) : TokenKind :=
  match f with
  | LWord w => word_kind (of_chars w)
  | LInt ds => Integer (digits_value ds)
  | LFloat ip fp =>
      Float (f64_of_decimal false (Z.to_N (digits_value (ip ++ fp))) (- Z.of_nat (length fp)))
  | LString cs => StringLiteral (of_chars cs)
  | LPunct k _ => k
  end.

Definition valid_form (f : lexeme_form) : Prop :=
  match f with
  | LWord w => exists c w', w = c :: w' /\ (is_ascii_alphabetic c || (c =? ch "_")%N) = true
                            /\ Forall is_ident_char w'
  | LInt ds => ds <> [] /\ Forall is_ascii_digit ds /\ (digits_value ds <= i64_max)%Z
  | LFloat ip fp => ip <> [] /\ fp <> [] /\ Forall is_ascii_digit ip /\ Forall is_ascii_digit fp
  | LString cs => Forall is_scalar cs
  | LPunct k s => (k, s) ∈ punctuation
  end.

(** One line of lexemes, each followed by a space. *)
Definition line_text (fs : list lexeme_form) : list N :=
  flat_map (fun f => spelling f ++ [32%N]) fs.

(** * States with a known rest of the source *)

Definition rest (s : Lexer) : list N := drop (pos s) (source s).
Arguments rest : simpl never.

Lemma rest_current s : current s = rest s !! 0.
Proof. unfold current, rest. by rewrite lookup_drop, Nat.add_0_r. Qed.
Lemma rest_peek s : peek s = rest s !! 1.
Proof. unfold peek, rest. by rewrite lookup_drop. Qed.
Lemma rest_peek_at n s : peek_at n s = rest s !! n.
Proof. unfold peek_at, rest. by rewrite lookup_drop. Qed.

Lemma rest_pos s c r : rest s = c :: r -> pos s < length (source s).
Proof.
  intros H. apply (f_equal length) in H. unfold rest in H.
  rewrite length_drop in H. cbn in H. lia.
Qed.

Lemma rest_remaining s : remaining s = length (rest s).
Proof. unfold remaining, rest. by rewrite length_drop. Qed.

(** The state after [n] characters of the same line. *)
Definition forward (n : nat) (s : Lexer) : Lexer :=
  set_position (pos s + n) (line_no s) (col_no s + n) s.

Lemma forward_0 s : forward 0 s = s.
Proof. unfold forward. rewrite !Nat.add_0_r. by destruct s. Qed.
Lemma forward_step1 n s : step1 (forward n s) = forward (n + 1) s.
Proof. unfold step1, forward, set_position. cbn. f_equal; lia. Qed.
Lemma forward_forward n m s : forward m (forward n s) = forward (n + m) s.
Proof. unfold forward, set_position. cbn. f_equal; lia. Qed.
Lemma step1_forward s : step1 s = forward 1 s.
Proof. done. Qed.
Lemma rest_forward n s : rest (forward n s) = drop n (rest s).
Proof. unfold rest, forward. cbn. by rewrite drop_drop. Qed.
Lemma rest_push t s : rest (push t s) = rest s.
Proof. done. Qed.
Lemma slice_forward n s : slice (forward n s) (pos s) (pos s + n) = take n (rest s).
Proof. unfold slice, rest. cbn. f_equal. lia. Qed.

Lemma advance_rest s c r : rest s = c :: r -> advance s = Done (forward 1 s).
Proof. intros H. apply advance_Done. by eapply rest_pos. Qed.

Lemma skip_while_exact (p : N -> bool) w c r fuel s :
  rest s = w ++ c :: r -> Forall p w -> p c = false -> length w < fuel ->
  skip_while p fuel s = forward (length w) s.
Proof.
  revert fuel s. induction w as [|a w IH]; intros fuel s Hr Hw Hc Hf;
    (destruct fuel as [|fuel]; [cbn in Hf; lia |]); cbn [skip_while];
    rewrite rest_current, Hr; cbn [lookup list_lookup app].
  - by rewrite Hc, forward_0.
  - apply Forall_cons in Hw as [Ha Hw]. apply Is_true_true in Ha. rewrite Ha.
    rewrite (IH fuel (step1 s)); [| by rewrite step1_forward, rest_forward, Hr | done | done |
      cbn in Hf; lia].
    rewrite step1_forward, forward_forward. done.
Qed.

(** * Reading one lexeme *)

(** The state after a lexeme: its token is pushed and its text consumed. *)
Definition reads (s : Lexer) (f : lexeme_form) (m : outcome MarretaError Lexer) : Prop :=
  exists t s', m = Done s' /\ kind t = form_kind f /\ tokens s' = tokens s ++ [t] /\
               rest s' = drop (length (spelling f)) (rest s) /\
               at_line_start s' = at_line_start s.

Lemma reads_push s s1 f t n :
  kind t = form_kind f -> tokens s1 = tokens s -> at_line_start s1 = at_line_start s ->
  rest s1 = rest s -> n = length (spelling f) ->
  reads s f (Done (forward n (push t s1))).
Proof.
  intros Hk Ht Ha Hr ->. eexists t, _. split; [reflexivity |]. split_and!; try done.
  - cbn. by rewrite Ht.
  - by rewrite rest_forward, rest_push, Hr.
Qed.

Lemma take_app_exact {A} (l k : list A) : take (length l) (l ++ k) = l.
Proof. by rewrite take_app_length. Qed.

Lemma ident_not_special c :
  is_ascii_alphabetic c || (c =? ch "_")%N = true ->
  forall s, lex_char c s = Done (read_identifier s).
Proof.
  intros Hc s. unfold lex_char.
  assert ((65 <= c <= 90 \/ 97 <= c <= 122 \/ c = 95)%N) as Hr.
  { revert Hc. unfold is_ascii_alphabetic, is_ascii_lowercase, is_ascii_uppercase, between.
    rewrite !orb_true_iff, !andb_true_iff, !N.leb_le, N.eqb_eq. cbn. lia. }
  assert (is_ascii_digit c = false) as Hd.
  { unfold is_ascii_digit, between. apply andb_false_iff.
    rewrite !N.leb_gt. cbn. lia. }
  repeat match goal with
  | |- context [(c =? ?d)%N] =>
      lazymatch d with ch "_" => fail | _ => idtac end;
      replace (c =? d)%N with false by (symmetry; apply N.eqb_neq; cbn; lia)
  end.
  cbn [orb]. by rewrite Hd, Hc.
Qed.

Lemma reads_word s w r :
  valid_form (LWord w) -> rest s = w ++ 32%N :: r ->
  forall c, current s = Some c -> reads s (LWord w) (lex_char c s).
Proof.
  intros (c & w' & -> & Hc & Hw) Hr c' Hcur. rewrite rest_current, Hr in Hcur. injection Hcur as <-.
  rewrite ident_not_special by done.
  assert (Forall is_ident_char (c :: w')) as Hall.
  { constructor; [| done]. apply Is_true_true. unfold is_ident_char, is_ascii_alphanumeric.
    apply orb_true_iff in Hc as [-> | ->]; by rewrite ?orb_true_r. }
  unfold read_identifier.
  rewrite (skip_while_exact _ (c :: w') 32%N r) by
    (done || rewrite rest_remaining, Hr, length_app; cbn; lia).
  change (pos (forward (length (c :: w')) s)) with (pos s + length (c :: w')).
  rewrite slice_forward, Hr, take_app_exact.
  eexists (mkToken _ _ _ _), _. split; [reflexivity |]. split_and!; try reflexivity.
  by rewrite rest_push, rest_forward.
Qed.

(** ** Numbers *)

Lemma digit_not_dot c : is_ascii_digit c = true -> (c =? ch ".")%N = false.
Proof. intros Hc. apply N.eqb_neq. intros ->. done. Qed.

(** Reading digits up to a character that cannot continue the number. *)
Lemma read_number_body_digits ds r p k fuel hd s :
  rest s = ds ++ r -> Forall is_ascii_digit ds -> length ds <= fuel ->
  read_number_body p k fuel hd s
  = read_number_body p k (fuel - length ds) hd (forward (length ds) s).
Proof.
  revert fuel s. induction ds as [|d ds IH]; intros fuel s Hr Hd Hf.
  - by rewrite forward_0, Nat.sub_0_r.
  - destruct fuel as [|fuel]; [cbn in Hf; lia |]. cbn [read_number_body].
    rewrite rest_current, Hr. cbn [app lookup list_lookup].
    apply Forall_cons in Hd as [Hd Hds]. apply Is_true_true in Hd.
    rewrite Hd, (digit_not_dot _ Hd). cbn [orb].
    rewrite step1_forward, (IH fuel (forward 1 s)); [| by rewrite rest_forward, Hr | done |
      cbn in Hf; lia].
    rewrite forward_forward. done.
Qed.

(** A space ends a number. *)
Lemma read_number_body_space r p k fuel hd s :
  rest s = 32%N :: r -> read_number_body p k fuel hd s = Done (hd, s).
Proof.
  intros Hr. destruct fuel; [done |]. cbn [read_number_body].
  rewrite rest_current, Hr. done.
Qed.

(** A dot followed by a digit starts the fraction. *)
Lemma read_number_body_dot d r p k fuel s :
  rest s = ch "." :: d :: r -> is_ascii_digit d = true -> 0 < fuel ->
  read_number_body p k fuel false s = read_number_body p k (fuel - 1) true (forward 1 s).
Proof.
  intros Hr Hd Hf. destruct fuel as [|fuel]; [lia |]. cbn [read_number_body].
  rewrite rest_current, rest_peek, Hr. cbn [lookup list_lookup].
  change (is_ascii_digit (ch ".") || (ch "." =? ch ".")%N) with true. cbn iota.
  change (ch "." =? ch ".")%N with true. cbn iota. rewrite Hd.
  rewrite Nat.sub_succ, Nat.sub_0_r. done.
Qed.

Lemma digits_scalar ds : Forall is_ascii_digit ds -> forallb is_scalar ds = true.
Proof.
  induction 1 as [|d ds Hd _ IH]; [done |]. cbn. rewrite IH, andb_true_r.
  apply Is_true_true in Hd. revert Hd. unfold is_ascii_digit, is_scalar, between.
  rewrite andb_true_iff, !N.leb_le. cbn. intros ?. apply orb_true_iff. left.
  apply N.ltb_lt. lia.
Qed.

Lemma forallb_Forall {A} (p : A -> bool) l : Forall p l <-> forallb p l = true.
Proof.
  induction l as [|x l IH]; cbn; [done |].
  rewrite Forall_cons, andb_true_iff, <- IH, Is_true_true. done.
Qed.

Lemma digits_value_nonneg ds : (0 <= digits_value ds)%Z.
Proof.
  enough (forall z, (0 <= z)%Z ->
    (0 <= foldl (fun acc c => (acc * 10 + Z.of_N (c - ch "0"))%Z) z ds)%Z) as H by by apply H.
  induction ds as [|d ds IH]; intros z Hz; cbn; [done |]. apply IH. lia.
Qed.

Lemma digit_not_sign d : is_ascii_digit d = true ->
  (d =? ch "-")%N = false /\ (d =? ch "+")%N = false.
Proof. intros Hd. split; apply N.eqb_neq; intros ->; done. Qed.

Lemma parse_i64_digits ds :
  ds <> [] -> Forall is_ascii_digit ds -> (digits_value ds <= i64_max)%Z ->
  parse_i64 (of_chars ds) = Some (digits_value ds).
Proof.
  intros Hne Hd Hmax. unfold parse_i64. rewrite chars_of_chars by by apply digits_scalar.
  unfold parse_i64_chars. destruct ds as [|d ds]; [done |].
  pose proof Hd as [Hd0 _]%Forall_cons. apply Is_true_true in Hd0.
  destruct (digit_not_sign d Hd0) as [-> ->].
  apply forallb_Forall in Hd. rewrite Hd.
  assert (in_i64 (digits_value (d :: ds)) = true) as ->; [| done].
  apply in_i64_spec. pose proof (digits_value_nonneg (d :: ds)). unfold i64_min. lia.
Qed.

Lemma take_digits_app ds r :
  Forall is_ascii_digit ds ->
  match r with c :: _ => is_ascii_digit c = false | [] => True end ->
  take_digits (ds ++ r) = (ds, r).
Proof.
  intros Hd Hr. induction Hd as [|d ds Hd _ IH]; cbn.
  - destruct r as [|c r]; cbn; [done | by rewrite Hr].
  - apply Is_true_true in Hd. by rewrite Hd, IH.
Qed.

Lemma parse_f64_digits ip fp :
  ip <> [] -> fp <> [] -> Forall is_ascii_digit ip -> Forall is_ascii_digit fp ->
  parse_f64 (of_chars (ip ++ ch "." :: fp))
  = Some (f64_of_decimal false (Z.to_N (digits_value (ip ++ fp))) (- Z.of_nat (length fp))).
Proof.
  intros Hip Hfp Hi Hf. unfold parse_f64. rewrite chars_of_chars.
  2: { rewrite forallb_app. cbn [forallb]. by rewrite !digits_scalar. }
  destruct ip as [|d ip]; [done |]. cbn [app].
  pose proof Hi as [Hd0 _]%Forall_cons. apply Is_true_true in Hd0.
  destruct (digit_not_sign d Hd0) as [-> ->].
  unfold parse_f64_unsigned.
  assert (to_ascii_lowercase_char d <> ch "i" /\ to_ascii_lowercase_char d <> ch "n") as [Hni Hnn].
  { revert Hd0. unfold is_ascii_digit, to_ascii_lowercase_char, is_ascii_uppercase, between.
    rewrite andb_true_iff, !N.leb_le. cbn. intros ?.
    destruct (_ && _) eqn:E; [rewrite andb_true_iff, !N.leb_le in E |]; lia. }
  rewrite decide_False by (intros [[=]|[=]]; done).
  rewrite decide_False by (intros [=]; done).
  change (d :: ip ++ ch "." :: fp) with ((d :: ip) ++ ch "." :: fp).
  rewrite take_digits_app by done. cbn [N.eqb]. change (ch "." =? ch ".")%N with true. cbn iota.
  rewrite <- (app_nil_r fp) at 1. rewrite take_digits_app by done. done.
Qed.

Lemma digit_not_special c :
  is_ascii_digit c = true -> forall s, lex_char c s = read_number s.
Proof.
  intros Hc s. unfold lex_char.
  assert ((48 <= c <= 57)%N) as Hr.
  { revert Hc. unfold is_ascii_digit, between. rewrite andb_true_iff, !N.leb_le. done. }
  repeat match goal with
  | |- context [(c =? ?d)%N] =>
      lazymatch d with ch "_" => fail | _ => idtac end;
      replace (c =? d)%N with false by (symmetry; apply N.eqb_neq; cbn; lia)
  end.
  cbn [orb]. by rewrite Hc.
Qed.

Lemma reads_int s ds r :
  valid_form (LInt ds) -> rest s = ds ++ 32%N :: r ->
  forall c, current s = Some c -> reads s (LInt ds) (lex_char c s).
Proof.
  intros (Hne & Hd & Hmax) Hr c Hc.
  assert (is_ascii_digit c = true) as Hdc.
  { rewrite rest_current, Hr in Hc. destruct ds as [|d ds]; [done |].
    injection Hc as <-. apply Forall_cons in Hd as [Hd _]. by apply Is_true_true. }
  rewrite digit_not_special by done. unfold read_number.
  rewrite (read_number_body_digits ds (32%N :: r)) by
    (done || rewrite rest_remaining, Hr, length_app; cbn; lia).
  rewrite (read_number_body_space r) by (by rewrite rest_forward, Hr, drop_app_length).
  cbn [mbind outcome_bind]. cbn iota beta.
  change (pos (forward (length ds) s)) with (pos s + length ds).
  rewrite slice_forward, Hr, take_app_exact, parse_i64_digits by done.
  eexists (mkToken _ _ _ _), _. split; [reflexivity |]. split_and!; try reflexivity.
  by rewrite rest_push, rest_forward.
Qed.

Lemma reads_float s ip fp r :
  valid_form (LFloat ip fp) -> rest s = (ip ++ ch "." :: fp) ++ 32%N :: r ->
  forall c, current s = Some c -> reads s (LFloat ip fp) (lex_char c s).
Proof.
  intros (Hip & Hfp & Hi & Hf) Hr c Hc.
  assert (is_ascii_digit c = true) as Hdc.
  { rewrite rest_current, Hr in Hc. destruct ip as [|d ip]; [done |].
    injection Hc as <-. apply Forall_cons in Hi as [Hd _]. by apply Is_true_true. }
  rewrite digit_not_special by done. unfold read_number.
  pose proof Hr as Hr'. rewrite <- app_assoc in Hr'. cbn [app] in Hr'.
  assert (remaining s = length ip + S (length fp + S (length r))) as Hrem.
  { rewrite rest_remaining, Hr', !length_app. cbn. rewrite length_app. cbn. lia. }
  rewrite (read_number_body_digits ip _ _ _ _ _ _ Hr' Hi) by lia.
  destruct fp as [|d fp]; [done |].
  assert (is_ascii_digit d = true) as Hd0.
  { apply Forall_cons in Hf as [Hd0 _]. by apply Is_true_true. }
  rewrite (read_number_body_dot d (fp ++ 32%N :: r)) by
    (rewrite ?rest_forward, ?Hr', ?drop_app_length; done || lia).
  rewrite forward_forward, (read_number_body_digits (d :: fp) (32%N :: r)); first last.
  { rewrite Hrem. cbn. lia. }
  { done. }
  { rewrite rest_forward, Hr', <- drop_drop, drop_app_length. done. }
  rewrite forward_forward, (read_number_body_space r) by
    (rewrite rest_forward, Hr', <- drop_drop, <- drop_drop, drop_app_length; cbn;
     by rewrite drop_app_length).
  cbn [mbind outcome_bind]. cbn iota beta.
  set (n := length ip + 1 + length (d :: fp)).
  assert (n = length (ip ++ ch "." :: d :: fp)) as Hn.
  { subst n. rewrite length_app. cbn. lia. }
  change (pos (forward n s)) with (pos s + n).
  rewrite slice_forward, Hr, Hn, take_app_exact, parse_f64_digits by done.
  eexists (mkToken _ _ _ _), _. split; [reflexivity |]. split_and!; try reflexivity.
  by rewrite rest_push, rest_forward.
Qed.

(** ** String literals *)

Lemma read_string_body_escaped cs r l k fuel v s :
  rest s = flat_map escaped cs ++ 34%N :: r -> length (rest s) <= fuel ->
  read_string_body l k fuel v s
  = Done (rev cs ++ v, forward (length (flat_map escaped cs)) s).
Proof.
  revert fuel v s. induction cs as [|c cs IH]; intros fuel v s Hr Hf;
    (destruct fuel as [|fuel]; [rewrite Hr, ?length_app in Hf; cbn in Hf; lia |]).
  - cbn [read_string_body]. rewrite rest_current, Hr, forward_0. done.
  - cbn [flat_map] in *. rewrite <- app_assoc in Hr.
    assert (forall e d, escaped c = [ch "\"; e] -> escape e = Some d -> d = c ->
      read_string_body l k (S fuel) v s
      = Done (rev (c :: cs) ++ v, forward (length (escaped c ++ flat_map escaped cs)) s)) as Hesc.
    { intros e d He Hd ->. rewrite He in *. cbn [read_string_body]. cbn [app] in Hr.
      rewrite rest_current, Hr. cbn [lookup list_lookup].
      change (ch "\" =? 34)%N with false. change (ch "\" =? 10)%N with false.
      change (ch "\" =? ch "\")%N with true. cbn iota.
      rewrite step1_forward, rest_current, rest_forward, Hr. cbn [drop lookup list_lookup].
      rewrite Hd, step1_forward, forward_forward, (IH fuel (c :: v)); first last.
      { rewrite Hr in Hf. rewrite rest_forward, Hr, length_drop. cbn [length] in *. lia. }
      { by rewrite rest_forward, Hr. }
      rewrite forward_forward. cbn [rev]. rewrite <- app_assoc. done. }
    unfold escaped in Hesc at 1. unfold escaped in Hr at 1.
    destruct (N.eqb_spec c 10) as [->|H10]; [by eapply Hesc |].
    destruct (N.eqb_spec c 13) as [->|H13]; [by eapply Hesc |].
    destruct (N.eqb_spec c 34) as [->|H34]; [by eapply Hesc |].
    destruct (N.eqb_spec c (ch "\")) as [->|Hbs]; [by eapply Hesc |]. clear Hesc.
    assert (escaped c = [c]) as ->.
    { unfold escaped. by rewrite !(proj2 (N.eqb_neq _ _)). }
    cbn [read_string_body]. cbn [app] in Hr. rewrite rest_current, Hr. cbn [lookup list_lookup].
    rewrite !(proj2 (N.eqb_neq _ _)) by done.
    rewrite step1_forward, (IH fuel (c :: v)); first last.
    { rewrite Hr in Hf. rewrite rest_forward, Hr, length_drop. cbn [length] in *. lia. }
    { by rewrite rest_forward, Hr. }
    rewrite forward_forward. cbn [rev app length]. rewrite <- app_assoc. done.
Qed.

Lemma reads_string s cs r :
  rest s = spelling (LString cs) ++ 32%N :: r ->
  forall c, current s = Some c -> reads s (LString cs) (lex_char c s).
Proof.
  intros Hr c Hc. cbn [spelling app] in Hr. rewrite <- app_assoc in Hr. cbn [app] in Hr.
  rewrite rest_current, Hr in Hc. injection Hc as <-.
  change (lex_char 34%N s) with (read_string s). unfold read_string.
  rewrite (advance_rest s _ _ Hr). cbn [mbind outcome_bind].
  rewrite (read_string_body_escaped cs (32%N :: r)); first last.
  { by rewrite rest_remaining. }
  { by rewrite rest_forward, Hr. }
  cbn [mbind outcome_bind]. cbn iota beta. rewrite forward_forward.
  set (n := 1 + length (flat_map escaped cs)).
  assert (rest (forward n s) = 34%N :: 32%N :: r) as Hrest.
  { rewrite rest_forward, Hr. subst n. cbn. by rewrite drop_app_length. }
  rewrite (advance_rest _ _ _ Hrest). cbn [mbind outcome_bind].
  assert (is_at_end (forward n s) = false) as ->.
  { unfold is_at_end. apply Nat.leb_gt. by eapply rest_pos. }
  rewrite app_nil_r, rev_involutive, forward_forward.
  eexists (mkToken _ _ _ _), _. split; [reflexivity |]. split_and!; try reflexivity.
  rewrite rest_push, rest_forward. f_equal. subst n. cbn [spelling length].
  rewrite length_app. cbn. lia.
Qed.

(** ** Punctuation *)

Definition no_newline (ts : list Token) : Prop := Forall (fun t => is_newline t = false) ts.

Lemma remove_last_newline_none ts : no_newline ts -> remove_last_newline ts = ts.
Proof.
  intros H. destruct (remove_last_newline_spec ts) as [-> | (l1 & t & l2 & -> & Ht & _)]; [done |].
  unfold no_newline in H. rewrite Forall_app, Forall_cons in H.
  destruct H as (_ & Hn & _). congruence.
Qed.

Lemma reads_emit_single s s0 k str lx c r :
  length (bytes str) = 1 -> rest s = c :: r -> rest s0 = rest s ->
  tokens s0 = tokens s -> at_line_start s0 = at_line_start s ->
  reads s (LPunct k str) (emit_single k lx s0).
Proof.
  intros Hl Hr Hr0 Ht Ha. unfold emit_single.
  rewrite (advance_rest _ c r) by (by rewrite rest_push, Hr0).
  apply reads_push; done.
Qed.

Lemma reads_emit_double s k str lx c d r :
  no_newline (tokens s) ->
  length (bytes str) = 2 -> rest s = c :: d :: r -> reads s (LPunct k str) (emit_double k lx s).
Proof.
  intros Hn Hl Hr. unfold emit_double.
  assert (match k with
          | Pipeline | Broadcast => set_tokens (remove_last_newline (tokens s)) s
          | _ => s
          end = s) as ->.
  { rewrite remove_last_newline_none by done. destruct s, k; done. }
  rewrite (advance_rest _ c (d :: r)) by (by rewrite rest_push).
  cbn [mbind outcome_bind].
  rewrite (advance_rest _ d r) by (by rewrite rest_forward, rest_push, Hr).
  rewrite forward_forward. apply reads_push; done.
Qed.

Lemma reads_emit_triple s k str lx c d e r :
  length (bytes str) = 3 -> rest s = c :: d :: e :: r ->
  reads s (LPunct k str) (emit_triple k lx s).
Proof.
  intros Hl Hr. unfold emit_triple.
  rewrite (advance_rest _ c (d :: e :: r)) by (by rewrite rest_push). cbn [mbind outcome_bind].
  rewrite (advance_rest _ d (e :: r)) by (by rewrite rest_forward, rest_push, Hr).
  cbn [mbind outcome_bind].
  rewrite (advance_rest _ e r) by (by rewrite !rest_forward, rest_push, Hr).
  rewrite !forward_forward. apply reads_push; done.
Qed.

Lemma reads_punct s k str r :
  valid_form (LPunct k str) -> no_newline (tokens s) -> rest s = bytes str ++ 32%N :: r ->
  forall c, current s = Some c -> reads s (LPunct k str) (lex_char c s).
Proof.
  intros Hv Hn Hr c Hc. cbn in Hv. unfold punctuation in Hv.
  repeat (apply elem_of_cons in Hv as [Hv|Hv]; [injection Hv as -> -> |]); try by inversion Hv.
  all: cbn [bytes app] in Hr; rewrite rest_current, Hr in Hc; injection Hc as <-;
    unfold lex_char; rewrite rest_peek, rest_peek_at, Hr; cbn [lookup list_lookup];
    repeat match goal with
    | |- context [(ch ?a =? ?b)%N] =>
        let v := eval vm_compute in (ch a =? b)%N in change (ch a =? b)%N with v
    | |- context [(32 =? ?b)%N] =>
        let v := eval vm_compute in (32 =? b)%N in change (32 =? b)%N with v
    end; cbn [orb andb]; cbn iota;
    first [ eapply reads_emit_single; done | eapply reads_emit_double; done
          | eapply reads_emit_triple; done ].
Qed.

(** * A whole line *)

Lemma reads_form s f r :
  valid_form f -> no_newline (tokens s) -> rest s = spelling f ++ 32%N :: r ->
  exists c, current s = Some c /\ reads s f (lex_char c s).
Proof.
  intros Hv Hn Hr.
  assert (exists c, current s = Some c) as [c Hc].
  { rewrite rest_current, Hr.
    destruct f as [w|ds|ip fp|cs|k str]; cbn in *;
      [destruct w | destruct ds | destruct ip | | destruct (bytes str)]; cbn; eauto. }
  exists c. split; [done |].
  destruct f; [by eapply reads_word | by eapply reads_int | by eapply reads_float
              | by eapply reads_string | by eapply reads_punct].
Qed.

Lemma form_kind_not_newline f : valid_form f -> form_kind f <> Newline.
Proof.
  destruct f as [w|ds|ip fp|cs|k str]; cbn; try done.
  - intros _. unfold word_kind. destruct (keyword_lookup _) as [k|] eqn:Hk; [| done].
    apply keyword_lookup_Some in Hk.
    assert (Forall (fun e => snd e <> Newline) keyword_table) as Hall
      by (unfold keyword_table; repeat constructor; cbn; done).
    rewrite Forall_forall in Hall. exact (Hall _ Hk).
  - intros H.
    assert (Forall (fun e => fst e <> Newline) punctuation) as Hall
      by (unfold punctuation; repeat constructor; cbn; done).
    rewrite Forall_forall in Hall. exact (Hall _ H).
Qed.

Lemma spelling_nonempty f : valid_form f -> 0 < length (spelling f).
Proof.
  destruct f as [w|ds|ip fp|cs|k str]; cbn.
  - intros (? & ? & -> & _). cbn. lia.
  - intros (Hne & _). destruct ds; cbn; [done | lia].
  - intros (Hne & _). destruct ip; cbn; [done | lia].
  - lia.
  - intros H.
    assert (Forall (fun e => 0 < length (bytes (snd e))) punctuation) as Hall
      by (unfold punctuation; repeat constructor).
    rewrite Forall_forall in Hall. exact (Hall _ H).
Qed.

Lemma is_at_end_rest s : is_at_end s = true <-> rest s = [].
Proof.
  unfold is_at_end, rest. rewrite Nat.leb_le. split; [apply drop_ge |].
  intros H. apply (f_equal length) in H. rewrite length_drop in H. cbn in H. lia.
Qed.

Lemma is_at_end_rest_cons s c r : rest s = c :: r -> is_at_end s = false.
Proof. intros H. apply not_true_iff_false. rewrite is_at_end_rest, H. done. Qed.

Lemma lex_step_mid s c :
  at_line_start s = false -> current s = Some c -> lex_step s = lex_char c s.
Proof. intros Ha Hc. unfold lex_step. rewrite Ha. cbn. by rewrite Hc. Qed.

(** Two iterations read a lexeme and the space after it. *)
Lemma lex_loop_line fs s fuel :
  Forall valid_form fs -> rest s = line_text fs -> length (rest s) <= fuel ->
  at_line_start s = false -> no_newline (tokens s) ->
  exists s', lex_loop fuel s = Done s' /\ map kind (tokens s') = map kind (tokens s) ++ map form_kind fs
             /\ indent_stack s' = indent_stack s.
Proof.
  intros Hv. revert s fuel. induction Hv as [|f fs Hf _ IH]; intros s fuel Hr Hfuel Ha Hn.
  - exists s. split_and!; [| by rewrite app_nil_r | done].
    destruct fuel; cbn [lex_loop]; by rewrite (proj2 (is_at_end_rest s) Hr).
  - cbn [line_text flat_map] in Hr. rewrite <- !app_assoc in Hr. cbn [app] in Hr.
    change (flat_map (fun f => spelling f ++ [32%N]) fs) with (line_text fs) in Hr.
    destruct (reads_form s f _ Hf Hn Hr) as (c & Hc & t & s1 & Hs1 & Hk & Ht & Hr1 & Ha1).
    assert (is_at_end s = false) as He.
    { apply Nat.leb_gt. by eapply current_lt. }
    pose proof (spelling_nonempty f Hf) as Hlen.
    assert (length (rest s) = length (spelling f) + S (length (line_text fs))) as Hl.
    { by rewrite Hr, length_app. }
    destruct fuel as [|[|fuel]]; [lia | lia |]. cbn [lex_loop].
    pose proof (lex_char_steps s c Hc) as Heff. rewrite Hs1 in Heff. cbn in Heff.
    rewrite He, (lex_step_mid s c) by done. rewrite Hs1. cbn [mbind outcome_bind].
    rewrite Hr, drop_app_length in Hr1. rewrite (is_at_end_rest_cons _ _ _ Hr1).
    rewrite Ha in Ha1. rewrite (lex_step_mid s1 32%N) by (by rewrite ?rest_current, ?Hr1).
    change (lex_char 32%N s1) with (advance s1). rewrite (advance_rest _ _ _ Hr1).
    cbn [mbind outcome_bind].
    destruct (IH (forward 1 s1) fuel) as (s' & Hs' & Hk' & Hst').
    + by rewrite rest_forward, Hr1.
    + rewrite rest_forward, Hr1. cbn. rewrite drop_0. lia.
    + done.
    + cbn. rewrite Ht. apply Forall_app. split; [done |]. constructor; [| constructor].
      unfold is_newline. rewrite Hk. pose proof (form_kind_not_newline f Hf).
      by destruct (form_kind f).
    + exists s'. split_and!; [done | |].
      * rewrite Hk'. cbn. rewrite Ht, map_app. cbn. by rewrite Hk, <- app_assoc.
      * rewrite Hst'. cbn. apply Heff.
Qed.

(** ** The text of a line survives normalization *)

Lemma forallb_flat_map {A B} (p : B -> bool) (f : A -> list B) l :
  (forall x, x ∈ l -> forallb p (f x) = true) -> forallb p (flat_map f l) = true.
Proof.
  induction l as [|x l IH]; intros H; cbn; [done |].
  rewrite forallb_app, H by apply list_elem_of_here. cbn. apply IH.
  intros y Hy. apply H. by apply list_elem_of_further.
Qed.

(** A scalar value other than a carriage return. *)
Definition plain (c : N) : bool := is_scalar c && negb (c =? 13)%N.

Lemma small_plain c : (14 <= c < 128)%N -> plain c = true.
Proof.
  intros Hc. unfold plain, is_scalar, between.
  rewrite (proj2 (N.ltb_lt _ _)) by lia. by rewrite (proj2 (N.eqb_neq _ _)) by lia.
Qed.

Lemma ident_char_plain c : is_ident_char c = true -> plain c = true.
Proof.
  unfold is_ident_char, is_ascii_alphanumeric, is_ascii_alphabetic, is_ascii_lowercase,
    is_ascii_uppercase, is_ascii_digit, between.
  rewrite !orb_true_iff, !andb_true_iff, !N.leb_le, !N.eqb_eq. cbn. intros ?.
  apply small_plain. lia.
Qed.

Lemma digit_plain c : is_ascii_digit c = true -> plain c = true.
Proof.
  unfold is_ascii_digit, between. rewrite andb_true_iff, !N.leb_le. cbn. intros ?.
  apply small_plain. lia.
Qed.

Lemma escaped_plain c : is_scalar c = true -> forallb plain (escaped c) = true.
Proof.
  intros Hc. unfold escaped.
  destruct (N.eqb_spec c 10); [done |]. destruct (N.eqb_spec c 13) as [|H13]; [done |].
  destruct (c =? 34)%N; [done |]. destruct (c =? ch "\")%N; [done |].
  cbn. unfold plain. rewrite Hc. by rewrite (proj2 (N.eqb_neq _ _)).
Qed.

Lemma Forall_plain (p : N -> bool) l :
  (forall c, p c = true -> plain c = true) -> Forall p l -> forallb plain l = true.
Proof.
  intros Hp Hl. apply forallb_Forall. eapply Forall_impl; [exact Hl |]. cbn.
  intros c Hc. apply Is_true_true, Hp, Is_true_true, Hc.
Qed.

Lemma spelling_plain f : valid_form f -> forallb plain (spelling f) = true.
Proof.
  destruct f as [w|ds|ip fp|cs|k str]; cbn [valid_form spelling].
  - intros (c & w' & -> & Hc & Hw). apply (Forall_plain is_ident_char); [apply ident_char_plain |].
    constructor; [| done]. apply Is_true_true. unfold is_ident_char, is_ascii_alphanumeric.
    apply orb_true_iff in Hc as [-> | ->]; by rewrite ?orb_true_r.
  - intros (_ & Hd & _). by apply (Forall_plain is_ascii_digit); [apply digit_plain |].
  - intros (_ & _ & Hi & Hf). rewrite forallb_app. cbn [forallb].
    rewrite !(Forall_plain is_ascii_digit); done || apply digit_plain.
  - intros Hs. cbn. rewrite forallb_app. cbn. rewrite andb_true_r. apply forallb_flat_map.
    intros c Hc. apply escaped_plain. rewrite Forall_forall in Hs. by apply Is_true_true, Hs.
  - intros H.
    assert (Forall (fun e => forallb plain (bytes (snd e)) = true) punctuation) as Hall
      by (unfold punctuation; repeat constructor).
    rewrite Forall_forall in Hall. exact (Hall _ H).
Qed.

Lemma line_text_plain fs : Forall valid_form fs -> forallb plain (line_text fs) = true.
Proof.
  intros H. apply forallb_flat_map. intros f Hf. rewrite forallb_app.
  rewrite Forall_forall in H. by rewrite spelling_plain by by apply H.
Qed.

Lemma plain_scalar l : forallb plain l = true -> forallb is_scalar l = true.
Proof.
  induction l as [|c l IH]; cbn; [done |]. unfold plain at 1.
  rewrite !andb_true_iff. intros [[-> _] Hl]. by rewrite IH.
Qed.

Lemma normalize_plain l :
  forallb plain l = true -> replace_cr (replace_crlf l) = l.
Proof.
  induction l as [|c l IH]; [done |]. cbn [forallb]. unfold plain at 1.
  rewrite !andb_true_iff, negb_true_iff. intros [[_ Hc] Hl].
  assert (replace_crlf (c :: l) = c :: replace_crlf l) as ->.
  { apply N.eqb_neq in Hc. destruct c as [|p]; [done |].
    destruct (decide (p = 13%positive)) as [->|Hp]; [done |].
    cbn. repeat (destruct p as [p|p|]; try done). }
  cbn. rewrite Hc. f_equal. by apply IH.
Qed.

Lemma normalize_line fs :
  Forall valid_form fs -> normalize_newlines (of_chars (line_text fs)) = line_text fs.
Proof.
  intros H. unfold normalize_newlines. pose proof (line_text_plain fs H) as Hp.
  rewrite chars_of_chars by by apply plain_scalar. by apply normalize_plain.
Qed.

(** The first character of a lexeme starts neither a blank nor a comment. *)
Lemma spelling_head f r c :
  valid_form f -> (spelling f ++ r) !! 0 = Some c ->
  (c =? ch " ")%N = false /\ (c =? 10)%N = false /\ (c =? ch "#")%N = false.
Proof.
  destruct f as [w|ds|ip fp|cs|k str]; cbn [valid_form spelling].
  - intros (c' & w' & -> & Hc & _) [= <-]. revert Hc.
    unfold is_ascii_alphabetic, is_ascii_lowercase, is_ascii_uppercase, between.
    rewrite !orb_true_iff, !andb_true_iff, !N.leb_le, !N.eqb_eq, !N.eqb_neq. cbn. lia.
  - intros (Hne & Hd & _) Hc. destruct ds as [|d ds]; [done |]. injection Hc as <-.
    apply Forall_cons in Hd as [Hd _]. apply Is_true_true in Hd. revert Hd.
    unfold is_ascii_digit, between. rewrite andb_true_iff, !N.leb_le, !N.eqb_neq. cbn. lia.
  - intros (Hne & _ & Hd & _) Hc. destruct ip as [|d ip]; [done |]. injection Hc as <-.
    apply Forall_cons in Hd as [Hd _]. apply Is_true_true in Hd. revert Hd.
    unfold is_ascii_digit, between. rewrite andb_true_iff, !N.leb_le, !N.eqb_neq. cbn. lia.
  - by intros _ [= <-].
  - intros H Hc.
    assert (Forall (fun e => match bytes (snd e) with
              | c :: _ => (c =? ch " ")%N = false /\ (c =? 10)%N = false /\ (c =? ch "#")%N = false
              | [] => False end) punctuation) as Hall
      by (unfold punctuation; repeat constructor).
    rewrite Forall_forall in Hall. specialize (Hall _ H). cbn in Hall.
    destruct (bytes str); [done |]. by injection Hc as <-.
Qed.

(** The main loop on a line of lexemes. *)
Lemma lex_line_loop fs :
  Forall valid_form fs ->
  exists s, lex_loop (length (line_text fs)) (Lexer_new (of_chars (line_text fs))) = Done s /\
    map kind (tokens s) = map form_kind fs /\ indent_stack s = [0].
Proof.
  intros Hv. unfold Lexer_new. rewrite normalize_line by done.
  set (s := mkLexer _ _ _ _ _ _ _ _).
  set (s0 := set_at_line_start false s).
  destruct (lex_loop_line fs s0 (length (line_text fs)) Hv) as (s1 & Hs1 & Hk & Hst); try done.
  { by constructor. }
  assert (lex_loop (length (line_text fs)) s = lex_loop (length (line_text fs)) s0
          \/ fs = []) as [-> | ->].
  { destruct fs as [|f fs]; [by right | left]. apply Forall_cons in Hv as [Hf _].
    pose proof (spelling_nonempty f Hf) as Hlen.
    assert (exists c, (spelling f ++ 32%N :: line_text fs) !! 0 = Some c) as [c Hc]
      by (destruct (spelling f); [cbn in Hlen; lia | by eexists]).
    pose proof (spelling_head f _ c Hf Hc) as (H32 & H10 & H35).
    assert (line_text (f :: fs) = spelling f ++ 32%N :: line_text fs) as Hlt
      by (cbn [line_text flat_map]; by rewrite <- app_assoc).
    assert (current s = Some c) as Hcur by (rewrite rest_current; cbn; unfold rest; cbn [source pos s];
      rewrite drop_0, Hlt; done).
    assert (lex_step s = lex_step s0) as Hstep.
    { unfold lex_step. cbn [at_line_start s s0 set_at_line_start]. unfold handle_indentation.
      assert (forall n, skip_while (fun c => (c =? ch " ")%N) n s = s) as ->.
      { intros [|n]; cbn [skip_while]; [done |]. by rewrite Hcur, H32. }
      rewrite Hcur, H10, H35. cbn. done. }
    destruct (length (line_text (f :: fs))) as [|n] eqn:Hn.
    { rewrite Hlt, length_app in Hn. cbn in Hn. lia. }
    assert (is_at_end s = false) as He by (apply Nat.leb_gt; by eapply current_lt).
    cbn [lex_loop]. change (is_at_end s0) with (is_at_end s). by rewrite He, Hstep. }
  - exists s1. split_and!; [done | by rewrite Hk | done].
  - by exists s.
Qed.

(** The tokens of a line of lexemes. *)
Lemma tokenize_line fs :
  Forall valid_form fs ->
  exists ts, tokenize (of_chars (line_text fs)) = Done ts /\ map kind ts = map form_kind fs ++ [Eof].
Proof.
  intros Hv. destruct (lex_line_loop fs Hv) as (s & Hs & Hk & Hst).
  unfold tokenize. cbn zeta. change (source (Lexer_new (of_chars (line_text fs))))
    with (normalize_newlines (of_chars (line_text fs))).
  rewrite normalize_line, Hs by done. cbn [mbind outcome_bind]. eexists. split; [reflexivity |].
  unfold close_indents. rewrite Hst. cbn. by rewrite map_app, Hk.
Qed.

(** C9: a line of space-separated lexemes is tokenized into exactly the tokens
    written: identifiers and reserved words, integers, floats (correctly
    rounded), string literals with their escapes, and punctuation. *)
Theorem lex_line_roundtrip fs :
  Forall valid_form fs ->
  kinds (of_chars (line_text fs)) = Done (map form_kind fs ++ [Eof]).
Proof.
  intros Hv. destruct (tokenize_line fs Hv) as (ts & Hts & Hk).
  unfold kinds. rewrite Hts. cbn. by rewrite Hk.
Qed.

(** A line of words, punctuation, a string with escapes, and numbers. *)
Definition demo_line : list lexeme_form :=
  [LWord (bytes "price_1"); LPunct Assign "="; LString [97%N; 34%N; 10%N]; LPunct Star "*";
   LFloat (bytes "3") (bytes "50"); LPunct Pipeline ">>"; LWord (bytes "match"); LInt (bytes "007")].

Lemma lex_line_roundtrip_witness :
  kinds (of_chars (line_text demo_line)) = Done (map form_kind demo_line ++ [Eof]).
Proof.
  apply lex_line_roundtrip. unfold demo_line. rewrite !Forall_cons. split_and!; cbn [valid_form].
  all: try solve [repeat constructor].
  all: try (eexists _, _; split_and!; [reflexivity | vm_compute; reflexivity | repeat constructor]).
  all: split_and!; try discriminate; try (vm_compute; discriminate); repeat constructor.
Defined.

(** * Line endings *)

(** The text with every line feed written the Windows way, and the classic
    Mac OS way. *)
Definition to_crlf (l : list N) : list N :=
  flat_map (fun c => if (c =? 10)%N then [13%N; 10%N] else [c]) l.
Definition to_cr (l : list N) : list N :=
  map (fun c => if (c =? 10)%N then 13%N else c) l.

Lemma replace_crlf_cons c l :
  (c <> 13%N \/ l !! 0 <> Some 10%N) -> replace_crlf (c :: l) = c :: replace_crlf l.
Proof.
  intros H. destruct (decide (c = 13%N)) as [->|Hc].
  - destruct H as [H|H]; [done |]. destruct l as [|d l]; [done |].
    cbn in H. destruct d as [|p]; [done |]. cbn.
    repeat (destruct p as [p|p|]; try done).
  - destruct c as [|p]; [done |]. cbn. repeat (destruct p as [p|p|]; try done).
Qed.

Lemma normalize_crlf l :
  forallb plain l = true -> replace_cr (replace_crlf (to_crlf l)) = l.
Proof.
  induction l as [|c l IH]; [done |]. cbn [forallb]. unfold plain at 1.
  rewrite !andb_true_iff, negb_true_iff. intros [[_ Hc] Hl]. cbn [to_crlf flat_map].
  change (flat_map _ l) with (to_crlf l).
  destruct (N.eqb_spec c 10) as [->|H10]; cbn [app].
  - cbn. f_equal. by apply IH.
  - rewrite replace_crlf_cons by (left; by apply N.eqb_neq). cbn. rewrite Hc. f_equal. by apply IH.
Qed.

Lemma normalize_cr l :
  forallb plain l = true -> replace_cr (replace_crlf (to_cr l)) = l.
Proof.
  induction l as [|c l IH]; [done |]. cbn [forallb]. unfold plain at 1.
  rewrite !andb_true_iff, negb_true_iff. intros [[_ Hc] Hl]. cbn [to_cr map].
  change (map _ l) with (to_cr l).
  assert (to_cr l !! 0 <> Some 10%N) as Hhd.
  { destruct l as [|d l]; [done |]. cbn. destruct (N.eqb_spec d 10); congruence. }
  rewrite replace_crlf_cons by by right. cbn. f_equal; [| by apply IH].
  destruct (N.eqb_spec c 10) as [->|]; [done |]. by rewrite Hc.
Qed.

Lemma to_crlf_scalar l : forallb is_scalar l = true -> forallb is_scalar (to_crlf l) = true.
Proof.
  intros H. apply forallb_flat_map. intros c Hc.
  destruct (c =? 10)%N; [done |]. cbn. rewrite andb_true_r.
  apply forallb_Forall in H. rewrite Forall_forall in H. by apply Is_true_true, H.
Qed.

Lemma to_cr_scalar l : forallb is_scalar l = true -> forallb is_scalar (to_cr l) = true.
Proof.
  induction l as [|c l IH]; cbn; [done |]. rewrite !andb_true_iff. intros [Hc Hl].
  split; [| by apply IH]. by destruct (c =? 10)%N.
Qed.

Lemma tokenize_normalized src1 src2 :
  normalize_newlines src1 = normalize_newlines src2 -> tokenize src1 = tokenize src2.
Proof. intros H. unfold tokenize, Lexer_new. by rewrite H. Qed.

(** A source with line feeds is tokenized identically, positions included,
    when it is saved with Windows or classic Mac OS line endings. *)
Theorem tokenize_line_endings l :
  forallb plain l = true ->
  tokenize (of_chars (to_crlf l)) = tokenize (of_chars l) /\
  tokenize (of_chars (to_cr l)) = tokenize (of_chars l).
Proof.
  intros H. pose proof (plain_scalar l H) as Hs.
  split; apply tokenize_normalized; unfold normalize_newlines;
    rewrite !chars_of_chars, (normalize_plain l H);
    auto using normalize_crlf, normalize_cr, to_crlf_scalar, to_cr_scalar.
Qed.

Definition two_lines : list N := bytes "a" ++ 10%N :: bytes "b".

Lemma tokenize_line_endings_witness :
  tokenize (of_chars (to_crlf two_lines)) = tokenize (of_chars two_lines) /\
  tokenize (of_chars (to_cr two_lines)) = tokenize (of_chars two_lines).
Proof. exact (tokenize_line_endings two_lines eq_refl). Defined.

(** * Two behaviours the comments of the source do not announce *)

(** A source made of spaces only makes the tokenizer panic: the
    indentation is read up to the end of the source, and the character after
    it is then indexed without a check. *)
Theorem tokenize_only_spaces_panics n : tokenize (of_chars (replicate (S n) 32%N)) = Panics.
Proof.
  assert (forallb plain (replicate (S n) 32%N) = true) as Hp
    by (induction n as [|n IH]; [done | exact IH]).
  unfold tokenize, Lexer_new, normalize_newlines.
  rewrite chars_of_chars, normalize_plain by (done || by apply plain_scalar).
  set (s := mkLexer _ _ _ _ _ _ _ _).
  assert (lex_step s = Panics) as Hstep.
  { unfold lex_step. cbn [at_line_start s]. unfold handle_indentation.
    destruct (skip_while_remaining (fun c => (c =? ch " ")%N) s) as (k & -> & Hk & _ & He);
      [cbn; lia |].
    assert (length (source s) <= pos s + k) as Hend.
    { change (length (replicate (S n) 32%N) <= 0 + k). rewrite length_replicate.
      change (source s) with (replicate (S n) 32%N) in He.
      destruct (decide (k < S n)) as [Hlt|]; [| lia].
      by rewrite lookup_replicate_2 in He by done. }
    rewrite (proj2 (current_None _)) by exact Hend. cbn [mbind outcome_bind].
    by rewrite (proj2 (current_None _)) by exact Hend. }
  cbn [lex_loop length source s replicate].
  change (is_at_end s) with false. rewrite Hstep. done.
Qed.

(** The same on a program followed by an indented blank last line. *)
Example tokenize_trailing_blank_panics :
  tokenize (of_chars (bytes "x = 1" ++ [10%N; 32%N; 32%N])) = Panics.
Proof. vm_compute. reflexivity. Qed.

(** A leading [>>] joins the previous line, a leading [*>>] does not: only
    [emit_double] removes the newline, and [*>>] goes through [emit_triple]. *)
Theorem leading_broadcast_keeps_newline :
  kinds (of_chars (bytes "a" ++ 10%N :: bytes ">> b"))
    = Done [Identifier "a"; Pipeline; Identifier "b"; Eof] /\
  kinds (of_chars (bytes "a" ++ 10%N :: bytes "*>> b"))
    = Done [Identifier "a"; Newline; Broadcast; Identifier "b"; Eof].
Proof. split; vm_compute; reflexivity. Qed.
