(* ===== verification/Ast.v ===== *)
(** The abstract syntax tree (src/src/ast.rs).  The constructors keep the
    source's names with a prefix telling the type, since Rocq has one name
    space: [S] for [Statement], [E] for [Expression], [T] for [TaskBody], and
    so on.  A [usize] line or column is a [nat]. *)
From stdpp Require Import base list strings.
From Stdlib Require Import ZArith.
From S2P Require Import Prelude RustStr F64.

(** * Enumerations and records without syntax inside *)

Inductive HttpVerb : Type := VGet | VPost | VPut | VPatch | VDelete.

#[export] Instance HttpVerb_eq_dec : EqDecision HttpVerb.
Proof. solve_decision. Defined.

(** [impl Display for HttpVerb]. *)
Definition show_verb (v : HttpVerb) : string :=
  match v with
  | VGet => "GET" | VPost => "POST" | VPut => "PUT" | VPatch => "PATCH" | VDelete => "DELETE"
  end.

Inductive ReplyContentType : Type := RJson | RHtml | RText.

Inductive TakeKind : Type := TKPayload | TKQuery | TKHeaders | TKForm | TKRaw.

#[export] Instance TakeKind_eq_dec : EqDecision TakeKind.
Proof. solve_decision. Defined.

Record TakeBinding : Type := mkTakeBinding {
  tb_kind : TakeKind;
  tb_name : string;
  tb_schema : option string;
}.

(** [TakeBinding::raw]. *)
Definition TakeBinding_raw (k : TakeKind) (name : string) : TakeBinding :=
  mkTakeBinding k name None.

(** The binding (if any) for a given input kind. *)
Definition binding_for (take : list TakeBinding) (k : TakeKind) : option TakeBinding :=
  find (fun b => bool_decide (tb_kind b = k)) take.

(** The schema of the first [take payload] binding. *)
Definition payload_schema (take : list TakeBinding) : option string :=
  match find (fun b => bool_decide (tb_kind b = TKPayload)) take with
  | Some b => tb_schema b
  | None => None
  end.

Record RouteAuth : Type := mkRouteAuth {
  ra_provider : string;
  ra_line : nat;
  ra_column : nat;
}.

Inductive SchemaType : Type :=
| StringType | IntegerType | FloatType | DecimalType | BooleanType
| InstantType | DateType | TimeType | DurationType | IntervalType
| ListType | MapType
| EnumType (values : list string)
| Reference (name : string)
| TypedList (inner : SchemaType).

#[export] Instance SchemaType_eq_dec : EqDecision SchemaType.
Proof. solve_decision. Defined.

(** [impl Display for SchemaType]. *)
Fixpoint show_schema_type (t : SchemaType) : string :=
  match t with
  | StringType => "string"
  | IntegerType => "integer"
  | FloatType => "float"
  | DecimalType => "decimal"
  | BooleanType => "boolean"
  | InstantType => "instant"
  | DateType => "date"
  | TimeType => "time"
  | DurationType => "duration"
  | IntervalType => "interval"
  | ListType => "list"
  | MapType => "map"
  | EnumType values =>
      "enum [" +:+ join ", " (map (fun v => dquote +:+ v +:+ dquote) values) +:+ "]"
  | Reference name => name
  | TypedList inner => "list of " +:+ show_schema_type inner
  end.

Record SchemaField : Type := mkSchemaField {
  sf_name : string;
  field_type : SchemaType;
  optional : bool;
}.

Record ParamDef : Type := mkParamDef {
  pd_name : string;
  pd_schema : option string;
}.

Inductive BinaryOperator : Type :=
| Add | Subtract | Multiply | Divide | Modulo
| OpEqual | OpNotEqual | OpGreater | OpLess | OpGreaterEqual | OpLessEqual
| OpIn | OpAnd | OpOr.

#[export] Instance BinaryOperator_eq_dec : EqDecision BinaryOperator.
Proof. solve_decision. Defined.

(** [impl Display for BinaryOperator]. *)
Definition show_binop (o : BinaryOperator) : string :=
  match o with
  | Add => "+" | Subtract => "-" | Multiply => "*" | Divide => "/" | Modulo => "%"
  | OpEqual => "==" | OpNotEqual => "!=" | OpGreater => ">" | OpLess => "<"
  | OpGreaterEqual => ">=" | OpLessEqual => "<=" | OpIn => "in" | OpAnd => "and" | OpOr => "or"
  end.

Inductive UnaryOperator : Type := Negate | OpNot.

(** [impl Display for UnaryOperator]. *)
Definition show_unop (o : UnaryOperator) : string :=
  match o with Negate => "-" | OpNot => "not" end.

(** * Authentication providers, over the type of expressions *)

Record AuthProviderField (E : Type) : Type := mkAuthProviderField {
  apf_name : string;
  apf_value : E;
  apf_line : nat;
  apf_column : nat;
}.
Arguments mkAuthProviderField {E}.
Arguments apf_name {E}.
Arguments apf_value {E}.

Record AuthProviderConfig (E : Type) : Type := mkAuthProviderConfig {
  apc_name : string;
  apc_fields : list (AuthProviderField E);
}.
Arguments mkAuthProviderConfig {E}.
Arguments apc_name {E}.
Arguments apc_fields {E}.

Inductive AuthProvider (E : Type) : Type :=
| Jwt (config : AuthProviderConfig E)
| ApiKey (config : AuthProviderConfig E).
Arguments Jwt {E}.
Arguments ApiKey {E}.

(** [AuthProvider::name]. *)
Definition provider_name {E} (p : AuthProvider E) : string :=
  match p with Jwt config | ApiKey config => apc_name config end.

(** * Statements and expressions *)

Inductive Statement : Type :=
| SAssignment (target : string) (value : Expression) (line column : nat)
| SConditionalAssignment (target : string) (value condition : Expression) (line column : nat)
| SRequire (condition : Expression) (error_code : Z) (error_message : string)
    (line column : nat)
| SReject (condition : Expression) (error_code : Z) (error_message : string)
    (line column : nat)
| SWhile (condition : Expression) (body : list Statement) (line column : nat)
| STaskDef (name : string) (params : list ParamDef) (body : TaskBody) (line column : nat)
| SExpressionStatement (expression : Expression) (line column : nat)
| SRoute (verb : HttpVerb) (path : string) (auth : option RouteAuth)
    (allow : list Expression) (take : list TakeBinding) (body : list Statement)
    (line column : nat)
| SSchema (name : string) (db_table : option string) (fields : list SchemaField)
    (line column : nat)
| SAuthProvider (provider : AuthProvider Expression) (line column : nat)
| SReply (status_code : Expression) (content_type : ReplyContentType) (body : Expression)
    (response_schema : option string) (extra_headers : option Expression)
    (line column : nat)
| SFail (status_code : Z) (message : Expression) (line column : nat)
| SRaise (message : Expression) (condition : option Expression) (line column : nat)
| SExport (inner : Statement)
| STransaction (body : list Statement) (line column : nat)
| SOnQueue (queue_name : Expression) (binding : string) (schema : option string)
    (body : list Statement) (line column : nat)
| SOnTopic (pattern : Expression) (binding : string) (schema : option string)
    (body : list Statement) (line column : nat)
| SNack (requeue : bool) (condition : option Expression) (line column : nat)
| SScenario (name : string) (steps : list ScenarioStep) (line column : nat)

with ScenarioStep : Type :=
| Given (target returns : Expression) (line column : nat)
| When (verb : HttpVerb) (path : string) (body headers : option Expression)
    (line column : nat)
| ThenStatus (status : Expression) (line column : nat)
| ThenResponse (expected : Expression) (line column : nat)

with TaskBody : Type :=
| TInline (e : Expression)
| TBlock (statements : list Statement) (final : Expression)

with Expression : Type :=
| EInteger (n : Z)
| EFloat (x : f64)
| EStringLiteral (s : string)
| EBoolean (b : bool)
| ENull
| EList (items : list Expression)
| EMapLiteral (entries : list (string * Expression))
| ESchemaConstructor (schema_name : string) (fields : list (string * Expression))
| EIdentifier (name : string)
| EBinaryOp (left : Expression) (operator : BinaryOperator) (right : Expression)
| EUnaryOp (operator : UnaryOperator) (operand : Expression)
| EPropertyAccess (object : Expression) (property : string)
| EMethodCall (object : Expression) (method : string) (arguments : list Argument)
| EHttpClientResponseSchema (call : Expression) (schema_name : string)
| EFunctionCall (name : string) (arguments : list Argument)
| ETaskCall (name : string)
| EMatch (subject : Expression) (arms : list MatchArm)
| EIf (condition : Expression) (then_branch : TaskBody) (else_branch : option TaskBody)
| ESubscript (object key : Expression)
| EPipeline (input : Expression) (stages : list PipelineStage)
| EBroadcast (input : Expression) (targets : list Expression)
| ERescue (expr handler : Expression)
| EQueuePush (queue_name : Expression) (schema : option string) (payload : option Expression)
| ETopicPublish (topic : Expression) (schema : option string) (payload : option Expression)

with Argument : Type :=
| Positional (e : Expression)
| Named (name : string) (value : Expression)

with MatchArm : Type :=
| mkMatchArm (pattern : MatchPattern) (value : Expression)

with MatchPattern : Type :=
| PLiteral (e : Expression)
| PFallback

with PipelineStage : Type :=
| PSExpression (e : Expression)
| PSMap (variable : string) (body : list MapStatement)
| PSReduce (initial : Expression) (accumulator item : string) (body : TaskBody)
| PSRescue (handler : RescueHandler)

with RescueHandler : Type :=
| RHInline (e : Expression)
| RHBlock (statements : list Statement)

with MapStatement : Type :=
| MStatement (s : Statement)
| MKeep (value : Expression) (condition : option Expression)
| MSkip (condition : Expression).

(** A program is a list of statements. *)
Abbreviation Program := (list Statement).

(** * Syntactic nodes

    One type for every syntactic category, with the immediate components of a
    node: what "occurs in" means in the theorems about tree walks. *)

Inductive node : Type :=
| NStatement (s : Statement)
| NScenarioStep (s : ScenarioStep)
| NTaskBody (b : TaskBody)
| NExpression (e : Expression)
| NArgument (a : Argument)
| NMatchArm (a : MatchArm)
| NMatchPattern (p : MatchPattern)
| NPipelineStage (s : PipelineStage)
| NRescueHandler (h : RescueHandler)
| NMapStatement (m : MapStatement).

Definition opt_node {A} (f : A -> node) (o : option A) : list node :=
  match o with Some a => [f a] | None => [] end.

Definition statement_children (s : Statement) : list node :=
  match s with
  | SAssignment _ value _ _ => [NExpression value]
  | SConditionalAssignment _ value condition _ _ => [NExpression value; NExpression condition]
  | SRequire c _ _ _ _ | SReject c _ _ _ _ => [NExpression c]
  | SWhile c body _ _ => NExpression c :: map NStatement body
  | STaskDef _ _ body _ _ => [NTaskBody body]
  | SExpressionStatement e _ _ => [NExpression e]
  | SRoute _ _ _ allow _ body _ _ => map NExpression allow ++ map NStatement body
  | SSchema _ _ _ _ _ => []
  | SAuthProvider p _ _ =>
      match p with
      | Jwt c | ApiKey c => map (fun f => NExpression (apf_value f)) (apc_fields c)
      end
  | SReply status _ body _ headers _ _ =>
      NExpression status :: NExpression body :: opt_node NExpression headers
  | SFail _ message _ _ => [NExpression message]
  | SRaise message c _ _ => NExpression message :: opt_node NExpression c
  | SExport inner => [NStatement inner]
  | STransaction body _ _ => map NStatement body
  | SOnQueue e _ _ body _ _ | SOnTopic e _ _ body _ _ => NExpression e :: map NStatement body
  | SNack _ c _ _ => opt_node NExpression c
  | SScenario _ steps _ _ => map NScenarioStep steps
  end.

Definition expression_children (e : Expression) : list node :=
  match e with
  | EInteger _ | EFloat _ | EStringLiteral _ | EBoolean _ | ENull | EIdentifier _
  | ETaskCall _ => []
  | EList items => map NExpression items
  | EMapLiteral entries | ESchemaConstructor _ entries =>
      map (fun kv => NExpression (snd kv)) entries
  | EBinaryOp l _ r => [NExpression l; NExpression r]
  | EUnaryOp _ e => [NExpression e]
  | EPropertyAccess e _ => [NExpression e]
  | EMethodCall e _ args => NExpression e :: map NArgument args
  | EHttpClientResponseSchema e _ => [NExpression e]
  | EFunctionCall _ args => map NArgument args
  | EMatch e arms => NExpression e :: map NMatchArm arms
  | EIf c t f => NExpression c :: NTaskBody t :: opt_node NTaskBody f
  | ESubscript e k => [NExpression e; NExpression k]
  | EPipeline e stages => NExpression e :: map NPipelineStage stages
  | EBroadcast e targets => NExpression e :: map NExpression targets
  | ERescue e h => [NExpression e; NExpression h]
  | EQueuePush e _ p | ETopicPublish e _ p => NExpression e :: opt_node NExpression p
  end.

Definition children (n : node) : list node :=
  match n with
  | NStatement s => statement_children s
  | NScenarioStep s =>
      match s with
      | Given t r _ _ => [NExpression t; NExpression r]
      | When _ _ b h _ _ => opt_node NExpression b ++ opt_node NExpression h
      | ThenStatus e _ _ | ThenResponse e _ _ => [NExpression e]
      end
  | NTaskBody (TInline e) => [NExpression e]
  | NTaskBody (TBlock ss e) => map NStatement ss ++ [NExpression e]
  | NExpression e => expression_children e
  | NArgument (Positional e) | NArgument (Named _ e) => [NExpression e]
  | NMatchArm (mkMatchArm p e) => [NMatchPattern p; NExpression e]
  | NMatchPattern (PLiteral e) => [NExpression e]
  | NMatchPattern PFallback => []
  | NPipelineStage s =>
      match s with
      | PSExpression e => [NExpression e]
      | PSMap _ body => map NMapStatement body
      | PSReduce e _ _ body => [NExpression e; NTaskBody body]
      | PSRescue h => [NRescueHandler h]
      end
  | NRescueHandler (RHInline e) => [NExpression e]
  | NRescueHandler (RHBlock ss) => map NStatement ss
  | NMapStatement m =>
      match m with
      | MStatement s => [NStatement s]
      | MKeep e c => NExpression e :: opt_node NExpression c
      | MSkip e => [NExpression e]
      end
  end.

(** ** Size and induction *)

Section SumOf.
  Context {A : Type} (f : A -> nat).
Fixpoint sum_of (l : list A) : nat :=
    match l with [] => 0 | x :: l => f x + sum_of l end.
End SumOf.
Definition opt_of {A} (f : A -> nat) (o : option A) : nat :=
  match o with Some a => f a | None => 0 end.

Fixpoint statement_size (s : Statement) : nat :=
  S match s with
    | SAssignment _ e _ _ => expression_size e
    | SConditionalAssignment _ e c _ _ => expression_size e + expression_size c
    | SRequire c _ _ _ _ | SReject c _ _ _ _ => expression_size c
    | SWhile c body _ _ => expression_size c + sum_of statement_size body
    | STaskDef _ _ body _ _ => task_body_size body
    | SExpressionStatement e _ _ => expression_size e
    | SRoute _ _ _ allow _ body _ _ => sum_of expression_size allow + sum_of statement_size body
    | SSchema _ _ _ _ _ => 0
    | SAuthProvider p _ _ =>
        match p with
        | Jwt c | ApiKey c => sum_of (fun f => expression_size (apf_value f)) (apc_fields c)
        end
    | SReply e _ b _ h _ _ => expression_size e + expression_size b + opt_of expression_size h
    | SFail _ e _ _ => expression_size e
    | SRaise e c _ _ => expression_size e + opt_of expression_size c
    | SExport s => statement_size s
    | STransaction body _ _ => sum_of statement_size body
    | SOnQueue e _ _ body _ _ | SOnTopic e _ _ body _ _ =>
        expression_size e + sum_of statement_size body
    | SNack _ c _ _ => opt_of expression_size c
    | SScenario _ steps _ _ => sum_of scenario_step_size steps
    end
with scenario_step_size (s : ScenarioStep) : nat :=
  S match s with
    | Given t r _ _ => expression_size t + expression_size r
    | When _ _ b h _ _ => opt_of expression_size b + opt_of expression_size h
    | ThenStatus e _ _ | ThenResponse e _ _ => expression_size e
    end
with task_body_size (b : TaskBody) : nat :=
  S match b with
    | TInline e => expression_size e
    | TBlock ss e => sum_of statement_size ss + expression_size e
    end
with expression_size (e : Expression) : nat :=
  S match e with
    | EInteger _ | EFloat _ | EStringLiteral _ | EBoolean _ | ENull | EIdentifier _
    | ETaskCall _ => 0
    | EList l => sum_of expression_size l
    | EMapLiteral l | ESchemaConstructor _ l => sum_of (fun kv => expression_size (snd kv)) l
    | EBinaryOp l _ r => expression_size l + expression_size r
    | EUnaryOp _ e | EPropertyAccess e _ | EHttpClientResponseSchema e _ => expression_size e
    | EMethodCall e _ args => expression_size e + sum_of argument_size args
    | EFunctionCall _ args => sum_of argument_size args
    | EMatch e arms => expression_size e + sum_of match_arm_size arms
    | EIf c t f => expression_size c + task_body_size t + opt_of task_body_size f
    | ESubscript e k => expression_size e + expression_size k
    | EPipeline e stages => expression_size e + sum_of stage_size stages
    | EBroadcast e l => expression_size e + sum_of expression_size l
    | ERescue e h => expression_size e + expression_size h
    | EQueuePush e _ p | ETopicPublish e _ p => expression_size e + opt_of expression_size p
    end
with argument_size (a : Argument) : nat :=
  S match a with Positional e | Named _ e => expression_size e end
with match_arm_size (a : MatchArm) : nat :=
  S match a with mkMatchArm p e => pattern_size p + expression_size e end
with pattern_size (p : MatchPattern) : nat :=
  S match p with PLiteral e => expression_size e | PFallback => 0 end
with stage_size (s : PipelineStage) : nat :=
  S match s with
    | PSExpression e => expression_size e
    | PSMap _ body => sum_of map_statement_size body
    | PSReduce e _ _ body => expression_size e + task_body_size body
    | PSRescue h => handler_size h
    end
with handler_size (h : RescueHandler) : nat :=
  S match h with RHInline e => expression_size e | RHBlock ss => sum_of statement_size ss end
with map_statement_size (m : MapStatement) : nat :=
  S match m with
    | MStatement s => statement_size s
    | MKeep e c => expression_size e + opt_of expression_size c
    | MSkip e => expression_size e
    end.

Definition node_size (n : node) : nat :=
  match n with
  | NStatement s => statement_size s
  | NScenarioStep s => scenario_step_size s
  | NTaskBody b => task_body_size b
  | NExpression e => expression_size e
  | NArgument a => argument_size a
  | NMatchArm a => match_arm_size a
  | NMatchPattern p => pattern_size p
  | NPipelineStage s => stage_size s
  | NRescueHandler h => handler_size h
  | NMapStatement m => map_statement_size m
  end.

Lemma sum_of_children {A} (f : A -> nat) (g : A -> node) l :
  (forall a, node_size (g a) = f a) ->
  sum_of f l = sum_of node_size (map g l).
Proof. intros H. induction l as [|a l IH]; cbn; [done |]. by rewrite H, IH. Qed.

Lemma opt_of_children {A} (f : A -> nat) (g : A -> node) o :
  (forall a, node_size (g a) = f a) -> opt_of f o = sum_of node_size (opt_node g o).
Proof. intros H. destruct o; cbn; [by rewrite H |]; done. Qed.

Lemma sum_of_app {A} (f : A -> nat) l1 l2 : sum_of f (l1 ++ l2) = sum_of f l1 + sum_of f l2.
Proof. induction l1; cbn; lia. Qed.

(** The size of a node is one more than the sizes of its children. *)
Lemma node_size_children n : node_size n = S (sum_of node_size (children n)).
Proof.
  destruct n as [s|s|b|e|a|a|p|s|h|m];
    [destruct s | destruct s | destruct b | destruct e | destruct a | destruct a
    | destruct p | destruct s | destruct h | destruct m];
    cbn [node_size statement_size scenario_step_size task_body_size expression_size argument_size
         match_arm_size pattern_size stage_size handler_size map_statement_size
         children statement_children expression_children];
    try match goal with p : AuthProvider _ |- _ => destruct p end;
    rewrite ?sum_of_app; cbn [sum_of node_size map];
    rewrite <- ?(sum_of_children statement_size NStatement), <- ?(sum_of_children scenario_step_size NScenarioStep),
      <- ?(sum_of_children expression_size NExpression), <- ?(sum_of_children argument_size NArgument),
      <- ?(sum_of_children match_arm_size NMatchArm), <- ?(sum_of_children stage_size NPipelineStage),
      <- ?(sum_of_children map_statement_size NMapStatement),
      <- ?(opt_of_children expression_size NExpression), <- ?(opt_of_children task_body_size NTaskBody) by reflexivity;
    rewrite <- ?(sum_of_children _ (fun kv : string * Expression => NExpression (snd kv))),
      <- ?(sum_of_children _ (fun f : AuthProviderField Expression => NExpression (apf_value f)))
      by reflexivity;
    cbn [node_size]; try lia; try done.
Qed.

(** Induction over the tree: a property holds of a node when it holds of all
    its children. *)
Lemma tree_ind (P : node -> Prop) :
  (forall n, (forall c, c ∈ children n -> P c) -> P n) -> forall n, P n.
Proof.
  intros H n. remember (node_size n) as k eqn:Hk. revert n Hk.
  induction k as [k IH] using lt_wf_ind. intros n ->. apply H. intros c Hc.
  apply (IH (node_size c)); [| done]. rewrite (node_size_children n).
  induction (children n) as [|d l IHl]; [by inversion Hc |].
  cbn. apply elem_of_cons in Hc as [-> | Hc]; [lia |]. specialize (IHl Hc). lia.
Qed.

(** [m] occurs in [n], possibly as [n] itself. *)
Inductive occurs (m : node) : node -> Prop :=
| occurs_here : occurs m m
| occurs_child n c : c ∈ children n -> occurs m c -> occurs m n.
