(* ===== verification/Schemas.v ===== *)
(** Schema definitions and the project-level checks on them: naming
    (src/src/route_loader.rs, src/src/file_loader.rs) and the persistent
    schemas (src/src/persistent_schema.rs). *)
From stdpp Require Import base list strings gmap sets.
From S2P Require Import Prelude RustStr Errors Ast.

(** A resolved schema definition. *)
Record SchemaDefinition : Type := mkSchemaDefinition {
  db_table : option string;
  sd_fields : list SchemaField;
}.

(** [db_table.is_some()]. *)
Definition is_persistent (s : SchemaDefinition) : bool :=
  match db_table s with Some _ => true | None => false end.

Definition is_pascal_case_schema_name (name : string) : bool :=
  match chars name with
  | [] => false
  | first :: _ =>
      is_ascii_uppercase first && forallb is_ascii_alphanumeric (chars name)
      && negb (str_has "_" name)
  end.

Definition collect_persistent_schemas (schemas : gmap string SchemaDefinition)
  : gmap string SchemaDefinition :=
  filter (fun e => is_persistent (snd e) = true) schemas.

(** * The checks of one persistent schema *)

Definition check_id_field (schema_name : string) (schema : SchemaDefinition)
  : result MarretaError unit :=
  match List.filter (fun field => String.eqb (sf_name field) "id") (sd_fields schema) with
  | [id_field] =>
      if optional id_field then
        Err (InvalidPersistentSchemaDefinition schema_name
               "persistent schema `id` must not be optional")
      else match field_type id_field with
           | IntegerType => Ok tt
           | _ => Err (InvalidPersistentSchemaDefinition schema_name
                         "persistent schema `id` must be typed as integer")
           end
  | [] => Err (InvalidPersistentSchemaDefinition schema_name
                 "persistent schema must declare `id: integer`")
  | _ => Err (InvalidPersistentSchemaDefinition schema_name
                "persistent schema declares `id` more than once")
  end.

(** The fields of [target] that reference [schema_name]. *)
Definition inverse_fields (schema_name : string) (target : SchemaDefinition)
  : list SchemaField :=
  List.filter (fun f => match field_type f with
                        | Reference inverse_target => String.eqb inverse_target schema_name
                        | _ => false
                        end) (sd_fields target).

Definition check_relation_field (schemas : gmap string SchemaDefinition)
    (schema_name : string) (field : SchemaField) : result MarretaError unit :=
  match field_type field with
  | Reference target_schema =>
      match schemas !! target_schema with
      | Some target =>
          if is_persistent target then Ok tt
          else Err (InvalidPersistentSchemaReference schema_name (sf_name field) target_schema)
      | None => Ok tt
      end
  | TypedList (Reference target_schema) =>
      match schemas !! target_schema with
      | Some target =>
          if is_persistent target then
            match inverse_fields schema_name target with
            | [_] => Ok tt
            | [] =>
                Err (InvalidPersistentSchemaDefinition schema_name
                  ("list relation '" +:+ sf_name field
                   +:+ "' cannot be inferred because target schema '" +:+ target_schema
                   +:+ "' does not reference '" +:+ schema_name +:+ "'"))
            | inverse =>
                Err (InvalidPersistentSchemaDefinition schema_name
                  ("list relation '" +:+ sf_name field
                   +:+ "' is ambiguous because target schema '" +:+ target_schema
                   +:+ "' references '" +:+ schema_name +:+ "' through multiple fields: "
                   +:+ join ", " (map sf_name inverse)))
            end
          else Ok tt
      | None => Ok tt
      end
  | _ => Ok tt
  end.

(** The body of the loop over the schemas. *)
Definition check_persistent_schema (schemas : gmap string SchemaDefinition)
    (entry : string * SchemaDefinition) : result MarretaError unit :=
  let '(schema_name, schema) := entry in
  if is_persistent schema then
    _ ← check_id_field schema_name schema;
    for_each (check_relation_field schemas schema_name) (sd_fields schema)
  else Ok tt.

Section Checks.
Context `{HashOrder}.

Definition validate_schema_naming (schemas : gmap string SchemaDefinition)
  : result MarretaError unit :=
  for_each (fun e => if is_pascal_case_schema_name (fst e) then Ok tt
                     else Err (InvalidSchemaDefinition (fst e)
                                 "schema names must use PascalCase"))
    (entries schemas).

Definition validate_persistent_schema_references (schemas : gmap string SchemaDefinition)
  : result MarretaError unit :=
  for_each (check_persistent_schema schemas) (entries schemas).

End Checks.

(** * What the persistent schemas of a valid project satisfy *)

(** The schema has exactly one field called [id], required and an integer;
    its references lead to persistent schemas (or out of the project), and a
    list relation to a persistent schema has exactly one inverse there. *)
Record persistent_ok (schemas : gmap string SchemaDefinition) (name : string)
    (schema : SchemaDefinition) : Prop := {
  po_id : exists pre f post,
    sd_fields schema = pre ++ f :: post /\ sf_name f = "id" /\ optional f = false
    /\ field_type f = IntegerType
    /\ (forall g, g ∈ pre ++ post -> sf_name g <> "id");
  po_reference : forall f target t, f ∈ sd_fields schema -> field_type f = Reference target ->
    schemas !! target = Some t -> is_persistent t = true;
  po_inverse : forall f target t, f ∈ sd_fields schema ->
    field_type f = TypedList (Reference target) ->
    schemas !! target = Some t -> is_persistent t = true ->
    exists pre g post, sd_fields t = pre ++ g :: post /\ field_type g = Reference name
      /\ (forall h, h ∈ pre ++ post -> field_type h <> Reference name);
}.

(** A filter with exactly one result. *)
Lemma filter_unique {A} (p : A -> bool) l x :
  List.filter p l = [x] <->
  exists pre post, l = pre ++ x :: post /\ p x = true
    /\ (forall y, y ∈ pre ++ post -> p y = false).
Proof.
  assert (Hnil : forall l, List.filter p l = [] <-> forall y, y ∈ l -> p y = false).
  { intros k. induction k as [|y k IH]; cbn; [split; [intros _ ? Hy; by inversion Hy | done] |].
    destruct (p y) eqn:Hy; [split; [done |] | rewrite IH].
    - intros Hk. specialize (Hk y). rewrite Hy in Hk. discriminate Hk. set_solver.
    - split; [intros Hk z [-> | ?]%elem_of_cons; auto | set_solver]. }
  induction l as [|y l IH]; cbn.
  - split; [done | intros ([|] & ? & ? & _); discriminate].
  - destruct (p y) eqn:Hy.
    + split.
      * intros [= -> Hl]. exists [], l. split_and!; [done.. |]. by apply Hnil.
      * intros ([|z pre] & post & [= -> ->] & Hx & Hrest); [f_equal; by apply Hnil |].
        exfalso. cut (p z = false); [congruence |]. apply Hrest. set_solver.
    + rewrite IH. split; intros (pre & post & Heq & Hx & Hrest).
      * exists (y :: pre), post. rewrite Heq. split_and!; [done.. |]. set_solver.
      * destruct pre as [|z pre]; injection Heq as -> ->; [congruence |].
        exists pre, post. split_and!; [done.. |]. set_solver.
Qed.

Lemma check_id_field_Ok name schema :
  check_id_field name schema = Ok tt <->
  exists pre f post,
    sd_fields schema = pre ++ f :: post /\ sf_name f = "id" /\ optional f = false
    /\ field_type f = IntegerType /\ (forall g, g ∈ pre ++ post -> sf_name g <> "id").
Proof.
  unfold check_id_field. set (p := fun field : SchemaField => _). split.
  - destruct (List.filter p (sd_fields schema)) as [|f [|? ?]] eqn:Hf; try done.
    apply filter_unique in Hf as (pre & post & -> & Hid & Hrest).
    destruct (optional f) eqn:?, (field_type f) eqn:?; try done. intros _.
    exists pre, f, post. apply String.eqb_eq in Hid. split_and!; try done.
    intros g Hg%Hrest. by apply String.eqb_neq.
  - intros (pre & f & post & Heq & Hid & Hopt & Hty & Hrest).
    assert (List.filter p (sd_fields schema) = [f]) as ->.
    { apply filter_unique. exists pre, post. split_and!; [done | by apply String.eqb_eq |].
      intros g Hg. by apply String.eqb_neq, Hrest. }
    by rewrite Hopt, Hty.
Qed.

Lemma inverse_fields_unique name t g :
  inverse_fields name t = [g] <->
  exists pre post, sd_fields t = pre ++ g :: post /\ field_type g = Reference name
    /\ (forall h, h ∈ pre ++ post -> field_type h <> Reference name).
Proof.
  unfold inverse_fields. rewrite filter_unique.
  assert (Hp : forall f : SchemaField,
    match field_type f with Reference i => String.eqb i name | _ => false end = true
    <-> field_type f = Reference name).
  { intros f. destruct (field_type f); try done. rewrite String.eqb_eq. naive_solver. }
  do 2 (apply exist_proper; intros ?). rewrite Hp.
  split; intros (? & ? & Hrest); split_and!; try done; intros h Hh.
  - intros Hr%Hp. rewrite Hrest in Hr by done. done.
  - specialize (Hrest h Hh). rewrite <- Hp in Hrest. by apply not_true_is_false.
Qed.

Lemma check_relation_field_Ok schemas name f :
  check_relation_field schemas name f = Ok tt <->
  (forall target t, field_type f = Reference target -> schemas !! target = Some t ->
     is_persistent t = true) /\
  (forall target t, field_type f = TypedList (Reference target) ->
     schemas !! target = Some t -> is_persistent t = true ->
     exists g, inverse_fields name t = [g]).
Proof.
  unfold check_relation_field.
  destruct (field_type f) as [| | | | | | | | | | | | | r | inner];
    [split; [by split | done].. | |].
  - destruct (schemas !! r) as [t|] eqn:Ht; [destruct (is_persistent t) eqn:Hp |];
      (split; [try done; intros _ | try done]); try (split; intros; congruence).
    intros [Hr _]. specialize (Hr r t eq_refl Ht). congruence.
  - destruct inner as [| | | | | | | | | | | | | r |]; [split; [by split | done].. | | split; [by split | done]].
    destruct (schemas !! r) as [t|] eqn:Ht; [| split; [split; intros; congruence | done]].
    destruct (is_persistent t) eqn:Hp; [| split; [split; intros; congruence | done]].
    destruct (inverse_fields name t) as [|g [|g' l]] eqn:Hi; (split; [try done; intros _ | try done]).
    + intros [_ Hr]. destruct (Hr r t eq_refl Ht Hp) as [? ?]. congruence.
    + split; [done |]. intros ? ? [= <-] Ht' _. rewrite Ht in Ht'. injection Ht' as <-.
      by exists g.
    + intros [_ Hr]. destruct (Hr r t eq_refl Ht Hp) as [? ?]. congruence.
Qed.

Lemma check_persistent_schema_Ok schemas name schema :
  check_persistent_schema schemas (name, schema) = Ok tt <->
  (is_persistent schema = true -> persistent_ok schemas name schema).
Proof.
  unfold check_persistent_schema. destruct (is_persistent schema); [| done].
  rewrite bind_Ok.
  transitivity (check_id_field name schema = Ok tt /\
    Forall (fun f => check_relation_field schemas name f = Ok tt) (sd_fields schema)).
  { rewrite <- for_each_Ok. split; [intros ([] & ? & ?); done | intros [? ?]; by exists tt]. }
  rewrite check_id_field_Ok, Forall_forall. split.
  - intros [Hid Hrel] _. split; [done | |]; intros f target t Hf Hty Ht.
    + apply Hrel, check_relation_field_Ok in Hf as [Hr _]. eauto.
    + intros Hp. apply Hrel, check_relation_field_Ok in Hf as [_ Hr].
      destruct (Hr target t Hty Ht Hp) as [g Hg].
      apply inverse_fields_unique in Hg as (pre & post & ?). by exists pre, g, post.
  - intros Hok. specialize (Hok eq_refl). split; [by destruct Hok |].
    intros f Hf. apply check_relation_field_Ok. split; intros target t Hty Ht.
    + by eapply po_reference.
    + intros Hp. destruct (po_inverse _ _ _ Hok f target t Hf Hty Ht Hp) as (pre & g & post & ?).
      exists g. apply inverse_fields_unique. eauto.
Qed.

Lemma persistent_schemas_valid_spec `{HashOrder} schemas :
  validate_persistent_schema_references schemas = Ok tt <->
  (forall name schema, schemas !! name = Some schema -> is_persistent schema = true ->
     persistent_ok schemas name schema).
Proof.
  unfold validate_persistent_schema_references. rewrite for_each_Ok, Forall_forall. split.
  - intros Hall name schema Hs. apply elem_of_entries, Hall in Hs.
    by apply check_persistent_schema_Ok.
  - intros Hall [name schema] Hs%elem_of_entries. apply check_persistent_schema_Ok. auto.
Qed.

(** The validation of persistent schemas accepts a project exactly when
    every persistent schema has a single, required, integer [id], references
    no value schema, and every list relation it declares has exactly one
    inverse reference; in particular the verdict does not depend on the order
    in which the hash map is iterated. *)
Theorem persistent_schemas_valid_iff `{HashOrder} schemas :
  validate_persistent_schema_references schemas = Ok tt <->
  (forall name schema, schemas !! name = Some schema -> is_persistent schema = true ->
     persistent_ok schemas name schema).
Proof. apply persistent_schemas_valid_spec. Qed.

(** A project passes the naming check exactly when every schema name is in
    PascalCase: an ASCII capital followed by ASCII letters and digits only. *)
Theorem schema_naming_valid_iff `{HashOrder} schemas :
  validate_schema_naming schemas = Ok tt <->
  (forall name, is_Some (schemas !! name) ->
     exists c rest, chars name = c :: rest /\ is_ascii_uppercase c = true
       /\ forallb is_ascii_alphanumeric rest = true /\ str_has "_" name = false).
Proof.
  unfold validate_schema_naming. rewrite for_each_Ok, Forall_forall.
  assert (Hp : forall name, is_pascal_case_schema_name name = true <->
    exists c rest, chars name = c :: rest /\ is_ascii_uppercase c = true
      /\ forallb is_ascii_alphanumeric rest = true /\ str_has "_" name = false).
  { intros name. unfold is_pascal_case_schema_name. destruct (chars name) as [|c rest].
    { split; [done | by intros (? & ? & ? & _)]. }
    rewrite !andb_true_iff, negb_true_iff. cbn [forallb].
    rewrite andb_true_iff. split.
    - intros ((Hu & Ha & Hr) & Hn). by exists c, rest.
    - intros (? & ? & [= -> ->] & Hu & Hr & Hn). split_and!; try done.
      unfold is_ascii_alphanumeric, is_ascii_alphabetic. by rewrite Hu, orb_true_r. }
  split.
  - intros Hall name [schema Hs]. apply elem_of_entries, Hall in Hs. cbn in Hs.
    apply Hp. by destruct (is_pascal_case_schema_name name).
  - intros Hall [name schema] Hs%elem_of_entries. cbn.
    destruct (Hp name) as [_ ->]; eauto.
Qed.
