(* ===== verification/SchemaCycle.v ===== *)
(** Detection of schema-reference cycles (src/src/schema_cycle.rs) and its use
    at project load (src/src/file_loader.rs, [detect_schema_cycle]).  The
    recursion of [walk] is bounded by fuel; [walk_total] shows that one more
    than the number of schemas is enough. *)
From stdpp Require Import base list strings gmap sets sorting relations.
From Stdlib Require Import Lia.
From S2P Require Import Prelude RustStr Errors Ast Schemas.

(** Byte order on strings, the order of [sort()]. *)
Definition string_le (a b : string) : Prop := String.leb a b = true.
#[export] Instance string_le_dec : RelDecision string_le.
Proof. intros a b. unfold string_le. apply _. Defined.
Definition sort_strings : list string -> list string := merge_sort string_le.

Lemma string_le_iff a b : string_le a b <-> String.le a b.
Proof. unfold string_le, String.le. symmetry. apply Is_true_true. Qed.

#[export] Instance string_le_trans : Transitive string_le.
Proof. intros a b c. rewrite !string_le_iff. apply (transitivity (R := String.le)). Qed.
#[export] Instance string_le_antisymm : AntiSymm eq string_le.
Proof. intros a b. rewrite !string_le_iff. apply (anti_symm String.le). Qed.
#[export] Instance string_le_total : Total string_le.
Proof. intros a b. rewrite !string_le_iff. apply (total String.le). Qed.

Lemma elem_of_sort_strings x l : x ∈ sort_strings l <-> x ∈ l.
Proof. unfold sort_strings. by rewrite merge_sort_Permutation. Qed.

(** The mutable state of the search. *)
Record Search : Type := mkSearch {
  path : list string;
  on_path : gset string;
  visited : gset string;
}.

Section Walk.
Variable refs : gmap string (list string).
Variable persistent : gset string.

(** [refs.get(node).map(|v| v.iter().collect()).unwrap_or_default()] *)
Definition neighbors (node : string) : list string := default [] (refs !! node).

(** The loop over the neighbours, given the recursive call. *)
Fixpoint visit_neighbors
    (walk : string -> Search -> option (option (list string) * Search))
    (ns : list string) (st : Search) : option (option (list string) * Search) :=
  match ns with
  | [] => Some (None, st)
  | next :: ns =>
      if decide (next ∈ persistent) then visit_neighbors walk ns st
      else if decide (next ∈ on_path st) then
        let pos := default 0 (fst <$> list_find (fun n => n = next) (path st)) in
        Some (Some (drop pos (path st) ++ [next]), st)
      else if decide (is_Some (refs !! next) /\ next ∉ visited st) then
        match walk next st with
        | Some (None, st) => visit_neighbors walk ns st
        | r => r
        end
      else visit_neighbors walk ns st
  end.

(** The depth-first search; [None] is fuel exhaustion. *)
Fixpoint walk (fuel : nat) (node : string) (st : Search)
  : option (option (list string) * Search) :=
  match fuel with
  | 0 => None
  | S fuel =>
      let st := mkSearch (path st ++ [node]) ({[node]} ∪ on_path st) (visited st) in
      match visit_neighbors (walk fuel) (sort_strings (neighbors node)) st with
      | Some (None, st) =>
          Some (None, mkSearch (removelast (path st)) (on_path st ∖ {[node]})
                        ({[node]} ∪ visited st))
      | r => r
      end
  end.

(** The searches from the starting schemas, in order. *)
Fixpoint search_from (fuel : nat) (starts : list string) : option (option (list string)) :=
  match starts with
  | [] => Some None
  | start :: starts =>
      match walk fuel start (mkSearch [] ∅ ∅) with
      | None => None
      | Some (Some cycle, _) => Some (Some cycle)
      | Some (None, _) => search_from fuel starts
      end
  end.

Definition find_disallowed_cycle `{HashOrder} : option (option (list string)) :=
  search_from (S (size refs))
    (sort_strings
       (List.filter (fun name => negb (bool_decide (name ∈ persistent)))
          (map fst (entries refs)))).

(** ** The graph the search explores: references into value schemas. *)

Definition embeds (a b : string) : Prop := b ∈ neighbors a /\ b ∉ persistent.

(** Consecutive elements are related. *)
Fixpoint linked (l : list string) : Prop :=
  match l with
  | a :: l' => match l' with b :: _ => embeds a b | [] => True end /\ linked l'
  | [] => True
  end.

(** A closed path [x, ..., x] through value schemas. *)
Definition value_cycle (c : list string) : Prop :=
  exists x mid, c = x :: mid ++ [x] /\ linked c.

Lemma linked_snoc l a b : linked (l ++ [a]) -> embeds a b -> linked (l ++ [a; b]).
Proof.
  intros Hl Hab. induction l as [|x l IH]; cbn in *; [by split_and! |].
  destruct Hl as [Hx Hl]. split; [| auto]. destruct l; done.
Qed.

Lemma linked_drop n l : linked l -> linked (drop n l).
Proof.
  revert l; induction n; intros [|a l]; cbn; try done. intros [_ ?]. auto.
Qed.

Lemma linked_tc x l y : linked (x :: l ++ [y]) -> tc embeds x y.
Proof.
  revert x; induction l as [|z l IH]; cbn; intros x.
  - intros [? _]. by apply tc_once.
  - intros [? ?]. eapply tc_l; [done |]. by apply IH.
Qed.

Lemma value_cycle_tc c : value_cycle c -> exists x, tc embeds x x.
Proof. intros (x & mid & -> & Hl). exists x. by eapply linked_tc. Qed.

(** ** Invariants of the search *)

(** The path is a chain of references, without repetition, and [on_path] is
    its set of nodes. *)
Record wf (st : Search) : Prop := {
  wf_linked : linked (path st);
  wf_on_path : forall x, x ∈ on_path st <-> x ∈ path st;
  wf_visited : forall x, x ∈ visited st -> Acc (flip embeds) x;
}.

(** What one call of [walk] promises: a cycle it returns is one; otherwise it
    restores the path, and every node it has visited starts no infinite
    chain. *)
Definition walk_post (st : Search) (r : option (list string) * Search) : Prop :=
  match fst r with
  | Some c => value_cycle c
  | None => wf (snd r) /\ path (snd r) = path st /\ on_path (snd r) = on_path st
            /\ visited st ⊆ visited (snd r)
  end.

Lemma closing_edge st pre last next :
  wf st -> path st = pre ++ [last] -> embeds last next -> next ∈ on_path st ->
  value_cycle (drop (default 0 (fst <$> list_find (fun n => n = next) (path st))) (path st)
               ++ [next]).
Proof.
  intros Hwf Hpath Hedge Hon. apply (wf_on_path _ Hwf) in Hon.
  destruct (list_find_elem_of (fun n => n = next) (path st) next Hon eq_refl) as [[i y] Hi].
  rewrite Hi. cbn. apply list_find_Some in Hi as (Hi & -> & _).
  rewrite (drop_S _ _ _ Hi). exists next, (drop (S i) (path st)). split; [done |].
  rewrite <- (drop_S _ _ _ Hi), Hpath.
  assert (i <= length pre).
  { apply lookup_lt_Some in Hi. rewrite Hpath, length_app in Hi. cbn in Hi. lia. }
  rewrite (drop_app_le _ _ i) by lia.
  rewrite <- (app_assoc _ [last]). cbn. apply linked_snoc; [| done].
  rewrite <- drop_app_le by lia. apply linked_drop. rewrite <- Hpath. by apply wf_linked.
Qed.

Lemma visit_neighbors_post rec ns st pre last r :
  (forall next st r, wf st -> (exists p l, path st = p ++ [l] /\ embeds l next) ->
     next ∉ on_path st -> rec next st = Some r ->
     walk_post st r /\ (fst r = None -> next ∈ visited (snd r))) ->
  wf st -> path st = pre ++ [last] -> (forall n, n ∈ ns -> n ∈ neighbors last) ->
  visit_neighbors rec ns st = Some r ->
  walk_post st r /\
  (fst r = None -> forall n, n ∈ ns -> n ∉ persistent -> Acc (flip embeds) n).
Proof.
  intros Hrec. revert st. induction ns as [|next ns IH]; cbn; intros st Hwf Hpath Hns Hr.
  - injection Hr as <-. split; [by split_and! | set_solver].
  - destruct (decide (next ∈ persistent)) as [Hp|Hp].
    { apply IH in Hr as [? Hacc]; [| done.. | set_solver]. split; [done |].
      intros Hf n [-> | Hn]%elem_of_cons Hv; [done | auto]. }
    assert (embeds last next) by (split; [apply Hns; set_solver | done]).
    destruct (decide (next ∈ on_path st)) as [Hon|Hon].
    { injection Hr as <-. split; [| done]. cbn. by eapply closing_edge. }
    destruct (decide _) as [[Hkey Hvis]|Hskip].
    + destruct (rec next st) as [[[c|] st']|] eqn:Hcall; [| | done].
      * injection Hr as <-. split; [| done].
        apply Hrec in Hcall as [Hpost _]; [done | done | eauto | done].
      * apply Hrec in Hcall as [[Hwf' (Hp' & Ho' & Hv')] Hin]; [| done | eauto | done]. cbn in *.
        apply IH in Hr as [Hpost Hacc]; [| done | congruence | set_solver].
        split; [| intros Hf n [-> | Hn]%elem_of_cons Hv; [| by apply Hacc]].
        -- unfold walk_post in *. destruct (fst r); [done |].
           destruct Hpost as (? & ? & ? & ?). split_and!; [done | congruence | congruence |].
           by etrans.
        -- eapply wf_visited; [exact Hwf' |]. auto.
    + apply IH in Hr as [? Hacc]; [| done | done | set_solver]. split; [done |].
      intros Hf n [-> | Hn]%elem_of_cons Hv; [| auto].
      destruct (decide (next ∈ visited st)) as [Hin|Hnin]; [by eapply wf_visited |].
      constructor. intros m [Hm _]. unfold neighbors in Hm.
      destruct (refs !! next) eqn:Hk; [| by apply elem_of_nil in Hm].
      exfalso. by apply Hskip.
Qed.

Lemma walk_post_ok fuel node st r :
  wf st -> node ∉ on_path st ->
  (path st = [] \/ exists p l, path st = p ++ [l] /\ embeds l node) ->
  walk fuel node st = Some r ->
  walk_post st r /\ (fst r = None -> node ∈ visited (snd r)).
Proof.
  revert node st r. induction fuel as [|fuel IH]; [done |]. intros node st r Hwf Hnode Hlast.
  cbn [walk]. set (st1 := mkSearch _ _ _).
  assert (Hwf1 : wf st1).
  { destruct Hwf as [Hl Ho Hv]. constructor; cbn; [| set_solver | done].
    destruct Hlast as [-> | (p & l & Hp & He)]; [done |].
    rewrite Hp, <- app_assoc in *. by apply linked_snoc. }
  destruct (visit_neighbors _ _ st1) as [[o st2]|] eqn:Hvn; [| done].
  eapply (visit_neighbors_post _ _ _ (path st) node) in Hvn;
    [| intros; eapply IH; eauto | done | done | intros n; apply elem_of_sort_strings].
  destruct Hvn as [Hpost Hacc]. destruct o as [c|]; intros [= <-]; [done |].
  destruct Hpost as (Hwf2 & Hp2 & Ho2 & Hv2). cbn in *.
  assert (removelast (path st2) = path st) as Hrl.
  { rewrite Hp2. cbn. by rewrite removelast_last. }
  assert (on_path st2 ∖ {[node]} = on_path st) as Hol by (rewrite Ho2; cbn; set_solver).
  split; [| set_solver]. split_and!; cbn; [| done | done | set_solver].
  destruct Hwf, Hwf2. constructor; cbn.
  - by rewrite Hrl.
  - rewrite Hrl, Hol. done.
  - intros x [->%elem_of_singleton | Hx]%elem_of_union; [| auto].
    constructor. intros m [Hm Hmp]. apply Hacc; [done | | done].
    by apply elem_of_sort_strings.
Qed.

(** ** Fuel *)

Lemma visit_neighbors_total rec ns st :
  wf st -> (exists p l, path st = p ++ [l] /\ forall n, n ∈ ns -> n ∈ neighbors l) ->
  (forall next st', wf st' -> path st' = path st -> on_path st' = on_path st ->
     (exists p l, path st' = p ++ [l] /\ embeds l next) ->
     is_Some (refs !! next) -> next ∉ on_path st' ->
     exists r, rec next st' = Some r /\ walk_post st' r) ->
  exists r, visit_neighbors rec ns st = Some r.
Proof.
  revert st. induction ns as [|next ns IH]; cbn; intros st Hwf (p & l & Hp & Hns) Hrec; [eauto |].
  assert (exists p l, path st = p ++ [l] /\ forall n, n ∈ ns -> n ∈ neighbors l)
    by (exists p, l; split; [done | set_solver]).
  destruct (decide (next ∈ persistent)); [by apply IH |].
  destruct (decide (next ∈ on_path st)); [by eauto |].
  destruct (decide _) as [[Hk Hv]|]; [| by apply IH].
  destruct (Hrec next st) as ([o st'] & -> & Hpost); [done.. | | done | done |].
  { exists p, l. split; [done |]. split; [apply Hns; set_solver | done]. }
  destruct o; [eauto |]. destruct Hpost as (Hwf' & Hp' & Ho' & _). cbn in *.
  apply IH; [done | by rewrite Hp' |].
  intros next' st'' ? Hp'' Ho''. apply Hrec; [done | congruence | congruence].
Qed.

Lemma walk_total fuel node st :
  wf st -> node ∉ on_path st -> is_Some (refs !! node) ->
  (path st = [] \/ exists p l, path st = p ++ [l] /\ embeds l node) ->
  size (dom refs ∖ on_path st) < S fuel ->
  exists r, walk (S fuel) node st = Some r.
Proof.
  revert node st. induction fuel as [|fuel IH]; intros node st Hwf Hnode Hkey Hlast Hfuel.
  { apply elem_of_dom in Hkey. exfalso.
    assert (size (dom refs ∖ on_path st) = 0) as H0%size_empty_inv by lia. set_solver. }
  remember (S fuel) as f eqn:Hf. cbn [walk]. set (st1 := mkSearch _ _ _).
  assert (Hwf1 : wf st1).
  { destruct Hwf as [Hl Ho Hv]. constructor; cbn; [| set_solver | done].
    destruct Hlast as [-> | (p & l & Hp & He)]; [done |].
    rewrite Hp, <- app_assoc in *. by apply linked_snoc. }
  destruct (visit_neighbors_total (walk f) (sort_strings (neighbors node)) st1)
    as [[[c|] st2] ->]; [done | | | by eauto..].
  { exists (path st), node. split; [done |]. intros n; apply elem_of_sort_strings. }
  intros next st' Hwf' Hp' Ho' Hl' Hk' Hn'. subst f.
  destruct (IH next st') as [r Hr]; [done.. | by right | |].
  { rewrite Ho'. cbn. apply elem_of_dom in Hkey.
    assert (size (dom refs ∖ ({[node]} ∪ on_path st)) < size (dom refs ∖ on_path st)); [| lia].
    apply subset_size. set_solver. }
  exists r. split; [done |]. eapply walk_post_ok; eauto.
Qed.

Lemma wf_start : wf (mkSearch [] ∅ ∅).
Proof. constructor; cbn; [done | set_solver | set_solver]. Qed.

Lemma search_from_spec fuel starts r :
  search_from fuel starts = Some r ->
  match r with
  | Some c => value_cycle c
  | None => forall x, x ∈ starts -> Acc (flip embeds) x
  end.
Proof.
  revert r. induction starts as [|s starts IH]; cbn; intros r.
  - intros [= <-]. set_solver.
  - destruct (walk fuel s _) as [[[c|] st]|] eqn:Hw; [| | done].
    + intros [= <-].
      apply walk_post_ok in Hw as [Hpost _]; [done | apply wf_start | set_solver | by left].
    + intros Hr%IH.
      apply walk_post_ok in Hw as [[Hwf _] Hin]; [| apply wf_start | set_solver | by left].
      destruct r; [done |]. intros x [-> | Hx]%elem_of_cons; [| auto].
      eapply wf_visited; [done |]. auto.
Qed.

Lemma Acc_no_cycle x : Acc (flip embeds) x -> ~ tc embeds x x.
Proof.
  induction 1 as [x _ IH]. intros Hx.
  assert (exists y, embeds x y /\ rtc embeds y x) as (y & Hy & Hyx).
  { inversion Hx; subst; eauto using rtc_refl, tc_rtc. }
  apply (IH y Hy). eapply tc_rtc_l; [done |]. by apply tc_once.
Qed.

(** A cycle runs through schemas that have entries of their own. *)
Lemma cycle_starts x : tc embeds x x -> x ∉ persistent /\ is_Some (refs !! x).
Proof.
  intros Hx. split.
  - assert (Hlast : forall a b, tc embeds a b -> b ∉ persistent)
      by (induction 1 as [a b [_ ?] | a b c _ _ IH]; done).
    by eapply Hlast.
  - assert (exists y, embeds x y) as [y [Hy _]] by (inversion Hx; eauto).
    unfold neighbors in Hy. destruct (refs !! x); [done | by apply elem_of_nil in Hy].
Qed.

Section Find.
Context `{HashOrder}.

Definition starts : list string :=
  sort_strings (List.filter (fun name => negb (bool_decide (name ∈ persistent)))
                  (map fst (entries refs))).

Lemma elem_of_starts x : x ∈ starts <-> x ∉ persistent /\ is_Some (refs !! x).
Proof.
  unfold starts. rewrite elem_of_sort_strings, list_elem_of_In, filter_In, <- list_elem_of_In.
  rewrite negb_true_iff, bool_decide_eq_false, list_elem_of_fmap. split.
  - intros [([k v] & -> & Hk%elem_of_entries) ?]. split; [done |]. by exists v.
  - intros [? [v Hv]]. split; [| done]. exists (x, v). split; [done |]. by apply elem_of_entries.
Qed.

Lemma search_from_total fuel l :
  size refs < fuel -> (forall x, x ∈ l -> is_Some (refs !! x)) ->
  exists r, search_from fuel l = Some r.
Proof.
  intros Hf Hl. induction l as [|s l IH]; cbn; [eauto |].
  destruct fuel as [|fuel]; [lia |].
  destruct (walk_total fuel s (mkSearch [] ∅ ∅)) as [[[c|] st] ->];
    [apply wf_start | set_solver | apply Hl; set_solver | by left | | by eauto |].
  - cbn. rewrite difference_empty_L, size_dom. lia.
  - apply IH. set_solver.
Qed.

Lemma find_disallowed_cycle_spec :
  exists r, find_disallowed_cycle = Some r /\
    match r with
    | Some c => value_cycle c
    | None => forall x, ~ tc embeds x x
    end.
Proof.
  unfold find_disallowed_cycle. fold starts.
  destruct (search_from_total (S (size refs)) starts) as [r Hr];
    [lia | by intros x [_ ?]%elem_of_starts |].
  exists r. split; [done |]. apply search_from_spec in Hr. destruct r; [done |].
  intros x Hx. apply (Acc_no_cycle x); [| done]. apply Hr, elem_of_starts.
  by apply cycle_starts.
Qed.

End Find.
End Walk.

(** C11: the cycle search always returns; it returns a cycle exactly when the
    references between value schemas have one, and what it returns is one: a
    closed path whose every step is a reference to a value schema. *)
Theorem find_disallowed_cycle_correct `{HashOrder} refs persistent :
  exists r, find_disallowed_cycle refs persistent = Some r /\
    (forall c, r = Some c -> value_cycle refs persistent c) /\
    (is_Some r <-> exists x, tc (embeds refs persistent) x x).
Proof.
  destruct (find_disallowed_cycle_spec refs persistent) as (r & -> & Hr).
  exists r. split; [done |]. destruct r as [c|]; split.
  - by intros ? [= <-].
  - split; [intros _ | by eexists]. by eapply value_cycle_tc.
  - done.
  - split; [by intros [] | intros [x Hx]]. by apply Hr in Hx.
Qed.

(** * At project load *)

(** [collect_schema_type_refs], with the names it pushes as its result. *)
Fixpoint collect_schema_type_refs (t : SchemaType) : list string :=
  match t with
  | Reference name => [name]
  | TypedList inner => collect_schema_type_refs inner
  | _ => []
  end.

Definition schema_refs (def : SchemaDefinition) : list string :=
  concat (map (fun f => collect_schema_type_refs (field_type f)) (sd_fields def)).

Definition detect_schema_cycle `{HashOrder} (schemas : gmap string SchemaDefinition)
  : option (result MarretaError unit) :=
  let refs := schema_refs <$> schemas in
  let persistent := dom (filter (fun e => is_persistent (snd e) = true) schemas) in
  match find_disallowed_cycle refs persistent with
  | None => None
  | Some (Some cycle) => Some (Err (CircularSchemaReference (join " → " cycle)))
  | Some None => Some (Ok tt)
  end.

(** A value of schema [a] contains a value of the value schema [b]: some field
    of [a] has the type [b], a list of [b], and so on. *)
Definition schema_embeds (schemas : gmap string SchemaDefinition) (a b : string) : Prop :=
  (exists s f, schemas !! a = Some s /\ f ∈ sd_fields s
     /\ b ∈ collect_schema_type_refs (field_type f))
  /\ ~ (exists s, schemas !! b = Some s /\ is_persistent s = true).

Lemma embeds_schema_embeds schemas a b :
  embeds (schema_refs <$> schemas)
    (dom (filter (fun e => is_persistent (snd e) = true) schemas)) a b
  <-> schema_embeds schemas a b.
Proof.
  unfold embeds, schema_embeds, neighbors. f_equiv.
  - rewrite lookup_fmap. destruct (schemas !! a) as [s|] eqn:Hs; cbn.
    + unfold schema_refs. rewrite elem_of_concat_map. naive_solver.
    + split; [intros Hx; by apply elem_of_nil in Hx | by intros (? & ? & ? & _)].
  - f_equiv. rewrite elem_of_dom. split.
    + intros [s Hs]. apply map_lookup_filter_Some in Hs as [? ?]. eauto.
    + intros (s & Hs & Hp). exists s. by apply map_lookup_filter_Some.
Qed.

Lemma detect_schema_cycle_spec `{HashOrder} schemas :
  exists r, detect_schema_cycle schemas = Some r /\
    (r = Ok tt <-> forall x, ~ tc (schema_embeds schemas) x x).
Proof.
  unfold detect_schema_cycle.
  destruct (find_disallowed_cycle_spec (schema_refs <$> schemas)
    (dom (filter (fun e => is_persistent (snd e) = true) schemas))) as (r & -> & Hr).
  assert (Htc : forall x, tc (schema_embeds schemas) x x <->
    tc (embeds (schema_refs <$> schemas)
      (dom (filter (fun e => is_persistent (snd e) = true) schemas))) x x).
  { intros x. split; apply tc_congruence with (f := id); intros; by apply embeds_schema_embeds. }
  destruct r as [c|]; eexists; split; try reflexivity.
  - split; [done |]. intros Hno. apply value_cycle_tc in Hr as [x Hx].
    exfalso. by apply (Hno x), Htc.
  - split; [| done]. intros _ x Hx%Htc. by apply Hr in Hx.
Qed.

(** Project load rejects a project for circular schemas exactly when some
    value schema transitively contains itself. *)
Theorem detect_schema_cycle_iff `{HashOrder} schemas :
  exists r, detect_schema_cycle schemas = Some r /\
    (r = Ok tt <-> forall x, ~ tc (schema_embeds schemas) x x).
Proof. apply detect_schema_cycle_spec. Qed.
