(* ===== verification/IndexMap.v ===== *)
(** [IndexMap<String, V>] with its documented behaviour: a map that remembers
    insertion order.  It is an association list without repeated keys;
    [insert] replaces the value of a key in place and appends a new key. *)
From stdpp Require Import base list strings sets.
From S2P Require Import Prelude.

Module IM.
Section IndexMap.
Context {V : Type}.
Implicit Types (m : list (string * V)) (k : string) (v : V).

Fixpoint get k m : option V :=
  match m with
  | [] => None
  | (k', v) :: m => if String.eqb k' k then Some v else get k m
  end.

Definition contains_key k m : bool := match get k m with Some _ => true | None => false end.

Fixpoint insert k v m : list (string * V) :=
  match m with
  | [] => [(k, v)]
  | (k', v') :: m => if String.eqb k' k then (k', v) :: m else (k', v') :: insert k v m
  end.

(** [collect()] of pairs, [extend]: inserts one after the other. *)
Definition extend m (pairs : list (string * V)) : list (string * V) :=
  fold_left (fun m kv => insert (fst kv) (snd kv) m) pairs m.
Definition from_pairs (pairs : list (string * V)) : list (string * V) := extend [] pairs.

Definition keys m : list string := map fst m.
Definition uniq m : bool := bool_decide (NoDup (keys m)).

Lemma get_insert k k' v m :
  get k' (insert k v m) = if String.eqb k k' then Some v else get k' m.
Proof.
  induction m as [|[k1 v1] m IH]; cbn; [done |].
  destruct (String.eqb_spec k1 k) as [->|Hk]; cbn.
  - by destruct (String.eqb_spec k k').
  - rewrite IH. destruct (String.eqb_spec k1 k') as [->|]; [| done].
    destruct (String.eqb_spec k k'); [congruence | done].
Qed.

Lemma get_insert_eq k v m : get k (insert k v m) = Some v.
Proof. by rewrite get_insert, String.eqb_refl. Qed.

Lemma get_insert_ne k k' v m : k <> k' -> get k' (insert k v m) = get k' m.
Proof. intros. rewrite get_insert. by destruct (String.eqb_spec k k'). Qed.

Lemma get_None k m : get k m = None <-> k ∉ keys m.
Proof.
  unfold keys. induction m as [|[k1 v1] m IH]; cbn; [split; [intros _ Hk; by inversion Hk | done] |].
  rewrite elem_of_cons. destruct (String.eqb_spec k1 k) as [->|]; naive_solver.
Qed.

Lemma get_Some_elem_of k v m : get k m = Some v -> (k, v) ∈ m.
Proof.
  induction m as [|[k1 v1] m IH]; cbn; [done |].
  destruct (String.eqb_spec k1 k) as [->|].
  - intros [= ->]. by left.
  - intros. right. auto.
Qed.

Lemma elem_of_get k v m : NoDup (keys m) -> (k, v) ∈ m -> get k m = Some v.
Proof.
  unfold keys. induction m as [|[k1 v1] m IH]; cbn; [by inversion 2 |].
  intros [Hk Hm]%NoDup_cons [[= <- <-] | Hin]%elem_of_cons; [by rewrite String.eqb_refl |].
  destruct (String.eqb_spec k1 k) as [->|]; [| auto].
  exfalso. apply Hk, list_elem_of_fmap. by exists (k, v).
Qed.

Lemma get_is_Some k m : is_Some (get k m) <-> k ∈ keys m.
Proof.
  rewrite <- not_eq_None_Some, get_None. destruct (decide (k ∈ keys m)); tauto.
Qed.

Lemma keys_insert k v m :
  keys (insert k v m) = if decide (k ∈ keys m) then keys m else keys m ++ [k].
Proof.
  unfold keys. induction m as [|[k1 v1] m IH]; cbn; [done |].
  destruct (String.eqb_spec k1 k) as [->|]; cbn.
  - rewrite decide_True; [done | by left].
  - rewrite IH. destruct (decide (k ∈ map fst m)) as [Hin|Hin];
      destruct (decide (k ∈ k1 :: map fst m)) as [Hin'|Hin']; try done; exfalso.
    + apply Hin'. by right.
    + apply elem_of_cons in Hin' as [?|?]; [congruence | done].
Qed.

Lemma insert_NoDup k v m : NoDup (keys m) -> NoDup (keys (insert k v m)).
Proof.
  intros Hm. rewrite keys_insert. destruct (decide _); [done |].
  apply NoDup_app. split_and!; [done | set_solver | by apply NoDup_singleton].
Qed.

Lemma extend_NoDup pairs m : NoDup (keys m) -> NoDup (keys (extend m pairs)).
Proof.
  unfold extend. revert m. induction pairs as [|[k v] pairs IH]; cbn; [done |].
  intros m Hm. by apply IH, insert_NoDup.
Qed.

Lemma insert_fresh k v m : k ∉ keys m -> insert k v m = m ++ [(k, v)].
Proof.
  unfold keys. induction m as [|[k1 v1] m IH]; cbn; [done |]. intros Hk.
  destruct (String.eqb_spec k1 k) as [->|]; [exfalso; apply Hk; by left |].
  f_equal. apply IH. set_solver.
Qed.

(** Collecting pairs with distinct keys keeps them as they are. *)
Lemma from_pairs_NoDup pairs : NoDup (keys pairs) -> from_pairs pairs = pairs.
Proof.
  unfold from_pairs, extend.
  cut (forall m, NoDup (keys (m ++ pairs)) ->
    fold_left (fun m kv => insert (fst kv) (snd kv) m) pairs m = m ++ pairs).
  { intros H ?. by apply (H []). }
  induction pairs as [|[k v] pairs IH]; cbn; intros m Hm; [by rewrite app_nil_r |].
  rewrite insert_fresh.
  - rewrite IH, <- app_assoc; [done |]. by rewrite <- app_assoc.
  - unfold keys in *. rewrite map_app in Hm. apply NoDup_app in Hm as (_ & Hm & _).
    intros Hk%Hm. apply Hk. by left.
Qed.

Lemma get_extend k pairs m :
  get k (extend m pairs) =
  match get k (rev pairs) with Some v => Some v | None => get k m end.
Proof.
  unfold extend. revert m. induction pairs as [|[k1 v1] pairs IH]; cbn; [done |].
  intros m. rewrite IH, get_insert.
  assert (Happ : forall a b, get k (a ++ b) = match get k a with Some v => Some v | None => get k b end).
  { induction a as [|[k2 v2] a IHa]; cbn; [done |]. intros b. rewrite IHa.
    by destruct (String.eqb k2 k). }
  rewrite Happ. cbn. by destruct (get k (rev pairs)), (String.eqb_spec k1 k) as [->|].
Qed.

Lemma insert_same k v m : get k m = Some v -> insert k v m = m.
Proof.
  induction m as [|[k1 v1] m IH]; cbn; [done |].
  destruct (String.eqb_spec k1 k); [by intros [= ->] | intros ?; f_equal; auto].
Qed.

End IndexMap.
End IM.

#[export] Hint Resolve IM.insert_NoDup IM.extend_NoDup : marreta.
#[export] Hint Rewrite @IM.get_insert_eq : marreta.
