(* ===== verification/Foreign.v ===== *)
(** What the engine uses from third-party crates: serde_json's value tree,
    rust_decimal's decimals and chrono's temporal types.  Their code is not
    part of the repository, so their operations are the fields of the class
    [Ext] and the behaviour the theorems rely on is the class [ExtLaws];
    [demo_ext] is a concrete instance, used by the examples. *)
From stdpp Require Import base list strings option.
From Stdlib Require Import ZArith Lia.
From S2P Require Import Prelude RustStr F64 IndexMap.

(** * serde_json::Value *)

(** [serde_json::Number]: an unsigned, negative or floating-point number. *)
Inductive JsonNumber : Type :=
| PosInt (n : Z)
| NegInt (n : Z)
| JFloat (x : f64).

(** [Object] keeps insertion order ([preserve_order]). *)
Inductive Json : Type :=
| JNull
| JBool (b : bool)
| JNumber (n : JsonNumber)
| JString (s : string)
| JArray (items : list Json)
| JObject (entries : list (string * Json)).

(** [json!(n)] for an [i64] and for an [f64]: a float that is not finite
    becomes [Null]. *)
Definition json_of_i64 (n : Z) : Json :=
  JNumber (if (0 <=? n)%Z then PosInt n else NegInt n).
Definition json_of_f64 (x : f64) : Json :=
  if f64_is_finite x then JNumber (JFloat x) else JNull.

(** [Number::as_i64], [Number::as_f64]. *)
Definition as_i64 (n : JsonNumber) : option Z :=
  match n with
  | PosInt n => if (n <=? i64_max)%Z then Some n else None
  | NegInt n => Some n
  | JFloat _ => None
  end.
Definition as_f64 (n : JsonNumber) : option f64 :=
  match n with
  | PosInt n | NegInt n => Some (f64_of_Z n)
  | JFloat x => Some x
  end.

Section JsonInd.
Variable P : Json -> Prop.
Hypothesis Hnull : P JNull.
Hypothesis Hbool : forall b, P (JBool b).
Hypothesis Hnumber : forall n, P (JNumber n).
Hypothesis Hstring : forall s, P (JString s).
Hypothesis Harray : forall items, Forall P items -> P (JArray items).
Hypothesis Hobject : forall entries, Forall (fun kv => P (snd kv)) entries -> P (JObject entries).

Fixpoint Json_induction (j : Json) : P j :=
  match j with
  | JNull => Hnull
  | JBool b => Hbool b
  | JNumber n => Hnumber n
  | JString s => Hstring s
  | JArray items =>
      Harray items ((fix go l : Forall P l :=
        match l with
        | [] => Forall_nil_2 _
        | x :: l => Forall_cons_2 _ _ _ (Json_induction x) (go l)
        end) items)
  | JObject entries =>
      Hobject entries ((fix go l : Forall (fun kv => P (snd kv)) l :=
        match l with
        | [] => Forall_nil_2 _
        | kv :: l => Forall_cons_2 _ _ _ (Json_induction (snd kv)) (go l)
        end) entries)
  end.
End JsonInd.

(** The numbers serde_json's parser produces that fit the engine's integers,
    and objects without repeated keys. *)
Definition number_ok (n : JsonNumber) : bool :=
  match n with
  | PosInt n => (0 <=? n)%Z && (n <=? i64_max)%Z
  | NegInt n => (i64_min <=? n)%Z && (n <? 0)%Z
  | JFloat x => f64_is_finite x
  end.

Fixpoint json_ok (j : Json) : bool :=
  match j with
  | JNull | JBool _ | JString _ => true
  | JNumber n => number_ok n
  | JArray items => forallb json_ok items
  | JObject entries => IM.uniq entries && forallb (fun kv => json_ok (snd kv)) entries
  end.

(** * The third-party types and operations *)

Class Ext : Type := {
  (* rust_decimal::Decimal; [None] is a panic on overflow *)
  decimal : Type;
  dec_of_Z : Z -> decimal;
  dec_is_zero : decimal -> bool;
  dec_to_i64 : decimal -> option Z;
  dec_show : decimal -> string;
  dec_parse : string -> option decimal;
  dec_eqb : decimal -> decimal -> bool;
  dec_cmp : decimal -> decimal -> comparison;
  dec_add : decimal -> decimal -> option decimal;
  dec_sub : decimal -> decimal -> option decimal;
  dec_mul : decimal -> decimal -> option decimal;
  dec_div : decimal -> decimal -> option decimal;
  dec_neg : decimal -> decimal;
  (* chrono: DateTime<Utc>, NaiveDate, NaiveTime, Duration *)
  instant : Type;
  instant_eq_dec :: EqDecision instant;
  instant_show : instant -> string;           (* to_rfc3339_opts(Secs, true) *)
  instant_parse : string -> option instant;   (* parse_from_rfc3339, to Utc *)
  date : Type;
  date_eq_dec :: EqDecision date;
  date_show : date -> string;                 (* %Y-%m-%d *)
  date_parse : string -> option date;
  time : Type;
  time_eq_dec :: EqDecision time;
  time_show : time -> string;                 (* %H:%M:%S *)
  time_parse : string -> option time;
  duration : Type;
  duration_eq_dec :: EqDecision duration;
  duration_milliseconds : Z -> option duration;  (* None: panics *)
  num_milliseconds : duration -> Z;
  num_seconds : duration -> Z;
  (* serde_json: the text of a value *)
  json_show : Json -> string;
}.

Class ExtLaws (E : Ext) : Prop := {
  dec_eqb_refl d : dec_eqb d d = true;
  dec_eqb_sym a b : dec_eqb a b = dec_eqb b a;
  dec_cmp_eqb a b : dec_cmp a b = Eq <-> dec_eqb a b = true;
  dec_cmp_antisym a b : dec_cmp b a = CompOpp (dec_cmp a b);
  (* [Duration::milliseconds] panics on [i64::MIN] only *)
  duration_milliseconds_spec z : in_i64 z = true ->
    duration_milliseconds z = None <-> z = i64_min;
  num_milliseconds_spec z d : duration_milliseconds z = Some d -> num_milliseconds d = z;
}.

(** * A concrete instance

    Decimals are the integers of 96 bits, instants and dates are day or second
    counts written in decimal. *)

Definition dec_checked (z : Z) : option Z := if (Z.abs z <? 2 ^ 96)%Z then Some z else None.

Definition demo_ext : Ext := {|
  decimal := Z;
  dec_of_Z z := z;
  dec_is_zero z := (z =? 0)%Z;
  dec_to_i64 z := if in_i64 z then Some z else None;
  dec_show := show_Z;
  dec_parse := parse_i64;
  dec_eqb := Z.eqb;
  dec_cmp := Z.compare;
  dec_add a b := dec_checked (a + b);
  dec_sub a b := dec_checked (a - b);
  dec_mul a b := dec_checked (a * b);
  dec_div a b := dec_checked (Z.quot a b);
  dec_neg := Z.opp;
  instant := Z; instant_show := show_Z; instant_parse := parse_i64;
  date := Z; date_show := show_Z; date_parse := parse_i64;
  time := Z; time_show := show_Z; time_parse := parse_i64;
  duration := Z;
  duration_milliseconds z := if (z =? i64_min)%Z then None else Some z;
  num_milliseconds z := z;
  num_seconds z := Z.quot z 1000;
  json_show j := match j with JObject [(k, JString s)] => k +:+ ": " +:+ s | _ => "json" end;
|}.

Lemma demo_ext_laws : ExtLaws demo_ext.
Proof.
  constructor; cbn.
  - apply Z.eqb_refl.
  - apply Z.eqb_sym.
  - intros a b. by rewrite Z.compare_eq_iff, Z.eqb_eq.
  - apply Z.compare_antisym.
  - intros z _. destruct (Z.eqb_spec z i64_min); split; done.
  - intros z d. by destruct (z =? i64_min)%Z; intros [= ->].
Qed.
