(* ===== verification/QueryTypes.v ===== *)
(** The lazily accumulated queries: relational (src/src/db/driver.rs) and
    document (src/src/doc/query.rs).  They hold runtime values; the type of
    values is a parameter here because values in turn can hold queries. *)
From stdpp Require Import base list strings gmap.
From Stdlib Require Import ZArith.
From S2P Require Import Prelude.

(** * Relational queries *)

Inductive FilterOp : Type := FEq | FGt | FGte | FLt | FLte | FNe | FLike | FIn.

#[export] Instance FilterOp_eq_dec : EqDecision FilterOp.
Proof. solve_decision. Defined.

Definition to_sql (op : FilterOp) : string :=
  match op with
  | FEq => "=" | FGt => ">" | FGte => ">=" | FLt => "<" | FLte => "<=" | FNe => "!="
  | FLike => "LIKE" | FIn => "IN"
  end.

Record FilterClause (V : Type) : Type := mkFilterClause {
  fc_column : string;
  fc_op : FilterOp;
  fc_value : V;
}.
Arguments mkFilterClause {V}.
Arguments fc_column {V}.
Arguments fc_op {V}.
Arguments fc_value {V}.

Inductive JoinKind : Type := Inner | Left_.

Record JoinClause : Type := mkJoinClause {
  jc_kind : JoinKind;
  jc_table : string;
  jc_on : string;
}.

Record QueryState (V : Type) : Type := mkQueryState {
  q_table : string;
  q_filters : list (FilterClause V);
  q_joins : list JoinClause;
  q_select_cols : list string;
  q_order_by : option string;
  q_limit : option Z;
  q_offset : option Z;
  q_count : bool;
  q_known_columns : option (gset string);
}.
Arguments mkQueryState {V}.
Arguments q_table {V}.
Arguments q_filters {V}.
Arguments q_joins {V}.
Arguments q_select_cols {V}.
Arguments q_order_by {V}.
Arguments q_limit {V}.
Arguments q_offset {V}.
Arguments q_count {V}.
Arguments q_known_columns {V}.

(** [QueryState::new]. *)
Definition QueryState_new {V} (table : string) : QueryState V :=
  mkQueryState table [] [] [] None None None false None.

(** * Document queries *)

Inductive Accumulator : Type :=
| Sum (field alias : string)
| Avg (field alias : string)
| Min (field alias : string)
| Max (field alias : string)
| CountAcc (alias : string).

Inductive DocFilter (V : Type) : Type :=
| DEq (field : string) (v : V)
| DNe (field : string) (v : V)
| DGt (field : string) (v : V)
| DGte (field : string) (v : V)
| DLt (field : string) (v : V)
| DLte (field : string) (v : V)
| DIn (field : string) (vs : list V)
| DLike (field pattern : string).
Arguments DEq {V}.
Arguments DNe {V}.
Arguments DGt {V}.
Arguments DGte {V}.
Arguments DLt {V}.
Arguments DLte {V}.
Arguments DIn {V}.
Arguments DLike {V}.

Inductive SortDirection : Type := Asc | Desc.

Inductive DocQueryMode (V : Type) : Type :=
| Fetch | Count | Exists_ | Update (v : V) | Upsert (v : V) | DeleteMode | Aggregate.
Arguments Fetch {V}.
Arguments Count {V}.
Arguments Exists_ {V}.
Arguments Update {V}.
Arguments Upsert {V}.
Arguments DeleteMode {V}.
Arguments Aggregate {V}.

Record DocQueryState (V : Type) : Type := mkDocQueryState {
  dq_collection : string;
  dq_filters : list (DocFilter V);
  dq_projection : option (list string);
  dq_sort : option (string * SortDirection);
  dq_limit : option Z;
  dq_offset : option Z;
  dq_mode : DocQueryMode V;
  dq_group_by : option string;
  dq_accumulators : list Accumulator;
  dq_post_sort : option (string * SortDirection);
  dq_post_limit : option Z;
}.
Arguments mkDocQueryState {V}.
Arguments dq_collection {V}.
Arguments dq_mode {V}.

(** [DocQueryState::new]. *)
Definition DocQueryState_new {V} (collection : string) : DocQueryState V :=
  mkDocQueryState collection [] None None None None Fetch None [] None None.

Definition is_aggregate {V} (q : DocQueryState V) : bool :=
  match dq_mode q with Aggregate => true | _ => false end.
