(* ===== verification/Value.v ===== *)
(** Runtime values (src/src/value.rs): the value type, truthiness, type names,
    printing, equality and the conversions from and to JSON.

    A map is behind an [Arc<RwLock<..>>] in the source.  No operation of the
    language writes to a map it has not just created, so a map is modelled by
    its contents. *)
From stdpp Require Import base list strings gmap.
From Stdlib Require Import ZArith Lia SpecFloat.
From S2P Require Import Prelude RustStr F64 Errors Ast IndexMap Foreign QueryTypes.

Inductive RelationCardinality : Type := One | Many.
#[export] Instance RelationCardinality_eq_dec : EqDecision RelationCardinality.
Proof. solve_decision. Defined.

Record RelationHandle (V : Type) : Type := mkRelationHandle {
  rh_query : QueryState V;
  rh_cardinality : RelationCardinality;
  rh_null_short_circuit : bool;
}.
Arguments mkRelationHandle {V}.
Arguments rh_query {V}.
Arguments rh_cardinality {V}.
Arguments rh_null_short_circuit {V}.

Section Value.
Context `{E : Ext}.

Inductive TemporalValue : Type :=
| TVInstant (dt : instant)
| TVDate (d : date)
| TVTime (t : time).

#[export] Instance TemporalValue_eq_dec : EqDecision TemporalValue.
Proof. solve_decision. Defined.

Record TemporalInterval : Type := mkTemporalInterval {
  ti_start : TemporalValue;
  ti_end : TemporalValue;
}.

#[export] Instance TemporalInterval_eq_dec : EqDecision TemporalInterval.
Proof. solve_decision. Defined.

Inductive Value : Type :=
| VInteger (n : Z)
| VFloat (x : f64)
| VDecimal (d : decimal)
| VString (s : string)
| VBoolean (b : bool)
| VInstant (dt : instant)
| VDate (d : date)
| VTime (t : time)
| VDuration (d : duration)
| VInterval (i : TemporalInterval)
| VNull
| VList (items : list Value)
| VMap (m : list (string * Value))
| VRelationalRecord (schema_name : string) (fields : list (string * Value))
| VTask (name : string) (params : list ParamDef) (body : TaskBody)
    (owner_module source_module : option string) (line column : nat)
| VDbNamespace
| VDbTable (table : string)
| VRelationHandle (h : RelationHandle Value)
| VQueryBuilder (q : QueryState Value)
| VDocNamespace
| VDocCollection (collection : string)
| VDocQueryBuilder (q : DocQueryState Value)
| VCacheNamespace
| VFsNamespace
| VJsonNamespace
| VBase64Namespace
| VUuidNamespace
| VFeatureNamespace
| VLogNamespace
| VTimeNamespace
| VMathNamespace
| VHttpClientNamespace.

(** * Printing temporal values *)

Definition format_instant (dt : instant) : string := instant_show dt.
Definition format_date (d : date) : string := date_show d.
Definition format_time (t : time) : string := time_show t.

Definition format_duration (d : duration) : string :=
  let total_millis := num_milliseconds d in
  if (Z.rem total_millis 1000 =? 0)%Z then "PT" +:+ show_Z (num_seconds d) +:+ "S"
  else
    let secs := f64_div (f64_of_Z total_millis) (f64_of_Z 1000) in
    "PT" +:+ show_f64 secs +:+ "S".

Definition temporal_value_to_string (v : TemporalValue) : string :=
  match v with
  | TVInstant dt => format_instant dt
  | TVDate d => format_date d
  | TVTime t => format_time t
  end.

(** * Truthiness, type names, integers *)

Definition is_truthy (v : Value) : bool :=
  match v with
  | VNull => false
  | VBoolean b => b
  | VInteger n => negb (n =? 0)%Z
  | VFloat x => negb (f64_eqb x (S754_zero false))
  | VDecimal d => negb (dec_is_zero d)
  | VInstant _ | VDate _ | VTime _ | VDuration _ | VInterval _ => true
  | VString s => negb (String.eqb s EmptyString)
  | VList l => match l with [] => false | _ => true end
  | VMap m | VRelationalRecord _ m => match m with [] => false | _ => true end
  | VTask _ _ _ _ _ _ _ => true
  | VDbNamespace | VDbTable _ | VRelationHandle _ | VQueryBuilder _ => false
  | VDocNamespace | VDocCollection _ | VDocQueryBuilder _ => false
  | VCacheNamespace | VFsNamespace | VJsonNamespace | VBase64Namespace | VUuidNamespace
  | VFeatureNamespace | VLogNamespace | VTimeNamespace | VMathNamespace
  | VHttpClientNamespace => false
  end.

Definition type_name (v : Value) : string :=
  match v with
  | VInteger _ => "Integer"
  | VFloat _ => "Float"
  | VDecimal _ => "Decimal"
  | VString _ => "String"
  | VBoolean _ => "Boolean"
  | VInstant _ => "Instant"
  | VDate _ => "Date"
  | VTime _ => "Time"
  | VDuration _ => "Duration"
  | VInterval _ => "Interval"
  | VNull => "Null"
  | VList _ => "List"
  | VMap _ => "Map"
  | VRelationalRecord _ _ => "RelationalRecord"
  | VTask _ _ _ _ _ _ _ => "Task"
  | VDbNamespace => "DbNamespace"
  | VDbTable _ => "DbTable"
  | VRelationHandle _ => "RelationHandle"
  | VQueryBuilder _ => "QueryBuilder"
  | VDocNamespace => "DocNamespace"
  | VDocCollection _ => "DocCollection"
  | VDocQueryBuilder _ => "DocQueryBuilder"
  | VCacheNamespace => "CacheNamespace"
  | VFsNamespace => "FsNamespace"
  | VJsonNamespace => "JsonNamespace"
  | VBase64Namespace => "Base64Namespace"
  | VUuidNamespace => "UuidNamespace"
  | VFeatureNamespace => "FeatureNamespace"
  | VLogNamespace => "LogNamespace"
  | VTimeNamespace => "TimeNamespace"
  | VMathNamespace => "MathNamespace"
  | VHttpClientNamespace => "HttpClientNamespace"
  end.

Definition as_integer (v : Value) : option Z :=
  match v with
  | VInteger n => Some n
  | VFloat x => if f64_is_integral x then Some (f64_to_i64 x) else None
  | VDecimal d => dec_to_i64 d
  | _ => None
  end.

Definition empty_map : Value := VMap [].
Definition map_from (pairs : list (string * Value)) : Value := VMap (IM.from_pairs pairs).

(** * [impl Display for Value] *)

Definition is_string (v : Value) : bool := match v with VString _ => true | _ => false end.

(** Strings inside collections are quoted. *)
Definition quoted (v : Value) (shown : string) : string :=
  if is_string v then dquote +:+ shown +:+ dquote else shown.

Fixpoint show_value (v : Value) : string :=
  match v with
  | VInteger n => show_Z n
  | VFloat x => if f64_is_integral x then show_f64_integral x else show_f64 x
  | VDecimal d => dec_show d
  | VString s => s
  | VBoolean b => show_bool b
  | VInstant dt => format_instant dt
  | VDate d => format_date d
  | VTime t => format_time t
  | VDuration d => format_duration d
  | VInterval i =>
      "{start: " +:+ temporal_value_to_string (ti_start i)
      +:+ ", end: " +:+ temporal_value_to_string (ti_end i) +:+ "}"
  | VNull => "null"
  | VList items =>
      "[" +:+ join ", " (map (fun item => quoted item (show_value item)) items) +:+ "]"
  | VMap m | VRelationalRecord _ m =>
      "{" +:+ join ", " (map (fun kv => fst kv +:+ ": " +:+ quoted (snd kv) (show_value (snd kv))) m)
      +:+ "}"
  | VTask name params _ _ _ _ _ =>
      "<task " +:+ name +:+ "(" +:+ join ", " (map pd_name params) +:+ ")>"
  | VDbNamespace => "<db>"
  | VDbTable t => "<db." +:+ t +:+ ">"
  | VRelationHandle h =>
      match rh_cardinality h with
      | One => "<relation:" +:+ q_table (rh_query h) +:+ ">"
      | Many => "<relation_many:" +:+ q_table (rh_query h) +:+ ">"
      end
  | VQueryBuilder q => "<query:" +:+ q_table q +:+ ">"
  | VDocNamespace => "<doc>"
  | VCacheNamespace => "<cache>"
  | VFsNamespace => "<fs>"
  | VJsonNamespace => "<json>"
  | VBase64Namespace => "<base64>"
  | VUuidNamespace => "<uuid>"
  | VFeatureNamespace => "<feature>"
  | VLogNamespace => "<log>"
  | VTimeNamespace => "<time>"
  | VMathNamespace => "<math>"
  | VHttpClientNamespace => "<http_client>"
  | VDocCollection t => "<doc." +:+ t +:+ ">"
  | VDocQueryBuilder q => "<doc_query:" +:+ dq_collection q +:+ ">"
  end.

(** * [impl PartialEq for Value] *)

Fixpoint value_eqb (a b : Value) {struct a} : bool :=
  let map_eqb m n :=
    (length m =? length n)
    && forallb (fun kv => match IM.get (fst kv) n with
                          | Some w => value_eqb (snd kv) w
                          | None => false
                          end) m in
  match a, b with
  | VInteger a, VInteger b => (a =? b)%Z
  | VFloat a, VFloat b => f64_eqb a b
  | VDecimal a, VDecimal b => dec_eqb a b
  | VInteger a, VDecimal b => dec_eqb (dec_of_Z a) b
  | VDecimal a, VInteger b => dec_eqb a (dec_of_Z b)
  | VInteger a, VFloat b => f64_eqb (f64_of_Z a) b
  | VFloat a, VInteger b => f64_eqb a (f64_of_Z b)
  | VString a, VString b => String.eqb a b
  | VBoolean a, VBoolean b => Bool.eqb a b
  | VInstant a, VInstant b => bool_decide (a = b)
  | VDate a, VDate b => bool_decide (a = b)
  | VTime a, VTime b => bool_decide (a = b)
  | VDuration a, VDuration b => bool_decide (a = b)
  | VInterval a, VInterval b => bool_decide (a = b)
  | VNull, VNull => true
  | VList l, VList r =>
      (fix list_eqb l r :=
         match l, r with
         | [], [] => true
         | x :: l, y :: r => value_eqb x y && list_eqb l r
         | _, _ => false
         end) l r
  | VMap m, VMap n => map_eqb m n
  | VRelationalRecord s m, VRelationalRecord t n => String.eqb s t && map_eqb m n
  | VDbNamespace, VDbNamespace => true
  | VDbTable a, VDbTable b => String.eqb a b
  | VRelationHandle a, VRelationHandle b =>
      bool_decide (rh_cardinality a = rh_cardinality b)
      && Bool.eqb (rh_null_short_circuit a) (rh_null_short_circuit b)
      && bool_decide (q_table (rh_query a) = q_table (rh_query b))
      && bool_decide (q_select_cols (rh_query a) = q_select_cols (rh_query b))
      && bool_decide (q_order_by (rh_query a) = q_order_by (rh_query b))
      && bool_decide (q_limit (rh_query a) = q_limit (rh_query b))
      && bool_decide (q_offset (rh_query a) = q_offset (rh_query b))
  | VDocNamespace, VDocNamespace | VCacheNamespace, VCacheNamespace
  | VFsNamespace, VFsNamespace | VJsonNamespace, VJsonNamespace
  | VBase64Namespace, VBase64Namespace | VUuidNamespace, VUuidNamespace
  | VFeatureNamespace, VFeatureNamespace | VLogNamespace, VLogNamespace
  | VTimeNamespace, VTimeNamespace | VMathNamespace, VMathNamespace
  | VHttpClientNamespace, VHttpClientNamespace => true
  | VDocCollection a, VDocCollection b => String.eqb a b
  | _, _ => false
  end.

(** * JSON *)

Fixpoint value_to_json (v : Value) : Json :=
  match v with
  | VInteger n => json_of_i64 n
  | VFloat x => json_of_f64 x
  | VDecimal d => JString (dec_show d)
  | VString s => JString s
  | VBoolean b => JBool b
  | VInstant dt => JString (format_instant dt)
  | VDate d => JString (format_date d)
  | VTime t => JString (format_time t)
  | VDuration d => JString (format_duration d)
  | VInterval i =>
      JObject [("start", JString (temporal_value_to_string (ti_start i)));
               ("end", JString (temporal_value_to_string (ti_end i)))]
  | VNull => JNull
  | VList items => JArray (map value_to_json items)
  | VMap m | VRelationalRecord _ m =>
      JObject (IM.from_pairs (map (fun kv => (fst kv, value_to_json (snd kv))) m))
  | VTask name _ _ _ _ _ _ => JObject [("task", JString name)]
  | _ => JNull
  end.

(** The strict rules of the [json] namespace; the error is its message. *)
Fixpoint value_to_json_strict (v : Value) : result string Json :=
  match v with
  | VInteger n => Ok (json_of_i64 n)
  | VFloat x => Ok (json_of_f64 x)
  | VDecimal d => Ok (JString (dec_show d))
  | VString s => Ok (JString s)
  | VBoolean b => Ok (JBool b)
  | VInstant dt => Ok (JString (format_instant dt))
  | VDate d => Ok (JString (format_date d))
  | VTime t => Ok (JString (format_time t))
  | VDuration d => Ok (JString (format_duration d))
  | VInterval i =>
      Ok (JObject [("start", JString (temporal_value_to_string (ti_start i)));
                   ("end", JString (temporal_value_to_string (ti_end i)))])
  | VNull => Ok JNull
  | VList items =>
      match collect value_to_json_strict items with
      | Ok out => Ok (JArray out)
      | Err e => Err e
      end
  | VMap m | VRelationalRecord _ m =>
      match collect (fun kv => match value_to_json_strict (snd kv) with
                               | Ok j => Ok (fst kv, j)
                               | Err e => Err e
                               end) m with
      | Ok out => Ok (JObject (IM.from_pairs out))
      | Err e => Err e
      end
  | other => Err ("json values cannot serialize " +:+ type_name other)
  end.

Fixpoint json_to_value (j : Json) : Value :=
  match j with
  | JNull => VNull
  | JBool b => VBoolean b
  | JNumber n =>
      match as_i64 n with
      | Some i => VInteger i
      | None => VFloat (default (S754_zero false) (as_f64 n))
      end
  | JString s => VString s
  | JArray items => VList (map json_to_value items)
  | JObject entries =>
      VMap (IM.from_pairs (map (fun kv => (fst kv, json_to_value (snd kv))) entries))
  end.

End Value.

(** * serde's [Serializer]

    The interface a data format implements, reduced to what values use. *)
Class Serializer (R : Type) : Type := {
  serialize_i64 : Z -> R;
  serialize_u64 : Z -> R;
  serialize_f64 : f64 -> R;
  serialize_str : string -> R;
  serialize_bool : bool -> R;
  serialize_none : R;
  serialize_unit : R;
  serialize_seq : list R -> R;
  serialize_map : list (string * R) -> R;
}.

(** serde_json's text formats do not tell signed from unsigned integers, nor
    [none] from [unit]. *)
Class SerializerLaws (R : Type) `{Serializer R} : Prop := {
  serialize_u64_i64 n : (0 <= n)%Z -> serialize_u64 n = serialize_i64 n;
  serialize_unit_none : serialize_unit = serialize_none;
}.

Section Serialize.
Context {R : Type} `{Serializer R}.

(** serde_json's own [impl Serialize for Value], on its value tree. *)
Fixpoint json_serialize (j : Json) : R :=
  match j with
  | JNull => serialize_unit
  | JBool b => serialize_bool b
  | JNumber (PosInt n) => serialize_u64 n
  | JNumber (NegInt n) => serialize_i64 n
  | JNumber (JFloat x) => serialize_f64 x
  | JString s => serialize_str s
  | JArray items => serialize_seq (map json_serialize items)
  | JObject entries => serialize_map (map (fun kv => (fst kv, json_serialize (snd kv))) entries)
  end.

(** [impl serde::Serialize for Value] and [serialize_value_map]. *)
Fixpoint serialize `{Ext} (v : Value) : R :=
  match v with
  | VInteger n => serialize_i64 n
  | VFloat x => if f64_is_finite x then serialize_f64 x else serialize_none
  | VDecimal d => serialize_str (dec_show d)
  | VString s => serialize_str s
  | VBoolean b => serialize_bool b
  | VInstant dt => serialize_str (format_instant dt)
  | VDate d => serialize_str (format_date d)
  | VTime t => serialize_str (format_time t)
  | VDuration d => serialize_str (format_duration d)
  | VInterval i =>
      serialize_map [("start", serialize_str (temporal_value_to_string (ti_start i)));
                     ("end", serialize_str (temporal_value_to_string (ti_end i)))]
  | VNull => serialize_none
  | VList items => serialize_seq (map serialize items)
  | VMap m | VRelationalRecord _ m =>
      serialize_map (map (fun kv => (fst kv, serialize (snd kv))) m)
  | VTask name _ _ _ _ _ _ => serialize_map [("task", serialize_str name)]
  | _ => serialize_none
  end.

End Serialize.
