(* ===== verification/ValueFacts.v ===== *)
(** Theorems on runtime values: equality is an equivalence where it should be,
    the JSON conversions are inverse to each other, the direct serializer
    agrees with the tree conversion, and the strict conversion is the lenient
    one restricted to data. *)
From stdpp Require Import base list strings gmap sets.
From Stdlib Require Import ZArith Lia SpecFloat.
From S2P Require Import Prelude RustStr F64 Errors Ast IndexMap Foreign QueryTypes Value.

Section Facts.
Context `{E : Ext}.

Definition is_leaf (v : Value) : bool :=
  match v with VList _ | VMap _ | VRelationalRecord _ _ => false | _ => true end.

(** Induction with hypotheses on the items of lists and the values of maps. *)
Section Induction.
Variable P : Value -> Prop.
Hypothesis Hleaf : forall v, is_leaf v = true -> P v.
Hypothesis Hlist : forall items, Forall P items -> P (VList items).
Hypothesis Hmap : forall m, Forall (fun kv => P (snd kv)) m -> P (VMap m).
Hypothesis Hrecord : forall s m, Forall (fun kv => P (snd kv)) m -> P (VRelationalRecord s m).

Fixpoint Value_induction (v : Value) : P v :=
  let entries := fix go (l : list (string * Value)) : Forall (fun kv => P (snd kv)) l :=
    match l with
    | [] => Forall_nil_2 _
    | kv :: l => Forall_cons_2 _ _ _ (Value_induction (snd kv)) (go l)
    end in
  match v with
  | VList items =>
      Hlist items ((fix go l : Forall P l :=
        match l with
        | [] => Forall_nil_2 _
        | x :: l => Forall_cons_2 _ _ _ (Value_induction x) (go l)
        end) items)
  | VMap m => Hmap m (entries m)
  | VRelationalRecord s m => Hrecord s m (entries m)
  | w => Hleaf w eq_refl
  end.
End Induction.

(** Every map inside the value has distinct keys, as an [IndexMap] has. *)
Fixpoint wf_value (v : Value) : bool :=
  match v with
  | VList items => forallb wf_value items
  | VMap m | VRelationalRecord _ m => IM.uniq m && forallb (fun kv => wf_value (snd kv)) m
  | _ => true
  end.

(** Values equal to themselves: no NaN, no task, no unevaluated query. *)
Fixpoint comparable (v : Value) : bool :=
  match v with
  | VFloat x => negb (bool_decide (x = S754_nan))
  | VList items => forallb comparable items
  | VMap m | VRelationalRecord _ m => forallb (fun kv => comparable (snd kv)) m
  | VTask _ _ _ _ _ _ _ | VQueryBuilder _ | VDocQueryBuilder _ => false
  | _ => true
  end.

(** Values that are plain JSON data. *)
Fixpoint json_data (v : Value) : bool :=
  match v with
  | VInteger n => in_i64 n
  | VFloat x => f64_is_finite x
  | VString _ | VBoolean _ | VNull => true
  | VList items => forallb json_data items
  | VMap m => IM.uniq m && forallb (fun kv => json_data (snd kv)) m
  | _ => false
  end.

(** Values the [json] namespace accepts. *)
Fixpoint storable (v : Value) : bool :=
  match v with
  | VInteger _ | VFloat _ | VDecimal _ | VString _ | VBoolean _ | VInstant _ | VDate _
  | VTime _ | VDuration _ | VInterval _ | VNull => true
  | VList items => forallb storable items
  | VMap m | VRelationalRecord _ m => forallb (fun kv => storable (snd kv)) m
  | _ => false
  end.

Lemma f64_eqb_sym x y : f64_eqb x y = f64_eqb y x.
Proof.
  unfold f64_eqb, SFeqb.
  destruct x as [s|s| |s m e], y as [t|t| |t n f]; cbn; try done; try by destruct s;
    try by destruct t; try by destruct s, t.
  rewrite (Z.compare_antisym e f).
  assert (Hp : Pos.compare_cont Eq n m = CompOpp (Pos.compare_cont Eq m n))
    by (rewrite Pos.compare_cont_antisym; done).
  rewrite Hp. destruct s, t, (e ?= f)%Z, (Pos.compare_cont Eq m n); done.
Qed.

(** ** Equality *)

Lemma value_eqb_leaf_sym `{!ExtLaws E} a b : is_leaf a = true -> value_eqb a b = value_eqb b a.
Proof.
  destruct a; try done; intros _; destruct b; try done; cbn [value_eqb];
    try apply dec_eqb_sym; try apply f64_eqb_sym; try apply Z.eqb_sym; try apply String.eqb_sym;
    try (apply bool_decide_ext; by split).
  - by destruct b0, b.
  - assert (Hb : forall x y : bool, Bool.eqb x y = Bool.eqb y x) by (by intros [] []).
    rewrite (Hb (rh_null_short_circuit h)).
    do 5 (apply f_equal2; [| apply bool_decide_ext; by split]).
    f_equal. apply bool_decide_ext; by split.
Qed.

Definition map_eqb (m n : list (string * Value)) : bool :=
  (length m =? length n)
  && forallb (fun kv => match IM.get (fst kv) n with
                        | Some w => value_eqb (snd kv) w
                        | None => false
                        end) m.

Lemma map_eqb_spec m n : IM.uniq m = true ->
  map_eqb m n = true <->
  length m = length n /\
  (forall k v, IM.get k m = Some v -> exists w, IM.get k n = Some w /\ value_eqb v w = true).
Proof.
  intros Hm%bool_decide_eq_true. unfold map_eqb.
  rewrite andb_true_iff, Nat.eqb_eq, forallb_forall. f_equiv. split.
  - intros Hall k v Hk. specialize (Hall (k, v)). cbn in Hall.
    apply IM.get_Some_elem_of, list_elem_of_In, Hall in Hk.
    destruct (IM.get k n); [eauto | done].
  - intros Hall [k v] Hk%list_elem_of_In. cbn.
    destruct (Hall k v) as (w & -> & Hw); [by apply IM.elem_of_get | done].
Qed.

(** A map equal to another has the same keys. *)
Lemma map_eqb_keys m n : IM.uniq m = true -> IM.uniq n = true ->
  map_eqb m n = true -> forall k, k ∈ IM.keys n -> k ∈ IM.keys m.
Proof.
  intros Hm Hn Heq%map_eqb_spec k Hk; [| done]. destruct Heq as [Hlen Hsub].
  apply bool_decide_eq_true in Hm, Hn.
  assert (IM.keys m ≡ₚ IM.keys n) as Hp; [| by rewrite Hp].
  apply submseteq_length_Permutation.
  - apply NoDup_submseteq; [done |]. intros k' [v Hv]%IM.get_is_Some.
    apply IM.get_is_Some. destruct (Hsub _ _ Hv) as (w & ? & _). by exists w.
  - unfold IM.keys. by rewrite !length_map, Hlen.
Qed.

Lemma map_eqb_sym m n : IM.uniq m = true -> IM.uniq n = true ->
  (forall k v w, IM.get k m = Some v -> IM.get k n = Some w -> value_eqb v w = value_eqb w v) ->
  map_eqb m n = map_eqb n m.
Proof.
  intros Hm Hn Hsym. apply eq_bool_prop_intro. rewrite !Is_true_true.
  split; intros Heq; (apply map_eqb_spec; [done |]).
  - pose proof (map_eqb_keys _ _ Hm Hn Heq) as Hkeys.
    apply map_eqb_spec in Heq as [Hlen Hsub]; [| done]. split; [done |].
    intros k w Hw. destruct (proj2 (IM.get_is_Some k m)) as [v Hv].
    { apply Hkeys, IM.get_is_Some. by exists w. }
    exists v. split; [done |]. destruct (Hsub k v Hv) as (w' & Hw' & Hvw).
    rewrite Hw in Hw'. injection Hw' as <-. by erewrite <- Hsym.
  - pose proof (map_eqb_keys _ _ Hn Hm Heq) as Hkeys.
    apply map_eqb_spec in Heq as [Hlen Hsub]; [| done]. split; [done |].
    intros k v Hv. destruct (proj2 (IM.get_is_Some k n)) as [w Hw].
    { apply Hkeys, IM.get_is_Some. by exists v. }
    exists w. split; [done |]. destruct (Hsub k w Hw) as (v' & Hv' & Hwv).
    rewrite Hv in Hv'. injection Hv' as <-. by erewrite Hsym.
Qed.

End Facts.

(** Value equality is symmetric: whatever the two values, in maps of any
    key order, across the numeric types. *)
Theorem value_eqb_sym `{E : Ext, !ExtLaws E} (a b : Value) :
  wf_value a = true -> wf_value b = true -> value_eqb a b = value_eqb b a.
Proof.
  revert b. induction a as [a Hleaf|items IH|m IH|s m IH] using Value_induction; intros b Ha Hb.
  - by apply value_eqb_leaf_sym.
  - destruct b; try done. cbn in Ha, Hb |- *. revert items0 Hb Ha.
    induction IH as [|x items Hx _ IHl]; intros [|y items'] Hb Ha; try done; cbn in *.
    apply andb_true_iff in Ha as [??], Hb as [??]. rewrite Hx by done. f_equal. auto.
  - destruct b as [| | | | | | | | | | | |n| | | | | | | | | | | | | | | | | | |]; try done.
    cbn in Ha, Hb. apply andb_true_iff in Ha as [Hm Ha], Hb as [Hn Hb].
    apply map_eqb_sym; [done.. |]. intros k v w Hv%IM.get_Some_elem_of Hw%IM.get_Some_elem_of.
    rewrite Forall_forall in IH. rewrite forallb_forall in Ha, Hb.
    apply (IH (k, v)); [done | apply (Ha (k, v)) | apply (Hb (k, w))]; by apply list_elem_of_In.
  - destruct b as [| | | | | | | | | | | | |t n| | | | | | | | | | | | | | | | | |]; try done.
    cbn in Ha, Hb. apply andb_true_iff in Ha as [Hm Ha], Hb as [Hn Hb].
    change (String.eqb s t && map_eqb m n = String.eqb t s && map_eqb n m).
    rewrite String.eqb_sym. f_equal.
    apply map_eqb_sym; [done.. |]. intros k v w Hv%IM.get_Some_elem_of Hw%IM.get_Some_elem_of.
    rewrite Forall_forall in IH. rewrite forallb_forall in Ha, Hb.
    apply (IH (k, v)); [done | apply (Ha (k, v)) | apply (Hb (k, w))]; by apply list_elem_of_In.
Qed.

(** The hypotheses of [value_eqb_sym] hold, for maps in different orders. *)
Lemma value_eqb_sym_witness :
  let a := @VMap demo_ext [("x", VInteger 1); ("y", VList [VDecimal (@dec_of_Z demo_ext 2)])] in
  let b := @VMap demo_ext [("y", VList [VInteger 2]); ("x", VFloat (f64_of_Z 1))] in
  wf_value a = true /\ wf_value b = true /\ value_eqb a b = true
  /\ value_eqb a b = value_eqb b a.
Proof.
  intros a b. assert (Ha : wf_value a = true) by reflexivity.
  assert (Hb : wf_value b = true) by reflexivity.
  split; [exact Ha |]. split; [exact Hb |]. split; [vm_compute; reflexivity |].
  exact (@value_eqb_sym demo_ext demo_ext_laws a b Ha Hb).
Defined.

(** A value is equal to itself, NaN, tasks and unevaluated queries aside. *)
Theorem value_eqb_refl `{E : Ext, !ExtLaws E} (v : Value) :
  wf_value v = true -> comparable v = true -> value_eqb v v = true.
Proof.
  assert (Hmap : forall m, Forall (fun kv : string * Value =>
      wf_value (snd kv) = true -> comparable (snd kv) = true ->
      value_eqb (snd kv) (snd kv) = true) m ->
    IM.uniq m && forallb (fun kv => wf_value (snd kv)) m = true ->
    forallb (fun kv => comparable (snd kv)) m = true -> map_eqb m m = true).
  { intros m IH [Hm Hwf]%andb_true_iff Hc. apply map_eqb_spec; [done |]. split; [done |].
    intros k x Hx. exists x. split; [done |]. apply IM.get_Some_elem_of in Hx.
    rewrite Forall_forall in IH. rewrite forallb_forall in Hwf, Hc.
    apply (IH (k, x)); [done | apply (Hwf (k, x)) | apply (Hc (k, x))]; by apply list_elem_of_In. }
  induction v as [w Hleaf|items IH|m IH|s m IH] using Value_induction; intros Hwf Hc.
  - destruct w; try done; cbn [value_eqb];
      try apply dec_eqb_refl; try apply Z.eqb_refl; try apply String.eqb_refl;
      try (by apply bool_decide_eq_true_2).
    + apply f64_eqb_refl. cbn in Hc. apply negb_true_iff, bool_decide_eq_false in Hc. done.
    + by destruct b.
    + rewrite !bool_decide_eq_true_2 by done. by destruct (rh_null_short_circuit h).
  - cbn in *. induction IH as [|x items Hx _ IHl]; [done |]. cbn in *.
    apply andb_true_iff in Hwf as [??], Hc as [??]. rewrite Hx by done. auto.
  - cbn in Hwf, Hc. exact (Hmap m IH Hwf Hc).
  - cbn in Hwf, Hc. change (String.eqb s s && map_eqb m m = true).
    rewrite String.eqb_refl. exact (Hmap m IH Hwf Hc).
Qed.

Lemma value_eqb_refl_witness :
  let v := @VMap demo_ext [("x", VFloat (f64_of_Z 1)); ("y", VList [VNull; VBoolean true])] in
  wf_value v = true /\ comparable v = true /\ value_eqb v v = true.
Proof.
  intros v. assert (Ha : wf_value v = true) by reflexivity.
  assert (Hb : comparable v = true) by reflexivity.
  split; [exact Ha |]. split; [exact Hb |].
  exact (@value_eqb_refl demo_ext demo_ext_laws v Ha Hb).
Defined.

(** ** JSON *)

Lemma keys_map {A B} (f : A -> B) (m : list (string * A)) :
  IM.keys (map (fun kv => (fst kv, f (snd kv))) m) = IM.keys m.
Proof. unfold IM.keys. rewrite map_map. done. Qed.

Lemma from_pairs_map {A B} (f : A -> B) (m : list (string * A)) : IM.uniq m = true ->
  IM.from_pairs (map (fun kv => (fst kv, f (snd kv))) m) = map (fun kv => (fst kv, f (snd kv))) m.
Proof. intros Hm%bool_decide_eq_true. apply IM.from_pairs_NoDup. by rewrite keys_map. Qed.

Lemma uniq_map {A B} (f : A -> B) (m : list (string * A)) :
  IM.uniq (map (fun kv => (fst kv, f (snd kv))) m) = IM.uniq m.
Proof. unfold IM.uniq. by rewrite keys_map. Qed.

Lemma map_id_Forall {A} (f : A -> A) l : Forall (fun x => f x = x) l -> map f l = l.
Proof. induction 1; cbn; congruence. Qed.

(** C31: a JSON document whose integers are in the range of [i64], whose other
    numbers are finite and whose objects have no repeated key ([json_ok]) is
    given back by the trip through the values of the language: no value is lost
    and object keys keep their order.  The range is needed: an integer above
    [i64::MAX], which the parser of serde_json still takes as a [u64], becomes
    a float and is printed as one (a finding); repeated keys and infinite
    numbers do not come out of that parser. *)
Theorem json_value_roundtrip `{E : Ext} (j : Json) :
  json_ok j = true -> value_to_json (json_to_value j) = j.
Proof.
  induction j as [|b|n|s|items IH|entries IH] using Json_induction; cbn; try done.
  - intros Hn. destruct n as [n|n|x]; cbn in *.
    + apply andb_true_iff in Hn as [H0 Hn]. rewrite Hn. cbn. unfold json_of_i64. by rewrite H0.
    + apply andb_true_iff in Hn as [_ Hn]. unfold json_of_i64.
      destruct (Z.leb_spec 0 n); [apply Z.ltb_lt in Hn; lia | done].
    + unfold json_of_f64. by rewrite Hn.
  - intros Hall. rewrite forallb_forall in Hall. f_equal. rewrite map_map.
    apply map_id_Forall. rewrite Forall_forall in *. intros x Hx.
    apply IH; [done |]. by apply Hall, list_elem_of_In.
  - intros [Hu Hall]%andb_true_iff. rewrite forallb_forall in Hall.
    rewrite (from_pairs_map json_to_value) by done.
    rewrite (from_pairs_map value_to_json) by (by rewrite uniq_map).
    f_equal. rewrite map_map. apply map_id_Forall. rewrite Forall_forall in *.
    intros [k x] Hx. cbn. f_equal. apply (IH (k, x) Hx), (Hall (k, x)), list_elem_of_In, Hx.
Qed.

Lemma json_value_roundtrip_witness :
  let j := JObject [("b", JArray [JNumber (NegInt (-3)); JNull]); ("a", JBool true)] in
  json_ok j = true /\ value_to_json (@json_to_value demo_ext j) = j.
Proof.
  intros j. assert (Hj : json_ok j = true) by reflexivity.
  split; [exact Hj | exact (@json_value_roundtrip demo_ext j Hj)].
Defined.

(** 9223372036854775808 is in the range of [u64] but not in that of [i64]: it is
    read as the float 2^63 and given back as a float. *)
Lemma large_integer_becomes_float :
  let j := JNumber (PosInt (i64_max + 1)) in
  value_to_json (@json_to_value demo_ext j) = JNumber (JFloat (f64_of_Z (2 ^ 63))) /\
  value_to_json (@json_to_value demo_ext j) <> j.
Proof. split; [vm_compute; reflexivity | vm_compute; discriminate]. Qed.

(** Plain data survives the trip through JSON unchanged. *)
Theorem value_json_roundtrip `{E : Ext} (v : Value) :
  json_data v = true -> json_to_value (value_to_json v) = v.
Proof.
  induction v as [w Hleaf|items IH|m IH|s m IH] using Value_induction.
  - destruct w; try done; cbn.
    + intros Hn%in_i64_spec. unfold json_of_i64. destruct (Z.leb_spec 0 n); cbn; [| done].
      rewrite (proj2 (Z.leb_le n i64_max)) by lia. done.
    + intros Hx. unfold json_of_f64. by rewrite Hx.
  - cbn. intros Hall. rewrite forallb_forall in Hall. f_equal. rewrite map_map.
    apply map_id_Forall. rewrite Forall_forall in *. intros x Hx.
    apply IH; [done |]. by apply Hall, list_elem_of_In.
  - cbn. intros [Hu Hall]%andb_true_iff. rewrite forallb_forall in Hall.
    rewrite (from_pairs_map value_to_json) by done.
    rewrite (from_pairs_map json_to_value) by (by rewrite uniq_map).
    f_equal. rewrite map_map. apply map_id_Forall. rewrite Forall_forall in *.
    intros [k x] Hx. cbn. f_equal. apply (IH (k, x) Hx), (Hall (k, x)), list_elem_of_In, Hx.
  - done.
Qed.

Lemma value_json_roundtrip_witness :
  let v := @VMap demo_ext [("b", VList [VInteger (-3); VNull]); ("a", VFloat (f64_of_Z 1))] in
  json_data v = true /\ json_to_value (value_to_json v) = v.
Proof.
  intros v. assert (Hv : json_data v = true) by reflexivity.
  split; [exact Hv | exact (@value_json_roundtrip demo_ext v Hv)].
Defined.

(** C32: writing a value directly produces exactly what writing its JSON tree
    produces, for every serializer that writes the two kinds of integers and
    the two kinds of nothing alike. *)
Theorem serialize_agrees_with_tree `{E : Ext} {R : Type} `{SerializerLaws R} (v : Value) :
  wf_value v = true -> serialize v = json_serialize (value_to_json v).
Proof.
  assert (Hmap : forall m, Forall (fun kv : string * Value => wf_value (snd kv) = true ->
      serialize (snd kv) = json_serialize (value_to_json (snd kv))) m ->
    IM.uniq m && forallb (fun kv => wf_value (snd kv)) m = true ->
    serialize_map (map (fun kv => (fst kv, serialize (snd kv))) m)
    = json_serialize (JObject (IM.from_pairs
        (map (fun kv => (fst kv, value_to_json (snd kv))) m)))).
  { intros m IH [Hu Hall]%andb_true_iff. rewrite from_pairs_map by done. cbn.
    rewrite map_map. f_equal. apply map_ext_in. intros [k x] Hx. cbn. f_equal.
    rewrite Forall_forall in IH. rewrite forallb_forall in Hall.
    apply (IH (k, x)); [by apply list_elem_of_In | by apply (Hall (k, x))]. }
  induction v as [w Hleaf|items IH|m IH|s m IH] using Value_induction; intros Hwf.
  - destruct w; try done; cbn; try (by rewrite serialize_unit_none).
    + unfold json_of_i64. destruct (Z.leb_spec 0 n); cbn; [| done].
      by rewrite serialize_u64_i64.
    + unfold json_of_f64. destruct (f64_is_finite x); cbn; [done |].
      by rewrite serialize_unit_none.
  - cbn in *. rewrite map_map. f_equal. apply map_ext_in. intros x Hx.
    rewrite Forall_forall in IH. rewrite forallb_forall in Hwf.
    apply IH; [by apply list_elem_of_In | auto].
  - exact (Hmap m IH Hwf).
  - exact (Hmap m IH Hwf).
Qed.

(** A serializer to text, for the witness. *)
Definition text_serializer : Serializer string := {|
  serialize_i64 := show_Z; serialize_u64 := show_Z; serialize_f64 := show_f64;
  serialize_str s := dquote +:+ s +:+ dquote; serialize_bool := show_bool;
  serialize_none := "null"; serialize_unit := "null";
  serialize_seq l := "[" +:+ join "," l +:+ "]";
  serialize_map m := "{" +:+ join "," (map (fun kv => dquote +:+ fst kv +:+ dquote +:+ ":" +:+ snd kv) m) +:+ "}";
|}.

Lemma text_serializer_laws : @SerializerLaws string text_serializer.
Proof. by constructor. Qed.

Lemma serialize_agrees_with_tree_witness :
  let v := @VMap demo_ext [("b", VList [VInteger 3; VFloat S754_nan]); ("a", VBoolean true)] in
  wf_value v = true /\
  @serialize string text_serializer demo_ext v = @json_serialize string text_serializer (value_to_json v).
Proof.
  intros v. assert (Hv : wf_value v = true) by reflexivity.
  split; [exact Hv |].
  exact (@serialize_agrees_with_tree demo_ext string text_serializer text_serializer_laws v Hv).
Defined.

(** The strict conversion of the [json] namespace succeeds exactly on data
    (no task, namespace, relation or query anywhere inside), and then gives
    what the lenient conversion gives. *)
Theorem strict_json_iff_data `{E : Ext} (v : Value) :
  if storable v then value_to_json_strict v = Ok (value_to_json v)
  else exists inner, value_to_json_strict v
                     = Err ("json values cannot serialize " +:+ type_name inner).
Proof.
  assert (Hmap : forall m, Forall (fun kv : string * Value =>
      if storable (snd kv) then value_to_json_strict (snd kv) = Ok (value_to_json (snd kv))
      else exists inner, value_to_json_strict (snd kv)
                         = Err ("json values cannot serialize " +:+ type_name inner)) m ->
    let r := collect (fun kv => match value_to_json_strict (snd kv) with
                                | Ok j => Ok (fst kv, j)
                                | Err e => Err e
                                end) m in
    if forallb (fun kv => storable (snd kv)) m
    then r = Ok (map (fun kv => (fst kv, value_to_json (snd kv))) m)
    else exists inner, r = Err ("json values cannot serialize " +:+ type_name inner)).
  { induction 1 as [|[k x] m Hx _ IHm]; cbn in *; [done |].
    destruct (storable x); cbn; [| destruct Hx as [i ->]; by exists i]. rewrite Hx.
    destruct (forallb _ m); [by rewrite IHm | destruct IHm as [i ->]; by exists i]. }
  induction v as [w Hleaf|items IH|m IH|s m IH] using Value_induction.
  - destruct w; try done; cbn.
    + by exists (VTask name params body owner_module source_module line column).
    + by exists VDbNamespace. + by exists (VDbTable table). + by exists (VRelationHandle h).
    + by exists (VQueryBuilder q). + by exists VDocNamespace. + by exists (VDocCollection collection).
    + by exists (VDocQueryBuilder q). + by exists VCacheNamespace. + by exists VFsNamespace.
    + by exists VJsonNamespace. + by exists VBase64Namespace. + by exists VUuidNamespace.
    + by exists VFeatureNamespace. + by exists VLogNamespace. + by exists VTimeNamespace.
    + by exists VMathNamespace. + by exists VHttpClientNamespace.
  - cbn. assert (Hl : if forallb storable items
        then collect value_to_json_strict items = Ok (map value_to_json items)
        else exists inner, collect value_to_json_strict items
                           = Err ("json values cannot serialize " +:+ type_name inner)).
    { induction IH as [|x items Hx _ IHl]; cbn; [done |].
      destruct (storable x); cbn; [| destruct Hx as [i ->]; by exists i]. rewrite Hx.
      destruct (forallb storable items); [by rewrite IHl | destruct IHl as [i ->]; by exists i]. }
    destruct (forallb storable items); [by rewrite Hl | destruct Hl as [i ->]; by exists i].
  - specialize (Hmap m IH). cbn in *.
    destruct (forallb _ m); [by rewrite Hmap | destruct Hmap as [i ->]; by exists i].
  - specialize (Hmap m IH). cbn in *.
    destruct (forallb _ m); [by rewrite Hmap | destruct Hmap as [i ->]; by exists i].
Qed.
