(* ===== verification/Validator.v ===== *)
(** The schema payload validator (src/src/validator.rs): coercion of request
    payloads, of query strings and of headers against a schema definition.
    [chrono]'s [Duration::milliseconds] can panic, so the coercers return an
    [outcome]; the recursion through nested schemas has fuel, and
    [coerce_fuel] shows that the depth guard stops it first. *)
From stdpp Require Import base list strings gmap sets.
From Stdlib Require Import ZArith Lia.
From S2P Require Import Prelude RustStr F64 Errors Ast IndexMap Foreign QueryTypes Value Schemas.

Section Validator.
Context `{E : Ext}.

Definition MAX_DEPTH : nat := 20.

Definition error_422 (msg : string) : MarretaError :=
  HttpResponse 422 (json_show (JObject [("error", JString msg)])) "application/json" [] true.

(** ["city"] under the empty prefix, ["billing.city"] under ["billing"]. *)
Definition field_path (prefix name : string) : string :=
  if String.eqb prefix EmptyString then name else prefix +:+ "." +:+ name.

Definition Coerced : Type := outcome MarretaError Value.
Definition fail_422 {A} (msg : string) : outcome MarretaError A := Fails (error_422 msg).

(** * Scalars *)

Definition expect_direct_type (val : Value) (expected : SchemaType) (path : string) : Coerced :=
  let ok := match val, expected with
            | VString _, StringType | VInteger _, IntegerType | VFloat _, FloatType
            | VBoolean _, BooleanType | VList _, ListType | VMap _, MapType => true
            | _, _ => false
            end in
  if ok then Done val
  else fail_422 ("field '" +:+ path +:+ "' expected " +:+ show_schema_type expected
                 +:+ ", got " +:+ type_name val).

Definition coerce_enum (val : Value) (values : list string) (path : string) : Coerced :=
  match val with
  | VString s =>
      if existsb (fun value => String.eqb value s) values then Done val
      else fail_422 ("field '" +:+ path +:+ "' expected one of [" +:+ join ", " values
                     +:+ "], got '" +:+ s +:+ "'")
  | _ => fail_422 ("field '" +:+ path +:+ "' expected enum string, got " +:+ type_name val)
  end.

Definition coerce_decimal (val : Value) (path : string) : Coerced :=
  match val with
  | VDecimal _ => Done val
  | VInteger n => Done (VDecimal (dec_of_Z n))
  | VString s =>
      if negb (str_has "e" s) && negb (str_has "E" s) then
        match dec_parse s with
        | Some d => Done (VDecimal d)
        | None => fail_422 ("field '" +:+ path +:+ "' expected decimal string")
        end
      else fail_422 ("field '" +:+ path
                     +:+ "' expected plain decimal string, got scientific notation")
  | _ => fail_422 ("field '" +:+ path +:+ "' expected decimal, got " +:+ type_name val)
  end.

Definition coerce_instant (val : Value) (path : string) : Coerced :=
  match val with
  | VInstant _ => Done val
  | VString s => match instant_parse s with
                 | Some dt => Done (VInstant dt)
                 | None => fail_422 ("field '" +:+ path +:+ "' expected instant RFC3339 string")
                 end
  | _ => fail_422 ("field '" +:+ path +:+ "' expected instant, got " +:+ type_name val)
  end.

Definition coerce_date (val : Value) (path : string) : Coerced :=
  match val with
  | VDate _ => Done val
  | VString s => match date_parse s with
                 | Some d => Done (VDate d)
                 | None => fail_422 ("field '" +:+ path +:+ "' expected date YYYY-MM-DD string")
                 end
  | _ => fail_422 ("field '" +:+ path +:+ "' expected date, got " +:+ type_name val)
  end.

Definition coerce_time (val : Value) (path : string) : Coerced :=
  match val with
  | VTime _ => Done val
  | VString s => match time_parse s with
                 | Some t => Done (VTime t)
                 | None => fail_422 ("field '" +:+ path +:+ "' expected time HH:MM:SS string")
                 end
  | _ => fail_422 ("field '" +:+ path +:+ "' expected time, got " +:+ type_name val)
  end.

(** [ChronoDuration::milliseconds]. *)
Definition milliseconds {Err} (ms : Z) : outcome Err duration :=
  match duration_milliseconds ms with Some d => Done d | None => Panics end.

Definition parse_duration_string (input : string) : outcome unit duration :=
  match strip_prefix "PT" input ≫= strip_suffix "S" with
  | None => Fails tt
  | Some s =>
      match parse_f64 s with
      | None => Fails tt
      | Some seconds => milliseconds (f64_to_i64 (f64_round (f64_mul seconds (f64_of_Z 1000))))
      end
  end.

Definition coerce_duration (val : Value) (path : string) : Coerced :=
  match val with
  | VDuration _ => Done val
  | VInteger ms => d ← milliseconds ms; Done (VDuration d)
  | VFloat ms => d ← milliseconds (f64_to_i64 ms); Done (VDuration d)
  | VString s => match parse_duration_string s with
                 | Done d => Done (VDuration d)
                 | Fails _ => fail_422 ("field '" +:+ path
                                        +:+ "' expected duration string like PT3600S")
                 | Panics => Panics
                 | NoFuel => NoFuel
                 end
  | _ => fail_422 ("field '" +:+ path +:+ "' expected duration, got " +:+ type_name val)
  end.

Definition coerce_temporal_component (val : Value) (path : string)
  : result MarretaError TemporalValue :=
  match val with
  | VInstant dt => Ok (TVInstant dt)
  | VDate d => Ok (TVDate d)
  | VTime t => Ok (TVTime t)
  | VString s =>
      match instant_parse s with
      | Some dt => Ok (TVInstant dt)
      | None => match date_parse s with
                | Some d => Ok (TVDate d)
                | None => match time_parse s with
                          | Some t => Ok (TVTime t)
                          | None => Err (error_422 ("field '" +:+ path
                                                    +:+ "' expected temporal string"))
                          end
                end
      end
  | _ => Err (error_422 ("field '" +:+ path +:+ "' expected temporal value, got "
                         +:+ type_name val))
  end.

Definition ensure_same_temporal_component_kind (start stop : TemporalValue) (path : string)
  : result MarretaError unit :=
  match start, stop with
  | TVInstant _, TVInstant _ | TVDate _, TVDate _ | TVTime _, TVTime _ => Ok tt
  | _, _ => Err (error_422 ("field '" +:+ path
              +:+ "' interval start and end must share the same temporal type"))
  end.

Definition coerce_interval (val : Value) (path : string) : Coerced :=
  match val with
  | VInterval _ => Done val
  | VMap m =>
      of_result (
        start ← ok_or (IM.get "start" m) (error_422 ("field '" +:+ path +:+ ".start' is required"));
        stop ← ok_or (IM.get "end" m) (error_422 ("field '" +:+ path +:+ ".end' is required"));
        start ← coerce_temporal_component start (path +:+ ".start");
        stop ← coerce_temporal_component stop (path +:+ ".end");
        _ ← ensure_same_temporal_component_kind start stop path;
        Ok (VInterval (mkTemporalInterval start stop)))
  | _ => fail_422 ("field '" +:+ path +:+ "' expected interval object, got " +:+ type_name val)
  end.

(** * Payloads *)

Section Payload.
Variable schemas : gmap string SchemaDefinition.

(** The recursive call of a nested schema: payload, schema, path, depth, and
    the names of the schemas being validated. *)
Definition Recursive : Type :=
  Value -> SchemaDefinition -> string -> nat -> list string -> Coerced.

Fixpoint coerce_field_type (coerce_recursive : Recursive) (val : Value) (expected : SchemaType)
    (path : string) (depth : nat) (on_path : list string) {struct expected} : Coerced :=
  match expected with
  | StringType | IntegerType | FloatType | BooleanType | ListType | MapType =>
      expect_direct_type val expected path
  | DecimalType => coerce_decimal val path
  | InstantType => coerce_instant val path
  | DateType => coerce_date val path
  | TimeType => coerce_time val path
  | DurationType => coerce_duration val path
  | IntervalType => coerce_interval val path
  | EnumType values => coerce_enum val values path
  | Reference schema_name =>
      match schemas !! schema_name with
      | Some nested_schema =>
          if is_persistent nested_schema then Done val
          else if existsb (fun name => String.eqb name schema_name) on_path then
            fail_422 ("field '" +:+ path +:+ "' forms an infinite schema reference cycle via '"
                      +:+ schema_name +:+ "'")
          else coerce_recursive val nested_schema path (S depth) (on_path ++ [schema_name])
      | None =>
          if existsb (fun name => String.eqb name schema_name) on_path then
            fail_422 ("field '" +:+ path +:+ "' forms an infinite schema reference cycle via '"
                      +:+ schema_name +:+ "'")
          else fail_422 ("field '" +:+ path +:+ "' references unknown schema '"
                         +:+ schema_name +:+ "'")
      end
  | TypedList inner =>
      match val with
      | VList items =>
          out ← collect_outcome (fun ie =>
                  coerce_field_type coerce_recursive (snd ie) inner
                    (path +:+ "[" +:+ show_nat (fst ie) +:+ "]") depth on_path)
                (enumerate items);
          Done (VList out)
      | _ => fail_422 ("field '" +:+ path +:+ "' expected array, got " +:+ type_name val)
      end
  end.

(** The loop over the fields of the schema: [m] is the payload, [out] the copy
    being coerced. *)
Fixpoint coerce_fields (coerce_recursive : Recursive) (fields : list SchemaField)
    (m out : list (string * Value)) (path_prefix : string) (depth : nat)
    (on_path : list string) : outcome MarretaError (list (string * Value)) :=
  match fields with
  | [] => Done out
  | field :: fields =>
      let path := field_path path_prefix (sf_name field) in
      let continue out := coerce_fields coerce_recursive fields m out path_prefix depth on_path in
      match IM.get (sf_name field) m with
      | None =>
          if optional field then continue out
          else fail_422 ("field '" +:+ path +:+ "' is required")
      | Some VNull =>
          if optional field then continue (IM.insert (sf_name field) VNull out)
          else fail_422 ("field '" +:+ path +:+ "' is required (got null)")
      | Some val =>
          coerced ← coerce_field_type coerce_recursive val (field_type field) path depth on_path;
          continue (IM.insert (sf_name field) coerced out)
      end
  end.

(** The check of a null payload. *)
Fixpoint null_payload (fields : list SchemaField) (path_prefix : string) : Coerced :=
  match fields with
  | [] => Done VNull
  | field :: fields =>
      if optional field then null_payload fields path_prefix
      else fail_422 ("field '" +:+ field_path path_prefix (sf_name field)
                     +:+ "' is required but payload is null or missing")
  end.

Fixpoint coerce_recursive (fuel : nat) : Recursive :=
  fun payload schema path_prefix depth on_path =>
  match fuel with
  | 0 => NoFuel
  | S fuel =>
      if MAX_DEPTH <? depth then fail_422 "schema validation exceeded maximum nesting depth"
      else
        match payload with
        | VMap m =>
            out ← coerce_fields (coerce_recursive fuel) (sd_fields schema) m m
                    path_prefix depth on_path;
            Done (VMap out)
        | VNull => null_payload (sd_fields schema) path_prefix
        | _ => fail_422 "payload must be a JSON object"
        end
  end.

Definition coerce_payload (payload : Value) (schema : SchemaDefinition) : Coerced :=
  coerce_recursive (S (S MAX_DEPTH)) payload schema EmptyString 0 [].

Definition validate_payload (payload : Value) (schema : SchemaDefinition)
  : outcome MarretaError unit :=
  _ ← coerce_payload payload schema; Done tt.

End Payload.

(** * Query strings and headers *)

Definition canonical_header_key (name : string) : string :=
  replace_char "-" "_" (to_ascii_lowercase name).

Definition coerce_scalar_string (s : string) (ty : SchemaType) (path : string) : Coerced :=
  match ty with
  | StringType => Done (VString s)
  | IntegerType =>
      match parse_i64 s with
      | Some n => Done (VInteger n)
      | None => fail_422 ("field '" +:+ path +:+ "' must be an integer, got '" +:+ s +:+ "'")
      end
  | FloatType =>
      match parse_f64 s with
      | Some x => Done (VFloat x)
      | None => fail_422 ("field '" +:+ path +:+ "' must be a number, got '" +:+ s +:+ "'")
      end
  | BooleanType =>
      if String.eqb s "true" then Done (VBoolean true)
      else if String.eqb s "false" then Done (VBoolean false)
      else fail_422 ("field '" +:+ path +:+ "' must be true or false, got '" +:+ s +:+ "'")
  | DecimalType => coerce_decimal (VString s) path
  | InstantType => coerce_instant (VString s) path
  | DateType => coerce_date (VString s) path
  | TimeType => coerce_time (VString s) path
  | DurationType => coerce_duration (VString s) path
  | IntervalType => coerce_interval (VString s) path
  | EnumType values => coerce_enum (VString s) values path
  | Reference _ | TypedList _ | ListType | MapType =>
      fail_422 ("field '" +:+ path +:+ "' has a type that cannot be read from query or headers")
  end.

(** One field of [coerce_scalar_input]: [None] leaves the field out. *)
Definition coerce_scalar_field (field : SchemaField) (present : list string)
  : outcome MarretaError (option Value) :=
  let missing := if optional field then Done None
                 else fail_422 ("field '" +:+ sf_name field +:+ "' is required") in
  match field_type field with
  | TypedList inner =>
      match present with
      | [] => missing
      | _ => items ← collect_outcome (fun s => coerce_scalar_string s inner (sf_name field)) present;
             Done (Some (VList items))
      end
  | ListType =>
      match present with
      | [] => missing
      | _ => Done (Some (VList (map VString present)))
      end
  | scalar =>
      match present with
      | [] => missing
      | s :: _ => v ← coerce_scalar_string s scalar (sf_name field); Done (Some v)
      end
  end.

Section ScalarInput.
Context `{HashOrder}.

(** The inputs, keyed by canonical names for headers; when two names collide
    the one iterated last wins. *)
Definition normalized (inputs : gmap string (list string)) (header_names : bool)
  : gmap string (list string) :=
  if header_names
  then fold_left (fun m kv => <[canonical_header_key (fst kv) := snd kv]> m) (entries inputs) ∅
  else inputs.

Definition present_values (inputs : gmap string (list string)) (header_names : bool)
    (name : string) : list string :=
  let key := if header_names then canonical_header_key name else name in
  match normalized inputs header_names !! key with
  | Some vals => List.filter (fun s => negb (String.eqb s EmptyString)) vals
  | None => []
  end.

Fixpoint coerce_scalar_fields (inputs : gmap string (list string)) (header_names : bool)
    (fields : list SchemaField) (out : list (string * Value))
  : outcome MarretaError (list (string * Value)) :=
  match fields with
  | [] => Done out
  | field :: fields =>
      v ← coerce_scalar_field field (present_values inputs header_names (sf_name field));
      coerce_scalar_fields inputs header_names fields
        (match v with Some v => IM.insert (sf_name field) v out | None => out end)
  end.

Definition coerce_scalar_input (inputs : gmap string (list string)) (schema : SchemaDefinition)
    (header_names : bool) : Coerced :=
  out ← coerce_scalar_fields inputs header_names (sd_fields schema) [];
  Done (VMap out).

End ScalarInput.

Definition is_scalar_type (t : SchemaType) : bool :=
  match t with
  | StringType | IntegerType | FloatType | DecimalType | BooleanType | InstantType | DateType
  | TimeType | DurationType | IntervalType | EnumType _ => true
  | ListType | MapType | Reference _ | TypedList _ => false
  end.

Definition first_non_flat_field (schema : SchemaDefinition) : option string :=
  sf_name <$> find (fun field => match field_type field with
                                 | ListType => false
                                 | t => if is_scalar_type t then false
                                        else match t with
                                             | TypedList inner => negb (is_scalar_type inner)
                                             | _ => true
                                             end
                                 end) (sd_fields schema).

End Validator.
