(* ===== verification/ValidatorFacts.v ===== *)
(** Theorems on the payload validator: what it accepts conforms to the schema,
    conforming payloads pass unchanged, undeclared fields are kept, every
    rejection is a 422, and the recursion ends. *)
From stdpp Require Import base list strings gmap sets relations.
From Stdlib Require Import ZArith Lia.
From S2P Require Import Prelude RustStr F64 Errors Ast IndexMap Foreign QueryTypes Value Schemas SchemaCycle Validator.

(** * Conformance *)

Section Conforms.
Context `{E : Ext}.
Variable schemas : gmap string SchemaDefinition.

(** A value that has a scalar or untyped container type. *)
Definition direct_ok (t : SchemaType) (v : Value) : bool :=
  match t, v with
  | StringType, VString _ | IntegerType, VInteger _ | FloatType, VFloat _
  | DecimalType, VDecimal _ | BooleanType, VBoolean _ | InstantType, VInstant _
  | DateType, VDate _ | TimeType, VTime _ | DurationType, VDuration _
  | IntervalType, VInterval _ | ListType, VList _ | MapType, VMap _ => true
  | EnumType values, VString s => existsb (fun value => String.eqb value s) values
  | _, _ => false
  end.

(** [f] is the last declaration of its name: when a schema repeats a field, this
    one decides the type of the value. *)
Definition counts (s : SchemaDefinition) (f : SchemaField) : Prop :=
  exists before after, sd_fields s = before ++ f :: after /\ sf_name f ∉ map sf_name after.

(** [has_type n t v]: the value [v] has the type [t], with at most [n] nested
    value schemas; [conforms n schema v]: it is a payload of [schema]. *)
Inductive has_type : nat -> SchemaType -> Value -> Prop :=
| has_direct n t v : direct_ok t v = true -> has_type n t v
| has_relation n name s v :
    schemas !! name = Some s -> is_persistent s = true -> has_type n (Reference name) v
| has_nested n name s v :
    schemas !! name = Some s -> is_persistent s = false -> conforms n s v ->
    has_type (S n) (Reference name) v
| has_list n inner items :
    (forall v, v ∈ items -> has_type n inner v) -> has_type n (TypedList inner) (VList items)
with conforms : nat -> SchemaDefinition -> Value -> Prop :=
| conforms_null n s : (forall f, f ∈ sd_fields s -> optional f = true) -> conforms n s VNull
| conforms_map n s m :
    (forall f v, counts s f -> IM.get (sf_name f) m = Some v -> v <> VNull ->
       has_type n (field_type f) v) ->
    (forall f, f ∈ sd_fields s -> optional f = false ->
       exists v, IM.get (sf_name f) m = Some v /\ v <> VNull) ->
    conforms n s (VMap m).

(** The fields of a schema have distinct names. *)
Definition distinct_fields (s : SchemaDefinition) : Prop := NoDup (map sf_name (sd_fields s)).

Lemma counts_field s f : counts s f -> f ∈ sd_fields s.
Proof. intros (before & after & -> & _). apply elem_of_app. right. by left. Qed.

(** In a schema without repeated fields every declaration counts. *)
Lemma counts_distinct s f : distinct_fields s -> f ∈ sd_fields s -> counts s f.
Proof.
  intros Hd (before & after & Hs)%list_elem_of_split. exists before, after. split; [done |].
  unfold distinct_fields in Hd. rewrite Hs, map_app in Hd.
  apply NoDup_app in Hd as (_ & _ & Hd). cbn in Hd. by apply NoDup_cons in Hd as [? _].
Qed.

(** * Every outcome is a value, a 422, or the panic of a duration *)

(** The parts of a payload that the validator can reach. *)
Inductive part_of : Value -> Value -> Prop :=
| part_whole v : part_of v v
| part_item v x items : x ∈ items -> part_of v x -> part_of v (VList items)
| part_entry v x name m : (name, x) ∈ m -> part_of v x -> part_of v (VMap m).

Lemma part_of_trans a b c : part_of a b -> part_of b c -> part_of a c.
Proof. intros Hab. induction 1; [done | eapply part_item; eauto | eapply part_entry; eauto]. Qed.

(** Some part of the payload, read as a duration, is out of range. *)
Definition hazard (v : Value) : Prop :=
  exists part path, part_of part v /\ coerce_duration part path = Panics.

Lemma hazard_part a b : part_of a b -> hazard a -> hazard b.
Proof. intros Hab (v & path & Hv & Hp). exists v, path. split; [by eapply part_of_trans | done]. Qed.

Lemma elem_of_enumerate {A} n i (x : A) l : (i, x) ∈ enumerate_from n l -> x ∈ l.
Proof.
  intros [k Hk]%list_elem_of_lookup. rewrite enumerate_from_lookup in Hk.
  destruct (l !! k) as [y|] eqn:Hy; [| done]. injection Hk as _ <-. by eapply list_elem_of_lookup_2.
Qed.

(** An outcome whose errors are 422s and that panics only if [panic]. *)
Definition benign {A} (panic : Prop) (x : outcome MarretaError A) : Prop :=
  match x with
  | Done _ => True
  | Fails e => exists msg, e = error_422 msg
  | Panics => panic
  | NoFuel => False
  end.

Lemma benign_422 {A} P msg : benign P (fail_422 (A := A) msg).
Proof. by exists msg. Qed.

Lemma benign_weaken {A} (P Q : Prop) (x : outcome MarretaError A) :
  (P -> Q) -> benign P x -> benign Q x.
Proof. destruct x; cbn; auto. Qed.

Lemma benign_bind {A B} P (x : outcome MarretaError A) (k : A -> outcome MarretaError B) :
  benign P x -> (forall a, x = Done a -> benign P (k a)) -> benign P (x ≫= k).
Proof. destruct x; cbn; auto. Qed.

Hint Resolve benign_422 : marreta.

Lemma benign_collect {A B} P (f : A -> outcome MarretaError B) l :
  (forall x, x ∈ l -> benign P (f x)) -> benign P (collect_outcome f l).
Proof.
  intros Hf. destruct (collect_outcome_stops f l) as [[ys ->] | (x & Hx & Hl)]; [done |].
  specialize (Hf x Hx). destruct (f x); [done | by rewrite Hl..].
Qed.

Ltac split_matches :=
  repeat match goal with
  | |- benign _ (match ?x with _ => _ end) => destruct x eqn:?
  end; try exact I; auto with marreta.

Lemma benign_duration v path : benign (hazard v) (coerce_duration v path).
Proof.
  destruct (coerce_duration v path) as [d | e | |] eqn:Hd; cbn; [done | | | ].
  - destruct v; cbn in Hd; unfold milliseconds in Hd; try (injection Hd as <-; by eexists);
      try (destruct (duration_milliseconds _); discriminate); try discriminate.
    destruct (parse_duration_string _); try discriminate. injection Hd as <-. by eexists.
  - exists v, path. split; [constructor | done].
  - destruct v; cbn in Hd; unfold milliseconds in Hd; try discriminate;
      try (destruct (duration_milliseconds _); discriminate).
    destruct (parse_duration_string _) eqn:Hs; try discriminate.
    unfold parse_duration_string, milliseconds in Hs. repeat case_in Hs; discriminate.
Qed.

Lemma temporal_component_422 v path e :
  coerce_temporal_component v path = Err e -> exists msg, e = error_422 msg.
Proof.
  intros H. destruct v; cbn in H; repeat case_in H; try discriminate; injection H as <-; eauto.
Qed.

Lemma benign_interval P v path : benign P (coerce_interval v path).
Proof.
  destruct v; try (by apply benign_422); [done |]. cbn.
  destruct (IM.get "start" m) as [a|]; cbn; [| by eexists].
  destruct (IM.get "end" m) as [b|]; cbn; [| by eexists].
  destruct (coerce_temporal_component a _) eqn:Ha; cbn; [| by eapply temporal_component_422].
  destruct (coerce_temporal_component b _) eqn:Hb; cbn; [| by eapply temporal_component_422].
  destruct a0, a1; cbn; try done; by eexists.
Qed.

Lemma benign_scalars P v path values :
  benign P (coerce_enum v values path) /\ benign P (coerce_decimal v path)
  /\ benign P (coerce_instant v path) /\ benign P (coerce_date v path) /\ benign P (coerce_time v path).
Proof.
  unfold coerce_enum, coerce_decimal, coerce_instant, coerce_date, coerce_time.
  split_and!; split_matches.
Qed.

Lemma benign_direct P v t path : benign P (expect_direct_type v t path).
Proof.
  unfold expect_direct_type. cbv zeta.
  match goal with |- benign _ (if ?b then _ else _) => destruct b end; [done | by eexists].
Qed.

Lemma benign_field (rec : Recursive) v t path depth on_path :
  (forall x s p o, part_of x v -> benign (hazard x) (rec x s p (S depth) o)) ->
  benign (hazard v) (coerce_field_type schemas rec v t path depth on_path).
Proof.
  revert v path. induction t; intros v path Hrec; cbn [coerce_field_type];
    try apply benign_direct; try apply benign_duration; try apply benign_interval;
    try (destruct (benign_scalars (hazard v) v path []) as (? & ? & ? & ? & ?); assumption).
  - destruct (benign_scalars (hazard v) v path values) as (? & _); assumption.
  - split_matches. apply Hrec. constructor.
  - destruct v; try (by apply benign_422).
    apply benign_bind; [| done]. apply benign_collect. intros [i x] Hx.
    assert (part_of x (VList items)) as Hin.
    { eapply part_item; [| constructor]. by eapply elem_of_enumerate. }
    cbn [fst snd].
    eapply benign_weaken; [by apply hazard_part |]. apply IHt.
    intros y s p o Hy. apply Hrec. by eapply part_of_trans.
Qed.

Lemma benign_fields (rec : Recursive) fields m out prefix depth on_path :
  (forall x s p o, part_of x (VMap m) -> benign (hazard x) (rec x s p (S depth) o)) ->
  benign (hazard (VMap m)) (coerce_fields schemas rec fields m out prefix depth on_path).
Proof.
  intros Hrec. revert out. induction fields as [|f fields IH]; intros out; cbn; [done |].
  destruct (IM.get _ m) as [v|] eqn:Hv; [| split_matches].
  assert (part_of v (VMap m)) as Hin.
  { eapply part_entry; [by apply IM.get_Some_elem_of | constructor]. }
  assert (Hfield : forall path, benign (hazard (VMap m))
    (coerce_field_type schemas rec v (field_type f) path depth on_path)).
  { intros path. eapply benign_weaken; [by apply hazard_part |]. apply benign_field.
    intros x s p o Hx. apply Hrec. by eapply part_of_trans. }
  destruct v; split_matches; (apply benign_bind; [apply Hfield | auto]).
Qed.

(** The depth guard stops the recursion before the fuel does. *)
Lemma coerce_fuel fuel v s prefix depth on_path :
  depth <= S MAX_DEPTH -> S MAX_DEPTH < fuel + depth ->
  benign (hazard v) (coerce_recursive schemas fuel v s prefix depth on_path).
Proof.
  revert v s prefix depth on_path. induction fuel as [|fuel IH]; intros v s prefix depth on_path;
    [lia |]. intros Hd Hf. cbn [coerce_recursive].
  destruct (Nat.ltb_spec MAX_DEPTH depth); [by apply benign_422 |].
  destruct v; try (by apply benign_422).
  - induction (sd_fields s) as [|f l IHl]; cbn; [done |].
    destruct (optional f); [done | by apply benign_422].
  - apply benign_bind; [| done]. apply benign_fields. intros. apply IH; lia.
Qed.

End Conforms.

(** C27: validating a payload always ends, with the coerced payload or with a
    rejection that has status 422.  The one panic is that of a part of the
    payload that is out of range as a duration.  The recursion through nested
    schemas never runs away. *)
Theorem coerce_payload_outcome `{E : Ext} schemas payload schema :
  match coerce_payload schemas payload schema with
  | Done _ => True
  | Fails e => exists body, e = HttpResponse 422 body "application/json" [] true
  | Panics => exists part path, part_of part payload /\ coerce_duration part path = Panics
  | NoFuel => False
  end.
Proof.
  pose proof (coerce_fuel schemas (S (S MAX_DEPTH)) payload schema EmptyString 0 []) as H.
  specialize (H ltac:(lia) ltac:(lia)).
  unfold coerce_payload. destruct (coerce_recursive _ _ _ _ _ _ _); try done.
  destruct H as [msg ->]. by eexists.
Qed.

(** * What the coercion returns *)

Section Sound.
Context `{E : Ext}.
Variable schemas : gmap string SchemaDefinition.

(** The value the loop leaves in a field. *)
Definition coerced_field (rec : Recursive) (m out : list (string * Value)) prefix depth on_path
    (f : SchemaField) : Prop :=
  match IM.get (sf_name f) m with
  | None => optional f = true /\ IM.get (sf_name f) out = None
  | Some VNull => optional f = true /\ IM.get (sf_name f) out = Some VNull
  | Some v => exists w, IM.get (sf_name f) out = Some w /\
      coerce_field_type schemas rec v (field_type f) (field_path prefix (sf_name f)) depth on_path
      = Done w
  end.

Lemma coerce_fields_cons rec f fields m out prefix depth on_path out' :
  coerce_fields schemas rec (f :: fields) m out prefix depth on_path = Done out' ->
  exists out1,
    coerce_fields schemas rec fields m out1 prefix depth on_path = Done out' /\
    ((IM.get (sf_name f) m = None <-> IM.get (sf_name f) out = None) -> coerced_field rec m out1 prefix depth on_path f) /\
    (forall k, k <> sf_name f -> IM.get k out1 = IM.get k out) /\
    (is_Some (IM.get (sf_name f) m) -> sf_name f ∈ IM.keys out -> IM.keys out1 = IM.keys out) /\
    (IM.get (sf_name f) m = None -> IM.keys out1 = IM.keys out).
Proof.
  cbn [coerce_fields]. unfold coerced_field.
  destruct (IM.get (sf_name f) m) as [v|] eqn:Hget.
  - assert (Hins : forall w, (forall k, k <> sf_name f ->
        IM.get k (IM.insert (sf_name f) w out) = IM.get k out) /\
      (is_Some (Some v) -> sf_name f ∈ IM.keys out ->
        IM.keys (IM.insert (sf_name f) w out) = IM.keys out) /\
      (Some v = None -> IM.keys (IM.insert (sf_name f) w out) = IM.keys out)).
    { intros w. split_and!; [intros k Hk; by apply IM.get_insert_ne | | done].
      intros _ Hk. rewrite IM.keys_insert. by rewrite decide_True. }
    destruct v; try (intros (w & Hw & Hrest)%bind_Done; eexists; split; [exact Hrest |];
      split; [intros _; exists w; by rewrite IM.get_insert_eq | apply Hins]).
    destruct (optional f); [| done]. intros Hrest. eexists; split; [exact Hrest |].
    split; [intros _; by rewrite IM.get_insert_eq | apply Hins].
  - destruct (optional f); [| done]. intros Hrest. exists out. split_and!; try done.
    intros [Hnone _]. split; [done | by apply Hnone].
Qed.

Lemma coerce_fields_required rec fields m out prefix depth on_path out' :
  coerce_fields schemas rec fields m out prefix depth on_path = Done out' ->
  forall f, f ∈ fields -> optional f = false -> exists v, IM.get (sf_name f) m = Some v /\ v <> VNull.
Proof.
  revert out. induction fields as [|f fields IH]; intros out Hrun g Hg Hreq; [by inversion Hg |].
  apply elem_of_cons in Hg as [-> | Hg].
  - cbn [coerce_fields] in Hrun. rewrite Hreq in Hrun.
    destruct (IM.get (sf_name f) m) as [v|]; [| done].
    exists v. split; [done |]. by intros ->.
  - apply coerce_fields_cons in Hrun as (out1 & Hrun & _). by apply (IH out1 Hrun).
Qed.

(** Declared fields are coerced, each as its last declaration has it, the
    others are untouched, and the keys keep their order. *)
Lemma coerce_fields_Done rec fields m out prefix depth on_path out' :
  (forall f, f ∈ fields -> IM.get (sf_name f) m = None <-> IM.get (sf_name f) out = None) ->
  coerce_fields schemas rec fields m out prefix depth on_path = Done out' ->
  (forall before f after, fields = before ++ f :: after -> sf_name f ∉ map sf_name after ->
     coerced_field rec m out' prefix depth on_path f) /\
  (forall k, k ∉ map sf_name fields -> IM.get k out' = IM.get k out) /\
  IM.keys out' = IM.keys out.
Proof.
  revert out. induction fields as [|f fields IH]; intros out Hsame Hrun.
  - injection Hrun as <-. split_and!; [| done..]. by intros [].
  - apply coerce_fields_cons in Hrun as (out1 & Hrun & Hfield & Hother & Hkeys & Hkeys').
    pose proof (Hsame f ltac:(by left)) as Hg. specialize (Hfield Hg).
    assert (Hf1 : IM.get (sf_name f) m = None <-> IM.get (sf_name f) out1 = None).
    { unfold coerced_field in Hfield. destruct (IM.get (sf_name f) m) as [[]|]; naive_solver congruence. }
    assert (Hk1 : IM.keys out1 = IM.keys out).
    { destruct (IM.get (sf_name f) m) eqn:Hm; [| by apply Hkeys'].
      apply Hkeys; [by eexists |]. apply IM.get_is_Some.
      destruct (IM.get (sf_name f) out) eqn:Ho; [by eexists | by pose proof (proj2 Hg eq_refl)]. }
    apply IH in Hrun as (Hall & Hrest & Hk).
    + split_and!; [| | congruence].
      * intros [|f' before] g after [= <- Hfs] Hlast; [| by eapply Hall].
        subst after. unfold coerced_field in *. by rewrite (Hrest (sf_name f) Hlast).
      * intros k Hk'. cbn [map] in Hk'. rewrite Hrest, Hother; set_solver.
    + intros g Hg'. destruct (decide (sf_name g = sf_name f)) as [-> | Hne]; [done |].
      rewrite Hother by done. apply Hsame. by right.
Qed.

Lemma expect_direct_Done v t path w :
  expect_direct_type v t path = Done w -> w = v /\ direct_ok t v = true.
Proof.
  unfold expect_direct_type. cbv zeta. intros H.
  destruct v, t; cbn in H; try done; by injection H as <-.
Qed.

(** The temporal coercers and [coerce_decimal] return a value of their type. *)
Lemma coerce_scalar_Done t v path w :
  (match t with
   | DecimalType => coerce_decimal v path
   | InstantType => coerce_instant v path
   | DateType => coerce_date v path
   | TimeType => coerce_time v path
   | DurationType => coerce_duration v path
   | IntervalType => coerce_interval v path
   | EnumType values => coerce_enum v values path
   | _ => expect_direct_type v t path
   end) = Done w -> direct_ok t w = true.
Proof.
  destruct t; try (by intros [-> ?]%expect_direct_Done);
    unfold coerce_decimal, coerce_instant, coerce_date, coerce_time, coerce_enum, fail_422;
    intros H.
  - destruct v; try discriminate; repeat case_in H; try discriminate; by injection H as <-.
  - destruct v; try discriminate; repeat case_in H; try discriminate; by injection H as <-.
  - destruct v; try discriminate; repeat case_in H; try discriminate; by injection H as <-.
  - destruct v; try discriminate; repeat case_in H; try discriminate; by injection H as <-.
  - destruct v; cbn [coerce_duration] in H; try discriminate;
      try (apply bind_Done in H as (? & _ & [= <-]); done); [| by injection H as <-].
    case_in H; try discriminate. by injection H as <-.
  - destruct v; cbn [coerce_interval] in H; try discriminate; [by injection H as <- |].
    apply of_result_Done in H. inv_ok. done.
  - destruct v; try discriminate; repeat case_in H; try discriminate; by injection H as <-.
Qed.

Lemma coerce_field_sound (rec : Recursive) n depth :
  (forall v s name p o w, schemas !! name = Some s -> rec v s p (S depth) o = Done w ->
     exists n', n = S n' /\ conforms schemas n' s w /\ (w = VNull -> v = VNull)) ->
  forall t v path on_path w, coerce_field_type schemas rec v t path depth on_path = Done w ->
    has_type schemas n t w /\ (w = VNull -> v = VNull).
Proof.
  intros Hrec t. induction t; intros v path on_path w H; cbn [coerce_field_type] in H;
    try (match goal with |- has_type _ _ ?t _ /\ _ =>
           pose proof (coerce_scalar_Done t v path w H) as Hd end;
         split; [by apply has_direct | intros ->; discriminate Hd]).
  - destruct (schemas !! name) as [s|] eqn:Hs; [| case_in H; discriminate].
    destruct (is_persistent s) eqn:Hp.
    { injection H as <-. split; [by eapply has_relation | done]. }
    case_in H; [discriminate |].
    eapply Hrec in H as (n' & -> & Hw & Hnull); [| done].
    split; [by eapply has_nested | done].
  - destruct v; try discriminate. apply bind_Done in H as (out & Hout & [= <-]).
    split; [| done]. apply has_list. intros w Hw. apply collect_outcome_Done in Hout.
    apply list_elem_of_lookup in Hw as [i Hi].
    eapply Forall2_lookup_r in Hout as ([j x] & Hj & Hx); [| exact Hi].
    by apply IHt in Hx as [? _].
Qed.

Lemma last_declaration name fields :
  name ∈ map sf_name fields ->
  exists before g after, fields = before ++ g :: after /\ sf_name g = name /\ name ∉ map sf_name after.
Proof.
  induction fields as [|f fields IH]; intros H; [by inversion H |].
  destruct (decide (name ∈ map sf_name fields)) as [Hin | Hout].
  - destruct (IH Hin) as (before & g & after & -> & ?). by exists (f :: before), g, after.
  - exists [], f, fields. apply elem_of_cons in H as [-> |]; done.
Qed.

Lemma null_payload_Done fields prefix w :
  null_payload fields prefix = Done w ->
  w = VNull /\ forall f, f ∈ fields -> optional f = true.
Proof.
  induction fields as [|f fields IH]; cbn.
  - intros [= <-]. split; [done |]. intros f Hf. by inversion Hf.
  - destruct (optional f) eqn:Hf; [| done]. intros [-> Hall]%IH. split; [done |].
    intros g [-> | Hg]%elem_of_cons; auto.
Qed.

Lemma coerce_recursive_sound fuel v s prefix depth on_path w :
  coerce_recursive schemas fuel v s prefix depth on_path = Done w ->
  depth <= MAX_DEPTH /\ conforms schemas (MAX_DEPTH - depth) s w /\ (w = VNull -> v = VNull).
Proof.
  revert v s prefix depth on_path w.
  induction fuel as [|fuel IH]; intros v s prefix depth on_path w H; [done |].
  cbn [coerce_recursive] in H. destruct (Nat.ltb_spec MAX_DEPTH depth); [done |].
  split; [lia |]. destruct v; try discriminate H.
  - apply null_payload_Done in H as [-> Hopt]. split; [by apply conforms_null | done].
  - apply bind_Done in H as (out & Hout & [= <-]). split; [| done].
    pose proof (coerce_fields_required _ _ _ _ _ _ _ _ Hout) as Hrequired.
    apply coerce_fields_Done in Hout as (Hfields & _ & _); [| done].
    assert (Hrec : forall v s name p o w, schemas !! name = Some s ->
        coerce_recursive schemas fuel v s p (S depth) o = Done w ->
        exists n', MAX_DEPTH - depth = S n' /\ conforms schemas n' s w /\ (w = VNull -> v = VNull)).
    { intros v' s' name p o w' Hname (Hd & Hw & Hn)%IH.
      exists (MAX_DEPTH - S depth). split; [lia | done]. }
    constructor.
    + intros f x (before & after & Hf & Hlast) Hx Hnn. specialize (Hfields before f after Hf Hlast).
      unfold coerced_field in Hfields.
      rewrite Hx in Hfields. destruct (IM.get (sf_name f) m) as [y|]; [| naive_solver].
      destruct y; (destruct Hfields as (w & [= <-] & Hw) || naive_solver);
        by eapply coerce_field_sound in Hw as [? _].
    + intros f Hf Hreq. destruct (Hrequired f Hf Hreq) as (y & Hy & Hnn).
      destruct (last_declaration (sf_name f) (sd_fields s)) as (before & g & after & Hs & Hname & Hlast);
        [by apply list_elem_of_fmap_2 |].
      specialize (Hfields before g after Hs ltac:(by rewrite Hname)).
      unfold coerced_field in Hfields. rewrite Hname, Hy in Hfields.
      destruct y; try done; destruct Hfields as (w & Hout & Hw); exists w; (split; [done |]); intros ->;
        eapply coerce_field_sound in Hw as [_ Hw]; try exact Hrec; discriminate Hw; done.
Qed.

End Sound.

(** * Conforming payloads pass *)

Section Complete.
Context `{E : Ext}.
Variable schemas : gmap string SchemaDefinition.
Hypothesis acyclic : forall x, ~ tc (schema_embeds schemas) x x.
Hypothesis distinct : forall name s, schemas !! name = Some s -> distinct_fields s.

Definition value_schema (name : string) : Prop :=
  ~ (exists s, schemas !! name = Some s /\ is_persistent s = true).

Lemma collect_enumerate {A} (f : nat * A -> outcome MarretaError A) i items :
  (forall j x, x ∈ items -> f (j, x) = Done x) ->
  collect_outcome f (enumerate_from i items) = Done items.
Proof.
  revert i. induction items as [|x items IH]; intros i Hf; cbn; [done |].
  rewrite Hf by (by left). cbn. rewrite IH; [done |]. intros. apply Hf. by right.
Qed.

Lemma direct_complete t v path : direct_ok t v = true ->
  (match t with
   | DecimalType => coerce_decimal v path
   | InstantType => coerce_instant v path
   | DateType => coerce_date v path
   | TimeType => coerce_time v path
   | DurationType => coerce_duration v path
   | IntervalType => coerce_interval v path
   | EnumType values => coerce_enum v values path
   | _ => expect_direct_type v t path
   end) = Done v.
Proof. destruct t, v; cbn; try done. by intros ->. Qed.

(** The schemas on the path all embed what the current schema embeds. *)
Definition path_inv (on_path : list string) (t : SchemaType) : Prop :=
  forall x name, x ∈ on_path -> name ∈ collect_schema_type_refs t -> value_schema name ->
    tc (schema_embeds schemas) x name.

Lemma coerce_field_complete (rec : Recursive) n depth on_path :
  (forall v s name p n', n = S n' -> schemas !! name = Some s -> is_persistent s = false ->
     (forall x, x ∈ on_path -> tc (schema_embeds schemas) x name) ->
     conforms schemas n' s v -> rec v s p (S depth) (on_path ++ [name]) = Done v) ->
  forall t v path, path_inv on_path t -> has_type schemas n t v ->
    coerce_field_type schemas rec v t path depth on_path = Done v.
Proof.
  intros Hrec t. induction t as [| | | | | | | | | | | |values|name|t IH]; intros v path Hinv Hty;
    try (inversion Hty; subst; by apply (direct_complete _ v path) in H).
  - cbn [coerce_field_type]. inversion Hty as [? ? ? Hd|? ? s ? Hs Hp|n' ? s ? Hs Hp Hc|]; subst;
      [discriminate Hd | by rewrite Hs, Hp |].
    rewrite Hs, Hp.
    assert (Htc : forall x, x ∈ on_path -> tc (schema_embeds schemas) x name).
    { intros x Hx. apply Hinv; [done | by left |]. intros (s' & Hs' & Hp'). congruence. }
    destruct (existsb _ on_path) eqn:Hon; [| by eapply Hrec].
    apply existsb_exists in Hon as (x & Hx & ->%String.eqb_eq).
    exfalso. apply (acyclic name), Htc, list_elem_of_In, Hx.
  - cbn [coerce_field_type]. inversion Hty as [? ? ? Hd| | |? ? items Hitems]; subst;
      [destruct v; discriminate Hd |].
    rewrite collect_enumerate; [done |]. intros i x Hx. cbn. by apply IH, Hitems.
Qed.

Lemma coerce_fields_complete (rec : Recursive) fields m prefix depth on_path :
  (forall f, f ∈ fields ->
     (optional f = false -> exists v, IM.get (sf_name f) m = Some v /\ v <> VNull) /\
     (forall v path, IM.get (sf_name f) m = Some v -> v <> VNull ->
        coerce_field_type schemas rec v (field_type f) path depth on_path = Done v)) ->
  coerce_fields schemas rec fields m m prefix depth on_path = Done m.
Proof.
  induction fields as [|f fields IH]; intros Hall; cbn; [done |].
  destruct (Hall f ltac:(by left)) as [Hreq Hval].
  specialize (IH ltac:(intros; apply Hall; by right)).
  destruct (IM.get (sf_name f) m) as [v|] eqn:Hv.
  - pose proof (IM.insert_same _ _ _ Hv) as Hsame.
    destruct v; try (rewrite (Hval _ _ eq_refl) by done; cbn; by rewrite Hsame).
    destruct (optional f); [by rewrite Hsame |].
    destruct (Hreq eq_refl) as (? & [= <-] & ?). done.
  - destruct (optional f); [done |]. destruct (Hreq eq_refl) as (? & ? & ?). done.
Qed.

Lemma null_payload_complete fields prefix :
  (forall f, f ∈ fields -> optional f = true) -> null_payload fields prefix = Done VNull.
Proof.
  induction fields as [|f fields IH]; cbn; [done |]. intros Hall.
  rewrite Hall by (by left). apply IH. intros. apply Hall. by right.
Qed.

Lemma coerce_recursive_complete fuel n v s prefix depth on_path :
  depth + n <= MAX_DEPTH -> n < fuel -> distinct_fields s ->
  (forall f, f ∈ sd_fields s -> path_inv on_path (field_type f)) ->
  conforms schemas n s v ->
  coerce_recursive schemas fuel v s prefix depth on_path = Done v.
Proof.
  revert n v s prefix depth on_path.
  induction fuel as [|fuel IH]; intros n v s prefix depth on_path Hd Hfuel Hds Hinv Hc; [lia |].
  cbn [coerce_recursive]. destruct (Nat.ltb_spec MAX_DEPTH depth); [lia |].
  destruct Hc as [n s Hopt|n s m Hty Hreq]; [by apply null_payload_complete |].
  rewrite coerce_fields_complete; [done |].
  intros f Hf. split; [by apply Hreq |]. intros v path Hv Hnn.
  eapply coerce_field_complete; [| by apply Hinv | eapply Hty; [by apply counts_distinct | done | done]].
  intros v' s' name p n' -> Hs' Hp' Htc Hc'. apply (IH n'); [lia | lia | by eapply distinct | | done].
  intros g Hg x name' [Hx | ->%list_elem_of_singleton]%elem_of_app Hname' Hvs'.
  - eapply tc_r; [by apply Htc |]. split; [by exists s', g | done].
  - apply tc_once. split; [by exists s', g | done].
Qed.

End Complete.

Lemma coerce_payload_sound `{E : Ext} schemas payload schema v :
  coerce_payload schemas payload schema = Done v ->
  conforms schemas MAX_DEPTH schema v.
Proof.
  intros H. by apply coerce_recursive_sound in H as (_ & ? & _).
Qed.

Lemma coerce_payload_fuel `{E : Ext} schemas payload schema :
  coerce_payload schemas payload schema <> NoFuel.
Proof.
  pose proof (coerce_fuel schemas (S (S MAX_DEPTH)) payload schema EmptyString 0 []) as H.
  specialize (H ltac:(lia) ltac:(lia)).
  unfold coerce_payload. by destruct (coerce_recursive _ _ _ _ _ _ _).
Qed.

(** C10: the payload the validator returns conforms to the schema: required
    fields are there and not null, every declared field has its declared
    type, through lists and nested schemas, to a depth of at most twenty.  When
    a schema repeats a field name (nothing refuses such a schema, a finding),
    its last declaration is the one that gives the type, and the field is
    required if one of its declarations is. *)
Theorem coerce_payload_conforms `{E : Ext} schemas payload schema v :
  coerce_payload schemas payload schema = Done v ->
  conforms schemas MAX_DEPTH schema v.
Proof.
  apply coerce_payload_sound.
Qed.

(** In a project without circular schemas, the payloads the validator
    returns unchanged are exactly the conforming ones; so what it accepts once
    it accepts again, unchanged. *)
Theorem coerce_payload_fixpoints `{E : Ext} schemas schema v :
  (forall name s, schemas !! name = Some s -> distinct_fields s) -> distinct_fields schema ->
  (forall x, ~ tc (schema_embeds schemas) x x) ->
  (coerce_payload schemas v schema = Done v <-> conforms schemas MAX_DEPTH schema v) /\
  (forall p, coerce_payload schemas p schema = Done v -> coerce_payload schemas v schema = Done v).
Proof.
  intros Hs Hschema Hacyclic.
  assert (Hc : conforms schemas MAX_DEPTH schema v -> coerce_payload schemas v schema = Done v).
  { intros Hc. apply (coerce_recursive_complete schemas Hacyclic Hs _ MAX_DEPTH); [lia | lia | done | | done].
    intros f _ x name Hx. by inversion Hx. }
  split; [split; [| done] |]; [intros H | intros p H; apply Hc];
    by apply coerce_recursive_sound in H as (_ & ? & _).
Qed.

(** Coercion rewrites declared fields only: the payload keeps its keys in
    their order, and an undeclared field keeps its value. *)
Theorem coerce_payload_keeps_undeclared `{E : Ext} schemas schema m v :
  coerce_payload schemas (VMap m) schema = Done v ->
  exists out, v = VMap out /\ IM.keys out = IM.keys m /\
    forall k, k ∉ map sf_name (sd_fields schema) -> IM.get k out = IM.get k m.
Proof.
  intros H. apply bind_Done in H as (out & Hout & [= <-]). exists out. split; [done |].
  apply coerce_fields_Done in Hout as (_ & ? & ?); done.
Qed.

(** ** A concrete project *)

Definition demo_address : SchemaDefinition :=
  mkSchemaDefinition None [mkSchemaField "city" StringType false; mkSchemaField "zip" IntegerType true].
Definition demo_order : SchemaDefinition :=
  mkSchemaDefinition None
    [mkSchemaField "id" IntegerType false; mkSchemaField "total" DecimalType false;
     mkSchemaField "ship_to" (Reference "Address") false;
     mkSchemaField "tags" (TypedList StringType) true].
Definition demo_schemas : gmap string SchemaDefinition :=
  {[ "Address" := demo_address; "Order" := demo_order ]}.

Definition demo_payload (total : @Value demo_ext) : Value :=
  VMap [("note", VString "gift"); ("id", VInteger 7); ("total", total);
        ("ship_to", VMap [("city", VString "Natal")]); ("tags", VList [VString "a"])].

Lemma distinct_fields_dec s :
  bool_decide (NoDup (map sf_name (sd_fields s))) = true -> distinct_fields s.
Proof. apply bool_decide_eq_true_1. Qed.

Lemma demo_distinct name s : demo_schemas !! name = Some s -> distinct_fields s.
Proof.
  unfold demo_schemas. rewrite lookup_insert_Some, lookup_singleton_Some.
  intros [[_ <-] | [_ [_ <-]]]; by apply distinct_fields_dec.
Qed.

Lemma demo_acyclic x : ~ tc (schema_embeds demo_schemas) x x.
Proof.
  destruct (@detect_schema_cycle_spec sorted_order demo_schemas) as (r & Hr & Hspec).
  assert (r = Ok tt) as ->; [| by apply Hspec].
  assert (H : @detect_schema_cycle sorted_order demo_schemas = Some (Ok tt)) by (vm_compute; reflexivity).
  congruence.
Qed.

Lemma coerce_payload_conforms_witness :
  coerce_payload demo_schemas (demo_payload (VString "12")) demo_order
    = Done (demo_payload (VDecimal (dec_of_Z 12))) /\
  conforms demo_schemas MAX_DEPTH demo_order (demo_payload (VDecimal (dec_of_Z 12))).
Proof.
  assert (H : coerce_payload demo_schemas (demo_payload (VString "12")) demo_order
    = Done (demo_payload (VDecimal (dec_of_Z 12)))) by reflexivity.
  split; [exact H |].
  apply (coerce_payload_conforms demo_schemas (demo_payload (VString "12"))). exact H.
Defined.

(** A schema that declares [total] twice, as a decimal and as a string: both
    declarations are checked against the payload, and the value is the one of
    the second, which is not a decimal. *)
Lemma repeated_field_last_counts :
  let schema := mkSchemaDefinition None
    [mkSchemaField "total" DecimalType false; mkSchemaField "total" StringType false] in
  coerce_payload demo_schemas (VMap [("total", @VString demo_ext "12")]) schema
    = Done (VMap [("total", VString "12")]) /\
  ~ has_type demo_schemas MAX_DEPTH DecimalType (@VString demo_ext "12").
Proof.
  split; [reflexivity |]. intros H. inversion H as [? ? ? Hd| | |]; subst. discriminate Hd.
Qed.

Lemma coerce_payload_fixpoints_witness :
  coerce_payload demo_schemas (demo_payload (VDecimal (dec_of_Z 12))) demo_order
    = Done (demo_payload (VDecimal (dec_of_Z 12))).
Proof.
  apply (coerce_payload_fixpoints demo_schemas demo_order (demo_payload (VDecimal (dec_of_Z 12)))
           demo_distinct (demo_distinct "Order" demo_order eq_refl) demo_acyclic)
    with (p := demo_payload (VInteger 12)).
  reflexivity.
Defined.

Lemma coerce_payload_keeps_undeclared_witness :
  exists out, demo_payload (VDecimal (dec_of_Z 12)) = VMap out /\
    IM.keys out = ["note"; "id"; "total"; "ship_to"; "tags"] /\
    forall k, k ∉ ["id"; "total"; "ship_to"; "tags"] ->
      IM.get k out = IM.get k [("note", VString "gift"); ("id", VInteger 7); ("total", VInteger 12);
        ("ship_to", VMap [("city", VString "Natal")]); ("tags", VList [VString "a"])].
Proof.
  apply (coerce_payload_keeps_undeclared demo_schemas demo_order
    [("note", VString "gift"); ("id", VInteger 7); ("total", VInteger 12);
        ("ship_to", VMap [("city", VString "Natal")]); ("tags", VList [VString "a"])]
    (demo_payload (VDecimal (dec_of_Z 12)))).
  reflexivity.
Defined.

(** A duration of [i64::MIN] milliseconds, a valid JSON integer, panics. *)
Theorem coerce_duration_min_panics `{E : Ext, !ExtLaws E} path :
  coerce_duration (VInteger i64_min) path = Panics.
Proof.
  cbn [coerce_duration]. unfold milliseconds.
  assert (duration_milliseconds i64_min = None) as ->; [| done].
  by apply duration_milliseconds_spec.
Qed.

(** * Query strings and headers *)

Section Scalar.
Context `{E : Ext} `{HashOrder}.
Variable schemas : gmap string SchemaDefinition.

Lemma coerce_scalar_string_Done s t path v :
  coerce_scalar_string s t path = Done v -> direct_ok t v = true.
Proof.
  intros Hv. destruct t; cbn [coerce_scalar_string] in Hv;
    try (match goal with |- direct_ok ?t _ = true =>
           exact (coerce_scalar_Done t (VString s) path v Hv) end);
    try discriminate Hv; unfold fail_422 in Hv; repeat case_in Hv; try discriminate Hv;
    by injection Hv as <-.
Qed.

Lemma coerce_scalar_field_Done f present v :
  coerce_scalar_field f present = Done v ->
  match v with
  | None => optional f = true
  | Some v => has_type schemas 0 (field_type f) v /\ v <> VNull
  end.
Proof.
  unfold coerce_scalar_field, fail_422. intros Hv.
  assert (Hscalar : forall s t, direct_ok t VNull = false -> field_type f = t ->
    (w ← coerce_scalar_string s t (sf_name f); Done (Some w)) = Done v ->
    match v with
    | None => optional f = true
    | Some v => has_type schemas 0 (field_type f) v /\ v <> VNull
    end).
  { intros s t Ht Hft (w & Hw & [= <-])%bind_Done. apply coerce_scalar_string_Done in Hw.
    rewrite Hft. split; [by apply has_direct | intros ->; congruence]. }
  destruct present as [|s1 present];
    [destruct (field_type f), (optional f); (discriminate Hv || by injection Hv as <-) |].
  destruct (field_type f) eqn:Hft;
    try (eapply (Hscalar s1); [| reflexivity | exact Hv]; reflexivity).
  - injection Hv as <-. split; [by apply has_direct | done].
  - apply bind_Done in Hv as (items & Hitems & [= <-]). split; [| done].
    apply has_list. intros w Hw. apply collect_outcome_Done in Hitems.
    apply list_elem_of_lookup in Hw as [i Hi].
    eapply Forall2_lookup_r in Hitems as (x & _ & Hx); [| exact Hi].
    by eapply has_direct, coerce_scalar_string_Done.
Qed.

Lemma coerce_scalar_fields_Done inputs headers fields out out' :
  NoDup (map sf_name fields) ->
  (forall f, f ∈ fields -> IM.get (sf_name f) out = None) ->
  coerce_scalar_fields inputs headers fields out = Done out' ->
  (forall f, f ∈ fields ->
     match IM.get (sf_name f) out' with
     | None => optional f = true
     | Some v => has_type schemas 0 (field_type f) v /\ v <> VNull
     end) /\
  (forall k, k ∉ map sf_name fields -> IM.get k out' = IM.get k out).
Proof.
  revert out. induction fields as [|f fields IH]; intros out Hnd Hfresh Hrun.
  - injection Hrun as <-. split; [intros f Hf; by inversion Hf | done].
  - cbn [map] in *. apply NoDup_cons in Hnd as [Hf Hnd]. cbn [coerce_scalar_fields] in Hrun.
    apply bind_Done in Hrun as (v & Hv%coerce_scalar_field_Done & Hrun).
    assert (Hother : forall k, k <> sf_name f ->
      IM.get k (match v with Some v => IM.insert (sf_name f) v out | None => out end)
      = IM.get k out).
    { intros k Hk. destruct v; [by apply IM.get_insert_ne | done]. }
    apply IH in Hrun as [Hall Hrest]; [| done |].
    + split.
      * intros g [-> | Hg]%elem_of_cons; [| by apply Hall].
        rewrite Hrest by done. destruct v; [by rewrite IM.get_insert_eq |].
        by rewrite Hfresh by (by left).
      * intros k Hk. rewrite Hrest, Hother; set_solver.
    + intros g Hg. rewrite Hother; [apply Hfresh; by right |].
      intros Heq. apply Hf. rewrite <- Heq. by apply list_elem_of_fmap_2.
Qed.

End Scalar.

(** What is bound from a query string or from headers conforms to the
    declared schema and holds declared fields only. *)
Theorem coerce_scalar_input_conforms `{E : Ext} `{HashOrder} schemas inputs schema headers v :
  distinct_fields schema ->
  coerce_scalar_input inputs schema headers = Done v ->
  conforms schemas 0 schema v /\
  exists out, v = VMap out /\ forall k, k ∈ IM.keys out -> k ∈ map sf_name (sd_fields schema).
Proof.
  intros Hs Hv. apply bind_Done in Hv as (out & Hout & [= <-]).
  apply (coerce_scalar_fields_Done schemas) in Hout as [Hall Hrest]; [| done | done].
  split.
  - constructor.
    + intros f w Hf%counts_field Hw _. specialize (Hall f Hf). rewrite Hw in Hall. apply Hall.
    + intros f Hf Hreq. specialize (Hall f Hf). destruct (IM.get (sf_name f) out) as [w|].
      * exists w. split; [done | apply Hall].
      * congruence.
  - exists out. split; [done |]. intros k Hk.
    destruct (decide (k ∈ map sf_name (sd_fields schema))); [done |].
    apply IM.get_is_Some in Hk as [w Hw]. rewrite Hrest in Hw; done.
Qed.

Lemma coerce_scalar_input_conforms_witness :
  let schema := mkSchemaDefinition None
    [mkSchemaField "page" IntegerType false; mkSchemaField "tags" (TypedList StringType) true] in
  let v := @VMap demo_ext [("page", VInteger 2)] in
  conforms ∅ 0 schema v /\
  exists out, v = VMap out /\ forall k, k ∈ IM.keys out -> k ∈ ["page"; "tags"].
Proof.
  intros schema v.
  apply (@coerce_scalar_input_conforms demo_ext sorted_order ∅
           {[ "page" := ["2"]; "extra" := ["x"]; "tags" := [""] ]} schema false v).
  - by apply distinct_fields_dec.
  - reflexivity.
Defined.

(** The canonical form of [X-Request-Id] keeps its prefix. *)
Theorem canonical_header_key_keeps_prefix :
  canonical_header_key "X-Request-Id" = "x_request_id" /\
  canonical_header_key "X-Request-Id" <> canonical_header_key "request_id".
Proof. split; [reflexivity | done]. Qed.
