(* ===== verification/Serializer.v ===== *)
(** The response serializer (src/src/response_serializer.rs): a reply with a
    declared schema shows exactly the declared fields. *)
From stdpp Require Import base list strings gmap sets.
From S2P Require Import Prelude RustStr Ast IndexMap Foreign QueryTypes Value Schemas Validator ValidatorFacts.

Section Serializer.
Context `{E : Ext}.

(** What one declared field contributes to the response. *)
Definition field_pairs (m : list (string * Value)) (field : SchemaField) : list (string * Value) :=
  match IM.get (sf_name field) m with
  | Some v => [(sf_name field, v)]
  | None => if optional field then [] else [(sf_name field, VNull)]
  end.

Definition serialize_response (value : Value) (schema : SchemaDefinition) : Value :=
  match value with
  | VMap m => VMap (IM.from_pairs (concat (map (field_pairs m) (sd_fields schema))))
  | _ => value
  end.

Lemma keys_field_pairs m fields :
  IM.keys (concat (map (field_pairs m) fields))
  = map sf_name (List.filter (fun f => negb (optional f) || IM.contains_key (sf_name f) m) fields).
Proof.
  unfold IM.keys. induction fields as [|f fields IH]; cbn; [done |].
  rewrite map_app, IH. unfold field_pairs, IM.contains_key.
  destruct (IM.get (sf_name f) m); [by rewrite orb_true_r |]. by destruct (optional f).
Qed.

Lemma pairs_NoDup m fields :
  NoDup (map sf_name fields) -> NoDup (IM.keys (concat (map (field_pairs m) fields))).
Proof.
  rewrite keys_field_pairs. induction fields as [|f fields IH]; cbn; [done |].
  intros [Hf Hnd]%NoDup_cons. destruct (_ || _); [| auto]. cbn. apply NoDup_cons.
  split; [| auto]. intros Hin. apply Hf.
  apply list_elem_of_fmap in Hin as (g & -> & Hg). apply list_elem_of_fmap_2.
  apply list_elem_of_In, filter_In in Hg as [Hg _]. by apply list_elem_of_In.
Qed.

Lemma get_pairs m fields f :
  NoDup (map sf_name fields) -> f ∈ fields ->
  IM.get (sf_name f) (concat (map (field_pairs m) fields))
  = match IM.get (sf_name f) m with
    | Some v => Some v
    | None => if optional f then None else Some VNull
    end.
Proof.
  intros Hnd Hf. pose proof (pairs_NoDup m fields Hnd) as Hpairs.
  destruct (IM.get (sf_name f) m) as [v|] eqn:Hv; [| destruct (optional f) eqn:Ho].
  - apply IM.elem_of_get; [done |]. apply elem_of_concat_map. exists f. split; [done |].
    unfold field_pairs. rewrite Hv. by left.
  - apply IM.get_None. rewrite keys_field_pairs. intros Hin.
    apply list_elem_of_fmap in Hin as (g & Heq & Hg).
    apply list_elem_of_In, filter_In in Hg as [Hg Hb]. apply list_elem_of_In in Hg.
    assert (g = f) as -> by (by eapply NoDup_map_inj).
    rewrite Ho in Hb. cbn in Hb. unfold IM.contains_key in Hb. by rewrite Hv in Hb.
  - apply IM.elem_of_get; [done |]. apply elem_of_concat_map. exists f. split; [done |].
    unfold field_pairs. rewrite Hv, Ho. by left.
Qed.

End Serializer.

(** A map replied under a schema shows the declared fields in the order of
    the schema and nothing else: present fields keep their value, a missing
    required field is null, a missing optional field is left out.  Serializing
    again changes nothing. *)
Theorem serialize_response_fields `{E : Ext} m schema :
  distinct_fields schema ->
  exists out,
    serialize_response (VMap m) schema = VMap out /\
    IM.keys out = map sf_name (List.filter
      (fun f => negb (optional f) || IM.contains_key (sf_name f) m) (sd_fields schema)) /\
    (forall f, f ∈ sd_fields schema ->
       IM.get (sf_name f) out = match IM.get (sf_name f) m with
                                | Some v => Some v
                                | None => if optional f then None else Some VNull
                                end) /\
    serialize_response (VMap out) schema = VMap out.
Proof.
  intros Hs. eexists. split; [reflexivity |].
  rewrite IM.from_pairs_NoDup by (by apply pairs_NoDup).
  set (out := concat (map (field_pairs m) (sd_fields schema))).
  assert (Hget : forall f, f ∈ sd_fields schema ->
    IM.get (sf_name f) out = match IM.get (sf_name f) m with
                             | Some v => Some v
                             | None => if optional f then None else Some VNull
                             end) by (intros; by apply get_pairs).
  split_and!; [apply keys_field_pairs | done |].
  cbn [serialize_response]. rewrite IM.from_pairs_NoDup by (by apply pairs_NoDup).
  f_equal. unfold out at 2. f_equal. apply map_ext_in. intros f Hf%list_elem_of_In.
  unfold field_pairs. rewrite (Hget f Hf). by destruct (IM.get (sf_name f) m), (optional f).
Qed.

Lemma serialize_response_fields_witness :
  exists out,
    serialize_response (demo_payload VNull) demo_order = VMap out /\
    IM.keys out = ["id"; "total"; "ship_to"; "tags"] /\
    (forall f, f ∈ sd_fields demo_order -> is_Some (IM.get (sf_name f) out)) /\
    serialize_response (VMap out) demo_order = VMap out.
Proof.
  destruct (serialize_response_fields
    [("note", VString "gift"); ("id", VInteger 7); ("total", VNull);
     ("ship_to", VMap [("city", VString "Natal")]); ("tags", VList [@VString demo_ext "a"])]
    demo_order (demo_distinct "Order" demo_order eq_refl)) as (out & H1 & H2 & H3 & H4).
  exists out. split; [exact H1 |]. split; [exact H2 |]. split; [| exact H4].
  intros f Hf. rewrite (H3 f Hf). revert f Hf. apply Forall_forall.
  repeat constructor; by eexists.
Defined.

(** A relational record is not a map, so a response schema does not filter it:
    every column of the row is serialized. *)
Theorem serialize_response_record_unfiltered `{E : Ext} schema schema_name fields :
  serialize_response (VRelationalRecord schema_name fields) schema
    = VRelationalRecord schema_name fields
  /\ value_to_json (serialize_response (VRelationalRecord schema_name fields) schema)
     = value_to_json (VMap fields).
Proof. split; reflexivity. Qed.
