(* ===== verification/Environment.v ===== *)
(** Variable scopes (src/src/environment.rs).  [scopes] is in the order of the
    source: the innermost scope is the last one.  Values are cloned on reading,
    so the model is over any type of values. *)
From stdpp Require Import base list strings gmap sets sorting.
From Stdlib Require Import Lia.
From S2P Require Import Prelude RustStr Foreign Value SchemaCycle.

Record Environment (V : Type) : Type := mkEnvironment {
  base : gmap string V;
  scopes : list (gmap string V);
}.
Arguments mkEnvironment {V}.
Arguments base {V}.
Arguments scopes {V}.

Section Environment.
Context {V : Type}.
Implicit Types (e : Environment V) (name : string) (v : V).

Definition Environment_new : Environment V := mkEnvironment ∅ [∅].

Definition push_scope e : Environment V := mkEnvironment (base e) (scopes e ++ [∅]).

Definition pop_scope e : Environment V :=
  if 1 <? length (scopes e) then mkEnvironment (base e) (removelast (scopes e)) else e.

(** [scopes.last_mut()]: the innermost scope, if any. *)
Definition set (name : string) (v : V) e : Environment V :=
  match rev (scopes e) with
  | [] => e
  | scope :: outer => mkEnvironment (base e) (rev (<[name := v]> scope :: outer))
  end.

(** The first of the scopes, innermost first, that defines [name]. *)
Fixpoint lookup_scopes (name : string) (l : list (gmap string V)) : option V :=
  match l with
  | [] => None
  | scope :: l => match scope !! name with Some v => Some v | None => lookup_scopes name l end
  end.

Definition get (name : string) e : option V :=
  match lookup_scopes name (rev (scopes e)) with
  | Some v => Some v
  | None => base e !! name
  end.

Definition has (name : string) e : bool :=
  existsb (fun scope : gmap string V => bool_decide (is_Some (scope !! name))) (rev (scopes e))
  || bool_decide (is_Some (base e !! name)).

(** Replaces the value in the first scope that defines [name]. *)
Fixpoint update_scopes (name : string) (v : V) (l : list (gmap string V))
  : option (list (gmap string V)) :=
  match l with
  | [] => None
  | scope :: l =>
      match scope !! name with
      | Some _ => Some (<[name := v]> scope :: l)
      | None => cons scope <$> update_scopes name v l
      end
  end.

Definition update (name : string) (v : V) e : Environment V :=
  match update_scopes name v (rev (scopes e)) with
  | Some l => mkEnvironment (base e) (rev l)
  | None => set name v e
  end.

Definition depth e : nat := length (scopes e).

(** [seen.entry(name).or_insert(value)] over the scopes: first occurrence wins. *)
Definition local_seen e : gmap string V :=
  fold_left (fun seen scope => seen ∪ scope) (rev (scopes e)) ∅.

Definition name_le (a b : string * V) : Prop := string_le (fst a) (fst b).
#[local] Instance name_le_dec : RelDecision name_le.
Proof. intros a b. unfold name_le. apply _. Defined.

(** All visible variables, sorted by name. *)
Definition all_variables `{HashOrder} e : list (string * V) :=
  merge_sort name_le (entries (local_seen e ∪ base e)).

Definition local_variables `{HashOrder} e : list (string * V) := entries (local_seen e).

Definition freeze e : Environment V :=
  mkEnvironment (fold_left (fun base scope => scope ∪ base) (scopes e) (base e)) [∅].

(** ** Facts *)

(** There is always a scope to write to. *)
Definition wf_env e : Prop := scopes e <> [].

Lemma wf_snoc e : wf_env e -> exists outer scope, scopes e = outer ++ [scope].
Proof.
  unfold wf_env. destruct (scopes e) as [|s l] using rev_ind; [done |]. eauto.
Qed.

Lemma set_snoc name v b outer scope :
  set name v (mkEnvironment b (outer ++ [scope])) = mkEnvironment b (outer ++ [<[name := v]> scope]).
Proof. unfold set. cbn. rewrite rev_app_distr. cbn. by rewrite rev_involutive. Qed.

Lemma set_shape name v e :
  base (set name v e) = base e /\ length (scopes (set name v e)) = length (scopes e).
Proof.
  unfold set. destruct (rev (scopes e)) as [|s l] eqn:Hr; [done |]. split; [done |].
  cbn. rewrite <- (length_rev (scopes e)), Hr, length_app, length_rev. cbn. lia.
Qed.

Lemma get_snoc name b outer scope :
  get name (mkEnvironment b (outer ++ [scope]))
  = match scope !! name with Some v => Some v | None => get name (mkEnvironment b outer) end.
Proof.
  unfold get. cbn. rewrite rev_app_distr. cbn. by destruct (scope !! name).
Qed.

Lemma lookup_update_scopes name v l l' k :
  update_scopes name v l = Some l' ->
  lookup_scopes k l' = if String.eqb name k then Some v else lookup_scopes k l.
Proof.
  revert l'. induction l as [|scope l IH]; intros l'; cbn; [done |].
  destruct (scope !! name) as [w|] eqn:Hn.
  - intros [= <-]. cbn. destruct (String.eqb_spec name k) as [->|].
    + by rewrite lookup_insert_eq.
    + by rewrite lookup_insert_ne.
  - destruct (update_scopes name v l) as [l1|] eqn:Hl; [| done]. intros [= <-]. cbn.
    rewrite (IH l1) by done. destruct (String.eqb_spec name k) as [->|]; [by rewrite Hn | done].
Qed.

Lemma update_scopes_None name v l : update_scopes name v l = None <-> lookup_scopes name l = None.
Proof.
  induction l as [|scope l IH]; cbn; [done |]. destruct (scope !! name); [done |].
  rewrite <- IH. by destruct (update_scopes name v l).
Qed.

Lemma update_scopes_length name v l l' : update_scopes name v l = Some l' -> length l' = length l.
Proof.
  revert l'. induction l as [|scope l IH]; intros l'; cbn; [done |].
  destruct (scope !! name); [by intros [= <-] |].
  destruct (update_scopes name v l) as [l1|]; [| done]. intros [= <-]. cbn. by rewrite (IH l1).
Qed.

Lemma lookup_local_seen e name : local_seen e !! name = lookup_scopes name (rev (scopes e)).
Proof.
  unfold local_seen. cut (forall l (m : gmap string V),
    fold_left (fun seen scope => seen ∪ scope) l m !! name
    = match m !! name with Some v => Some v | None => lookup_scopes name l end).
  { intros H. by rewrite H, lookup_empty. }
  induction l as [|scope l IH]; intros m; cbn; [by destruct (m !! name) |].
  rewrite IH, lookup_union. by destruct (m !! name), (scope !! name).
Qed.

Lemma lookup_freeze e name : base (freeze e) !! name = get name e.
Proof.
  unfold freeze, get. cbn. generalize (base e). induction (scopes e) as [|s l IH]; intros b; cbn.
  - done.
  - rewrite IH, lookup_union.
    assert (Happ : forall a b, lookup_scopes name (a ++ b)
      = match lookup_scopes name a with Some v => Some v | None => lookup_scopes name b end).
    { induction a as [|s' a IHa]; intros c; cbn; [done |]. rewrite IHa. by destruct (s' !! name). }
    rewrite Happ. cbn. destruct (lookup_scopes name (rev l)); [done |].
    by destruct (s !! name), (b !! name).
Qed.

End Environment.

Arguments name_le {V}.
#[export] Existing Instance name_le_dec.

(** [all_tasks]: the names of the visible tasks. *)
Definition is_task `{Ext} (v : Value) : bool :=
  match v with VTask _ _ _ _ _ _ _ => true | _ => false end.

Definition all_tasks `{Ext} `{HashOrder} (e : Environment Value) : list string :=
  sort_strings (map fst (List.filter (fun kv => is_task (snd kv)) (all_variables e))).

(** Writing a variable and reading any variable back: [set] and [update]
    give the written name its value and change no other visible name, the
    number of scopes or the shared base. *)
Theorem write_then_read {V} (e : Environment V) name v :
  wf_env e ->
  (forall k, get k (set name v e) = if String.eqb name k then Some v else get k e) /\
  (forall k, get k (update name v e) = if String.eqb name k then Some v else get k e) /\
  depth (set name v e) = depth e /\ depth (update name v e) = depth e /\
  base (set name v e) = base e /\ base (update name v e) = base e.
Proof.
  intros (outer & scope & Hs)%wf_snoc. destruct e as [b l]. cbn in Hs. subst l.
  assert (Hset : forall k, get k (set name v (mkEnvironment b (outer ++ [scope])))
    = if String.eqb name k then Some v else get k (mkEnvironment b (outer ++ [scope]))).
  { intros k. rewrite set_snoc, !get_snoc. destruct (String.eqb_spec name k) as [->|].
    - by rewrite lookup_insert_eq.
    - by rewrite lookup_insert_ne. }
  split; [exact Hset |]. unfold update, depth. cbn [scopes].
  destruct (set_shape name v (mkEnvironment b (outer ++ [scope]))) as [Hb Hd].
  destruct (update_scopes _ _ _) as [l|] eqn:Hl; [| by split_and!].
  split_and!; try done; cbn [scopes base].
  - intros k. unfold get. cbn [scopes base].
    rewrite rev_involutive, (lookup_update_scopes _ _ _ _ k Hl). by destruct (String.eqb name k).
  - apply update_scopes_length in Hl. by rewrite length_rev, Hl, length_rev.
Qed.

Lemma write_then_read_witness :
  let e := push_scope (set "x" 1 (Environment_new : Environment nat)) in
  wf_env e /\ get "x" (update "x" 2 e) = Some 2 /\ depth (update "x" 2 e) = 2.
Proof.
  intros e. assert (He : wf_env e) by discriminate. split; [exact He |].
  destruct (write_then_read e "x" 2 He) as (_ & Hu & _ & Hd & _).
  split; [rewrite (Hu "x"); reflexivity | rewrite Hd; reflexivity].
Defined.

(** A block: what it assigns to a name that is local to the enclosing
    scopes stays after the block, what it assigns to any other name, a frozen
    global included, is gone with the block's scope. *)
Theorem block_assignment {V} (e : Environment V) name v :
  wf_env e ->
  pop_scope (push_scope e) = e /\
  pop_scope (update name v (push_scope e))
  = match lookup_scopes name (rev (scopes e)) with
    | Some _ => update name v e
    | None => e
    end.
Proof.
  intros He. destruct e as [b l]. unfold wf_env in He. cbn in He.
  assert (Hlen : 1 <? length (l ++ [∅ : gmap string V]) = true).
  { apply Nat.ltb_lt. rewrite length_app. destruct l; [done |]. cbn. lia. }
  split.
  - unfold pop_scope, push_scope. cbn [scopes base]. by rewrite Hlen, removelast_last.
  - unfold update, push_scope. cbn [scopes base]. rewrite rev_app_distr. cbn.
    rewrite lookup_empty. destruct (update_scopes name v (rev l)) as [l'|] eqn:Hl'; cbn.
    + destruct (lookup_scopes name (rev l)) eqn:Hk.
      * unfold pop_scope. cbn [scopes base].
        rewrite removelast_last, length_app, length_rev, (update_scopes_length _ _ _ _ Hl'), length_rev.
        rewrite length_app in Hlen. by rewrite Hlen.
      * apply (update_scopes_None name v) in Hk. congruence.
    + apply update_scopes_None in Hl' as ->. rewrite set_snoc.
      unfold pop_scope. cbn [scopes base]. rewrite removelast_last, length_app.
      rewrite length_app in Hlen. cbn [length] in *. by rewrite Hlen.
Qed.

Lemma block_assignment_witness :
  let e := freeze (set "g" 1 (Environment_new : Environment nat)) in
  wf_env e /\ pop_scope (update "g" 2 (push_scope e)) = e /\ get "g" e = Some 1.
Proof.
  intros e. assert (He : wf_env e) by discriminate. split; [exact He |].
  destruct (block_assignment e "g" 2 He) as [_ H].
  split; [exact H | reflexivity].
Defined.

(** Freezing moves every visible variable to the shared base, leaves one
    empty scope, and no lookup can tell the difference; writes after that
    never reach the base. *)
Theorem freeze_preserves_lookup {V} (e : Environment V) :
  scopes (freeze e) = [∅] /\
  (forall name, get name (freeze e) = get name e) /\
  (forall name, has name (freeze e) = has name e) /\
  (forall name v, base (update name v (freeze e)) = base (freeze e)).
Proof.
  assert (Hget : forall name, get name (freeze e) = get name e).
  { intros name. rewrite <- (lookup_freeze e). unfold get at 1. cbn. by rewrite lookup_empty. }
  split; [done |]. split; [exact Hget |]. split.
  - assert (Hhas : forall (e : Environment V) name, has name e = bool_decide (is_Some (get name e))).
    { intros e' name. unfold has, get. induction (rev (scopes e')) as [|s l IH]; cbn; [done |].
      rewrite <- orb_assoc, IH. by destruct (s !! name). }
    intros name. by rewrite !Hhas, Hget.
  - intros name v. unfold update. cbn. rewrite lookup_empty. done.
Qed.

(** The list of all variables is sorted by name, names each visible
    variable once, and gives it the value that lookup finds. *)
Theorem all_variables_spec `{HashOrder} {V} (e : Environment V) :
  Sorted name_le (all_variables e) /\ NoDup (map fst (all_variables e)) /\
  forall name v, (name, v) ∈ all_variables e <-> get name e = Some v.
Proof.
  unfold all_variables. split_and!.
  - apply Sorted_merge_sort. intros [a x] [b y]. unfold name_le, string_le. cbn.
    apply String.leb_total.
  - rewrite merge_sort_Permutation, entries_perm. apply NoDup_fst_map_to_list.
  - intros name v. rewrite merge_sort_Permutation, elem_of_entries, lookup_union, lookup_local_seen.
    unfold get. destruct (lookup_scopes _ _), (base e !! name); cbn; split; congruence.
Qed.

(** [pop_scope] on the outermost scope does nothing. *)
Theorem pop_outermost_is_noop {V} (e : Environment V) : depth e = 1 -> pop_scope e = e.
Proof. unfold depth, pop_scope. intros ->. reflexivity. Qed.
