(* ===== verification/Operators.v ===== *)
(** Binary and unary operators on values (src/src/interpreter/operators.rs).

    Integers are 64 bits wide.  [overflow_checks] is the compiler's setting:
    without it (the release profile) addition, subtraction, multiplication and
    negation wrap around, with it they panic.  Dividing by zero and dividing
    [i64::MIN] by [-1] panic under both. *)
From stdpp Require Import base list strings gmap.
From Stdlib Require Import ZArith Lia SpecFloat.
From S2P Require Import Prelude RustStr F64 Errors Ast IndexMap Foreign QueryTypes Value.

Section Operators.
Context `{E : Ext}.
Variable overflow_checks : bool.
(** [self.current_line] and [self.current_column]. *)
Variables line column : nat.

Definition Computed : Type := outcome MarretaError Value.

Definition type_error (message : string) : Computed := Fails (TypeError message line column).
Definition division_by_zero : Computed := Fails (DivisionByZero line column).

(** The result of an [i64] operation whose exact value is [z]. *)
Definition int_result (z : Z) : Computed :=
  if in_i64 z then Done (VInteger z)
  else if overflow_checks then Panics else Done (VInteger (wrap_i64 z)).

(** [/] and [%] on [i64]: partial, they panic on a zero divisor and on the one
    quotient that does not fit, whatever the build checks. *)
Definition i64_undefined (a b : Z) : bool :=
  (b =? 0)%Z || ((a =? i64_min)%Z && (b =? -1)%Z).

Definition i64_quot (a b : Z) : Computed :=
  if i64_undefined a b then Panics else Done (VInteger (Z.quot a b)).

Definition i64_rem (a b : Z) : Computed :=
  if i64_undefined a b then Panics else Done (VInteger (Z.rem a b)).

(** Decimal operators panic on overflow. *)
Definition dec_result (d : option decimal) : Computed :=
  match d with Some d => Done (VDecimal d) | None => Panics end.

Definition op_in (left right : Value) : Computed :=
  match right with
  | VList items => Done (VBoolean (existsb (fun item => value_eqb item left) items))
  | VString haystack =>
      match left with
      | VString needle => Done (VBoolean (str_contains needle haystack))
      | _ => type_error ("left operand of 'in' must be String when right operand is String, got "
                         +:+ type_name left)
      end
  | _ => type_error ("right operand of 'in' must be List or String, got " +:+ type_name right)
  end.

Definition op_add (left right : Value) : Computed :=
  match left, right with
  | VInteger a, VInteger b => int_result (a + b)
  | VDecimal a, VDecimal b => dec_result (dec_add a b)
  | VDecimal a, VInteger b => dec_result (dec_add a (dec_of_Z b))
  | VInteger a, VDecimal b => dec_result (dec_add (dec_of_Z a) b)
  | VDecimal _, VFloat _ | VFloat _, VDecimal _ => type_error "cannot mix Decimal and Float"
  | VInteger a, VFloat b => Done (VFloat (f64_add (f64_of_Z a) b))
  | VFloat a, VInteger b => Done (VFloat (f64_add a (f64_of_Z b)))
  | VFloat a, VFloat b => Done (VFloat (f64_add a b))
  | VString a, b => Done (VString (a +:+ show_value b))
  | a, VString b => Done (VString (show_value a +:+ b))
  | VList a, VList b => Done (VList (a ++ b))
  | _, _ => type_error ("cannot add " +:+ type_name left +:+ " and " +:+ type_name right)
  end.

(** [op_arith]: the decimal operation is chosen by the operator's name. *)
Definition decimal_op (op_name : string) (a b : decimal) : Computed :=
  if String.eqb op_name "-" then dec_result (dec_sub a b)
  else if String.eqb op_name "*" then dec_result (dec_mul a b)
  else Panics.

Definition op_arith (left right : Value) (int_op : Z -> Z -> Z) (float_op : f64 -> f64 -> f64)
    (op_name : string) : Computed :=
  match left, right with
  | VInteger a, VInteger b => int_result (int_op a b)
  | VDecimal a, VDecimal b => decimal_op op_name a b
  | VDecimal a, VInteger b => decimal_op op_name a (dec_of_Z b)
  | VInteger a, VDecimal b => decimal_op op_name (dec_of_Z a) b
  | VDecimal _, VFloat _ | VFloat _, VDecimal _ => type_error "cannot mix Decimal and Float"
  | VInteger a, VFloat b => Done (VFloat (float_op (f64_of_Z a) b))
  | VFloat a, VInteger b => Done (VFloat (float_op a (f64_of_Z b)))
  | VFloat a, VFloat b => Done (VFloat (float_op a b))
  | _, _ => type_error ("cannot apply '" +:+ op_name +:+ "' to " +:+ type_name left +:+ " and "
                        +:+ type_name right)
  end.

(** The operands that [op_divide] refuses before dividing. *)
Definition zero_divisor (left right : Value) : bool :=
  match left, right with
  | VInteger _, VInteger 0%Z | VFloat _, VInteger 0%Z | VDecimal _, VInteger 0%Z => true
  | VInteger _, VDecimal b | VDecimal _, VDecimal b => dec_is_zero b
  | VInteger _, VFloat b | VFloat _, VFloat b => f64_eqb b (S754_zero false)
  | _, _ => false
  end.

Definition op_divide (left right : Value) : Computed :=
  if zero_divisor left right then division_by_zero
  else
    match left, right with
    | VInteger a, VInteger b => i64_quot a b
    | VDecimal a, VDecimal b => dec_result (dec_div a b)
    | VDecimal a, VInteger b => dec_result (dec_div a (dec_of_Z b))
    | VInteger a, VDecimal b => dec_result (dec_div (dec_of_Z a) b)
    | VDecimal _, VFloat _ | VFloat _, VDecimal _ => type_error "cannot mix Decimal and Float"
    | VInteger a, VFloat b => Done (VFloat (f64_div (f64_of_Z a) b))
    | VFloat a, VInteger b => Done (VFloat (f64_div a (f64_of_Z b)))
    | VFloat a, VFloat b => Done (VFloat (f64_div a b))
    | _, _ => type_error ("cannot divide " +:+ type_name left +:+ " by " +:+ type_name right)
    end.

Definition op_modulo (left right : Value) : Computed :=
  match left, right with
  | VInteger _, VInteger 0%Z => division_by_zero
  | VInteger a, VInteger b => i64_rem a b
  | VInteger a, VFloat b => Done (VFloat (f64_rem (f64_of_Z a) b))
  | VFloat a, VInteger b => Done (VFloat (f64_rem a (f64_of_Z b)))
  | VFloat a, VFloat b => Done (VFloat (f64_rem a b))
  | _, _ => type_error ("cannot apply '%' to " +:+ type_name left +:+ " and " +:+ type_name right)
  end.

(** [partial_cmp(..).unwrap_or(Equal)]. *)
Definition float_cmp (a b : f64) : comparison := default Eq (f64_cmp a b).

(** The ordering of two comparable values. *)
Definition compare_values (left right : Value) : result MarretaError comparison :=
  match left, right with
  | VInteger a, VInteger b => Ok (a ?= b)%Z
  | VDecimal a, VDecimal b => Ok (dec_cmp a b)
  | VDecimal a, VInteger b => Ok (dec_cmp a (dec_of_Z b))
  | VInteger a, VDecimal b => Ok (dec_cmp (dec_of_Z a) b)
  | VDecimal _, VFloat _ | VFloat _, VDecimal _ =>
      Err (TypeError "cannot compare Decimal and Float" line column)
  | VInteger a, VFloat b => Ok (float_cmp (f64_of_Z a) b)
  | VFloat a, VInteger b => Ok (float_cmp a (f64_of_Z b))
  | VFloat a, VFloat b => Ok (float_cmp a b)
  | VString a, VString b => Ok (String.compare a b)
  | _, _ => Err (TypeError ("cannot compare " +:+ type_name left +:+ " and " +:+ type_name right)
                   line column)
  end.

Definition op_compare (left right : Value) (pred : comparison -> bool) : Computed :=
  match compare_values left right with
  | Ok ord => Done (VBoolean (pred ord))
  | Err e => Fails e
  end.

Definition is_gt (o : comparison) : bool := match o with Gt => true | _ => false end.
Definition is_lt (o : comparison) : bool := match o with Lt => true | _ => false end.
Definition is_ge (o : comparison) : bool := negb (is_lt o).
Definition is_le (o : comparison) : bool := negb (is_gt o).

Definition apply_binary_op (op : BinaryOperator) (left right : Value) : Computed :=
  match op with
  | Add => op_add left right
  | Subtract => op_arith left right Z.sub f64_sub "-"
  | Multiply => op_arith left right Z.mul f64_mul "*"
  | Divide => op_divide left right
  | Modulo => op_modulo left right
  | OpEqual => Done (VBoolean (value_eqb left right))
  | OpNotEqual => Done (VBoolean (negb (value_eqb left right)))
  | OpGreater => op_compare left right is_gt
  | OpLess => op_compare left right is_lt
  | OpGreaterEqual => op_compare left right is_ge
  | OpLessEqual => op_compare left right is_le
  | OpIn => op_in left right
  | OpAnd | OpOr => Panics
  end.

Definition apply_unary_op (op : UnaryOperator) (val : Value) : Computed :=
  match op with
  | Negate =>
      match val with
      | VInteger n => int_result (- n)
      | VFloat x => Done (VFloat (f64_neg x))
      | VDecimal d => Done (VDecimal (dec_neg d))
      | _ => type_error ("cannot negate " +:+ type_name val)
      end
  | OpNot => Done (VBoolean (negb (is_truthy val)))
  end.

(** ** When an operator panics *)

Definition is_none {A} (o : option A) : bool := match o with None => true | Some _ => false end.

(** A decimal operation on operands with at least one decimal. *)
Definition decimal_overflow (f : decimal -> decimal -> option decimal) (left right : Value) : bool :=
  match left, right with
  | VDecimal a, VDecimal b => is_none (f a b)
  | VDecimal a, VInteger b => is_none (f a (dec_of_Z b))
  | VInteger a, VDecimal b => is_none (f (dec_of_Z a) b)
  | _, _ => false
  end.

Definition int_overflow (f : Z -> Z -> Z) (left right : Value) : bool :=
  match left, right with
  | VInteger a, VInteger b => overflow_checks && negb (in_i64 (f a b))
  | _, _ => false
  end.

Definition min_by_minus_one (left right : Value) : bool :=
  match left, right with
  | VInteger a, VInteger b => (a =? i64_min)%Z && (b =? -1)%Z
  | _, _ => false
  end.

(** The divisors the language refuses: an integer, decimal or float zero,
    under operands that divide at all; the remainder refuses the integer zero
    under an integer only. *)
Definition is_number_zero (v : Value) : bool :=
  match v with
  | VInteger n => (n =? 0)%Z
  | VDecimal d => dec_is_zero d
  | VFloat x => f64_eqb x (S754_zero false)
  | _ => false
  end.

Definition is_number (v : Value) : bool :=
  match v with VInteger _ | VDecimal _ | VFloat _ => true | _ => false end.

(** Numbers divide, except a decimal and a float. *)
Definition can_divide (left right : Value) : bool :=
  is_number left && is_number right &&
  match left, right with
  | VDecimal _, VFloat _ | VFloat _, VDecimal _ => false
  | _, _ => true
  end.

Definition divides_by_zero (op : BinaryOperator) (left right : Value) : bool :=
  match op with
  | Divide => can_divide left right && is_number_zero right
  | Modulo =>
      match left, right with VInteger _, VInteger b => (b =? 0)%Z | _, _ => false end
  | _ => false
  end.

Definition overflows (op : BinaryOperator) (left right : Value) : bool :=
  match op with
  | Add => int_overflow Z.add left right || decimal_overflow dec_add left right
  | Subtract => int_overflow Z.sub left right || decimal_overflow dec_sub left right
  | Multiply => int_overflow Z.mul left right || decimal_overflow dec_mul left right
  | Divide => min_by_minus_one left right
              || (negb (divides_by_zero Divide left right) && decimal_overflow dec_div left right)
  | Modulo => min_by_minus_one left right
  | OpAnd | OpOr => true
  | _ => false
  end.

Definition panics {A} (x : outcome MarretaError A) : bool :=
  match x with Panics => true | _ => false end.

(** What an operation does with its operands: [b] tells whether it panics, [z]
    whether it answers the division by zero. *)
Definition answers (x : Computed) (b z : bool) : Prop :=
  panics x = b /\ (x = division_by_zero <-> z = true).

Lemma answers_done v : answers (Done v) false false.
Proof. by split. Qed.

Lemma answers_type_error message : answers (type_error message) false false.
Proof. by split. Qed.

Lemma answers_division_by_zero : answers division_by_zero false true.
Proof. by split. Qed.

Lemma answers_guard (z : bool) (x : Computed) (b : bool) :
  answers x b false -> answers (if z then division_by_zero else x) (negb z && b) z.
Proof. destruct z; [intros _; apply answers_division_by_zero | done]. Qed.

Lemma answers_int_result z : answers (int_result z) (overflow_checks && negb (in_i64 z)) false.
Proof. unfold int_result. by destruct (in_i64 z), overflow_checks. Qed.

Lemma answers_dec_result d : answers (dec_result d) (is_none d) false.
Proof. by destruct d. Qed.

Lemma decimal_op_sub a b : decimal_op "-" a b = dec_result (dec_sub a b).
Proof. reflexivity. Qed.

Lemma decimal_op_mul a b : decimal_op "*" a b = dec_result (dec_mul a b).
Proof. reflexivity. Qed.

Lemma zero_divisor_spec left right :
  zero_divisor left right = divides_by_zero Divide left right.
Proof.
  destruct left, right; cbn; rewrite ?andb_false_r; try reflexivity;
    match goal with |- _ = (?z =? 0)%Z => by destruct z end.
Qed.

(** On two integers [/] and [%] share the guard on zero and the one overflow. *)
Lemma guarded_i64 (f : Z -> Z) a b :
  (if (b =? 0)%Z then division_by_zero
   else if i64_undefined a b then Panics else Done (VInteger (f a)))
  = (if (b =? 0)%Z then division_by_zero
     else if (a =? i64_min)%Z && (b =? -1)%Z then Panics else Done (VInteger (f a))).
Proof. unfold i64_undefined. by destruct (b =? 0)%Z. Qed.

Lemma op_divide_int a b :
  op_divide (VInteger a) (VInteger b)
  = (if (b =? 0)%Z then division_by_zero
     else if (a =? i64_min)%Z && (b =? -1)%Z then Panics else Done (VInteger (Z.quot a b))).
Proof.
  unfold op_divide. rewrite zero_divisor_spec. cbn [divides_by_zero can_divide is_number_zero andb].
  unfold i64_quot. apply (guarded_i64 (fun a => Z.quot a b)).
Qed.

Lemma op_modulo_int a b :
  op_modulo (VInteger a) (VInteger b)
  = (if (b =? 0)%Z then division_by_zero
     else if (a =? i64_min)%Z && (b =? -1)%Z then Panics else Done (VInteger (Z.rem a b))).
Proof. rewrite <- (guarded_i64 (fun a => Z.rem a b)). by destruct b. Qed.

Lemma answers_guarded_i64 f a b :
  answers (if (b =? 0)%Z then division_by_zero
           else if (a =? i64_min)%Z && (b =? -1)%Z then Panics else Done (VInteger (f a)))
    ((a =? i64_min)%Z && (b =? -1)%Z) (b =? 0)%Z.
Proof.
  destruct (Z.eqb_spec b 0) as [->|]; [rewrite andb_false_r; apply answers_division_by_zero |].
  by destruct (_ && _).
Qed.

Lemma answers_compare left right p : answers (op_compare left right p) false false.
Proof.
  unfold op_compare, compare_values.
  destruct left, right; (apply answers_done || by split).
Qed.

Lemma answers_divide left right :
  answers (op_divide left right) (overflows Divide left right) (divides_by_zero Divide left right).
Proof.
  cbn [overflows]. rewrite <- zero_divisor_spec.
  destruct left, right; try apply answers_type_error;
    try (apply answers_guard; (apply answers_done || apply answers_dec_result)).
  rewrite op_divide_int, zero_divisor_spec. cbn. rewrite andb_false_r, orb_false_r.
  apply (answers_guarded_i64 (fun a => Z.quot a _)).
Qed.

Lemma answers_modulo left right :
  answers (op_modulo left right) (overflows Modulo left right) (divides_by_zero Modulo left right).
Proof.
  destruct left, right; try apply answers_type_error; try apply answers_done.
  rewrite op_modulo_int. apply (answers_guarded_i64 (fun a => Z.rem a _)).
Qed.

Lemma answers_add left right :
  answers (op_add left right) (overflows Add left right) false.
Proof.
  destruct left, right; cbn [op_add overflows int_overflow decimal_overflow orb];
    rewrite ?orb_false_r;
    (apply answers_done || apply answers_type_error || apply answers_int_result
     || apply answers_dec_result).
Qed.

Lemma answers_arith left right int_op float_op name dec_op :
  (forall a b, decimal_op name a b = dec_result (dec_op a b)) ->
  answers (op_arith left right int_op float_op name)
    (int_overflow int_op left right || decimal_overflow dec_op left right) false.
Proof.
  intros Hd.
  destruct left, right; cbn [op_arith int_overflow decimal_overflow orb];
    rewrite ?Hd, ?orb_false_r;
    (apply answers_done || apply answers_type_error || apply answers_int_result
     || apply answers_dec_result).
Qed.

Lemma answers_in left right : answers (op_in left right) false false.
Proof. destruct right; try by split. destruct left; by split. Qed.

End Operators.

(** C33: which operations can bring the process down: exactly integer overflow
    when the build checks for it, [i64::MIN] divided by [-1] or reduced modulo
    it in every build, and decimal overflow; every other operand pair gives a
    value or a catchable error.  In particular a zero divisor, for which the
    machine division itself would panic, is refused by the catchable error for
    division by zero: that error is the answer exactly when a number is
    divided by a zero, or an integer reduced modulo the integer zero. *)
Theorem binary_op_panics_iff `{E : Ext} checks line column op l r :
  panics (apply_binary_op checks line column op l r) = overflows checks op l r /\
  (apply_binary_op checks line column op l r = Fails (DivisionByZero line column) <->
   divides_by_zero op l r = true).
Proof.
  destruct op; try by split.
  - apply answers_add.
  - by apply answers_arith.
  - by apply answers_arith.
  - apply answers_divide.
  - apply answers_modulo.
  - apply answers_compare.
  - apply answers_compare.
  - apply answers_compare.
  - apply answers_compare.
  - apply answers_in.
Qed.

Lemma binary_op_panics_iff_example :
  let E := demo_ext in
  panics (apply_binary_op false 1 1 Divide (VInteger i64_min) (VInteger (-1))) = true /\
  panics (apply_binary_op false 1 1 Add (VInteger i64_max) (VInteger 1)) = false /\
  panics (apply_binary_op true 1 1 Add (VInteger i64_max) (VInteger 1)) = true.
Proof. split_and!; reflexivity. Qed.

Definition int_in_range `{Ext} (v : Value) : bool :=
  match v with VInteger n => in_i64 n | _ => true end.

Lemma int_result_range `{Ext} checks z v : int_result checks z = Done v -> int_in_range v = true.
Proof.
  unfold int_result. destruct (in_i64 z) eqn:Hz; [by intros [= <-] |].
  destruct checks; [done |]. intros [= <-]. apply wrap_i64_range.
Qed.

Lemma dec_result_range `{Ext} d v : dec_result d = Done v -> int_in_range v = true.
Proof. destruct d; [by intros [= <-] | done]. Qed.

Lemma quot_range a b :
  in_i64 a = true -> in_i64 b = true -> (a =? i64_min)%Z && (b =? -1)%Z = false ->
  in_i64 (Z.quot a b) = true.
Proof.
  rewrite !in_i64_spec, andb_false_iff, !Z.eqb_neq. unfold i64_min, i64_max. intros Ha Hb Hn.
  destruct (Z.eq_dec b 0) as [->|Hb0]; [assert (Z.quot a 0 = 0)%Z as -> by (by destruct a); lia |].
  destruct (Z.eq_dec b (-1)) as [->|Hb1].
  - change (-1)%Z with (Z.opp 1). rewrite Z.quot_opp_r, Z.quot_1_r by lia. lia.
  - destruct (Z.eq_dec b 1) as [->|Hb2]; [rewrite Z.quot_1_r; lia |].
    assert (2 * Z.abs (Z.quot a b) <= Z.abs a)%Z; [| lia].
    rewrite <- Z.quot_abs by lia.
    pose proof (Z.mul_quot_le (Z.abs a) (Z.abs b) ltac:(lia) ltac:(lia)).
    pose proof (Z.quot_pos (Z.abs a) (Z.abs b) ltac:(lia) ltac:(lia)).
    assert (2 <= Z.abs b)%Z by lia. nia.
Qed.

Lemma rem_range a b : in_i64 a = true -> in_i64 b = true -> b <> 0%Z -> in_i64 (Z.rem a b) = true.
Proof.
  rewrite !in_i64_spec. unfold i64_min, i64_max. intros Ha Hb Hb0.
  pose proof (Z.rem_bound_abs a b Hb0).
  destruct (Z.le_gt_cases 0 a).
  - pose proof (Z.rem_nonneg a b Hb0). lia.
  - pose proof (Z.rem_nonpos a b Hb0). lia.
Qed.

(** Integers stay integers of 64 bits: an operator applied to operands in
    range returns, if it returns an integer, one in range. *)
Theorem binary_op_int_range `{E : Ext} checks line column op l r v :
  int_in_range l = true -> int_in_range r = true ->
  apply_binary_op checks line column op l r = Done v -> int_in_range v = true.
Proof.
  intros Hl Hr.
  assert (Hcmp : forall p, op_compare line column l r p = Done v -> int_in_range v = true).
  { intros p. unfold op_compare. by destruct (compare_values line column l r) as [c|]; intros [= <-]. }
  destruct op; cbn [apply_binary_op]; try apply Hcmp; try (by intros [= <-]); try done.
  - destruct l, r; cbn [op_add]; try (by intros [= <-]);
      (apply int_result_range || apply dec_result_range).
  - destruct l, r; cbn [op_arith]; rewrite ?decimal_op_sub; try (by intros [= <-]);
      (apply int_result_range || apply dec_result_range).
  - destruct l, r; cbn [op_arith]; rewrite ?decimal_op_mul; try (by intros [= <-]);
      (apply int_result_range || apply dec_result_range).
  - unfold op_divide. destruct (zero_divisor l r); [done |].
    destruct l, r; try (by intros [= <-]); try apply dec_result_range.
    unfold i64_quot, i64_undefined. destruct (_ || _) eqn:Hmin; [done |]. intros [= <-].
    apply orb_false_iff in Hmin as [_ ?]. by apply quot_range.
  - destruct l, r; try (by intros [= <-]).
    + rewrite op_modulo_int. destruct (Z.eqb_spec n0 0) as [|Hn]; [done |].
      destruct (_ && _); [done |]. intros [= <-]. by apply rem_range.
  - destruct r; try (by intros [= <-]). destruct l; by intros [= <-].
Qed.

Lemma binary_op_int_range_witness :
  let l := @VInteger demo_ext i64_max in
  int_in_range l = true /\ int_in_range (@VInteger demo_ext (wrap_i64 (i64_max + i64_max))) = true.
Proof.
  intros l. assert (H : int_in_range l = true) by reflexivity. split; [exact H |].
  refine (@binary_op_int_range demo_ext false 1 1 Add l l _ H H _). reflexivity.
Defined.

(** The one quotient that does not fit panics whatever the build checks. *)
Theorem min_divided_by_minus_one `{E : Ext} checks line column :
  apply_binary_op checks line column Divide (VInteger i64_min) (VInteger (-1)) = Panics /\
  apply_binary_op checks line column Modulo (VInteger i64_min) (VInteger (-1)) = Panics.
Proof. split; reflexivity. Qed.

(** Integer division truncates toward zero and [%] is its remainder: for
    every in-range pair they are allowed on, [a = (a / b) * b + (a % b)], the
    remainder is smaller than the divisor and has the sign of [a]. *)
Theorem int_division_spec `{E : Ext} checks line column a b :
  b <> 0%Z -> (a, b) <> (i64_min, (-1)%Z) ->
  exists q m,
    apply_binary_op checks line column Divide (VInteger a) (VInteger b) = Done (VInteger q) /\
    apply_binary_op checks line column Modulo (VInteger a) (VInteger b) = Done (VInteger m) /\
    a = (q * b + m)%Z /\ (Z.abs m < Z.abs b)%Z /\ (0 <= m * a)%Z.
Proof.
  intros Hb Hmin. exists (Z.quot a b), (Z.rem a b).
  assert (Hm : (a =? i64_min)%Z && (b =? -1)%Z = false).
  { apply andb_false_iff. rewrite !Z.eqb_neq.
    destruct (Z.eq_dec a i64_min) as [->|]; [right; congruence | by left]. }
  split_and!.
  - cbn [apply_binary_op]. rewrite op_divide_int, Hm. by rewrite (proj2 (Z.eqb_neq b 0) Hb).
  - cbn [apply_binary_op]. rewrite op_modulo_int, Hm. by rewrite (proj2 (Z.eqb_neq b 0) Hb).
  - rewrite Z.mul_comm. apply Z.quot_rem'.
  - by apply Z.rem_bound_abs.
  - destruct (Z.le_gt_cases 0 a).
    + pose proof (Z.rem_nonneg a b Hb). nia.
    + pose proof (Z.rem_nonpos a b Hb). nia.
Qed.

Lemma int_division_spec_witness :
  exists q m,
    @apply_binary_op demo_ext false 1 1 Divide (VInteger (-7)) (VInteger 2) = Done (VInteger q) /\
    @apply_binary_op demo_ext false 1 1 Modulo (VInteger (-7)) (VInteger 2) = Done (VInteger m) /\
    (-7 = q * 2 + m)%Z /\ (Z.abs m < 2)%Z /\ (0 <= m * -7)%Z.
Proof. apply (@int_division_spec demo_ext false 1 1 (-7) 2); discriminate. Defined.

(** ** Comparison *)

Lemma f64_cmp_swap x y : f64_cmp y x = CompOpp <$> f64_cmp x y.
Proof.
  unfold f64_cmp. destruct x as [s|s| |s m e], y as [t|t| |t n f]; cbn; try done;
    try by destruct s; try by destruct t; try by destruct s, t.
  destruct s, t; cbn; try done; rewrite (Z.compare_antisym e f);
    assert (Hp : Pos.compare_cont Eq n m = CompOpp (Pos.compare_cont Eq m n))
      by (rewrite Pos.compare_cont_antisym; done);
    rewrite Hp; by destruct (e ?= f)%Z, (Pos.compare_cont Eq m n).
Qed.

Lemma float_cmp_swap x y : float_cmp y x = CompOpp (float_cmp x y).
Proof. unfold float_cmp. rewrite f64_cmp_swap. by destruct (f64_cmp x y). Qed.

Lemma f64_cmp_None x y : f64_cmp x y = None -> x = S754_nan \/ y = S754_nan.
Proof. destruct x as [s|s| |s m e], y as [t|t| |t n f]; cbn; auto; by destruct s, t. Qed.

Lemma float_cmp_eqb x y :
  x <> S754_nan -> y <> S754_nan -> float_cmp x y = Eq <-> f64_eqb x y = true.
Proof.
  intros Hx Hy. unfold float_cmp, f64_eqb, SFeqb. fold (f64_cmp x y).
  destruct (f64_cmp x y) as [[]|] eqn:Hc; cbn; try done.
  by destruct (f64_cmp_None x y Hc).
Qed.

Definition not_nan `{Ext} (v : Value) : bool :=
  match v with VFloat x => negb (bool_decide (x = S754_nan)) | _ => true end.

(** The six comparisons agree with each other: where two values can be
    ordered, swapping the operands mirrors the result, [<=] and [>=] are the
    negations of [>] and [<], and, NaN aside, a value is both [<=] and [>=]
    another exactly when it is [==] to it. *)
Theorem comparisons_consistent `{E : Ext, !ExtLaws E} checks line column l r c :
  compare_values line column l r = Ok c ->
  let cmp op a b := apply_binary_op checks line column op a b in
  cmp OpLess l r = Done (VBoolean (is_lt c)) /\
  cmp OpGreater r l = Done (VBoolean (is_lt c)) /\
  cmp OpGreaterEqual l r = Done (VBoolean (negb (is_lt c))) /\
  cmp OpLessEqual r l = Done (VBoolean (negb (is_lt c))) /\
  (not_nan l = true -> not_nan r = true ->
     cmp OpEqual l r = Done (VBoolean (is_le c && is_ge c))).
Proof.
  intros Hc cmp.
  assert (Hsw : compare_values line column r l = Ok (CompOpp c)).
  { destruct l, r; try discriminate Hc; cbn [compare_values] in *; injection Hc as <-; f_equal;
      try apply Z.compare_antisym; try apply dec_cmp_antisym; try apply float_cmp_swap;
      apply String.compare_antisym. }
  unfold cmp. cbn [apply_binary_op]. unfold op_compare. rewrite Hc, Hsw.
  split_and!; try (by destruct c).
  intros Hl Hr. do 2 f_equal.
  assert (Heq : c = Eq <-> value_eqb l r = true).
  { destruct l, r; try discriminate Hc; cbn [compare_values] in Hc; injection Hc as <-;
      cbn [value_eqb not_nan] in *;
      rewrite ?negb_true_iff, ?bool_decide_eq_false in *;
      try apply dec_cmp_eqb; try (apply float_cmp_eqb; auto using f64_of_Z_not_nan).
    - by rewrite Z.compare_eq_iff, Z.eqb_eq.
    - rewrite String.eqb_eq. split; [apply String.compare_eq_iff | intros ->].
      pose proof (String.compare_antisym s0 s0) as H. by destruct (s0 ?= s0)%string. }
  destruct c; cbn.
  - by rewrite (proj1 Heq eq_refl).
  - apply not_true_is_false. intros Ht. by apply Heq in Ht.
  - apply not_true_is_false. intros Ht. by apply Heq in Ht.
Qed.

Lemma comparisons_consistent_witness :
  compare_values (E := demo_ext) 1 1 (VInteger 2) (VDecimal (dec_of_Z 3)) = Ok Lt /\
  apply_binary_op (E := demo_ext) false 1 1 OpGreater (VDecimal (dec_of_Z 3)) (VInteger 2)
    = Done (VBoolean true).
Proof.
  assert (H : compare_values (E := demo_ext) 1 1 (VInteger 2) (VDecimal (dec_of_Z 3)) = Ok Lt)
    by reflexivity.
  split; [exact H |].
  exact (proj1 (proj2 (@comparisons_consistent demo_ext demo_ext_laws false 1 1 _ _ _ H))).
Defined.
