(* ===== verification/Crates.v ===== *)
(** What the evaluator uses from third-party crates and from the tables of
    Rust's standard library, beyond [Ext]: case mapping, decimal rounding, time
    zones and calendar fields, base64, the JSON parser, and the [Debug] text the
    compiler derives.  None of that code is in the repository, so it is the
    class [Crates]; nothing is assumed of it.  [demo_crates] is a concrete
    instance, used by the examples. *)
From stdpp Require Import base list strings option.
From Stdlib Require Import ZArith Lia.
From S2P Require Import Prelude RustStr F64 Ast IndexMap Foreign QueryTypes Value.

(** chrono's [LocalResult]: a local time names one instant, two (a clock set
    back) or none (a clock set forward). *)
Inductive LocalResult (A : Type) : Type :=
| Single (a : A)
| Ambiguous (earliest latest : A)
| NoLocal.
Arguments Single {A} a.
Arguments Ambiguous {A} earliest latest.
Arguments NoLocal {A}.

(** The four engines of the base64 crate. *)
Inductive Base64Engine : Type :=
| BASE64_STANDARD | BASE64_STANDARD_NO_PAD | BASE64_URL_SAFE | BASE64_URL_SAFE_NO_PAD.

Class Crates (E : Ext) : Type := {
  (* str::to_uppercase and str::to_lowercase: the Unicode tables *)
  to_uppercase : string -> string;
  to_lowercase : string -> string;
  (* 10f64.powi(n), whose precision Rust leaves to the platform *)
  powi10 : Z -> f64;
  (* slice::sort_by on a list that holds a NaN: the comparison is no order;
     [None] is a panic *)
  sort_unordered : list Value -> option (list Value);
  (* rust_decimal *)
  dec_abs : decimal -> decimal;
  dec_floor : decimal -> decimal;
  dec_ceil : decimal -> decimal;
  dec_trunc : decimal -> decimal;
  dec_scale : decimal -> Z;
  dec_to_f64 : decimal -> option f64;
  dec_round_dp : Z -> decimal -> decimal;   (* midpoint to nearest even *)
  (* chrono, chrono-tz *)
  timezone : Type;
  tz_utc : timezone;
  tz_parse : string -> option timezone;
  tz_show : timezone -> string;
  from_local_datetime : timezone -> date -> time -> LocalResult instant;
  naive_show : date -> time -> string;
  to_local : timezone -> instant -> date * time;
  date_year : date -> Z;
  date_month : date -> Z;
  date_day : date -> Z;
  date_weekday : date -> Z;                 (* num_days_from_monday *)
  time_hour : time -> Z;
  time_minute : time -> Z;
  time_second : time -> Z;
  midnight : time;                          (* and_hms_opt(0, 0, 0) *)
  last_milli : time;                        (* and_hms_milli_opt(23, 59, 59, 999) *)
  instant_timestamp : instant -> Z;
  instant_from_timestamp : Z -> option instant;
  instant_cmp : instant -> instant -> comparison;
  date_cmp : date -> date -> comparison;
  time_cmp : time -> time -> comparison;
  instant_sub : instant -> instant -> duration;
  date_sub : date -> date -> duration;
  time_sub : time -> time -> duration;
  (* format(mask).to_string(); [None]: the mask cannot be rendered, a panic *)
  instant_format : string -> instant -> option string;
  date_format : string -> date -> option string;
  time_format : string -> time -> option string;
  (* base64; the bytes of a decoded text are a [string] *)
  base64_encode : Base64Engine -> string -> string;
  base64_decode : Base64Engine -> string -> result string string;
  utf8_error : string -> string;
  (* serde_json *)
  json_parse : string -> result string Json;
  json_show_pretty : Json -> string;
  (* #[derive(Debug)] *)
  debug_expression : Expression -> string;
  debug_value : Value -> string;
}.

(** * A concrete instance

    Over [demo_ext]: one time zone, days of 86400 seconds, text left as it is. *)
Definition demo_crates : Crates demo_ext := {|
  to_uppercase s := to_ascii_uppercase s;
  to_lowercase s := to_ascii_lowercase s;
  powi10 n := f64_of_Z (10 ^ n);
  sort_unordered l := Some l;
  dec_abs := (Z.abs : @decimal demo_ext -> @decimal demo_ext);
  dec_floor d := d; dec_ceil d := d; dec_trunc d := d;
  dec_scale _ := 0%Z;
  dec_to_f64 d := Some (f64_of_Z d);
  dec_round_dp _ d := d;
  timezone := unit;
  tz_utc := tt;
  tz_parse s := if String.eqb s "UTC" then Some tt else None;
  tz_show _ := "UTC";
  from_local_datetime _ d t := Single (86400 * d + t)%Z;
  naive_show d t := show_Z d +:+ " " +:+ show_Z t;
  to_local _ i := (i / 86400, i mod 86400)%Z;
  date_year d := (d / 365)%Z;
  date_month d := ((d mod 365) / 31 + 1)%Z;
  date_day d := (d mod 31 + 1)%Z;
  date_weekday d := (d mod 7)%Z;
  time_hour t := (t / 3600)%Z;
  time_minute t := (t / 60 mod 60)%Z;
  time_second t := (t mod 60)%Z;
  midnight := 0%Z;
  last_milli := 86399%Z;
  instant_timestamp i := i;
  instant_from_timestamp := Some;
  instant_cmp := Z.compare;
  date_cmp := Z.compare;
  time_cmp := Z.compare;
  instant_sub a b := (1000 * (a - b))%Z;
  date_sub a b := (86400000 * (a - b))%Z;
  time_sub a b := (1000 * (a - b))%Z;
  instant_format _ i := Some (show_Z i);
  date_format _ d := Some (show_Z d);
  time_format _ t := Some (show_Z t);
  base64_encode _ s := s;
  base64_decode _ s := Ok s;
  utf8_error _ := "invalid utf-8";
  json_parse s := if String.eqb s "null" then Ok JNull else Ok (JString s);
  json_show_pretty := @json_show demo_ext;
  debug_expression _ := "expression";
  debug_value := @show_value demo_ext;
|}.
