(* ===== verification/ValueMethods.v ===== *)
(** The methods of values: [Value::call_method_at] and the functions it
    dispatches to (src/src/value.rs).

    Integers are 64 bits wide and [overflow_checks] is the compiler's setting,
    as in Operators.v.  A method returns a value, an error at the position of
    the call, or panics. *)
From stdpp Require Import base list strings gmap.
From Stdlib Require Import ZArith Lia SpecFloat.
From S2P Require Import Prelude RustStr F64 Errors Ast IndexMap Foreign QueryTypes Value Operators Crates.

(** * [str] methods with a string pattern *)

(** Puts a byte in front of the first piece. *)
Definition cons_first (a : Ascii.ascii) (pieces : list string) : list string :=
  match pieces with [] => [String a EmptyString] | w :: ws => String a w :: ws end.

(** The pieces between the leftmost non-overlapping occurrences of a non-empty
    separator; [skip] bytes of the current occurrence are still to be passed. *)
Fixpoint split_pieces (sep : string) (skip : nat) (s : string) : list string :=
  match s with
  | EmptyString => [EmptyString]
  | String a s' =>
      match skip with
      | S k => split_pieces sep k s'
      | 0 => if String.prefix sep s
             then EmptyString :: split_pieces sep (String.length sep - 1) s'
             else cons_first a (split_pieces sep 0 s')
      end
  end.

(** [s.split(sep)]: the empty pattern matches around every character. *)
Definition split_str (sep s : string) : list string :=
  match sep with
  | EmptyString => EmptyString :: map (fun c => of_chars [c]) (chars s) ++ [EmptyString]
  | _ => split_pieces sep 0 s
  end.

(** [s.replace(old, new)]. *)
Definition replace_str (old new s : string) : string := join new (split_str old s).

Fixpoint ends_with (suffix s : string) : bool :=
  String.eqb suffix s || match s with EmptyString => false | String _ s' => ends_with suffix s' end.

(** * [f64] methods *)

Definition f64_abs : f64 -> f64 := SFabs.
Definition f64_sqrt : f64 -> f64 := SFsqrt f64_prec f64_emax.

(** Rounds a finite float to an integer [a], keeping the sign of a zero. *)
Definition f64_integral (s : bool) (a : Z) : f64 := binary_normalize f64_prec f64_emax a 0 s.

Definition f64_floor (x : f64) : f64 :=
  match x with
  | S754_finite s m e =>
      if (0 <=? e)%Z then x
      else f64_integral s ((if s then - Zpos m else Zpos m) / 2 ^ (- e))
  | _ => x
  end.

Definition f64_ceil (x : f64) : f64 := f64_neg (f64_floor (f64_neg x)).

(** [a.min(b)], [a.max(b)]: the other operand when one is NaN.  Rust does not
    say which of two zeros of different sign it returns; here the first. *)
Definition f64_min (a b : f64) : f64 :=
  match f64_cmp a b with
  | Some Gt => b
  | Some _ => a
  | None => match a with S754_nan => b | _ => a end
  end.

Definition f64_max (a b : f64) : f64 :=
  match f64_cmp a b with
  | Some Lt => b
  | Some _ => a
  | None => match a with S754_nan => b | _ => a end
  end.

(** [iter().sum::<f64>()] starts from the neutral element [-0.0]. *)
Definition f64_sum (l : list f64) : f64 := fold_left f64_add l (S754_zero true).

(** [n as usize], [n as u32], [n as i32] for an [i64]. *)
Definition to_usize (n : Z) : Z := (n mod 2 ^ 64)%Z.
Definition to_u32 (n : Z) : Z := (n mod 2 ^ 32)%Z.
Definition to_i32 (n : Z) : Z := ((n + 2 ^ 31) mod 2 ^ 32 - 2 ^ 31)%Z.

(** * Sorting *)

Section InsertionSort.
Context {A : Type} (cmp : A -> A -> comparison).

Fixpoint insert_sorted (x : A) (l : list A) : list A :=
  match l with
  | [] => [x]
  | y :: l' => match cmp x y with Gt => y :: insert_sorted x l' | _ => x :: l end
  end.

(** [slice::sort_by] is stable: equal elements keep their order. *)
Definition sort_by (l : list A) : list A := fold_right insert_sorted [] l.
End InsertionSort.

Section Methods.
Context `{E : Ext} `{C : !Crates E}.
Variable env_var : string -> option string.
Variable overflow_checks : bool.
Variables line column : nat.

Notation type_error := (type_error line column).

Definition property_not_found (object_type property : string) : Computed :=
  Fails (PropertyNotFound object_type property line column).

(** [expect_string_arg]. *)
Definition expect_string_arg (args : list Value) (index : nat) (method_name : string)
  : outcome MarretaError string :=
  match args !! index with
  | Some (VString s) => Done s
  | Some other =>
      Fails (TypeError (method_name +:+ " argument " +:+ show_nat (index + 1)
                        +:+ " must be a String, got " +:+ type_name other) line column)
  | None =>
      Fails (TypeError (method_name +:+ " requires at least " +:+ show_nat (index + 1)
                        +:+ " argument(s)") line column)
  end.

(** [s.find(needle)]: the byte offset of the first occurrence, or [-1]. *)
Definition find_offset (needle s : string) : Z :=
  match String.index 0 needle s with Some n => Z.of_nat n | None => (-1)%Z end.

Definition string_method (s : string) (method : string) (args : list Value) : Computed :=
  if String.eqb method "length" then Done (VInteger (Z.of_nat (String.length s)))
  else if String.eqb method "upper" then Done (VString (to_uppercase s))
  else if String.eqb method "lower" then Done (VString (to_lowercase s))
  else if String.eqb method "trim" then Done (VString (trim s))
  else if String.eqb method "contains" then
    substr ← expect_string_arg args 0 "contains"; Done (VBoolean (str_contains substr s))
  else if String.eqb method "split" then
    sep ← expect_string_arg args 0 "split"; Done (VList (map VString (split_str sep s)))
  else if String.eqb method "replace" then
    old ← expect_string_arg args 0 "replace";
    new ← expect_string_arg args 1 "replace";
    Done (VString (replace_str old new s))
  else if String.eqb method "to_string" then Done (VString s)
  else if String.eqb method "starts_with" then
    p ← expect_string_arg args 0 "starts_with"; Done (VBoolean (starts_with p s))
  else if String.eqb method "ends_with" then
    p ← expect_string_arg args 0 "ends_with"; Done (VBoolean (ends_with p s))
  else if String.eqb method "index_of" then
    needle ← expect_string_arg args 0 "index_of"; Done (VInteger (find_offset needle s))
  else property_not_found "String" method.

(** [current_timezone]. *)
Definition current_timezone : timezone := default tz_utc (env_var "MARRETA_TIMEZONE" ≫= tz_parse).

(** [resolve_local_datetime]: an error when the local time does not exist. *)
Definition resolve_local_datetime (tz : timezone) (d : date) (t : time) (prefer_latest : bool)
  : outcome MarretaError instant :=
  match from_local_datetime tz d t with
  | Single dt => Done dt
  | Ambiguous earliest latest => Done (if prefer_latest then latest else earliest)
  | NoLocal =>
      Fails (TypeError ("could not resolve local datetime '" +:+ naive_show d t
                        +:+ "' in timezone '" +:+ tz_show tz +:+ "'") 0 0)
  end.

(** The position of a type error is replaced by that of the call. *)
Definition relocate (e : MarretaError) : MarretaError :=
  match e with TypeError message _ _ => TypeError message line column | other => other end.

Definition time_method (t : time) (method : string) (args : list Value) : Computed :=
  if String.eqb method "on" then
    match args !! 0 with
    | Some (VDate d) =>
        match resolve_local_datetime current_timezone d t false with
        | Done combined => Done (VInstant combined)
        | Fails err => Fails (relocate err)
        | Panics => Panics
        | NoFuel => NoFuel
        end
    | Some other => type_error ("time.on() requires Date, got " +:+ type_name other)
    | None => type_error "time.on() requires a date argument"
    end
  else property_not_found "Time" method.

(** ** Lists *)

Definition sort_class (v : Value) : nat :=
  match v with VInteger _ => 0 | VFloat _ => 1 | VString _ => 2 | VBoolean _ => 3 | _ => 4 end.

Definition sort_number (v : Value) : option f64 :=
  match v with VInteger n => Some (f64_of_Z n) | VFloat x => Some x | _ => None end.

Definition bool_cmp (a b : bool) : comparison :=
  match a, b with true, false => Gt | false, true => Lt | _, _ => Eq end.

(** The comparison of [sort]: by class, then by value; integers are compared
    as floats. *)
Definition sort_compare (a b : Value) : comparison :=
  if sort_class a =? sort_class b then
    match a, b with
    | VInteger _, _ | VFloat _, _ =>
        let zero := S754_zero false in
        float_cmp (default zero (sort_number a)) (default zero (sort_number b))
    | VString x, VString y => String.compare x y
    | VBoolean x, VBoolean y => bool_cmp x y
    | _, _ => Eq
    end
  else Nat.compare (sort_class a) (sort_class b).

Definition is_nan_value (v : Value) : bool :=
  match v with VFloat S754_nan => true | _ => false end.

Definition sort_values (l : list Value) : Computed :=
  if existsb is_nan_value l then
    match sort_unordered l with Some sorted => Done (VList sorted) | None => Panics end
  else Done (VList (sort_by sort_compare l)).

(** [seen] and [result] of the loop are the same list. *)
Definition unique_values (l : list Value) : list Value :=
  fold_left (fun seen item =>
    if existsb (fun v => value_eqb v item) seen then seen else seen ++ [item]) l [].

Definition flatten_values (l : list Value) : list Value :=
  flat_map (fun item => match item with VList inner => inner | other => [other] end) l.

(** The bounds of [slice]: [n as usize], then clamped. *)
Definition slice_arg (args : list Value) (index : nat) : outcome MarretaError Z :=
  match args !! index with
  | Some (VInteger n) => Done (to_usize n)
  | Some other =>
      Fails (TypeError ("slice argument " +:+ show_nat (index + 1)
                        +:+ " must be Integer, got " +:+ type_name other) line column)
  | None => Fails (TypeError "slice requires 2 arguments" line column)
  end.

Definition slice_values (l : list Value) (from to : Z) : list Value :=
  let len := Z.of_nat (length l) in
  let from := Z.min from len in
  let to := Z.max (Z.min to len) from in
  take (Z.to_nat (to - from)) (drop (Z.to_nat from) l).

(** The loop of [sum]: the total so far and whether a float was seen. *)
Fixpoint sum_values (l : list Value) (total : f64) (saw_float : bool) : Computed :=
  match l with
  | [] => Done (if saw_float then VFloat total else VInteger (f64_to_i64 total))
  | VInteger n :: l => sum_values l (f64_add total (f64_of_Z n)) saw_float
  | VFloat x :: l => sum_values l (f64_add total x) true
  | other :: _ => type_error ("sum() requires a numeric list, got " +:+ type_name other)
  end.

(** [numeric_list]. *)
Definition numeric_list (l : list Value) (method_name : string) : outcome MarretaError (list f64) :=
  collect_outcome (fun value =>
    match value with
    | VInteger n => Done (f64_of_Z n)
    | VFloat x => Done x
    | other => Fails (TypeError (method_name +:+ "() requires a numeric list, got "
                                 +:+ type_name other) line column)
    end) l.

Definition f64_mean (nums : list f64) : f64 :=
  f64_div (f64_sum nums) (f64_of_Z (Z.of_nat (length nums))).

(** The element in the middle, or the mean of the two; the list is not empty.
    The comparison of the floats is that of [sort]. *)
Definition f64_median (nums : list f64) : outcome MarretaError f64 :=
  match sort_values (map VFloat nums) with
  | Done (VList sorted) =>
      let sorted := omap sort_number sorted in
      let mid := length sorted / 2 in
      if Nat.even (length sorted) then
        match sorted !! (mid - 1), sorted !! mid with
        | Some a, Some b => Done (f64_div (f64_add a b) (f64_of_Z 2))
        | _, _ => Panics
        end
      else match sorted !! mid with Some a => Done a | None => Panics end
  | _ => Panics
  end.

Definition f64_std_dev (nums : list f64) : f64 :=
  let mean := f64_mean nums in
  let squares := map (fun n => let delta := f64_sub n mean in f64_mul delta delta) nums in
  f64_sqrt (f64_div (f64_sum squares) (f64_of_Z (Z.of_nat (length nums)))).

Definition list_method (l : list Value) (method : string) (args : list Value) : Computed :=
  if String.eqb method "length" then Done (VInteger (Z.of_nat (length l)))
  else if String.eqb method "first" then Done (default VNull (head l))
  else if String.eqb method "last" then Done (default VNull (last l))
  else if String.eqb method "empty?" then Done (VBoolean (bool_decide (length l = 0)))
  else if String.eqb method "push" then
    match args with
    | [] => type_error "push requires 1 argument"
    | a :: _ => Done (VList (l ++ [a]))
    end
  else if String.eqb method "includes" then
    match args with
    | [] => type_error "includes requires 1 argument"
    | a :: _ => Done (VBoolean (existsb (fun v => value_eqb v a) l))
    end
  else if String.eqb method "reverse" then Done (VList (rev l))
  else if String.eqb method "join" then
    sep ← expect_string_arg args 0 "join"; Done (VString (join sep (map show_value l)))
  else if String.eqb method "sort" then sort_values l
  else if String.eqb method "unique" then Done (VList (unique_values l))
  else if String.eqb method "flatten" then Done (VList (flatten_values l))
  else if String.eqb method "slice" then
    from ← slice_arg args 0;
    to ← slice_arg args 1;
    Done (VList (slice_values l from to))
  else if String.eqb method "sum" then
    match l with [] => Done (VInteger 0) | _ => sum_values l (S754_zero false) false end
  else if String.eqb method "mean" then
    match l with
    | [] => Done VNull
    | _ => nums ← numeric_list l method; Done (VFloat (f64_mean nums))
    end
  else if String.eqb method "median" then
    match l with
    | [] => Done VNull
    | _ => nums ← numeric_list l method; m ← f64_median nums; Done (VFloat m)
    end
  else if String.eqb method "std_dev" then
    match l with
    | [] => Done VNull
    | _ => nums ← numeric_list l method; Done (VFloat (f64_std_dev nums))
    end
  else if String.eqb method "zip" then
    match args with
    | [VList other] =>
        if length l =? length other
        then Done (VList (zip_with (fun left right => VList [left; right]) l other))
        else Fails (RuntimeError "zip() requires lists of the same length" line column)
    | [other] => type_error ("zip() requires a List argument, got " +:+ type_name other)
    | _ => type_error "zip() requires exactly 1 argument"
    end
  else property_not_found "List" method.

(** ** Maps *)

Definition map_method (m : list (string * Value)) (method : string) (args : list Value) : Computed :=
  if String.eqb method "keys" then Done (VList (map VString (IM.keys m)))
  else if String.eqb method "values" then Done (VList (map snd m))
  else if String.eqb method "has" then
    key ← expect_string_arg args 0 "has"; Done (VBoolean (IM.contains_key key m))
  else if String.eqb method "merge" then
    match args with
    | [] => type_error "merge requires 1 argument"
    | VMap other :: _ => Done (VMap (IM.extend m other))
    | _ :: _ => type_error "merge argument must be a Map"
    end
  else if String.eqb method "delete" then
    key ← expect_string_arg args 0 "delete";
    Done (VMap (IM.from_pairs (List.filter (fun kv => negb (String.eqb (fst kv) key)) m)))
  else if String.eqb method "size" then Done (VInteger (Z.of_nat (length m)))
  else property_not_found "Map" method.

(** ** Numbers *)

(** The [min] and [max] methods of an integer and of a float. *)
Definition integer_extremum (name : string) (n : Z) (args : list Value)
    (int_op : Z -> Z -> Z) (float_op : f64 -> f64 -> f64) : Computed :=
  match args !! 0 with
  | Some (VInteger other) => Done (VInteger (int_op n other))
  | Some (VFloat other) => Done (VFloat (float_op (f64_of_Z n) other))
  | Some other => type_error (name +:+ " argument must be Integer or Float, got " +:+ type_name other)
  | None => type_error (name +:+ " requires 1 argument")
  end.

Definition float_extremum (name : string) (x : f64) (args : list Value)
    (float_op : f64 -> f64 -> f64) : Computed :=
  match args !! 0 with
  | Some (VInteger other) => Done (VFloat (float_op x (f64_of_Z other)))
  | Some (VFloat other) => Done (VFloat (float_op x other))
  | Some other => type_error (name +:+ " argument must be Integer or Float, got " +:+ type_name other)
  | None => type_error (name +:+ " requires 1 argument")
  end.

Definition integer_method (n : Z) (method : string) (args : list Value) : Computed :=
  if String.eqb method "abs" then int_result overflow_checks (Z.abs n)
  else if String.eqb method "min" then integer_extremum "min" n args Z.min f64_min
  else if String.eqb method "max" then integer_extremum "max" n args Z.max f64_max
  else property_not_found "Integer" method.

Definition boolean_method (method : string) : Computed := property_not_found "Boolean" method.

Definition float_method (x : f64) (method : string) (args : list Value) : Computed :=
  if String.eqb method "abs" then Done (VFloat (f64_abs x))
  else if String.eqb method "round" then
    match args with
    | [] => Done (VFloat (f64_round x))
    | VInteger places :: _ =>
        let factor := powi10 (to_i32 places) in
        Done (VFloat (f64_div (f64_round (f64_mul x factor)) factor))
    | other :: _ => type_error ("round argument must be Integer, got " +:+ type_name other)
    end
  else if String.eqb method "floor" then Done (VFloat (f64_floor x))
  else if String.eqb method "ceil" then Done (VFloat (f64_ceil x))
  else if String.eqb method "min" then float_extremum "min" x args f64_min
  else if String.eqb method "max" then float_extremum "max" x args f64_max
  else property_not_found "Float" method.

Definition decimal_to_integer (d : decimal) : Z := default 0%Z (dec_to_i64 (dec_trunc d)).
Definition decimal_to_float (d : decimal) : f64 := default (S754_zero false) (dec_to_f64 d).

Definition decimal_method (d : decimal) (method : string) (args : list Value) : Computed :=
  if String.eqb method "abs" then Done (VDecimal (dec_abs d))
  else if String.eqb method "floor" then Done (VDecimal (dec_floor d))
  else if String.eqb method "ceil" then Done (VDecimal (dec_ceil d))
  else if String.eqb method "trunc" then Done (VDecimal (dec_trunc d))
  else if String.eqb method "scale" then Done (VInteger (dec_scale d))
  else if String.eqb method "to_string" then Done (VString (dec_show d))
  else if String.eqb method "to_integer" then Done (VInteger (decimal_to_integer d))
  else if String.eqb method "to_float" then Done (VFloat (decimal_to_float d))
  else if String.eqb method "round" then
    let error other :=
      type_error ("round argument must be non-negative Integer, got " +:+ type_name other) in
    match args with
    | [] => Done (VDecimal (dec_round_dp 0 d))
    | [VInteger places] =>
        if (0 <=? places)%Z then Done (VDecimal (dec_round_dp (to_u32 places) d))
        else error (VInteger places)
    | [other] => error other
    | _ => type_error "round requires zero or one argument"
    end
  else property_not_found "Decimal" method.

(** ** Conversions, and the dispatch *)

Definition convert_to_integer (v : Value) : Value :=
  VInteger match v with
           | VInteger n => n
           | VFloat x => f64_to_i64 x
           | VDecimal d => decimal_to_integer d
           | VString s => default 0%Z (parse_i64 (trim s))
           | VBoolean b => if b then 1%Z else 0%Z
           | _ => 0%Z
           end.

Definition convert_to_float (v : Value) : Value :=
  VFloat match v with
         | VInteger n => f64_of_Z n
         | VFloat x => x
         | VDecimal d => decimal_to_float d
         | VString s => default (S754_zero false) (parse_f64 (trim s))
         | VBoolean b => if b then f64_of_Z 1 else S754_zero false
         | _ => S754_zero false
         end.

Definition is_conversion (method : string) : bool :=
  String.eqb method "to_integer" || String.eqb method "to_float"
  || String.eqb method "to_boolean" || String.eqb method "to_string".

Definition call_method_at (v : Value) (method : string) (args : list Value) : Computed :=
  if is_conversion method && negb (bool_decide (args = [])) then
    type_error (method +:+ "() takes no arguments")
  else if String.eqb method "to_integer" then Done (convert_to_integer v)
  else if String.eqb method "to_float" then Done (convert_to_float v)
  else if String.eqb method "to_boolean" then Done (VBoolean (is_truthy v))
  else if String.eqb method "to_string" then Done (VString (show_value v))
  else
    match v with
    | VString s => string_method s method args
    | VList l => list_method l method args
    | VMap m => map_method m method args
    | VInteger n => integer_method n method args
    | VBoolean _ => boolean_method method
    | VFloat x => float_method x method args
    | VDecimal d => decimal_method d method args
    | VTime t => time_method t method args
    | _ => property_not_found (type_name v) method
    end.

End Methods.
