(* ===== verification/ValueMethodFacts.v ===== *)
(** The methods of values: sorting is a stable sort, splitting and joining are
    inverse, and integers are compared as floats. *)
From stdpp Require Import base list strings sorting.
From Stdlib Require Import ZArith Lia SpecFloat Sorting.Sorted.
From S2P Require Import Prelude RustStr F64 Errors Ast IndexMap Foreign QueryTypes Value Operators Crates ValueMethods.

(** * Insertion sort

    For a comparison that is a total preorder on the elements of a list. *)
Section Sort.
Context {A : Type} (cmp : A -> A -> comparison) (P : A -> Prop).
Hypothesis cmp_antisym : forall a b, cmp b a = CompOpp (cmp a b).
Hypothesis cmp_trans : forall a b c, P a -> P b -> P c -> cmp a b <> Gt -> cmp b c <> Gt -> cmp a c <> Gt.

Definition le (a b : A) : Prop := cmp a b <> Gt.
Definition same (a b : A) : bool := match cmp a b with Eq => true | _ => false end.

Lemma insert_permutation x l : insert_sorted cmp x l ≡ₚ x :: l.
Proof.
  induction l as [|y l IH]; cbn; [done |]. destruct (cmp x y); [done.. |].
  rewrite IH. apply Permutation_swap.
Qed.

Lemma sort_permutation l : sort_by cmp l ≡ₚ l.
Proof. induction l as [|x l IH]; cbn; [done |]. by rewrite insert_permutation, IH. Qed.

Lemma insert_sorted_sorted x l :
  P x -> Forall P l -> StronglySorted le l -> StronglySorted le (insert_sorted cmp x l).
Proof.
  intros Hx Hl. induction 1 as [|y l Hs IH Hy]; cbn; [by repeat constructor |].
  apply Forall_cons in Hl as [HPy Hl].
  assert (Hle : cmp x y <> Gt -> StronglySorted le (x :: y :: l)).
  { intros Hxy. constructor; [by constructor |]. constructor; [exact Hxy |].
    rewrite Forall_forall in *. intros z Hz. apply (cmp_trans x y z); auto. by apply Hy. }
  destruct (cmp x y) eqn:Hc; [by apply Hle.. |]. constructor; [by apply IH |].
  rewrite insert_permutation. constructor; [| done]. unfold le. by rewrite cmp_antisym, Hc.
Qed.

Lemma sort_Forall l : Forall P l -> Forall P (sort_by cmp l).
Proof. by rewrite sort_permutation. Qed.

Lemma sort_sorted l : Forall P l -> StronglySorted le (sort_by cmp l).
Proof.
  induction 1 as [|x l Hx Hl IH]; cbn; [constructor |].
  apply insert_sorted_sorted; [done | by apply sort_Forall | done].
Qed.

(** Equal elements keep their order. *)
Lemma insert_stable a x l :
  P a -> P x -> Forall P l -> StronglySorted le l ->
  List.filter (same a) (insert_sorted cmp x l) = List.filter (same a) (x :: l).
Proof.
  intros Ha Hx Hl Hs. induction Hs as [|y l Hs IH Hy]; cbn [insert_sorted]; [done |].
  apply Forall_cons in Hl as [HPy Hl].
  destruct (cmp x y) eqn:Hc; [done.. |]. cbn [List.filter]. rewrite IH by done. cbn [List.filter].
  destruct (same a y) eqn:Hay, (same a x) eqn:Hax; try done. exfalso.
  unfold same in *. destruct (cmp a y) eqn:Hay', (cmp a x) eqn:Hax'; try discriminate.
  assert (cmp x a <> Gt) as Hxa by (by rewrite cmp_antisym, Hax').
  apply (cmp_trans x a y) in Hxa; [done.. |]. by rewrite Hay'.
Qed.

Lemma sort_stable a l :
  P a -> Forall P l -> List.filter (same a) (sort_by cmp l) = List.filter (same a) l.
Proof.
  intros Ha. induction 1 as [|x l Hx Hl IH]; cbn [sort_by fold_right]; [done |].
  rewrite insert_stable; [cbn [List.filter]; by rewrite <- IH | done | done | |].
  - by apply sort_Forall.
  - by apply sort_sorted.
Qed.
End Sort.

Lemma StronglySorted_weaken {A} (R R' : A -> A -> Prop) l :
  (forall a b, R a b -> R' a b) -> StronglySorted R l -> StronglySorted R' l.
Proof.
  intros H. induction 1 as [|x l Hs IH Hx]; constructor; [done |].
  eapply Forall_impl; [exact Hx | auto].
Qed.

(** * The order of floats *)

(** The place of a float in the order, lexicographic; NaN has none. *)
Definition float_rank (x : f64) : Z * Z * Z :=
  match x with
  | S754_infinity true => (-2, 0, 0)%Z
  | S754_finite true m e => (-1, - e, Zneg m)%Z
  | S754_finite false m e => (1, e, Zpos m)%Z
  | S754_infinity false => (2, 0, 0)%Z
  | S754_zero _ | S754_nan => (0, 0, 0)%Z
  end.

Definition lex (a b : Z * Z * Z) : comparison :=
  let '(a1, a2, a3) := a in
  let '(b1, b2, b3) := b in
  match (a1 ?= b1)%Z with
  | Eq => match (a2 ?= b2)%Z with Eq => (a3 ?= b3)%Z | c => c end
  | c => c
  end.

Lemma lex_le a1 a2 a3 b1 b2 b3 :
  lex (a1, a2, a3) (b1, b2, b3) <> Gt <->
  (a1 < b1 \/ a1 = b1 /\ (a2 < b2 \/ a2 = b2 /\ a3 <= b3))%Z.
Proof.
  unfold lex. destruct (Z.compare_spec a1 b1), (Z.compare_spec a2 b2), (Z.compare_spec a3 b3);
    split; done || lia.
Qed.

Lemma lex_le_trans a b c : lex a b <> Gt -> lex b c <> Gt -> lex a c <> Gt.
Proof.
  destruct a as [[a1 a2] a3], b as [[b1 b2] b3], c as [[c1 c2] c3]. rewrite !lex_le. lia.
Qed.

Lemma float_cmp_rank x y :
  x <> S754_nan -> y <> S754_nan -> float_cmp x y = lex (float_rank x) (float_rank y).
Proof.
  unfold float_cmp, f64_cmp. intros Hx Hy.
  destruct x as [[]|[]| |[] m e], y as [[]|[]| |[] m' e']; try done; cbn;
    rewrite ?Z.compare_opp; try rewrite (Z.compare_antisym e e');
    destruct (e ?= e')%Z; cbn; try done.
Qed.

(** * Small integers as floats

    Below 2^53 the conversion is exact, so the comparison of the floats is the
    comparison of the integers. *)
Lemma digits2_pos_log p : Zpos (digits2_pos p) = (Z.log2 (Zpos p) + 1)%Z.
Proof.
  induction p as [p IH|p IH|]; cbn [digits2_pos]; [| | reflexivity];
    rewrite Pos2Z.inj_succ, IH.
  - by rewrite Pos2Z.inj_xI, Z.log2_succ_double.
  - by rewrite Pos2Z.inj_xO, Z.log2_double.
Qed.

Lemma iter_xO p k : Zpos (Pos.iter xO p k) = (Zpos p * 2 ^ Zpos k)%Z.
Proof.
  induction k as [|k IH] using Pos.peano_ind; [by rewrite Z.mul_comm |].
  rewrite Pos.iter_succ, Pos2Z.inj_xO, IH, Pos2Z.inj_succ, Z.pow_succ_r by lia. lia.
Qed.

(** The mantissa is shifted to 53 bits. *)
Lemma binary_round_small s p :
  (Zpos p < 2 ^ 53)%Z ->
  exists m, binary_round f64_prec f64_emax s p 0
            = S754_finite s m (Z.log2 (Zpos p) - 52)
    /\ Zpos m = (Zpos p * 2 ^ (52 - Z.log2 (Zpos p)))%Z.
Proof.
  intros Hp. set (l := Z.log2 (Zpos p)).
  assert (0 <= l <= 52)%Z as Hl.
  { split; [apply Z.log2_nonneg |]. enough (l < 53)%Z by lia. by apply Z.log2_lt_pow2. }
  assert (Hfexp : forall k, (0 <= k)%Z -> fexp f64_prec f64_emax (k + 1) = (k - 52)%Z).
  { intros k Hk. unfold fexp, emin, f64_prec, f64_emax. lia. }
  assert (Halign : exists m, shl_align p 0 (l - 52) = (m, (l - 52)%Z)
                             /\ Zpos m = (Zpos p * 2 ^ (52 - l))%Z).
  { unfold shl_align. rewrite Z.sub_0_r. destruct (l - 52)%Z as [|k|k] eqn:Hk; [| lia |].
    - exists p. split; [done |]. replace (52 - l)%Z with 0%Z by lia. by rewrite Z.mul_1_r.
    - eexists. split; [done |]. rewrite iter_xO. do 2 f_equal. lia. }
  destruct Halign as (m & Halign & Hm). exists m. split; [| done].
  unfold binary_round. rewrite digits2_pos_log. fold l. rewrite Z.add_0_r, Hfexp, Halign by lia.
  assert (Hd : Zdigits2 (Zpos m) = 53%Z).
  { cbn [Zdigits2]. rewrite digits2_pos_log, Hm, Z.log2_mul_pow2 by lia. fold l. lia. }
  assert (Hshr : shr_fexp f64_prec f64_emax (Zpos m) (l - 52) loc_Exact
                 = ({| shr_m := Zpos m; shr_r := false; shr_s := false |}, (l - 52)%Z)).
  { unfold shr_fexp. rewrite Hd. replace (53 + (l - 52))%Z with (l + 1)%Z by lia.
    rewrite Hfexp by lia. by rewrite Z.sub_diag. }
  unfold binary_round_aux. rewrite Hshr. cbn [shr_m loc_of_shr_record round_nearest_even].
  rewrite Hshr. cbn [shr_m]. unfold f64_emax, f64_prec. by rewrite (proj2 (Z.leb_le _ _)) by lia.
Qed.

Lemma pos_compare_scaled p q m n k :
  Zpos m = (Zpos p * 2 ^ k)%Z -> Zpos n = (Zpos q * 2 ^ k)%Z -> (0 <= k)%Z ->
  Pos.compare_cont Eq m n = (Zpos p ?= Zpos q)%Z.
Proof.
  intros Hm Hn Hk. change (Pos.compare_cont Eq m n) with (Zpos m ?= Zpos n)%Z.
  rewrite Hm, Hn. symmetry. apply Zmult_compare_compat_r. 
  pose proof (Z.pow_pos_nonneg 2 k). lia.
Qed.

Lemma f64_cmp_small a b :
  (Z.abs a < 2 ^ 53)%Z -> (Z.abs b < 2 ^ 53)%Z ->
  f64_cmp (f64_of_Z a) (f64_of_Z b) = Some (a ?= b)%Z.
Proof.
  intros Ha Hb. unfold f64_of_Z, binary_normalize, f64_cmp.
  destruct a as [|p|p], b as [|q|q]; unfold Z.abs in Ha, Hb; try reflexivity;
    repeat match goal with
    | H : (Zpos ?p < 2 ^ 53)%Z |- context [binary_round _ _ ?s ?p 0] =>
        destruct (binary_round_small s p H) as (? & -> & ?)
    end; cbn [SFcompare]; try reflexivity; f_equal.
  - destruct (Z.compare_spec (Z.log2 (Zpos p) - 52) (Z.log2 (Zpos q) - 52)) as [He|He|He].
    + eapply pos_compare_scaled; [eassumption | replace (Z.log2 (Zpos p)) with (Z.log2 (Zpos q)) by lia; eassumption |].
      enough (Z.log2 (Zpos p) < 53)%Z by lia. by apply Z.log2_lt_pow2.
    + symmetry. apply Z.compare_lt_iff, Z.log2_lt_cancel. lia.
    + symmetry. apply Z.compare_gt_iff, Z.log2_lt_cancel. lia.
  - rewrite <- Pos2Z.opp_pos, <- (Pos2Z.opp_pos q), Z.compare_opp. rewrite (Z.compare_antisym (Zpos p)).
    destruct (Z.compare_spec (Z.log2 (Zpos p) - 52) (Z.log2 (Zpos q) - 52)) as [He|He|He].
    + f_equal. eapply pos_compare_scaled; [eassumption | replace (Z.log2 (Zpos p)) with (Z.log2 (Zpos q)) by lia; eassumption |].
      enough (Z.log2 (Zpos p) < 53)%Z by lia. by apply Z.log2_lt_pow2.
    + symmetry. rewrite (proj2 (Z.compare_lt_iff _ _)); [done |]. apply Z.log2_lt_cancel. lia.
    + symmetry. rewrite (proj2 (Z.compare_gt_iff _ _)); [done |]. apply Z.log2_lt_cancel. lia.
Qed.

(** * Sorting values *)

Section SortValues.
Context `{E : Ext}.

Definition sortable (v : Value) : Prop := is_nan_value v = false.

Lemma sort_compare_antisym a b : sort_compare b a = CompOpp (sort_compare a b).
Proof.
  unfold sort_compare. rewrite (Nat.eqb_sym (sort_class b)), (Nat.compare_antisym (sort_class a)).
  destruct (sort_class a =? sort_class b) eqn:Hc; [| by destruct (Nat.compare _ _)].
  destruct a, b; try discriminate Hc; cbn; try done; try apply float_cmp_swap.
  - apply String.compare_antisym.
  - by destruct b, b0.
Qed.
Lemma string_compare_trans a b c :
  String.compare a b <> Gt -> String.compare b c <> Gt -> String.compare a c <> Gt.
Proof.
  revert b c. induction a as [|x a IH]; intros [|y b] [|z c]; cbn; try done.
  unfold Ascii.compare.
  destruct (N.compare_spec (Ascii.N_of_ascii x) (Ascii.N_of_ascii y)),
    (N.compare_spec (Ascii.N_of_ascii y) (Ascii.N_of_ascii z)),
    (N.compare_spec (Ascii.N_of_ascii x) (Ascii.N_of_ascii z)); try done; try lia. apply IH.
Qed.

Lemma float_cmp_trans x y z :
  x <> S754_nan -> y <> S754_nan -> z <> S754_nan ->
  float_cmp x y <> Gt -> float_cmp y z <> Gt -> float_cmp x z <> Gt.
Proof. intros Hx Hy Hz. rewrite !float_cmp_rank by done. apply lex_le_trans. Qed.

Lemma sort_compare_trans a b c :
  sortable a -> sortable b -> sortable c ->
  sort_compare a b <> Gt -> sort_compare b c <> Gt -> sort_compare a c <> Gt.
Proof.
  intros Ha Hb Hc. unfold sort_compare.
  assert (Hnum : forall v y, sortable v -> sort_number v = Some y -> y <> S754_nan).
  { intros v y Hv Hy. destruct v; try discriminate Hy; injection Hy as <-; [apply f64_of_Z_not_nan |].
    by intros ->. }
  destruct (Nat.eqb_spec (sort_class a) (sort_class b)) as [Hab|Hab],
    (Nat.eqb_spec (sort_class b) (sort_class c)) as [Hbc|Hbc],
    (Nat.eqb_spec (sort_class a) (sort_class c)) as [Hac|Hac]; try congruence; try lia;
    rewrite ?Nat.compare_gt_iff; try lia.
  destruct a; try done; (destruct b; try discriminate Hab); (destruct c; try discriminate Hbc);
    cbn [sort_number default].
  - apply float_cmp_trans; apply f64_of_Z_not_nan.
  - apply float_cmp_trans; [apply (Hnum _ _ Ha) | apply (Hnum _ _ Hb) | apply (Hnum _ _ Hc)]; done.
  - apply string_compare_trans.
  - by destruct b0, b, b1.
Qed.

(** ** The order, written without the comparison of the source *)

(** The order of strings: that of their bytes, a prefix first. *)
Definition string_before (x y : string) : Prop :=
  exists common, (exists c rest, x = common /\ y = common +:+ String c rest) \/
    (exists c c' rest rest', x = common +:+ String c rest /\ y = common +:+ String c' rest'
       /\ (ch c < ch c')%N).

(** Integers, floats, strings, booleans, and then everything else. *)
Definition kind_rank (v : Value) : nat :=
  match v with VInteger _ => 0 | VFloat _ => 1 | VString _ => 2 | VBoolean _ => 3 | _ => 4 end.

(** [precedes a b]: [a] has to stand before [b] in a sorted list. *)
Inductive precedes : Value -> Value -> Prop :=
| precedes_kind a b : kind_rank a < kind_rank b -> precedes a b
| precedes_integer a b : SFltb (f64_of_Z a) (f64_of_Z b) = true -> precedes (VInteger a) (VInteger b)
| precedes_float x y : SFltb x y = true -> precedes (VFloat x) (VFloat y)
| precedes_string x y : string_before x y -> precedes (VString x) (VString y)
| precedes_boolean : precedes (VBoolean false) (VBoolean true).

Lemma string_before_cons c x y : string_before x y -> string_before (String c x) (String c y).
Proof.
  intros (common & [(d & rest & -> & ->) | (d & d' & rest & rest' & -> & -> & Hlt)]);
    exists (String c common); [left; by exists d, rest | right; by exists d, d', rest, rest'].
Qed.

Lemma string_before_iff x y : String.compare x y = Lt <-> string_before x y.
Proof.
  split.
  - revert y. induction x as [|c x IH]; intros [|d y]; cbn; try done.
    + intros _. exists EmptyString. left. by exists d, y.
    + unfold Ascii.compare.
      destruct (N.compare_spec (Ascii.N_of_ascii c) (Ascii.N_of_ascii d)) as [Heq|Hlt|]; try done.
      * apply (f_equal Ascii.ascii_of_N) in Heq. rewrite !Ascii.ascii_N_embedding in Heq. subst d.
        intros H. by apply string_before_cons, IH.
      * intros _. exists EmptyString. right. by exists c, d, x, y.
  - assert (Hcons : forall c x y, String.compare (String c x) (String c y) = String.compare x y).
    { intros c x' y'. cbn. unfold Ascii.compare. by rewrite N.compare_refl. }
    intros (common & H). revert x y H. induction common as [|e common IH]; intros x y H.
    + destruct H as [(c & rest & -> & ->) | (c & c' & rest & rest' & -> & -> & Hlt)]; [done |].
      change (EmptyString +:+ ?s) with s. cbn. unfold Ascii.compare. unfold ch in Hlt.
      by rewrite (proj2 (N.compare_lt_iff _ _) Hlt).
    + destruct H as [(c & rest & -> & ->) | (c & c' & rest & rest' & -> & -> & Hlt)];
        change (String e common +:+ ?s) with (String e (common +:+ s)); rewrite Hcons; apply IH;
        [left; by exists c, rest | right; by exists c, c', rest, rest'].
Qed.

Lemma float_cmp_lt x y : float_cmp x y = Lt <-> SFltb x y = true.
Proof. unfold float_cmp, f64_cmp, SFltb. by destruct (SFcompare x y) as [[]|]. Qed.

(** The comparison of the source decides that order. *)
Lemma precedes_iff a b : precedes a b <-> sort_compare a b = Lt.
Proof.
  change kind_rank with sort_class. unfold sort_compare. split.
  - destruct 1 as [a b H| a b H|x y H|x y H|].
    + change kind_rank with sort_class in H. destruct (Nat.eqb_spec (sort_class a) (sort_class b)); [lia |].
      by apply Nat.compare_lt_iff.
    + cbn. by apply float_cmp_lt.
    + cbn. by apply float_cmp_lt.
    + cbn. by apply string_before_iff.
    + done.
  - destruct (Nat.eqb_spec (sort_class a) (sort_class b)) as [Heq|Hne].
    + destruct a, b; try discriminate Heq; try done; cbn [sort_number default].
      * intros H%float_cmp_lt. by constructor.
      * intros H%float_cmp_lt. by constructor.
      * intros H%string_before_iff. by constructor.
      * destruct b0, b; try done. intros _. exact precedes_boolean.
    + intros H%Nat.compare_lt_iff. by constructor.
Qed.

#[export] Instance precedes_dec a b : Decision (precedes a b).
Proof.
  destruct (sort_compare a b) eqn:H; [right | left | right]; rewrite precedes_iff; congruence.
Defined.

(** Neither of two elements has to stand before the other. *)
Definition tied (a b : Value) : Prop := ~ precedes a b /\ ~ precedes b a.

#[export] Instance tied_dec a b : Decision (tied a b).
Proof. unfold tied. apply _. Defined.

Lemma same_tied a b : same sort_compare a b = bool_decide (tied a b).
Proof.
  assert (Hiff : tied a b <-> sort_compare a b = Eq).
  { unfold tied. rewrite !precedes_iff, (sort_compare_antisym a b). destruct (sort_compare a b); cbn; intuition congruence. }
  unfold same. destruct (sort_compare a b) eqn:H; symmetry;
    [apply bool_decide_eq_true_2 | apply bool_decide_eq_false_2..]; rewrite Hiff; congruence.
Qed.

Lemma filter_tied v l : List.filter (same sort_compare v) l = filter (tied v) l.
Proof.
  induction l as [|a l IH]; [done |]. cbn [List.filter]. rewrite filter_cons, IH, same_tied.
  by destruct (decide (tied v a)) as [H|H]; [rewrite bool_decide_true by done | rewrite bool_decide_false by done].
Qed.

Lemma precedes_small a b :
  (Z.abs a < 2 ^ 53)%Z -> (Z.abs b < 2 ^ 53)%Z -> precedes (VInteger a) (VInteger b) <-> (a < b)%Z.
Proof.
  intros Ha Hb. rewrite precedes_iff.
  change (float_cmp (f64_of_Z a) (f64_of_Z b) = Lt <-> (a < b)%Z).
  unfold float_cmp. rewrite f64_cmp_small by done. apply Z.compare_lt_iff.
Qed.

(** C34: [sort] of a list without NaN gives a list with the same elements in
    ascending order.  The order is written without the comparison of the
    source: integers before floats, floats before strings, strings before
    booleans, booleans before all other values; integers and floats by value,
    ascending (integers as floats, which below 2^53 is their own order);
    strings by their bytes, a prefix first; [false] before [true].  No element
    stands after one that it has to precede, and elements of which neither has
    to precede the other stay in the order they were. *)
Theorem sort_method_spec env_var checks line column `{C : !Crates E} l :
  existsb is_nan_value l = false ->
  (exists sorted,
    call_method_at env_var checks line column (VList l) "sort" [] = Done (VList sorted)
    /\ sorted ≡ₚ l
    /\ StronglySorted (fun a b => ~ precedes b a) sorted
    /\ forall v, sortable v -> filter (tied v) sorted = filter (tied v) l) /\
  (forall a b, (Z.abs a < 2 ^ 53)%Z -> (Z.abs b < 2 ^ 53)%Z ->
     precedes (VInteger a) (VInteger b) <-> (a < b)%Z).
Proof.
  intros Hn. split; [| exact precedes_small].
  assert (Hl : Forall sortable l).
  { rewrite Forall_forall. intros v Hv. apply not_true_iff_false. intros Ht.
    apply not_true_iff_false in Hn. apply Hn, existsb_exists. exists v.
    by rewrite <- list_elem_of_In. }
  exists (sort_by sort_compare l).
  pose proof (fun a b c => sort_compare_trans a b c) as Htr.
  split_and!.
  - unfold call_method_at, list_method, sort_values. cbn. by rewrite Hn.
  - apply sort_permutation.
  - eapply StronglySorted_weaken;
      [| exact (sort_sorted sort_compare sortable sort_compare_antisym Htr l Hl)].
    intros a b Hle. rewrite precedes_iff, sort_compare_antisym. unfold le in Hle.
    by destruct (sort_compare a b).
  - intros v Hv. rewrite <- !filter_tied.
    by apply (sort_stable sort_compare sortable sort_compare_antisym Htr).
Qed.
End SortValues.

(** * Splitting and joining *)

Lemma string_length_append a b : String.length (a +:+ b) = String.length a + String.length b.
Proof. induction a as [|x a IH]; [done |]. change (S (String.length (a +:+ b)) = S (String.length a) + String.length b). lia. Qed.

Lemma prefix_split p s : String.prefix p s = true -> exists rest, s = p +:+ rest.
Proof.
  revert s. induction p as [|a p IH]; intros s; [by exists s |].
  destruct s as [|b s]; cbn; [done |]. destruct (Ascii.ascii_dec a b) as [->|]; [| done].
  intros H. destruct (IH s H) as [rest ->]. by exists rest.
Qed.

Lemma split_pieces_skip sep k t s :
  String.length t = k -> split_pieces sep k (t +:+ s) = split_pieces sep 0 s.
Proof.
  revert k. induction t as [|a t IH]; intros k <-; [done |]. cbn. by apply IH.
Qed.

Lemma split_pieces_cons sep skip s : exists w ws, split_pieces sep skip s = w :: ws.
Proof.
  revert skip. induction s as [|a s IH]; intros skip; cbn [split_pieces]; [by do 2 eexists |].
  destruct skip as [|k]; [| apply IH]. destruct (String.prefix _ _); [by do 2 eexists |].
  destruct (IH 0) as (w & ws & ->). by do 2 eexists.
Qed.

Lemma join_split_pieces sep s : sep <> EmptyString -> join sep (split_pieces sep 0 s) = s.
Proof.
  intros Hsep. remember (String.length s) as n eqn:Hn. revert s Hn.
  induction n as [n IH] using lt_wf_ind. intros [|a s] Hn; [done |]. cbn [split_pieces].
  destruct (String.prefix sep (String a s)) eqn:Hp.
  - apply prefix_split in Hp as [rest Hs]. destruct sep as [|b sep]; [done |].
    injection Hs as -> ->. cbn [String.length]. rewrite Nat.sub_succ, Nat.sub_0_r.
    rewrite split_pieces_skip by done.
    destruct (split_pieces_cons (String b sep) 0 rest) as (w & ws & Hw). rewrite Hw.
    change (String b sep +:+ join (String b sep) (w :: ws) = String b (sep +:+ rest)).
    rewrite <- Hw. rewrite (IH (String.length rest)); [done | | done].
    subst n. cbn [String.length]. rewrite (string_length_append sep rest). lia.
  - specialize (IH (String.length s) ltac:(subst n; cbn; lia) s eq_refl).
    destruct (split_pieces_cons sep 0 s) as (w & ws & Hw). rewrite Hw in *. cbn [cons_first].
    rewrite <- IH. by destruct ws.
Qed.

(** Splitting a string at a separator and joining the pieces with it gives
    the string back. *)
Theorem split_join_roundtrip `{C : !Crates E} env_var checks line column s sep :
  sep <> EmptyString ->
  exists pieces,
    call_method_at env_var checks line column (VString s) "split" [VString sep] = Done (VList pieces)
    /\ call_method_at env_var checks line column (VList pieces) "join" [VString sep] = Done (VString s).
Proof.
  intros Hsep. exists (map VString (split_pieces sep 0 s)). split.
  - unfold call_method_at, string_method, split_str. cbn. by destruct sep.
  - unfold call_method_at, list_method. cbn. rewrite map_map. cbn [show_value].
    rewrite map_id. by rewrite join_split_pieces.
Qed.

(** ** The theorems at work *)

Definition demo_list : list (@Value demo_ext) :=
  [VInteger 3; VFloat (f64_of_Z 1); VInteger 2; VString "b"; VBoolean true; VString "a"].

Lemma sort_method_spec_witness :
  exists sorted,
    @call_method_at demo_ext demo_crates (fun _ => None) true 1 1 (VList demo_list) "sort" []
      = Done (VList sorted) /\ sorted ≡ₚ demo_list.
Proof.
  destruct (proj1 (@sort_method_spec demo_ext (fun _ => None) true 1 1 demo_crates demo_list eq_refl))
    as (sorted & Hs & Hp & _).
  exists sorted. split; [exact Hs | exact Hp].
Defined.

Lemma split_join_roundtrip_witness :
  exists pieces,
    @call_method_at demo_ext demo_crates (fun _ => None) true 1 1 (VString "a,,b") "split"
      [VString ","] = Done (VList pieces)
    /\ @call_method_at demo_ext demo_crates (fun _ => None) true 1 1 (VList pieces) "join"
      [VString ","] = Done (VString "a,,b").
Proof.
  apply (@split_join_roundtrip demo_ext demo_crates (fun _ => None) true 1 1 "a,,b" ","). discriminate.
Defined.

(** Integers are compared as floats: two that differ are not told apart, so the
    larger one stays first. *)
Example sort_of_large_integers :
  @sort_values demo_ext demo_crates [VInteger (2 ^ 53 + 1); VInteger (2 ^ 53)]
  = Done (VList [VInteger (2 ^ 53 + 1); VInteger (2 ^ 53)]).
Proof. reflexivity. Qed.

(** Integers come before floats, whatever their size. *)
Example sort_of_mixed_numbers :
  @sort_values demo_ext demo_crates [VFloat (f64_of_Z 1); VInteger 2]
  = Done (VList [VInteger 2; VFloat (f64_of_Z 1)]).
Proof. reflexivity. Qed.
