(* ===== verification/DocBson.v ===== *)
(** The document store's view of values (src/src/doc/bson.rs) and the documents
    the MongoDB driver builds from a query (src/src/doc/mongodb.rs).

    Object identifiers, 128-bit decimals and the driver's clock are those of
    the bson crate: the class [BsonCrate].  A document keeps the order of its
    keys, and inserting a key it has replaces the value. *)
From stdpp Require Import base list strings gmap.
From Stdlib Require Import ZArith Lia.
From S2P Require Import Prelude RustStr F64 Errors Ast IndexMap Foreign QueryTypes Value ValueMethods.

Arguments dq_filters {V}.
Arguments dq_projection {V}.
Arguments dq_sort {V}.
Arguments dq_limit {V}.
Arguments dq_offset {V}.
Arguments dq_group_by {V}.
Arguments dq_accumulators {V}.
Arguments dq_post_sort {V}.
Arguments dq_post_limit {V}.

Class BsonCrate (E : Ext) : Type := {
  object_id : Type;
  parse_object_id : string -> option object_id;
  object_id_hex : object_id -> string;
  decimal128 : Type;
  decimal128_parse : string -> option decimal128;
  decimal128_show : decimal128 -> string;
  (* bson::DateTime holds milliseconds *)
  timestamp_millis : instant -> Z;
  instant_of_millis : Z -> instant;
}.

Section DocBson.
Context `{E : Ext} `{B : !BsonCrate E}.

(** [Bson], with the kinds this program writes or reads by name. *)
Inductive Bson : Type :=
| BNull
| BBoolean (b : bool)
| BInt32 (n : Z)
| BInt64 (n : Z)
| BDouble (x : f64)
| BDecimal128 (d : decimal128)
| BString (s : string)
| BSymbol (s : string)
| BRegularExpression (pattern : string)
| BObjectId (o : object_id)
| BDateTime (millis : Z)
| BArray (items : list Bson)
| BDocument (entries : list (string * Bson))
| BOther.

Definition Document : Type := list (string * Bson).

Definition is_id_key (k : string) : bool := String.eqb k "_id" || String.eqb k "id".

(** The identifier that a string is, if it is one. *)
Definition smart_cast (b : Bson) : Bson :=
  match b with
  | BString s => match parse_object_id s with Some oid => BObjectId oid | None => b end
  | _ => b
  end.

Definition string_at (key : string) (j : Json) : string :=
  match j with
  | JObject entries => match IM.get key entries with Some (JString s) => s | _ => EmptyString end
  | _ => EmptyString
  end.

Fixpoint value_to_bson (v : Value) : Bson :=
  match v with
  | VNull => BNull
  | VBoolean b => BBoolean b
  | VInteger n => BInt64 n
  | VFloat x => BDouble x
  | VDecimal d => match decimal128_parse (dec_show d) with Some d => BDecimal128 d | None => BNull end
  | VString s => BString s
  | VInstant dt => BDateTime (timestamp_millis dt)
  | VDate d => BString (format_date d)
  | VTime t => BString (format_time t)
  | VDuration d => BInt64 (num_milliseconds d)
  | VInterval i =>
      let json := value_to_json (VInterval i) in
      BDocument [("start", BString (string_at "start" json)); ("end", BString (string_at "end" json))]
  | VList items => BArray (map value_to_bson items)
  | VMap m =>
      BDocument (IM.from_pairs (map (fun kv =>
        (fst kv, if is_id_key (fst kv)
                 then match snd kv with
                      | VString s => smart_cast (BString s)
                      | _ => value_to_bson (snd kv)
                      end
                 else value_to_bson (snd kv))) m))
  | _ => BNull
  end.

Fixpoint bson_to_value (b : Bson) : Value :=
  match b with
  | BDouble x => VFloat x
  | BDecimal128 d => match dec_parse (decimal128_show d) with Some d => VDecimal d | None => VNull end
  | BString s | BSymbol s | BRegularExpression s => VString s
  | BArray items => VList (map bson_to_value items)
  | BDocument entries =>
      VMap (IM.from_pairs (map (fun kv => (fst kv, bson_to_value (snd kv))) entries))
  | BBoolean b => VBoolean b
  | BNull | BOther => VNull
  | BInt32 n | BInt64 n => VInteger n
  | BObjectId oid => VString (object_id_hex oid)
  | BDateTime ms => VInstant (instant_of_millis ms)
  end.

(** * Stages of [doc.pipeline] *)

Definition db_err {A} (msg : string) : result MarretaError A := Err (DbError msg "doc.pipeline").

Definition accumulator_mql_key (k : string) : option string :=
  if String.eqb k "sum" then Some "$sum"
  else if String.eqb k "avg" then Some "$avg"
  else if String.eqb k "min" then Some "$min"
  else if String.eqb k "max" then Some "$max"
  else if String.eqb k "first" then Some "$first"
  else if String.eqb k "last" then Some "$last"
  else if String.eqb k "push" then Some "$push"
  else if String.eqb k "addToSet" then Some "$addToSet"
  else if String.eqb k "count" then Some "$sum"
  else None.

Fixpoint translate_stage_value_to_bson (v : Value) : Bson :=
  match v with
  | VMap m =>
      BDocument (IM.from_pairs (map (fun kv =>
        (default (fst kv) (accumulator_mql_key (fst kv)), translate_stage_value_to_bson (snd kv))) m))
  | VList items => BArray (map translate_stage_value_to_bson items)
  | other => value_to_bson other
  end.

Definition translate_stage_value_to_doc (v : Value) : result MarretaError Document :=
  match v with
  | VMap m => Ok (IM.from_pairs (map (fun kv => (fst kv, translate_stage_value_to_bson (snd kv))) m))
  | _ => db_err ("expected a map for stage inner value, got " +:+ type_name v)
  end.

Definition translate_lookup (v : Value) : result MarretaError Document :=
  match v with
  | VMap m =>
      Ok (IM.from_pairs (map (fun kv =>
        (if String.eqb (fst kv) "local" then "localField"
         else if String.eqb (fst kv) "foreign" then "foreignField" else fst kv,
         value_to_bson (snd kv))) m))
  | _ => db_err "lookup stage value must be a map"
  end.

(** A field reference: a string that starts with a dollar sign. *)
Definition field_reference (s : string) : string := if starts_with "$" s then s else "$" +:+ s.

Definition translate_group (v : Value) : result MarretaError Document :=
  match v with
  | VMap m =>
      Ok (IM.from_pairs (map (fun kv =>
        if String.eqb (fst kv) "by"
        then ("_id", match snd kv with
                     | VNull => BNull
                     | VString s => BString (field_reference s)
                     | other => value_to_bson other
                     end)
        else (fst kv, translate_stage_value_to_bson (snd kv))) m))
  | _ => db_err "group stage value must be a map"
  end.

Definition translate_bucket (v : Value) : result MarretaError Document :=
  match v with
  | VMap m =>
      pairs ← collect (fun kv =>
        if String.eqb (fst kv) "by" then Ok ("groupBy", value_to_bson (snd kv))
        else if String.eqb (fst kv) "output" then
          out ← translate_stage_value_to_doc (snd kv); Ok ("output", BDocument out)
        else Ok (fst kv, translate_stage_value_to_bson (snd kv))) m;
      Ok (IM.from_pairs pairs)
  | _ => db_err "bucket stage value must be a map"
  end.

Definition extract_i64 (v : Value) (stage : string) : result MarretaError Z :=
  match v with
  | VInteger n => Ok n
  | _ => db_err ("doc.pipeline '" +:+ stage +:+ "' stage expects an integer value")
  end.

Definition extract_string (v : Value) (stage : string) : result MarretaError string :=
  match v with
  | VString s => Ok s
  | _ => db_err ("doc.pipeline '" +:+ stage +:+ "' stage expects a string value")
  end.

(** A stage whose value is a document. *)
Definition document_stage (key : string) (doc : result MarretaError Document)
  : result MarretaError Document :=
  doc ← doc; Ok [(key, BDocument doc)].

Definition translate_pipeline_stage (stage_val : Value) : result MarretaError Document :=
  match stage_val with
  | VMap [(key, inner)] =>
      if String.eqb key "match" then document_stage "$match" (translate_stage_value_to_doc inner)
      else if String.eqb key "sort" then document_stage "$sort" (translate_stage_value_to_doc inner)
      else if String.eqb key "limit" then
        n ← extract_i64 inner "limit"; Ok [("$limit", BInt64 n)]
      else if String.eqb key "skip" then
        n ← extract_i64 inner "skip"; Ok [("$skip", BInt64 n)]
      else if String.eqb key "unwind" then
        field ← extract_string inner "unwind"; Ok [("$unwind", BString (field_reference field))]
      else if String.eqb key "add_fields" then
        document_stage "$addFields" (translate_stage_value_to_doc inner)
      else if String.eqb key "project" then
        document_stage "$project" (translate_stage_value_to_doc inner)
      else if String.eqb key "count" then
        field ← extract_string inner "count"; Ok [("$count", BString field)]
      else if String.eqb key "lookup" then document_stage "$lookup" (translate_lookup inner)
      else if String.eqb key "group" then document_stage "$group" (translate_group inner)
      else if String.eqb key "bucket" then document_stage "$bucket" (translate_bucket inner)
      else db_err ("unknown doc.pipeline stage '" +:+ key +:+ "' — supported: match, sort, limit, skip, unwind, add_fields, project, count, lookup, group, bucket")
  | VMap m => db_err ("doc.pipeline stage map must have exactly one key, got " +:+ show_nat (length m))
  | _ => db_err "doc.pipeline stage must be a map (e.g. { match: { ... } })"
  end.

(** * Queries *)

(** The operand of a comparison with a field that can be an identifier. *)
Definition id_operand (field : string) (v : Value) : Bson :=
  if is_id_key field then smart_cast (value_to_bson v) else value_to_bson v.

Definition filter_document (f : DocFilter Value) : Document :=
  match f with
  | DEq field v => [(field, BDocument [("$eq", id_operand field v)])]
  | DNe field v => [(field, BDocument [("$ne", id_operand field v)])]
  | DGt field v => [(field, BDocument [("$gt", value_to_bson v)])]
  | DGte field v => [(field, BDocument [("$gte", value_to_bson v)])]
  | DLt field v => [(field, BDocument [("$lt", value_to_bson v)])]
  | DLte field v => [(field, BDocument [("$lte", value_to_bson v)])]
  | DLike field pattern =>
      [(field, BDocument [("$regex", BString (replace_str "_" "." (replace_str "%" ".*" pattern)));
                          ("$options", BString "i")])]
  | DIn field vs => [(field, BDocument [("$in", BArray (map (id_operand field) vs))])]
  end.

Definition build_query_filter (q : DocQueryState Value) : Document :=
  match dq_filters q with
  | [] => []
  | filters => [("$and", BArray (map (fun f => BDocument (filter_document f)) filters))]
  end.

Definition sort_direction (d : SortDirection) : Bson :=
  BInt32 (match d with Asc => 1 | Desc => -1 end).

(** The options that [build_query_options] sets. *)
Record FindOptions : Type := mkFindOptions {
  fo_sort : option Document;
  fo_limit : option Z;
  fo_skip : option Z;
  fo_projection : option Document;
}.

Definition build_query_options (q : DocQueryState Value) : FindOptions :=
  mkFindOptions
    ((fun s : string * SortDirection => [(fst s, sort_direction (snd s))]) <$> dq_sort q)
    (dq_limit q)
    (to_usize <$> dq_offset q)
    ((fun fields => IM.from_pairs (map (fun p => (p, BInt32 1)) fields)) <$> dq_projection q).

Definition accumulator_entry (a : Accumulator) : string * Bson :=
  match a with
  | Sum field alias => (alias, BDocument [("$sum", BString ("$" +:+ field))])
  | Avg field alias => (alias, BDocument [("$avg", BString ("$" +:+ field))])
  | Min field alias => (alias, BDocument [("$min", BString ("$" +:+ field))])
  | Max field alias => (alias, BDocument [("$max", BString ("$" +:+ field))])
  | CountAcc alias => (alias, BDocument [("$sum", BInt32 1)])
  end.

(** The stages that [query_aggregate] sends. *)
Definition aggregate_pipeline (q : DocQueryState Value) : list Document :=
  let filter := build_query_filter q in
  let group_id := match dq_group_by q with Some field => BString ("$" +:+ field) | None => BNull end in
  let group_doc := IM.extend [("_id", group_id)] (map accumulator_entry (dq_accumulators q)) in
  (match filter with [] => [] | _ => [[("$match", BDocument filter)]] end)
  ++ [[("$group", BDocument group_doc)]]
  ++ (match dq_post_sort q with
      | Some (field, dir) => [[("$sort", BDocument [(field, sort_direction dir)])]]
      | None => []
      end)
  ++ (match dq_post_limit q with Some n => [[("$limit", BInt64 n)]] | None => [] end).

End DocBson.

(** A concrete instance over [demo_ext], used by the examples: identifiers are
    24 characters, kept in lower case. *)
Definition demo_bson : BsonCrate demo_ext := {|
  object_id := string;
  parse_object_id s := if (String.length s =? 24)%nat then Some (to_ascii_lowercase s) else None;
  object_id_hex o := o;
  decimal128 := string;
  decimal128_parse s := Some s;
  decimal128_show d := d;
  timestamp_millis := ((fun i : Z => (1000 * i)%Z) : @instant demo_ext -> Z);
  instant_of_millis z := (z / 1000)%Z;
|}.
