(* ===== verification/DocBsonFacts.v ===== *)
(** The document store: what is read back is what was stored, and an equality
    filter compares with what was stored. *)
From stdpp Require Import base list strings gmap.
From Stdlib Require Import ZArith Lia.
From S2P Require Import Prelude RustStr F64 Errors Ast IndexMap Foreign QueryTypes Value ValueFacts Operators Crates ValueMethods DocBson.

(** What the MongoDB crate documents of object identifiers: they are printed in
    lower case. *)
Class BsonLaws (E : Ext) (B : BsonCrate E) : Prop := {
  object_id_hex_parse s oid : parse_object_id s = Some oid -> object_id_hex oid = to_ascii_lowercase s;
}.

Section Facts.
Context `{E : Ext} `{B : !BsonCrate E} `{L : !BsonLaws E B}.

(** An identifier in lower case. *)
Definition canonical_id (k : string) (v : Value) : Prop :=
  match v with
  | VString s => is_id_key k = true -> parse_object_id s <> None -> to_ascii_lowercase s = s
  | _ => True
  end.

(** The values that BSON can hold: instants to the millisecond, decimals within
    its precision, and maps without repeated keys. *)
Fixpoint storable (v : Value) : Prop :=
  match v with
  | VNull | VBoolean _ | VInteger _ | VFloat _ | VString _ => True
  | VDecimal d => exists d', decimal128_parse (dec_show d) = Some d' /\ dec_parse (decimal128_show d') = Some d
  | VInstant dt => instant_of_millis (timestamp_millis dt) = dt
  | VList items => (fix all l := match l with [] => True | x :: l => storable x /\ all l end) items
  | VMap m =>
      NoDup (IM.keys m)
      /\ (fix all (l : list (string * Value)) :=
            match l with
            | [] => True
            | kv :: l => (canonical_id (fst kv) (snd kv) /\ storable (snd kv)) /\ all l
            end) m
  | _ => False
  end.

(** The document entry of a pair. *)
Definition bson_entry (kv : string * Value) : string * Bson :=
  (fst kv, if is_id_key (fst kv)
           then match snd kv with
                | VString s => smart_cast (BString s)
                | _ => value_to_bson (snd kv)
                end
           else value_to_bson (snd kv)).

Lemma bson_entry_value k v :
  canonical_id k v -> bson_to_value (value_to_bson v) = v -> bson_to_value (snd (bson_entry (k, v))) = v.
Proof.
  intros Hc Hv. unfold bson_entry. cbn. destruct (is_id_key k) eqn:Hk; [| exact Hv].
  destruct v; try exact Hv. cbn in Hc |- *. destruct (parse_object_id s) as [oid|] eqn:Ho; [| done].
  cbn. rewrite (object_id_hex_parse s oid Ho), Hc; done.
Qed.

(** C14: a value that BSON can hold is read back from the document store as it
    was stored: integers, floats, decimals, strings, instants, lists and maps,
    with the string identifiers that are stored as object identifiers. *)
Theorem bson_roundtrip v : storable v -> bson_to_value (value_to_bson v) = v.
Proof.
  induction v as [v Hleaf|items IH|m IH|s m IH] using Value_induction.
  - destruct v; try done.
    + cbn. intros (d' & H1 & H2). rewrite H1. cbn. by rewrite H2.
    + cbn. by intros ->.
  - cbn. intros H. f_equal. rewrite map_map.
    induction IH as [|x l Hx _ IHl]; cbn in *; [done |]. destruct H as [H1 H2].
    by rewrite Hx, IHl.
  - cbn [storable value_to_bson bson_to_value]. intros [Hn H]. change (VMap (IM.from_pairs (map (fun kv =>
      (fst kv, bson_to_value (snd kv))) (IM.from_pairs (map bson_entry m)))) = VMap m).
    assert (Hkeys : IM.keys (map bson_entry m) = IM.keys m) by (unfold IM.keys; by rewrite map_map).
    rewrite (IM.from_pairs_NoDup (map bson_entry m)) by (by rewrite Hkeys).
    rewrite map_map. rewrite IM.from_pairs_NoDup by (unfold IM.keys; by rewrite map_map).
    f_equal. clear Hn Hkeys. induction IH as [|[k v] l Hx _ IHl]; [done |].
    destruct H as [[Hc Hv] H]. cbn [map fst snd]. rewrite (IHl H). f_equal. f_equal.
    apply bson_entry_value; [exact Hc | by apply Hx].
  - done.
Qed.

(** An equality filter on a field of a document is on what was stored in
    that field, whatever the field is called: an identifier is turned into an
    object identifier on both sides. *)
Theorem equality_filter_is_on_stored m k v :
  NoDup (IM.keys m) -> IM.get k m = Some v ->
  match v with VDate _ | VTime _ => False | _ => True end ->
  exists doc, value_to_bson (VMap m) = BDocument doc
    /\ exists stored, IM.get k doc = Some stored
    /\ filter_document (DEq k v) = [(k, BDocument [("$eq", stored)])].
Proof.
  intros Hn Hg Hv. exists (map bson_entry m).
  assert (Hkeys : IM.keys (map bson_entry m) = IM.keys m) by (unfold IM.keys; by rewrite map_map).
  split.
  { change (BDocument (IM.from_pairs (map bson_entry m)) = BDocument (map bson_entry m)).
    by rewrite IM.from_pairs_NoDup by (by rewrite Hkeys). }
  exists (snd (bson_entry (k, v))). split.
  - apply IM.elem_of_get; [by rewrite Hkeys |].
    apply list_elem_of_fmap. exists (k, v). split; [done |]. by apply IM.get_Some_elem_of.
  - cbn [filter_document]. unfold id_operand, bson_entry. cbn [fst snd].
    destruct (is_id_key k); [| done]. do 4 f_equal.
    destruct v; try done. cbn. by destruct (decimal128_parse _).
Qed.
End Facts.

(** ** The theorems at work *)

Lemma demo_bson_laws : BsonLaws demo_ext demo_bson.
Proof.
  split. cbn. intros s oid. destruct (String.length s =? 24); [by intros [= <-] | done].
Qed.

Definition demo_id : string := "65a1b2c3d4e5f60718293a4b".

Definition demo_document : list (string * @Value demo_ext) :=
  [("_id", VString demo_id); ("total", VInteger 7); ("tags", VList [VString "a"; VNull])].

Lemma bson_roundtrip_witness :
  @bson_to_value demo_ext demo_bson (@value_to_bson demo_ext demo_bson (VMap demo_document))
  = VMap demo_document.
Proof.
  apply (@bson_roundtrip demo_ext demo_bson demo_bson_laws (VMap demo_document)).
  cbn. split; [| repeat split; reflexivity].
  apply (bool_decide_eq_true_1 (NoDup ["_id"; "total"; "tags"])). reflexivity.
Defined.

Lemma equality_filter_is_on_stored_witness :
  exists doc, @value_to_bson demo_ext demo_bson (VMap demo_document) = BDocument doc
    /\ exists stored, IM.get "_id" doc = Some stored
    /\ @filter_document demo_ext demo_bson (DEq "_id" (VString demo_id))
       = [("_id", BDocument [("$eq", stored)])].
Proof.
  apply (@equality_filter_is_on_stored demo_ext demo_bson demo_document "_id" (VString demo_id)).
  - apply (bool_decide_eq_true_1 (NoDup ["_id"; "total"; "tags"])). reflexivity.
  - reflexivity.
  - exact I.
Defined.

(** An identifier inside a nested document is stored as an object identifier,
    but a filter on its path compares with the string, and matches nothing. *)
Example nested_identifier_never_matches :
  @value_to_bson demo_ext demo_bson (VMap [("user", VMap [("id", VString demo_id)])])
  = BDocument [("user", BDocument [("id", @BObjectId demo_ext demo_bson demo_id)])]
  /\ @filter_document demo_ext demo_bson (DEq "user.id" (VString demo_id))
     = [("user.id", BDocument [("$eq", BString demo_id)])].
Proof. split; reflexivity. Qed.

(** An identifier written in upper case is read back in lower case. *)
Example upper_case_identifier :
  @bson_to_value demo_ext demo_bson
    (@value_to_bson demo_ext demo_bson (VMap [("id", VString (to_ascii_uppercase demo_id))]))
  = VMap [("id", VString demo_id)].
Proof. reflexivity. Qed.
