(* ===== verification/Auth.v ===== *)
(** Configuration of authentication providers (src/src/auth.rs): reading the
    fields of a provider, validating their combination, and the registry.

    Environment variables, files, and the parsers of URLs, keys, header names
    and password hashes are outside the program: the class [AuthHost]. *)
From stdpp Require Import base list strings gmap sets.
From Stdlib Require Import ZArith Lia.
From S2P Require Import Prelude RustStr Errors Ast.

Class AuthHost : Type := {
  env_var : string -> option string;
  url_scheme : string -> option string;       (* reqwest::Url::parse, scheme() *)
  rsa_pem_ok : string -> bool;                (* DecodingKey::from_rsa_pem *)
  ec_pem_ok : string -> bool;                 (* DecodingKey::from_ec_pem *)
  header_name_ok : string -> bool;            (* HeaderName::from_bytes *)
  password_hash_ok : string -> bool;          (* PasswordHash::new *)
  file_len : string -> option Z;              (* fs::metadata, len() *)
  read_file : string -> result string string; (* fs::read_to_string *)
}.

Inductive JwtValidationSource : Type :=
| OidcDiscovery
| JwksUrl (url : string)
| PublicKeyPem (pem : string)
| Secret (value : string).

Record JwtAuthConfig : Type := mkJwtAuthConfig {
  jwt_name : string;
  issuer : string;
  audience : string;
  subject_claim : string;
  user_id_claim : string;
  roles_claim : string;
  email_claim : string;
  validation_source : JwtValidationSource;
  algorithm : option string;
  jwks_cache_ttl_seconds : Z;
  clock_skew_seconds : Z;
}.

Inductive ApiKeySecretSource : Type :=
| AKSecretHash (hash : string)
| AKSecret (value : string).

Record ApiKeyAuthConfig : Type := mkApiKeyAuthConfig {
  ak_name : string;
  ak_header : string;
  ak_secret_source : ApiKeySecretSource;
  ak_principal : string;
}.

Inductive AuthProviderRuntimeConfig : Type :=
| RJwt (config : JwtAuthConfig)
| RApiKey (config : ApiKeyAuthConfig).

Definition AuthRegistry : Type := gmap string AuthProviderRuntimeConfig.

Definition MAX_PUBLIC_KEY_PEM_FILE_BYTES : Z := 64 * 1024.

Definition auth_config_error {A} (provider_name message : string) : result MarretaError A :=
  Err (RuntimeError ("invalid auth provider '" +:+ provider_name +:+ "': " +:+ message) 0 0).

Section Auth.
Context `{AuthHost}.

(** * Reading fields *)

(** [env.NAME] *)
Definition env_reference (e : Expression) : option string :=
  match e with
  | EPropertyAccess (EIdentifier name) property =>
      if String.eqb name "env" then Some property else None
  | _ => None
  end.

Definition missing_env (provider_name field property : string) : MarretaError :=
  RuntimeError ("auth provider '" +:+ provider_name +:+ "' field '" +:+ field
    +:+ "' references missing environment variable '" +:+ property +:+ "'") 0 0.

Definition eval_string (provider_name field : string) (expr : Expression)
  : result MarretaError string :=
  value ← match expr with
          | EStringLiteral value => Ok value
          | _ => match env_reference expr with
                 | Some property => ok_or (env_var property) (missing_env provider_name field property)
                 | None => auth_config_error provider_name
                             ("auth field '" +:+ field
                              +:+ "' must be a string literal or env.VAR reference")
                 end
          end;
  if String.eqb (trim value) EmptyString
  then auth_config_error provider_name ("auth field '" +:+ field +:+ "' cannot be empty")
  else Ok value.

Definition eval_u64 (provider_name field : string) (expr : Expression) : result MarretaError Z :=
  let not_integer := auth_config_error provider_name
    ("auth field '" +:+ field +:+ "' must be an integer literal or env.VAR reference") in
  match expr with
  | EInteger value => if (0 <=? value)%Z then Ok value else not_integer
  | EStringLiteral value =>
      ok_or (parse_u64 value)
        (RuntimeError ("auth provider '" +:+ provider_name +:+ "' field '" +:+ field
           +:+ "' must be a positive integer") 0 0)
  | _ =>
      match env_reference expr with
      | Some property =>
          value ← ok_or (env_var property) (missing_env provider_name field property);
          ok_or (parse_u64 value)
            (RuntimeError ("auth provider '" +:+ provider_name +:+ "' field '" +:+ field
               +:+ "' references environment variable '" +:+ property
               +:+ "' that must be a positive integer") 0 0)
      | None => not_integer
      end
  end.

(** [AuthFieldMap::new]: known fields, each at most once. *)
Fixpoint auth_fields (provider_name provider_type : string) (allowed : list string)
    (fields : list (AuthProviderField Expression)) (m : gmap string Expression)
  : result MarretaError (gmap string Expression) :=
  match fields with
  | [] => Ok m
  | field :: fields =>
      if existsb (String.eqb (apf_name field)) allowed then
        match m !! apf_name field with
        | Some _ => auth_config_error provider_name
                      ("duplicate auth field '" +:+ apf_name field +:+ "'")
        | None => auth_fields provider_name provider_type allowed fields
                    (<[apf_name field := apf_value field]> m)
        end
      else auth_config_error provider_name
             ("unknown " +:+ provider_type +:+ " auth field '" +:+ apf_name field +:+ "'")
  end.

Section Fields.
Variable provider_name : string.
Variable fields : gmap string Expression.

Definition optional_string (field : string) : result MarretaError (option string) :=
  match fields !! field with
  | Some expr => v ← eval_string provider_name field expr; Ok (Some v)
  | None => Ok None
  end.

Definition required_string (field : string) : result MarretaError string :=
  v ← optional_string field;
  match v with
  | Some value => Ok value
  | None => auth_config_error provider_name ("missing required auth field '" +:+ field +:+ "'")
  end.

Definition optional_u64 (field : string) : result MarretaError (option Z) :=
  match fields !! field with
  | Some expr => v ← eval_u64 provider_name field expr; Ok (Some v)
  | None => Ok None
  end.
End Fields.

(** * Validating values *)

Definition is_hmac_algorithm (a : string) : bool :=
  String.eqb a "HS256" || String.eqb a "HS384" || String.eqb a "HS512".

Definition is_asymmetric_algorithm (a : string) : bool :=
  String.eqb a "RS256" || String.eqb a "RS384" || String.eqb a "RS512"
  || String.eqb a "ES256" || String.eqb a "ES384".

Definition validate_supported_algorithm (provider_name alg : string) : result MarretaError unit :=
  if is_hmac_algorithm alg || is_asymmetric_algorithm alg then Ok tt
  else auth_config_error provider_name ("unsupported JWT algorithm '" +:+ alg +:+ "'").

Definition validate_http_url (provider_name field value : string) : result MarretaError unit :=
  match url_scheme value with
  | None => auth_config_error provider_name ("auth field '" +:+ field +:+ "' must be a valid URL")
  | Some scheme =>
      if String.eqb scheme "http" || String.eqb scheme "https" then Ok tt
      else auth_config_error provider_name ("auth field '" +:+ field +:+ "' must use http or https")
  end.

Definition validate_public_key_pem (provider_name pem alg : string) : result MarretaError unit :=
  let ok := if String.eqb alg "RS256" || String.eqb alg "RS384" || String.eqb alg "RS512"
            then rsa_pem_ok pem else ec_pem_ok pem in
  if ok then Ok tt
  else Err (RuntimeError ("invalid auth provider '" +:+ provider_name
         +:+ "': public_key_pem must be a valid PEM public key for " +:+ alg) 0 0).

Definition read_public_key_pem_file (provider_name path : string) : result MarretaError string :=
  let too_large := match file_len path with
                   | Some len => (MAX_PUBLIC_KEY_PEM_FILE_BYTES <? len)%Z
                   | None => false
                   end in
  if too_large then
    auth_config_error provider_name
      ("public_key_pem_file '" +:+ path +:+ "' is too large; expected a PEM file up to "
       +:+ show_Z MAX_PUBLIC_KEY_PEM_FILE_BYTES +:+ " bytes")
  else
    map_err (fun err => RuntimeError ("invalid auth provider '" +:+ provider_name
      +:+ "': failed to read public_key_pem_file '" +:+ path +:+ "': " +:+ err) 0 0)
      (read_file path).

Definition validate_api_key_header (provider_name header : string) : result MarretaError unit :=
  if header_name_ok header then Ok tt
  else Err (RuntimeError ("invalid auth provider '" +:+ provider_name
         +:+ "': api_key header must be a valid HTTP header name") 0 0).

(** [sha256:] followed by 64 hexadecimal digits. *)
Definition is_sha256 (hash : string) : bool :=
  let stripped := match strip_prefix "sha256:" hash with
                  | Some hex => Some hex
                  | None => strip_prefix "SHA256:" hash
                  end in
  match stripped with
  | Some hex => (String.length hex =? 64) && forallb is_ascii_hexdigit (bytes hex)
  | None => false
  end.

Definition validate_secret_hash (provider_name hash : string) : result MarretaError unit :=
  if starts_with "$argon2id$" hash then
    if password_hash_ok hash then Ok tt
    else Err (RuntimeError ("invalid auth provider '" +:+ provider_name
           +:+ "': api_key secret_hash must be a valid Argon2id PHC string") 0 0)
  else if is_sha256 hash then Ok tt
  else auth_config_error provider_name
         "api_key secret_hash must be either an Argon2id PHC string or sha256:<64 hex chars>".

(** * Providers *)

Definition jwt_fields : list string :=
  ["issuer"; "audience"; "subject_claim"; "user_id_claim"; "roles_claim"; "email_claim";
   "jwks_url"; "public_key_pem"; "public_key_pem_file"; "secret"; "algorithm";
   "jwks_cache_ttl_seconds"; "clock_skew_seconds"].

(** The checks on the algorithm, given the configured key material. *)
Definition validate_algorithm (name : string) (algorithm public_key_pem secret : option string)
  : result MarretaError unit :=
  match algorithm with
  | None => Ok tt
  | Some alg =>
      _ ← validate_supported_algorithm name alg;
      if bool_decide (is_Some secret) && negb (is_hmac_algorithm alg) then
        auth_config_error name "secret is valid only with HMAC algorithms HS256, HS384, or HS512"
      else if bool_decide (is_Some public_key_pem) && negb (is_asymmetric_algorithm alg) then
        auth_config_error name
          "public_key_pem and public_key_pem_file are valid only with asymmetric algorithms such as RS256 or ES256"
      else match public_key_pem with
           | Some pem => validate_public_key_pem name pem alg
           | None => Ok tt
           end
  end.

Definition build_jwt_config (config : AuthProviderConfig Expression)
  : result MarretaError JwtAuthConfig :=
  let name := apc_name config in
  fields ← auth_fields name "jwt" jwt_fields (apc_fields config) ∅;
  issuer ← required_string name fields "issuer";
  audience ← required_string name fields "audience";
  subject ← optional_string name fields "subject_claim";
  let subject_claim := default "sub" subject in
  user_id ← optional_string name fields "user_id_claim";
  let user_id_claim := default subject_claim user_id in
  roles ← optional_string name fields "roles_claim";
  email ← optional_string name fields "email_claim";
  jwks_url ← optional_string name fields "jwks_url";
  pem ← optional_string name fields "public_key_pem";
  pem_file ← optional_string name fields "public_key_pem_file";
  public_key_pem ← match pem, pem_file with
                   | Some _, Some _ => auth_config_error name
                       "public_key_pem and public_key_pem_file are mutually exclusive"
                   | Some pem, None => Ok (Some pem)
                   | None, Some path =>
                       pem ← read_public_key_pem_file name path; Ok (Some pem)
                   | None, None => Ok None
                   end;
  secret ← optional_string name fields "secret";
  algorithm ← optional_string name fields "algorithm";
  ttl ← optional_u64 name fields "jwks_cache_ttl_seconds";
  skew ← optional_u64 name fields "clock_skew_seconds";
  let configured_sources := omap (fun o : option string => o) [jwks_url; public_key_pem; secret] in
  if 1 <? length configured_sources then
    auth_config_error name
      "jwt validation sources are mutually exclusive: use only one of jwks_url, public_key_pem, public_key_pem_file, or secret"
  else if (bool_decide (is_Some public_key_pem) || bool_decide (is_Some secret))
          && negb (bool_decide (is_Some algorithm)) then
    auth_config_error name
      "algorithm is required when using public_key_pem, public_key_pem_file, or secret"
  else
    _ ← validate_algorithm name algorithm public_key_pem secret;
    _ ← match jwks_url with
        | Some url => validate_http_url name "jwks_url" url
        | None => Ok tt
        end;
    let validation_source :=
      match jwks_url, public_key_pem, secret with
      | Some url, _, _ => JwksUrl url
      | None, Some pem, _ => PublicKeyPem pem
      | None, None, Some value => Secret value
      | None, None, None => OidcDiscovery
      end in
    Ok (mkJwtAuthConfig name issuer audience subject_claim user_id_claim
          (default "roles" roles) (default "email" email) validation_source algorithm
          (default 300%Z ttl) (default 60%Z skew)).

Definition build_api_key_config (config : AuthProviderConfig Expression)
  : result MarretaError ApiKeyAuthConfig :=
  let name := apc_name config in
  fields ← auth_fields name "api_key" ["header"; "secret_hash"; "secret"; "principal"]
             (apc_fields config) ∅;
  header ← required_string name fields "header";
  secret_hash ← optional_string name fields "secret_hash";
  secret ← optional_string name fields "secret";
  principal ← optional_string name fields "principal";
  _ ← validate_api_key_header name header;
  source ← match secret_hash, secret with
           | Some hash, None => _ ← validate_secret_hash name hash; Ok (AKSecretHash hash)
           | None, Some value => Ok (AKSecret value)
           | None, None => auth_config_error name
               "api_key auth requires one secret source: secret_hash or secret"
           | Some _, Some _ => auth_config_error name
               "api_key secret_hash and secret are mutually exclusive"
           end;
  Ok (mkApiKeyAuthConfig name header source (default name principal)).

Definition build_provider (provider : AuthProvider Expression)
  : result MarretaError AuthProviderRuntimeConfig :=
  match provider with
  | Jwt config => c ← build_jwt_config config; Ok (RJwt c)
  | ApiKey config => c ← build_api_key_config config; Ok (RApiKey c)
  end.

Definition build_auth_registry `{HashOrder} (providers : gmap string (AuthProvider Expression))
  : result MarretaError AuthRegistry :=
  runtime ← collect (fun e => r ← build_provider (snd e); Ok (fst e, r)) (entries providers);
  Ok (list_to_map runtime).

End Auth.

(** * Facts *)

Section Facts.
Context `{AuthHost}.

Lemma auth_error_not_Ok {A} name message (a : A) : auth_config_error name message <> Ok a.
Proof. done. Qed.

Lemma eval_string_Ok name field e v :
  eval_string name field e = Ok v ->
  trim v <> EmptyString /\ (e = EStringLiteral v \/
    exists var, env_reference e = Some var /\ env_var var = Some v).
Proof.
  unfold eval_string. intros (w & Hw & Hv)%bind_Ok.
  destruct (String.eqb_spec (trim w) EmptyString); [done |]. injection Hv as <-.
  split; [done |]. destruct e; try (injection Hw as <-; by left);
    destruct (env_reference _) as [var|] eqn:Hvar; try done; right; exists var;
    (split; [done |]); destruct (env_var var); cbn in Hw; by simplify_eq.
Qed.

Lemma optional_string_Ok name fields field v :
  optional_string name fields field = Ok (Some v) -> trim v <> EmptyString.
Proof.
  unfold optional_string. destruct (fields !! field); [| done].
  intros (w & Hw & [= <-])%bind_Ok. by apply eval_string_Ok in Hw as [? _].
Qed.

Lemma required_string_Ok name fields field v :
  required_string name fields field = Ok v -> trim v <> EmptyString.
Proof.
  unfold required_string. intros ([w|] & Hw & Hv)%bind_Ok; [| done]. injection Hv as <-.
  by eapply optional_string_Ok.
Qed.

Lemma auth_fields_Ok name ty allowed fields m m' :
  auth_fields name ty allowed fields m = Ok m' ->
  NoDup (map apf_name fields) /\
  Forall (fun f => apf_name f ∈ allowed /\ m !! apf_name f = None) fields /\
  forall k e, m' !! k = Some e <->
    m !! k = Some e \/ exists f, f ∈ fields /\ apf_name f = k /\ apf_value f = e.
Proof.
  revert m m'. induction fields as [|f fields IH]; intros m m'; cbn [auth_fields map].
  - intros [= <-]. split_and!; [constructor | constructor |]. intros k e. split; [by left |].
    intros [? | (? & Hin & _)]; [done | by inversion Hin].
  - destruct (existsb _ allowed) eqn:Ha; [| done]. destruct (m !! apf_name f) eqn:Hm; [done |].
    intros (Hnd & Hall & Hm')%IH.
    apply existsb_exists in Ha as (a & Ha & Heq%String.eqb_eq).
    apply list_elem_of_In in Ha. rewrite <- Heq in Ha.
    assert (Hfresh : apf_name f ∉ map apf_name fields).
    { intros (g & Hgf & Hg)%list_elem_of_fmap. rewrite Forall_forall in Hall.
      destruct (Hall g Hg) as [_ Hg']. rewrite <- Hgf, lookup_insert_eq in Hg'. done. }
    split_and!; [by constructor | |].
    + constructor; [done |]. eapply Forall_impl; [exact Hall |]. cbn.
      intros g [? Hg]. split; [done |]. by apply lookup_insert_None in Hg as [? _].
    + intros k e. rewrite Hm', lookup_insert_Some. split.
      * intros [[[<- <-] | [? ?]] | (g & ? & <- & <-)]; [right | by left | right].
        -- exists f. split_and!; [by left | done..].
        -- exists g. split_and!; [by right | done..].
      * intros [Hk | (g & [-> | Hg]%elem_of_cons & <- & <-)].
        -- left. right. split; [congruence | done].
        -- left. left. done.
        -- right. by exists g.
Qed.

Lemma validate_algorithm_Ok name alg pem secret :
  validate_algorithm name alg pem secret = Ok tt ->
  match alg with
  | None => True
  | Some alg =>
      (is_hmac_algorithm alg = true \/ is_asymmetric_algorithm alg = true) /\
      (is_Some secret -> is_hmac_algorithm alg = true) /\
      (is_Some pem -> is_asymmetric_algorithm alg = true)
  end.
Proof.
  unfold validate_algorithm. destruct alg as [alg|]; [| done].
  intros ([] & Hsup & Hrest)%bind_Ok. unfold validate_supported_algorithm in Hsup.
  destruct (is_hmac_algorithm alg) eqn:Hh, (is_asymmetric_algorithm alg) eqn:Ha; try done;
    destruct secret, pem; cbn in Hrest; try done;
    split_and!; auto; by intros [].
Qed.

Lemma validate_http_url_Ok name field url :
  validate_http_url name field url = Ok tt ->
  url_scheme url = Some "http" \/ url_scheme url = Some "https".
Proof.
  unfold validate_http_url. destruct (url_scheme url) as [scheme|]; [| done].
  destruct (String.eqb scheme "http") eqn:H1; [apply String.eqb_eq in H1 as ->; by left |].
  destruct (String.eqb scheme "https") eqn:H2; [apply String.eqb_eq in H2 as ->; by right | done].
Qed.

End Facts.

(** A JWT provider that passes configuration cannot confuse key material
    with algorithms: a shared secret goes with an HMAC algorithm only, a
    public key with an asymmetric one only, a declared algorithm is a supported
    one, a key-set URL is an http or https URL, and issuer and audience are
    not blank. *)
Theorem jwt_config_sound `{AuthHost} config c :
  build_jwt_config config = Ok c ->
  jwt_name c = apc_name config /\
  trim (issuer c) <> EmptyString /\ trim (audience c) <> EmptyString /\
  match validation_source c with
  | Secret _ => exists a, algorithm c = Some a /\ is_hmac_algorithm a = true
  | PublicKeyPem _ => exists a, algorithm c = Some a /\ is_asymmetric_algorithm a = true
  | JwksUrl url => url_scheme url = Some "http" \/ url_scheme url = Some "https"
  | OidcDiscovery => True
  end /\
  (forall a, algorithm c = Some a -> is_hmac_algorithm a = true \/ is_asymmetric_algorithm a = true).
Proof.
  unfold build_jwt_config. intros H1.
  apply bind_Ok in H1 as (fields & _ & H1).
  apply bind_Ok in H1 as (iss & Hiss%required_string_Ok & H1).
  apply bind_Ok in H1 as (aud & Haud%required_string_Ok & H1).
  do 4 apply bind_Ok in H1 as (? & _ & H1).
  apply bind_Ok in H1 as (jwks & _ & H1).
  do 2 apply bind_Ok in H1 as (? & _ & H1).
  apply bind_Ok in H1 as (pem & _ & H1).
  apply bind_Ok in H1 as (secret & _ & H1).
  apply bind_Ok in H1 as (alg & _ & H1).
  do 2 apply bind_Ok in H1 as (? & _ & H1).
  cbv zeta in H1.
  destruct (1 <? _) eqn:Hone; [done |].
  destruct ((_ || _) && _) eqn:Halg; [done |].
  apply bind_Ok in H1 as ([] & Hval%validate_algorithm_Ok & H1).
  apply bind_Ok in H1 as ([] & Hurl & H1). injection H1 as <-. cbn.
  split_and!; [done | done | done | |].
  - destruct jwks as [url|], pem as [pem|], secret as [secret|]; try discriminate Hone;
      destruct alg as [alg|]; try discriminate Halg; try exact I;
      try (exists alg; split; [done |]; apply Hval; by eexists).
    all: by eapply validate_http_url_Ok.
  - intros a ->. apply Hval.
Qed.

(** An API key provider has exactly one secret source: a hash, which is a
    valid Argon2id hash or a SHA-256 in hexadecimal, or a plain secret; its
    header is a valid HTTP header name and its default principal is its name. *)
Theorem api_key_config_sound `{AuthHost} config c :
  build_api_key_config config = Ok c ->
  header_name_ok (ak_header c) = true /\
  match ak_secret_source c with
  | AKSecretHash hash =>
      (starts_with "$argon2id$" hash = true /\ password_hash_ok hash = true) \/ is_sha256 hash = true
  | AKSecret value => trim value <> EmptyString
  end /\
  (forall f, f ∈ apc_fields config -> apf_name f ∈ ["header"; "secret_hash"; "secret"; "principal"]) /\
  ("principal" ∉ map apf_name (apc_fields config) -> ak_principal c = apc_name config).
Proof.
  unfold build_api_key_config. intros H1.
  apply bind_Ok in H1 as (fields & (Hnd & Hall & Hfields)%auth_fields_Ok & H1).
  apply bind_Ok in H1 as (header & _ & H1).
  apply bind_Ok in H1 as (hash & _ & H1).
  apply bind_Ok in H1 as (secret & Hsecret & H1).
  apply bind_Ok in H1 as (principal & Hprincipal & H1).
  apply bind_Ok in H1 as ([] & Hheader & H1).
  apply bind_Ok in H1 as (source & Hsource & H1). injection H1 as <-. cbn.
  rewrite Forall_forall in Hall. split_and!.
  - unfold validate_api_key_header in Hheader. by destruct (header_name_ok header).
  - destruct hash as [hash|], secret as [secret|]; try discriminate Hsource.
    + apply bind_Ok in Hsource as ([] & Hhash & [= <-]). unfold validate_secret_hash in Hhash.
      destruct (starts_with _ hash); [left; by destruct (password_hash_ok hash) |].
      right. by destruct (is_sha256 hash).
    + injection Hsource as <-. by eapply optional_string_Ok.
  - intros f Hf. by apply Hall.
  - intros Hno. unfold optional_string in Hprincipal.
    destruct (fields !! "principal") as [e|] eqn:Hp; [| by injection Hprincipal as <-].
    apply Hfields in Hp as [Hp | (f & Hf & Hname & _)]; [by rewrite lookup_empty in Hp |].
    exfalso. apply Hno. rewrite <- Hname. by apply list_elem_of_fmap_2.
Qed.

(** The registry is built exactly when every provider is valid, whatever
    the order in which the hash map yields them, and it then holds the runtime
    configuration of each provider and nothing else. *)
Theorem auth_registry_spec `{AuthHost} `{HashOrder} providers :
  match build_auth_registry providers with
  | Ok registry => forall name,
      match providers !! name with
      | Some p => exists c, build_provider p = Ok c /\ registry !! name = Some c
      | None => registry !! name = None
      end
  | Err e => exists name p, providers !! name = Some p /\ build_provider p = Err e
  end.
Proof.
  unfold build_auth_registry.
  destruct (collect _ (entries providers)) as [runtime|e] eqn:Hc; cbn.
  - apply collect_Ok in Hc.
    assert (Hin : forall name c, (name, c) ∈ runtime <->
      exists p, providers !! name = Some p /\ build_provider p = Ok c).
    { intros name c. split.
      - intros [i Hi]%list_elem_of_lookup.
        eapply Forall2_lookup_r in Hc as ([n p] & Hp & Hb); [| exact Hi].
        apply bind_Ok in Hb as (c' & Hb & [= -> ->]). exists p. split; [| done].
        apply elem_of_entries. by eapply list_elem_of_lookup_2.
      - intros (p & [i Hi]%elem_of_entries%list_elem_of_lookup & Hb).
        eapply Forall2_lookup_l in Hc as (y & Hy & Hb'); [| exact Hi].
        apply bind_Ok in Hb' as (c' & Hb' & [= <-]). cbn in *. rewrite Hb in Hb'.
        injection Hb' as <-. by eapply list_elem_of_lookup_2. }
    assert (Hfst : runtime.*1 = (entries providers).*1).
    { clear Hin. induction Hc as [|[n p] y l l' Hb _ IH]; [done |].
      apply bind_Ok in Hb as (c & _ & [= <-]). cbn. by rewrite IH. }
    assert (Hnd : NoDup runtime.*1).
    { rewrite Hfst, entries_perm. apply NoDup_fst_map_to_list. }
    intros name. destruct (providers !! name) as [p|] eqn:Hp.
    + assert (name ∈ runtime.*1) as ([n c] & -> & Hrc)%list_elem_of_fmap.
      { rewrite Hfst. apply list_elem_of_fmap. exists (name, p). split; [done |].
        by apply elem_of_entries. }
      cbn in *. exists c. split; [| by apply elem_of_list_to_map_1].
      apply Hin in Hrc as (p' & Hp' & Hb). congruence.
    + apply not_elem_of_list_to_map_1. intros ([n c] & -> & Hrc)%list_elem_of_fmap.
      apply Hin in Hrc as (p' & Hp' & _). cbn in *. congruence.
  - apply collect_Err in Hc as (l1 & [name p] & l2 & Heq & Hb & _).
    exists name, p. split.
    + apply elem_of_entries. rewrite Heq. set_solver.
    + cbn in Hb. by destruct (build_provider p); simplify_eq/=.
Qed.

(** ** A concrete host and provider *)

Definition demo_host : AuthHost := {|
  env_var name := if String.eqb name "JWT_SECRET" then Some "s3cret" else None;
  url_scheme url := if starts_with "https://" url then Some "https" else None;
  rsa_pem_ok _ := true; ec_pem_ok _ := true; header_name_ok h := negb (str_has " " h);
  password_hash_ok _ := true; file_len _ := None; read_file _ := Err "no such file";
|}.

Definition demo_field (name : string) (e : Expression) : AuthProviderField Expression :=
  mkAuthProviderField name e 1 1.

Definition demo_jwt (alg : string) : AuthProviderConfig Expression :=
  mkAuthProviderConfig "shop"
    [demo_field "issuer" (EStringLiteral "me"); demo_field "audience" (EStringLiteral "you");
     demo_field "secret" (EPropertyAccess (EIdentifier "env") "JWT_SECRET");
     demo_field "algorithm" (EStringLiteral alg)].

Lemma jwt_config_sound_witness :
  exists c, @build_jwt_config demo_host (demo_jwt "HS256") = Ok c /\
    validation_source c = Secret "s3cret" /\
    (exists a, algorithm c = Some a /\ is_hmac_algorithm a = true) /\
    is_ok (@build_jwt_config demo_host (demo_jwt "RS256")) = false.
Proof.
  destruct (@build_jwt_config demo_host (demo_jwt "HS256")) as [c|] eqn:Hc; [| discriminate Hc].
  destruct (@jwt_config_sound demo_host _ c Hc) as (_ & _ & _ & Hs & _).
  exists c. split; [reflexivity |].
  assert (Hv : validation_source c = Secret "s3cret")
    by (assert (Hc2 := Hc); vm_compute in Hc2; injection Hc2 as <-; reflexivity).
  split; [exact Hv |]. rewrite Hv in Hs. split; [exact Hs | vm_compute; reflexivity].
Defined.

Definition demo_api_key : AuthProviderConfig Expression :=
  mkAuthProviderConfig "internal"
    [demo_field "header" (EStringLiteral "X-Key"); demo_field "secret" (EStringLiteral "k")].

Lemma api_key_config_sound_witness :
  exists c, @build_api_key_config demo_host demo_api_key = Ok c /\ ak_principal c = "internal".
Proof.
  destruct (@build_api_key_config demo_host demo_api_key) as [c|] eqn:Hc; [| discriminate Hc].
  exists c. split; [reflexivity |].
  apply (@api_key_config_sound demo_host _ c Hc). cbn. set_solver.
Defined.
