(* ===== verification/RouteLoader.v ===== *)
(** Loading one parsed file (src/src/route_loader.rs): routes, schemas,
    consumers, providers and startup statements are separated, route patterns
    are checked for conflicts, and the authentication contract is enforced. *)
From stdpp Require Import base list strings gmap sets.
From Stdlib Require Import ZArith Lia.
From S2P Require Import Prelude RustStr Token Errors Ast Schemas Auth.

Record RouteDefinition : Type := mkRouteDefinition {
  rd_verb : HttpVerb;
  rd_path : string;
  rd_auth : option RouteAuth;
  rd_allow : list Expression;
  rd_take : list TakeBinding;
  rd_body : list Statement;
  rd_line : nat;
  rd_column : nat;
  rd_source_file : option string;
  rd_module_id : option string;
}.

Inductive ConsumerKind : Type := QueueConsumer | TopicConsumer.

Record ConsumerDefinition : Type := mkConsumerDefinition {
  cd_kind : ConsumerKind;
  cd_target : Expression;
  cd_binding : string;
  cd_schema : option string;
  cd_body : list Statement;
  cd_line : nat;
  cd_column : nat;
  cd_source_file : option string;
  cd_module_id : option string;
}.

Record RouteRegistry : Type := mkRouteRegistry {
  routes : list RouteDefinition;
  schemas : gmap string SchemaDefinition;
  persistent_schemas : gmap string SchemaDefinition;
  startup_stmts : list Statement;
  consumers : list ConsumerDefinition;
  auth_providers : gmap string (AuthProvider Expression);
}.

(** * Patterns and path parameters *)

Definition pattern_segment (seg : string) : string :=
  if starts_with ":" seg then ":*" else seg.

(** Replaces every [:param] segment by [:*]. *)
Definition path_pattern (path : string) : string :=
  join "/" (map pattern_segment (split_on "/" path)).

Definition validate_path_params (path : string) (line column : nat) : result MarretaError unit :=
  for_each (fun segment =>
    match strip_prefix ":" segment with
    | Some param => match keyword_lookup param with
                    | Some _ => Err (ReservedWord param line column)
                    | None => Ok tt
                    end
    | None => Ok tt
    end) (split_on "/" path).

(** * References to [auth] *)

Fixpoint statement_references_auth (s : Statement) : bool :=
  match s with
  | SAssignment _ value _ _ => expression_references_auth value
  | SConditionalAssignment _ value condition _ _ =>
      expression_references_auth value || expression_references_auth condition
  | SRequire condition _ _ _ _ | SReject condition _ _ _ _ => expression_references_auth condition
  | SWhile condition body _ _ =>
      expression_references_auth condition || existsb statement_references_auth body
  | STaskDef _ _ body _ _ => task_body_references_auth body
  | SExpressionStatement e _ _ => expression_references_auth e
  | SRoute _ _ auth allow _ body _ _ =>
      match auth with Some _ => true | None => false end
      || existsb expression_references_auth allow || existsb statement_references_auth body
  | SSchema _ _ _ _ _ | SAuthProvider _ _ _ | SScenario _ _ _ _ => false
  | SReply status _ body _ headers _ _ =>
      expression_references_auth status || expression_references_auth body
      || match headers with Some e => expression_references_auth e | None => false end
  | SFail _ message _ _ => expression_references_auth message
  | SRaise message condition _ _ =>
      expression_references_auth message
      || match condition with Some e => expression_references_auth e | None => false end
  | SExport inner => statement_references_auth inner
  | STransaction body _ _ => existsb statement_references_auth body
  | SOnQueue e _ _ body _ _ | SOnTopic e _ _ body _ _ =>
      expression_references_auth e || existsb statement_references_auth body
  | SNack _ condition _ _ =>
      match condition with Some e => expression_references_auth e | None => false end
  end

with task_body_references_auth (b : TaskBody) : bool :=
  match b with
  | TInline e => expression_references_auth e
  | TBlock statements e =>
      existsb statement_references_auth statements || expression_references_auth e
  end

with argument_references_auth (a : Argument) : bool :=
  match a with
  | Positional e | Named _ e => expression_references_auth e
  end

with expression_references_auth (e : Expression) : bool :=
  match e with
  | EIdentifier name => String.eqb name "auth"
  | EInteger _ | EFloat _ | EStringLiteral _ | EBoolean _ | ENull | ETaskCall _ => false
  | EList items => existsb expression_references_auth items
  | EMapLiteral entries | ESchemaConstructor _ entries =>
      existsb (fun kv => expression_references_auth (snd kv)) entries
  | EBinaryOp l _ r => expression_references_auth l || expression_references_auth r
  | EUnaryOp _ e => expression_references_auth e
  | EPropertyAccess e _ => expression_references_auth e
  | EMethodCall e _ args =>
      expression_references_auth e || existsb argument_references_auth args
  | EHttpClientResponseSchema e _ => expression_references_auth e
  | EFunctionCall _ args => existsb argument_references_auth args
  | EMatch subject arms =>
      expression_references_auth subject || existsb match_arm_references_auth arms
  | EIf condition t f =>
      expression_references_auth condition || task_body_references_auth t
      || match f with Some b => task_body_references_auth b | None => false end
  | ESubscript object key => expression_references_auth object || expression_references_auth key
  | EPipeline input stages =>
      expression_references_auth input || existsb pipeline_stage_references_auth stages
  | EBroadcast input targets =>
      expression_references_auth input || existsb expression_references_auth targets
  | ERescue e handler => expression_references_auth e || expression_references_auth handler
  | EQueuePush e _ payload | ETopicPublish e _ payload =>
      expression_references_auth e
      || match payload with Some e => expression_references_auth e | None => false end
  end

(** The closure over match arms. *)
with match_arm_references_auth (a : MatchArm) : bool :=
  match a with
  | mkMatchArm p value =>
      match p with PLiteral e => expression_references_auth e | PFallback => false end
      || expression_references_auth value
  end

with pipeline_stage_references_auth (s : PipelineStage) : bool :=
  match s with
  | PSExpression e => expression_references_auth e
  | PSMap _ body => existsb map_statement_references_auth body
  | PSReduce initial _ _ body =>
      expression_references_auth initial || task_body_references_auth body
  | PSRescue handler => rescue_handler_references_auth handler
  end

with map_statement_references_auth (m : MapStatement) : bool :=
  match m with
  | MStatement s => statement_references_auth s
  | MKeep value condition =>
      expression_references_auth value
      || match condition with Some e => expression_references_auth e | None => false end
  | MSkip condition => expression_references_auth condition
  end

with rescue_handler_references_auth (h : RescueHandler) : bool :=
  match h with
  | RHInline e => expression_references_auth e
  | RHBlock statements => existsb statement_references_auth statements
  end.

Definition statements_reference_auth (statements : list Statement) : bool :=
  existsb statement_references_auth statements.

(** * The authentication contract *)

Definition route_label (route : RouteDefinition) : string :=
  show_verb (rd_verb route) +:+ " " +:+ rd_path route.

Definition check_route_auth (providers : gmap string (AuthProvider Expression))
    (route : RouteDefinition) : result MarretaError unit :=
  match rd_auth route with
  | Some auth =>
      match providers !! ra_provider auth with
      | Some _ => Ok tt
      | None => Err (RuntimeError ("route " +:+ route_label route
                  +:+ " requires unknown auth provider '" +:+ ra_provider auth +:+ "'")
                  (ra_line auth) (ra_column auth))
      end
  | None =>
      match rd_allow route with
      | _ :: _ => Err (RuntimeError ("route " +:+ route_label route
                    +:+ " declares allow without require auth") (rd_line route) (rd_column route))
      | [] =>
          if statements_reference_auth (rd_body route) then
            Err (RuntimeError ("public route " +:+ route_label route
              +:+ " cannot access auth; add `require auth <provider>` first")
              (rd_line route) (rd_column route))
          else Ok tt
      end
  end.

Definition validate_auth_contract (routes : list RouteDefinition)
    (providers : gmap string (AuthProvider Expression)) : result MarretaError unit :=
  for_each (check_route_auth providers) routes.

(** * Loading *)

Record LoadState : Type := mkLoadState {
  ls_routes : list RouteDefinition;
  ls_schemas : gmap string SchemaDefinition;
  ls_startup : list Statement;
  ls_consumers : list ConsumerDefinition;
  ls_providers : gmap string (AuthProvider Expression);
}.

Definition LoadState_new : LoadState := mkLoadState [] ∅ [] [] ∅.

(** The first registered route that matches the same requests. *)
Definition conflicting_route (verb : HttpVerb) (path : string) (existing : list RouteDefinition)
  : option RouteDefinition :=
  find (fun r => bool_decide (rd_verb r = verb)
                 && String.eqb (path_pattern (rd_path r)) (path_pattern path)) existing.

Section Load.
Variable source_file : option string.

Definition load_route (st : LoadState) (route : RouteDefinition) : result MarretaError LoadState :=
  let path := rd_path route in
  _ ← validate_path_params path (rd_line route) (rd_column route);
  match conflicting_route (rd_verb route) path (ls_routes st) with
  | Some existing =>
      Err (RouteConflict (show_verb (rd_verb route)) (rd_path existing) path
             (rd_line route) (rd_column route))
  | None =>
      Ok (mkLoadState (ls_routes st ++ [route]) (ls_schemas st) (ls_startup st)
            (ls_consumers st) (ls_providers st))
  end.

Definition add_schema (name : string) (def : SchemaDefinition) (st : LoadState) : LoadState :=
  mkLoadState (ls_routes st) (<[name := def]> (ls_schemas st)) (ls_startup st)
    (ls_consumers st) (ls_providers st).
Definition add_startup (s : Statement) (st : LoadState) : LoadState :=
  mkLoadState (ls_routes st) (ls_schemas st) (ls_startup st ++ [s])
    (ls_consumers st) (ls_providers st).
Definition add_consumer (c : ConsumerDefinition) (st : LoadState) : LoadState :=
  mkLoadState (ls_routes st) (ls_schemas st) (ls_startup st)
    (ls_consumers st ++ [c]) (ls_providers st).

(** One statement of the program. *)
Definition load_statement (st : LoadState) (stmt : Statement) : result MarretaError LoadState :=
  match stmt with
  | SExport inner =>
      let st := match inner with
                | SSchema name table fields _ _ => add_schema name (mkSchemaDefinition table fields) st
                | _ => st
                end in
      Ok (add_startup stmt st)
  | SSchema name table fields _ _ => Ok (add_schema name (mkSchemaDefinition table fields) st)
  | SRoute verb path auth allow take body line column =>
      load_route st (mkRouteDefinition verb path auth allow take body line column
                       source_file source_file)
  | SAuthProvider provider _ _ =>
      let name := provider_name provider in
      match ls_providers st !! name with
      | Some _ => Err (RuntimeError ("duplicate auth provider '" +:+ name +:+ "'") 0 0)
      | None => Ok (mkLoadState (ls_routes st) (ls_schemas st) (ls_startup st) (ls_consumers st)
                      (<[name := provider]> (ls_providers st)))
      end
  | SOnQueue queue_name binding schema body line column =>
      Ok (add_consumer (mkConsumerDefinition QueueConsumer queue_name binding schema body
                          line column source_file source_file) st)
  | SOnTopic pattern binding schema body line column =>
      Ok (add_consumer (mkConsumerDefinition TopicConsumer pattern binding schema body
                          line column source_file source_file) st)
  | other => Ok (add_startup other st)
  end.

Fixpoint load_statements (program : list Statement) (st : LoadState)
  : result MarretaError LoadState :=
  match program with
  | [] => Ok st
  | stmt :: program => st ← load_statement st stmt; load_statements program st
  end.

Definition load `{AuthHost} `{HashOrder} (program : list Statement)
  : result MarretaError RouteRegistry :=
  st ← load_statements program LoadState_new;
  _ ← validate_schema_naming (ls_schemas st);
  _ ← validate_persistent_schema_references (ls_schemas st);
  _ ← validate_auth_contract (ls_routes st) (ls_providers st);
  _ ← build_auth_registry (ls_providers st);
  Ok (mkRouteRegistry (ls_routes st) (ls_schemas st)
        (collect_persistent_schemas (ls_schemas st)) (ls_startup st) (ls_consumers st)
        (ls_providers st)).

End Load.
