(* ===== verification/RouteFacts.v ===== *)
(** Theorems on loading a file: what a loaded registry guarantees about its
    routes, what the pattern comparison means, and what the walk for [auth]
    finds. *)
From stdpp Require Import base list strings gmap sets.
From Stdlib Require Import ZArith Lia.
From S2P Require Import Prelude RustStr Token Errors Ast Schemas Auth RouteLoader.

(** * The walk for [auth] *)

(** The walk on any syntactic node. *)
Definition node_references_auth (n : node) : bool :=
  match n with
  | NStatement s => statement_references_auth s
  | NScenarioStep _ => false
  | NTaskBody b => task_body_references_auth b
  | NExpression e => expression_references_auth e
  | NArgument a => argument_references_auth a
  | NMatchArm a => match_arm_references_auth a
  | NMatchPattern p => match p with PLiteral e => expression_references_auth e | PFallback => false end
  | NPipelineStage s => pipeline_stage_references_auth s
  | NRescueHandler h => rescue_handler_references_auth h
  | NMapStatement m => map_statement_references_auth m
  end.

(** A node that itself refers to the authenticated principal: the identifier
    [auth], or a nested route that requires authentication. *)
Definition mentions_auth (n : node) : bool :=
  match n with
  | NExpression (EIdentifier name) => String.eqb name "auth"
  | NStatement (SRoute _ _ (Some _) _ _ _ _ _) => true
  | _ => false
  end.

(** Scenarios and provider declarations are not part of a request. *)
Definition request_children (n : node) : list node :=
  match n with
  | NStatement (SScenario _ _ _ _) | NStatement (SAuthProvider _ _ _) | NScenarioStep _ => []
  | _ => children n
  end.

(** [m] is [n] or occurs in it, at any depth. *)
Inductive within_request (m : node) : node -> Prop :=
| within_here : within_request m m
| within_child n c : c ∈ request_children n -> within_request m c -> within_request m n.

Lemma existsb_map {A B} (f : B -> bool) (g : A -> B) l :
  existsb f (map g l) = existsb (fun a => f (g a)) l.
Proof. induction l as [|a l IH]; cbn; [done | by rewrite IH]. Qed.

Lemma existsb_opt_node {A} (f : node -> bool) (g : A -> node) o :
  existsb f (opt_node g o) = match o with Some a => f (g a) | None => false end.
Proof. destruct o; cbn; [by rewrite orb_false_r | done]. Qed.

(** The walk visits every component of every node once. *)
Lemma node_references_children n :
  node_references_auth n
  = mentions_auth n || existsb node_references_auth (request_children n).
Proof.
  destruct n as [s|s|b|e|a|a|p|s|h|m];
    [destruct s | | destruct b | destruct e | destruct a | destruct a
    | destruct p | destruct s | destruct h | destruct m];
    cbn [node_references_auth mentions_auth request_children children statement_children
         expression_children statement_references_auth task_body_references_auth
         argument_references_auth expression_references_auth match_arm_references_auth
         pipeline_stage_references_auth map_statement_references_auth
         rescue_handler_references_auth existsb];
    rewrite ?existsb_app; cbn [existsb];
    rewrite ?existsb_map, ?existsb_opt_node, ?existsb_app, ?orb_false_r, ?orb_false_l, ?orb_assoc;
    cbn [node_references_auth existsb]; rewrite ?orb_false_r, ?orb_assoc; try reflexivity.
Qed.

Lemma node_references_spec n :
  node_references_auth n = true <-> exists m, within_request m n /\ mentions_auth m = true.
Proof.
  split.
  - assert (Hsub : forall c, c ∈ request_children n -> c ∈ children n).
    { destruct n as [[]|[]| | | | | | | |]; cbn; set_solver. }
    revert Hsub. induction n as [n IH] using tree_ind. intros Hsub.
    rewrite node_references_children. intros [Hm | Hc]%orb_true_iff.
    + exists n. split; [constructor | done].
    + apply existsb_exists in Hc as (c & Hin%list_elem_of_In & Hc).
      destruct (IH c) as (m & Hmc & Hm); [by apply Hsub | | done |].
      * destruct c as [[]|[]| | | | | | | |]; cbn; set_solver.
      * exists m. split; [by eapply within_child | done].
  - intros (m & Hmn & Hm). induction Hmn as [|n c Hc _ IH];
      rewrite node_references_children; apply orb_true_iff; [by left | right].
    apply existsb_exists. exists c. split; [by apply list_elem_of_In | done].
Qed.

(** The walk behind the public-route check is complete: a statement is
    reported exactly when, somewhere in it, outside test scenarios and
    provider declarations, the identifier [auth] or an authenticated route
    occurs. *)
Theorem references_auth_iff s :
  statement_references_auth s = true <->
  exists m, within_request m (NStatement s) /\ mentions_auth m = true.
Proof. exact (node_references_spec (NStatement s)). Qed.

(** The contract of authentication: an authenticated route names a declared
    provider; a public one has no [allow] rule and nowhere in its body mentions
    [auth]. *)
Definition auth_contract (routes : list RouteDefinition)
    (providers : gmap string (AuthProvider Expression)) : Prop :=
  forall r, r ∈ routes ->
    match rd_auth r with
    | Some auth => is_Some (providers !! ra_provider auth)
    | None => rd_allow r = [] /\
        forall s m, s ∈ rd_body r -> within_request m (NStatement s) -> mentions_auth m = false
    end.

Lemma check_route_auth_Ok providers r :
  check_route_auth providers r = Ok tt <->
  match rd_auth r with
  | Some auth => is_Some (providers !! ra_provider auth)
  | None => rd_allow r = [] /\
      forall s m, s ∈ rd_body r -> within_request m (NStatement s) -> mentions_auth m = false
  end.
Proof.
  unfold check_route_auth. destruct (rd_auth r) as [auth|].
  - destruct (providers !! _); split; try done; try (by eexists).
  - destruct (rd_allow r); [| split; [done | by intros [? _]]].
    unfold statements_reference_auth. destruct (existsb _ (rd_body r)) eqn:Hb.
    + split; [done |]. intros [_ Hno].
      apply existsb_exists in Hb as (s & Hs%list_elem_of_In & Href).
      apply (node_references_spec (NStatement s)) in Href as (m & Hm & Hmen).
      rewrite (Hno s m Hs Hm) in Hmen. done.
    + split; [| done]. intros _. split; [done |]. intros s m Hs Hm.
      destruct (mentions_auth m) eqn:Hmen; [| done].
      assert (Hc : existsb statement_references_auth (rd_body r) = true); [| congruence].
      apply existsb_exists. exists s. split; [by apply list_elem_of_In |].
      apply (node_references_spec (NStatement s)). by exists m.
Qed.

(** The check accepts exactly the routes that satisfy the contract. *)
Lemma auth_contract_holds routes providers :
  validate_auth_contract routes providers = Ok tt <-> auth_contract routes providers.
Proof.
  unfold validate_auth_contract, auth_contract. rewrite for_each_Ok, Forall_forall.
  apply forall_proper; intros r. apply forall_proper; intros _. apply check_route_auth_Ok.
Qed.

(** * Paths *)

(** Two segments accept a common request segment in the same position. *)
Definition segment_matches (a b : string) : Prop :=
  a = b \/ (starts_with ":" a = true /\ starts_with ":" b = true).

Lemma pattern_segment_eq a b : pattern_segment a = pattern_segment b <-> segment_matches a b.
Proof.
  unfold pattern_segment, segment_matches.
  destruct (starts_with ":" a) eqn:Ha, (starts_with ":" b) eqn:Hb;
    (split; [intros H | intros [-> | [H1 H2]]]); try done; try (by right); try (by left);
    try congruence.
  - subst b. discriminate Hb.
  - subst a. discriminate Ha.
Qed.

Lemma segments_match_sym l k : Forall2 segment_matches l k -> Forall2 segment_matches k l.
Proof.
  intros H. apply Forall2_flip. eapply Forall2_impl; [exact H |].
  intros a b [-> | [? ?]]; [by left | by right].
Qed.

(** Two paths have the same pattern exactly when they have the same number
    of segments and each pair of segments is equal or both parameters:
    comparing the rendered patterns loses nothing. *)
Lemma path_pattern_matches p q :
  path_pattern p = path_pattern q <->
  Forall2 segment_matches (split_on "/" p) (split_on "/" q).
Proof.
  assert (Hfree : forall p, forall w, w ∈ map pattern_segment (split_on "/" p) -> str_has "/" w = false).
  { intros p' w (v & -> & Hv)%list_elem_of_fmap. unfold pattern_segment.
    destruct (starts_with ":" v); [done |]. by eapply split_on_free. }
  assert (Hne : forall p, map pattern_segment (split_on "/" p) <> []).
  { intros p' Hm. apply map_eq_nil in Hm. by eapply split_on_nonnil. }
  transitivity (map pattern_segment (split_on "/" p) = map pattern_segment (split_on "/" q)).
  - unfold path_pattern. split; [| by intros ->]. intros Heq.
    pose proof (split_join "/" _ (Hne p) (Hfree p)) as Hp.
    pose proof (split_join "/" _ (Hne q) (Hfree q)) as Hq.
    congruence.
  - generalize (split_on "/" p) (split_on "/" q). clear. intros l r. revert r.
    induction l as [|a l IH]; intros [|b r]; cbn; (split; [intros H; try done | intros H; inversion H; subst]);
      try done; try constructor.
    + injection H as H1 H2. by apply pattern_segment_eq.
    + injection H as H1 H2. by apply IH.
    + f_equal; [by apply pattern_segment_eq | by apply IH].
Qed.

(** * Loading *)

Definition route_of (source_file : option string) (s : Statement) : option RouteDefinition :=
  match s with
  | SRoute verb path auth allow take body line column =>
      Some (mkRouteDefinition verb path auth allow take body line column source_file source_file)
  | _ => None
  end.

Definition is_startup (s : Statement) : bool :=
  match s with
  | SSchema _ _ _ _ _ | SRoute _ _ _ _ _ _ _ _ | SAuthProvider _ _ _
  | SOnQueue _ _ _ _ _ _ | SOnTopic _ _ _ _ _ _ => false
  | _ => true
  end.

Definition consumer_of (source_file : option string) (s : Statement) : option ConsumerDefinition :=
  match s with
  | SOnQueue e binding schema body line column =>
      Some (mkConsumerDefinition QueueConsumer e binding schema body line column source_file source_file)
  | SOnTopic e binding schema body line column =>
      Some (mkConsumerDefinition TopicConsumer e binding schema body line column source_file source_file)
  | _ => None
  end.

(** An ASCII capital followed by ASCII letters and digits. *)
Definition pascal_case (name : string) : Prop :=
  exists c rest, chars name = c :: rest /\ is_ascii_uppercase c = true
    /\ forallb is_ascii_alphanumeric rest = true /\ str_has "_" name = false.

Lemma schema_names_Ok `{HashOrder} schemas :
  validate_schema_naming schemas = Ok tt <->
  forall name, is_Some (schemas !! name) -> pascal_case name.
Proof. apply schema_naming_valid_iff. Qed.

Definition schema_of (s : Statement) : option (string * SchemaDefinition) :=
  match s with
  | SSchema name table fields _ _ | SExport (SSchema name table fields _ _) =>
      Some (name, mkSchemaDefinition table fields)
  | _ => None
  end.

(** The last of the declarations of a name. *)
Definition last_declared {A} (name : string) (declarations : list (string * A)) : option A :=
  last (omap (fun d => if decide (fst d = name) then Some (snd d) else None) declarations).

Lemma last_declared_nil {A} name : last_declared (A := A) name [] = None.
Proof. done. Qed.

Lemma last_declared_app {A} name (l k : list (string * A)) :
  last_declared name (l ++ k)
  = match last_declared name k with Some a => Some a | None => last_declared name l end.
Proof. unfold last_declared. rewrite omap_app, last_app. by destruct (last _). Qed.

Lemma last_declared_insert {A} name (m : gmap string A) l k a :
  (forall n, m !! n = last_declared n l) ->
  <[k := a]> m !! name = last_declared name (l ++ [(k, a)]).
Proof.
  intros Hm. rewrite last_declared_app. unfold last_declared at 1. cbn.
  destruct (decide (k = name)) as [<-|Hne]; cbn;
    [by rewrite lookup_insert_eq | by rewrite lookup_insert_ne].
Qed.

(** [p] is a provider that the program declares. *)
Definition declares_provider (program : list Statement) (p : AuthProvider Expression) : Prop :=
  exists line column, SAuthProvider p line column ∈ program.

(** Two routes of the list do not answer the same requests: they differ in the
    verb, or their paths in the number of segments or in a segment that is not
    a parameter of both. *)
Definition distinct_requests (rs : list RouteDefinition) : Prop :=
  forall i j a b, rs !! i = Some a -> rs !! j = Some b -> i <> j -> rd_verb a = rd_verb b ->
    ~ Forall2 segment_matches (split_on "/" (rd_path a)) (split_on "/" (rd_path b)).

(** No two routes of the list answer the same requests, and no path parameter
    is a reserved word. *)
Record routes_ok (rs : list RouteDefinition) : Prop := {
  ro_distinct : distinct_requests rs;
  ro_params : forall r p, r ∈ rs -> (":" +:+ p) ∈ split_on "/" (rd_path r) -> keyword_lookup p = None;
}.

Lemma conflicting_route_None verb path rs :
  conflicting_route verb path rs = None <->
  forall r, r ∈ rs -> rd_verb r = verb ->
    ~ Forall2 segment_matches (split_on "/" (rd_path r)) (split_on "/" path).
Proof.
  setoid_rewrite <- path_pattern_matches. unfold conflicting_route. split.
  - intros H r Hr Hv Hp. apply find_none with (x := r) in H; [| by apply list_elem_of_In].
    rewrite bool_decide_eq_true_2 in H by done. cbn in H.
    apply String.eqb_neq in H. done.
  - intros Hall. destruct (find _ rs) as [r|] eqn:Hf; [| done].
    apply find_some in Hf as [Hr%list_elem_of_In Hb].
    apply andb_true_iff in Hb as [Hv Hp]. apply bool_decide_eq_true in Hv.
    apply String.eqb_eq in Hp. by destruct (Hall r Hr Hv).
Qed.

Lemma load_route_Ok st route st' :
  load_route st route = Ok st' -> routes_ok (ls_routes st) ->
  routes_ok (ls_routes st') /\
  st' = mkLoadState (ls_routes st ++ [route]) (ls_schemas st) (ls_startup st)
          (ls_consumers st) (ls_providers st).
Proof.
  unfold load_route. intros ([] & Hparams & H)%bind_Ok Hok.
  destruct (conflicting_route _ _ _) eqn:Hc; [done |]. injection H as <-.
  split; [| done]. cbn. pose proof (proj1 (conflicting_route_None _ _ _) Hc) as Hfresh.
  constructor.
  - intros i j a b Hi Hj Hij Hv.
    apply lookup_app_Some in Hi as [Hi | [? Hi]], Hj as [Hj | [? Hj]].
    + by eapply ro_distinct.
    + apply list_lookup_singleton_Some in Hj as [_ <-]. apply Hfresh; [| done].
      by eapply list_elem_of_lookup_2.
    + apply list_lookup_singleton_Some in Hi as [_ <-]. intros Heq%segments_match_sym. revert Heq.
      apply Hfresh; [| done]. by eapply list_elem_of_lookup_2.
    + apply list_lookup_singleton_Some in Hi as [? _], Hj as [? _]. lia.
  - intros r p [Hr | ->%list_elem_of_singleton]%elem_of_app Hp; [by eapply ro_params |].
    unfold validate_path_params in Hparams. rewrite for_each_Ok, Forall_forall in Hparams.
    apply Hparams in Hp. rewrite strip_prefix_append in Hp. by destruct (keyword_lookup p).
Qed.

Lemma load_statements_Ok source program st st' :
  load_statements source program st = Ok st' -> routes_ok (ls_routes st) ->
  routes_ok (ls_routes st') /\
  ls_routes st' = ls_routes st ++ omap (route_of source) program /\
  ls_startup st' = ls_startup st ++ List.filter is_startup program /\
  ls_consumers st' = ls_consumers st ++ omap (consumer_of source) program.
Proof.
  revert st. induction program as [|s program IH]; intros st; cbn [load_statements].
  - intros [= <-] Hok. cbn. by rewrite !app_nil_r.
  - intros (st1 & Hs & Hrest)%bind_Ok Hok.
    assert (Hstep : routes_ok (ls_routes st1) /\
      ls_routes st1 = ls_routes st ++ omap (route_of source) [s] /\
      ls_startup st1 = ls_startup st ++ List.filter is_startup [s] /\
      ls_consumers st1 = ls_consumers st ++ omap (consumer_of source) [s]).
    { destruct s; cbn [load_statement] in Hs;
        try (injection Hs as <-; cbn; rewrite ?app_nil_r; by split_and!).
      - apply load_route_Ok in Hs as [? ->]; [| done]. cbn. rewrite ?app_nil_r. by split_and!.
      - destruct (ls_providers st !! _); [done |]. injection Hs as <-. cbn.
        rewrite ?app_nil_r. by split_and!.
      - injection Hs as <-. destruct s; cbn; rewrite ?app_nil_r; by split_and!. }
    destruct Hstep as (Hok1 & Hr1 & Hs1 & Hc1).
    apply IH in Hrest as (Hok2 & Hr2 & Hs2 & Hc2); [| done]. split; [done |].
    rewrite Hr2, Hs2, Hc2, Hr1, Hs1, Hc1, <- !app_assoc.
    change (s :: program) with ([s] ++ program).
    by rewrite !omap_app, List.filter_app.
Qed.

Lemma load_statement_schemas source st s st' :
  load_statement source st s = Ok st' -> forall l,
  (forall name, ls_schemas st !! name = last_declared name l) ->
  forall name, ls_schemas st' !! name = last_declared name (l ++ omap schema_of [s]).
Proof.
  intros H l Hl name.
  destruct s as [| | | | | | | | | | | | |inner| | | | |]; cbn [load_statement] in H;
    try (injection H as <-; cbn; rewrite ?app_nil_r;
         by first [apply Hl | by apply last_declared_insert]).
  - unfold load_route in H. apply bind_Ok in H as ([] & _ & H).
    destruct (conflicting_route _ _ _); [done |]. injection H as <-. cbn. by rewrite app_nil_r.
  - destruct (ls_providers st !! _); [done |]. injection H as <-. cbn. by rewrite app_nil_r.
  - injection H as <-. destruct inner; cbn; rewrite ?app_nil_r;
      by first [apply Hl | by apply last_declared_insert].
Qed.

Lemma load_statements_schemas source program : forall st st',
  load_statements source program st = Ok st' -> forall l,
  (forall name, ls_schemas st !! name = last_declared name l) ->
  forall name, ls_schemas st' !! name = last_declared name (l ++ omap schema_of program).
Proof.
  induction program as [|s program IH]; intros st st'; cbn [load_statements].
  - intros [= <-] l Hl name. by rewrite app_nil_r.
  - intros (st1 & Hs & Hrest)%bind_Ok l Hl name.
    change (s :: program) with ([s] ++ program). rewrite omap_app, app_assoc.
    eapply IH; [exact Hrest |]. by eapply load_statement_schemas.
Qed.

Lemma load_statement_providers source st s st' :
  load_statement source st s = Ok st' -> forall name p,
  ls_providers st' !! name = Some p <->
  ls_providers st !! name = Some p \/ (declares_provider [s] p /\ provider_name p = name).
Proof.
  assert (Hother : forall st1, ls_providers st1 = ls_providers st ->
    (forall p line column, s <> SAuthProvider p line column) -> forall name p,
    ls_providers st1 !! name = Some p <->
    ls_providers st !! name = Some p \/ (declares_provider [s] p /\ provider_name p = name)).
  { intros st1 -> Hs name p. split; [by left |]. intros [? | [(l & c & Hin) _]]; [done |].
    apply list_elem_of_singleton in Hin. by edestruct Hs. }
  intros H. destruct s as [| | | | | | | | |q line column| | | |inner| | | | |];
    cbn [load_statement] in H;
    try (injection H as <-; by apply Hother).
  - unfold load_route in H. apply bind_Ok in H as ([] & _ & H).
    destruct (conflicting_route _ _ _); [done |]. injection H as <-. by apply Hother.
  - destruct (ls_providers st !! provider_name q) eqn:Hq; [done |]. injection H as <-. cbn.
    intros name p. rewrite lookup_insert_Some. unfold declares_provider.
    setoid_rewrite list_elem_of_singleton. split.
    + intros [[<- <-] | [_ ?]]; [right | by left]. split; [by do 2 eexists | done].
    + intros [Hp | [(l & c & [= -> _ _]) <-]]; [| by left].
      right. split; [| done]. intros <-. congruence.
  - injection H as <-. apply Hother; [| done]. by destruct inner.
Qed.

Lemma load_statements_providers source program : forall st st',
  load_statements source program st = Ok st' -> forall name p,
  ls_providers st' !! name = Some p <->
  ls_providers st !! name = Some p \/ (declares_provider program p /\ provider_name p = name).
Proof.
  unfold declares_provider.
  induction program as [|s program IH]; intros st st'; cbn [load_statements].
  - intros [= <-] name p. setoid_rewrite elem_of_nil. naive_solver.
  - intros (st1 & Hs & Hrest)%bind_Ok name p.
    rewrite (IH _ _ Hrest), (load_statement_providers _ _ _ _ Hs). unfold declares_provider.
    setoid_rewrite elem_of_cons. setoid_rewrite elem_of_nil. naive_solver.
Qed.

Lemma no_routes_ok : routes_ok [].
Proof.
  constructor; [intros i j a b Hi; by destruct i |]. intros r p Hr. by inversion Hr.
Qed.

Lemma is_persistent_table s : is_persistent s = true <-> is_Some (db_table s).
Proof. unfold is_persistent. by destruct (db_table s). Qed.

Lemma collect_persistent_schemas_lookup schemas name s :
  collect_persistent_schemas schemas !! name = Some s <->
  schemas !! name = Some s /\ is_Some (db_table s).
Proof.
  unfold collect_persistent_schemas. by rewrite map_lookup_filter_Some, <- is_persistent_table.
Qed.


(** ** A concrete program *)

Definition demo_route (verb : HttpVerb) (path : string) : Statement :=
  SRoute verb path None [] [] [SExpressionStatement (EIdentifier "id") 2 3] 1 1.

Definition demo_program : list Statement :=
  [demo_route VGet "/users/:id"; SAssignment "x" (EInteger 1) 1 1; demo_route VPost "/users/:name";
   SSchema "User" None [mkSchemaField "id" IntegerType false] 1 1].


Example load_conflict :
  @load None demo_host sorted_order [demo_route VGet "/users/:id"; demo_route VGet "/users/:name"]
  = Err (RouteConflict "GET" "/users/:id" "/users/:name" 1 1).
Proof. vm_compute. reflexivity. Qed.
