(* ===== verification/QueryBuilder.v ===== *)
(** SQL text from relational queries (src/src/db/query_builder.rs).  Filter
    values are bound as parameters [$1], [$2], ...; identifiers are validated
    and quoted. *)
From stdpp Require Import base list strings gmap sets.
From Stdlib Require Import ZArith Lia.
From S2P Require Import Prelude RustStr Errors Foreign QueryTypes Value.

(** * Identifiers *)

Definition truncate_for_message (raw : string) : string :=
  let s := trim raw in
  if 60 <? length (chars s) then of_chars (firstn 60 (chars s)) +:+ "..." else s.

Definition invalid_identifier (raw : string) : MarretaError :=
  DbIdentifierError CInvalidIdentifier ("invalid SQL identifier '" +:+ truncate_for_message raw +:+ "'").

Definition segment_ok (seg : string) : bool :=
  match chars seg with
  | c :: rest => (is_ascii_alphabetic c || (c =? ch "_")%N)
                 && forallb (fun c => is_ascii_alphanumeric c || (c =? ch "_")%N) rest
  | [] => false
  end.

Definition quote_segment (s : string) : string := dquote +:+ s +:+ dquote.

Definition quote_identifier (raw : string) : result MarretaError string :=
  let trimmed := trim raw in
  let segments := split_on "." trimmed in
  let shaped := ((length segments =? 1) || (length segments =? 2)) && forallb segment_ok segments in
  if shaped then Ok (join "." (map quote_segment segments))
  else Err (invalid_identifier trimmed).

Definition validate_column (raw : string) (known : option (gset string))
  : result MarretaError string :=
  quoted ← quote_identifier raw;
  match known with
  | Some cols =>
      let trimmed := trim raw in
      if negb (str_has "." trimmed) && negb (bool_decide (trimmed ∈ cols)) then
        Err (DbIdentifierError CUnknownColumn
               ("unknown column '" +:+ truncate_for_message trimmed +:+ "'"))
      else Ok quoted
  | None => Ok quoted
  end.

Definition order_part (known : option (gset string)) (part : string) : result MarretaError string :=
  match split_whitespace part with
  | [col] => validate_column col known
  | [col; dir] =>
      let direction := to_ascii_uppercase dir in
      if String.eqb direction "ASC" || String.eqb direction "DESC" then
        column ← validate_column col known; Ok (column +:+ " " +:+ dir)
      else Err (invalid_identifier part)
  | _ => Err (invalid_identifier (trim part))
  end.

Definition build_order_by (order : string) (known : option (gset string))
  : result MarretaError string :=
  rendered ← collect (order_part known) (split_on "," order);
  match rendered with
  | [] => Err (invalid_identifier order)
  | _ => Ok (join ", " rendered)
  end.

(** * Statements *)

Section Build.
Context `{E : Ext}.

Definition placeholder (n : nat) : string := "$" +:+ show_nat n.

(** One WHERE clause; [params] are the values bound so far. *)
Definition where_clause (known : option (gset string)) (f : FilterClause Value) (params : list Value)
  : result MarretaError (string * list Value) :=
  let param_n := length params + 1 in
  column ← validate_column (fc_column f) known;
  if bool_decide (fc_op f = FIn) then
    match fc_value f with
    | VList items =>
        Ok (column +:+ " IN (" +:+ join ", " (map (fun iv => placeholder (param_n + fst iv)) (enumerate items))
            +:+ ")", params ++ items)
    | v => Ok (column +:+ " IN (" +:+ placeholder param_n +:+ ")", params ++ [v])
    end
  else Ok (column +:+ " " +:+ to_sql (fc_op f) +:+ " " +:+ placeholder param_n,
           params ++ [fc_value f]).

Fixpoint where_clauses (known : option (gset string)) (filters : list (FilterClause Value))
    (params : list Value) : result MarretaError (list string * list Value) :=
  match filters with
  | [] => Ok ([], params)
  | f :: filters =>
      cp ← where_clause known f params;
      rest ← where_clauses known filters (snd cp);
      Ok (fst cp :: fst rest, snd rest)
  end.

Definition join_sql (table : string) (j : JoinClause) : string :=
  " " +:+ match jc_kind j with Inner => "INNER JOIN" | Left_ => "LEFT JOIN" end
  +:+ " " +:+ jc_table j +:+ " ON " +:+ table +:+ "." +:+ jc_on j +:+ " = " +:+ jc_table j +:+ ".id".

Definition select_list (q : QueryState Value) : result MarretaError string :=
  if q_count q then Ok "COUNT(*) AS count"
  else match q_select_cols q with
       | [] => Ok "*"
       | cols => columns ← collect (fun c => validate_column c (q_known_columns q)) cols;
                 Ok (join ", " columns)
       end.

(** [" WHERE a AND b"], or nothing. *)
Definition where_sql (clauses : list string) : string :=
  match clauses with [] => EmptyString | _ => " WHERE " +:+ join " AND " clauses end.

Definition build_select (q : QueryState Value) : result MarretaError (string * list Value) :=
  select ← select_list q;
  let sql := "SELECT " +:+ select +:+ " FROM " +:+ q_table q in
  let sql := sql +:+ String.concat EmptyString (map (join_sql (q_table q)) (q_joins q)) in
  cp ← where_clauses (q_known_columns q) (q_filters q) [];
  let sql := sql +:+ where_sql (fst cp) in
  order ← match q_order_by q with
          | Some order => o ← build_order_by order (q_known_columns q); Ok (" ORDER BY " +:+ o)
          | None => Ok EmptyString
          end;
  let sql := sql +:+ order in
  let sql := sql +:+ match q_limit q with Some n => " LIMIT " +:+ show_Z n | None => EmptyString end in
  let sql := sql +:+ match q_offset q with Some n => " OFFSET " +:+ show_Z n | None => EmptyString end in
  Ok (sql, snd cp).

(** [column op $n] for the filters of an UPDATE or DELETE, numbered from [base]. *)
Definition numbered_clauses (known : option (gset string)) (base : nat)
    (filters : list (FilterClause Value)) : result MarretaError (list string) :=
  collect (fun jf => column ← validate_column (fc_column (snd jf)) known;
                     Ok (column +:+ " " +:+ to_sql (fc_op (snd jf)) +:+ " " +:+ placeholder (base + fst jf)))
    (enumerate filters).

Definition build_update (table : string) (data_keys : list string)
    (filters : list (FilterClause Value)) (known : option (gset string))
  : result MarretaError (string * nat) :=
  set_clauses ← collect (fun jk => column ← validate_column (snd jk) known;
                                   Ok (column +:+ " = " +:+ placeholder (fst jk + 1)))
                  (enumerate data_keys);
  let base_param := length data_keys + 1 in
  clauses ← numbered_clauses known base_param filters;
  Ok ("UPDATE " +:+ table +:+ " SET " +:+ join ", " set_clauses +:+ where_sql clauses, base_param).

Definition build_delete (table : string) (filters : list (FilterClause Value))
    (known : option (gset string)) : result MarretaError (string * nat) :=
  clauses ← numbered_clauses known 1 filters;
  Ok ("DELETE FROM " +:+ table +:+ where_sql clauses, 1).

Definition filters_from_equality_map (pairs : list (string * Value)) : list (FilterClause Value) :=
  map (fun kv => mkFilterClause (fst kv) FEq (snd kv)) pairs.

End Build.

(** * Facts *)

(** The characters a validated identifier is made of. *)
Definition identifier_byte (c : N) : bool :=
  is_ascii_alphanumeric c || (c =? ch "_")%N || (c =? 34)%N || (c =? ch ".")%N.

Definition only (p : N -> bool) (s : string) : bool := forallb p (bytes s).

Lemma only_app p s t : only p (s +:+ t) = only p s && only p t.
Proof. unfold only. by rewrite bytes_app, forallb_app. Qed.

Lemma only_join p sep l : only p sep = true -> Forall (fun w => only p w = true) l -> only p (join sep l) = true.
Proof.
  intros Hsep. induction 1 as [|w l Hw Hl IH]; [done |].
  destruct l as [|w2 l]; [done |].
  change (join sep (w :: w2 :: l)) with (w +:+ sep +:+ join sep (w2 :: l)).
  by rewrite !only_app, Hw, Hsep, IH.
Qed.

Lemma only_mono (p q : N -> bool) s :
  (forall c, p c = true -> q c = true) -> only p s = true -> only q s = true.
Proof. unfold only. rewrite !forallb_forall. intros Hpq H c Hc. auto. Qed.

Lemma identifier_char_ascii c :
  is_ascii_alphanumeric c || (c =? ch "_")%N = true -> (c < 128)%N.
Proof.
  unfold is_ascii_alphanumeric, is_ascii_alphabetic, is_ascii_lowercase, is_ascii_uppercase,
    is_ascii_digit, between.
  rewrite !orb_true_iff, !andb_true_iff, !N.leb_le, N.eqb_eq.
  change (ch "a") with 97%N. change (ch "z") with 122%N. change (ch "A") with 65%N.
  change (ch "Z") with 90%N. change (ch "0") with 48%N. change (ch "9") with 57%N.
  change (ch "_") with 95%N. lia.
Qed.

Lemma segment_ok_bytes seg :
  valid_str seg -> segment_ok seg = true -> only identifier_byte seg = true /\ seg <> EmptyString.
Proof.
  intros Hv Hseg. unfold segment_ok in Hseg.
  assert (Hall : forallb (fun c => is_ascii_alphanumeric c || (c =? ch "_")%N) (chars seg) = true).
  { destruct (chars seg) as [|c rest]; [done |].
    apply andb_true_iff in Hseg as [Hc Hrest]. cbn [forallb]. rewrite Hrest, andb_true_r.
    unfold is_ascii_alphanumeric. apply orb_true_iff in Hc as [-> | ->]; [done | by rewrite orb_true_r]. }
  split.
  - unfold only.
    rewrite <- (valid_ascii_bytes _ seg identifier_char_ascii Hv Hall).
    rewrite forallb_forall in *. intros c Hc. unfold identifier_byte. by rewrite (Hall c Hc).
  - by intros ->.
Qed.

(** What a quoted identifier looks like. *)
Definition quoted_identifier (s : string) : Prop :=
  exists segments, (length segments = 1 \/ length segments = 2) /\
    Forall (fun seg => segment_ok seg = true /\ only identifier_byte seg = true) segments /\
    s = join "." (map quote_segment segments).

Lemma quote_identifier_Ok raw s :
  valid_str raw -> quote_identifier raw = Ok s -> quoted_identifier s.
Proof.
  intros Hv. unfold quote_identifier.
  destruct (_ && _) eqn:Hshape; [| done]. intros [= <-].
  apply andb_true_iff in Hshape as [Hlen Hall].
  exists (split_on "." (trim raw)). split_and!; [| | done].
  - apply orb_true_iff in Hlen as [H%Nat.eqb_eq | H%Nat.eqb_eq]; auto.
  - apply Forall_forall. intros seg Hseg. rewrite forallb_forall in Hall.
    assert (segment_ok seg = true) as Hok by (by apply Hall, list_elem_of_In).
    split; [done |]. apply segment_ok_bytes; [| done].
    eapply valid_split; [| by apply valid_trim | exact Hseg]. done.
Qed.

Lemma quoted_identifier_bytes s : quoted_identifier s -> only identifier_byte s = true.
Proof.
  intros (segments & _ & Hall & ->). apply only_join; [done |].
  apply Forall_forall. intros w (seg & -> & Hseg)%list_elem_of_fmap.
  rewrite Forall_forall in Hall. destruct (Hall seg Hseg) as [_ Hbytes].
  unfold quote_segment. by rewrite !only_app, Hbytes.
Qed.

Lemma validate_column_Ok raw known s :
  valid_str raw -> validate_column raw known = Ok s -> quoted_identifier s.
Proof.
  unfold validate_column. intros Hv (q & Hq & Hs)%bind_Ok.
  apply quote_identifier_Ok in Hq; [| done].
  destruct known; [| by injection Hs as <-]. case_in Hs; [done | by injection Hs as <-].
Qed.

(** The characters of an ORDER BY clause: identifiers, separators, keywords. *)
Definition order_byte (c : N) : bool := identifier_byte c || (c =? ch ",")%N || (c =? ch " ")%N.

Lemma uppercase_letters dir :
  to_ascii_uppercase dir = "ASC" \/ to_ascii_uppercase dir = "DESC" ->
  only is_ascii_alphabetic dir = true.
Proof.
  assert (Hup : forall s t, to_ascii_uppercase s = t -> only is_ascii_uppercase t = true ->
    only is_ascii_alphabetic s = true).
  { induction s as [|a s IH]; [done |]. intros t <-. unfold only in *. cbn [to_ascii_uppercase map_bytes bytes forallb].
    fold (to_ascii_uppercase s). intros [Ha Hs]%andb_true_iff.
    rewrite (IH _ eq_refl Hs). rewrite andb_true_r. clear -Ha.
    pose proof (ch_bounded a). unfold to_ascii_uppercase_char in Ha.
    unfold is_ascii_alphabetic. destruct (is_ascii_lowercase (ch a)); [done |].
    rewrite byte_ch in Ha. done. }
  intros [H | H]; (eapply Hup; [exact H | done]).
Qed.

(** The ORDER BY text that is concatenated into SQL contains, whatever the
    requested order, only letters, digits, underscores, dots, quotes, commas
    and spaces; so no request can close the clause or start a comment. *)
Theorem build_order_by_safe order known s :
  valid_str order -> build_order_by order known = Ok s -> only order_byte s = true.
Proof.
  intros Hv. unfold build_order_by. intros (rendered & Hr & Hs)%bind_Ok.
  assert (Hall : Forall (fun w => only order_byte w = true) rendered).
  { apply collect_Ok in Hr. apply Forall_forall. intros w Hw.
    apply list_elem_of_lookup in Hw as [i Hi].
    eapply Forall2_lookup_r in Hr as (part & Hpart & Hw); [| exact Hi].
    apply list_elem_of_lookup_2 in Hpart.
    assert (Hvp : valid_str part) by (eapply valid_split; [| exact Hv | exact Hpart]; done).
    assert (Hcol : forall col q, col ∈ split_whitespace part -> validate_column col known = Ok q ->
      only order_byte q = true).
    { intros col q Hcol Hq. apply validate_column_Ok in Hq;
        [| by eapply valid_split_whitespace].
      apply quoted_identifier_bytes in Hq. revert Hq. apply only_mono.
      intros c Hc. unfold order_byte. by rewrite Hc. }
    unfold order_part in Hw. destruct (split_whitespace part) as [|col [|dir [|]]]; try done.
    - apply (Hcol col); [by left | done].
    - destruct (_ || _) eqn:Hdir; [| done]. apply bind_Ok in Hw as (q & Hq & [= <-]).
      rewrite !only_app, (Hcol col q) by (done || by left). cbn.
      eapply only_mono; [| apply uppercase_letters].
      + intros c Hc. unfold order_byte, identifier_byte, is_ascii_alphanumeric. by rewrite Hc.
      + apply orb_true_iff in Hdir as [H%String.eqb_eq | H%String.eqb_eq]; auto. }
  assert (Heq : s = join ", " rendered) by (by destruct rendered; simplify_eq/=).
  rewrite Heq. by apply only_join.
Qed.

Lemma build_order_by_safe_witness :
  valid_str "users.name desc, id" /\
  build_order_by "users.name desc, id" None
    = Ok (dquote +:+ "users" +:+ dquote +:+ "." +:+ dquote +:+ "name" +:+ dquote +:+ " desc, "
          +:+ dquote +:+ "id" +:+ dquote) /\
  only order_byte (dquote +:+ "users" +:+ dquote +:+ "." +:+ dquote +:+ "name" +:+ dquote +:+ " desc, "
          +:+ dquote +:+ "id" +:+ dquote) = true.
Proof.
  assert (Hv : valid_str "users.name desc, id") by (apply valid_ascii; reflexivity).
  split; [exact Hv |].
  assert (H : build_order_by "users.name desc, id" None
    = Ok (dquote +:+ "users" +:+ dquote +:+ "." +:+ dquote +:+ "name" +:+ dquote +:+ " desc, "
          +:+ dquote +:+ "id" +:+ dquote)) by (vm_compute; reflexivity).
  split; [exact H | exact (build_order_by_safe _ None _ Hv H)].
Defined.

(** An accepted column is one or two segments of letters, digits and
    underscores, each in double quotes; with a known schema an unqualified
    column is one of its columns.  Everything else is refused. *)
Theorem validate_column_spec raw known :
  valid_str raw ->
  match validate_column raw known with
  | Ok s => quoted_identifier s /\ only identifier_byte s = true /\
      (forall cols, known = Some cols -> str_has "." (trim raw) = false -> trim raw ∈ cols)
  | Err (DbIdentifierError code _) =>
      code = CInvalidIdentifier \/ (code = CUnknownColumn /\ is_Some known)
  | Err _ => False
  end.
Proof.
  intros Hv. destruct (validate_column raw known) as [s|e] eqn:H.
  - apply validate_column_Ok in H as Hq; [| done]. split_and!; [done | by apply quoted_identifier_bytes |].
    intros cols -> Hdot. unfold validate_column in H. apply bind_Ok in H as (q & _ & H).
    rewrite Hdot in H. cbn in H. case_bool_decide; done.
  - unfold validate_column, quote_identifier in H.
    destruct (_ && forallb segment_ok _); cbn in H; [| injection H as <-; by left].
    destruct known as [cols|]; [| done]. destruct (_ && _); [| done]. injection H as <-.
    right. split; [done | by eexists].
Qed.

Lemma validate_column_spec_witness :
  valid_str "id; DROP TABLE users" /\
  exists code m, validate_column "id; DROP TABLE users" None = Err (DbIdentifierError code m)
    /\ code = CInvalidIdentifier.
Proof.
  assert (Hv : valid_str "id; DROP TABLE users") by (apply valid_ascii; reflexivity).
  split; [exact Hv |]. pose proof (validate_column_spec _ None Hv) as H.
  eexists _, _. split; [vm_compute; reflexivity |].
  vm_compute in H. destruct H as [H | [H _]]; [reflexivity | discriminate H].
Defined.

(** ** Parameters *)

Section Params.
Context `{E : Ext}.

(** The values one filter binds. *)
Definition clause_params (f : FilterClause Value) : list Value :=
  match fc_op f, fc_value f with
  | FIn, VList items => items
  | _, v => [v]
  end.

(** The text of a filter whose first parameter has number [n]. *)
Definition clause_text (column : string) (f : FilterClause Value) (n : nat) : string :=
  match fc_op f with
  | FIn => column +:+ " IN (" +:+ join ", " (map placeholder (seq n (length (clause_params f)))) +:+ ")"
  | op => column +:+ " " +:+ to_sql op +:+ " " +:+ placeholder n
  end.

Lemma placeholders_enumerate {A} n i (items : list A) :
  map (fun iv => placeholder (n + fst iv)) (enumerate_from i items)
  = map placeholder (seq (n + i) (length items)).
Proof.
  revert i. induction items as [|x items IH]; intros i; cbn; [done |].
  rewrite IH. by rewrite Nat.add_succ_r.
Qed.

Lemma where_clause_Ok known f params text params' :
  where_clause known f params = Ok (text, params') <->
  exists column, validate_column (fc_column f) known = Ok column /\
    text = clause_text column f (length params + 1) /\ params' = params ++ clause_params f.
Proof.
  unfold where_clause, clause_text, clause_params. rewrite bind_Ok.
  apply exist_proper; intros column. split.
  - intros [Hc H]. split; [done |].
    case_bool_decide as Hop; [rewrite Hop | destruct (fc_op f); try done; by injection H as <- <-].
    destruct (fc_value f); injection H as <- <-; try done.
    rewrite placeholders_enumerate. by rewrite (Nat.add_0_r (length params + 1)).
  - intros (Hc & -> & ->). split; [done |].
    case_bool_decide as Hop; [rewrite Hop | by destruct (fc_op f)].
    destruct (fc_value f); try done.
    rewrite placeholders_enumerate. by rewrite (Nat.add_0_r (length params + 1)).
Qed.

(** The clauses of a list of filters, numbered from [n]. *)
Fixpoint clause_texts (known : option (gset string)) (filters : list (FilterClause Value)) (n : nat)
  : result MarretaError (list string) :=
  match filters with
  | [] => Ok []
  | f :: filters =>
      column ← validate_column (fc_column f) known;
      rest ← clause_texts known filters (n + length (clause_params f));
      Ok (clause_text column f n :: rest)
  end.

Lemma where_clauses_Ok known filters params texts params' :
  where_clauses known filters params = Ok (texts, params') <->
  clause_texts known filters (length params + 1) = Ok texts /\
  params' = params ++ concat (map clause_params filters).
Proof.
  revert params texts params'. induction filters as [|f filters IH]; intros params texts params';
    cbn [where_clauses clause_texts map concat].
  - rewrite app_nil_r. split; [intros [= <- <-]; done | intros [[= <-] ->]; done].
  - rewrite !bind_Ok. split.
    + intros ([text params1] & (column & Hc & -> & ->)%where_clause_Ok & Hrest).
      apply bind_Ok in Hrest as ([rest params2] & (Hr & ->)%IH & [= <- <-]). cbn [fst snd] in *.
      split; [| by rewrite app_assoc]. exists column. split; [done |].
      apply bind_Ok. exists rest. split; [| done].
      rewrite length_app in Hr. by replace (length params + 1 + length (clause_params f))
        with (length params + length (clause_params f) + 1) by lia.
    + intros [(column & Hc & Hrest) ->]. apply bind_Ok in Hrest as (rest & Hr & [= <-]).
      exists (clause_text column f (length params + 1), params ++ clause_params f).
      split; [apply where_clause_Ok; by exists column |].
      apply bind_Ok. exists (rest, (params ++ clause_params f) ++ concat (map clause_params filters)).
      cbn [fst snd]. split; [apply IH; split; [| done] | by rewrite app_assoc].
      rewrite length_app. by replace (length params + length (clause_params f) + 1)
        with (length params + 1 + length (clause_params f)) by lia.
Qed.

(** Replaces the values of a query, keeping the lengths of lists. *)
Definition same_shape (f g : FilterClause Value) : Prop :=
  fc_column f = fc_column g /\ fc_op f = fc_op g /\
  length (clause_params f) = length (clause_params g).

Lemma clause_texts_shape known fs gs n :
  Forall2 same_shape fs gs -> clause_texts known fs n = clause_texts known gs n.
Proof.
  intros H. revert n. induction H as [|f g fs gs (Hc & Hop & Hlen) _ IH]; intros n; cbn; [done |].
  rewrite Hc. destruct (validate_column (fc_column g) known); cbn; [| done].
  rewrite Hlen, IH. destruct (clause_texts known gs _); cbn; [| done].
  do 2 f_equal. unfold clause_text. by rewrite Hop, Hlen.
Qed.

Lemma where_clauses_shape known fs gs params :
  Forall2 same_shape fs gs ->
  match where_clauses known fs params, where_clauses known gs params with
  | Ok (ts, ps), Ok (us, qs) => ts = us
      /\ ps = params ++ concat (map clause_params fs) /\ qs = params ++ concat (map clause_params gs)
  | Err _, Err _ => True
  | _, _ => False
  end.
Proof.
  intros Hshape. pose proof (clause_texts_shape known fs gs (length params + 1) Hshape) as Heq.
  destruct (where_clauses known fs params) as [[ts ps]|e] eqn:Hf,
    (where_clauses known gs params) as [[us qs]|e'] eqn:Hg; try done.
  - apply where_clauses_Ok in Hf as [Hf ->], Hg as [Hg ->]. split_and!; [congruence | done..].
  - apply where_clauses_Ok in Hf as [Hf ->]. rewrite Heq in Hf.
    assert (Hg' : where_clauses known gs params = Ok (ts, params ++ concat (map clause_params gs)))
      by (by apply where_clauses_Ok). congruence.
  - apply where_clauses_Ok in Hg as [Hg ->]. rewrite <- Heq in Hg.
    assert (Hf' : where_clauses known fs params = Ok (us, params ++ concat (map clause_params fs)))
      by (by apply where_clauses_Ok). congruence.
Qed.

Definition with_filters (q : QueryState Value) (fs : list (FilterClause Value)) : QueryState Value :=
  mkQueryState (q_table q) fs (q_joins q) (q_select_cols q) (q_order_by q) (q_limit q) (q_offset q)
    (q_count q) (q_known_columns q).

(** *** What a WHERE clause has to look like *)

Definition operator_text (op : FilterOp) : string :=
  match op with
  | FEq => "=" | FNe => "!=" | FGt => ">" | FLt => "<" | FGte => ">=" | FLte => "<="
  | FLike => "LIKE" | FIn => "IN"
  end.

(** A comparison: the column, the operator, and the numbers of its placeholders. *)
Record comparison_sql : Type := mkComparison {
  cq_column : string;
  cq_operator : FilterOp;
  cq_numbers : list nat;
}.

Definition comparison_text (c : comparison_sql) : string :=
  let marks := join ", " (map (fun k => "$" +:+ show_nat k) (cq_numbers c)) in
  cq_column c +:+ " " +:+ operator_text (cq_operator c) +:+ " "
  +:+ match cq_operator c with FIn => "(" +:+ marks +:+ ")" | _ => marks end.

Definition where_text (cs : list comparison_sql) : string :=
  match cs with
  | [] => EmptyString
  | _ => " WHERE " +:+ join " AND " (map comparison_text cs)
  end.

(** [c] is the comparison of the filter [f]: its column, validated and quoted,
    its operator, and one placeholder for each of its values. *)
Definition compares (known : option (gset string)) (f : FilterClause Value) (c : comparison_sql) : Prop :=
  validate_column (fc_column f) known = Ok (cq_column c) /\ cq_operator c = fc_op f /\
  length (cq_numbers c) = length (clause_params f).

Lemma clause_text_comparison column f n :
  clause_text column f n
  = comparison_text (mkComparison column (fc_op f) (seq n (length (clause_params f)))).
Proof.
  unfold clause_text, comparison_text, clause_params. cbn [cq_column cq_operator cq_numbers].
  by destruct (fc_op f).
Qed.

Lemma clause_texts_comparisons known fs n ts :
  clause_texts known fs n = Ok ts ->
  exists cs, Forall2 (compares known) fs cs /\ ts = map comparison_text cs /\
    concat (map cq_numbers cs) = seq n (length (concat (map clause_params fs))).
Proof.
  revert n ts. induction fs as [|f fs IH]; intros n ts; cbn [clause_texts].
  - intros [= <-]. by exists [].
  - intros (column & Hc & (rest & (cs & Hcs & -> & Hn)%IH & [= <-])%bind_Ok)%bind_Ok.
    exists (mkComparison column (fc_op f) (seq n (length (clause_params f))) :: cs).
    split_and!.
    + constructor; [| done]. split_and!; [done | done | apply length_seq].
    + cbn [map]. by rewrite clause_text_comparison.
    + cbn [map concat cq_numbers]. by rewrite Hn, length_app, seq_app.
Qed.

Lemma where_sql_text cs : where_sql (map comparison_text cs) = where_text cs.
Proof. by destruct cs. Qed.

(** The query without its filters, its order and its bounds. *)
Definition bare (q : QueryState Value) : QueryState Value :=
  mkQueryState (q_table q) [] (q_joins q) (q_select_cols q) None None None
    (q_count q) (q_known_columns q).

(** The statement is that of the query without its filters, with the WHERE
    clause after the tables and before the order. *)
Lemma build_select_Ok q sql params :
  build_select q = Ok (sql, params) ->
  params = concat (map clause_params (q_filters q)) /\
  exists cs before after,
    Forall2 (compares (q_known_columns q)) (q_filters q) cs /\
    concat (map cq_numbers cs) = seq 1 (length params) /\
    sql = before +:+ where_text cs +:+ after /\
    build_select (bare q) = Ok (before, []) /\
    build_select (with_filters q []) = Ok (before +:+ after, []).
Proof.
  unfold build_select. cbn [bare with_filters q_known_columns q_filters q_table q_joins q_order_by q_limit q_offset].
  change (select_list (with_filters q [])) with (select_list q).
  change (select_list (bare q)) with (select_list q).
  intros (select & -> & ([ts ps] & (Hts & ->)%where_clauses_Ok & H)%bind_Ok)%bind_Ok.
  apply bind_Ok in H as (order & Ho & [= <- <-]).
  split; [done |]. apply clause_texts_comparisons in Hts as (cs & Hcs & -> & Hn).
  eexists cs, _, (order +:+ match q_limit q with Some n => " LIMIT " +:+ show_Z n | None => EmptyString end
                 +:+ match q_offset q with Some n => " OFFSET " +:+ show_Z n | None => EmptyString end).
  split_and!; [done | done | | |].
  - cbn [fst]. rewrite where_sql_text, <- !append_assoc. reflexivity.
  - cbn [where_clauses mbind result_bind fst snd where_sql]. cbn. by rewrite !append_nil_r, !append_assoc.
  - cbn [where_clauses mbind result_bind fst snd where_sql]. rewrite Ho. cbn.
    by rewrite append_nil_r, <- !append_assoc.
Qed.

Lemma build_select_shape q fs :
  Forall2 same_shape (q_filters q) fs ->
  match build_select q, build_select (with_filters q fs) with
  | Ok (sql, params), Ok (sql', params') => sql = sql' /\ params' = concat (map clause_params fs)
  | Err _, Err _ => True
  | _, _ => False
  end.
Proof.
  intros Hshape. unfold build_select. cbn [with_filters q_known_columns q_filters q_table q_joins
    q_order_by q_limit q_offset].
  change (select_list (with_filters q fs)) with (select_list q).
  destruct (select_list q) as [select|]; cbn; [| done].
  pose proof (where_clauses_shape (q_known_columns q) _ _ [] Hshape) as H.
  destruct (where_clauses _ (q_filters q) []) as [[ts ps]|], (where_clauses _ fs []) as [[us qs]|];
    cbn in *; try done.
  destruct H as (<- & -> & ->). by destruct (match q_order_by q with Some _ => _ | None => _ end).
Qed.

End Params.

(** C26: the values of a query reach the database as parameters only, and every
    placeholder of a SELECT is numbered after its parameter.  When the query is
    accepted, its text is that of the query without filters with a WHERE clause
    added after the tables and joins: one comparison for each filter in order, with the column validated
    and quoted, the operator, and one placeholder for each value of the filter
    (a list of an IN has one for each element); read from left to right the
    placeholders are [$1], [$2], ..., [$n], and the parameters are the [n]
    values of the filters in the same order.  The text does not depend on the
    values: other values in the same places (lists of an IN of the same length)
    give the same text, and are accepted or refused alike. *)
Theorem build_select_parameters `{E : Ext} q fs :
  Forall2 same_shape (q_filters q) fs ->
  match build_select q, build_select (with_filters q fs) with
  | Ok (sql, params), Ok (sql', params') =>
      sql = sql' /\ params = concat (map clause_params (q_filters q)) /\
      params' = concat (map clause_params fs) /\
      exists cs before after,
        Forall2 (compares (q_known_columns q)) (q_filters q) cs /\
        concat (map cq_numbers cs) = seq 1 (length params) /\
        sql = before +:+ where_text cs +:+ after /\
        build_select (bare q) = Ok (before, []) /\
        build_select (with_filters q []) = Ok (before +:+ after, [])
  | Err _, Err _ => True
  | _, _ => False
  end.
Proof.
  intros Hshape. pose proof (build_select_shape q fs Hshape) as H.
  destruct (build_select q) as [[sql params]|] eqn:Hq, (build_select (with_filters q fs)) as [[sql' params']|];
    try done.
  destruct H as [<- ->]. apply build_select_Ok in Hq as [-> Hok]. done.
Qed.

Lemma build_select_parameters_witness :
  let f v := mkFilterClause "name" FEq (@VString demo_ext v) in
  let q v := mkQueryState "users" [f v] [] [] None None None false None in
  Forall2 same_shape [f "Ana"] [f "' OR 1=1 --"] /\
  match build_select (q "Ana"), build_select (q "' OR 1=1 --") with
  | Ok (sql, params), Ok (sql', params') => sql = sql' /\ length params' = 1
  | _, _ => False
  end.
Proof.
  intros f q. assert (H : Forall2 same_shape [f "Ana"] [f "' OR 1=1 --"]) by (repeat constructor).
  split; [exact H |].
  pose proof (@build_select_parameters demo_ext (q "Ana") [f "' OR 1=1 --"] H) as Hb.
  assert (Hok : is_ok (build_select (q "Ana")) = true) by (vm_compute; reflexivity).
  change (with_filters (q "Ana") [f "' OR 1=1 --"]) with (q "' OR 1=1 --") in Hb.
  destruct (build_select (q "Ana")) as [[sql params]|]; [| discriminate Hok].
  destruct (build_select (q "' OR 1=1 --")) as [[sql' params']|]; [| exact Hb].
  destruct Hb as (H1 & _ & H3 & _). split; [exact H1 | rewrite H3; reflexivity].
Defined.

(** The placeholders of an UPDATE are numbered like its parameters: the
    assignments [$1 .. $k] in the order of the keys, then the filters from
    [$(k+1)]. *)
Theorem build_update_numbering `{E : Ext} table keys filters known sql base :
  build_update table keys filters known = Ok (sql, base) ->
  base = length keys + 1 /\
  exists set_cols where_cols,
    Forall2 (fun k c => validate_column k known = Ok c) keys set_cols /\
    Forall2 (fun f c => validate_column (fc_column f) known = Ok c) filters where_cols /\
    sql = "UPDATE " +:+ table +:+ " SET "
      +:+ join ", " (map (fun ic => snd ic +:+ " = " +:+ placeholder (fst ic + 1)) (enumerate set_cols))
      +:+ where_sql (map (fun ifc => snd (snd ifc) +:+ " " +:+ to_sql (fc_op (fst (snd ifc))) +:+ " "
                                     +:+ placeholder (length keys + 1 + fst ifc))
                       (enumerate (zip filters where_cols))).
Proof.
  assert (Hgen : forall {A} (name : A -> string) (render : nat -> A -> string -> string) i (l : list A) ts,
    collect (fun ja => column ← validate_column (name (snd ja)) known;
                       Ok (render (fst ja) (snd ja) column)) (enumerate_from i l) = Ok ts ->
    exists cols, Forall2 (fun a c => validate_column (name a) known = Ok c) l cols /\
      ts = map (fun iac => render (fst iac) (fst (snd iac)) (snd (snd iac))) (enumerate_from i (zip l cols))).
  { intros A name render i l. revert i. induction l as [|a l IH]; intros i ts; cbn.
    - intros [= <-]. by exists [].
    - destruct (validate_column (name a) known) as [c|] eqn:Hc; cbn; [| done].
      destruct (collect _ _) as [rest|] eqn:Hr; [| done]. intros [= <-].
      apply IH in Hr as (cols & Hcols & ->). exists (c :: cols). split; [by constructor | done]. }
  unfold build_update. intros (set_clauses & Hset & H)%bind_Ok.
  cbv zeta in H. apply bind_Ok in H as (clauses & Hwhere & [= <- <-]).
  split; [done |]. unfold numbered_clauses in Hwhere.
  apply (Hgen string (fun k => k) (fun i _ c => c +:+ " = " +:+ placeholder (i + 1))) in Hset
    as (set_cols & Hs & ->).
  apply (Hgen (FilterClause Value) fc_column (fun i f c => c +:+ " " +:+ to_sql (fc_op f) +:+ " "
    +:+ placeholder (length keys + 1 + i))) in Hwhere as (where_cols & Hw & ->).
  exists set_cols, where_cols. split_and!; [done | done |].
  assert (Hmap : forall (g : nat -> string -> string) i ks cols,
    Forall2 (fun k c => validate_column k known = Ok c) ks cols ->
    map (fun iac => g (fst iac) (snd (snd iac))) (enumerate_from i (zip ks cols))
    = map (fun ic => g (fst ic) (snd ic)) (enumerate_from i cols)).
  { intros g i ks cols H. revert i. induction H as [|k c ks' cols' _ _ IH]; intros i; cbn; [done |].
    by rewrite IH. }
  by rewrite (Hmap (fun n c => c +:+ " = " +:+ placeholder (n + 1)) 0 keys set_cols Hs).
Qed.

Lemma build_update_numbering_witness :
  exists sql base,
    build_update "users" ["name"] [mkFilterClause "id" FEq (@VInteger demo_ext 7)] None = Ok (sql, base)
    /\ base = 2.
Proof.
  destruct (build_update "users" ["name"] [mkFilterClause "id" FEq (@VInteger demo_ext 7)] None)
    as [[sql base]|] eqn:H.
  - exists sql, base. split; [reflexivity |].
    exact (proj1 (@build_update_numbering demo_ext _ _ _ _ _ _ H)).
  - exfalso. assert (Hok : is_ok (build_update "users" ["name"]
      [mkFilterClause "id" FEq (@VInteger demo_ext 7)] None) = true) by (vm_compute; reflexivity).
    rewrite H in Hok. discriminate Hok.
Defined.

(** An UPDATE or DELETE filtered by a list renders [IN $1], without the
    parentheses and the expansion of a SELECT. *)
Theorem build_delete_in_not_expanded :
  build_delete "users" [mkFilterClause "id" FIn (@VList demo_ext [VInteger 1; VInteger 2])] None
  = Ok ("DELETE FROM users WHERE " +:+ dquote +:+ "id" +:+ dquote +:+ " IN $1", 1).
Proof. vm_compute. reflexivity. Qed.
