(* ===== verification/TraceContext.v ===== *)
(** W3C trace context propagation (src/src/trace_context.rs).  Random bytes
    come from the operating system: a drawing function of the model is given
    the list of blocks it draws, and returns [None] while none of them is
    usable (the loop of the source keeps drawing). *)
From stdpp Require Import base list strings sets.
From Stdlib Require Import ZArith Lia.
From S2P Require Import Prelude RustStr.

Definition TRACEPARENT_VERSION : string := "00".
Definition DEFAULT_TRACE_FLAGS : string := "00".
Definition MAX_TRACESTATE_ENTRIES : nat := 32.
Definition MAX_TRACESTATE_LEN : nat := 512.

Record TraceContext : Type := mkTraceContext {
  trace_id : string;
  span_id : string;
  trace_flags : string;
  tracestate : option string;
}.

(** * Hexadecimal *)

Definition hex_digit (n : N) : N := if (n <? 10)%N then (ch "0" + n)%N else (ch "a" + (n - 10))%N.

Fixpoint hex_lower (bs : list N) : string :=
  match bs with
  | [] => EmptyString
  | b :: bs => String (byte (hex_digit (b / 16))) (String (byte (hex_digit (b mod 16))) (hex_lower bs))
  end.

(** The first drawn block with a byte that is not zero. *)
Fixpoint random_hex_nonzero (draws : list (list N)) : option string :=
  match draws with
  | [] => None
  | bs :: draws => if existsb (fun b => negb (b =? 0)%N) bs then Some (hex_lower bs)
                   else random_hex_nonzero draws
  end.

Definition lower_hex_byte (b : N) : bool := is_ascii_digit b || between (ch "a") (ch "f") b.

Definition is_lower_hex (value : string) (expected_len : nat) : bool :=
  (String.length value =? expected_len) && forallb lower_hex_byte (bytes value).

Definition is_all_zero (value : string) : bool := forallb (fun b => b =? ch "0")%N (bytes value).

(** * traceparent *)

Record ParsedTraceparent : Type := mkParsedTraceparent {
  pt_trace_id : string;
  pt_trace_flags : string;
}.

Definition parse_traceparent (value : string) : option ParsedTraceparent :=
  match split_on "-" value with
  | [version; tid; parent_id; flags] =>
      if negb (String.eqb version TRACEPARENT_VERSION) then None
      else if negb (is_lower_hex tid 32) || is_all_zero tid then None
      else if negb (is_lower_hex parent_id 16) || is_all_zero parent_id then None
      else if negb (is_lower_hex flags 2) then None
      else Some (mkParsedTraceparent tid flags)
  | _ => None
  end.

(** * tracestate *)

Definition key_tail_byte (b : N) : bool :=
  is_ascii_lowercase b || is_ascii_digit b || (b =? ch "_")%N || (b =? ch "-")%N
  || (b =? ch "*")%N || (b =? ch "/")%N.

Definition is_valid_tracestate_key_part (part : string) (max_len : nat) (allow_digit_first : bool) : bool :=
  if String.eqb part EmptyString || (max_len <? String.length part) then false
  else match bytes part with
       | [] => false
       | first :: rest =>
           (is_ascii_lowercase first || (allow_digit_first && is_ascii_digit first))
           && forallb key_tail_byte rest
       end.

Definition is_valid_tracestate_key (key : string) : bool :=
  if String.eqb key EmptyString then false
  else match split_once "@" key with
       | Some (tenant_id, system_id) =>
           negb (str_has "@" system_id)
           && is_valid_tracestate_key_part tenant_id 241 true
           && is_valid_tracestate_key_part system_id 14 false
       | None => is_valid_tracestate_key_part key 256 true
       end.

Definition is_valid_tracestate_value_byte (b : N) : bool :=
  between 32 43 b || between 45 60 b || between 62 126 b.

Definition value_last_byte (b : N) : bool := between 33 43 b || between 45 60 b || between 62 126 b.

Definition is_valid_tracestate_value (value : string) : bool :=
  negb (String.eqb value EmptyString) && (String.length value <=? 256)
  && forallb is_valid_tracestate_value_byte (bytes value)
  && match last (bytes value) with Some b => value_last_byte b | None => false end.

Definition is_valid_tracestate_entry (entry : string) : bool :=
  match split_once "=" entry with
  | Some (key, value) => is_valid_tracestate_key key && is_valid_tracestate_value value
  | None => false
  end.

(** The condition of the loop that drops entries from the end. *)
Definition too_large (entries : list string) : bool :=
  (MAX_TRACESTATE_ENTRIES <? length entries)
  || (MAX_TRACESTATE_LEN <? String.length (join "," entries)).

(** [while .. { entries.pop(); }], on the reversed list. *)
Fixpoint pop_while_too_large (reversed : list string) : list string :=
  match reversed with
  | [] => []
  | _ :: rest => if too_large (rev reversed) then pop_while_too_large rest else reversed
  end.

Definition tracestate_entries (value : string) : list string :=
  List.filter (fun e => negb (String.eqb e EmptyString) && is_valid_tracestate_entry e)
    (map trim (split_on "," value)).

Definition sanitize_tracestate (value : option string) : option string :=
  match value with
  | None => None
  | Some value =>
      if String.eqb value EmptyString || existsb is_ascii_control (bytes value) then None
      else match rev (pop_while_too_large (rev (tracestate_entries value))) with
           | [] => None
           | entries => Some (join "," entries)
           end
  end.

(** * Contexts *)

Definition root (trace_draws span_draws : list (list N)) : option TraceContext :=
  tid ← random_hex_nonzero trace_draws;
  sid ← random_hex_nonzero span_draws;
  Some (mkTraceContext tid sid DEFAULT_TRACE_FLAGS None).

Definition from_headers (traceparent tracestate : option string)
    (trace_draws span_draws : list (list N)) : option TraceContext :=
  match traceparent ≫= parse_traceparent with
  | None => root trace_draws span_draws
  | Some parsed =>
      sid ← random_hex_nonzero span_draws;
      Some (mkTraceContext (pt_trace_id parsed) sid (pt_trace_flags parsed)
              (sanitize_tracestate tracestate))
  end.

Definition traceparent (c : TraceContext) : string :=
  TRACEPARENT_VERSION +:+ "-" +:+ trace_id c +:+ "-" +:+ span_id c +:+ "-" +:+ trace_flags c.

Definition outbound_child (c : TraceContext) (span_draws : list (list N)) : option TraceContext :=
  sid ← random_hex_nonzero span_draws;
  Some (mkTraceContext (trace_id c) sid (trace_flags c) (tracestate c)).

(** * Facts *)

(** ** The W3C specification

    What a context has to look like, written from the W3C recommendation and
    without the functions of the source. *)

Definition hex_digits (n : nat) (s : string) : Prop :=
  String.length s = n /\ Forall (fun b => b ∈ bytes "0123456789abcdef") (bytes s).

Definition nonzero_id (n : nat) (s : string) : Prop :=
  hex_digits n s /\ ~ Forall (fun b => b = ch "0") (bytes s).

Definition w3c_lower : list N := bytes "abcdefghijklmnopqrstuvwxyz".
Definition w3c_digits : list N := bytes "0123456789".

(** A key or a part of it: at most [n] characters, the first one of [heads]. *)
Definition w3c_key_part (n : nat) (heads : list N) (s : string) : Prop :=
  String.length s <= n /\
  exists c rest, bytes s = c :: rest /\ c ∈ heads /\
    Forall (fun b => b ∈ w3c_lower ++ w3c_digits ++ bytes "_-*/") rest.

Definition w3c_key (key : string) : Prop :=
  w3c_key_part 256 (w3c_lower ++ w3c_digits) key \/
  exists tenant system, key = tenant +:+ "@" +:+ system /\
    w3c_key_part 241 (w3c_lower ++ w3c_digits) tenant /\ w3c_key_part 14 w3c_lower system.

(** Printable characters other than the comma and the equals sign, no space at
    the end. *)
Definition w3c_value (value : string) : Prop :=
  String.length value <= 256 /\
  Forall (fun b => (32 <= b <= 126)%N /\ b <> ch "," /\ b <> ch "=") (bytes value) /\
  exists pre b, bytes value = pre ++ [b] /\ b <> ch " ".

Definition w3c_member (e : string) : Prop :=
  exists key value, e = key +:+ "=" +:+ value /\ w3c_key key /\ w3c_value value.

(** A state: between one and 32 members, at most 512 characters. *)
Definition w3c_state (s : string) : Prop :=
  exists members, s = join "," members /\ 1 <= length members <= 32 /\
    String.length s <= 512 /\ Forall w3c_member members.

(** A context as the specification wants it. *)
Record wf_context (c : TraceContext) : Prop := {
  wc_trace : nonzero_id 32 (trace_id c);
  wc_span : nonzero_id 16 (span_id c);
  wc_flags : hex_digits 2 (trace_flags c);
  wc_state : forall s, tracestate c = Some s -> w3c_state s;
}.

(** Blocks of [n] bytes. *)
Definition blocks (n : nat) (draws : list (list N)) : Prop :=
  Forall (fun bs => length bs = n /\ forallb (fun b => b <? 256)%N bs = true) draws.

Section Hex.
#[local] Ltac Zify.zify_post_hook ::= Z.to_euclidean_division_equations.

Lemma hex_digit_lower n : (n < 16)%N ->
    lower_hex_byte (ch (byte (hex_digit n))) = true /\
    ((ch (byte (hex_digit n)) =? ch "0")%N = true -> n = 0%N).
Proof.
    intros Hn. unfold hex_digit, lower_hex_byte, is_ascii_digit, between.
    change (ch "0") with 48%N. change (ch "9") with 57%N. change (ch "a") with 97%N. change (ch "f") with 102%N.
    rewrite N.eqb_eq, orb_true_iff, !andb_true_iff, !N.leb_le.
    destruct (N.ltb_spec n 10); rewrite ch_byte by lia; split; lia.
Qed.

Lemma hex_lower_spec bs :
    forallb (fun b => b <? 256)%N bs = true ->
    String.length (hex_lower bs) = 2 * length bs /\
    forallb lower_hex_byte (bytes (hex_lower bs)) = true /\
    (is_all_zero (hex_lower bs) = true -> existsb (fun b => negb (b =? 0)%N) bs = false).
Proof.
    induction bs as [|b bs IH]; [done |]. cbn [forallb]. intros [Hb Hbs]%andb_true_iff.
    destruct (IH Hbs) as (Hlen & Hhex & Hz). apply N.ltb_lt in Hb.
    destruct (hex_digit_lower (b / 16)) as [H1 Z1]; [lia |].
    destruct (hex_digit_lower (b mod 16)) as [H2 Z2]; [lia |].
    cbn [hex_lower String.length bytes forallb length]. rewrite H1, H2, Hhex. split_and!; [lia | done |].
    unfold is_all_zero in *. cbn [bytes hex_lower forallb]. rewrite !andb_true_iff.
    intros (E1 & E2 & E3). cbn [existsb]. rewrite (Hz E3), orb_false_r. apply negb_false_iff, N.eqb_eq.
    specialize (Z1 E1). specialize (Z2 E2). lia.
Qed.
End Hex.

Lemma random_hex_spec n draws s :
  blocks n draws -> random_hex_nonzero draws = Some s ->
  is_lower_hex s (2 * n) = true /\ is_all_zero s = false.
Proof.
  induction draws as [|bs draws IH]; cbn; [done |]. intros [[Hlen Hb] Hrest]%Forall_cons.
  destruct (existsb _ bs) eqn:Hnz; [| auto]. intros [= <-].
  destruct (hex_lower_spec bs Hb) as (Hl & Hh & Hz). split.
  - unfold is_lower_hex. rewrite Hl, Hlen, Nat.eqb_refl. done.
  - apply not_true_is_false. intros Hall. apply Hz in Hall. congruence.
Qed.

(** ** Splitting *)

Lemma str_has_bytes a s : str_has a s = existsb (fun b => b =? ch a)%N (bytes s).
Proof.
  induction s as [|b s IH]; cbn; [done |]. rewrite IH. f_equal.
  destruct (Ascii.eqb_spec a b) as [->|Hne].
  - by rewrite N.eqb_refl.
  - symmetry. apply N.eqb_neq. intros Heq. apply Hne, ch_inj. congruence.
Qed.

Lemma str_has_forall (p : N -> bool) a s :
  forallb p (bytes s) = true -> p (ch a) = false -> str_has a s = false.
Proof.
  intros Hs Ha. rewrite str_has_bytes. apply not_true_is_false.
  intros (b & Hb & ->%N.eqb_eq)%existsb_exists. rewrite forallb_forall in Hs.
  rewrite (Hs _ Hb) in Ha. done.
Qed.

Lemma lower_hex_no_dash s n : is_lower_hex s n = true -> str_has "-" s = false.
Proof.
  unfold is_lower_hex. intros [_ H]%andb_true_iff. by eapply str_has_forall.
Qed.

Lemma split_traceparent a b c d :
  str_has "-" a = false -> str_has "-" b = false -> str_has "-" c = false -> str_has "-" d = false ->
  split_on "-" (a +:+ "-" +:+ b +:+ "-" +:+ c +:+ "-" +:+ d) = [a; b; c; d].
Proof.
  intros Ha Hb Hc Hd. apply (split_join "-" [a; b; c; d]); [done |].
  intros w Hw. repeat (apply elem_of_cons in Hw as [-> | Hw]; [done |]). by inversion Hw.
Qed.

(** A property of bytes below [n] is checked by trying them all. *)
Lemma byte_enum (p : N -> bool) n :
  forallb p (map N.of_nat (seq 0 n)) = true -> forall b, (b < N.of_nat n)%N -> p b = true.
Proof.
  rewrite forallb_forall. intros H b Hb. apply H. apply in_map_iff. exists (N.to_nat b).
  split; [lia |]. apply in_seq. lia.
Qed.

(** Two tests on a byte agree when they agree below 128 and neither holds above. *)
Lemma byte_class_forall (p : N -> bool) (l : list N) :
  forallb (fun b => Bool.eqb (p b) (bool_decide (b ∈ l))) (map N.of_nat (seq 0 128)) = true ->
  forallb (fun b => b <? 128)%N l = true ->
  (forall b, p b = true -> (b < 128)%N) ->
  forall b, p b = true <-> b ∈ l.
Proof.
  intros He Hl Hp b. destruct (N.lt_ge_cases b 128) as [Hb | Hb].
  - pose proof (byte_enum _ _ He b Hb) as Heq. apply Bool.eqb_prop in Heq. rewrite Heq.
    apply bool_decide_eq_true.
  - split; intros H; [apply Hp in H; lia |].
    rewrite forallb_forall in Hl. apply list_elem_of_In, Hl, N.ltb_lt in H. lia.
Qed.

Ltac byte_class_tac :=
  apply byte_class_forall; [vm_compute; reflexivity.. |]; intros b;
  rewrite ?orb_true_iff, ?andb_true_iff, ?N.leb_le, ?N.eqb_eq;
  change (ch "a") with 97%N; change (ch "z") with 122%N; change (ch "f") with 102%N;
  change (ch "0") with 48%N; change (ch "9") with 57%N;
  change (ch "_") with 95%N; change (ch "-") with 45%N; change (ch "*") with 42%N;
  change (ch "/") with 47%N; lia.

Lemma lower_hex_class b : lower_hex_byte b = true <-> b ∈ bytes "0123456789abcdef".
Proof. revert b. unfold lower_hex_byte, is_ascii_digit, between. byte_class_tac. Qed.

Lemma lowercase_class b : is_ascii_lowercase b = true <-> b ∈ w3c_lower.
Proof. revert b. unfold is_ascii_lowercase, between. byte_class_tac. Qed.

Lemma alnum_class b :
  is_ascii_lowercase b || is_ascii_digit b = true <-> b ∈ w3c_lower ++ w3c_digits.
Proof.
  revert b. apply (byte_class_forall (fun b => is_ascii_lowercase b || is_ascii_digit b));
    [vm_compute; reflexivity.. |].
  intros b. unfold is_ascii_lowercase, is_ascii_digit, between.
  rewrite orb_true_iff, !andb_true_iff, !N.leb_le.
  change (ch "z") with 122%N. change (ch "9") with 57%N. lia.
Qed.

Lemma key_tail_class b : key_tail_byte b = true <-> b ∈ w3c_lower ++ w3c_digits ++ bytes "_-*/".
Proof.
  revert b. unfold key_tail_byte, is_ascii_lowercase, is_ascii_digit, between. byte_class_tac.
Qed.

Lemma forallb_Forall_class (p : N -> bool) (P : N -> Prop) l :
  (forall b, p b = true <-> P b) -> forallb p l = true <-> Forall P l.
Proof.
  intros H. rewrite forallb_forall, Forall_forall.
  split; intros Hl b Hb; apply H, Hl; by apply list_elem_of_In.
Qed.

Lemma lower_hex_iff s n : is_lower_hex s n = true <-> hex_digits n s.
Proof.
  unfold is_lower_hex, hex_digits. rewrite andb_true_iff, Nat.eqb_eq.
  by rewrite (forallb_Forall_class _ _ _ lower_hex_class).
Qed.

Lemma all_zero_iff s : is_all_zero s = false <-> ~ Forall (fun b => b = ch "0") (bytes s).
Proof.
  unfold is_all_zero. rewrite <- not_true_iff_false.
  by rewrite (forallb_Forall_class _ (fun b => b = ch "0")) by (intros b; apply N.eqb_eq).
Qed.

Lemma nonzero_id_iff s n :
  is_lower_hex s n = true /\ is_all_zero s = false <-> nonzero_id n s.
Proof. unfold nonzero_id. by rewrite lower_hex_iff, all_zero_iff. Qed.

Lemma parse_traceparent_of c : wf_context c ->
  parse_traceparent (traceparent c) = Some (mkParsedTraceparent (trace_id c) (trace_flags c)).
Proof.
  intros [[Ht Htz]%nonzero_id_iff [Hs Hsz]%nonzero_id_iff Hf%lower_hex_iff _]. unfold parse_traceparent, traceparent.
  rewrite split_traceparent by (done || by eapply lower_hex_no_dash).
  by rewrite String.eqb_refl, Ht, Htz, Hs, Hsz, Hf.
Qed.

(** ** tracestate entries *)

Definition entry_byte (b : N) : bool := between 32 43 b || between 45 126 b.

Lemma key_tail_entry b : key_tail_byte b = true -> entry_byte b = true.
Proof.
  unfold key_tail_byte, entry_byte, is_ascii_lowercase, is_ascii_digit, between.
  rewrite !orb_true_iff, !andb_true_iff, !N.leb_le, !N.eqb_eq.
  change (ch "a") with 97%N. change (ch "z") with 122%N. change (ch "0") with 48%N. change (ch "9") with 57%N.
  change (ch "_") with 95%N. change (ch "-") with 45%N. change (ch "*") with 42%N. change (ch "/") with 47%N.
  lia.
Qed.

Lemma value_byte_entry b : is_valid_tracestate_value_byte b = true -> entry_byte b = true.
Proof.
  unfold is_valid_tracestate_value_byte, entry_byte, between.
  rewrite !orb_true_iff, !andb_true_iff, !N.leb_le. lia.
Qed.

(** A key part: printable characters, the first one not a space. *)
Lemma key_part_bytes part n b :
  is_valid_tracestate_key_part part n b = true ->
  exists c rest, bytes part = c :: rest /\ key_tail_byte c = true /\ forallb entry_byte (c :: rest) = true.
Proof.
  unfold is_valid_tracestate_key_part. destruct (_ || _); [done |].
  destruct (bytes part) as [|c rest]; [done |]. intros [Hc Hrest]%andb_true_iff.
  assert (key_tail_byte c = true) as Hk.
  { unfold key_tail_byte. apply orb_true_iff in Hc as [-> | [_ ->]%andb_true_iff]; [done |].
    by rewrite orb_true_r. }
  exists c, rest. split_and!; [done.. |]. cbn [forallb]. rewrite (key_tail_entry c Hk). cbn.
  rewrite forallb_forall in *. intros d Hd. by apply key_tail_entry, Hrest.
Qed.

(** A valid entry is printable ASCII without commas and has no blank at
    either end. *)
Lemma valid_entry_bytes e :
  is_valid_tracestate_entry e = true ->
  forallb entry_byte (bytes e) = true /\
  exists c1 r1 c2 r2, bytes e = c1 :: r1 /\ bytes e = r2 ++ [c2]
    /\ is_whitespace c1 = false /\ is_whitespace c2 = false.
Proof.
  unfold is_valid_tracestate_entry. destruct (split_once "=" e) as [[key value]|] eqn:He; [| done].
  apply split_once_Some in He as [-> _]. intros [Hk Hv]%andb_true_iff.
  assert (Hkey : exists c rest, bytes key = c :: rest /\ key_tail_byte c = true
    /\ forallb entry_byte (bytes key) = true).
  { unfold is_valid_tracestate_key in Hk. destruct (String.eqb key EmptyString); [done |].
    destruct (split_once "@" key) as [[t s]|] eqn:Hat.
    - apply split_once_Some in Hat as [-> _]. apply andb_true_iff in Hk as [[_ Ht]%andb_true_iff Hs].
      apply key_part_bytes in Ht as (c & rest & Hb & Hc & Hall), Hs as (d & rest' & Hb' & _ & Hall').
      rewrite bytes_app. cbn [bytes]. rewrite Hb, Hb', <- Hb, <- Hb'.
      exists c, (rest ++ ch "@" :: bytes s). rewrite Hb. split_and!; [done | done |].
      cbn [app]. rewrite app_comm_cons, forallb_app, Hall. cbn [forallb andb].
      rewrite Hb'. by rewrite Hall'.
    - apply key_part_bytes in Hk as (c & rest & Hb & Hc & Hall). exists c, rest.
      rewrite Hb. by split_and!. }
  destruct Hkey as (c & rest & Hkb & Hc & Hkall).
  unfold is_valid_tracestate_value in Hv.
  apply andb_true_iff in Hv as [[_ Hvall]%andb_true_iff Hlast].
  destruct (last (bytes value)) as [d|] eqn:Hd; [| done].
  assert (exists pre, bytes value = pre ++ [d]) as [pre Hpre].
  { apply last_Some in Hd as [pre ->]. by exists pre. }
  rewrite bytes_app. cbn [bytes]. split.
  - rewrite forallb_app, Hkall. cbn [forallb]. change (entry_byte (ch "=")) with true. cbn [andb].
    rewrite forallb_forall in *. intros b Hb. by apply value_byte_entry, Hvall.
  - exists c, (rest ++ ch "=" :: bytes value), d, (bytes key ++ ch "=" :: pre).
    rewrite Hkb, Hpre. split_and!; [done | by rewrite <- app_assoc | |].
    + apply not_true_is_false. intros Hw. unfold key_tail_byte, is_whitespace, is_ascii_lowercase,
        is_ascii_digit, between in *. revert Hc Hw.
      rewrite !orb_true_iff, !andb_true_iff, !N.leb_le, !N.eqb_eq.
      change (ch "a") with 97%N. change (ch "z") with 122%N. change (ch "0") with 48%N.
      change (ch "9") with 57%N. change (ch "_") with 95%N. change (ch "-") with 45%N.
      change (ch "*") with 42%N. change (ch "/") with 47%N. lia.
    + apply not_true_is_false. intros Hw. unfold value_last_byte, is_whitespace, between in *.
      revert Hlast Hw. rewrite !orb_true_iff, !andb_true_iff, !N.leb_le, !N.eqb_eq. lia.
Qed.

(** *** The members of the specification are the entries that are kept *)

Lemma key_part_iff part n digit :
  is_valid_tracestate_key_part part n digit = true
  <-> w3c_key_part n (if digit then w3c_lower ++ w3c_digits else w3c_lower) part.
Proof.
  unfold is_valid_tracestate_key_part, w3c_key_part.
  destruct part as [|a part]; cbn [String.eqb orb bytes].
  { split; [done |]. intros (_ & c & rest & Hb & _). discriminate Hb. }
  assert (Hhead : forall c, is_ascii_lowercase c || digit && is_ascii_digit c = true
                       <-> c ∈ (if digit then w3c_lower ++ w3c_digits else w3c_lower)).
  { intros c. destruct digit; cbn [andb]; [apply alnum_class |]. rewrite orb_false_r. apply lowercase_class. }
  destruct (Nat.ltb_spec n (String.length (String a part))).
  { split; [done |]. intros [? _]. lia. }
  rewrite andb_true_iff, Hhead, (forallb_Forall_class _ _ _ key_tail_class). split.
  - intros [Hc Hr]. split; [lia |]. by exists (ch a), (bytes part).
  - intros (_ & c & rest & [= <- <-] & Hc & Hr). done.
Qed.

Lemma key_part_no n heads part a :
  w3c_key_part n heads part -> (forall c, c ∈ heads -> key_tail_byte c = true) ->
  key_tail_byte (ch a) = false -> str_has a part = false.
Proof.
  intros (_ & c & rest & Hb & Hc & Hr) Hh Ha. apply (str_has_forall key_tail_byte); [| done].
  rewrite Hb. cbn [forallb]. rewrite (Hh c Hc). cbn [andb].
  by apply (forallb_Forall_class _ _ _ key_tail_class).
Qed.

Lemma alnum_tail c : c ∈ w3c_lower ++ w3c_digits -> key_tail_byte c = true.
Proof. intros H. apply key_tail_class. rewrite app_assoc. apply elem_of_app. by left. Qed.

Lemma lower_tail c : c ∈ w3c_lower -> key_tail_byte c = true.
Proof. intros H. apply key_tail_class. apply elem_of_app. by left. Qed.

Lemma key_iff key : is_valid_tracestate_key key = true <-> w3c_key key.
Proof.
  unfold is_valid_tracestate_key, w3c_key. split.
  - destruct (String.eqb key EmptyString); [done |].
    destruct (split_once "@" key) as [[t s]|] eqn:Hat.
    + apply split_once_Some in Hat as [-> _].
      intros [[_ Ht%key_part_iff]%andb_true_iff Hs%key_part_iff]%andb_true_iff.
      right. by exists t, s.
    + intros H%key_part_iff. by left.
  - intros [H | (t & s & -> & Ht & Hs)].
    + assert (str_has "@" key = false) as Hno by (by apply (key_part_no _ _ _ _ H alnum_tail)).
      destruct (String.eqb_spec key EmptyString) as [->|].
      { destruct H as (_ & c & rest & Hb & _). discriminate Hb. }
      destruct (split_once "@" key) as [[t s]|] eqn:Hat; [| by apply key_part_iff].
      apply split_once_Some in Hat as [-> _].
      rewrite str_has_app in Hno. apply orb_false_iff in Hno as [_ Hno]. discriminate Hno.
    + assert (str_has "@" t = false) as Hno by (by apply (key_part_no _ _ _ _ Ht alnum_tail)).
      assert (str_has "@" s = false) as Hno' by (by apply (key_part_no _ _ _ _ Hs lower_tail)).
      destruct (String.eqb_spec (t +:+ "@" +:+ s) EmptyString) as [He|]; [by destruct t |].
      change ("@" +:+ s) with (String "@" s). rewrite split_once_app, Hno' by done.
      cbn [negb andb]. apply andb_true_iff. by rewrite !key_part_iff.
Qed.

Lemma value_byte_class b :
  is_valid_tracestate_value_byte b = true <-> (32 <= b <= 126)%N /\ b <> ch "," /\ b <> ch "=".
Proof.
  unfold is_valid_tracestate_value_byte, between.
  rewrite !orb_true_iff, !andb_true_iff, !N.leb_le.
  change (ch ",") with 44%N. change (ch "=") with 61%N. lia.
Qed.

Lemma value_last_class b :
  value_last_byte b = true <-> is_valid_tracestate_value_byte b = true /\ b <> ch " ".
Proof.
  unfold value_last_byte, is_valid_tracestate_value_byte, between.
  rewrite !orb_true_iff, !andb_true_iff, !N.leb_le. change (ch " ") with 32%N. lia.
Qed.

Lemma value_iff value : is_valid_tracestate_value value = true <-> w3c_value value.
Proof.
  unfold is_valid_tracestate_value, w3c_value.
  rewrite !andb_true_iff, Nat.leb_le, (forallb_Forall_class _ _ _ value_byte_class). split.
  - intros [[[_ Hlen] Hall] Hlast]. split_and!; [done | done |].
    destruct (last (bytes value)) as [b|] eqn:Hb; [| done].
    apply last_Some in Hb as [pre Hb]. exists pre, b. by apply value_last_class in Hlast as [_ ?].
  - intros (Hlen & Hall & pre & b & Hb & Hsp). split_and!; [| done | done |].
    + apply negb_true_iff, String.eqb_neq. intros ->. by destruct pre.
    + rewrite Hb, last_snoc. apply value_last_class. split; [| done]. apply value_byte_class.
      rewrite Hb in Hall. apply Forall_app in Hall as [_ Hall]. exact (Forall_inv Hall).
Qed.

Lemma member_iff e : is_valid_tracestate_entry e = true <-> w3c_member e.
Proof.
  unfold is_valid_tracestate_entry, w3c_member. split.
  - destruct (split_once "=" e) as [[key value]|] eqn:He; [| done].
    apply split_once_Some in He as [-> _]. intros [Hk%key_iff Hv%value_iff]%andb_true_iff.
    by exists key, value.
  - intros (key & value & -> & Hk & Hv).
    assert (str_has "=" key = false) as Hno.
    { destruct Hk as [H | (t & s & -> & Ht & Hs)]; [by apply (key_part_no _ _ _ _ H alnum_tail) |].
      rewrite !str_has_app. assert (str_has "=" t = false) as -> by (by apply (key_part_no _ _ _ _ Ht alnum_tail)).
      by assert (str_has "=" s = false) as -> by (by apply (key_part_no _ _ _ _ Hs lower_tail)). }
    change ("=" +:+ value) with (String "=" value). rewrite split_once_app by done.
    apply andb_true_iff. by rewrite key_iff, value_iff.
Qed.

Lemma entry_bytes_ascii s : forallb entry_byte (bytes s) = true -> is_ascii s = true.
Proof.
  unfold is_ascii. rewrite !forallb_forall. intros H b Hb. specialize (H b Hb).
  unfold entry_byte, between in H. rewrite orb_true_iff, !andb_true_iff, !N.leb_le in H.
  apply N.ltb_lt. lia.
Qed.

Lemma trim_valid_entry e : is_valid_tracestate_entry e = true -> trim e = e.
Proof.
  intros He. destruct (valid_entry_bytes e He) as (Hb%entry_bytes_ascii & c1 & r1 & c2 & r2 & H1 & H2 & W1 & W2).
  unfold trim. rewrite chars_ascii by done.
  assert (trim_chars (bytes e) = bytes e) as ->; [| by apply of_chars_bytes].
  unfold trim_chars. rewrite H1 at 1. cbn [drop_while]. rewrite W1, <- H1, H2, rev_app_distr.
  cbn [rev app drop_while]. rewrite W2. cbn [rev]. by rewrite rev_involutive.
Qed.

Lemma pop_prefix l : exists dropped, l = dropped ++ pop_while_too_large l.
Proof.
  induction l as [|x l [d IH]]; [by exists [] |]. cbn [pop_while_too_large]. destruct (too_large (rev (x :: l))) eqn:H.
  - exists (x :: d). by rewrite IH at 1.
  - by exists [].
Qed.

Lemma pop_fits l : too_large (rev (pop_while_too_large l)) = false.
Proof.
  induction l as [|x l IH]; [done |]. cbn [pop_while_too_large].
  destruct (too_large (rev (x :: l))) eqn:H; done.
Qed.

Lemma pop_fixed l : too_large (rev l) = false -> pop_while_too_large l = l.
Proof. destruct l as [|x l]; [done |]. cbn [pop_while_too_large]. by intros ->. Qed.

(** The entries that survive: valid, and within the limits. *)
Lemma sanitize_Some value s :
  sanitize_tracestate value = Some s ->
  exists entries, s = join "," entries /\ entries <> [] /\ too_large entries = false /\
    Forall (fun e => is_valid_tracestate_entry e = true) entries.
Proof.
  destruct value as [value|]; [| done]. cbn [sanitize_tracestate].
  destruct (_ || _); [done |].
  intros H. exists (rev (pop_while_too_large (rev (tracestate_entries value)))).
  destruct (rev (pop_while_too_large (rev (tracestate_entries value)))) as [|x l] eqn:Hl; [done |].
  assert (Hs : s = join "," (x :: l)) by (by injection H as <-).
  split_and!; [done | done | rewrite <- Hl; apply pop_fits |]. rewrite <- Hl.
  apply Forall_forall. intros e He. rewrite elem_of_rev in He.
  destruct (pop_prefix (rev (tracestate_entries value))) as [d Hd].
  assert (e ∈ rev (tracestate_entries value)) as Hin by (rewrite Hd; apply elem_of_app; by right).
  rewrite elem_of_rev in Hin. unfold tracestate_entries in Hin.
  apply list_elem_of_In, filter_In in Hin as [_ Hv]. by apply andb_true_iff in Hv as [_ Hv].
Qed.

Lemma bytes_join sep l b : b ∈ bytes (join sep l) -> b ∈ bytes sep \/ exists e, e ∈ l /\ b ∈ bytes e.
Proof.
  induction l as [|e l IH]; [intros H; by inversion H |].
  destruct l as [|e2 l]; [intros H; right; exists e; split; [by left | done] |].
  change (join sep (e :: e2 :: l)) with (e +:+ sep +:+ join sep (e2 :: l)).
  rewrite !bytes_app, !elem_of_app. intros [H | [H | H]]; [right; exists e; split; [by left | done] | by left |].
  destruct (IH H) as [? | (e' & He' & ?)]; [by left | right; exists e'; split; [by right | done]].
Qed.

Lemma sanitize_joined entries :
  entries <> [] -> too_large entries = false ->
  Forall (fun e => is_valid_tracestate_entry e = true) entries ->
  sanitize_tracestate (Some (join "," entries)) = Some (join "," entries).
Proof.
  intros Hne Hfit Hval. rewrite Forall_forall in Hval. cbn [sanitize_tracestate].
  assert (Hbytes : forall e, e ∈ entries -> forallb entry_byte (bytes e) = true)
    by (intros e He; by apply valid_entry_bytes, Hval).
  assert (Hctl : existsb is_ascii_control (bytes (join "," entries)) = false).
  { apply not_true_is_false. intros (b & Hb & Hc)%existsb_exists. apply list_elem_of_In in Hb.
    apply bytes_join in Hb as [Hb | (e & He & Hb)].
    - apply list_elem_of_singleton in Hb as ->. done.
    - specialize (Hbytes e He). rewrite forallb_forall in Hbytes.
      apply list_elem_of_In, Hbytes in Hb. clear -Hb Hc.
      unfold entry_byte, is_ascii_control, between in *.
      rewrite orb_true_iff, ?andb_true_iff, ?N.leb_le in Hb.
      rewrite orb_true_iff, N.ltb_lt, N.eqb_eq in Hc. lia. }
  assert (Hsplit : split_on "," (join "," entries) = entries).
  { apply split_join; [done |]. intros e He. apply (str_has_forall entry_byte); [by apply Hbytes | done]. }
  assert (Hempty : String.eqb (join "," entries) EmptyString = false).
  { apply String.eqb_neq. intros Heq. rewrite Heq in Hsplit. cbn in Hsplit.
    assert (is_valid_tracestate_entry EmptyString = true) as Hv; [| discriminate Hv].
    apply Hval. rewrite <- Hsplit. by left. }
  rewrite Hempty, Hctl. cbn [orb].
  assert (tracestate_entries (join "," entries) = entries) as ->.
  { unfold tracestate_entries. rewrite Hsplit.
    assert (map trim entries = entries) as ->.
    { clear -Hval. induction entries as [|e l IH]; [done |]. cbn.
      rewrite trim_valid_entry by (apply Hval; by left). f_equal. apply IH. intros x Hx. apply Hval. by right. }
    clear -Hval. induction entries as [|e l IH]; [done |]. cbn.
    assert (He : is_valid_tracestate_entry e = true) by (apply Hval; by left).
    rewrite He. destruct (String.eqb_spec e EmptyString) as [->|]; [discriminate He |]. cbn.
    f_equal. apply IH. intros x Hx. apply Hval. by right. }
  rewrite pop_fixed, rev_involutive by (by rewrite rev_involutive).
  by destruct entries.
Qed.

(** What is forwarded as [tracestate] is a state of the specification. *)
Lemma sanitize_state value s : sanitize_tracestate value = Some s -> w3c_state s.
Proof.
  intros (entries & -> & Hne & Hfit & Hval)%sanitize_Some.
  unfold too_large in Hfit. apply orb_false_iff in Hfit as [H1%Nat.ltb_ge H2%Nat.ltb_ge].
  unfold MAX_TRACESTATE_ENTRIES, MAX_TRACESTATE_LEN in *.
  exists entries. split_and!; [done | destruct entries; [done | cbn in *; lia] | done | done |].
  eapply Forall_impl; [exact Hval |]. intros e. apply member_iff.
Qed.

(** A state of the specification is forwarded unchanged. *)
Lemma sanitize_keeps s : w3c_state s -> sanitize_tracestate (Some s) = Some s.
Proof.
  intros (entries & -> & [H1 H32] & H512 & Hval). apply sanitize_joined.
  - destruct entries; [cbn in H1; lia | done].
  - unfold too_large, MAX_TRACESTATE_ENTRIES, MAX_TRACESTATE_LEN.
    apply orb_false_iff. split; apply Nat.ltb_ge; lia.
  - eapply Forall_impl; [exact Hval |]. intros e. apply member_iff.
Qed.

(** Whatever the headers of a request, the context built from them is a
    well-formed one, and so is every child of it. *)
Theorem from_headers_wf tp ts trace_draws span_draws c :
  blocks 16 trace_draws -> blocks 8 span_draws ->
  from_headers tp ts trace_draws span_draws = Some c ->
  wf_context c /\
  (forall draws child, blocks 8 draws -> outbound_child c draws = Some child -> wf_context child).
Proof.
  intros Ht Hs H.
  assert (Hwf : wf_context c).
  { unfold from_headers in H.
    destruct (tp ≫= parse_traceparent) as [parsed|] eqn:Hp.
    - apply bind_Some in H as (sid & Hsid & [= <-]).
      apply bind_Some in Hp as (value & _ & Hp). unfold parse_traceparent in Hp.
      destruct (split_on "-" value) as [|v [|tid [|pid [|flags [|]]]]]; try done.
      destruct (negb (String.eqb v _)); [done |].
      destruct (negb (is_lower_hex tid 32) || is_all_zero tid) eqn:H1; [done |].
      destruct (negb (is_lower_hex pid 16) || is_all_zero pid); [done |].
      destruct (negb (is_lower_hex flags 2)) eqn:H2; [done |]. injection Hp as <-.
      apply orb_false_iff in H1 as [H1%negb_false_iff H1z]. apply negb_false_iff, lower_hex_iff in H2.
      constructor; cbn; [by apply nonzero_id_iff | by apply nonzero_id_iff, (random_hex_spec 8 span_draws) | done |].
      intros s Hss. by eapply sanitize_state.
    - apply bind_Some in H as (tid & Htid & H). apply bind_Some in H as (sid & Hsid & [= <-]).
      constructor; cbn; [by apply nonzero_id_iff, (random_hex_spec 16 trace_draws)
        | by apply nonzero_id_iff, (random_hex_spec 8 span_draws) | by apply lower_hex_iff | done]. }
  split; [done |]. intros draws child Hd (sid & Hsid & [= <-])%bind_Some.
  destruct Hwf. constructor; cbn; [done | by apply nonzero_id_iff, (random_hex_spec 8 draws) | done | done].
Qed.

(** The loop that draws skips the blocks of zeros and takes the next one. *)
Lemma random_hex_skips zeros block rest :
  Forall (Forall (fun b => b = 0%N)) zeros -> ~ Forall (fun b => b = 0%N) block ->
  random_hex_nonzero (zeros ++ block :: rest) = Some (hex_lower block).
Proof.
  assert (Hnz : forall bs, existsb (fun b => negb (b =? 0)%N) bs = false <-> Forall (fun b => b = 0%N) bs).
  { intros bs. induction bs as [|b bs IH]; [by split; [constructor |] |]. cbn [existsb].
    rewrite orb_false_iff, negb_false_iff, N.eqb_eq, IH. by rewrite Forall_cons. }
  induction zeros as [|z zeros IH]; cbn.
  - intros _ Hb. destruct (existsb _ block) eqn:He; [done |]. by apply Hnz in He.
  - intros [Hz%Hnz Hzs]%Forall_cons Hb. rewrite Hz. auto.
Qed.

(** C35: a trace crosses a hop.  The context that sends the headers is
    well-formed as the W3C recommendation has it: hexadecimal ids that are not
    zero, and a state of at most 32 members and 512 characters, each member a
    valid key and value.  The service that receives the headers continues it
    with the same trace id, the same flags and the same state, under a span id
    of its own: the first random block that is not all zeros, in hexadecimal,
    whatever span id the caller sent.  And whatever headers arrive, sent by
    anyone, the context built from them, and every child of it, is well-formed
    in that sense (random blocks have 16 and 8 bytes). *)
Theorem trace_roundtrip c trace_draws zeros block rest :
  wf_context c ->
  Forall (Forall (fun b => b = 0%N)) zeros -> ~ Forall (fun b => b = 0%N) block ->
  from_headers (Some (traceparent c)) (tracestate c) trace_draws (zeros ++ block :: rest)
    = Some (mkTraceContext (trace_id c) (hex_lower block) (trace_flags c) (tracestate c)) /\
  (forall tp ts trace_draws span_draws c' draws child,
     blocks 16 trace_draws -> blocks 8 span_draws -> blocks 8 draws ->
     from_headers tp ts trace_draws span_draws = Some c' ->
     outbound_child c' draws = Some child -> wf_context c' /\ wf_context child).
Proof.
  intros Hwf Hz Hb. split.
  - unfold from_headers. cbn [option_bind mbind].
    rewrite (parse_traceparent_of c Hwf). cbn [option_bind mbind].
    rewrite random_hex_skips by done. cbn. f_equal. f_equal.
    destruct (tracestate c) as [s|] eqn:Hs; [| done]. by apply sanitize_keeps, (wc_state _ Hwf).
  - intros tp ts td sd c' draws child Ht Hs Hd Hc Hchild.
    destruct (from_headers_wf _ _ _ _ _ Ht Hs Hc) as [Hw Hall]. eauto.
Qed.

Definition demo_context : TraceContext :=
  mkTraceContext "0af7651916cd43dd8448eb211c80319c" "b7ad6b7169203331" "01" (Some "a=1").

Lemma demo_context_wf : wf_context demo_context.
Proof.
  constructor.
  - apply nonzero_id_iff. by vm_compute.
  - apply nonzero_id_iff. by vm_compute.
  - apply lower_hex_iff. by vm_compute.
  - intros s [= <-]. by apply (sanitize_state (Some "a=1")).
Qed.

Lemma from_headers_wf_witness :
  exists c, from_headers None None [repeat 0%N 16; repeat 7%N 16] [repeat 9%N 8] = Some c /\ wf_context c.
Proof.
  eexists. split; [reflexivity |].
  apply (from_headers_wf None None [repeat 0%N 16; repeat 7%N 16] [repeat 9%N 8]);
    [repeat constructor.. | reflexivity].
Defined.

Lemma trace_roundtrip_witness :
  from_headers (Some (traceparent demo_context)) (tracestate demo_context) []
      [repeat 0%N 8; repeat 9%N 8]
    = Some (mkTraceContext "0af7651916cd43dd8448eb211c80319c" "0909090909090909" "01" (Some "a=1")).
Proof.
  apply (trace_roundtrip demo_context [] [repeat 0%N 8] (repeat 9%N 8) []); [exact demo_context_wf | |].
  - by repeat constructor.
  - by intros H%Forall_inv.
Defined.
