(* ===== verification/IndexInference.v ===== *)
(** Inference of document indexes from the queries of a program
    (src/src/doc/index_inference.rs): collecting the shape of each
    [doc.<collection> >> ...] pipeline, the ESR key list of a shape, and the
    plan per collection.  The walk appends to an accumulator; the model
    returns what it appends, in order.  SHA-256 is a parameter. *)
From stdpp Require Import base list strings gmap sets sorting.
From Stdlib Require Import ZArith Lia.
From S2P Require Import Prelude RustStr Ast SchemaCycle TraceContext.

(** An ordered key list: field and direction ([true]: ascending). *)
Definition Keys : Type := list (string * bool).

Record InferredIndex : Type := mkInferredIndex {
  ii_collection : string;
  ii_keys : Keys;
  ii_name : string;
}.

Record Shape : Type := mkShape {
  equality : list string;
  sort_fields : Keys;
  range : list string;
  skip : bool;
}.

Definition Shape_default : Shape := mkShape [] [] [] false.

(** [Vec::dedup]: removes consecutive repetitions. *)
Fixpoint dedup {A} `{EqDecision A} (l : list A) : list A :=
  match l with
  | [] => []
  | x :: l' => match dedup l' with
               | [] => [x]
               | y :: r => if decide (x = y) then y :: r else x :: y :: r
               end
  end.

Definition has_field (keys : Keys) (f : string) : bool :=
  existsb (fun k => String.eqb (fst k) f) keys.

(** Pushes a key unless the field is there already. *)
Definition push_key (keys : Keys) (k : string * bool) : Keys :=
  if has_field keys (fst k) then keys else keys ++ [k].

Definition into_composite (s : Shape) : option Keys :=
  if skip s then None
  else
    let eq_fields := dedup (sort_strings (equality s)) in
    let keys := map (fun f => (f, true)) eq_fields in
    let keys := fold_left push_key (sort_fields s) keys in
    let keys := fold_left (fun keys f => push_key keys (f, true)) (range s) keys in
    match keys with [] => None | _ => Some keys end.

(** * Stages *)

Definition literal_str (e : Expression) : option string :=
  match e with EStringLiteral s => Some s | _ => None end.

Definition with_skip (s : Shape) : Shape := mkShape (equality s) (sort_fields s) (range s) true.
Definition push_equality (s : Shape) (f : string) : Shape :=
  mkShape (equality s ++ [f]) (sort_fields s) (range s) (skip s).
Definition push_sort (s : Shape) (k : string * bool) : Shape :=
  mkShape (equality s) (sort_fields s ++ [k]) (range s) (skip s).
Definition push_range (s : Shape) (f : string) : Shape :=
  mkShape (equality s) (sort_fields s) (range s ++ [f]) (skip s).

(** One argument of [where]. *)
Definition classify_where (shape : Shape) (arg : Argument) : Shape :=
  match arg with
  | Positional (EBinaryOp lhs operator _) =>
      match literal_str lhs with
      | Some field =>
          match operator with
          | OpEqual => push_equality shape field
          | OpGreater | OpLess | OpGreaterEqual | OpLessEqual => push_range shape field
          | _ => shape
          end
      | None => with_skip shape
      end
  | _ => shape
  end.

Definition classify_order (shape : Shape) (arguments : list Argument) : Shape :=
  match arguments with
  | Positional e :: rest =>
      match literal_str e with
      | None => with_skip shape
      | Some field =>
          let asc := match rest with
                     | [] => Some true
                     | Positional d :: _ =>
                         match literal_str d with
                         | Some dir => Some (negb (String.eqb dir "desc"))
                         | None => None
                         end
                     | Named _ _ :: _ => Some true
                     end in
          match asc with
          | Some a => push_sort shape (field, a)
          | None => with_skip shape
          end
      end
  | _ => shape
  end.

Definition classify_in (shape : Shape) (arguments : list Argument) : Shape :=
  match arguments with
  | Positional e :: _ =>
      match literal_str e with
      | Some field => push_range shape field
      | None => with_skip shape
      end
  | _ => shape
  end.

Definition classify_stage (name : string) (arguments : list Argument) (shape : Shape) : Shape :=
  if String.eqb name "where" then fold_left classify_where arguments shape
  else if String.eqb name "order" then classify_order shape arguments
  else if String.eqb name "in" then classify_in shape arguments
  else shape.

Definition classify_pipeline_stage (shape : Shape) (stage : PipelineStage) : Shape :=
  match stage with
  | PSExpression (EFunctionCall name arguments) => classify_stage name arguments shape
  | _ => shape
  end.

Definition doc_collection_of (e : Expression) : option string :=
  match e with
  | EPropertyAccess (EIdentifier name) property =>
      if String.eqb name "doc" then Some property else None
  | EMethodCall (EIdentifier name) method arguments =>
      if String.eqb name "doc" && String.eqb method "query" then
        match arguments with
        | Positional (EStringLiteral col) :: _ => Some col
        | _ => None
        end
      else None
  | _ => None
  end.

(** The index a pipeline asks for. *)
Definition pipeline_index (input : Expression) (stages : list PipelineStage)
  : list (string * Keys) :=
  match doc_collection_of input with
  | Some collection =>
      match into_composite (fold_left classify_pipeline_stage stages Shape_default) with
      | Some keys => [(collection, keys)]
      | None => []
      end
  | None => []
  end.

(** * The walk *)

Definition opt_walk {A} (f : A -> list (string * Keys)) (o : option A) : list (string * Keys) :=
  match o with Some a => f a | None => [] end.

Definition walk_all {A} (f : A -> list (string * Keys)) (l : list A) : list (string * Keys) :=
  concat (map f l).

Fixpoint walk_statement (s : Statement) : list (string * Keys) :=
  match s with
  | SAssignment _ value _ _ | SConditionalAssignment _ value _ _ _ => walk_expression value
  | SExpressionStatement e _ _ => walk_expression e
  | SRequire condition _ _ _ _ | SReject condition _ _ _ _ => walk_expression condition
  | SWhile condition body _ _ => walk_expression condition ++ concat (map walk_statement body)
  | STaskDef _ _ body _ _ => walk_task_body body
  | SRoute _ _ _ allow _ body _ _ =>
      concat (map walk_expression allow) ++ concat (map walk_statement body)
  | SReply status _ body _ _ _ _ => walk_expression status ++ walk_expression body
  | SFail _ message _ _ => walk_expression message
  | SRaise message condition _ _ =>
      walk_expression message
      ++ match condition with Some c => walk_expression c | None => [] end
  | SNack _ condition _ _ => match condition with Some c => walk_expression c | None => [] end
  | SExport inner => walk_statement inner
  | STransaction body _ _ => concat (map walk_statement body)
  | SOnQueue e _ _ body _ _ | SOnTopic e _ _ body _ _ =>
      walk_expression e ++ concat (map walk_statement body)
  | SSchema _ _ _ _ _ | SAuthProvider _ _ _ | SScenario _ _ _ _ => []
  end

with walk_task_body (b : TaskBody) : list (string * Keys) :=
  match b with
  | TInline e => walk_expression e
  | TBlock statements final => concat (map walk_statement statements) ++ walk_expression final
  end

with walk_expression (e : Expression) : list (string * Keys) :=
  match e with
  | EInteger _ | EFloat _ | EStringLiteral _ | EBoolean _ | ENull | EIdentifier _ | ETaskCall _ => []
  | EList items => concat (map walk_expression items)
  | EMapLiteral entries | ESchemaConstructor _ entries =>
      concat (map (fun kv => walk_expression (snd kv)) entries)
  | EBinaryOp l _ r => walk_expression l ++ walk_expression r
  | EUnaryOp _ e => walk_expression e
  | EPropertyAccess e _ => walk_expression e
  | EMethodCall e _ args => walk_expression e ++ concat (map walk_argument args)
  | EHttpClientResponseSchema e _ => walk_expression e
  | EFunctionCall _ args => concat (map walk_argument args)
  | EMatch subject arms => walk_expression subject ++ concat (map walk_arm arms)
  | EIf condition t f =>
      walk_expression condition ++ walk_task_body t
      ++ match f with Some b => walk_task_body b | None => [] end
  | ESubscript object key => walk_expression object ++ walk_expression key
  | EPipeline input stages =>
      pipeline_index input stages ++ walk_expression input ++ concat (map walk_pipeline_stage stages)
  | EBroadcast input targets => walk_expression input ++ concat (map walk_expression targets)
  | ERescue e handler => walk_expression e ++ walk_expression handler
  | EQueuePush e _ payload | ETopicPublish e _ payload =>
      walk_expression e ++ match payload with Some p => walk_expression p | None => [] end
  end

with walk_argument (a : Argument) : list (string * Keys) :=
  match a with Positional e | Named _ e => walk_expression e end

(** The loop body over the arms of a match. *)
with walk_arm (a : MatchArm) : list (string * Keys) :=
  match a with mkMatchArm _ value => walk_expression value end

with walk_pipeline_stage (s : PipelineStage) : list (string * Keys) :=
  match s with
  | PSExpression e => walk_expression e
  | PSMap _ body => concat (map walk_map_statement body)
  | PSReduce initial _ _ body => walk_expression initial ++ walk_task_body body
  | PSRescue handler => walk_handler handler
  end

with walk_map_statement (m : MapStatement) : list (string * Keys) :=
  match m with
  | MStatement s => walk_statement s
  | MKeep value condition =>
      walk_expression value ++ match condition with Some c => walk_expression c | None => [] end
  | MSkip condition => walk_expression condition
  end

with walk_handler (h : RescueHandler) : list (string * Keys) :=
  match h with
  | RHInline e => walk_expression e
  | RHBlock statements => concat (map walk_statement statements)
  end.

(** * The plan *)

(** [Ord] on key lists: lexicographic. *)
Definition key_compare (a b : string * bool) : comparison :=
  match String.compare (fst a) (fst b) with
  | Eq => match snd a, snd b with
          | false, true => Lt
          | true, false => Gt
          | _, _ => Eq
          end
  | c => c
  end.

Fixpoint keys_compare (a b : Keys) : comparison :=
  match a, b with
  | [], [] => Eq
  | [], _ => Lt
  | _, [] => Gt
  | x :: a, y :: b => match key_compare x y with Eq => keys_compare a b | c => c end
  end.

Definition keys_le (a b : Keys) : Prop := keys_compare a b <> Gt.
#[export] Instance keys_le_dec : RelDecision keys_le.
Proof. intros a b. unfold keys_le. apply _. Defined.

Definition starts_with_keys (other s : Keys) : bool := bool_decide (take (length s) other = s).

Definition dedup_by_prefix (shapes : list Keys) : list Keys :=
  let all := dedup (merge_sort keys_le shapes) in
  List.filter (fun s =>
    negb (existsb (fun other => (length s <? length other) && starts_with_keys other s) all)) all.

Section Plan.
Variable sha256 : string -> list N.

Definition column_name (k : string * bool) : string :=
  if snd k then fst k else fst k +:+ "_desc".

Definition index_name (collection : string) (keys : Keys) : string :=
  let cols := map column_name keys in
  let base := "idx_" +:+ collection +:+ "_" +:+ join "_" cols in
  if String.length base <=? 63 then base
  else
    let key := collection +:+ "|" +:+ join "," cols in
    let hash := hex_lower (firstn 8 (sha256 key)) in
    "idx_" +:+ of_chars (firstn 40 (chars collection)) +:+ "_" +:+ hash.

(** [acc.entry(collection).or_default().push(keys)] for each emission. *)
Definition group (emissions : list (string * Keys)) : gmap string (list Keys) :=
  fold_left (fun acc e => <[fst e := default [] (acc !! fst e) ++ [snd e]]> acc) emissions ∅.

(** The collections in the order of the [BTreeMap]. *)
Definition collections (by_collection : gmap string (list Keys)) : list string :=
  sort_strings (map fst (map_to_list by_collection)).

Definition infer_indexes (statements : list Statement) : list InferredIndex :=
  let by_collection := group (walk_all walk_statement statements) in
  concat (map (fun collection =>
    map (fun keys => mkInferredIndex collection keys (index_name collection keys))
      (dedup_by_prefix (default [] (by_collection !! collection))))
    (collections by_collection)).

End Plan.

Definition is_owned_index_name (name : string) : bool :=
  starts_with "idx_" name || starts_with "uniq_" name.
