(* ===== verification/IndexFacts.v ===== *)
(** Theorems on index inference: which queries the walk finds, what the key
    list of a query contains and does not depend on, and that the plan serves
    every query without redundant indexes. *)
From stdpp Require Import base list strings gmap sets sorting.
From Stdlib Require Import ZArith Lia.
From S2P Require Import Prelude RustStr Ast SchemaCycle IndexInference.

(** * The walk *)

Definition node_walk (n : node) : list (string * Keys) :=
  match n with
  | NStatement s => walk_statement s
  | NScenarioStep _ | NMatchPattern _ => []
  | NTaskBody b => walk_task_body b
  | NExpression e => walk_expression e
  | NArgument a => walk_argument a
  | NMatchArm a => walk_arm a
  | NPipelineStage s => walk_pipeline_stage s
  | NRescueHandler h => walk_handler h
  | NMapStatement m => walk_map_statement m
  end.

(** What the walk descends into: the components of a node, except scenarios,
    the condition of a conditional assignment, the extra headers of a reply
    and the patterns of a match. *)
Definition walk_children (n : node) : list node :=
  match n with
  | NStatement (SScenario _ _ _ _) | NStatement (SAuthProvider _ _ _) | NScenarioStep _ => []
  | NStatement (SConditionalAssignment _ value _ _ _) => [NExpression value]
  | NStatement (SReply status _ body _ _ _ _) => [NExpression status; NExpression body]
  | NMatchPattern _ => []
  | _ => children n
  end.

(** The indexes a node asks for itself. *)
Definition own_indexes (n : node) : list (string * Keys) :=
  match n with
  | NExpression (EPipeline input stages) => pipeline_index input stages
  | _ => []
  end.

Inductive walked (m : node) : node -> Prop :=
| walked_here : walked m m
| walked_child n c : c ∈ walk_children n -> walked m c -> walked m n.

Lemma concat_opt_node {A} (f : node -> list (string * Keys)) (g : A -> node) o :
  concat (map f (opt_node g o)) = match o with Some a => f (g a) | None => [] end.
Proof. destruct o; cbn; [by rewrite app_nil_r | done]. Qed.

Lemma node_walk_children n :
  node_walk n = own_indexes n ++ concat (map node_walk (walk_children n)).
Proof.
  destruct n as [s|s|b|e|a|a|p|s|h|m];
    [destruct s | | destruct b | destruct e | destruct a | destruct a
    | destruct p | destruct s | destruct h | destruct m];
    cbn [node_walk own_indexes walk_children children statement_children expression_children
         walk_statement walk_task_body walk_expression walk_argument walk_arm
         walk_pipeline_stage walk_map_statement walk_handler];
    rewrite ?map_app, ?concat_app; cbn [map concat];
    rewrite ?map_app, ?concat_app, ?map_map, ?concat_opt_node; cbn [node_walk map concat];
    rewrite ?app_nil_r, ?app_nil_l; try reflexivity.
Qed.

Lemma node_walk_spec n e :
  e ∈ node_walk n <-> exists m, walked m n /\ e ∈ own_indexes m.
Proof.
  split.
  - assert (Hsub : forall n c, c ∈ walk_children n -> c ∈ children n).
    { intros m c. destruct m as [[]|[]| | | | | | | |]; cbn; set_solver. }
    induction n as [n IH] using tree_ind.
    rewrite node_walk_children, elem_of_app, elem_of_concat_map.
    intros [Hown | (c & Hc & He)]; [exists n; split; [constructor | done] |].
    destruct (IH c) as (m & Hm & Hown); [by apply Hsub | done |].
    exists m. split; [by eapply walked_child | done].
  - intros (m & Hmn & He). induction Hmn as [|n c Hc _ IH];
      rewrite node_walk_children, elem_of_app; [by left | right].
    apply elem_of_concat_map. by exists c.
Qed.

(** The walk asks for an index exactly when a document pipeline with that
    shape is reachable in the statement through the components the walk
    visits; nothing is invented. *)
Theorem walk_statement_iff s collection keys :
  (collection, keys) ∈ walk_statement s <->
  exists input stages, walked (NExpression (EPipeline input stages)) (NStatement s) /\
    doc_collection_of input = Some collection /\
    into_composite (fold_left classify_pipeline_stage stages Shape_default) = Some keys.
Proof.
  rewrite (node_walk_spec (NStatement s)). split.
  - intros (m & Hm & He). destruct m as [| | |e| | | | | |]; cbn in He; try by inversion He.
    destruct e as [| | | | | | | | | | | | | | | | | | | input stages | | | | ]; try by inversion He.
    exists input, stages. split; [done |].
    unfold pipeline_index in He. destruct (doc_collection_of input) as [c|]; [| by inversion He].
    destruct (into_composite _) as [k|]; [| by inversion He].
    apply list_elem_of_singleton in He. by simplify_eq.
  - intros (input & stages & Hw & Hc & Hk). exists (NExpression (EPipeline input stages)).
    split; [done |]. cbn. unfold pipeline_index. rewrite Hc, Hk. by left.
Qed.

(** A query in the condition of a conditional assignment is not walked. *)
Theorem conditional_assignment_condition_not_walked :
  let query := EPipeline (EPropertyAccess (EIdentifier "doc") "orders")
    [PSExpression (EFunctionCall "where"
       [Positional (EBinaryOp (EStringLiteral "status") OpEqual (EStringLiteral "new"))]);
     PSExpression (EFunctionCall "exists" [])] in
  walk_statement (SConditionalAssignment "x" (EInteger 1) query 1 1) = [] /\
  walk_statement (SRequire query 400 "no orders" 1 1) = [("orders", [("status", true)])].
Proof. split; vm_compute; reflexivity. Qed.

(** * The keys of a query *)

Lemma dedup_elem_of {A} `{EqDecision A} (l : list A) x : x ∈ dedup l <-> x ∈ l.
Proof.
  induction l as [|y l IH]; cbn; [done |].
  destruct (dedup l) as [|z r]; [| destruct (decide (y = z)) as [->|]]; rewrite !elem_of_cons;
    rewrite <- IH; rewrite ?elem_of_cons; naive_solver.
Qed.

Lemma dedup_Sorted_NoDup {A} `{EqDecision A} (R : A -> A -> Prop) l :
  Transitive R -> AntiSymm eq R -> StronglySorted R l -> StronglySorted R (dedup l) /\ NoDup (dedup l).
Proof.
  intros HT HA. induction 1 as [|x l Hl [IHs IHn] Hx]; cbn; [split; constructor |].
  destruct (dedup l) as [|y r] eqn:Hd; [split; [repeat constructor | apply NoDup_singleton] |].
  destruct (decide (x = y)) as [->|Hne]; [done |].
  assert (Hall : Forall (R x) (y :: r)).
  { rewrite Forall_forall in *. intros z Hz. apply Hx, dedup_elem_of. by rewrite Hd. }
  split; [by constructor |]. constructor; [| done].
  intros [-> | Hin]%elem_of_cons; [done |].
  apply Hne, (anti_symm R).
  - rewrite Forall_forall in Hall. apply Hall. by left.
  - inversion IHs as [|? ? _ Hy]; subst. rewrite Forall_forall in Hy. by apply Hy.
Qed.

Definition canonical_fields (l : list string) : list string := dedup (sort_strings l).

Lemma canonical_sorted l :
  StronglySorted string_le (canonical_fields l) /\ NoDup (canonical_fields l).
Proof.
  apply dedup_Sorted_NoDup; [apply _ | apply _ |].
  apply Sorted_StronglySorted; [apply _ | apply Sorted_merge_sort; apply _].
Qed.

Lemma elem_of_canonical l x : x ∈ canonical_fields l <-> x ∈ l.
Proof. unfold canonical_fields. by rewrite dedup_elem_of, elem_of_sort_strings. Qed.

Lemma canonical_ext l l' : (forall x, x ∈ l <-> x ∈ l') -> canonical_fields l = canonical_fields l'.
Proof.
  intros Heq. destruct (canonical_sorted l) as [S1 N1], (canonical_sorted l') as [S2 N2].
  apply (StronglySorted_unique string_le); [done | done |].
  apply NoDup_Permutation; [done.. |]. intros x. by rewrite !elem_of_canonical.
Qed.

Lemma has_field_spec keys f : has_field keys f = true <-> f ∈ map fst keys.
Proof.
  unfold has_field. rewrite existsb_exists, list_elem_of_fmap. split.
  - intros (k & Hk & <-%String.eqb_eq). exists k. split; [done | by apply list_elem_of_In].
  - intros (k & -> & Hk). exists k. split; [by apply list_elem_of_In | apply String.eqb_refl].
Qed.

Lemma push_key_spec keys k :
  NoDup (map fst keys) ->
  NoDup (map fst (push_key keys k)) /\
  (exists more, push_key keys k = keys ++ more) /\
  forall f, f ∈ map fst (push_key keys k) <-> f ∈ map fst keys \/ f = fst k.
Proof.
  intros Hnd. unfold push_key. destruct (has_field keys (fst k)) eqn:Hh.
  - apply has_field_spec in Hh. split_and!; [done | by exists []; rewrite app_nil_r | naive_solver].
  - assert (Hn : fst k ∉ map fst keys) by (intros Hin%has_field_spec; congruence).
    rewrite map_app. cbn. split_and!; [| by exists [k] | set_solver].
    apply NoDup_app. split_and!; [done | set_solver | apply NoDup_singleton].
Qed.

Lemma push_keys_spec ks keys :
  NoDup (map fst keys) ->
  NoDup (map fst (fold_left push_key ks keys)) /\
  (exists more, fold_left push_key ks keys = keys ++ more) /\
  forall f, f ∈ map fst (fold_left push_key ks keys) <-> f ∈ map fst keys \/ f ∈ map fst ks.
Proof.
  revert keys. induction ks as [|k ks IH]; cbn; intros keys Hnd.
  - split_and!; [done | by exists []; rewrite app_nil_r |]. intros f. split; [by left |].
    intros [? | Hf]; [done | by inversion Hf].
  - destruct (push_key_spec keys k Hnd) as (Hnd1 & (more1 & H1) & Hf1).
    destruct (IH _ Hnd1) as (Hnd2 & (more2 & H2) & Hf2). split_and!; [done | |].
    + exists (more1 ++ more2). by rewrite H2, H1, app_assoc.
    + intros f. rewrite Hf2, Hf1, elem_of_cons. tauto.
Qed.

Lemma fold_range ranges keys :
  fold_left (fun keys f => push_key keys (f, true)) ranges keys
  = fold_left push_key (map (fun f => (f, true)) ranges) keys.
Proof. revert keys. induction ranges as [|f ranges IH]; intros keys; cbn; [done | apply IH]. Qed.

(** The key list of a query shape follows the rule equality, sort, range:
    it names every field of the shape once and no other; the equality fields
    come first in alphabetical order, so the order and the repetition of the
    equality filters do not matter; a shape with an unknown field gives none. *)
Theorem into_composite_spec s :
  match into_composite s with
  | Some keys =>
      skip s = false /\ NoDup (map fst keys) /\
      (exists more, keys = map (fun f => (f, true)) (canonical_fields (equality s)) ++ more) /\
      (forall f, f ∈ map fst keys <-> f ∈ equality s \/ f ∈ map fst (sort_fields s) \/ f ∈ range s) /\
      (forall eq', (forall f, f ∈ eq' <-> f ∈ equality s) ->
         into_composite (mkShape eq' (sort_fields s) (range s) (skip s)) = Some keys)
  | None => skip s = true \/ (equality s = [] /\ sort_fields s = [] /\ range s = [])
  end.
Proof.
  assert (Hext : forall eq', (forall f, f ∈ eq' <-> f ∈ equality s) ->
    into_composite (mkShape eq' (sort_fields s) (range s) (skip s)) = into_composite s).
  { intros eq' Heq. unfold into_composite. cbn [equality sort_fields range skip].
    fold (canonical_fields eq') (canonical_fields (equality s)).
    by rewrite (canonical_ext eq' (equality s) Heq). }
  destruct (into_composite s) as [keys|] eqn:H.
  - split; [unfold into_composite in H; by destruct (skip s) |].
    assert (Hk : fold_left (fun keys f => push_key keys (f, true)) (range s)
      (fold_left push_key (sort_fields s) (map (fun f => (f, true)) (canonical_fields (equality s)))) = keys).
    { unfold into_composite in H. destruct (skip s); [done |].
      fold (canonical_fields (equality s)) in H. case_in H; [done | by injection H as <-]. }
    rewrite fold_range in Hk.
    assert (Hfst : map fst (map (fun f => (f, true)) (canonical_fields (equality s)))
      = canonical_fields (equality s)) by (rewrite map_map; apply map_id).
    assert (Hr : map fst (map (fun f => (f, true)) (range s)) = range s) by (rewrite map_map; apply map_id).
    destruct (push_keys_spec (sort_fields s) (map (fun f => (f, true)) (canonical_fields (equality s))))
      as (N1 & (m1 & E1) & F1); [rewrite Hfst; apply canonical_sorted |].
    destruct (push_keys_spec (map (fun f => (f, true)) (range s)) _ N1) as (N2 & (m2 & E2) & F2).
    rewrite Hk in N2, E2, F2. split_and!; [done | | |].
    + exists (m1 ++ m2). by rewrite E2, E1, app_assoc.
    + intros f. rewrite F2, F1, Hfst, Hr, elem_of_canonical. tauto.
    + intros eq' Heq. by apply Hext.
  - unfold into_composite in H. destruct (skip s); [by left | right].
    fold (canonical_fields (equality s)) in H.
    assert (Hk : fold_left (fun keys f => push_key keys (f, true)) (range s)
      (fold_left push_key (sort_fields s) (map (fun f => (f, true)) (canonical_fields (equality s)))) = []).
    { case_in H; done. }
    rewrite fold_range in Hk.
    assert (Hfst : map fst (map (fun f => (f, true)) (canonical_fields (equality s)))
      = canonical_fields (equality s)) by (rewrite map_map; apply map_id).
    destruct (push_keys_spec (sort_fields s) (map (fun f => (f, true)) (canonical_fields (equality s))))
      as (N1 & _ & F1); [rewrite Hfst; apply canonical_sorted |].
    destruct (push_keys_spec (map (fun f => (f, true)) (range s)) _ N1) as (_ & _ & F2).
    rewrite Hk in F2.
    assert (Hno : forall f, ~ (f ∈ equality s \/ f ∈ map fst (sort_fields s) \/ f ∈ range s)).
    { intros f Hf. assert (f ∈ map fst ([] : Keys)) as Hin; [| by inversion Hin].
      apply F2. rewrite F1, Hfst, map_map, map_id, elem_of_canonical. tauto. }
    split_and!.
    + destruct (equality s) as [|f l]; [done |]. exfalso. apply (Hno f). left. by left.
    + destruct (sort_fields s) as [|[f a] l]; [done |]. exfalso. apply (Hno f). right. left. by left.
    + destruct (range s) as [|f l]; [done |]. exfalso. apply (Hno f). right. right. by left.
Qed.

(** * The plan *)

Lemma starts_with_keys_spec other s :
  starts_with_keys other s = true <-> exists rest, other = s ++ rest.
Proof.
  unfold starts_with_keys. rewrite bool_decide_eq_true. split.
  - intros H. exists (drop (length s) other). rewrite <- H at 1. by rewrite take_drop.
  - intros [rest ->]. by rewrite take_app_length.
Qed.

Lemma elem_of_dedup_by_prefix shapes s :
  s ∈ dedup_by_prefix shapes <->
  s ∈ shapes /\ forall rest, rest <> [] -> s ++ rest ∉ shapes.
Proof.
  unfold dedup_by_prefix. rewrite list_elem_of_In, filter_In, <- list_elem_of_In.
  assert (Hall : forall x, x ∈ dedup (merge_sort keys_le shapes) <-> x ∈ shapes)
    by (intros x; by rewrite dedup_elem_of, merge_sort_Permutation).
  rewrite Hall, negb_true_iff. apply and_iff_compat_l. split.
  - intros H rest Hrest Hin. apply not_true_iff_false in H. apply H.
    apply existsb_exists. exists (s ++ rest). split; [by apply list_elem_of_In, Hall |].
    apply andb_true_iff. split.
    + apply Nat.ltb_lt. rewrite length_app. destruct rest; [done | cbn; lia].
    + apply starts_with_keys_spec. by exists rest.
  - intros H. apply not_true_is_false. intros (other & Hin & Hp)%existsb_exists.
    apply andb_true_iff in Hp as [Hlt%Nat.ltb_lt Hpre].
    apply starts_with_keys_spec in Hpre as [rest ->]. apply list_elem_of_In, Hall in Hin.
    apply (H rest); [| done]. intros ->. rewrite app_nil_r in Hlt. lia.
Qed.

(** Every shape is a prefix of a shape that is kept. *)
Lemma dedup_by_prefix_covers shapes s :
  s ∈ shapes -> exists rest, s ++ rest ∈ dedup_by_prefix shapes.
Proof.
  set (bound := max_list (map length shapes)).
  assert (Hb : forall x, x ∈ shapes -> length x <= bound).
  { intros x Hx. apply (max_list_elem_of_le (length x)). by apply list_elem_of_fmap_2. }
  intros Hs. remember (bound - length s) as n eqn:Hn. revert s Hs Hn.
  induction n as [n IH] using lt_wf_ind. intros s Hs ->.
  destruct (existsb (fun other => (length s <? length other) && starts_with_keys other s) shapes) eqn:Hex.
  - apply existsb_exists in Hex as (other & Hin%list_elem_of_In & Hp).
    apply andb_true_iff in Hp as [Hlt%Nat.ltb_lt Hpre].
    apply starts_with_keys_spec in Hpre as [rest ->].
    specialize (Hb _ Hin) as Hlen.
    destruct (IH (bound - length (s ++ rest))) with (s := s ++ rest) as [rest' Hrest']; [lia | done | done |].
    exists (rest ++ rest'). by rewrite app_assoc.
  - exists []. rewrite app_nil_r. apply elem_of_dedup_by_prefix. split; [done |].
    intros rest Hrest Hin. apply not_true_iff_false in Hex. apply Hex.
    apply existsb_exists. exists (s ++ rest). split; [by apply list_elem_of_In |].
    apply andb_true_iff. split.
    + apply Nat.ltb_lt. rewrite length_app. destruct rest; [done | cbn; lia].
    + apply starts_with_keys_spec. by exists rest.
Qed.

Lemma group_lookup emissions c :
  default [] (group emissions !! c)
  = map snd (List.filter (fun e => String.eqb (fst e) c) emissions).
Proof.
  unfold group. cut (forall m : gmap string (list Keys), default [] (fold_left (fun acc e =>
      <[fst e := default [] (acc !! fst e) ++ [snd e]]> acc) emissions m !! c)
    = default [] (m !! c) ++ map snd (List.filter (fun e : string * Keys => String.eqb (fst e) c) emissions)).
  { intros H. rewrite H. by rewrite lookup_empty. }
  induction emissions as [|[c1 k] l IH]; intros m; cbn; [by rewrite app_nil_r |].
  rewrite IH. destruct (String.eqb_spec c1 c) as [->|Hne]; cbn.
  - rewrite lookup_insert_eq. cbn. by rewrite <- app_assoc.
  - by rewrite lookup_insert_ne.
Qed.

Lemma elem_of_group emissions c k :
  k ∈ default [] (group emissions !! c) <-> (c, k) ∈ emissions.
Proof.
  rewrite group_lookup, list_elem_of_fmap. split.
  - intros ([c1 k1] & -> & Hin%list_elem_of_In). apply filter_In in Hin as [Hin Hc].
    apply String.eqb_eq in Hc. cbn in *. subst. by apply list_elem_of_In.
  - intros Hin. exists (c, k). split; [done |]. apply list_elem_of_In, filter_In.
    split; [by apply list_elem_of_In | apply String.eqb_refl].
Qed.

(** C40: the index plan of a program serves every document query that the walk
    finds (the query's keys are a prefix of an index of its collection), holds
    only key lists of queries, and no index of a collection is a prefix of
    another one. *)
Theorem infer_indexes_spec sha256 program :
  let plan := infer_indexes sha256 program in
  (forall s c k, s ∈ program -> (c, k) ∈ walk_statement s ->
     exists i rest, i ∈ plan /\ ii_collection i = c /\ ii_keys i = k ++ rest) /\
  (forall i, i ∈ plan ->
     (exists s, s ∈ program /\ (ii_collection i, ii_keys i) ∈ walk_statement s) /\
     ii_name i = index_name sha256 (ii_collection i) (ii_keys i)) /\
  (forall i j rest, i ∈ plan -> j ∈ plan -> ii_collection i = ii_collection j ->
     ii_keys j = ii_keys i ++ rest -> rest = []).
Proof.
  intros plan. set (emissions := walk_all walk_statement program).
  assert (Hem : forall c k, (c, k) ∈ emissions <-> exists s, s ∈ program /\ (c, k) ∈ walk_statement s)
    by (intros c k; unfold emissions, walk_all; by rewrite elem_of_concat_map).
  assert (Hplan : forall i, i ∈ plan <->
    ii_name i = index_name sha256 (ii_collection i) (ii_keys i) /\
    ii_keys i ∈ dedup_by_prefix (default [] (group emissions !! ii_collection i))).
  { intros [c k name]. unfold plan, infer_indexes. fold emissions.
    rewrite elem_of_concat_map. cbn. split.
    - intros (c' & _ & (k' & Heq & Hk)%list_elem_of_fmap). by simplify_eq.
    - intros [-> Hk]. exists c. split.
      + unfold collections. apply elem_of_sort_strings, list_elem_of_fmap.
        destruct (group emissions !! c) as [l|] eqn:Hl.
        * exists (c, l). split; [done | by apply elem_of_map_to_list].
        * apply elem_of_dedup_by_prefix in Hk as [Hk _]. by inversion Hk.
      + apply list_elem_of_fmap. by exists k. }
  split_and!.
  - intros s c k Hs Hk.
    assert (k ∈ default [] (group emissions !! c)) as Hg by (apply elem_of_group, Hem; by exists s).
    apply dedup_by_prefix_covers in Hg as [rest Hrest].
    exists (mkInferredIndex c (k ++ rest) (index_name sha256 c (k ++ rest))), rest.
    split_and!; [| done | done]. apply Hplan. by split.
  - intros i [Hname Hk]%Hplan. split; [| done].
    apply elem_of_dedup_by_prefix in Hk as [Hk _]. by apply elem_of_group, Hem in Hk.
  - intros i j rest [_ Hi]%Hplan [_ Hj]%Hplan Hc Heq.
    apply elem_of_dedup_by_prefix in Hi as [_ Hno], Hj as [Hj _].
    rewrite <- Hc, Heq in Hj. destruct rest as [|x rest]; [done |].
    exfalso. by apply (Hno (x :: rest)).
Qed.

(** Two different indexes of one collection can get the same name. *)
Theorem index_name_collides sha256 :
  let a := [("first", true); ("name", true)] in
  let b := [("first_name", true)] in
  a <> b /\ index_name sha256 "users" a = index_name sha256 "users" b /\
  dedup_by_prefix [a; b] = [a; b].
Proof. split_and!; [discriminate | reflexivity | vm_compute; reflexivity]. Qed.
