(* ===== verification/FeatureFlags.v ===== *)
(** Feature flags read from the environment: src/src/feature_flags.rs.

    A flag is an environment variable [MARRETA_FEATURE_<NAME>].  The loader
    iterates over a [HashMap] of variables, so its order is the [HashOrder]
    of the prelude. *)
From stdpp Require Import base list strings gmap sorting.
From S2P Require Import Prelude RustStr SchemaCycle Environment.

Definition FEATURE_ENV_PREFIX : string := "MARRETA_FEATURE_".
Definition FEATURE_ENV_NAME_HELP : string :=
  "after MARRETA_FEATURE_, use uppercase letters, digits, and single underscores; " +:+
  "start with a letter; " +:+
  "do not use double underscores or trailing underscores".

Record FeatureFlags : Type := mkFeatureFlags { flags : gmap string bool }.

Definition enabled (f : FeatureFlags) (name : string) : bool := default false (flags f !! name).

(** [FeatureFlags::entries]: sorted by name. *)
Definition FeatureFlags_entries `{HashOrder} (f : FeatureFlags) : list (string * bool) :=
  merge_sort name_le (entries (flags f)).

Definition name_byte (b : N) : bool := is_ascii_lowercase b || is_ascii_digit b.

Definition is_valid_feature_name (name : string) : bool :=
  match split_on "_" name with
  | [] => false
  | first :: parts =>
      match bytes first with
      | [] => false
      | b :: _ =>
          is_ascii_lowercase b && forallb name_byte (bytes first) &&
          forallb (fun part =>
            match bytes part with [] => false | _ => forallb name_byte (bytes part) end) parts
      end
  end.

Definition normalize_env_feature_name (env_key : string) : option string :=
  option_map to_ascii_lowercase (strip_prefix FEATURE_ENV_PREFIX env_key).

Definition env_key_for_feature_name (name : string) : string :=
  FEATURE_ENV_PREFIX +:+ to_ascii_uppercase name.

Definition parse_feature_bool (raw : string) : result string bool :=
  let word := to_ascii_lowercase (trim raw) in
  if existsb (String.eqb word) ["true"; "1"; "yes"; "on"; "enabled"] then Ok true
  else if existsb (String.eqb word) ["false"; "0"; "no"; "off"; "disabled"] then Ok false
  else Err raw.

(** One iteration of the loop of [load_feature_flags]. *)
Definition load_variable (st : gmap string bool * list string) (var : string * string)
  : gmap string bool * list string :=
  let '(flags, errors) := st in
  let '(key, value) := var in
  match normalize_env_feature_name key with
  | None => (flags, errors)
  | Some name =>
      if negb (is_valid_feature_name name)
      then (flags, errors ++ ["invalid " +:+ key +:+ ": " +:+ FEATURE_ENV_NAME_HELP])
      else match parse_feature_bool value with
           | Ok enabled => (<[name := enabled]> flags, errors)
           | Err raw => (flags, errors ++ [key +:+ " has invalid boolean value '" +:+ raw +:+ "'"])
           end
  end.

Definition load_feature_flags `{HashOrder} (vars : gmap string string)
  : FeatureFlags * list string :=
  let '(flags, errors) := fold_left load_variable (entries vars) (∅, []) in
  (mkFeatureFlags flags, errors).

(** * The names *)

(** Regular expressions over bytes, for [FEATURE_NAME_REGEX]. *)
Inductive regex : Type :=
| ByteIn (p : N -> bool)
| Seq (r s : regex)
| Star (r : regex).

Inductive matches : regex -> string -> Prop :=
| matches_byte p a : p (ch a) = true -> matches (ByteIn p) (String a EmptyString)
| matches_seq r s x y : matches r x -> matches s y -> matches (Seq r s) (x +:+ y)
| matches_nil r : matches (Star r) EmptyString
| matches_app r x y : matches r x -> matches (Star r) y -> matches (Star r) (x +:+ y).

(** [^[a-z][a-z0-9]*(_[a-z0-9]+)*$]; [e+] is [e e*]. *)
Definition FEATURE_NAME_REGEX : regex :=
  Seq (ByteIn is_ascii_lowercase)
    (Seq (Star (ByteIn name_byte))
       (Star (Seq (ByteIn (N.eqb (ch "_"))) (Seq (ByteIn name_byte) (Star (ByteIn name_byte)))))).

Lemma matches_star_byte p s : matches (Star (ByteIn p)) s <-> forallb p (bytes s) = true.
Proof.
  split.
  - remember (Star (ByteIn p)) as r eqn:Hr. induction 1 as [| | |r x y Hx _ _ IH]; simplify_eq; [done |].
    inversion Hx as [? a Ha| | |]; subst. change (String a EmptyString +:+ y) with (String a y).
    rewrite bytes_cons. cbn. rewrite Ha. by apply IH.
  - induction s as [|a s IH]; [constructor |]. rewrite bytes_cons. cbn.
    intros [Ha Hs]%andb_true_iff. change (String a s) with (String a EmptyString +:+ s).
    constructor; [by constructor | by apply IH].
Qed.

(** A nonempty word of bytes in [p], of which the first is in [q]. *)
Definition word_ok (q p : N -> bool) (w : string) : bool :=
  match bytes w with [] => false | b :: _ => q b && forallb p (bytes w) end.

Lemma matches_word q p w :
  (forall b, q b = true -> p b = true) ->
  matches (Seq (ByteIn q) (Star (ByteIn p))) w <-> word_ok q p w = true.
Proof.
  intros Hqp. split.
  - intros Hm. inversion Hm as [|? ? x y Hx Hy| |]; subst.
    inversion Hx as [? a Ha| | |]; subst. apply matches_star_byte in Hy.
    change (word_ok q p (String a y) = true). unfold word_ok. rewrite bytes_cons.
    cbn. by rewrite Ha, (Hqp _ Ha), Hy.
  - unfold word_ok. destruct w as [|a w]; [done |]. rewrite bytes_cons. cbn.
    rewrite !andb_true_iff. intros (Ha & _ & Hw).
    change (String a w) with (String a EmptyString +:+ w).
    constructor; [by constructor | by apply matches_star_byte].
Qed.

(** The parts after the first one, each with its underscore. *)
Definition underscored (parts : list string) : string :=
  foldr (fun w acc => String "_" (w +:+ acc)) EmptyString parts.

Lemma join_underscored first parts : join "_" (first :: parts) = first +:+ underscored parts.
Proof.
  revert first. induction parts as [|w parts IH]; intros first; cbn [underscored foldr].
  - symmetry. apply append_nil_r.
  - change (first +:+ "_" +:+ join "_" (w :: parts) = first +:+ String "_" (w +:+ underscored parts)).
    by rewrite IH.
Qed.

Lemma matches_segments (p : N -> bool) s :
  matches (Star (Seq (ByteIn (N.eqb (ch "_"))) (Seq (ByteIn p) (Star (ByteIn p))))) s <->
  exists parts, s = underscored parts /\ Forall (fun w => word_ok p p w = true) parts.
Proof.
  split.
  - remember (Star _) as r eqn:Hr. induction 1 as [| | |r x y Hx _ _ IH]; simplify_eq.
    + by exists [].
    + destruct (IH eq_refl) as (parts & -> & Hparts).
      inversion Hx as [|? ? u w Hu Hw| |]; subst. inversion Hu as [? a Ha| | |]; subst.
      apply matches_word in Hw; [| done]. apply N.eqb_eq in Ha. pose proof (byte_ch a) as Hb.
      rewrite <- Ha in Hb. vm_compute in Hb. subst a.
      exists (w :: parts). split; [| by constructor].
      change (String "_" EmptyString +:+ w) with (String "_" w). reflexivity.
  - intros (parts & -> & Hparts). induction Hparts as [|w parts Hw _ IH]; [constructor |].
    change (underscored (w :: parts)) with ((String "_" EmptyString +:+ w) +:+ underscored parts).
    constructor; [constructor; [by constructor | by apply matches_word] | done].
Qed.

Lemma name_byte_no_underscore w : forallb name_byte (bytes w) = true -> str_has "_" w = false.
Proof.
  induction w as [|a w IH]; [done |]. rewrite bytes_cons. cbn [forallb str_has].
  intros [Ha Hw]%andb_true_iff. rewrite IH by done. rewrite orb_false_r.
  destruct (Ascii.eqb_spec "_" a) as [<-|]; [done | reflexivity].
Qed.

Lemma word_ok_bytes q w : word_ok q name_byte w = true -> forallb name_byte (bytes w) = true.
Proof. unfold word_ok. destruct (bytes w); [done |]. by intros [_ ?]%andb_true_iff. Qed.

#[local] Arguments join_split a%_char_scope s.
#[local] Arguments split_on_nonnil a%_char_scope s.
#[local] Arguments Ascii.eqb_spec (a b)%_char_scope.

Lemma is_valid_feature_name_words name :
  is_valid_feature_name name = true <->
  exists first parts, split_on "_" name = first :: parts /\
    word_ok is_ascii_lowercase name_byte first = true /\
    Forall (fun w => word_ok name_byte name_byte w = true) parts.
Proof.
  assert (Hw : forall w, word_ok name_byte name_byte w
    = match bytes w with [] => false | _ => forallb name_byte (bytes w) end).
  { intros w. unfold word_ok. destruct (bytes w) as [|b l]; [done |]. cbn. by destruct (name_byte b). }
  unfold is_valid_feature_name. split.
  - destruct (split_on "_" name) as [|first parts]; [done |]. intros H.
    exists first, parts. split; [done |]. unfold word_ok at 1.
    destruct (bytes first); [done |]. apply andb_true_iff in H as [Hf Hp]. split; [done |].
    apply Forall_forall. intros w Hin. rewrite Hw. rewrite forallb_forall in Hp.
    by apply Hp, list_elem_of_In.
  - intros (first & parts & -> & Hf & Hp). unfold word_ok in Hf.
    destruct (bytes first); [done |]. rewrite Hf. cbn.
    apply forallb_forall. intros w Hin%list_elem_of_In. rewrite <- Hw.
    by eapply Forall_forall in Hp.
Qed.

(** The hand-written validator of feature names accepts exactly the
    language of the published regular expression. *)
Theorem is_valid_feature_name_regex name :
  is_valid_feature_name name = true <-> matches FEATURE_NAME_REGEX name.
Proof.
  rewrite is_valid_feature_name_words. unfold FEATURE_NAME_REGEX. split.
  - intros (first & parts & Hs & Hf & Hp).
    rewrite <- (join_split "_" name), Hs, join_underscored.
    apply matches_word in Hf; [| by intros b Hb; unfold name_byte; rewrite Hb].
    inversion Hf as [|? ? x y Hx Hy| |]; subst. rewrite append_assoc.
    constructor; [done |]. constructor; [done |]. apply matches_segments. by exists parts.
  - inversion 1 as [|? ? x y Hx Hy| |]; subst. inversion Hy as [|? ? w s Hw Hs| |]; subst.
    apply matches_segments in Hs as (parts & -> & Hp).
    assert (Hf : word_ok is_ascii_lowercase name_byte (x +:+ w) = true).
    { apply matches_word; [by intros b Hb; unfold name_byte; rewrite Hb | by constructor]. }
    exists (x +:+ w), parts. split; [| done].
    rewrite <- append_assoc, <- join_underscored. apply split_join; [done |].
    intros v [-> | Hv]%elem_of_cons; apply name_byte_no_underscore.
    + by apply word_ok_bytes in Hf.
    + eapply Forall_forall in Hp; [| done]. by apply word_ok_bytes in Hp.
Qed.

(** * Reading the environment *)

Lemma bytes_of_parts (p : N -> bool) s :
  (forall w, w ∈ split_on "_" s -> forallb p (bytes w) = true) ->
  forallb (fun b => p b || (b =? ch "_")%N) (bytes s) = true.
Proof.
  induction s as [|a s IH]; [done |]. rewrite bytes_cons. cbn [split_on forallb].
  pose proof (split_on_nonnil "_" s) as Hne.
  destruct (Ascii.eqb_spec "_" a) as [<-|Ha]; intros Hall.
  - rewrite N.eqb_refl, orb_true_r. apply IH. intros w Hw. apply Hall. by right.
  - destruct (split_on "_" s) as [|w ws]; [done |].
    specialize (Hall (String a w)) as Haw. rewrite bytes_cons in Haw. cbn [forallb] in Haw.
    rewrite andb_true_iff in Haw. destruct Haw as [Hpa Hw]; [by left |].
    rewrite Hpa. apply IH. intros v [-> | Hv]%elem_of_cons; [done | apply Hall; by right].
Qed.

Lemma map_bytes_inverse (f g : N -> N) s :
  (forall b, b ∈ bytes s -> f (ch (byte (g b))) = b) -> map_bytes f (map_bytes g s) = s.
Proof.
  induction s as [|a s IH]; [done |]. rewrite bytes_cons. intros H.
  change (String (byte (f (ch (byte (g (ch a)))))) (map_bytes f (map_bytes g s)) = String a s).
  rewrite H by (by left). rewrite byte_ch, IH; [done |]. intros b Hb. apply H. by right.
Qed.

(** The environment key of a valid feature name is read back as that name. *)
Theorem feature_env_key_roundtrip name :
  is_valid_feature_name name = true ->
  normalize_env_feature_name (env_key_for_feature_name name) = Some name.
Proof.
  intros Hv. unfold normalize_env_feature_name, env_key_for_feature_name.
  rewrite strip_prefix_append. cbn. f_equal. apply map_bytes_inverse.
  apply is_valid_feature_name_words in Hv as (first & parts & Hs & Hf & Hp).
  assert (Hb : forallb (fun b => name_byte b || (b =? ch "_")%N) (bytes name) = true).
  { apply bytes_of_parts. rewrite Hs. intros w [-> | Hw]%elem_of_cons.
    - by apply word_ok_bytes in Hf.
    - eapply Forall_forall in Hp; [| done]. by apply word_ok_bytes in Hp. }
  intros b Hin%list_elem_of_In. rewrite forallb_forall in Hb. specialize (Hb _ Hin).
  assert (Hlt : (b < 256)%N).
  { unfold name_byte, is_ascii_lowercase, is_ascii_digit, between in Hb.
    apply orb_true_iff in Hb as [[[_ H]%andb_true_iff|[_ H]%andb_true_iff]%orb_true_iff|H].
    - apply N.leb_le in H. vm_compute (ch "z") in H. lia.
    - apply N.leb_le in H. vm_compute (ch "9") in H. lia.
    - apply N.eqb_eq in H as ->. reflexivity. }
  assert (Hall : forallb (fun b => negb (name_byte b || (b =? ch "_")%N)
    || (to_ascii_lowercase_char (ch (byte (to_ascii_uppercase_char b))) =? b)%N)
    (map N.of_nat (seq 0 256)) = true) by (vm_compute; reflexivity).
  rewrite forallb_forall in Hall. specialize (Hall b). rewrite Hb in Hall. cbn [negb orb] in Hall.
  apply N.eqb_eq, Hall, in_map_iff. exists (N.to_nat b). split; [lia |]. apply in_seq. lia.
Qed.

Lemma feature_env_key_roundtrip_witness :
  normalize_env_feature_name (env_key_for_feature_name "low_stock_alert") = Some "low_stock_alert".
Proof. apply feature_env_key_roundtrip. vm_compute. reflexivity. Defined.

(** The flag that a variable sets, and the error that it reports. *)
Definition flag_of (var : string * string) : option (string * bool) :=
  name ← normalize_env_feature_name (fst var);
  if is_valid_feature_name name
  then match parse_feature_bool (snd var) with Ok b => Some (name, b) | Err _ => None end
  else None.
Definition error_of (var : string * string) : option string :=
  name ← normalize_env_feature_name (fst var);
  if is_valid_feature_name name
  then match parse_feature_bool (snd var) with
       | Ok _ => None
       | Err raw => Some (fst var +:+ " has invalid boolean value '" +:+ raw +:+ "'")
       end
  else Some ("invalid " +:+ fst var +:+ ": " +:+ FEATURE_ENV_NAME_HELP).

Lemma load_variables l m errors :
  fold_left load_variable l (m, errors)
  = (fold_left (fun m nb => <[fst nb := snd nb]> m) (omap flag_of l) m, errors ++ omap error_of l).
Proof.
  revert m errors. induction l as [|[key value] l IH]; intros m errors; cbn.
  - by rewrite app_nil_r.
  - unfold flag_of, error_of. cbn. destruct (normalize_env_feature_name key) as [name|]; cbn; [| apply IH].
    destruct (is_valid_feature_name name); cbn.
    + destruct (parse_feature_bool value); cbn; rewrite IH, <- ?app_assoc; reflexivity.
    + rewrite IH, <- app_assoc. reflexivity.
Qed.

Lemma insert_all_lookup (l : list (string * bool)) (m : gmap string bool) k b :
  fold_left (fun m nb => <[fst nb := snd nb]> m) l m !! k = Some b ->
  (k, b) ∈ l \/ m !! k = Some b.
Proof.
  revert m. induction l as [|[k1 b1] l IH]; cbn; intros m Hk; [by right |].
  apply IH in Hk as [Hin | Hm]; [left; by right |].
  apply lookup_insert_Some in Hm as [[<- <-] | [_ Hm]]; [left; by left | by right].
Qed.

Lemma insert_all_keys (l : list (string * bool)) (m : gmap string bool) k :
  k ∈ map fst l \/ is_Some (m !! k) ->
  is_Some (fold_left (fun m nb => <[fst nb := snd nb]> m) l m !! k).
Proof.
  revert m. induction l as [|[k1 b1] l IH]; cbn; intros m Hk.
  - destruct Hk as [Hk | Hk]; [by inversion Hk | done].
  - apply IH. rewrite elem_of_cons in Hk. destruct Hk as [[-> | Hk] | Hm]; [right | by left | right].
    + by rewrite lookup_insert_eq.
    + destruct (decide (k1 = k)) as [->|]; [by rewrite lookup_insert_eq | by rewrite lookup_insert_ne].
Qed.

(** Reading the flags loses no variable and invents no flag.  A flag has
    the value of some variable that normalises to its name; a variable with a
    valid name and value sets its flag, to its own value when no other
    variable normalises to the same name, whatever the iteration order; the
    errors are exactly those of the variables with the prefix that have a bad
    name or a bad value. *)
Theorem load_feature_flags_spec `{HashOrder} vars :
  let '(f, errors) := load_feature_flags vars in
  (forall name b, flags f !! name = Some b ->
     exists key raw, vars !! key = Some raw /\ flag_of (key, raw) = Some (name, b)) /\
  (forall key raw name b, vars !! key = Some raw -> flag_of (key, raw) = Some (name, b) ->
     is_Some (flags f !! name) /\
     ((forall key' raw', vars !! key' = Some raw' -> normalize_env_feature_name key' = Some name ->
        key' = key) -> enabled f name = b)) /\
  (forall e, e ∈ errors <-> exists key raw, vars !! key = Some raw /\ error_of (key, raw) = Some e).
Proof.
  unfold load_feature_flags. rewrite load_variables. cbn [flags app].
  set (m := fold_left _ _ _).
  assert (Hfrom : forall name b, m !! name = Some b ->
    exists key raw, vars !! key = Some raw /\ flag_of (key, raw) = Some (name, b)).
  { intros name b [Hin | He]%insert_all_lookup; [| by rewrite lookup_empty in He].
    apply list_elem_of_omap in Hin as ([key raw] & Hvar%elem_of_entries & Hflag). by exists key, raw. }
  split; [done |]. split.
  - intros key raw name b Hkey Hflag.
    assert (Hsome : is_Some (m !! name)).
    { apply insert_all_keys. left. apply list_elem_of_fmap. exists (name, b). split; [done |].
      apply list_elem_of_omap. exists (key, raw). split; [by apply elem_of_entries | done]. }
    split; [done |]. intros Honly. destruct Hsome as [b' Hb']. unfold enabled. cbn. rewrite Hb'.
    destruct (Hfrom _ _ Hb') as (key' & raw' & Hkey' & Hflag').
    assert (key' = key) as ->.
    { apply (Honly key' raw' Hkey'). unfold flag_of in Hflag'. cbn in Hflag'.
      destruct (normalize_env_feature_name key') as [n|]; [| done]. cbn in Hflag'.
      destruct (is_valid_feature_name n), (parse_feature_bool raw'); simplify_eq; done. }
    cbn. congruence.
  - intros e. rewrite list_elem_of_omap. split.
    + intros ([key raw] & Hvar%elem_of_entries & He). by exists key, raw.
    + intros (key & raw & Hkey & He). exists (key, raw). split; [by apply elem_of_entries | done].
Qed.

(** Two variables that normalise to one name: the flag depends on the order
    in which the map is visited, and no error is reported. *)
Theorem colliding_keys_depend_on_order :
  let a := ("MARRETA_FEATURE_BETA", "on") in
  let b := ("MARRETA_FEATURE_beta", "off") in
  (fst (fold_left load_variable [a; b] (∅, [])) !! "beta" = Some false) /\
  (fst (fold_left load_variable [b; a] (∅, [])) !! "beta" = Some true) /\
  snd (fold_left load_variable [a; b] (∅, [])) = [].
Proof. repeat split; vm_compute; reflexivity. Qed.
