(* ===== verification/Coverage.v ===== *)
(** Counting the routes that a scenario covers: src/src/coverage.rs.
    A [BTreeSet<String>] is a [gset string]. *)
From stdpp Require Import base list strings gmap sets fin_sets.
From S2P Require Import Prelude RustStr F64 Ast.

Definition route_key (verb : HttpVerb) (path : string) : string := show_verb verb +:+ " " +:+ path.

Record CoverageSummary : Type := mkCoverageSummary {
  routes_total : nat;
  routes_with_scenario : nat;
  scenarios_total : nat;
  files_total : nat;
  unmatched_scenarios : nat;
}.

(** [saturating_sub] is the subtraction of [nat]. *)
Definition routes_without_scenario (s : CoverageSummary) : nat :=
  routes_total s - routes_with_scenario s.

Definition routes_with_scenario_pct (s : CoverageSummary) : f64 :=
  if routes_total s =? 0 then f64_of_Z 100
  else f64_mul (f64_div (f64_of_Z (Z.of_nat (routes_with_scenario s)))
                        (f64_of_Z (Z.of_nat (routes_total s)))) (f64_of_Z 100).

Definition summarize (all_routes covered : gset string)
    (scenarios_total files_total unmatched_scenarios : nat) : CoverageSummary :=
  mkCoverageSummary (size all_routes)
    (size (filter (fun key => key ∈ all_routes) covered))
    scenarios_total files_total unmatched_scenarios.

(** ** Facts *)

Lemma show_verb_no_space v : str_has " " (show_verb v) = false.
Proof. by destruct v. Qed.

Lemma show_verb_inj v v' : show_verb v = show_verb v' -> v = v'.
Proof. by destruct v, v'. Qed.

(** A route key identifies the verb and the path of its route. *)
Theorem route_key_injective v p v' p' : route_key v p = route_key v' p' <-> v = v' /\ p = p'.
Proof.
  split; [| by intros [-> ->]]. unfold route_key. intros Heq.
  assert (Hk : forall v p, split_once " " (show_verb v +:+ " " +:+ p) = Some (show_verb v, p))
    by (intros w q; apply split_once_app, show_verb_no_space).
  assert (Hs : Some (show_verb v, p) = Some (show_verb v', p')) by (by rewrite <- !Hk, Heq).
  injection Hs as Hv ->. split; [by apply show_verb_inj | done].
Qed.

(** The counts of a summary are those of the routes: the covered routes
    that no declared route matches are ignored, and the routes with and
    without a scenario add up to all of them, so the subtraction does not
    saturate. *)
Theorem summarize_counts all_routes covered n f u :
  let s := summarize all_routes covered n f u in
  routes_with_scenario s = size (all_routes ∩ covered) /\
  routes_without_scenario s = size (all_routes ∖ covered) /\
  routes_with_scenario s + routes_without_scenario s = routes_total s.
Proof.
  cbn. assert (Hf : filter (fun key => key ∈ all_routes) covered = all_routes ∩ covered)
    by (apply set_eq; intros x; rewrite elem_of_filter, elem_of_intersection; done).
  unfold routes_without_scenario. cbn. rewrite Hf.
  assert (Hsum : size all_routes = size (all_routes ∩ covered) + size (all_routes ∖ covered)).
  { rewrite <- size_union by set_solver. f_equal. apply set_eq. intros x.
    destruct (decide (x ∈ covered)); set_solver. }
  lia.
Qed.

Example pct_two_of_three :
  let s := summarize {["GET /a"; "POST /b"; "GET /c"]} {["GET /a"; "POST /b"; "GET /old"]} 4 2 1 in
  routes_with_scenario s = 2 /\ routes_without_scenario s = 1 /\
  show_f64 (routes_with_scenario_pct s) = "66.66666666666666".
Proof. vm_compute. done. Qed.
