(* ===== verification/Migrations.v ===== *)
(** The migration planner (src/src/migrations.rs): the tables the persistent
    schemas ask for, the operations that bring a known database schema up to
    them, their PostgreSQL text, the report of unsupported changes, and the
    comparison of local with applied migrations.

    [debug_expression] is the derived [Debug] text of a syntax tree, which only
    appears in an error message.  [sha256] gives the digest in hexadecimal. *)
From stdpp Require Import base list strings gmap sorting.
From Stdlib Require Import Lia.
From S2P Require Import Prelude RustStr F64 Errors Ast Schemas SchemaCycle.

(** * Data *)

Record PersistentColumn : Type := mkPersistentColumn {
  pc_field_name : string;
  pc_column_name : string;
  pc_field_type : SchemaType;
  pc_nullable : bool;
  pc_primary : bool;
  pc_generated : bool;
  pc_unique : bool;
  pc_default : option Expression;
}.

Record PersistentForeignKey : Type := mkPersistentForeignKey {
  pfk_field_name : string;
  pfk_column_name : string;
  pfk_references_schema : string;
  pfk_references_table : string;
  pfk_references_column : string;
  pfk_nullable : bool;
}.

Record PersistentTable : Type := mkPersistentTable {
  pt_schema_name : string;
  pt_table_name : string;
  pt_columns : list PersistentColumn;
  pt_foreign_keys : list PersistentForeignKey;
}.

Record DatabaseColumn : Type := mkDatabaseColumn {
  dc_name : string;
  dc_rendered_type : option string;
  dc_nullable : option bool;
}.

Record DatabaseForeignKey : Type := mkDatabaseForeignKey {
  dfk_name : string;
  dfk_column_name : string;
  dfk_references_table : string;
  dfk_references_column : string;
}.

Record DatabaseTable : Type := mkDatabaseTable {
  dt_name : string;
  dt_columns : gmap string DatabaseColumn;
  dt_foreign_keys : gmap string DatabaseForeignKey;
}.

(** [DatabaseSchema], a record with the one field [tables]. *)
Record DatabaseSchema : Type := mkDatabaseSchema {
  db_tables : gmap string DatabaseTable;
}.

(** [DatabaseSchema::default()]. *)
Definition empty_schema : DatabaseSchema := mkDatabaseSchema ∅.

Inductive SchemaDrift : Type :=
| ColumnTypeDiffers (table column history schema : string)
| ColumnNullabilityDiffers (table column : string) (history_nullable schema_nullable : bool)
| ColumnRemoved (table column : string)
| TableRemoved (table : string).

Definition report_line (d : SchemaDrift) : string :=
  let nullability (nullable : bool) := if nullable then "nullable" else "NOT NULL" in
  match d with
  | ColumnTypeDiffers table column history schema =>
      "  " +:+ table +:+ "." +:+ column +:+ ": type differs (history " +:+ history
      +:+ ", schema " +:+ schema +:+ ")"
  | ColumnNullabilityDiffers table column history_nullable schema_nullable =>
      "  " +:+ table +:+ "." +:+ column +:+ ": nullability differs (history "
      +:+ nullability history_nullable +:+ ", schema " +:+ nullability schema_nullable +:+ ")"
  | ColumnRemoved table column =>
      "  " +:+ table +:+ "." +:+ column +:+ ": present in history, no longer in any schema"
  | TableRemoved table =>
      "  " +:+ table +:+ ": present in history, no schema declares it anymore"
  end.

Record LocalMigration : Type := mkLocalMigration {
  lm_version : string;
  lm_name : string;
  lm_up_path : string;
  lm_down_path : option string;
  lm_up_sql : string;
  lm_down_sql : option string;
  lm_checksum : string;
}.

Record AppliedMigration : Type := mkAppliedMigration {
  am_version : string;
  am_name : string;
  am_checksum : string;
  am_applied_at : string;
}.

Record MigrationStatusReport : Type := mkMigrationStatusReport {
  rep_applied : list string;
  rep_pending : list string;
  rep_changed : list string;
  rep_missing_local : list string;
}.

Inductive MigrationState : Type :=
| MSApplied
| MSPending
| MSChanged
| MSMissingLocal.

#[export] Instance MigrationState_eq_dec : EqDecision MigrationState.
Proof. solve_decision. Defined.

(** [MigrationState::as_str]. *)
Definition migration_state_str (s : MigrationState) : string :=
  match s with
  | MSApplied => "applied"
  | MSPending => "pending"
  | MSChanged => "changed"
  | MSMissingLocal => "missing_local"
  end.

Record MigrationListEntry : Type := mkMigrationListEntry {
  ml_version : string;
  ml_name : string;
  ml_state : MigrationState;
}.

Inductive MigrationOp : Type :=
| CreateTable (table_name : string) (columns : list PersistentColumn)
| AddColumn (table_name : string) (column : PersistentColumn)
| AddForeignKey (table_name : string) (foreign_key : PersistentForeignKey).

(** * The tables of the persistent schemas *)

Definition build_primitive_column (field : SchemaField) : PersistentColumn :=
  {| pc_field_name := sf_name field;
     pc_column_name := sf_name field;
     pc_field_type := field_type field;
     pc_nullable := optional field;
     pc_primary := String.eqb (sf_name field) "id";
     pc_generated := String.eqb (sf_name field) "id"
                     && bool_decide (field_type field = IntegerType);
     pc_unique := false;
     pc_default := None |}.

(** The column and the foreign key of a field that references a schema. *)
Definition reference_column (field : SchemaField) : PersistentColumn :=
  {| pc_field_name := sf_name field;
     pc_column_name := sf_name field +:+ "_id";
     pc_field_type := IntegerType;
     pc_nullable := optional field;
     pc_primary := false;
     pc_generated := false;
     pc_unique := false;
     pc_default := None |}.

Definition reference_foreign_key (field : SchemaField) (target_schema target_table : string)
  : PersistentForeignKey :=
  {| pfk_field_name := sf_name field;
     pfk_column_name := sf_name field +:+ "_id";
     pfk_references_schema := target_schema;
     pfk_references_table := target_table;
     pfk_references_column := "id";
     pfk_nullable := optional field |}.

(** The loop over the fields of one schema; [columns] and [foreign_keys] are
    the vectors it fills. *)
Fixpoint build_fields (schemas : gmap string SchemaDefinition) (schema_name : string)
    (fields : list SchemaField) (columns : list PersistentColumn)
    (foreign_keys : list PersistentForeignKey)
  : result MarretaError (list PersistentColumn * list PersistentForeignKey) :=
  match fields with
  | [] => Ok (columns, foreign_keys)
  | field :: fields =>
      match field_type field with
      | StringType | IntegerType | FloatType | DecimalType | BooleanType
      | InstantType | DateType | TimeType | DurationType | IntervalType | EnumType _ =>
          build_fields schemas schema_name fields
            (columns ++ [build_primitive_column field]) foreign_keys
      | Reference target_schema =>
          match schemas !! target_schema with
          | None => Err (InvalidPersistentSchemaDefinition schema_name
                           ("field '" +:+ sf_name field +:+ "' references unknown schema '"
                            +:+ target_schema +:+ "'"))
          | Some target =>
              match db_table target with
              | None => Err (InvalidPersistentSchemaReference schema_name (sf_name field)
                               target_schema)
              | Some target_table =>
                  build_fields schemas schema_name fields
                    (columns ++ [reference_column field])
                    (foreign_keys ++ [reference_foreign_key field target_schema target_table])
              end
          end
      | TypedList _ => build_fields schemas schema_name fields columns foreign_keys
      | other => Err (InvalidPersistentSchemaDefinition schema_name
                        ("field '" +:+ sf_name field +:+ "' uses unsupported persistent type '"
                         +:+ show_schema_type other +:+ "'"))
      end
  end.

(** The loop over the schemas; [tables] is the map it fills. *)
Fixpoint build_tables (schemas : gmap string SchemaDefinition)
    (todo : list (string * SchemaDefinition)) (tables : gmap string PersistentTable)
  : result MarretaError (gmap string PersistentTable) :=
  match todo with
  | [] => Ok tables
  | (schema_name, schema) :: todo =>
      match db_table schema with
      | None => build_tables schemas todo tables
      | Some table_name =>
          '(columns, foreign_keys) ← build_fields schemas schema_name (sd_fields schema) [] [];
          build_tables schemas todo
            (<[schema_name := mkPersistentTable schema_name table_name columns foreign_keys]>
               tables)
      end
  end.

Definition build_persistent_tables `{HashOrder} (schemas : gmap string SchemaDefinition)
  : result MarretaError (gmap string PersistentTable) :=
  _ ← validate_persistent_schema_references schemas;
  build_tables schemas (entries schemas) ∅.

(** * The plan *)

Definition foreign_key_constraint_name (table_name column_name : string) : string :=
  "fk_" +:+ table_name +:+ "_" +:+ column_name.

Definition table_le (a b : PersistentTable) : Prop :=
  string_le (pt_table_name a) (pt_table_name b).
#[export] Instance table_le_dec : RelDecision table_le.
Proof. intros a b. unfold table_le. apply _. Defined.

(** [desired.values()], sorted by table name. *)
Definition sorted_tables `{HashOrder} (desired : gmap string PersistentTable)
  : list PersistentTable :=
  merge_sort table_le (map snd (entries desired)).

(** The three vectors one desired table adds to. *)
Definition create_ops (current : DatabaseSchema) (table : PersistentTable) : list MigrationOp :=
  match db_tables current !! pt_table_name table with
  | None => [CreateTable (pt_table_name table) (pt_columns table)]
  | Some _ => []
  end.

Definition add_column_ops (current : DatabaseSchema) (table : PersistentTable)
  : list MigrationOp :=
  match db_tables current !! pt_table_name table with
  | None => []
  | Some existing =>
      flat_map (fun column =>
        match dt_columns existing !! pc_column_name column with
        | None => [AddColumn (pt_table_name table) column]
        | Some _ => []
        end) (pt_columns table)
  end.

Definition add_fk_ops (current : DatabaseSchema) (table : PersistentTable) : list MigrationOp :=
  match db_tables current !! pt_table_name table with
  | None => map (AddForeignKey (pt_table_name table)) (pt_foreign_keys table)
  | Some existing =>
      flat_map (fun fk =>
        let constraint_name :=
          foreign_key_constraint_name (pt_table_name table) (pfk_column_name fk) in
        match dt_foreign_keys existing !! constraint_name with
        | None => [AddForeignKey (pt_table_name table) fk]
        | Some _ => []
        end) (pt_foreign_keys table)
  end.

Definition plan_migration `{HashOrder} (current : DatabaseSchema)
    (desired : gmap string PersistentTable) : list MigrationOp :=
  let desired_tables := sorted_tables desired in
  flat_map (create_ops current) desired_tables
  ++ flat_map (add_column_ops current) desired_tables
  ++ flat_map (add_fk_ops current) desired_tables.

(** * PostgreSQL text *)

Definition postgres_type (field_type : SchemaType) : result MarretaError string :=
  match field_type with
  | StringType => Ok "TEXT"
  | IntegerType => Ok "BIGINT"
  | FloatType => Ok "DOUBLE PRECISION"
  | DecimalType => Ok "NUMERIC"
  | BooleanType => Ok "BOOLEAN"
  | InstantType => Ok "TIMESTAMPTZ"
  | DateType => Ok "DATE"
  | TimeType => Ok "TIME"
  | DurationType => Ok "BIGINT"
  | IntervalType => Ok "JSONB"
  | EnumType _ => Ok "TEXT"
  | other => Err (RuntimeError ("unsupported postgres type mapping for '"
                                +:+ show_schema_type other +:+ "'") 0 0)
  end.

(** [str::replace(char, &str)]. *)
Fixpoint replace_with (a : Ascii.ascii) (by_ s : string) : string :=
  match s with
  | EmptyString => EmptyString
  | String b s => if Ascii.eqb a b then by_ +:+ replace_with a by_ s
                  else String b (replace_with a by_ s)
  end.
Arguments replace_with _%_char_scope _ _.

Section Render.
Variable debug_expression : Expression -> string.

Definition postgres_default_expr (expr : Expression) : result MarretaError string :=
  let unsupported :=
    Err (RuntimeError ("unsupported default expression '" +:+ debug_expression expr +:+ "'")
           0 0) in
  match expr with
  | EInteger n => Ok (show_Z n)
  | EFloat n => Ok (show_f64 n)
  | EBoolean v => Ok (if v then "true" else "false")
  | EStringLiteral s => Ok ("'" +:+ replace_with "'" "''" s +:+ "'")
  | EIdentifier name => if String.eqb name "now" then Ok "now()" else unsupported
  | _ => unsupported
  end.

Definition render_postgres_column (column : PersistentColumn) : result MarretaError string :=
  type_ ← postgres_type (pc_field_type column);
  let parts := [pc_column_name column; type_]
    ++ (if pc_primary column then ["PRIMARY KEY"] else [])
    ++ (if pc_generated column then ["GENERATED BY DEFAULT AS IDENTITY"] else [])
    ++ (if pc_nullable column then [] else ["NOT NULL"])
    ++ (if pc_unique column then ["UNIQUE"] else []) in
  match pc_default column with
  | None => Ok (join " " parts)
  | Some default =>
      d ← postgres_default_expr default;
      Ok (join " " (parts ++ ["DEFAULT " +:+ d]))
  end.

(** A line break and two spaces of indentation. *)
Definition newline : string := String (byte 10) EmptyString.
Definition indent : string := newline +:+ "  ".

Definition render_postgres_op (op : MigrationOp) : result MarretaError string :=
  match op with
  | CreateTable table_name columns =>
      defs ← collect render_postgres_column columns;
      Ok ("CREATE TABLE " +:+ table_name +:+ " (" +:+ indent +:+ join ("," +:+ indent) defs
          +:+ newline +:+ ");")
  | AddColumn table_name column =>
      def ← render_postgres_column column;
      Ok ("ALTER TABLE " +:+ table_name +:+ " ADD COLUMN " +:+ def +:+ ";")
  | AddForeignKey table_name foreign_key =>
      Ok ("ALTER TABLE " +:+ table_name +:+ " ADD CONSTRAINT "
          +:+ foreign_key_constraint_name table_name (pfk_column_name foreign_key)
          +:+ " FOREIGN KEY (" +:+ pfk_column_name foreign_key +:+ ") REFERENCES "
          +:+ pfk_references_table foreign_key +:+ "("
          +:+ pfk_references_column foreign_key +:+ ");")
  end.

Definition render_postgres_down_op (op : MigrationOp) : result MarretaError string :=
  match op with
  | CreateTable table_name _ => Ok ("DROP TABLE " +:+ table_name +:+ ";")
  | AddColumn table_name column =>
      Ok ("ALTER TABLE " +:+ table_name +:+ " DROP COLUMN " +:+ pc_column_name column +:+ ";")
  | AddForeignKey table_name foreign_key =>
      Ok ("ALTER TABLE " +:+ table_name +:+ " DROP CONSTRAINT "
          +:+ foreign_key_constraint_name table_name (pfk_column_name foreign_key) +:+ ";")
  end.

Definition render_postgres_up_sql (ops : list MigrationOp) : result MarretaError (list string) :=
  collect render_postgres_op ops.

Definition render_postgres_down_sql (ops : list MigrationOp)
  : result MarretaError (list string) :=
  collect render_postgres_down_op (rev ops).

End Render.

Definition default_migration_name (ops : list MigrationOp) : string :=
  match ops with
  | [CreateTable table_name _] => "create_" +:+ table_name
  | [AddColumn table_name _] => "alter_" +:+ table_name
  | [AddForeignKey table_name _] => "alter_" +:+ table_name
  | CreateTable table_name _ :: _ => "update_" +:+ table_name
  | AddColumn table_name _ :: _ => "update_" +:+ table_name
  | AddForeignKey table_name _ :: _ => "update_" +:+ table_name
  | [] => "empty_migration"
  end.

(** [str::ends_with]. *)
Definition ends_with (p s : string) : bool :=
  match strip_suffix p s with Some _ => true | None => false end.

Definition join_sql (statements : list string) : string :=
  let joined := join (newline +:+ newline) statements in
  if ends_with newline joined then joined else joined +:+ newline.

(** * Local and applied migrations *)

(** [iter().map(|m| (key, m)).collect::<HashMap<_, _>>()]: the last entry of
    a key wins. *)
Definition by_key {A} (key : A -> string) (l : list A) : gmap string A :=
  fold_left (fun m x => <[key x := x]> m) l ∅.

(** The versions of both lists, each once, sorted. *)
Definition all_versions (local : list LocalMigration) (applied : list AppliedMigration)
  : list string :=
  sort_strings (elements (list_to_set (C := gset string)
    (map lm_version local ++ map am_version applied))).

Definition inventory_entry (local_by_version : gmap string LocalMigration)
    (applied_by_version : gmap string AppliedMigration) (version : string)
  : option MigrationListEntry :=
  match local_by_version !! version, applied_by_version !! version with
  | Some local, Some applied =>
      if String.eqb (lm_checksum local) (am_checksum applied)
      then Some (mkMigrationListEntry version (lm_name local) MSApplied)
      else Some (mkMigrationListEntry version (lm_name local) MSChanged)
  | Some local, None => Some (mkMigrationListEntry version (lm_name local) MSPending)
  | None, Some applied => Some (mkMigrationListEntry version (am_name applied) MSMissingLocal)
  | None, None => None
  end.

Definition build_migration_inventory (local : list LocalMigration)
    (applied : list AppliedMigration) : list MigrationListEntry :=
  let local_by_version := by_key lm_version local in
  let applied_by_version := by_key am_version applied in
  omap (inventory_entry local_by_version applied_by_version) (all_versions local applied).

(** The formatted entries of one state, in order. *)
Definition entries_in (state : MigrationState) (inventory : list MigrationListEntry)
  : list string :=
  omap (fun entry => if decide (ml_state entry = state)
                     then Some (ml_version entry +:+ "_" +:+ ml_name entry) else None)
    inventory.

Definition compare_migration_state (local : list LocalMigration)
    (applied : list AppliedMigration) : MigrationStatusReport :=
  let inventory := build_migration_inventory local applied in
  {| rep_applied := sort_strings (entries_in MSApplied inventory);
     rep_pending := sort_strings (entries_in MSPending inventory);
     rep_changed := sort_strings (entries_in MSChanged inventory);
     rep_missing_local := sort_strings (entries_in MSMissingLocal inventory) |}.

(** * Names *)

(** The loop of [sanitize_migration_name]: [result] and [last_was_sep]. *)
Fixpoint sanitize_go (cs : list N) (result : list N) (last_was_sep : bool) : list N :=
  match cs with
  | [] => result
  | c :: cs =>
      let normalized := if is_ascii_alphanumeric c then to_ascii_lowercase_char c
                        else ch "_" in
      if (normalized =? ch "_")%N then
        sanitize_go cs (if negb last_was_sep && negb (bool_decide (result = []))
                        then result ++ [ch "_"] else result) true
      else sanitize_go cs (result ++ [normalized]) false
  end.

(** [str::trim_matches(char)]. *)
Definition trim_matches (c : N) (l : list N) : list N :=
  let keep := drop_while (N.eqb c) in rev (keep (rev (keep l))).

Definition sanitize_migration_name (name : string) : string :=
  of_chars (trim_matches (ch "_") (sanitize_go (chars name) [] false)).

(** [str::splitn(3, '_')] with its three parts; [None] when there are fewer. *)
Definition splitn3 (s : string) : option (string * string * string) :=
  match split_once "_" s with
  | None => None
  | Some (a, rest) =>
      match split_once "_" rest with
      | None => None
      | Some (b, c) => Some (a, b, c)
      end
  end.

Definition parse_migration_filename (filename suffix : string)
  : result MarretaError (string * string) :=
  let invalid := Err (IoError ("invalid migration filename '" +:+ filename +:+ "'")) in
  match strip_suffix suffix filename with
  | None => invalid
  | Some stem =>
      match splitn3 stem with
      | Some (day, time, name) =>
          if negb (String.length day =? 8) || negb (String.length time =? 6)
             || String.eqb name EmptyString
          then invalid
          else Ok (day +:+ "_" +:+ time, name)
      | None => invalid
      end
  end.

(** [sha256] is the hexadecimal digest of the bytes given to the hasher. *)
Definition migration_checksum (sha256 : string -> string) (up_sql : string)
    (down_sql : option string) : string :=
  sha256 (up_sql +:+ newline +:+ "-- marreta:down --" +:+ newline +:+ default EmptyString down_sql).
