(* ===== verification/MigrationFiles.v ===== *)
(** The migration files of a project (src/src/migrations.rs): writing a new
    pair, discovering the local pairs and discarding a pending one.

    [Disk] is the content of the migrations directory.  [FileSystem] is what
    the operating system adds: the order of a directory listing is the
    [HashOrder] of the prelude, and [fault] says which calls fail, with the
    text of the error.  An operation returns the disk it leaves behind with
    its result, so a failure half way keeps what was already written. *)
From stdpp Require Import base list strings gmap sorting.
From S2P Require Import Prelude RustStr Errors SchemaCycle Migrations.

Record Disk : Type := mkDisk {
  dir_exists : bool;
  files : gmap string string;
}.

(** The calls of [std::fs] the code makes. *)
Inductive FsCall : Type :=
| FsCreateDir | FsReadDir | FsReadEntry | FsWrite | FsRead | FsRemove.

Class FileSystem : Type := { fault : FsCall -> string -> option string }.

(** A file system whose calls do not fail. *)
Definition no_fault : FileSystem := {| fault _ _ := None |}.

(** [Path::join]. *)
Definition path_join (dir name : string) : string := dir +:+ "/" +:+ name.

(** A call that fails turns into the [IoError] the code makes of it. *)
Definition check_call `{FileSystem} (call : FsCall) (path message : string)
  : result MarretaError unit :=
  match fault call path with
  | Some err => Err (IoError (message +:+ err))
  | None => Ok tt
  end.

Section Files.
Context `{FileSystem} `{HashOrder}.
Variable sha256 : string -> string.
Variable migrations_dir : string.

(** [fs::read_dir]: the file names, in the order of the listing.  The names
    that are not UTF-8 are skipped by every caller and are left out. *)
Definition read_dir (message entry_message : string) (disk : Disk)
  : result MarretaError (list string) :=
  _ ← check_call FsReadDir migrations_dir message;
  collect (fun entry => _ ← check_call FsReadEntry (fst entry) entry_message; Ok (fst entry))
    (entries (files disk)).

(** The loop of [migration_version_exists] returns at the first match, before
    the entries that follow. *)
Fixpoint find_version (prefix : string) (names : list string) : result MarretaError bool :=
  match names with
  | [] => Ok false
  | name :: names =>
      _ ← check_call FsReadEntry name "could not read migrations directory entry: ";
      if starts_with prefix name then Ok true else find_version prefix names
  end.

Definition migration_version_exists (version : string) (disk : Disk)
  : result MarretaError bool :=
  _ ← check_call FsReadDir migrations_dir
        ("could not read migrations directory '" +:+ migrations_dir +:+ "': ");
  find_version (version +:+ "_") (map fst (entries (files disk))).

Definition write_file (name content : string) (disk : Disk) : Disk :=
  mkDisk (dir_exists disk) (<[name := content]> (files disk)).

Definition could_not_write (path : string) : string :=
  "could not write migration '" +:+ path +:+ "': ".

(** [version] is the time of the call, [%Y%m%d_%H%M%S]. *)
Definition write_migration_files (version name : string) (up_sql down_sql : list string)
    (disk : Disk) : Disk * result MarretaError LocalMigration :=
  match check_call FsCreateDir migrations_dir
          ("could not create migrations directory '" +:+ migrations_dir +:+ "': ") with
  | Err e => (disk, Err e)
  | Ok _ =>
      let disk := mkDisk true (files disk) in
      match migration_version_exists version disk with
      | Err e => (disk, Err e)
      | Ok true =>
          (disk, Err (IoError
            ("a migration with version '" +:+ version
             +:+ "' already exists (two 'generate' runs in the same "
             +:+ "second); retry in a moment so the timestamp advances")))
      | Ok false =>
          let sanitized_name := sanitize_migration_name name in
          let base_name := version +:+ "_" +:+ sanitized_name in
          let up_name := base_name +:+ ".up.sql" in
          let down_name := base_name +:+ ".down.sql" in
          let up_path := path_join migrations_dir up_name in
          let down_path := path_join migrations_dir down_name in
          let up_content := join_sql up_sql in
          let down_content := join_sql down_sql in
          match check_call FsWrite up_path (could_not_write up_path) with
          | Err e => (disk, Err e)
          | Ok _ =>
              let disk := write_file up_name up_content disk in
              match check_call FsWrite down_path (could_not_write down_path) with
              | Err e => (disk, Err e)
              | Ok _ =>
                  (write_file down_name down_content disk,
                   Ok {| lm_version := version;
                         lm_name := sanitized_name;
                         lm_up_path := up_path;
                         lm_down_path := Some down_path;
                         lm_checksum :=
                           migration_checksum sha256 up_content (Some down_content);
                         lm_up_sql := up_content;
                         lm_down_sql := Some down_content |})
              end
          end
      end
  end.

(** [fs::read_to_string] of a file of the directory. *)
Definition read_to_string (name content : string) : result MarretaError string :=
  let path := path_join migrations_dir name in
  _ ← check_call FsRead path ("could not read migration '" +:+ path +:+ "': ");
  Ok content.

(** The body of the loop of [discover_local_migrations]. *)
Definition load_migration (disk : Disk) (up_name : string) : result MarretaError LocalMigration :=
  '(version, name) ← parse_migration_filename up_name ".up.sql";
  let down_name := version +:+ "_" +:+ name +:+ ".down.sql" in
  up_sql ← read_to_string up_name (default EmptyString (files disk !! up_name));
  down_sql ← match files disk !! down_name with
             | Some content => d ← read_to_string down_name content; Ok (Some d)
             | None => Ok None
             end;
  Ok {| lm_version := version;
        lm_name := name;
        lm_checksum := migration_checksum sha256 up_sql down_sql;
        lm_up_path := path_join migrations_dir up_name;
        lm_down_path := match files disk !! down_name with
                        | Some _ => Some (path_join migrations_dir down_name)
                        | None => None
                        end;
        lm_up_sql := up_sql;
        lm_down_sql := down_sql |}.

Definition discover_local_migrations (disk : Disk) : result MarretaError (list LocalMigration) :=
  if dir_exists disk then
    names ← read_dir
      ("could not read migrations directory '" +:+ migrations_dir +:+ "': ")
      ("could not read migrations directory entry in '" +:+ migrations_dir +:+ "': ") disk;
    let up_entries := List.filter (ends_with ".up.sql") names in
    collect (load_migration disk) (sort_strings up_entries)
  else Ok [].

(** [Path::exists], on a path of the directory. *)
Definition path_exists (disk : Disk) (path : string) : bool :=
  match strip_prefix (path_join migrations_dir EmptyString) path with
  | Some name => bool_decide (is_Some (files disk !! name))
  | None => false
  end.

Definition remove_file (path : string) (disk : Disk) : Disk * result MarretaError unit :=
  let name := default path (strip_prefix (path_join migrations_dir EmptyString) path) in
  match check_call FsRemove path ("could not remove migration '" +:+ path +:+ "': ") with
  | Err e => (disk, Err e)
  | Ok _ => (mkDisk (dir_exists disk) (delete name (files disk)), Ok tt)
  end.

Definition has_version (version : string) (items : list string) : bool :=
  existsb (starts_with (version +:+ "_")) items.

Definition cannot_discard (version reason : string) : MarretaError :=
  IoError ("cannot discard migration " +:+ version +:+ " because " +:+ reason).

Definition discard_pending_migration (version : string) (local : list LocalMigration)
    (applied : list AppliedMigration) (disk : Disk) : Disk * result MarretaError string :=
  let report := compare_migration_state local applied in
  if has_version version (rep_applied report) then
    (disk, Err (cannot_discard version "it is already applied"))
  else if has_version version (rep_changed report) then
    (disk, Err (cannot_discard version "it is in changed state"))
  else if has_version version (rep_missing_local report) then
    (disk, Err (cannot_discard version "it is in missing_local state"))
  else
    match find (fun m => String.eqb (lm_version m) version) local with
    | None => (disk, Err (IoError ("pending migration " +:+ version
                                   +:+ " was not found locally")))
    | Some migration =>
        let label := lm_version migration +:+ "_" +:+ lm_name migration in
        match lm_down_path migration with
        | None => (disk, Err (cannot_discard label "the down migration file is missing"))
        | Some down_path =>
            if negb (path_exists disk (lm_up_path migration))
               || negb (path_exists disk down_path)
            then (disk, Err (cannot_discard label "the local migration pair is incomplete"))
            else
              match remove_file (lm_up_path migration) disk with
              | (disk, Err e) => (disk, Err e)
              | (disk, Ok _) =>
                  match remove_file down_path disk with
                  | (disk, Err e) => (disk, Err e)
                  | (disk, Ok _) => (disk, Ok label)
                  end
              end
        end
    end.

End Files.
