(* ===== verification/Replay.v ===== *)
(** Deriving a database schema from the text of local migrations
    (src/src/migrations.rs): splitting a script into statements, removing
    comments, reading column definitions, applying the statements one after
    the other, and comparing the result with the schemas of the project.

    The scanners of the code move a byte position over a string.  Here a
    position is the text after it; a skip function gives the number of bytes
    to pass, and [pass] is the number of bytes of the current jump still to
    be copied.  Every cut is beside an ASCII byte, hence on a character
    boundary.  The depth of parentheses is an [i32] in the code, which only a
    text of more than two gigabytes could overflow. *)
From stdpp Require Import base list strings gmap sorting.
From Stdlib Require Import ZArith Lia.
From S2P Require Import Prelude RustStr Errors Ast Schemas SchemaCycle Migrations.

(** [s] with one more byte at its end. *)
Definition snoc (s : string) (a : Ascii.ascii) : string := s +:+ String a EmptyString.

(** The text after the first [n] bytes, and these bytes. *)
Fixpoint str_drop (n : nat) (s : string) : string :=
  match n, s with
  | S n, String _ s => str_drop n s
  | _, _ => s
  end.
Fixpoint str_take (n : nat) (s : string) : string :=
  match n, s with
  | S n, String a s => String a (str_take n s)
  | _, _ => EmptyString
  end.

(** * Skipping literals and comments *)

(** [s] follows the opening quote. *)
Fixpoint skip_single_quoted (s : string) : nat :=
  match s with
  | EmptyString => 0
  | String c s =>
      if Ascii.eqb c "'" then
        match s with
        | String d s' => if Ascii.eqb d "'" then S (S (skip_single_quoted s')) else 1
        | EmptyString => 1
        end
      else S (skip_single_quoted s)
  end.

(** [s] follows the two dashes; the newline is left in place. *)
Fixpoint skip_line_comment (s : string) : nat :=
  match s with
  | EmptyString => 0
  | String c s => if Ascii.eqb c (byte 10) then 0 else S (skip_line_comment s)
  end.

(** [s] follows the slash and the star. *)
Fixpoint skip_block_comment (s : string) : nat :=
  match s with
  | EmptyString => 0
  | String c s =>
      match s with
      | EmptyString => 1
      | String d _ =>
          if Ascii.eqb c "*" && Ascii.eqb d "/" then 2 else S (skip_block_comment s)
      end
  end.

(** The number of bytes of the identifier at the start of [s]. *)
Fixpoint ident_len (s : string) : nat :=
  match s with
  | EmptyString => 0
  | String c s =>
      if is_ascii_alphanumeric (ch c) || Ascii.eqb c "_" then S (ident_len s) else 0
  end.

(** [s] follows the dollar; the length counts both dollars of the tag. *)
Definition dollar_tag_len (s : string) : option nat :=
  match s with
  | EmptyString => None
  | String c rest =>
      if Ascii.eqb c "$" then Some 2
      else if is_ascii_alphabetic (ch c) || Ascii.eqb c "_" then
        let k := S (ident_len rest) in
        match str_drop k s with
        | String d _ => if Ascii.eqb d "$" then Some (k + 2) else None
        | EmptyString => None
        end
      else None
  end.

(** [s] follows the first dollar of a tag of [tag_len] bytes. *)
Definition skip_dollar_quoted (s : string) (tag_len : nat) : nat :=
  let tag := String "$" (str_take (tag_len - 1) s) in
  let body := str_drop (tag_len - 1) s in
  match String.index 0 tag body with
  | Some rel => tag_len - 1 + rel + tag_len
  | None => String.length s
  end.

(** * Splitting *)

(** The loop of [split_sql_statements]: [chunk] is the text since [start]. *)
Fixpoint split_sql (pass : nat) (chunk s : string) : list string :=
  match s with
  | EmptyString => if String.eqb chunk EmptyString then [] else [chunk]
  | String c rest =>
      match pass with
      | S pass => split_sql pass (snoc chunk c) rest
      | 0 =>
          if Ascii.eqb c "'" then split_sql (skip_single_quoted rest) (snoc chunk c) rest
          else if Ascii.eqb c "-" && starts_with "-" rest then
            split_sql (S (skip_line_comment (str_drop 1 rest))) (snoc chunk c) rest
          else if Ascii.eqb c "/" && starts_with "*" rest then
            split_sql (S (skip_block_comment (str_drop 1 rest))) (snoc chunk c) rest
          else if Ascii.eqb c "$" then
            match dollar_tag_len rest with
            | Some tag_len =>
                split_sql (skip_dollar_quoted rest tag_len) (snoc chunk c) rest
            | None => split_sql 0 (snoc chunk c) rest
            end
          else if Ascii.eqb c ";" then chunk :: split_sql 0 EmptyString rest
          else split_sql 0 (snoc chunk c) rest
      end
  end.
Definition split_sql_statements (sql : string) : list string := split_sql 0 EmptyString sql.

(** The loop of [split_column_defs], with its depth of parentheses. *)
Fixpoint split_defs (pass : nat) (depth : Z) (chunk s : string) : list string :=
  match s with
  | EmptyString => if String.eqb chunk EmptyString then [] else [chunk]
  | String c rest =>
      match pass with
      | S pass => split_defs pass depth (snoc chunk c) rest
      | 0 =>
          if Ascii.eqb c "'" then
            split_defs (skip_single_quoted rest) depth (snoc chunk c) rest
          else if Ascii.eqb c "(" then split_defs 0 (depth + 1) (snoc chunk c) rest
          else if Ascii.eqb c ")" then split_defs 0 (depth - 1) (snoc chunk c) rest
          else if Ascii.eqb c "," && (depth =? 0)%Z then
            chunk :: split_defs 0 depth EmptyString rest
          else split_defs 0 depth (snoc chunk c) rest
      end
  end.
Definition split_column_defs (body : string) : list string := split_defs 0 0 EmptyString body.

(** [str::lines]: a final empty line does not count, and a carriage return
    before the newline is not part of the line. *)
Definition drop_cr (line : string) : string :=
  default line (strip_suffix (String (byte 13) EmptyString) line).
Fixpoint lines_of (pieces : list string) : list string :=
  match pieces with
  | [] => []
  | [final] => if String.eqb final EmptyString then [] else [final]
  | line :: pieces => drop_cr line :: lines_of pieces
  end.
Definition lines (s : string) : list string := lines_of (split_on (byte 10) s).

Definition REPLAY_SKIP_MARKER : string := "-- marreta: skip-replay".

Definition chunk_has_skip_marker (chunk : string) : bool :=
  existsb (fun line => String.eqb (trim line) REPLAY_SKIP_MARKER) (lines chunk).

(** The loop of [strip_sql_comments]; [keep] tells whether the bytes of the
    current jump are kept. *)
Fixpoint strip_comments (pass : nat) (keep : bool) (s : string) : string :=
  match s with
  | EmptyString => EmptyString
  | String c rest =>
      match pass with
      | S pass => if keep then String c (strip_comments pass keep rest)
                  else strip_comments pass keep rest
      | 0 =>
          if Ascii.eqb c "'" then
            String c (strip_comments (skip_single_quoted rest) true rest)
          else match (if Ascii.eqb c "$" then dollar_tag_len rest else None) with
          | Some tag_len =>
              String c (strip_comments (skip_dollar_quoted rest tag_len) true rest)
          | None =>
              if Ascii.eqb c "-" && starts_with "-" rest then
                strip_comments (S (skip_line_comment (str_drop 1 rest))) false rest
              else if Ascii.eqb c "/" && starts_with "*" rest then
                strip_comments (S (skip_block_comment (str_drop 1 rest))) false rest
              else String c (strip_comments 0 true rest)
          end
      end
  end.
Definition strip_sql_comments (sql : string) : string := strip_comments 0 true sql.

(** The loop of [blank_string_literals]. *)
Fixpoint blank_literals (pass : nat) (s : string) : string :=
  match s with
  | EmptyString => EmptyString
  | String c rest =>
      match pass with
      | S pass => blank_literals pass rest
      | 0 => if Ascii.eqb c "'" then String " " (blank_literals (skip_single_quoted rest) rest)
             else String c (blank_literals 0 rest)
      end
  end.
Definition blank_string_literals (fragment : string) : string := blank_literals 0 fragment.

(** * Keywords *)

Definition ascii_eq_ci (a b : Ascii.ascii) : bool :=
  (to_ascii_lowercase_char (ch a) =? to_ascii_lowercase_char (ch b))%N.

(** [str::eq_ignore_ascii_case]. *)
Definition eq_ignore_ascii_case (a b : string) : bool :=
  String.eqb (to_ascii_lowercase a) (to_ascii_lowercase b).

Fixpoint strip_keyword_ci (stmt keyword : string) : option string :=
  match keyword, stmt with
  | EmptyString, _ => Some stmt
  | String k keyword, String a stmt =>
      if ascii_eq_ci a k then strip_keyword_ci stmt keyword else None
  | String _ _, EmptyString => None
  end.

Definition AUTO_TOLERATED_PREFIXES : list string :=
  ["CREATE INDEX"; "CREATE UNIQUE INDEX"; "DROP INDEX"; "INSERT"; "UPDATE"; "DELETE"; "WITH"].

Definition is_auto_tolerated (upper_stmt : string) : bool :=
  existsb (fun prefix =>
    String.eqb upper_stmt prefix
    || match strip_prefix prefix upper_stmt with
       | Some rest => match chars rest with
                      | c :: _ => is_whitespace c || (c =? ch "(")%N
                      | [] => false
                      end
       | None => false
       end) AUTO_TOLERATED_PREFIXES.

Definition collapse_whitespace (text : string) : string := join " " (split_whitespace text).

Definition local_migration_parse_error (migration : LocalMigration) (detail : string)
  : MarretaError :=
  IoError ("could not derive schema from local migration " +:+ lm_version migration +:+ "_"
           +:+ lm_name migration +:+ ": " +:+ detail).

Definition rejected_ddl_error (migration : LocalMigration) (statement : string) : MarretaError :=
  local_migration_parse_error migration
    ("unsupported statement '" +:+ collapse_whitespace statement
     +:+ "'. The replay derives schema state from generated DDL, and "
     +:+ "this statement changes columns in a way it cannot derive. Either rewrite the change "
     +:+ "as a schema edit plus a generated migration, or, if the statement is actually "
     +:+ "schema-neutral, put a line '" +:+ REPLAY_SKIP_MARKER
     +:+ "' before it to skip it during derivation.").

(** * Column definitions *)

Definition TYPE_TERMINATORS : list string :=
  ["PRIMARY"; "GENERATED"; "NOT"; "NULL"; "DEFAULT"; "UNIQUE"; "REFERENCES"; "CHECK"; "COLLATE"].

(** [u8::is_ascii_whitespace]. *)
Definition is_ascii_whitespace (c : N) : bool :=
  (c =? 32)%N || (c =? 9)%N || (c =? 10)%N || (c =? 12)%N || (c =? 13)%N.

(** The loop of [tokenize_paren_aware]; [token] is the text since [start],
    when there is one. *)
Fixpoint tokenize_parens (depth : Z) (token : option string) (s : string) : list string :=
  match s with
  | EmptyString => match token with Some t => [t] | None => [] end
  | String c rest =>
      let extended := Some (snoc (default EmptyString token) c) in
      if Ascii.eqb c "(" then tokenize_parens (depth + 1) extended rest
      else if Ascii.eqb c ")" then
        tokenize_parens (depth - 1) (match token with Some _ => extended | None => None end) rest
      else if (depth =? 0)%Z && is_ascii_whitespace (ch c) then
        match token with
        | Some t => t :: tokenize_parens depth None rest
        | None => tokenize_parens depth None rest
        end
      else tokenize_parens depth extended rest
  end.
Definition tokenize_paren_aware (s : string) : list string := tokenize_parens 0 None s.

(** The tokens before the first terminator. *)
Fixpoint type_span (tokens : list string) : list string :=
  match tokens with
  | [] => []
  | token :: tokens =>
      if existsb (eq_ignore_ascii_case token) TYPE_TERMINATORS then []
      else token :: type_span tokens
  end.

Definition capture_type_and_nullability (after_name : string) : option string * option bool :=
  match type_span (tokenize_paren_aware after_name) with
  | [] => (None, None)
  | type_tokens =>
      let modifiers := to_ascii_uppercase (blank_string_literals after_name) in
      let nullable := negb (str_contains "NOT NULL" modifiers
                            || str_contains "PRIMARY KEY" modifiers) in
      (Some (join " " type_tokens), Some nullable)
  end.

Definition normalize_pg_type (rendered : string) : string :=
  let collapsed := to_ascii_lowercase (collapse_whitespace rendered) in
  if bool_decide (collapsed ∈ ["int8"; "bigint"]) then "bigint"
  else if bool_decide (collapsed ∈ ["float8"; "double precision"]) then "double precision"
  else if bool_decide (collapsed ∈ ["bool"; "boolean"]) then "boolean"
  else if bool_decide (collapsed ∈ ["timestamptz"; "timestamp with time zone"])
       then "timestamptz"
  else if bool_decide (collapsed ∈ ["decimal"; "numeric"]) then "numeric"
  else collapsed.

(** * Statements *)

(** [str::split_once(char::is_whitespace)]. *)
Fixpoint split_once_chars (p : N -> bool) (l : list N) : option (list N * list N) :=
  match l with
  | [] => None
  | c :: l => if p c then Some ([], l)
              else match split_once_chars p l with
                   | Some (a, b) => Some (c :: a, b)
                   | None => None
                   end
  end.
Definition split_once_whitespace (s : string) : option (string * string) :=
  match split_once_chars is_whitespace (chars s) with
  | Some (a, b) => Some (of_chars a, of_chars b)
  | None => None
  end.

(** [str::trim_end_matches(char)]. *)
Definition trim_end_matches (a : Ascii.ascii) (s : string) : string :=
  of_chars (rev (drop_while (N.eqb (ch a)) (rev (chars s)))).
Arguments trim_end_matches _%_char_scope _.

(** [str::find(char)] for an ASCII character. *)
Fixpoint find_char (a : Ascii.ascii) (s : string) : option nat :=
  match s with
  | EmptyString => None
  | String b s => if Ascii.eqb a b then Some 0 else S <$> find_char a s
  end.
Arguments find_char _%_char_scope _.

(** [&s[from..to]], which panics unless [from <= to <= s.len()]. *)
Definition slice {E} (s : string) (from to : nat) : outcome E string :=
  if (from <=? to) && (to <=? String.length s) then Done (str_take (to - from) (str_drop from s))
  else Panics.

(** [str::split_once(&str)]. *)
Fixpoint split_once_str (sep s : string) : option (string * string) :=
  match strip_prefix sep s with
  | Some rest => Some (EmptyString, rest)
  | None => match s with
            | EmptyString => None
            | String a s => match split_once_str sep s with
                            | Some (l, r) => Some (String a l, r)
                            | None => None
                            end
            end
  end.

Definition CONSTRAINT_LEADS : list string :=
  ["CONSTRAINT"; "PRIMARY KEY"; "FOREIGN KEY"; "UNIQUE"; "CHECK"; "EXCLUDE"].

Definition is_table_level_constraint (def : string) : bool :=
  let upper := to_ascii_uppercase def in
  existsb (fun lead => String.eqb upper lead || starts_with (lead +:+ " ") upper
                       || starts_with (lead +:+ "(") upper) CONSTRAINT_LEADS.

Definition could_not_parse (migration_version detail : string) : MarretaError :=
  IoError ("could not parse local migration " +:+ migration_version +:+ ": " +:+ detail).

(** The column a definition declares, [None] for an empty definition or a
    constraint of the table. *)
Definition replayed_column (column_name after_name : string) : DatabaseColumn :=
  let '(rendered_type, nullable) := capture_type_and_nullability after_name in
  mkDatabaseColumn column_name rendered_type nullable.

(** The loop over the definitions of a table; [columns] is the map it fills. *)
Fixpoint apply_column_defs (migration_version : string) (defs : list string)
    (columns : gmap string DatabaseColumn) : result MarretaError (gmap string DatabaseColumn) :=
  match defs with
  | [] => Ok columns
  | raw_def :: defs =>
      let def := trim (trim_end_matches "," (trim raw_def)) in
      if String.eqb def EmptyString then apply_column_defs migration_version defs columns
      else if is_table_level_constraint def then apply_column_defs migration_version defs columns
      else match split_once_whitespace def with
           | Some (column_name, after_name) =>
               apply_column_defs migration_version defs
                 (<[column_name := replayed_column column_name after_name]> columns)
           | None => Err (could_not_parse migration_version
                            ("invalid column definition '" +:+ def +:+ "'"))
           end
  end.

Definition insert_table (schema : DatabaseSchema) (table : DatabaseTable) : DatabaseSchema :=
  mkDatabaseSchema (<[dt_name table := table]> (db_tables schema)).

Definition apply_create_table_stmt (schema : DatabaseSchema) (rest migration_version : string)
  : result MarretaError DatabaseSchema :=
  match split_once "(" rest with
  | None => Err (could_not_parse migration_version "CREATE TABLE missing '('")
  | Some (before, after) =>
      let table_name := trim before in
      match strip_suffix ")" (trim after) with
      | None => Err (could_not_parse migration_version "CREATE TABLE missing closing ')'")
      | Some body =>
          columns ← apply_column_defs migration_version (split_column_defs body) ∅;
          Ok (insert_table schema (mkDatabaseTable table_name columns ∅))
      end
  end.

(** The entry of the table, created when it is missing. *)
Definition alter_table_entry (schema : DatabaseSchema) (table_name : string) : DatabaseTable :=
  default (mkDatabaseTable table_name ∅ ∅) (db_tables schema !! table_name).

(** [schema.tables] with the changed entry of the table. *)
Definition set_table (schema : DatabaseSchema) (table_name : string) (table : DatabaseTable)
  : DatabaseSchema :=
  mkDatabaseSchema (<[table_name := table]> (db_tables schema)).

(** The text of [ADD CONSTRAINT] after the keyword. *)
Definition parse_foreign_key (migration_version fk_def : string)
  : outcome MarretaError DatabaseForeignKey :=
  let fails detail := Fails (could_not_parse migration_version detail) in
  match split_once_str " FOREIGN KEY " fk_def with
  | None => fails ("invalid ADD CONSTRAINT '" +:+ fk_def +:+ "'")
  | Some (constraint_name, fk_rest) =>
      match find_char "(" fk_rest with
      | None => fails "foreign key missing '('"
      | Some open =>
          match find_char ")" fk_rest with
          | None => fails "foreign key missing ')'"
          | Some close =>
              column_name ← slice fk_rest (open + 1) close;
              match strip_prefix "REFERENCES " (trim (str_drop (close + 1) fk_rest)) with
              | None => fails "foreign key missing REFERENCES"
              | Some refs =>
                  match find_char "(" refs with
                  | None => fails "references missing '('"
                  | Some refs_open =>
                      match find_char ")" refs with
                      | None => fails "references missing ')'"
                      | Some refs_close =>
                          references_column ← slice refs (refs_open + 1) refs_close;
                          Done {| dfk_name := trim constraint_name;
                                  dfk_column_name := trim column_name;
                                  dfk_references_table := trim (str_take refs_open refs);
                                  dfk_references_column := trim references_column |}
                      end
                  end
              end
          end
      end
  end.

Definition apply_alter_table_stmt (schema : DatabaseSchema) (migration : LocalMigration)
    (stmt rest : string) : outcome MarretaError DatabaseSchema :=
  match split_once " " rest with
  | None => Fails (could_not_parse (lm_version migration)
                     ("invalid ALTER TABLE '" +:+ rest +:+ "'"))
  | Some (table_name, remainder) =>
      match strip_keyword_ci remainder "ADD COLUMN " with
      | Some column_def =>
          match split_once_whitespace column_def with
          | None => Fails (could_not_parse (lm_version migration)
                             ("invalid ADD COLUMN '" +:+ column_def +:+ "'"))
          | Some (column_name, after_name) =>
              let table := alter_table_entry schema table_name in
              Done (set_table schema table_name
                (mkDatabaseTable (dt_name table)
                  (<[column_name := replayed_column column_name after_name]> (dt_columns table))
                  (dt_foreign_keys table)))
          end
      | None =>
          match strip_keyword_ci remainder "ADD CONSTRAINT " with
          | Some fk_def =>
              let table := alter_table_entry schema table_name in
              fk ← parse_foreign_key (lm_version migration) fk_def;
              Done (set_table schema table_name
                (mkDatabaseTable (dt_name table) (dt_columns table)
                  (<[dfk_name fk := fk]> (dt_foreign_keys table))))
          | None => Fails (rejected_ddl_error migration stmt)
          end
      end
  end.

(** The body of the loop over the statements of a migration. *)
Definition apply_statement (schema : DatabaseSchema) (migration : LocalMigration)
    (raw_stmt : string) : outcome MarretaError DatabaseSchema :=
  let skip_marked := chunk_has_skip_marker raw_stmt in
  let stmt := trim (strip_sql_comments raw_stmt) in
  if String.eqb stmt EmptyString then Done schema
  else if skip_marked then Done schema
  else match strip_keyword_ci stmt "CREATE TABLE " with
  | Some rest => of_result (apply_create_table_stmt schema rest (lm_version migration))
  | None =>
      match strip_keyword_ci stmt "ALTER TABLE " with
      | Some rest => apply_alter_table_stmt schema migration stmt rest
      | None =>
          if is_auto_tolerated (to_ascii_uppercase stmt) then Done schema
          else Fails (rejected_ddl_error migration stmt)
      end
  end.

(** A loop that threads a state through fallible steps. *)
Fixpoint fold_outcome {E A S} (f : S -> A -> outcome E S) (l : list A) (s : S) : outcome E S :=
  match l with
  | [] => Done s
  | x :: l => s ← f s x; fold_outcome f l s
  end.

Definition apply_local_migration_to_schema (schema : DatabaseSchema) (migration : LocalMigration)
  : outcome MarretaError DatabaseSchema :=
  fold_outcome (fun schema => apply_statement schema migration)
    (split_sql_statements (lm_up_sql migration)) schema.

Definition build_schema_from_local_migrations (local : list LocalMigration)
  : outcome MarretaError DatabaseSchema :=
  fold_outcome apply_local_migration_to_schema local empty_schema.

(** * Drift *)

(** The unsupported changes of one column of the history. *)
Definition column_drift (table_name : string) (desired_cols : gmap string PersistentColumn)
    (col_name : string) (history_col : DatabaseColumn) : list SchemaDrift :=
  match desired_cols !! col_name with
  | None => [ColumnRemoved table_name col_name]
  | Some desired_col =>
      match dc_rendered_type history_col, postgres_type (pc_field_type desired_col) with
      | Some history_type, Ok desired_type =>
          if String.eqb (normalize_pg_type history_type) (normalize_pg_type desired_type) then []
          else [ColumnTypeDiffers table_name col_name history_type desired_type]
      | _, _ => []
      end
      ++
      match dc_nullable history_col with
      | Some history_nullable =>
          let schema_nullable := pc_nullable desired_col && negb (pc_primary desired_col) in
          if Bool.eqb history_nullable schema_nullable then []
          else [ColumnNullabilityDiffers table_name col_name history_nullable schema_nullable]
      | None => []
      end
  end.

(** The keys of a map, sorted. *)
Definition sorted_keys {A} (m : gmap string A) : list string :=
  sort_strings (map fst (map_to_list m)).

Definition table_drift (desired_by_table : gmap string PersistentTable) (table_name : string)
    (current_table : DatabaseTable) : list SchemaDrift :=
  match desired_by_table !! table_name with
  | None => [TableRemoved table_name]
  | Some desired_table =>
      let desired_cols := by_key pc_column_name (pt_columns desired_table) in
      flat_map (fun col_name =>
        match dt_columns current_table !! col_name with
        | Some history_col => column_drift table_name desired_cols col_name history_col
        | None => []
        end) (sorted_keys (dt_columns current_table))
  end.

Definition detect_schema_drift `{HashOrder} (current : DatabaseSchema)
    (desired : gmap string PersistentTable) : list SchemaDrift :=
  let desired_by_table := by_key pt_table_name (map snd (entries desired)) in
  flat_map (fun table_name =>
    match db_tables current !! table_name with
    | Some current_table => table_drift desired_by_table table_name current_table
    | None => []
    end) (sorted_keys (db_tables current)).
