(* ===== verification/PlanFacts.v ===== *)
(** The planner against an abstract specification.  [apply_op] is the effect
    of an operation on a database schema.  Applied to the schema it was
    planned for, a plan leads to a schema for which nothing is left to plan
    and whose unsupported changes are those there were before. *)
From stdpp Require Import base list strings gmap sorting.
From Stdlib Require Import ZArith Lia.
From S2P Require Import Prelude RustStr Errors Ast Schemas SchemaCycle Migrations Replay.

(** * The effect of an operation *)

Definition db_column (column : PersistentColumn) : DatabaseColumn :=
  {| dc_name := pc_column_name column;
     dc_rendered_type := match postgres_type (pc_field_type column) with
                         | Ok t => Some t | Err _ => None end;
     dc_nullable := Some (pc_nullable column && negb (pc_primary column)) |}.

Definition add_columns (columns : list PersistentColumn) (m : gmap string DatabaseColumn)
  : gmap string DatabaseColumn :=
  fold_left (fun m column => <[pc_column_name column := db_column column]> m) columns m.

Definition db_foreign_key (table_name : string) (fk : PersistentForeignKey)
  : DatabaseForeignKey :=
  {| dfk_name := foreign_key_constraint_name table_name (pfk_column_name fk);
     dfk_column_name := pfk_column_name fk;
     dfk_references_table := pfk_references_table fk;
     dfk_references_column := pfk_references_column fk |}.

(** The operation on the entry of its table. *)
Definition apply_table (entry : option DatabaseTable) (op : MigrationOp) : option DatabaseTable :=
  match op with
  | CreateTable table_name columns => Some (mkDatabaseTable table_name (add_columns columns ∅) ∅)
  | AddColumn table_name column =>
      let table := default (mkDatabaseTable table_name ∅ ∅) entry in
      Some (mkDatabaseTable (dt_name table) (add_columns [column] (dt_columns table))
              (dt_foreign_keys table))
  | AddForeignKey table_name fk =>
      let table := default (mkDatabaseTable table_name ∅ ∅) entry in
      let fk := db_foreign_key table_name fk in
      Some (mkDatabaseTable (dt_name table) (dt_columns table)
              (<[dfk_name fk := fk]> (dt_foreign_keys table)))
  end.

Definition op_table (op : MigrationOp) : string :=
  match op with
  | CreateTable table_name _ | AddColumn table_name _ | AddForeignKey table_name _ => table_name
  end.

Definition apply_op (schema : DatabaseSchema) (op : MigrationOp) : DatabaseSchema :=
  mkDatabaseSchema
    (partial_alter (fun entry => apply_table entry op) (op_table op) (db_tables schema)).

Definition apply_ops (schema : DatabaseSchema) (ops : list MigrationOp) : DatabaseSchema :=
  fold_left apply_op ops schema.

(** * One table at a time *)

Definition on_table (table_name : string) (op : MigrationOp) : Prop := op_table op = table_name.
#[export] Instance on_table_dec table_name op : Decision (on_table table_name op).
Proof. unfold on_table. apply _. Defined.

Lemma apply_ops_lookup ops schema t :
  db_tables (apply_ops schema ops) !! t
  = fold_left apply_table (filter (on_table t) ops) (db_tables schema !! t).
Proof.
  revert schema. induction ops as [|op ops IH]; intros schema; [done |].
  cbn [apply_ops fold_left]. fold (apply_ops (apply_op schema op) ops).
  rewrite IH, filter_cons. cbn. case_decide as H; unfold on_table in H.
  - subst t. by rewrite lookup_partial_alter_eq.
  - by rewrite lookup_partial_alter_ne.
Qed.

Lemma filter_all {A} (P : A -> Prop) `{!forall x, Decision (P x)} l :
  Forall P l -> filter P l = l.
Proof. induction 1 as [|x l Hx _ IH]; [done |]. by rewrite filter_cons_True, IH. Qed.

Lemma filter_none {A} (P : A -> Prop) `{!forall x, Decision (P x)} l :
  Forall (fun x => ~ P x) l -> filter P l = [].
Proof. induction 1 as [|x l Hx _ IH]; [done |]. by rewrite filter_cons_False. Qed.

(** The part of a concatenation that belongs to one of its elements, when
    every piece carries the key of its element and keys are not repeated. *)
Lemma filter_flat_map {A} (f : A -> list MigrationOp) (key : A -> string) (l : list A) (x : A) :
  (forall y, Forall (on_table (key y)) (f y)) -> NoDup (map key l) -> x ∈ l ->
  filter (on_table (key x)) (flat_map f l) = f x.
Proof.
  intros Hkey. induction l as [|y l IH]; [by intros _ ?%not_elem_of_nil |].
  cbn. intros [Hy Hl]%NoDup_cons Hx. rewrite filter_app. apply elem_of_cons in Hx as [->|Hx].
  - rewrite filter_all by apply Hkey. rewrite filter_none; [apply app_nil_r |].
    rewrite Forall_forall. intros op (z & Hz & Hop)%elem_of_flat_map Heq.
    specialize (Hkey z). rewrite Forall_forall in Hkey.
    apply Hy. apply list_elem_of_fmap. exists z. split; [| done].
    rewrite <- (Hkey op Hop). by symmetry.
  - rewrite (filter_none (on_table (key x)) (f y)); [by apply IH |].
    specialize (Hkey y). rewrite Forall_forall in *. intros op Hop Heq. apply Hy.
    apply list_elem_of_fmap. exists x. split; [| done].
    by rewrite <- (Hkey op Hop).
Qed.

Lemma filter_flat_map_none {A} (f : A -> list MigrationOp) (key : A -> string) l t :
  (forall y, Forall (on_table (key y)) (f y)) -> t ∉ map key l ->
  filter (on_table t) (flat_map f l) = [].
Proof.
  intros Hkey Ht. apply filter_none. rewrite Forall_forall.
  intros op (z & Hz & Hop)%elem_of_flat_map Heq. specialize (Hkey z).
  rewrite Forall_forall in Hkey. apply Ht. apply list_elem_of_fmap. exists z.
  split; [| done]. rewrite <- (Hkey op Hop). by symmetry.
Qed.

(** * The operations planned for a table *)

Lemma create_ops_table current table :
  Forall (on_table (pt_table_name table)) (create_ops current table).
Proof. unfold create_ops. destruct (_ !! _); repeat constructor. Qed.

Lemma add_column_ops_table current table :
  Forall (on_table (pt_table_name table)) (add_column_ops current table).
Proof.
  unfold add_column_ops. destruct (_ !! _); [| constructor]. rewrite Forall_forall.
  intros op (c & _ & Hop)%elem_of_flat_map. destruct (_ !! _); [by apply not_elem_of_nil in Hop |].
  by apply list_elem_of_singleton in Hop as ->.
Qed.

Lemma add_fk_ops_table current table :
  Forall (on_table (pt_table_name table)) (add_fk_ops current table).
Proof.
  unfold add_fk_ops. destruct (_ !! _); rewrite Forall_forall; intros op Hop.
  - apply elem_of_flat_map in Hop as (fk & _ & Hop).
    destruct (_ !! _); [by apply not_elem_of_nil in Hop |].
    by apply list_elem_of_singleton in Hop as ->.
  - by apply list_elem_of_fmap in Hop as (fk & -> & _).
Qed.

Section Plan.
Context `{HashOrder}.

(** No two persistent schemas share a table. *)
Definition distinct_tables (desired : gmap string PersistentTable) : Prop :=
  NoDup (map (fun e => pt_table_name (snd e)) (map_to_list desired)).

Definition is_desired (desired : gmap string PersistentTable) (table : PersistentTable) : Prop :=
  exists schema_name, desired !! schema_name = Some table.

Lemma elem_of_sorted_tables desired table :
  table ∈ sorted_tables desired <-> is_desired desired table.
Proof.
  unfold sorted_tables, is_desired. rewrite merge_sort_Permutation, list_elem_of_fmap.
  split.
  - intros ([k v] & -> & Hin). exists k. by apply elem_of_entries.
  - intros (k & Hk). exists (k, table). split; [done |]. by apply elem_of_entries.
Qed.

Lemma sorted_tables_NoDup desired :
  distinct_tables desired -> NoDup (map pt_table_name (sorted_tables desired)).
Proof.
  unfold distinct_tables, sorted_tables. intros Hnd.
  change (map ?f ?l) with (f <$> l) in *.
  rewrite (fmap_Permutation _ _ _ (merge_sort_Permutation _ _)), <- list_fmap_compose.
  by rewrite entries_perm.
Qed.

Lemma plan_on_table current desired table :
  distinct_tables desired -> is_desired desired table ->
  filter (on_table (pt_table_name table)) (plan_migration current desired)
  = create_ops current table ++ add_column_ops current table ++ add_fk_ops current table.
Proof.
  intros Hnd Hin. apply sorted_tables_NoDup in Hnd. apply elem_of_sorted_tables in Hin.
  unfold plan_migration. rewrite !filter_app.
  rewrite !(filter_flat_map _ pt_table_name); auto using create_ops_table, add_column_ops_table,
    add_fk_ops_table.
Qed.

Lemma plan_off_table current desired t :
  (forall table, is_desired desired table -> pt_table_name table <> t) ->
  filter (on_table t) (plan_migration current desired) = [].
Proof.
  intros Hne. unfold plan_migration. rewrite !filter_app.
  assert (Ht : t ∉ map pt_table_name (sorted_tables desired)).
  { intros (table & -> & Hin)%list_elem_of_fmap. apply (Hne table); [| done].
    by apply elem_of_sorted_tables. }
  by rewrite !(filter_flat_map_none _ pt_table_name) by
    auto using create_ops_table, add_column_ops_table, add_fk_ops_table.
Qed.

End Plan.

(** * Maps that collect a list *)

Lemma by_key_lookup {A} (key : A -> string) l k :
  by_key key l !! k = last (filter (fun x => key x = k) l).
Proof.
  unfold by_key. induction l as [|x l IH] using rev_ind; [done |].
  rewrite fold_left_app, filter_app. cbn [fold_left]. rewrite filter_cons, filter_nil.
  case_decide as Hk.
  - subst k. by rewrite lookup_insert_eq, last_snoc.
  - by rewrite lookup_insert_ne, app_nil_r.
Qed.

Lemma by_key_unique {A} (key : A -> string) l x :
  NoDup (map key l) -> x ∈ l -> by_key key l !! key x = Some x.
Proof.
  intros Hnd Hx. rewrite by_key_lookup.
  assert (H : filter (fun y => key y = key x) l = [x]); [| by rewrite H].
  induction l as [|y l IH]; [by apply not_elem_of_nil in Hx |].
  cbn in Hnd. apply NoDup_cons in Hnd as [Hy Hnd]. apply elem_of_cons in Hx as [<-|Hx].
  - rewrite filter_cons_True by done. f_equal. apply filter_none, Forall_forall.
    intros z Hz Heq. apply Hy, list_elem_of_fmap. by exists z.
  - rewrite filter_cons_False; [auto |]. intros Heq. apply Hy, list_elem_of_fmap. by exists x.
Qed.

Lemma add_columns_lookup columns m k :
  add_columns columns m !! k
  = match last (filter (fun c => pc_column_name c = k) columns) with
    | Some column => Some (db_column column)
    | None => m !! k
    end.
Proof.
  unfold add_columns. induction columns as [|c l IH] using rev_ind; [done |].
  rewrite fold_left_app, filter_app. cbn [fold_left]. rewrite filter_cons, filter_nil.
  case_decide as Hk.
  - subst k. by rewrite lookup_insert_eq, last_snoc.
  - by rewrite lookup_insert_ne, app_nil_r.
Qed.

Lemma last_filter_None {A} (P : A -> Prop) `{!forall x, Decision (P x)} l x :
  last (filter P l) = None -> x ∈ l -> ~ P x.
Proof.
  intros Hl%last_None Hx HP. apply (not_elem_of_nil x). rewrite <- Hl.
  by apply list_elem_of_filter.
Qed.

Lemma flat_map_missing {A B} (key : A -> string) (m : gmap string B) (g : A -> MigrationOp) l :
  flat_map (fun x => match m !! key x with None => [g x] | Some _ => [] end) l
  = map g (filter (fun x => m !! key x = None) l).
Proof.
  induction l as [|x l IH]; [done |]. cbn [flat_map]. rewrite IH, filter_cons.
  destruct (m !! key x) eqn:E; case_decide; congruence || done.
Qed.

Lemma sorted_keys_spec {A} (m : gmap string A) :
  StronglySorted string_le (sorted_keys m) /\ NoDup (sorted_keys m)
  /\ forall k, k ∈ sorted_keys m <-> is_Some (m !! k).
Proof.
  unfold sorted_keys, sort_strings. split; [| split].
  - apply Sorted_StronglySorted; [apply _ | apply Sorted_merge_sort; apply _].
  - rewrite merge_sort_Permutation. apply NoDup_fst_map_to_list.
  - intros k. rewrite merge_sort_Permutation, list_elem_of_fmap. split.
    + intros ([k' v] & -> & Hin). exists v. by apply elem_of_map_to_list.
    + intros (v & Hv). exists (k, v). split; [done |]. by apply elem_of_map_to_list.
Qed.

(** Keys that contribute nothing can be left out. *)
Lemma flat_map_keys {A B} (m : gmap string A) (m' : gmap string A) (f f' : string -> list B) :
  (forall k, is_Some (m !! k) -> is_Some (m' !! k) /\ f' k = f k) ->
  (forall k, is_Some (m' !! k) -> m !! k = None -> f' k = []) ->
  flat_map f' (sorted_keys m') = flat_map f (sorted_keys m).
Proof.
  intros Hin Hout. destruct (sorted_keys_spec m) as (S1 & N1 & E1), (sorted_keys_spec m') as (S2 & N2 & E2).
  assert (Hkeys : filter (fun k => is_Some (m !! k)) (sorted_keys m') = sorted_keys m).
  { apply (StronglySorted_unique string_le); [| done |].
    - clear -S2. induction S2 as [|k l Hl IH Hk]; [constructor |]. rewrite filter_cons.
      case_decide; [| done]. constructor; [done |]. rewrite Forall_forall in *.
      intros x [_ Hx]%list_elem_of_filter. auto.
    - apply NoDup_Permutation; [by apply NoDup_filter | done |].
      intros k. rewrite list_elem_of_filter, E1, E2. split; [by intros [? _] |].
      intros Hk. split; [done |]. by apply Hin. }
  rewrite <- Hkeys. clear Hkeys S2 N2. revert E2. generalize (sorted_keys m'). intros l El.
  assert (Hl : Forall (fun k => is_Some (m' !! k)) l) by (rewrite Forall_forall; intros; by apply El).
  clear El. induction Hl as [|k l Hk _ IH]; [done |]. rewrite filter_cons.
  cbn [flat_map]. rewrite IH. case_decide as Hm.
  - cbn [flat_map]. by rewrite (proj2 (Hin k Hm)).
  - by rewrite Hout by (done || by apply eq_None_not_Some).
Qed.

(** * What a plan leads to *)

(** The entry of a table before the plan, an empty one when it is new. *)
Definition old_columns (current : DatabaseSchema) (t : string) : gmap string DatabaseColumn :=
  match db_tables current !! t with Some table => dt_columns table | None => ∅ end.
Definition old_foreign_keys (current : DatabaseSchema) (t : string)
  : gmap string DatabaseForeignKey :=
  match db_tables current !! t with Some table => dt_foreign_keys table | None => ∅ end.

Definition missing_columns (current : DatabaseSchema) (table : PersistentTable)
  : list PersistentColumn :=
  filter (fun c => old_columns current (pt_table_name table) !! pc_column_name c = None)
    (pt_columns table).

Definition missing_foreign_keys (current : DatabaseSchema) (table : PersistentTable)
  : list PersistentForeignKey :=
  filter (fun fk => old_foreign_keys current (pt_table_name table)
                      !! foreign_key_constraint_name (pt_table_name table) (pfk_column_name fk)
                    = None)
    (pt_foreign_keys table).

Definition add_foreign_keys (t : string) (fks : list PersistentForeignKey)
    (m : gmap string DatabaseForeignKey) : gmap string DatabaseForeignKey :=
  fold_left (fun m fk => let fk := db_foreign_key t fk in <[dfk_name fk := fk]> m) fks m.

Lemma apply_add_columns t columns table :
  fold_left apply_table (map (AddColumn t) columns) (Some table)
  = Some (mkDatabaseTable (dt_name table) (add_columns columns (dt_columns table))
            (dt_foreign_keys table)).
Proof. revert table. induction columns as [|c l IH]; intros []; cbn; [done | by rewrite IH]. Qed.

Lemma apply_add_fks t fks table :
  fold_left apply_table (map (AddForeignKey t) fks) (Some table)
  = Some (mkDatabaseTable (dt_name table) (dt_columns table)
            (add_foreign_keys t fks (dt_foreign_keys table))).
Proof. revert table. induction fks as [|fk l IH]; intros []; cbn; [done | by rewrite IH]. Qed.

(** The operations planned for a table, applied to its entry. *)
Lemma apply_planned current table :
  fold_left apply_table
    (create_ops current table ++ add_column_ops current table ++ add_fk_ops current table)
    (db_tables current !! pt_table_name table)
  = Some (mkDatabaseTable
      (match db_tables current !! pt_table_name table with
       | Some existing => dt_name existing | None => pt_table_name table end)
      (add_columns (missing_columns current table) (old_columns current (pt_table_name table)))
      (add_foreign_keys (pt_table_name table) (missing_foreign_keys current table)
        (old_foreign_keys current (pt_table_name table)))).
Proof.
  unfold create_ops, add_column_ops, add_fk_ops, missing_columns, missing_foreign_keys,
    old_columns, old_foreign_keys.
  destruct (db_tables current !! pt_table_name table) as [existing|].
  - rewrite (flat_map_missing pc_column_name).
    rewrite (flat_map_missing (fun fk => foreign_key_constraint_name (pt_table_name table)
                                           (pfk_column_name fk))).
    cbn [app]. by rewrite fold_left_app, apply_add_columns, apply_add_fks.
  - rewrite !filter_all by (apply Forall_forall; intros x _; apply lookup_empty).
    cbn [app fold_left apply_table]. by rewrite apply_add_fks.
Qed.

Lemma add_foreign_keys_keeps t fks m k :
  is_Some (m !! k) -> is_Some (add_foreign_keys t fks m !! k).
Proof.
  unfold add_foreign_keys. revert m. induction fks as [|fk l IH]; intros m Hk; [done |].
  cbn. apply IH, lookup_insert_is_Some'. by right.
Qed.

Lemma add_foreign_keys_other t fks m k :
  Forall (fun fk => foreign_key_constraint_name t (pfk_column_name fk) <> k) fks ->
  add_foreign_keys t fks m !! k = m !! k.
Proof.
  unfold add_foreign_keys. intros Hfks. revert m.
  induction Hfks as [|fk l Hfk _ IH]; intros m; [done |].
  cbn [fold_left]. rewrite IH. by rewrite lookup_insert_ne.
Qed.

Lemma add_foreign_keys_adds t fks m fk :
  fk ∈ fks ->
  is_Some (add_foreign_keys t fks m !! foreign_key_constraint_name t (pfk_column_name fk)).
Proof.
  unfold add_foreign_keys. revert m. induction fks as [|x l IH]; intros m Hfk;
    [by apply not_elem_of_nil in Hfk |].
  apply elem_of_cons in Hfk as [->|Hfk]; cbn; [| by apply IH].
  apply add_foreign_keys_keeps. rewrite lookup_insert_eq. eauto.
Qed.

Section Converge.
Context `{HashOrder}.
Variables (current : DatabaseSchema) (desired : gmap string PersistentTable).
Hypothesis Hdistinct : distinct_tables desired.

Let next := apply_ops current (plan_migration current desired).

Lemma next_table table :
  is_desired desired table ->
  exists name,
  db_tables next !! pt_table_name table = Some (mkDatabaseTable name
    (add_columns (missing_columns current table) (old_columns current (pt_table_name table)))
    (add_foreign_keys (pt_table_name table) (missing_foreign_keys current table)
      (old_foreign_keys current (pt_table_name table)))).
Proof.
  intros Hin. eexists. unfold next. rewrite apply_ops_lookup, plan_on_table by done.
  apply apply_planned.
Qed.

Lemma next_other t :
  (forall table, is_desired desired table -> pt_table_name table <> t) ->
  db_tables next !! t = db_tables current !! t.
Proof. intros Hne. unfold next. by rewrite apply_ops_lookup, plan_off_table. Qed.

(** Nothing is left to plan. *)
Lemma plan_again : plan_migration next desired = [].
Proof.
  unfold plan_migration.
  assert (Hnil : forall (f : PersistentTable -> list MigrationOp),
    (forall table, is_desired desired table -> f table = []) ->
    flat_map f (sorted_tables desired) = []).
  { intros f Hf. assert (Hall : Forall (fun t => f t = []) (sorted_tables desired)).
    { rewrite Forall_forall. intros t Ht. apply Hf. by apply elem_of_sorted_tables. }
    induction Hall as [|t l Ht _ IH]; [done |]. cbn. by rewrite Ht. }
  rewrite !Hnil; [done | | |]; intros table Hin; destruct (next_table table Hin) as (name & Hnext).
  - unfold add_fk_ops. rewrite Hnext. cbn.
    rewrite (flat_map_missing (fun fk => foreign_key_constraint_name (pt_table_name table)
                                           (pfk_column_name fk))).
    rewrite filter_none; [done |]. rewrite Forall_forall. intros fk Hfk Hnone.
    apply eq_None_not_Some in Hnone. apply Hnone.
    destruct (decide (is_Some (old_foreign_keys current (pt_table_name table)
      !! foreign_key_constraint_name (pt_table_name table) (pfk_column_name fk)))) as [Hs|Hs].
    + by apply add_foreign_keys_keeps.
    + apply add_foreign_keys_adds. apply list_elem_of_filter.
      split; [by apply eq_None_not_Some | done].
  - unfold add_column_ops. rewrite Hnext. cbn. rewrite (flat_map_missing pc_column_name).
    rewrite filter_none; [done |]. rewrite Forall_forall. intros c Hc.
    rewrite add_columns_lookup. destruct (last _) eqn:Hlast; [done |]. intros Hnone.
    apply (last_filter_None _ _ c) in Hlast; [done |]. by apply list_elem_of_filter.
  - unfold create_ops. by rewrite Hnext.
Qed.

Lemma column_drift_fresh t columns missing k column :
  last (filter (fun c => pc_column_name c = k) missing) = Some column ->
  filter (fun c => pc_column_name c = k) missing
    = filter (fun c => pc_column_name c = k) columns ->
  column_drift t (by_key pc_column_name columns) k (db_column column) = [].
Proof.
  intros Hlast Heq. unfold column_drift. rewrite by_key_lookup, <- Heq, Hlast.
  unfold db_column. cbn. destruct (postgres_type _); cbn.
  - by rewrite String.eqb_refl, Bool.eqb_reflx.
  - by rewrite Bool.eqb_reflx.
Qed.

(** The columns the plan adds do not drift, and the others are unchanged. *)
Lemma columns_drift table :
  let t := pt_table_name table in
  let columns := add_columns (missing_columns current table) (old_columns current t) in
  let drift_of (m : gmap string DatabaseColumn) k :=
    match m !! k with
    | Some c => column_drift t (by_key pc_column_name (pt_columns table)) k c
    | None => []
    end in
  flat_map (drift_of columns) (sorted_keys columns)
  = flat_map (drift_of (old_columns current t)) (sorted_keys (old_columns current t)).
Proof.
  intros t columns drift_of. apply flat_map_keys; unfold drift_of.
  - intros k [c Hc].
    assert (Hsame : columns !! k = Some c).
    { unfold columns. rewrite add_columns_lookup. destruct (last _) as [x|] eqn:Hx; [| done].
      apply last_Some_elem_of, list_elem_of_filter in Hx as [<- Hx].
      apply list_elem_of_filter in Hx as [Hx _]. unfold t in Hc. congruence. }
    rewrite Hsame, Hc. split; [by eexists | done].
  - intros k _ Hnone. unfold columns. rewrite add_columns_lookup.
    destruct (last _) as [c|] eqn:Hc; [| by rewrite Hnone].
    apply (column_drift_fresh t _ (missing_columns current table)); [done |].
    unfold missing_columns. rewrite list_filter_filter. apply list_filter_iff.
    intros x. split; [by intros [? ?] |]. intros <-. done.
Qed.

(** The unsupported changes are those there were before. *)
Lemma drift_again : detect_schema_drift next desired = detect_schema_drift current desired.
Proof.
  unfold detect_schema_drift. set (dbt := by_key pt_table_name _).
  assert (Hdbt : forall table, is_desired desired table ->
            dbt !! pt_table_name table = Some table).
  { intros table (k & Hk). apply by_key_unique.
    - unfold distinct_tables in Hdistinct. change (map ?f ?l) with (f <$> l) in *.
      rewrite <- list_fmap_compose. by rewrite entries_perm.
    - apply list_elem_of_fmap. exists (k, table). split; [done |]. by apply elem_of_entries. }
  assert (Hcases : forall t, (exists table, is_desired desired table /\ pt_table_name table = t)
            \/ db_tables next !! t = db_tables current !! t).
  { intros t. destruct (decide (t ∈ map pt_table_name (sorted_tables desired))) as [Ht|Ht].
    - left. apply list_elem_of_fmap in Ht as (table & -> & Hin). exists table.
      split; [by apply elem_of_sorted_tables | done].
    - right. apply next_other. intros table Hin <-. apply Ht, list_elem_of_fmap.
      exists table. split; [done | by apply elem_of_sorted_tables]. }
  apply flat_map_keys.
  - intros t [table Htable]. destruct (Hcases t) as [(T & HT & <-)|Heq].
    + destruct (next_table T HT) as (name & Hnext). rewrite Hnext, Htable.
      split; [by eexists |]. unfold table_drift. rewrite (Hdbt T HT). cbn [dt_columns].
      rewrite columns_drift. unfold old_columns. by rewrite Htable.
    + rewrite Heq, Htable. split; [by eexists | done].
  - intros t Hsome Hnone. destruct (Hcases t) as [(T & HT & <-)|Heq]; [| by rewrite Heq, Hnone].
    destruct (next_table T HT) as (name & Hnext). rewrite Hnext.
    unfold table_drift. rewrite (Hdbt T HT). cbn [dt_columns].
    rewrite columns_drift. unfold old_columns. rewrite Hnone. done.
Qed.

End Converge.
