(* ===== verification/ReplayFacts.v ===== *)
(** What the replay makes of the text the planner renders: one statement per
    operation, without comments or literals, whose effect on the derived
    schema is [apply_op]. *)
From stdpp Require Import base list strings gmap sorting.
From Stdlib Require Import ZArith Lia.
From S2P Require Import Prelude RustStr Errors Ast Schemas SchemaCycle Migrations Replay PlanFacts.

(** * Text made of given bytes *)

Definition all_bytes (p : N -> bool) (s : string) : Prop := forallb p (bytes s) = true.

(** The bytes of an identifier; of a generated statement without its
    semicolon; of a column definition; of blank text. *)
Definition ident_char (c : N) : bool := is_ascii_alphanumeric c || (c =? ch "_")%N.
Definition blank_char (c : N) : bool := (c =? 32)%N || (c =? 10)%N.
Definition def_char (c : N) : bool := ident_char c || blank_char c.
Definition sql_char (c : N) : bool :=
  def_char c || (c =? ch ",")%N || (c =? ch "(")%N || (c =? ch ")")%N.

Lemma all_bytes_cons p a s : all_bytes p (String a s) <-> p (ch a) = true /\ all_bytes p s.
Proof. unfold all_bytes. rewrite bytes_cons. cbn. by rewrite andb_true_iff. Qed.

Lemma all_bytes_app p s t : all_bytes p (s +:+ t) <-> all_bytes p s /\ all_bytes p t.
Proof. unfold all_bytes. by rewrite bytes_app, forallb_app, andb_true_iff. Qed.

Lemma all_bytes_weaken (p q : N -> bool) s :
  (forall c, p c = true -> q c = true) -> all_bytes p s -> all_bytes q s.
Proof.
  unfold all_bytes. rewrite !forallb_forall. eauto.
Qed.

Lemma all_bytes_join p sep l :
  all_bytes p sep -> Forall (all_bytes p) l -> all_bytes p (join sep l).
Proof.
  intros Hsep. induction 1 as [|x l Hx Hl IH]; [done |].
  destruct l; [done |]. cbn [join]. by rewrite !all_bytes_app.
Qed.

(** Decides [p c = true -> q c = true] between two of these classes. *)
Ltac char_classes :=
  intros; repeat match goal with H : _ = _ |- _ => revert H end;
  unfold is_whitespace, sql_char, def_char, ident_char, blank_char, is_ascii_alphanumeric,
    is_ascii_alphabetic, is_ascii_lowercase, is_ascii_uppercase, is_ascii_digit, between,
    ch; cbn;
  repeat first
    [ rewrite orb_true_iff | rewrite andb_true_iff | rewrite N.eqb_eq | rewrite N.leb_le
    | rewrite N.ltb_lt | rewrite orb_false_iff | rewrite andb_false_iff | rewrite N.eqb_neq
    | rewrite N.leb_gt | rewrite N.ltb_ge ]; lia.

Lemma ident_def c : ident_char c = true -> def_char c = true.
Proof. unfold def_char. by intros ->. Qed.
Lemma blank_def c : blank_char c = true -> def_char c = true.
Proof. unfold def_char. intros ->. by rewrite orb_true_r. Qed.
Lemma def_sql c : def_char c = true -> sql_char c = true.
Proof. unfold sql_char. by intros ->. Qed.
Lemma sql_ascii c : sql_char c = true -> (c <? 128)%N = true.
Proof. char_classes. Qed.
Lemma ident_not_whitespace c : ident_char c = true -> is_whitespace c = false.
Proof. char_classes. Qed.
Lemma blank_whitespace c : blank_char c = true -> is_whitespace c = true.
Proof. char_classes. Qed.

#[export] Hint Resolve ident_def def_sql blank_def sql_ascii ident_not_whitespace
  blank_whitespace : marreta.

(** A byte outside the class does not occur. *)
Lemma all_bytes_has p a s : all_bytes p s -> p (ch a) = false -> str_has a s = false.
Proof.
  intros Hs Ha. induction s as [|b s IH]; [done |].
  apply all_bytes_cons in Hs as [Hb Hs]. cbn. rewrite IH by done.
  destruct (Ascii.eqb_spec a b) as [->|]; [congruence | done].
Qed.

Lemma all_bytes_ascii p s :
  (forall c, p c = true -> (c <? 128)%N = true) -> all_bytes p s -> is_ascii s = true.
Proof. apply all_bytes_weaken. Qed.

(** * Trimming *)

(** Not blank at either end. *)
Definition tight (s : string) : Prop :=
  exists c d, head (bytes s) = Some c /\ last (bytes s) = Some d
    /\ is_whitespace c = false /\ is_whitespace d = false.

Lemma drop_while_all {A} (p : A -> bool) l r :
  forallb p l = true -> drop_while p (l ++ r) = drop_while p r.
Proof. induction l as [|x l IH]; [done |]. cbn. intros [-> Hl]%andb_true_iff. auto. Qed.

Lemma drop_while_head {A} (p : A -> bool) l x :
  head l = Some x -> p x = false -> drop_while p l = l.
Proof. destruct l; [done |]. cbn. intros [= ->] Hp. by rewrite Hp. Qed.

Lemma forallb_rev {A} (p : A -> bool) l : forallb p l = true -> forallb p (rev l) = true.
Proof.
  rewrite !forallb_forall. intros Hl x Hx. apply Hl. by apply in_rev.
Qed.

Lemma head_rev {A} (l : list A) : head (rev l) = last l.
Proof.
  induction l as [|x l IH] using rev_ind; [done |]. by rewrite rev_unit, last_snoc.
Qed.

Lemma trim_chars_between a l b c d :
  forallb is_whitespace a = true -> forallb is_whitespace b = true ->
  head l = Some c -> last l = Some d -> is_whitespace c = false -> is_whitespace d = false ->
  trim_chars (a ++ l ++ b) = l.
Proof.
  intros Ha Hb Hc Hd Wc Wd. unfold trim_chars. rewrite drop_while_all by done.
  rewrite (drop_while_head _ (l ++ b) c); [| by destruct l | done].
  rewrite rev_app_distr, drop_while_all by (by apply forallb_rev).
  rewrite (drop_while_head _ _ d); [apply rev_involutive | by rewrite head_rev | done].
Qed.

Lemma trim_between a s b :
  all_bytes blank_char a -> all_bytes blank_char b -> is_ascii s = true -> tight s ->
  trim (a +:+ s +:+ b) = s.
Proof.
  intros Ha Hb Hs (c & d & Hc & Hd & Wc & Wd). unfold trim.
  assert (Hblank : forall c, blank_char c = true -> (c <? 128)%N = true) by char_classes.
  rewrite chars_ascii, !bytes_app.
  2: { unfold is_ascii. rewrite !bytes_app, !forallb_app, !andb_true_iff.
       repeat split; [by apply (all_bytes_ascii blank_char) | done
                     | by apply (all_bytes_ascii blank_char)]. }
  erewrite (trim_chars_between (bytes a) (bytes s) (bytes b)); [by apply of_chars_bytes | ..];
    try eassumption;
    by apply (all_bytes_weaken blank_char); [apply blank_whitespace |].
Qed.

Lemma trim_tight s : is_ascii s = true -> tight s -> trim s = s.
Proof.
  intros Hs Ht. pose proof (trim_between EmptyString s EmptyString) as H.
  cbn in H. rewrite append_nil_r in H. by apply H.
Qed.

Lemma trim_blank s : all_bytes blank_char s -> trim s = EmptyString.
Proof.
  intros Hs. unfold trim. rewrite chars_ascii.
  2: { apply (all_bytes_ascii blank_char); [char_classes | done]. }
  unfold trim_chars. rewrite <- (app_nil_r (bytes s)), drop_while_all; [done |].
  by apply (all_bytes_weaken blank_char); [apply blank_whitespace |].
Qed.

(** Trimming keeps a class of ASCII bytes. *)
Lemma all_bytes_trim (p : N -> bool) s :
  (forall c, p c = true -> (c <? 128)%N = true) -> all_bytes p s -> all_bytes p (trim s).
Proof.
  intros Hp Hs. unfold trim. rewrite chars_ascii by (by apply (all_bytes_ascii p)).
  assert (Hl : forallb p (trim_chars (bytes s)) = true).
  { unfold all_bytes in Hs. rewrite forallb_forall in *. intros x Hx. apply Hs.
    unfold trim_chars in Hx. rewrite <- in_rev in Hx.
    apply list_elem_of_In, drop_while_incl, elem_of_rev, drop_while_incl, list_elem_of_In in Hx.
    done. }
  revert Hl. generalize (trim_chars (bytes s)). clear s Hs.
  induction l as [|c l IH]; [done |]. cbn. intros [Hc Hl]%andb_true_iff.
  unfold of_chars in *. cbn. unfold encode_char at 1. rewrite (Hp c Hc).
  apply all_bytes_cons. rewrite ch_byte; [auto |]. apply Hp, N.ltb_lt in Hc. lia.
Qed.

(** * Text without literals, comments or markers *)

Lemma byte_class (p : N -> bool) a b : p (ch a) = true -> p (ch b) = false -> Ascii.eqb a b = false.
Proof. intros Ha Hb. destruct (Ascii.eqb_spec a b) as [->|]; congruence. Qed.

(** Discharges the tests of a scanner on a byte of a class. *)
Ltac no_match p :=
  repeat match goal with
  | H : p (ch ?a) = true |- context [Ascii.eqb ?a ?b] =>
      rewrite (byte_class p a b H) by reflexivity
  end.

Lemma append_cons a s t : String a s +:+ t = String a (s +:+ t).
Proof. reflexivity. Qed.

Lemma snoc_app chunk a s : snoc chunk a +:+ s = chunk +:+ String a s.
Proof. unfold snoc. by rewrite append_assoc. Qed.

Lemma split_sql_plain chunk s t :
  all_bytes sql_char s -> split_sql 0 chunk (s +:+ t) = split_sql 0 (chunk +:+ s) t.
Proof.
  revert chunk. induction s as [|a s IH]; intros chunk Hs; [by rewrite append_nil_r |].
  apply all_bytes_cons in Hs as [Ha Hs]. rewrite append_cons. cbn. no_match sql_char. cbn.
  by rewrite IH, snoc_app.
Qed.

Lemma strip_comments_plain s : all_bytes sql_char s -> strip_sql_comments s = s.
Proof.
  unfold strip_sql_comments. induction s as [|a s IH]; [done |]. intros [Ha Hs]%all_bytes_cons.
  cbn. no_match sql_char. cbn. by rewrite IH.
Qed.

Lemma blank_literals_plain s : all_bytes sql_char s -> blank_string_literals s = s.
Proof.
  unfold blank_string_literals. induction s as [|a s IH]; [done |].
  intros [Ha Hs]%all_bytes_cons. cbn. no_match sql_char. by rewrite IH.
Qed.

Lemma split_defs_plain chunk s t :
  all_bytes def_char s -> split_defs 0 0 chunk (s +:+ t) = split_defs 0 0 (chunk +:+ s) t.
Proof.
  revert chunk. induction s as [|a s IH]; intros chunk Hs; [by rewrite append_nil_r |].
  apply all_bytes_cons in Hs as [Ha Hs]. rewrite append_cons. cbn. no_match def_char. cbn.
  by rewrite IH, snoc_app.
Qed.

Lemma all_bytes_split_on p a s w : all_bytes p s -> w ∈ split_on a s -> all_bytes p w.
Proof.
  revert w. induction s as [|b s IH]; intros w Hs Hw; cbn in Hw.
  { apply list_elem_of_singleton in Hw as ->. done. }
  apply all_bytes_cons in Hs as [Hb Hs]. destruct (Ascii.eqb a b).
  - apply elem_of_cons in Hw as [->|Hw]; [done | auto].
  - destruct (split_on a s) as [|v vs] eqn:Hsplit.
    + apply list_elem_of_singleton in Hw as ->. apply all_bytes_cons. done.
    + apply elem_of_cons in Hw as [->|Hw].
      * apply all_bytes_cons. split; [done |]. apply IH; [done | by left].
      * apply IH; [done | by right].
Qed.

Lemma all_bytes_strip_suffix p suffix s r :
  all_bytes p s -> strip_suffix suffix s = Some r -> all_bytes p r.
Proof.
  revert r. induction s as [|b s IH]; intros r Hs; unfold strip_suffix; fold strip_suffix;
    destruct (String.eqb _ _); [by intros [= <-] | done | by intros [= <-] |].
  apply all_bytes_cons in Hs as [Hb Hs].
  destruct (strip_suffix suffix s) as [r'|]; cbn; [| done]. intros [= <-].
  apply all_bytes_cons. auto.
Qed.

Lemma all_bytes_drop_cr p s : all_bytes p s -> all_bytes p (drop_cr s).
Proof.
  intros Hs. unfold drop_cr. destruct (strip_suffix _ s) eqn:H; [| done].
  by eapply all_bytes_strip_suffix.
Qed.

Lemma all_bytes_lines (p : N -> bool) s w : all_bytes p s -> w ∈ lines s -> all_bytes p w.
Proof.
  intros Hs. assert (Hall : Forall (all_bytes p) (split_on (byte 10) s)).
  { rewrite Forall_forall. intros v Hv. by eapply all_bytes_split_on. }
  unfold lines. revert Hall. generalize (split_on (byte 10) s). clear s Hs.
  induction l as [|x l IH]; [by intros _ ?%not_elem_of_nil |].
  intros [Hx Hl]%Forall_cons Hw. destruct l as [|y l].
  - cbn in Hw. destruct (String.eqb x EmptyString); [by apply not_elem_of_nil in Hw |].
    by apply list_elem_of_singleton in Hw as ->.
  - change (w ∈ drop_cr x :: lines_of (y :: l)) in Hw.
    apply elem_of_cons in Hw as [->|Hw]; auto using all_bytes_drop_cr.
Qed.

Lemma no_skip_marker s : all_bytes sql_char s -> chunk_has_skip_marker s = false.
Proof.
  intros Hs. unfold chunk_has_skip_marker. apply not_true_iff_false.
  rewrite existsb_exists. intros (line & Hline%list_elem_of_In & Hm%String.eqb_eq).
  assert (Hb : all_bytes sql_char (trim line)).
  { apply all_bytes_trim; [auto with marreta |]. by eapply all_bytes_lines. }
  rewrite Hm in Hb. discriminate Hb.
Qed.

(** * Column definitions *)

(** A name the statements can be read back with: an ASCII identifier. *)
Definition plain_name (s : string) : Prop := s <> EmptyString /\ all_bytes ident_char s.

(** A column name that is not taken for a constraint of the table. *)
Definition column_name_ok (s : string) : Prop :=
  plain_name s
  /\ to_ascii_uppercase s ∉ ["CONSTRAINT"; "UNIQUE"; "CHECK"; "EXCLUDE"].

(** The types of [postgres_type]. *)
Definition PG_TYPES : list string :=
  ["TEXT"; "BIGINT"; "DOUBLE PRECISION"; "NUMERIC"; "BOOLEAN"; "TIMESTAMPTZ"; "DATE"; "TIME";
   "JSONB"].

(** What follows the name in a column definition without a default. *)
Definition column_suffix (type_ : string) (primary generated nullable unique : bool) : string :=
  join " " (type_ :: (if primary then ["PRIMARY KEY"] else [])
    ++ (if generated then ["GENERATED BY DEFAULT AS IDENTITY"] else [])
    ++ (if nullable then [] else ["NOT NULL"])
    ++ (if unique then ["UNIQUE"] else [])).

Definition tightb (s : string) : bool :=
  match head (bytes s), last (bytes s) with
  | Some c, Some d => negb (is_whitespace c) && negb (is_whitespace d)
  | _, _ => false
  end.

Lemma tightb_tight s : tightb s = true -> tight s.
Proof.
  unfold tightb, tight. destruct (head (bytes s)) as [c|], (last (bytes s)) as [d|]; [| done..].
  intros [Hc Hd]%andb_true_iff. apply negb_true_iff in Hc, Hd. by exists c, d.
Qed.

(** What has to be known of the suffixes, which are finitely many. *)
Definition suffix_ok (type_ : string) (primary nullable : bool) (suffix : string) : bool :=
  forallb def_char (bytes suffix) && tightb suffix
  && negb (starts_with "KEY" (to_ascii_uppercase suffix))
  && bool_decide (capture_type_and_nullability suffix
                  = (Some type_, Some (nullable && negb primary))).

Lemma column_suffix_ok type_ primary generated nullable unique :
  type_ ∈ PG_TYPES ->
  suffix_ok type_ primary nullable (column_suffix type_ primary generated nullable unique) = true.
Proof.
  assert (H : forallb (fun t => forallb (fun p => forallb (fun g => forallb (fun n =>
    forallb (fun u => suffix_ok t p n (column_suffix t p g n u)) [true; false])
    [true; false]) [true; false]) [true; false]) PG_TYPES = true) by (vm_compute; reflexivity).
  intros Ht%list_elem_of_In. rewrite forallb_forall in H. specialize (H type_ Ht).
  assert (Hb : forall (f : bool -> bool) b, forallb f [true; false] = true -> f b = true).
  { intros f []; cbn; rewrite !andb_true_iff; tauto. }
  apply (Hb _ primary) in H. apply (Hb _ generated) in H. apply (Hb _ nullable) in H.
  by apply (Hb _ unique) in H.
Qed.

Lemma postgres_type_known t s : postgres_type t = Ok s -> s ∈ PG_TYPES.
Proof.
  destruct t; intros [= <-]; unfold PG_TYPES; rewrite ?elem_of_cons; tauto.
Qed.

(** A column the planner can render without a default. *)
Definition plain_column (c : PersistentColumn) : Prop :=
  column_name_ok (pc_column_name c) /\ pc_default c = None
  /\ is_ok (postgres_type (pc_field_type c)) = true.

Definition column_def (c : PersistentColumn) (suffix : string) : string :=
  pc_column_name c +:+ " " +:+ suffix.

Lemma render_plain_column debug c :
  plain_column c ->
  exists suffix, render_postgres_column debug c = Ok (column_def c suffix)
    /\ all_bytes def_char suffix /\ tight suffix
    /\ starts_with "KEY" (to_ascii_uppercase suffix) = false
    /\ replayed_column (pc_column_name c) suffix = db_column c.
Proof.
  intros (_ & Hdefault & Htype). unfold render_postgres_column.
  destruct (postgres_type (pc_field_type c)) as [t|] eqn:Ht; [| done].
  exists (column_suffix t (pc_primary c) (pc_generated c) (pc_nullable c) (pc_unique c)).
  pose proof (column_suffix_ok t (pc_primary c) (pc_generated c) (pc_nullable c) (pc_unique c)
    (postgres_type_known _ _ Ht)) as Hok.
  unfold suffix_ok in Hok. apply andb_true_iff in Hok as [Hok Hcap].
  apply andb_true_iff in Hok as [Hok Hkey]. apply andb_true_iff in Hok as [Hdef Htight].
  repeat split.
  - cbn. by rewrite Hdefault.
  - exact Hdef.
  - by apply tightb_tight.
  - by apply negb_true_iff.
  - unfold replayed_column. apply bool_decide_eq_true in Hcap. rewrite Hcap.
    unfold db_column. by rewrite Ht.
Qed.

(** ** Reading a definition back *)

Lemma to_upper_app s t :
  to_ascii_uppercase (s +:+ t) = to_ascii_uppercase s +:+ to_ascii_uppercase t.
Proof.
  unfold to_ascii_uppercase. induction s as [|a s IH]; [done |].
  rewrite append_cons. cbn [map_bytes]. by rewrite IH.
Qed.

Lemma all_bytes_upper (p : N -> bool) s :
  (forall c, p c = true -> p (to_ascii_uppercase_char c) = true) ->
  (forall c, p c = true -> (c <? 128)%N = true) ->
  all_bytes p s -> all_bytes p (to_ascii_uppercase s).
Proof.
  intros Hp Hascii. unfold to_ascii_uppercase. induction s as [|a s IH]; [done |].
  intros [Ha Hs]%all_bytes_cons. cbn [map_bytes]. apply all_bytes_cons. split; [| auto].
  rewrite ch_byte; [auto |]. specialize (Hascii _ (Hp _ Ha)). apply N.ltb_lt in Hascii. lia.
Qed.

Lemma upper_cases c :
  to_ascii_uppercase_char c = c \/ is_ascii_lowercase c = true
    /\ to_ascii_uppercase_char c = (c - 32)%N.
Proof. unfold to_ascii_uppercase_char. destruct (is_ascii_lowercase c); auto. Qed.

Lemma ident_upper c : ident_char c = true -> ident_char (to_ascii_uppercase_char c) = true.
Proof. intros Hc. destruct (upper_cases c) as [->|[Hl ->]]; [done |]. revert Hl. char_classes. Qed.

Lemma def_upper c : def_char c = true -> def_char (to_ascii_uppercase_char c) = true.
Proof. intros Hc. destruct (upper_cases c) as [->|[Hl ->]]; [done |]. revert Hl. char_classes. Qed.

Lemma strip_prefix_Some p s r : strip_prefix p s = Some r -> s = p +:+ r.
Proof.
  revert s. induction p as [|a p IH]; intros s; cbn; [by intros [= ->] |].
  destruct s as [|b s]; [done |]. destruct (Ascii.eqb_spec a b) as [->|]; [| done].
  intros ->%IH. done.
Qed.

Lemma prefix_app p s : starts_with p s = true -> exists r, s = p +:+ r.
Proof.
  unfold starts_with. revert s. induction p as [|a p IH]; intros s H; [by exists s |].
  destruct s as [|b s]; cbn in H; [done |].
  destruct (Ascii.ascii_dec a b) as [->|]; [| done].
  destruct (IH s H) as [r ->]. by exists r.
Qed.

(** The first space of a definition is the one after the name. *)
Lemma split_at_space name rest :
  all_bytes ident_char name -> split_once " " (name +:+ " " +:+ rest) = Some (name, rest).
Proof. intros Hn. apply split_once_app. by apply (all_bytes_has ident_char). Qed.

Lemma not_constraint name suffix :
  column_name_ok name -> all_bytes def_char suffix ->
  starts_with "KEY" (to_ascii_uppercase suffix) = false ->
  is_table_level_constraint (name +:+ " " +:+ suffix) = false.
Proof.
  intros [[_ Hname] Hlead] Hsuffix Hkey. unfold is_table_level_constraint.
  apply not_true_iff_false. rewrite existsb_exists. intros (lead & Hin & Hmatch).
  rewrite !to_upper_app in Hmatch. change (to_ascii_uppercase " ") with " " in Hmatch.
  assert (HN : all_bytes ident_char (to_ascii_uppercase name)).
  { apply all_bytes_upper; auto using ident_upper with marreta. }
  assert (HS : all_bytes def_char (to_ascii_uppercase suffix)).
  { apply all_bytes_upper; auto using def_upper with marreta. }
  set (N := to_ascii_uppercase name) in *. set (S := to_ascii_uppercase suffix) in *.
  pose proof (split_at_space N S HN) as Hsplit.
  assert (Hpar : str_has "(" (N +:+ " " +:+ S) = false).
  { apply (all_bytes_has def_char); [| done]. rewrite !all_bytes_app.
    repeat split; [| done]. eapply all_bytes_weaken; [| exact HN]. auto with marreta. }
  apply orb_true_iff in Hmatch as [Hmatch | [r Hr]%prefix_app].
  - apply orb_true_iff in Hmatch as [Hr%String.eqb_eq | [r Hr]%prefix_app];
      rewrite Hr in Hsplit.
    + repeat (destruct Hin as [<-|Hin]; [try discriminate Hsplit;
        injection Hsplit as _ HeqS; rewrite <- HeqS in Hkey; discriminate Hkey |]). done.
    + repeat (destruct Hin as [<-|Hin]; [injection Hsplit as HeqN HeqS;
        first [ rewrite <- HeqS in Hkey; discriminate Hkey
              | apply Hlead; rewrite <- HeqN; rewrite ?elem_of_cons; tauto ] |]). done.
  - rewrite Hr in Hpar. repeat (destruct Hin as [<-|Hin]; [discriminate Hpar |]). done.
Qed.

(** * Statements *)

Lemma strip_keyword_app k r : strip_keyword_ci (k +:+ r) k = Some r.
Proof.
  induction k as [|a k IH]; [by destruct r |]. rewrite append_cons. cbn [strip_keyword_ci].
  unfold ascii_eq_ci. by rewrite N.eqb_refl.
Qed.

Lemma tight_not_empty s : tight s -> String.eqb s EmptyString = false.
Proof. intros (c & _ & Hc & _). by destruct s. Qed.

Lemma plain_name_tight s : plain_name s -> tight s.
Proof.
  intros [Hne Hs]. unfold tight, all_bytes in *. destruct s as [|a s]; [done |].
  rewrite bytes_cons in *. destruct (last (ch a :: bytes s)) as [d|] eqn:Hd.
  2: { by apply last_None in Hd. }
  exists (ch a), d. rewrite forallb_forall in Hs. repeat split.
  - apply ident_not_whitespace, Hs. by left.
  - apply ident_not_whitespace, Hs, list_elem_of_In. by apply last_Some_elem_of.
Qed.

(** ** Classes of the generated text *)

Lemma name_def s : plain_name s -> all_bytes def_char s.
Proof. intros [_ Hs]. eapply all_bytes_weaken; [| exact Hs]. auto with marreta. Qed.

Lemma def_is_sql s : all_bytes def_char s -> all_bytes sql_char s.
Proof. apply all_bytes_weaken. auto with marreta. Qed.

Lemma name_sql s : plain_name s -> all_bytes sql_char s.
Proof. intros Hs. by apply def_is_sql, name_def. Qed.

Lemma blank_sql s : all_bytes blank_char s -> all_bytes sql_char s.
Proof. apply all_bytes_weaken. auto with marreta. Qed.

Lemma sql_is_ascii s : all_bytes sql_char s -> is_ascii s = true.
Proof. apply all_bytes_ascii. auto with marreta. Qed.

Lemma name_free a s : plain_name s -> ident_char (ch a) = false -> str_has a s = false.
Proof. intros [_ Hs]. by apply all_bytes_has. Qed.

Lemma trim_name s : plain_name s -> trim s = s.
Proof.
  intros Hs. apply trim_tight; [by apply sql_is_ascii, name_sql | by apply plain_name_tight].
Qed.

#[export] Hint Resolve name_def def_is_sql name_sql blank_sql sql_is_ascii plain_name_tight
  : marreta.

(** Splits a class over the pieces of a text, the constant ones by
    computation. *)
Ltac text_class :=
  rewrite ?all_bytes_app; repeat split; try done; auto with marreta.

Definition starts_tight (s : string) : Prop :=
  match head (bytes s) with Some c => is_whitespace c = false | None => False end.
Definition ends_tight (s : string) : Prop :=
  match last (bytes s) with Some c => is_whitespace c = false | None => False end.

Lemma tight_iff s : tight s <-> starts_tight s /\ ends_tight s.
Proof.
  unfold tight, starts_tight, ends_tight.
  destruct (head (bytes s)) as [c|], (last (bytes s)) as [d|]; split.
  all: try (by intros (? & ? & [= <-] & [= <-] & ? & ?)).
  all: try (by intros [? ?]; eauto 10).
  all: by intros (? & ? & ? & ? & _).
Qed.

Lemma starts_tight_app s t : starts_tight s -> starts_tight (s +:+ t).
Proof. unfold starts_tight. rewrite bytes_app. by destruct (bytes s). Qed.
Lemma ends_tight_app s t : ends_tight t -> ends_tight (s +:+ t).
Proof. unfold ends_tight. rewrite bytes_app, last_app. by destruct (last (bytes t)). Qed.

Lemma tight_starts s : tight s -> starts_tight s.
Proof. by intros [? _]%tight_iff. Qed.
Lemma tight_ends s : tight s -> ends_tight s.
Proof. by intros [_ ?]%tight_iff. Qed.
#[export] Hint Resolve tight_starts tight_ends : marreta.

(** A text whose first and last pieces are tight. *)
Ltac tight_text :=
  apply tight_iff; split;
  repeat first [done | solve [auto with marreta] | apply starts_tight_app | apply ends_tight_app].

Lemma apply_statement_plain schema m blank stmt :
  all_bytes blank_char blank -> all_bytes sql_char stmt -> tight stmt ->
  apply_statement schema m (blank +:+ stmt)
  = match strip_keyword_ci stmt "CREATE TABLE " with
    | Some rest => of_result (apply_create_table_stmt schema rest (lm_version m))
    | None =>
        match strip_keyword_ci stmt "ALTER TABLE " with
        | Some rest => apply_alter_table_stmt schema m stmt rest
        | None => if is_auto_tolerated (to_ascii_uppercase stmt) then Done schema
                  else Fails (rejected_ddl_error m stmt)
        end
    end.
Proof.
  intros Hb Hs Ht. assert (Hraw : all_bytes sql_char (blank +:+ stmt)) by text_class.
  unfold apply_statement. rewrite strip_comments_plain, no_skip_marker by done.
  assert (Htrim : trim (blank +:+ stmt) = stmt).
  { rewrite <- (append_nil_r stmt) at 1. apply trim_between; text_class. }
  rewrite Htrim.
  by rewrite tight_not_empty.
Qed.

Lemma apply_statement_blank schema m blank :
  all_bytes blank_char blank -> apply_statement schema m blank = Done schema.
Proof.
  intros Hb. unfold apply_statement. rewrite strip_comments_plain by auto with marreta.
  by rewrite trim_blank.
Qed.

Lemma apply_op_set schema op table :
  apply_table (db_tables schema !! op_table op) op = Some table ->
  apply_op schema op = set_table schema (op_table op) table.
Proof.
  intros H. unfold apply_op, set_table. f_equal. apply map_eq. intros k.
  destruct (decide (op_table op = k)) as [<-|Hk].
  - by rewrite lookup_partial_alter_eq, lookup_insert_eq.
  - by rewrite lookup_partial_alter_ne, lookup_insert_ne.
Qed.

(** ** CREATE TABLE *)

(** [defs] are the rendered definitions of [columns]. *)
Definition column_text (c : PersistentColumn) (def : string) : Prop :=
  exists suffix, def = column_def c suffix /\ column_name_ok (pc_column_name c)
    /\ all_bytes def_char suffix /\ tight suffix
    /\ starts_with "KEY" (to_ascii_uppercase suffix) = false
    /\ replayed_column (pc_column_name c) suffix = db_column c.

Lemma column_text_class c def :
  column_text c def -> all_bytes def_char def /\ tight def.
Proof.
  intros (suffix & -> & [Hn _] & Hd & Ht & _). unfold column_def. split; [text_class |].
  tight_text.
Qed.

Lemma split_def c def :
  column_text c def ->
  exists suffix, split_once_whitespace def = Some (pc_column_name c, suffix)
    /\ replayed_column (pc_column_name c) suffix = db_column c.
Proof.
  intros Hc. destruct (column_text_class c def Hc) as [Hclass _].
  destruct Hc as (suffix & -> & [[_ Hn] _] & Hd & _ & _ & Hr). exists suffix. split; [| done].
  assert (Ha : is_ascii (column_def c suffix) = true) by auto with marreta.
  unfold split_once_whitespace. rewrite chars_ascii by done. unfold column_def in *.
  rewrite !bytes_app. change (bytes " ") with [32%N].
  assert (Hsplit : forall l r, forallb ident_char l = true ->
    split_once_chars is_whitespace (l ++ [32%N] ++ r) = Some (l, r)).
  { induction l as [|x l IH]; intros r Hl; [done |]. cbn in Hl |- *.
    apply andb_true_iff in Hl as [Hx Hl]. rewrite (ident_not_whitespace x Hx).
    cbn in IH. by rewrite IH. }
  rewrite Hsplit by done.
  unfold is_ascii in Ha. rewrite !bytes_app, !forallb_app, !andb_true_iff in Ha.
  destruct Ha as (Ha1 & _ & Ha2). by rewrite !of_chars_bytes.
Qed.

Lemma trim_end_comma s : is_ascii s = true -> (forall d, last (bytes s) = Some d -> d <> ch ",") ->
  trim_end_matches "," s = s.
Proof.
  intros Hs Hd. unfold trim_end_matches. rewrite chars_ascii by done.
  destruct (last (bytes s)) as [d|] eqn:Hl.
  - rewrite (drop_while_head _ _ d), rev_involutive by
      (rewrite ?head_rev; [done || (apply N.eqb_neq; intros <-; by apply (Hd (ch ","))) ]).
    by apply of_chars_bytes.
  - apply last_None in Hl. rewrite Hl. destruct s; [done | discriminate Hl].
Qed.

Lemma apply_def version a b c def defs m :
  all_bytes blank_char a -> all_bytes blank_char b -> column_text c def ->
  apply_column_defs version ((a +:+ def +:+ b) :: defs) m
  = apply_column_defs version defs (<[pc_column_name c := db_column c]> m).
Proof.
  intros Ha Hb Hc. destruct (column_text_class c def Hc) as [Hclass Htight].
  assert (Hascii : is_ascii def = true) by auto with marreta.
  cbn [apply_column_defs]. rewrite (trim_between a def b) by done.
  rewrite trim_end_comma; [| done |].
  2: { intros d Hd ->. apply last_Some_elem_of, list_elem_of_In in Hd.
       unfold all_bytes in Hclass. rewrite forallb_forall in Hclass.
       by apply Hclass in Hd. }
  rewrite trim_tight by done. rewrite tight_not_empty by done.
  destruct (split_def c def Hc) as (suffix & -> & Hr).
  destruct Hc as (suffix' & -> & Hok & Hd & _ & Hkey & _). unfold column_def.
  rewrite not_constraint by done. by rewrite Hr.
Qed.

Lemma split_defs_comma chunk s t :
  all_bytes def_char s ->
  split_defs 0 0 chunk (s +:+ "," +:+ t) = (chunk +:+ s) :: split_defs 0 0 EmptyString t.
Proof. intros Hs. by rewrite split_defs_plain. Qed.

Lemma split_defs_end chunk s :
  all_bytes def_char s -> chunk +:+ s <> EmptyString ->
  split_defs 0 0 chunk s = [chunk +:+ s].
Proof.
  intros Hs Hne. rewrite <- (append_nil_r s) at 1. rewrite split_defs_plain by done. cbn.
  by apply String.eqb_neq in Hne as ->.
Qed.

(** The definitions of a table, read back with the line breaks between them. *)
Lemma apply_defs version columns defs blank tail m :
  Forall2 column_text columns defs -> columns <> [] ->
  all_bytes blank_char blank -> all_bytes blank_char tail ->
  apply_column_defs version (split_defs 0 0 blank (join ("," +:+ indent) defs +:+ tail)) m
  = Ok (add_columns columns m).
Proof.
  intros Hall. revert blank m.
  induction Hall as [|c def columns defs Hc Hall IH]; intros blank m Hne Hblank Htail; [done |].
  destruct (column_text_class c def Hc) as [Hclass Htight].
  destruct Hall as [|c' def' columns defs Hc' Hall].
  - cbn [join]. rewrite split_defs_end.
    + by rewrite (apply_def version blank tail c).
    + apply all_bytes_app. split; [done |]. eapply all_bytes_weaken; [| exact Htail].
      auto with marreta.
    + intros Heq. destruct Htight as (x & _ & Hx & _). apply (f_equal bytes) in Heq.
      rewrite !bytes_app in Heq. apply app_eq_nil in Heq as [_ Heq].
      apply app_eq_nil in Heq as [Heq _]. by rewrite Heq in Hx.
  - change (join ("," +:+ indent) (def :: def' :: defs))
      with (def +:+ ("," +:+ indent) +:+ join ("," +:+ indent) (def' :: defs)).
    rewrite !append_assoc. rewrite split_defs_comma by done.
    rewrite <- (append_nil_r (blank +:+ def)), append_assoc.
    rewrite (apply_def version blank EmptyString c) by done.
    rewrite split_defs_plain by done. by apply IH.
Qed.

Lemma strip_suffix_Some p s r : strip_suffix p s = Some r -> s = r +:+ p.
Proof.
  revert r. induction s as [|a s IH]; intros r H; unfold strip_suffix in H;
    fold strip_suffix in H; destruct (String.eqb p _) eqn:E;
    try (apply String.eqb_eq in E as ->; by injection H as <-); [done |].
  destruct (strip_suffix p s) as [r'|]; cbn in H; [| done]. injection H as <-.
  by rewrite append_cons, <- (IH r').
Qed.

Lemma strip_suffix_app s p : strip_suffix p (s +:+ p) = Some s.
Proof.
  assert (Hlen : forall a b : string, String.length (a +:+ b) = String.length a + String.length b).
  { induction a as [|x a IHa]; intros b; [done |]. rewrite append_cons. cbn. by rewrite IHa. }
  induction s as [|a s IH].
  - change (EmptyString +:+ p) with p. destruct p; cbn [strip_suffix]; by rewrite String.eqb_refl.
  - rewrite append_cons. cbn [strip_suffix].
    destruct (String.eqb_spec p (String a (s +:+ p))) as [Heq|_]; [| by rewrite IH].
    apply (f_equal String.length) in Heq. cbn in Heq. rewrite Hlen in Heq. lia.
Qed.

Lemma create_effect schema table_name version columns defs :
  plain_name table_name -> Forall2 column_text columns defs ->
  apply_create_table_stmt schema
    (table_name +:+ " (" +:+ indent +:+ join ("," +:+ indent) defs +:+ newline +:+ ")") version
  = Ok (apply_op schema (CreateTable table_name columns)).
Proof.
  intros Hname Hall. unfold apply_create_table_stmt.
  change (" (" +:+ ?r) with (" " +:+ String "(" r). rewrite <- append_assoc.
  rewrite split_once_app.
  2: { apply (all_bytes_has def_char); [| done]. text_class. }
  assert (Htrim : trim (table_name +:+ " ") = table_name).
  { apply (trim_between EmptyString table_name " "); text_class. }
  rewrite Htrim.
  assert (Hbody : exists body, trim (indent +:+ join ("," +:+ indent) defs +:+ newline +:+ ")")
                    = body +:+ ")"
    /\ apply_column_defs version (split_column_defs body) ∅ = Ok (add_columns columns ∅)).
  { destruct Hall as [|c def columns defs Hc Hall]; [exists EmptyString; by vm_compute |].
    exists (join ("," +:+ indent) (def :: defs) +:+ newline). split.
    - assert (Hclass : Forall (fun d => all_bytes def_char d) (def :: defs)).
      { constructor; [by apply column_text_class in Hc as [? _] |]. clear -Hall.
        induction Hall as [|x y l l' Hx _ IH]; constructor; [| done].
        by apply column_text_class in Hx as [? _]. }
      set (body := join _ _) in *.
      rewrite append_assoc. rewrite <- (append_nil_r (body +:+ newline +:+ ")")) at 1.
      apply trim_between; [done | done | |].
      + apply sql_is_ascii. text_class. unfold body. apply all_bytes_join; [done |].
        eapply Forall_impl; [exact Hclass |]. auto with marreta.
      + destruct (column_text_class c def Hc) as [_ (x & _ & Hx & _ & Wx & _)].
        exists x, (ch ")"). rewrite !bytes_app. repeat split; [| | done].
        * unfold body. destruct (bytes def) as [|b l] eqn:Hb; [done |]. injection Hx as ->.
          destruct defs; cbn [join]; rewrite ?bytes_app, Hb; done.
        * rewrite !last_app. done.
    - apply (apply_defs version (c :: columns) (def :: defs) EmptyString newline);
        [by constructor | done..]. }
  destruct Hbody as (body & -> & Hdefs). by rewrite strip_suffix_app, Hdefs.
Qed.

(** ** ALTER TABLE *)

Lemma alter_column_effect schema m stmt table_name column def :
  plain_name table_name -> column_text column def ->
  apply_alter_table_stmt schema m stmt (table_name +:+ " ADD COLUMN " +:+ def)
  = Done (apply_op schema (AddColumn table_name column)).
Proof.
  intros Hname Hdef. unfold apply_alter_table_stmt.
  change (" ADD COLUMN " +:+ def) with (String " " ("ADD COLUMN " +:+ def)).
  rewrite split_once_app by (by apply name_free).
  rewrite strip_keyword_app. destruct (split_def column def Hdef) as (suffix & -> & Hr).
  rewrite Hr. f_equal. symmetry. by apply (apply_op_set schema (AddColumn table_name column)).
Qed.

Lemma split_once_str_app a sep w r :
  str_has a w = false ->
  split_once_str (String a sep) (w +:+ String a sep +:+ r) = Some (w, r).
Proof.
  induction w as [|b w IH].
  - intros _. change (EmptyString +:+ ?x) with x. rewrite append_cons. cbn.
    by rewrite Ascii.eqb_refl, strip_prefix_append.
  - cbn [str_has]. intros [Hb Hw]%orb_false_iff. rewrite append_cons.
    cbn [split_once_str strip_prefix]. by rewrite Hb, IH.
Qed.

Lemma find_char_app a w r :
  str_has a w = false -> find_char a (w +:+ String a r) = Some (String.length w).
Proof.
  induction w as [|b w IH]; cbn [str_has].
  - intros _. change (EmptyString +:+ ?x) with x. cbn. by rewrite Ascii.eqb_refl.
  - intros [Hb Hw]%orb_false_iff. rewrite append_cons. cbn [find_char String.length].
    by rewrite Hb, IH.
Qed.

Lemma str_drop_app w r : str_drop (String.length w) (w +:+ r) = r.
Proof. induction w as [|a w IH]; [by destruct r |]. rewrite append_cons. done. Qed.

Lemma str_take_app w r : str_take (String.length w) (w +:+ r) = w.
Proof. induction w as [|a w IH]; [by destruct r |]. rewrite append_cons. cbn. by rewrite IH. Qed.

Lemma length_append s t : String.length (s +:+ t) = String.length s + String.length t.
Proof. induction s as [|a s IH]; [done |]. rewrite append_cons. cbn. by rewrite IH. Qed.

(** The text between the first pair of parentheses. *)
Lemma slice_parens {E} before inner after :
  slice (E := E) (before +:+ "(" +:+ inner +:+ ")" +:+ after)
    (String.length before + 1) (String.length (before +:+ "(" +:+ inner)) = Done inner.
Proof.
  unfold slice. rewrite !length_append. cbn [String.length].
  assert (H : (String.length before + 1 <=? String.length before + (1 + String.length inner))
    && (String.length before + (1 + String.length inner)
        <=? String.length before + (1 + (String.length inner + (1 + String.length after))))
    = true) by (apply andb_true_iff; rewrite !Nat.leb_le; lia).
  rewrite H. f_equal.
  replace (String.length before + 1) with (String.length (before +:+ "("))
    by (rewrite length_append; done).
  rewrite <- append_assoc. rewrite str_drop_app.
  replace (_ - _) with (String.length inner) by (rewrite length_append; cbn; lia).
  by rewrite str_take_app.
Qed.

(** The positions the parser finds in such a text. *)
Lemma parens_at {E} before inner after :
  let text := before +:+ "(" +:+ inner +:+ ")" +:+ after in
  let open := String.length before in
  let close := String.length (before +:+ "(" +:+ inner) in
  str_has "(" before = false -> str_has ")" before = false -> str_has ")" inner = false ->
  find_char "(" text = Some open /\ find_char ")" text = Some close
  /\ slice (E := E) text (open + 1) close = Done inner
  /\ str_drop (close + 1) text = after /\ str_take open text = before.
Proof.
  intros text open close Hb Hb' Hi. repeat split.
  - by apply find_char_app.
  - unfold text, close.
    assert (Heq : before +:+ "(" +:+ inner +:+ ")" +:+ after
                  = (before +:+ "(" +:+ inner) +:+ String ")" after) by (by rewrite !append_assoc).
    rewrite Heq. apply find_char_app.
    assert (Happ : forall a s t, str_has a (s +:+ t) = str_has a s || str_has a t).
    { induction s as [|b s IH]; intros t; [done |]. rewrite append_cons. cbn.
      by rewrite IH, orb_assoc. }
    by rewrite !Happ, Hb', Hi.
  - apply slice_parens.
  - unfold text, close.
    replace (_ + 1) with (String.length ((before +:+ "(" +:+ inner) +:+ ")"))
      by (rewrite length_append; done).
    rewrite <- (str_drop_app ((before +:+ "(" +:+ inner) +:+ ")") after) at 2.
    by rewrite !append_assoc.
  - apply str_take_app.
Qed.

Lemma parse_generated_fk version name column table ref_column :
  plain_name name -> plain_name column -> plain_name table -> plain_name ref_column ->
  parse_foreign_key version
    (name +:+ " FOREIGN KEY (" +:+ column +:+ ") REFERENCES " +:+ table +:+ "("
     +:+ ref_column +:+ ")")
  = Done {| dfk_name := name; dfk_column_name := column; dfk_references_table := table;
            dfk_references_column := ref_column |}.
Proof.
  intros Hname Hcol Htable Href. unfold parse_foreign_key.
  set (refs := table +:+ "(" +:+ ref_column +:+ ")").
  change (" FOREIGN KEY (" +:+ column +:+ ") REFERENCES " +:+ refs)
    with (" FOREIGN KEY " +:+ "(" +:+ column +:+ ")" +:+ " REFERENCES " +:+ refs).
  rewrite split_once_str_app by (by apply name_free).
  destruct (parens_at (E := MarretaError) EmptyString column (" REFERENCES " +:+ refs))
    as (H1 & H2 & H3 & H4 & _); [done | done | by apply name_free |].
  change (EmptyString +:+ ?x) with x in *. rewrite H1, H2, H3. cbn [mbind outcome_bind].
  rewrite H4.
  assert (Hrefs : tight refs).
  { unfold refs. tight_text. }
  assert (Htrim : trim (" REFERENCES " +:+ refs) = "REFERENCES " +:+ refs).
  { change (" REFERENCES " +:+ refs) with (" " +:+ ("REFERENCES " +:+ refs)).
    rewrite <- (append_nil_r ("REFERENCES " +:+ refs)) at 1. apply trim_between; [done | done | |].
    - apply sql_is_ascii. unfold refs. text_class.
    - tight_text. }
  rewrite Htrim, strip_prefix_append.
  destruct (parens_at (E := MarretaError) table ref_column EmptyString)
    as (R1 & R2 & R3 & _ & R5); [by apply name_free.. |].
  change (")" +:+ EmptyString) with ")" in *. fold refs in R1, R2, R3, R5.
  rewrite R1, R2, R3. cbn [mbind outcome_bind]. by rewrite R5, !trim_name.
Qed.

Lemma plain_constraint_name table column :
  plain_name table -> plain_name column ->
  plain_name (foreign_key_constraint_name table column).
Proof.
  intros [_ Ht] [_ Hc]. split; [done |]. unfold foreign_key_constraint_name. text_class.
Qed.

Definition foreign_key_text (table_name : string) (fk : PersistentForeignKey) : string :=
  foreign_key_constraint_name table_name (pfk_column_name fk)
  +:+ " FOREIGN KEY (" +:+ pfk_column_name fk +:+ ") REFERENCES "
  +:+ pfk_references_table fk +:+ "(" +:+ pfk_references_column fk +:+ ")".

Definition plain_foreign_key (fk : PersistentForeignKey) : Prop :=
  plain_name (pfk_column_name fk) /\ plain_name (pfk_references_table fk)
  /\ plain_name (pfk_references_column fk).

Lemma alter_fk_effect schema m stmt table_name fk :
  plain_name table_name -> plain_foreign_key fk ->
  apply_alter_table_stmt schema m stmt
    (table_name +:+ " ADD CONSTRAINT " +:+ foreign_key_text table_name fk)
  = Done (apply_op schema (AddForeignKey table_name fk)).
Proof.
  intros Hname (Hcol & Htable & Href). unfold apply_alter_table_stmt.
  change (" ADD CONSTRAINT " +:+ ?r) with (String " " ("ADD CONSTRAINT " +:+ r)).
  rewrite split_once_app by (by apply name_free).
  assert (Hno : forall r, strip_keyword_ci ("ADD CONSTRAINT " +:+ r) "ADD COLUMN " = None)
    by done.
  rewrite Hno, strip_keyword_app. unfold foreign_key_text.
  rewrite parse_generated_fk by auto using plain_constraint_name. cbn [mbind outcome_bind].
  f_equal. symmetry. by apply (apply_op_set schema (AddForeignKey table_name fk)).
Qed.

(** * The replay of a generated migration *)

Definition plain_op (op : MigrationOp) : Prop :=
  plain_name (op_table op)
  /\ match op with
     | CreateTable _ columns => Forall plain_column columns
     | AddColumn _ column => plain_column column
     | AddForeignKey _ fk => plain_foreign_key fk
     end.

(** [stmt] followed by a semicolon is what the planner prints for [op]. *)
Definition statement_of (op : MigrationOp) (stmt : string) : Prop :=
  all_bytes sql_char stmt /\ tight stmt
  /\ forall schema m blank, all_bytes blank_char blank ->
       apply_statement schema m (blank +:+ stmt) = Done (apply_op schema op).

Lemma render_column_text debug c :
  plain_column c ->
  exists def, render_postgres_column debug c = Ok def /\ column_text c def.
Proof.
  intros Hc. destruct (render_plain_column debug c Hc) as (suffix & Hr & Hsuffix).
  exists (column_def c suffix). split; [done |]. exists suffix. destruct Hc as [Hok _]. tauto.
Qed.

Lemma render_plain_columns debug columns :
  Forall plain_column columns ->
  exists defs, collect (render_postgres_column debug) columns = Ok defs
    /\ Forall2 column_text columns defs.
Proof.
  induction 1 as [|c columns Hc _ (defs & Hdefs & Hall)]; [exists []; by repeat constructor |].
  destruct (render_column_text debug c Hc) as (def & Hr & Hdef).
  exists (def :: defs). cbn. rewrite Hr, Hdefs. split; [done | by constructor].
Qed.

Lemma column_texts_class columns defs :
  Forall2 column_text columns defs -> Forall (all_bytes sql_char) defs.
Proof.
  induction 1 as [|c def columns defs Hc _ IH]; constructor; [| done].
  apply column_text_class in Hc as [Hc _]. auto with marreta.
Qed.

(** The conditions of [statement_of], from the class of a text and the effect
    of reading it. *)
Lemma statement_intro op stmt :
  all_bytes sql_char stmt -> tight stmt ->
  (forall schema m,
    match strip_keyword_ci stmt "CREATE TABLE " with
    | Some rest => of_result (apply_create_table_stmt schema rest (lm_version m))
    | None =>
        match strip_keyword_ci stmt "ALTER TABLE " with
        | Some rest => apply_alter_table_stmt schema m stmt rest
        | None => Panics
        end
    end = Done (apply_op schema op)) ->
  statement_of op stmt.
Proof.
  intros Hclass Htight Heffect. split; [done |]. split; [done |]. intros schema m blank Hblank.
  rewrite apply_statement_plain by done. specialize (Heffect schema m).
  destruct (strip_keyword_ci stmt "CREATE TABLE "); [done |].
  by destruct (strip_keyword_ci stmt "ALTER TABLE ").
Qed.

Lemma alter_keyword rest :
  strip_keyword_ci ("ALTER TABLE " +:+ rest) "CREATE TABLE " = None.
Proof. reflexivity. Qed.

Lemma render_plain_op debug op :
  plain_op op ->
  exists stmt, render_postgres_op debug op = Ok (stmt +:+ ";") /\ statement_of op stmt.
Proof.
  intros [Hname Hop]. destruct op as [t columns|t column|t fk]; cbn [op_table] in Hname;
    cbn [render_postgres_op].
  - destruct (render_plain_columns debug columns Hop) as (defs & -> & Hall).
    exists ("CREATE TABLE " +:+ t +:+ " (" +:+ indent +:+ join ("," +:+ indent) defs
            +:+ newline +:+ ")").
    cbn [mbind result_bind]. split; [by rewrite !append_assoc |].
    apply statement_intro; [| tight_text |].
    { text_class. apply all_bytes_join; [done | by eapply column_texts_class]. }
    intros schema m. by rewrite strip_keyword_app, (create_effect schema t _ columns).
  - destruct (render_column_text debug column Hop) as (def & -> & Hdef).
    destruct (column_text_class column def Hdef) as [Hclass Htight].
    exists ("ALTER TABLE " +:+ t +:+ " ADD COLUMN " +:+ def).
    cbn [mbind result_bind]. split; [by rewrite !append_assoc |].
    apply statement_intro; [text_class | tight_text |].
    intros schema m. rewrite alter_keyword, strip_keyword_app. by apply alter_column_effect.
  - exists ("ALTER TABLE " +:+ t +:+ " ADD CONSTRAINT " +:+ foreign_key_text t fk).
    split; [unfold foreign_key_text; by rewrite !append_assoc |].
    destruct Hop as (Hc & Hr & Hrc). pose proof (plain_constraint_name t _ Hname Hc) as Hk.
    apply statement_intro; [unfold foreign_key_text; text_class
                           | unfold foreign_key_text; tight_text |].
    intros schema m. rewrite alter_keyword, strip_keyword_app. by apply alter_fk_effect.
Qed.

(** The statements of a script, read back one after the other. *)
Lemma replay_statements m ops stmts schema blank :
  Forall2 statement_of ops stmts -> all_bytes blank_char blank ->
  fold_outcome (fun schema => apply_statement schema m)
    (split_sql 0 blank (join (newline +:+ newline) (map (fun s => s +:+ ";") stmts) +:+ newline))
    schema
  = Done (apply_ops schema ops).
Proof.
  intros Hall. revert blank schema.
  assert (Hlast : forall schema blank, all_bytes blank_char blank ->
    fold_outcome (fun schema => apply_statement schema m) (split_sql 0 blank newline) schema
    = Done schema).
  { intros schema blank Hblank. rewrite <- (append_nil_r newline), split_sql_plain by done. cbn.
    destruct (String.eqb _ _); [done |]. cbn. rewrite apply_statement_blank; [done |].
    apply all_bytes_app. by split. }
  induction Hall as [|op stmt ops stmts (Hclass & Htight & Heffect) Hall IH]; intros blank schema Hblank;
    [by apply Hlast |].
  assert (Hstep : forall rest,
    fold_outcome (fun schema => apply_statement schema m)
      (split_sql 0 blank ((stmt +:+ ";") +:+ rest)) schema
    = fold_outcome (fun schema => apply_statement schema m) (split_sql 0 EmptyString rest)
        (apply_op schema op)).
  { intros rest. rewrite append_assoc, split_sql_plain by done.
    change (";" +:+ rest) with (String ";" rest). cbn [split_sql].
    cbn -[split_sql apply_statement]. by rewrite Heffect. }
  destruct Hall as [|op' stmt' ops stmts Hop' Hall].
  - cbn [map join]. rewrite Hstep. by apply Hlast.
  - cbn [map]. change (join (newline +:+ newline) ((stmt +:+ ";") :: ?l))
      with ((stmt +:+ ";") +:+ (newline +:+ newline) +:+ join (newline +:+ newline) l).
    rewrite append_assoc, Hstep. rewrite append_assoc, split_sql_plain by done.
    by apply (IH (newline +:+ newline)).
Qed.

Lemma join_ends stmts :
  stmts <> [] -> exists t, join (newline +:+ newline) (map (fun s => s +:+ ";") stmts) = t +:+ ";".
Proof.
  induction stmts as [|s stmts IH]; [done |]. intros _.
  destruct stmts as [|s' stmts]; [by exists s |]. destruct IH as [t Ht]; [done |].
  exists ((s +:+ ";") +:+ (newline +:+ newline) +:+ t). cbn [map join] in *. by rewrite Ht, !append_assoc.
Qed.

Lemma join_sql_newline stmts :
  join_sql (map (fun s => s +:+ ";") stmts)
  = join (newline +:+ newline) (map (fun s => s +:+ ";") stmts) +:+ newline.
Proof.
  unfold join_sql. assert (Hends : ends_with newline
    (join (newline +:+ newline) (map (fun s => s +:+ ";") stmts)) = false); [| by rewrite Hends].
  destruct stmts as [|s stmts]; [done |]. destruct (join_ends (s :: stmts)) as [t ->]; [done |].
  unfold ends_with. destruct (strip_suffix newline (t +:+ ";")) as [r|] eqn:Hr; [| done].
  exfalso. apply strip_suffix_Some, (f_equal (fun s => last (bytes s))) in Hr.
  rewrite !bytes_app, !last_app in Hr. discriminate Hr.
Qed.

(** A migration the planner printed is replayed as its operations. *)
Lemma replay_generated debug ops schema m up :
  Forall plain_op ops ->
  render_postgres_up_sql debug ops = Ok up -> lm_up_sql m = join_sql up ->
  apply_local_migration_to_schema schema m = Done (apply_ops schema ops).
Proof.
  intros Hops Hup Hm. unfold apply_local_migration_to_schema, split_sql_statements. rewrite Hm.
  assert (Hst : exists stmts, up = map (fun s => s +:+ ";") stmts /\ Forall2 statement_of ops stmts).
  { clear Hm. revert up Hup. induction Hops as [|op ops Hop _ IH]; intros up Hup.
    - injection Hup as <-. exists []. by split; [| constructor].
    - unfold render_postgres_up_sql in *. cbn in Hup.
      destruct (render_plain_op debug op Hop) as (stmt & Hr & Hstmt). rewrite Hr in Hup.
      destruct (collect _ ops) as [ys|]; [| done]. injection Hup as <-.
      destruct (IH ys) as (stmts & -> & Hall); [done |]. exists (stmt :: stmts).
      split; [done | by constructor]. }
  destruct Hst as (stmts & -> & Hall). rewrite join_sql_newline.
  by apply replay_statements.
Qed.
