(* ===== verification/MigrationFacts.v ===== *)
(** Theorems on migrations: the tables of the persistent schemas, generating a
    migration and replaying it, the classification of local and applied
    migrations, and what the statements of a script are. *)
From stdpp Require Import base list strings gmap sorting.
From Stdlib Require Import ZArith Lia.
From S2P Require Import Prelude RustStr Errors Ast Schemas SchemaCycle Migrations Replay PlanFacts ReplayFacts.

(** * The tables of the persistent schemas *)

(** The column a field becomes; a list of references has none. *)
Definition column_of_field (field : SchemaField) : option PersistentColumn :=
  match field_type field with
  | Reference _ => Some (reference_column field)
  | TypedList _ => None
  | _ => Some (build_primitive_column field)
  end.

Definition foreign_key_of_field (schemas : gmap string SchemaDefinition) (field : SchemaField)
  : option PersistentForeignKey :=
  match field_type field with
  | Reference target =>
      schema ← schemas !! target;
      table ← db_table schema;
      Some (reference_foreign_key field target table)
  | _ => None
  end.

(** The types a persistent schema can use. *)
Definition supported_field (schemas : gmap string SchemaDefinition) (field : SchemaField) : Prop :=
  match field_type field with
  | Reference target => exists schema table, schemas !! target = Some schema
                                             /\ db_table schema = Some table
  | ListType | MapType => False
  | _ => True
  end.

Lemma build_fields_Ok schemas name fields columns fks r :
  build_fields schemas name fields columns fks = Ok r <->
  Forall (supported_field schemas) fields
  /\ r = (columns ++ omap column_of_field fields, fks ++ omap (foreign_key_of_field schemas) fields).
Proof.
  revert columns fks. induction fields as [|f fields IH]; intros columns fks.
  { cbn. rewrite !app_nil_r. split; [by intros [= <-] | by intros [_ ->]]. }
  cbn [build_fields omap list_omap]. rewrite Forall_cons.
  unfold column_of_field, foreign_key_of_field, supported_field.
  destruct (field_type f) as [ | | | | | | | | | | | | values | target | inner] eqn:Hf;
    try (rewrite IH, <- app_assoc; cbn; tauto).
  - split; [done | by intros [[[] _] _]].
  - split; [done | by intros [[[] _] _]].
  - destruct (schemas !! target) as [schema|] eqn:Hs; cbn.
    + destruct (db_table schema) as [table|] eqn:Ht; cbn.
      * rewrite IH, <- !app_assoc. cbn. split; [intros [? ->] | intros [[_ ?] ->]]; [| done].
        split; [| done]. split; [by eauto | done].
      * split; [done |]. intros [[(s & t & [= <-] & Ht') _] _]. congruence.
    + split; [done |]. by intros [[(s & t & ? & _) _] _].
  - rewrite IH. cbn. tauto.
Qed.

(** The table of one persistent schema. *)
Definition table_of_schema (schemas : gmap string SchemaDefinition) (name table_name : string)
    (schema : SchemaDefinition) : PersistentTable :=
  mkPersistentTable name table_name (omap column_of_field (sd_fields schema))
    (omap (foreign_key_of_field schemas) (sd_fields schema)).

Lemma build_tables_Ok schemas todo tables r :
  NoDup (map fst todo) -> (forall n s, (n, s) ∈ todo -> schemas !! n = Some s) ->
  build_tables schemas todo tables = Ok r ->
  forall n, r !! n =
    match (if decide (n ∈ map fst todo) then schemas !! n else None) with
    | Some schema =>
        match db_table schema with
        | Some table_name => Some (table_of_schema schemas n table_name schema)
        | None => tables !! n
        end
    | None => tables !! n
    end
  /\ (n ∈ map fst todo -> forall schema, schemas !! n = Some schema -> is_persistent schema = true ->
      Forall (supported_field schemas) (sd_fields schema)).
Proof.
  revert tables. induction todo as [|[k s] todo IH]; intros tables Hnd Hin Hb n.
  { injection Hb as <-. rewrite decide_False by (by apply not_elem_of_nil).
    split; [done | by intros ?%not_elem_of_nil]. }
  cbn [map fst] in *. apply NoDup_cons in Hnd as [Hk Hnd]. cbn [build_tables] in Hb.
  assert (Hks : schemas !! k = Some s) by (apply Hin; by left).
  assert (Hrest : forall n s, (n, s) ∈ todo -> schemas !! n = Some s)
    by (intros; apply Hin; by right).
  destruct (db_table s) as [table|] eqn:Ht.
  - apply bind_Ok in Hb as ([columns fks] & Hf & Hb). apply build_fields_Ok in Hf as [Hsup Hf].
    injection Hf as -> ->. destruct (IH _ Hnd Hrest Hb n) as [Hr Hs]. rewrite Hr.
    destruct (decide (n = k)) as [->|Hne].
    + rewrite (decide_False (P := k ∈ _)), decide_True by (done || by left).
      rewrite lookup_insert_eq, Hks, Ht. split; [done |]. intros _ schema [= <-] _. done.
    + rewrite lookup_insert_ne by done.
      assert (Hiff : n ∈ k :: map fst todo <-> n ∈ map fst todo) by (rewrite elem_of_cons; tauto).
      split; [by rewrite (decide_ext _ _ _ _ Hiff) | rewrite Hiff; done].
  - destruct (IH _ Hnd Hrest Hb n) as [Hr Hs]. rewrite Hr.
    destruct (decide (n = k)) as [->|Hne].
    + rewrite (decide_False (P := k ∈ _)), decide_True by (done || by left).
      rewrite Hks, Ht. split; [done |]. intros _ schema [= <-]. unfold is_persistent. by rewrite Ht.
    + assert (Hiff : n ∈ k :: map fst todo <-> n ∈ map fst todo) by (rewrite elem_of_cons; tauto).
      split; [by rewrite (decide_ext _ _ _ _ Hiff) | rewrite Hiff; done].
Qed.

(** What the builder returns: one table per persistent schema. *)
Lemma build_persistent_tables_lookup `{HashOrder} schemas tables n :
  build_persistent_tables schemas = Ok tables ->
  tables !! n = match schemas !! n with
                | Some schema =>
                    match db_table schema with
                    | Some table_name => Some (table_of_schema schemas n table_name schema)
                    | None => None
                    end
                | None => None
                end
  /\ (forall schema, schemas !! n = Some schema -> is_persistent schema = true ->
      Forall (supported_field schemas) (sd_fields schema)).
Proof.
  unfold build_persistent_tables. intros (_ & _ & Hb)%bind_Ok.
  assert (Hkeys : forall k, k ∈ map fst (entries schemas) <-> is_Some (schemas !! k)).
  { intros k. rewrite list_elem_of_fmap. split.
    - intros ([k' v] & -> & Hin). exists v. by apply elem_of_entries.
    - intros (v & Hv). exists (k, v). split; [done |]. by apply elem_of_entries. }
  apply build_tables_Ok with (n := n) in Hb as [Hr Hs].
  - rewrite Hr. destruct (schemas !! n) as [schema|] eqn:Hn.
    + assert (Hin : n ∈ map fst (entries schemas)) by (apply Hkeys; by eexists).
      rewrite decide_True by done. rewrite lookup_empty. split; [done |]. by apply Hs.
    + split; [| done]. case_decide; by rewrite lookup_empty.
  - change (map ?f ?l) with (f <$> l). rewrite entries_perm. apply NoDup_fst_map_to_list.
  - intros k s. apply elem_of_entries.
Qed.

(** * Generating a migration *)

(** Schemas whose tables and fields are named by ASCII identifiers; a field is
    not named by a word that starts a table constraint. *)
Definition plain_schemas (schemas : gmap string SchemaDefinition) : Prop :=
  forall name schema table, schemas !! name = Some schema -> db_table schema = Some table ->
    plain_name table /\ Forall (fun f => column_name_ok (sf_name f)) (sd_fields schema).

(** [next] has everything [current] has. *)
Definition extends (current next : DatabaseSchema) : Prop :=
  forall t old, db_tables current !! t = Some old ->
    exists new, db_tables next !! t = Some new
      /\ dt_columns old ⊆ dt_columns new /\ dt_foreign_keys old ⊆ dt_foreign_keys new.

Lemma reference_column_ok f : column_name_ok (sf_name f) -> column_name_ok (sf_name f +:+ "_id").
Proof.
  intros [[_ Hn] _]. split; [split |].
  - by destruct (sf_name f).
  - by text_class.
  - rewrite to_upper_app. change (to_ascii_uppercase "_id") with "_ID". intros Hin.
    assert (Hhas : forall s, str_has "_" (s +:+ "_ID") = true).
    { induction s as [|a s IH]; [done |]. rewrite append_cons. cbn. by rewrite IH, orb_true_r. }
    specialize (Hhas (to_ascii_uppercase (sf_name f))).
    rewrite !elem_of_cons, elem_of_nil in Hin.
    by repeat (destruct Hin as [Hin|Hin]; [rewrite Hin in Hhas; discriminate Hhas |]).
Qed.

Lemma plain_tables `{HashOrder} schemas tables table :
  plain_schemas schemas -> build_persistent_tables schemas = Ok tables ->
  is_desired tables table ->
  plain_name (pt_table_name table) /\ Forall plain_column (pt_columns table)
  /\ Forall plain_foreign_key (pt_foreign_keys table).
Proof.
  intros Hplain Hb (n & Hn).
  destruct (build_persistent_tables_lookup schemas tables n Hb) as [Hlookup Hsup].
  rewrite Hn in Hlookup. destruct (schemas !! n) as [schema|] eqn:Hs; [| done].
  destruct (db_table schema) as [t|] eqn:Ht; [| done]. injection Hlookup as ->.
  destruct (Hplain n schema t Hs Ht) as [Hname Hfields]. cbn. split; [done |].
  specialize (Hsup schema eq_refl). unfold is_persistent in Hsup. rewrite Ht in Hsup.
  specialize (Hsup eq_refl). rewrite !Forall_forall in *. split.
  - intros c (f & Hf & Hc)%list_elem_of_omap. specialize (Hfields f Hf). specialize (Hsup f Hf).
    unfold column_of_field, supported_field in *.
    destruct (field_type f) eqn:Hft; try discriminate Hc; try done; injection Hc as <-;
      (split; [| split; [done |]]; cbn; rewrite ?Hft; try done).
    by apply reference_column_ok.
  - intros fk (f & Hf & Hfk)%list_elem_of_omap. specialize (Hfields f Hf).
    unfold foreign_key_of_field in Hfk. destruct (field_type f); try discriminate Hfk.
    destruct (schemas !! name) as [target|] eqn:Htarget; [| done]. cbn in Hfk.
    destruct (db_table target) as [table|] eqn:Htable; [| done]. injection Hfk as <-.
    destruct (Hplain name target table Htarget Htable) as [Hp _].
    repeat split; try done; cbn; try (by destruct Hp); [by destruct (sf_name f) |].
    destruct Hfields as [[_ ?] _]. by text_class.
Qed.

Lemma plan_plain `{HashOrder} schemas tables current :
  plain_schemas schemas -> build_persistent_tables schemas = Ok tables ->
  Forall plain_op (plan_migration current tables).
Proof.
  intros Hplain Hb. rewrite Forall_forall. intros op Hop. unfold plan_migration in Hop.
  rewrite !elem_of_app in Hop.
  assert (Htable : forall (f : PersistentTable -> list MigrationOp),
    op ∈ flat_map f (sorted_tables tables) ->
    exists table, op ∈ f table /\ plain_name (pt_table_name table)
      /\ Forall plain_column (pt_columns table) /\ Forall plain_foreign_key (pt_foreign_keys table)).
  { intros f (table & Hin & Hf)%elem_of_flat_map. exists table. split; [done |].
    apply (plain_tables schemas tables); [done | done |]. by apply elem_of_sorted_tables. }
  destruct Hop as [Hop | [Hop | Hop]]; apply Htable in Hop as (table & Hop & Hname & Hc & Hfk).
  - unfold create_ops in Hop. destruct (_ !! _); [by apply not_elem_of_nil in Hop |].
    by apply list_elem_of_singleton in Hop as ->.
  - unfold add_column_ops in Hop. destruct (_ !! _) as [e|]; [| by apply not_elem_of_nil in Hop].
    apply elem_of_flat_map in Hop as (c & Hin & Hop).
    destruct (_ !! _); [by apply not_elem_of_nil in Hop |].
    apply list_elem_of_singleton in Hop as ->. split; [done |].
    rewrite Forall_forall in Hc. by apply Hc.
  - rewrite Forall_forall in Hfk. unfold add_fk_ops in Hop. destruct (_ !! _) as [e|].
    + apply elem_of_flat_map in Hop as (fk & Hin & Hop).
      destruct (_ !! _); [by apply not_elem_of_nil in Hop |].
      apply list_elem_of_singleton in Hop as ->. split; [done | by apply Hfk].
    + apply list_elem_of_fmap in Hop as (fk & -> & Hin). split; [done | by apply Hfk].
Qed.

Lemma render_total debug ops :
  Forall plain_op ops -> exists up, render_postgres_up_sql debug ops = Ok up.
Proof.
  unfold render_postgres_up_sql.
  induction 1 as [|op ops Hop _ (up & Hup)]; [by exists [] |].
  destruct (render_plain_op debug op Hop) as (stmt & Hr & _).
  exists ((stmt +:+ ";") :: up). cbn. by rewrite Hr, Hup.
Qed.

Lemma fold_outcome_snoc {E A S} (f : S -> A -> outcome E S) l x s s' :
  fold_outcome f l s = Done s' -> fold_outcome f (l ++ [x]) s = f s' x.
Proof.
  revert s. induction l as [|y l IH]; intros s; cbn.
  - intros [= ->]. by destruct (f s' x).
  - destruct (f s y); cbn; [apply IH | done..].
Qed.

Lemma plan_extends `{HashOrder} current desired :
  distinct_tables desired -> extends current (apply_ops current (plan_migration current desired)).
Proof.
  intros Hd t old Hold.
  destruct (decide (t ∈ map pt_table_name (sorted_tables desired))) as [Ht|Ht].
  - apply list_elem_of_fmap in Ht as (table & -> & Hin%elem_of_sorted_tables).
    destruct (next_table current desired Hd table Hin) as (name & Hnext).
    eexists. split; [exact Hnext |]. cbn.
    unfold old_columns, old_foreign_keys in *. rewrite Hold. split.
    + apply map_subseteq_spec. intros k c Hk. rewrite add_columns_lookup.
      destruct (last _) as [x|] eqn:Hx; [| done].
      apply last_Some_elem_of, list_elem_of_filter in Hx as [<- Hx].
      apply list_elem_of_filter in Hx as [Hx _]. unfold old_columns in Hx. rewrite Hold in Hx.
      congruence.
    + apply map_subseteq_spec. intros k fk Hk.
      rewrite add_foreign_keys_other; [done |].
      rewrite Forall_forall. intros x [Hx _]%list_elem_of_filter Heq.
      unfold old_foreign_keys in Hx. rewrite Hold in Hx. congruence.
  - exists old. rewrite next_other; [by split |]. intros table Hin <-.
    apply Ht, list_elem_of_fmap. exists table. split; [done |]. by apply elem_of_sorted_tables.
Qed.

(** C5: generating a migration reaches the schemas of the project.  For schemas
    with plain names and tables that are not shared, and a history that can be
    replayed, the plan can be rendered; a migration with that text can be
    replayed after the history; the schema it leads to keeps every table,
    column and foreign key of the history, leaves nothing to plan, and has the
    unsupported changes the history had, no fewer and no more. *)
Theorem generated_migration_converges `{HashOrder} debug schemas tables history current :
  plain_schemas schemas ->
  build_persistent_tables schemas = Ok tables ->
  distinct_tables tables ->
  build_schema_from_local_migrations history = Done current ->
  exists up, render_postgres_up_sql debug (plan_migration current tables) = Ok up
    /\ forall migration, lm_up_sql migration = join_sql up ->
       exists next,
         build_schema_from_local_migrations (history ++ [migration]) = Done next
         /\ extends current next
         /\ plan_migration next tables = []
         /\ detect_schema_drift next tables = detect_schema_drift current tables.
Proof.
  intros Hplain Hb Hd Hcur.
  pose proof (plan_plain schemas tables current Hplain Hb) as Hops.
  destruct (render_total debug _ Hops) as (up & Hup). exists up. split; [done |].
  intros m Hm. exists (apply_ops current (plan_migration current tables)).
  split; [| split; [by apply plan_extends | split; [by apply plan_again | by apply drift_again]]].
  unfold build_schema_from_local_migrations in *.
  rewrite (fold_outcome_snoc _ _ _ _ _ Hcur). by apply (replay_generated debug _ _ _ up).
Qed.

(** A project with a required, an optional and a referencing field. *)
Definition demo_schemas : gmap string SchemaDefinition :=
  list_to_map
    [("User", mkSchemaDefinition (Some "users")
        [mkSchemaField "id" IntegerType false; mkSchemaField "name" StringType false;
         mkSchemaField "posts" (TypedList (Reference "Post")) true]);
     ("Post", mkSchemaDefinition (Some "posts")
        [mkSchemaField "id" IntegerType false; mkSchemaField "price" DecimalType true;
         mkSchemaField "author" (Reference "User") false])].

Definition demo_tables : gmap string PersistentTable :=
  match @build_persistent_tables sorted_order demo_schemas with Ok t => t | Err _ => ∅ end.

Definition plain_nameb (s : string) : bool :=
  negb (String.eqb s EmptyString) && forallb ident_char (bytes s).
Definition column_name_okb (s : string) : bool :=
  plain_nameb s
  && bool_decide (to_ascii_uppercase s ∉ ["CONSTRAINT"; "UNIQUE"; "CHECK"; "EXCLUDE"]).
Definition plain_schemasb (schemas : gmap string SchemaDefinition) : bool :=
  forallb (fun e => match db_table (snd e) with
                    | Some table => plain_nameb table
                        && forallb (fun f => column_name_okb (sf_name f)) (sd_fields (snd e))
                    | None => true
                    end) (map_to_list schemas).

Lemma plain_nameb_ok s : plain_nameb s = true -> plain_name s.
Proof.
  unfold plain_nameb. intros [Hne Hs]%andb_true_iff. split; [| done].
  by apply negb_true_iff, String.eqb_neq in Hne.
Qed.

Lemma plain_schemasb_ok schemas : plain_schemasb schemas = true -> plain_schemas schemas.
Proof.
  unfold plain_schemasb. rewrite forallb_forall. intros Hall n s t Hs Ht.
  specialize (Hall (n, s)). cbn in Hall. rewrite Ht in Hall.
  destruct (andb_prop _ _ (Hall (proj1 (list_elem_of_In _ _) (proj2 (elem_of_map_to_list _ _ _) Hs)))) as [Hname Hf].
  split; [by apply plain_nameb_ok |]. rewrite forallb_forall in Hf. rewrite Forall_forall.
  intros f Hin%list_elem_of_In. destruct (andb_prop _ _ (Hf f Hin)) as [Hn Hlead].
  split; [by apply plain_nameb_ok |]. by apply bool_decide_eq_true in Hlead.
Qed.

(** The first migration of the project, from an empty history. *)
Lemma generated_migration_converges_witness :
  exists up, render_postgres_up_sql (fun _ => EmptyString)
               (@plan_migration sorted_order empty_schema demo_tables) = Ok up
    /\ forall migration, lm_up_sql migration = join_sql up ->
       exists next,
         build_schema_from_local_migrations ([] ++ [migration]) = Done next
         /\ extends empty_schema next
         /\ @plan_migration sorted_order next demo_tables = []
         /\ @detect_schema_drift sorted_order next demo_tables
            = @detect_schema_drift sorted_order empty_schema demo_tables.
Proof.
  apply (@generated_migration_converges sorted_order (fun _ => EmptyString) demo_schemas demo_tables
    [] empty_schema).
  - apply plain_schemasb_ok. vm_compute. reflexivity.
  - vm_compute. reflexivity.
  - apply (bool_decide_unpack (NoDup _)). vm_compute. exact I.
  - reflexivity.
Defined.

(** The text of that migration. *)
Example demo_migration :
  render_postgres_up_sql (fun _ => EmptyString)
    (@plan_migration sorted_order empty_schema demo_tables)
  = Ok ["CREATE TABLE posts (" +:+ indent
          +:+ "id BIGINT PRIMARY KEY GENERATED BY DEFAULT AS IDENTITY NOT NULL," +:+ indent
          +:+ "price NUMERIC," +:+ indent +:+ "author_id BIGINT NOT NULL" +:+ newline +:+ ");";
        "CREATE TABLE users (" +:+ indent
          +:+ "id BIGINT PRIMARY KEY GENERATED BY DEFAULT AS IDENTITY NOT NULL," +:+ indent
          +:+ "name TEXT NOT NULL" +:+ newline +:+ ");";
        "ALTER TABLE posts ADD CONSTRAINT fk_posts_author_id FOREIGN KEY (author_id) REFERENCES users(id);"].
Proof. vm_compute. reflexivity. Qed.

(** A field called [exclude] is a legal column, and its definition is taken
    for a constraint of the table: the plan adds the column again. *)
Definition exclude_schemas : gmap string SchemaDefinition :=
  {[ "Rule" := mkSchemaDefinition (Some "rules")
       [mkSchemaField "id" IntegerType false; mkSchemaField "exclude" BooleanType false] ]}.

Definition generated (sql : string) : LocalMigration :=
  mkLocalMigration "20240101_000000" "m" "m.up.sql" None sql None EmptyString.

(** The history after one generated migration, and the plan that follows. *)
Definition plan_after_generate (schemas : gmap string SchemaDefinition)
  : outcome MarretaError (list MigrationOp) :=
  tables ← of_result (@build_persistent_tables sorted_order schemas);
  up ← of_result (render_postgres_up_sql (fun _ => EmptyString)
                    (@plan_migration sorted_order empty_schema tables));
  next ← build_schema_from_local_migrations [generated (join_sql up)];
  Done (@plan_migration sorted_order next tables).

Example exclude_does_not_converge :
  match plan_after_generate exclude_schemas with
  | Done [AddColumn "rules" column] => String.eqb (pc_column_name column) "exclude"
  | _ => false
  end = true.
Proof. vm_compute. reflexivity. Qed.

(** Two schemas of one table: the table is created twice. *)
Example shared_table_created_twice :
  match @build_persistent_tables sorted_order
          {[ "A" := mkSchemaDefinition (Some "t") [mkSchemaField "id" IntegerType false];
             "B" := mkSchemaDefinition (Some "t") [mkSchemaField "id" IntegerType false] ]} with
  | Ok tables => map op_table (@plan_migration sorted_order empty_schema tables)
  | Err _ => []
  end = ["t"; "t"].
Proof. vm_compute. reflexivity. Qed.

(** A foreign key with its parentheses in the wrong order stops the command
    with a panic, not with an error. *)
Example foreign_key_parentheses_panic :
  build_schema_from_local_migrations
    [generated "ALTER TABLE t ADD CONSTRAINT c FOREIGN KEY )x( REFERENCES y(id);"] = Panics.
Proof. vm_compute. reflexivity. Qed.

(** [IF NOT EXISTS] is read as part of a name. *)
Example if_not_exists_is_a_name :
  match build_schema_from_local_migrations
          [generated "CREATE TABLE IF NOT EXISTS users (id BIGINT);
ALTER TABLE users ADD COLUMN IF NOT EXISTS age BIGINT;"] with
  | Done schema => map (fun e => (fst e, map fst (map_to_list (dt_columns (snd e)))))
                     (map_to_list (db_tables schema))
  | _ => []
  end = [("users", ["IF"]); ("IF NOT EXISTS users", ["id"])].
Proof. vm_compute. reflexivity. Qed.
