(* ===== verification/SqlTextFacts.v ===== *)
(** What the scanners of the replay (Replay.v) make of SQL text.  A statement
    is specified as a list of segments: plain characters, string literals,
    dollar-quoted strings and comments.  Splitting gives back the statements,
    whatever their literals and comments contain, and removing the comments
    keeps everything else. *)
From stdpp Require Import base list strings.
From Stdlib Require Import ZArith Lia.
From S2P Require Import Prelude RustStr Errors Migrations Replay PlanFacts ReplayFacts.

Inductive segment : Type :=
| Plain (c : Ascii.ascii)
| Operator (c d : Ascii.ascii)
| Literal (content : string)
| DollarQuoted (tag content : string)
| LineComment (content : string)
| BlockComment (content : string).

Arguments Plain _%_char_scope.
Arguments Operator _%_char_scope _%_char_scope.

(** The content of a string literal with its quotes doubled. *)
Definition escape_quotes (s : string) : string := replace_with "'" "''" s.

Definition dollar_tag (tag : string) : string := "$" +:+ tag +:+ "$".

Definition print_segment (g : segment) : string :=
  match g with
  | Plain c => String c EmptyString
  | Operator c d => String c (String d EmptyString)
  | Literal s => "'" +:+ escape_quotes s +:+ "'"
  | DollarQuoted tag s => dollar_tag tag +:+ s +:+ dollar_tag tag
  | LineComment s => "--" +:+ s +:+ newline
  | BlockComment s => "/*" +:+ s +:+ "*/"
  end.

Definition print_segments (l : list segment) : string :=
  fold_right (fun g rest => print_segment g +:+ rest) EmptyString l.

(** What is left of a segment without comments; a line keeps its end. *)
Definition strip_segment (g : segment) : string :=
  match g with
  | LineComment _ => newline
  | BlockComment _ => EmptyString
  | _ => print_segment g
  end.

Definition strip_segments (l : list segment) : string :=
  fold_right (fun g rest => strip_segment g +:+ rest) EmptyString l.

(** A character that starts nothing. *)
Definition text_char (c : Ascii.ascii) : bool :=
  negb (Ascii.eqb c "'" || Ascii.eqb c ";" || Ascii.eqb c "-" || Ascii.eqb c "/"
        || Ascii.eqb c "$").

Definition tag_ok (tag : string) : bool :=
  match tag with
  | EmptyString => true
  | String c rest =>
      (is_ascii_alphabetic (ch c) || Ascii.eqb c "_")
      && forallb (fun c => is_ascii_alphanumeric c || (c =? ch "_")%N) (bytes rest)
  end.

Definition segment_ok (g : segment) : Prop :=
  match g with
  | Plain c => text_char c = true
  | Operator c d => text_char d = true
                    /\ (Ascii.eqb c "-" || Ascii.eqb c "/" && negb (Ascii.eqb d "*")) = true
  | Literal _ => True
  | DollarQuoted tag s =>
      tag_ok tag = true
      /\ String.index 0 (dollar_tag tag) (s +:+ dollar_tag tag) = Some (String.length s)
  | LineComment s => str_has (byte 10) s = false
  | BlockComment s => str_contains "*/" s = false
  end.

(** Two adjacent literals would be one literal with a quote inside. *)
Fixpoint segments_ok (l : list segment) : Prop :=
  match l with
  | [] => True
  | g :: l =>
      segment_ok g
      /\ match g, l with Literal _, Literal _ :: _ => False | _, _ => True end
      /\ segments_ok l
  end.

(** * The skip functions *)

(** [r] does not continue a literal. *)
Definition no_quote (r : string) : Prop := starts_with "'" r = false.

(** A prefix of one character, computed on the character. *)
Lemma starts_with_char a c r : starts_with (String a EmptyString) (String c r) = Ascii.eqb a c.
Proof.
  unfold starts_with. cbn. destruct (Ascii.ascii_dec a c) as [->|Hne].
  - rewrite Ascii.eqb_refl. by destruct r.
  - symmetry. by apply Ascii.eqb_neq.
Qed.

Lemma escape_cons c s :
  escape_quotes (String c s)
  = (if Ascii.eqb "'" c then "''" else String c EmptyString) +:+ escape_quotes s.
Proof. unfold escape_quotes. cbn [replace_with]. by destruct (Ascii.eqb "'" c). Qed.

Lemma skip_quoted s r :
  no_quote r ->
  skip_single_quoted (escape_quotes s +:+ "'" +:+ r) = String.length (escape_quotes s +:+ "'").
Proof.
  intros Hr. induction s as [|c s IH].
  - change (escape_quotes EmptyString +:+ ?x) with x. rewrite append_cons.
    change (EmptyString +:+ r) with r. cbn [skip_single_quoted String.length].
    destruct r as [|d r]; [done |]. unfold no_quote in Hr. rewrite starts_with_char in Hr.
    rewrite Ascii.eqb_refl, (Ascii.eqb_sym d), Hr. done.
  - rewrite escape_cons. destruct (Ascii.eqb_spec "'" c) as [<-|Hc].
    + rewrite !append_assoc. change ("''" +:+ ?x) with (String "'" (String "'" x)).
      cbn [skip_single_quoted String.length]. rewrite Ascii.eqb_refl. by rewrite IH.
    + rewrite !append_assoc. change (String c EmptyString +:+ ?x) with (String c x).
      cbn [skip_single_quoted String.length].
      destruct (Ascii.eqb_spec c "'") as [->|]; [done |]. by rewrite IH.
Qed.

Lemma skip_line s r :
  str_has (byte 10) s = false ->
  skip_line_comment (s +:+ newline +:+ r) = String.length s.
Proof.
  induction s as [|c s IH]; [done |]. cbn [str_has]. intros [Hc Hs]%orb_false_iff.
  rewrite append_cons. cbn [skip_line_comment String.length].
  rewrite Ascii.eqb_sym, Hc. by rewrite IH.
Qed.

(** [str::contains], one character at a time. *)
Lemma contains_cons p c s :
  p <> EmptyString -> str_contains p (String c s) = false ->
  starts_with p (String c s) = false /\ str_contains p s = false.
Proof.
  intros Hp. unfold str_contains, starts_with. cbn [String.index].
  destruct (String.prefix p (String c s)); [done |].
  destruct (String.index 0 p s); done.
Qed.

Lemma skip_block_step c d r :
  skip_block_comment (String c (String d r))
  = if Ascii.eqb c "*" && Ascii.eqb d "/" then 2 else S (skip_block_comment (String d r)).
Proof. reflexivity. Qed.

Lemma skip_block s r :
  str_contains "*/" s = false ->
  skip_block_comment (s +:+ "*/" +:+ r) = String.length (s +:+ "*/").
Proof.
  induction s as [|c s IH]; [done |]. intros [Hp Hs]%contains_cons; [| done].
  rewrite !append_cons. cbn [String.length]. destruct s as [|d s].
  - change (skip_block_comment (String c (String "*" (String "/" r))) = 3).
    rewrite skip_block_step. by rewrite andb_false_r.
  - rewrite !append_cons in *. rewrite skip_block_step, IH by done.
    unfold starts_with in Hp. cbn in Hp.
    destruct (Ascii.ascii_dec "*" c) as [<-|Hc].
    + destruct (Ascii.ascii_dec "/" d) as [<-|Hd]; [by destruct s |].
      by apply not_eq_sym, Ascii.eqb_neq in Hd as ->.
    + by apply not_eq_sym, Ascii.eqb_neq in Hc as ->.
Qed.

Lemma ident_len_app s d r :
  forallb (fun c => is_ascii_alphanumeric c || (c =? ch "_")%N) (bytes s) = true ->
  (is_ascii_alphanumeric (ch d) || Ascii.eqb d "_") = false ->
  ident_len (s +:+ String d r) = String.length s.
Proof.
  intros Hs Hd. induction s as [|c s IH].
  - change (EmptyString +:+ String d r) with (String d r). cbn. by rewrite Hd.
  - cbn [bytes forallb] in Hs. apply andb_true_iff in Hs as [Hc Hs].
    rewrite append_cons. cbn [ident_len String.length]. rewrite IH by done.
    assert (Heq : Ascii.eqb c "_" = (ch c =? ch "_")%N).
    { destruct (Ascii.eqb_spec c "_") as [->|Hne]; [done |]. symmetry. apply N.eqb_neq.
      intros H. by apply Hne, ch_inj. }
    by rewrite Heq, Hc.
Qed.

Lemma dollar_tag_len_app tag r :
  tag_ok tag = true -> dollar_tag_len (tag +:+ "$" +:+ r) = Some (String.length (dollar_tag tag)).
Proof.
  unfold dollar_tag. rewrite length_append. change (String.length "$") with 1.
  destruct tag as [|c rest]; [done |]. cbn [tag_ok]. intros [Hc Hrest]%andb_true_iff.
  rewrite append_cons. cbn [dollar_tag_len].
  destruct (Ascii.eqb_spec c "$") as [->|]; [done |]. rewrite Hc.
  change ("$" +:+ r) with (String "$" r). rewrite ident_len_app by done.
  cbn [str_drop]. rewrite str_drop_app. cbn. f_equal. rewrite length_append. cbn. lia.
Qed.

(** * Copying and dropping a jump *)

Lemma split_pass s chunk t :
  split_sql (String.length s) chunk (s +:+ t) = split_sql 0 (chunk +:+ s) t.
Proof.
  revert chunk. induction s as [|c s IH]; intros chunk; [by rewrite append_nil_r |].
  rewrite append_cons. cbn [String.length split_sql]. by rewrite IH, snoc_app.
Qed.

Lemma strip_comments_0 keep s : strip_comments 0 keep s = strip_comments 0 true s.
Proof. by destruct s. Qed.

Lemma strip_pass s keep t :
  strip_comments (String.length s) keep (s +:+ t)
  = (if keep then s else EmptyString) +:+ strip_comments 0 true t.
Proof.
  induction s as [|c s IH]; [destruct keep; apply strip_comments_0 |].
  rewrite append_cons. cbn [String.length strip_comments]. rewrite IH. by destruct keep.
Qed.

Lemma prefix_extend d x r : String.prefix d x = true -> String.prefix d (x +:+ r) = true.
Proof.
  revert x. induction d as [|a d IH]; intros x H; [by destruct (x +:+ r) |].
  destruct x as [|b x]; [done |]. rewrite append_cons. cbn in *.
  destruct (Ascii.ascii_dec a b); [by apply IH | done].
Qed.

Lemma prefix_long d x r :
  String.length d <= String.length x -> String.prefix d (x +:+ r) = String.prefix d x.
Proof.
  revert x. induction d as [|a d IH]; intros x H; [by destruct (x +:+ r), x |].
  destruct x as [|b x]; cbn in H; [lia |]. rewrite append_cons. cbn.
  destruct (Ascii.ascii_dec a b); [apply IH; lia | done].
Qed.

Lemma prefix_length d x : String.prefix d x = true -> String.length d <= String.length x.
Proof.
  revert x. induction d as [|a d IH]; intros x H; [cbn; lia |].
  destruct x as [|b x]; [done |]. cbn in *.
  destruct (Ascii.ascii_dec a b); [| done]. apply IH in H. lia.
Qed.

Lemma index_cons d c x :
  String.index 0 d (String c x)
  = if String.prefix d (String c x) then Some 0 else S <$> String.index 0 d x.
Proof. cbn [String.index]. destruct (String.prefix d _); [done |]. by destruct (String.index 0 d x). Qed.

(** The first occurrence does not depend on what follows it. *)
Lemma index_extend d x r n :
  String.index 0 d x = Some n ->
  String.index 0 d (x +:+ r) = Some n /\ String.length d <= String.length x.
Proof.
  revert n. induction x as [|c x IH]; intros n H.
  - destruct d; [| done]. injection H as <-. split; [by destruct r | cbn; lia].
  - rewrite append_cons, index_cons in *. destruct (String.prefix d (String c x)) eqn:E.
    + rewrite <- append_cons, prefix_extend by done. split; [done | by apply prefix_length].
    + destruct (String.index 0 d x) as [m|] eqn:Em; [| done]. destruct (IH m) as [IHm Hlen]; [done |].
      assert (Hp : String.prefix d (String c (x +:+ r)) = false).
      { rewrite <- append_cons, prefix_long; [done |]. cbn. lia. }
      rewrite Hp, IHm. split; [done | cbn; lia].
Qed.

Lemma skip_dollar tag s r :
  String.index 0 (dollar_tag tag) (s +:+ dollar_tag tag) = Some (String.length s) ->
  skip_dollar_quoted ((tag +:+ "$") +:+ s +:+ dollar_tag tag +:+ r)
    (String.length (dollar_tag tag))
  = String.length ((tag +:+ "$") +:+ s +:+ dollar_tag tag).
Proof.
  intros Hindex. unfold skip_dollar_quoted.
  replace (String.length (dollar_tag tag) - 1) with (String.length (tag +:+ "$"))
    by (unfold dollar_tag; rewrite !length_append; cbn; lia).
  rewrite str_take_app, str_drop_app. change (String "$" (tag +:+ "$")) with (dollar_tag tag).
  destruct (index_extend _ _ r _ Hindex) as [Hfound _]. rewrite append_assoc in Hfound.
  rewrite Hfound, !length_append. lia.
Qed.

(** * One segment *)

(** What comes after a literal does not continue it. *)
Definition follows (g : segment) (r : string) : Prop :=
  match g with Literal _ => no_quote r | _ => True end.

Lemma text_char_tests c :
  text_char c = true ->
  Ascii.eqb c "'" = false /\ Ascii.eqb c ";" = false /\ Ascii.eqb c "-" = false
  /\ Ascii.eqb c "/" = false /\ Ascii.eqb c "$" = false.
Proof. unfold text_char. rewrite negb_true_iff, !orb_false_iff. tauto. Qed.

Lemma split_text chunk c r :
  text_char c = true -> split_sql 0 chunk (String c r) = split_sql 0 (snoc chunk c) r.
Proof.
  intros (H1 & H2 & H3 & H4 & H5)%text_char_tests. cbn [split_sql].
  by rewrite H1, H2, H3, H4, H5.
Qed.

Lemma strip_text keep c r :
  text_char c = true -> strip_comments 0 keep (String c r) = String c (strip_comments 0 true r).
Proof.
  intros (H1 & H2 & H3 & H4 & H5)%text_char_tests. cbn [strip_comments].
  by rewrite H1, H3, H4, H5.
Qed.

(** The first step on each kind of comment. *)
Lemma split_line_step chunk r :
  split_sql 0 chunk (String (byte 45) (String (byte 45) r))
  = split_sql (S (skip_line_comment r)) (snoc chunk (byte 45)) (String (byte 45) r).
Proof. by destruct r. Qed.

Lemma split_block_step chunk r :
  split_sql 0 chunk (String (byte 47) (String (byte 42) r))
  = split_sql (S (skip_block_comment r)) (snoc chunk (byte 47)) (String (byte 42) r).
Proof. by destruct r. Qed.

Lemma strip_line_step keep r :
  strip_comments 0 keep (String (byte 45) (String (byte 45) r))
  = strip_comments (S (skip_line_comment r)) false (String (byte 45) r).
Proof. by destruct r. Qed.

Lemma strip_block_step keep r :
  strip_comments 0 keep (String (byte 47) (String (byte 42) r))
  = strip_comments (S (skip_block_comment r)) false (String (byte 42) r).
Proof. by destruct r. Qed.

Lemma split_segment g chunk r :
  segment_ok g -> follows g r ->
  split_sql 0 chunk (print_segment g +:+ r) = split_sql 0 (chunk +:+ print_segment g) r.
Proof.
  destruct g as [c|c d|s|tag s|s|s]; cbn [segment_ok follows print_segment]; intros Hok Hf.
  - apply (split_text chunk c r Hok).
  - destruct Hok as [Hd Hc]. change (String c (String d EmptyString) +:+ r) with (String c (String d r)).
    assert (Hstep : split_sql 0 chunk (String c (String d r)) = split_sql 0 (snoc chunk c) (String d r)).
    { destruct (text_char_tests d Hd) as (H1 & H2 & H3 & H4 & H5).
      assert (Hdash : starts_with "-" (String d r) = false).
      { rewrite starts_with_char. by rewrite Ascii.eqb_sym. }
      assert (Hstar : starts_with "*" (String d r) = Ascii.eqb d "*").
      { rewrite starts_with_char. apply Ascii.eqb_sym. }
      remember (String d r) as rest. cbn [split_sql]. rewrite Hdash, Hstar.
      apply orb_true_iff in Hc as [->%Ascii.eqb_eq | [->%Ascii.eqb_eq Hns%negb_true_iff]%andb_true_iff];
        [done |]. by rewrite Hns. }
    rewrite Hstep, split_text by done. unfold snoc. by rewrite append_assoc.
  - change (("'" +:+ escape_quotes s +:+ "'") +:+ r)
      with (String "'" ((escape_quotes s +:+ "'") +:+ r)).
    cbn [split_sql]. cbn -[split_sql escape_quotes]. rewrite append_assoc, (skip_quoted s r Hf).
    rewrite <- append_assoc, split_pass. by rewrite snoc_app.
  - destruct Hok as [Htag Hindex].
    assert (Htext : (dollar_tag tag +:+ s +:+ dollar_tag tag) +:+ r
      = String "$" ((tag +:+ "$") +:+ s +:+ dollar_tag tag +:+ r)).
    { unfold dollar_tag at 1. by rewrite !append_assoc. }
    rewrite Htext. cbn [split_sql]. cbn -[split_sql dollar_tag_len skip_dollar_quoted].
    rewrite (append_assoc tag "$"), dollar_tag_len_app by done.
    rewrite <- (append_assoc tag "$"), skip_dollar by done.
    assert (Hgroup : (tag +:+ "$") +:+ s +:+ dollar_tag tag +:+ r
      = ((tag +:+ "$") +:+ s +:+ dollar_tag tag) +:+ r) by (by rewrite !append_assoc).
    rewrite Hgroup, split_pass, snoc_app. unfold dollar_tag. by rewrite !append_assoc.
  - transitivity (split_sql 0 chunk (String (byte 45) (String (byte 45) (s +:+ newline +:+ r)))).
    { by rewrite !append_assoc. }
    rewrite split_line_step, skip_line by done.
    transitivity (split_sql (String.length (String (byte 45) s)) (snoc chunk (byte 45))
                    (String (byte 45) s +:+ newline +:+ r)); [done |].
    rewrite split_pass, split_sql_plain, snoc_app by done. by rewrite append_assoc.
  - transitivity (split_sql 0 chunk (String (byte 47) (String (byte 42) (s +:+ "*/" +:+ r)))).
    { by rewrite !append_assoc. }
    rewrite split_block_step, skip_block by done.
    transitivity (split_sql (String.length (String (byte 42) (s +:+ "*/")))
                    (snoc chunk (byte 47)) (String (byte 42) (s +:+ "*/") +:+ r)).
    { by rewrite <- (append_assoc s "*/" r). }
    by rewrite split_pass, snoc_app.
Qed.

Lemma strip_segment_text g keep r :
  segment_ok g -> follows g r ->
  strip_comments 0 keep (print_segment g +:+ r) = strip_segment g +:+ strip_comments 0 true r.
Proof.
  destruct g as [c|c d|s|tag s|s|s]; cbn [segment_ok follows print_segment strip_segment];
    intros Hok Hf.
  - apply (strip_text keep c r Hok).
  - destruct Hok as [Hd Hc].
    change (String c (String d EmptyString) +:+ ?x) with (String c (String d x)).
    rewrite <- (strip_text true d r Hd).
    destruct (text_char_tests d Hd) as (H1 & H2 & H3 & H4 & H5).
    assert (Hdash : starts_with "-" (String d r) = false).
    { rewrite starts_with_char. by rewrite Ascii.eqb_sym. }
    assert (Hstar : starts_with "*" (String d r) = Ascii.eqb d "*").
    { rewrite starts_with_char. apply Ascii.eqb_sym. }
    remember (String d r) as rest. cbn [strip_comments]. rewrite Hdash, Hstar.
    apply orb_true_iff in Hc as [->%Ascii.eqb_eq | [->%Ascii.eqb_eq Hns%negb_true_iff]%andb_true_iff];
      [done |]. by rewrite Hns.
  - change (("'" +:+ escape_quotes s +:+ "'") +:+ ?x)
      with (String "'" ((escape_quotes s +:+ "'") +:+ x)).
    cbn [strip_comments]. cbn -[strip_comments escape_quotes].
    rewrite append_assoc, (skip_quoted s r Hf), <- append_assoc.
    by rewrite strip_pass.
  - destruct Hok as [Htag Hindex].
    assert (Htext : forall x, (dollar_tag tag +:+ s +:+ dollar_tag tag) +:+ x
      = String "$" ((tag +:+ "$") +:+ s +:+ dollar_tag tag +:+ x)).
    { intros x. unfold dollar_tag at 1. by rewrite !append_assoc. }
    assert (Hgroup : forall x, (tag +:+ "$") +:+ s +:+ dollar_tag tag +:+ x
      = ((tag +:+ "$") +:+ s +:+ dollar_tag tag) +:+ x) by (intros; by rewrite !append_assoc).
    rewrite !Htext. cbn [strip_comments].
    cbn -[strip_comments dollar_tag_len skip_dollar_quoted].
    rewrite (append_assoc tag "$"), dollar_tag_len_app by done.
    rewrite <- (append_assoc tag "$"), skip_dollar by done.
    by rewrite !Hgroup, strip_pass.
  - transitivity (strip_comments 0 keep (String (byte 45) (String (byte 45) (s +:+ newline +:+ r)))).
    { by rewrite !append_assoc. }
    rewrite strip_line_step, skip_line by done.
    transitivity (strip_comments (String.length (String (byte 45) s)) false
                    (String (byte 45) s +:+ newline +:+ r)); [done |].
    by rewrite strip_pass.
  - transitivity (strip_comments 0 keep (String (byte 47) (String (byte 42) (s +:+ "*/" +:+ r)))).
    { by rewrite !append_assoc. }
    rewrite strip_block_step, skip_block by done.
    transitivity (strip_comments (String.length (String (byte 42) (s +:+ "*/"))) false
                    (String (byte 42) (s +:+ "*/") +:+ r)).
    { by rewrite <- (append_assoc s "*/" r). }
    by rewrite strip_pass.
Qed.

(** * Scripts *)

(** The text after a literal starts with a semicolon, ends, or is another
    segment. *)
Definition ends_segment (r : string) : Prop :=
  r = EmptyString \/ exists r', r = String ";" r'.

Lemma follows_rest g l r :
  segments_ok (g :: l) -> ends_segment r -> follows g (print_segments l +:+ r).
Proof.
  destruct g; cbn [follows]; try done. intros (_ & Hnext & Hl) Hr. unfold no_quote.
  destruct l as [|g l].
  - change (print_segments [] +:+ r) with r. destruct Hr as [-> | [r' ->]]; [done |].
    by rewrite starts_with_char.
  - cbn [print_segments fold_right]. destruct Hl as [Hg _].
    destruct g as [c|c d|s|tag s|s|s]; cbn [segment_ok print_segment] in *; rewrite ?append_assoc.
    + apply text_char_tests in Hg as [Hc _]. rewrite append_cons, starts_with_char.
      by rewrite Ascii.eqb_sym.
    + destruct Hg as [_ Hc]. rewrite append_cons, starts_with_char.
      apply orb_true_iff in Hc as [->%Ascii.eqb_eq | [->%Ascii.eqb_eq _]%andb_true_iff]; done.
    + done.
    + unfold dollar_tag. rewrite !append_assoc. apply (starts_with_char (byte 39) (byte 36)).
    + apply (starts_with_char (byte 39) (byte 45)).
    + apply (starts_with_char (byte 39) (byte 47)).
Qed.

Lemma split_segments l chunk r :
  segments_ok l -> ends_segment r ->
  split_sql 0 chunk (print_segments l +:+ r) = split_sql 0 (chunk +:+ print_segments l) r.
Proof.
  intros Hl Hr. revert chunk. induction l as [|g l IH]; intros chunk.
  - cbn. by rewrite append_nil_r.
  - pose proof (follows_rest g l r Hl Hr) as Hf. destruct Hl as (Hg & _ & Hl).
    cbn [print_segments fold_right]. fold (print_segments l). rewrite append_assoc.
    rewrite split_segment by done. rewrite IH by done. by rewrite append_assoc.
Qed.

Lemma strip_segments_text l :
  segments_ok l -> strip_sql_comments (print_segments l) = strip_segments l.
Proof.
  unfold strip_sql_comments. rewrite <- (append_nil_r (print_segments l)).
  induction l as [|g l IH]; intros Hl; [done |].
  pose proof (follows_rest g l EmptyString Hl (or_introl eq_refl)) as Hf.
  destruct Hl as (Hg & _ & Hl).
  cbn [print_segments strip_segments fold_right]. fold (print_segments l). rewrite append_assoc.
  rewrite strip_segment_text by done. by rewrite IH.
Qed.

(** C37: the statements of a script are read back.  Statements made of plain
    text, string literals, dollar-quoted strings and comments, joined with
    semicolons, are split at these semicolons and nowhere else, whatever the
    literals and comments contain; removing the comments of a statement keeps
    the rest, literals included. *)
Theorem sql_statements_read stmts :
  Forall segments_ok stmts -> last (map print_segments stmts) <> Some EmptyString ->
  split_sql_statements (join ";" (map print_segments stmts)) = map print_segments stmts
  /\ map strip_sql_comments (map print_segments stmts) = map strip_segments stmts.
Proof.
  intros Hall Hlast. split.
  - unfold split_sql_statements. induction Hall as [|l stmts Hl Hall IH]; [done |].
    destruct stmts as [|l' stmts].
    + cbn [map join] in *. rewrite <- (append_nil_r (print_segments l)) at 1.
      rewrite split_segments by (done || by left). cbn.
      destruct (String.eqb_spec (EmptyString +:+ print_segments l) EmptyString) as [H|]; [| done].
      change (print_segments l = EmptyString) in H. by rewrite H in Hlast.
    + cbn [map] in *. change (join ";" (?x :: ?y :: ?r)) with (x +:+ String ";" (join ";" (y :: r))).
      rewrite split_segments by (done || by right; eexists).
      cbn [split_sql]. cbn -[split_sql print_segments join].
      by rewrite IH.
  - rewrite map_map. apply map_ext_Forall. eapply Forall_impl; [exact Hall |].
    intros l. apply strip_segments_text.
Qed.

Lemma sql_statements_read_witness :
  let stmts := [[Literal "a;'b"; Plain " "; BlockComment " ; ' "]; [DollarQuoted "q" " ; $$ "];
                [LineComment " don't; stop"; Plain "x"]] in
  split_sql_statements (join ";" (map print_segments stmts)) = map print_segments stmts
  /\ map strip_sql_comments (map print_segments stmts) = map strip_segments stmts.
Proof.
  apply sql_statements_read.
  - repeat constructor.
  - discriminate.
Defined.
