(* ===== verification/MigrationFilesFacts.v ===== *)
(** Theorems on the local and the applied migrations: their classification,
    what discarding one removes, and reading back the files a generated
    migration is written to. *)
From stdpp Require Import base list strings gmap sorting.
From Stdlib Require Import ZArith Lia.
From S2P Require Import Prelude RustStr Errors SchemaCycle Migrations MigrationFiles Replay PlanFacts ReplayFacts.

(** * Classification *)

(** The migration of a version: the last one of the list. *)
Definition local_of (local : list LocalMigration) (version : string) : option LocalMigration :=
  last (filter (fun m => lm_version m = version) local).
Definition applied_of (applied : list AppliedMigration) (version : string)
  : option AppliedMigration :=
  last (filter (fun m => am_version m = version) applied).

(** The state of a version: what a local and an applied migration say together. *)
Inductive classified (local : list LocalMigration) (applied : list AppliedMigration)
  : MigrationListEntry -> Prop :=
| is_applied v l a :
    local_of local v = Some l -> applied_of applied v = Some a ->
    lm_checksum l = am_checksum a ->
    classified local applied (mkMigrationListEntry v (lm_name l) MSApplied)
| is_changed v l a :
    local_of local v = Some l -> applied_of applied v = Some a ->
    lm_checksum l <> am_checksum a ->
    classified local applied (mkMigrationListEntry v (lm_name l) MSChanged)
| is_pending v l :
    local_of local v = Some l -> v ∉ map am_version applied ->
    classified local applied (mkMigrationListEntry v (lm_name l) MSPending)
| is_missing v a :
    applied_of applied v = Some a -> v ∉ map lm_version local ->
    classified local applied (mkMigrationListEntry v (am_name a) MSMissingLocal).

Lemma last_filter_Some {A} (key : A -> string) l v :
  is_Some (last (filter (fun x => key x = v) l)) <-> v ∈ map key l.
Proof.
  rewrite list_elem_of_fmap. split.
  - intros [x Hx]. apply last_Some_elem_of, list_elem_of_filter in Hx as [Hx Hin]. by exists x.
  - intros (x & -> & Hin). destruct (last _) eqn:Hl; [done |].
    by apply (last_filter_None _ _ x) in Hl.
Qed.

Lemma last_filter_key {A} (key : A -> string) l v x :
  last (filter (fun x => key x = v) l) = Some x -> key x = v /\ x ∈ l.
Proof. by intros [? ?]%last_Some_elem_of%list_elem_of_filter. Qed.

Lemma elem_of_all_versions local applied v :
  v ∈ all_versions local applied <-> v ∈ map lm_version local \/ v ∈ map am_version applied.
Proof.
  unfold all_versions. rewrite elem_of_sort_strings, elem_of_elements, elem_of_list_to_set.
  apply elem_of_app.
Qed.

Lemma inventory_entry_spec local applied v entry :
  inventory_entry (by_key lm_version local) (by_key am_version applied) v = Some entry <->
  classified local applied entry /\ ml_version entry = v.
Proof.
  unfold inventory_entry. rewrite !by_key_lookup.
  fold (local_of local v) (applied_of applied v).
  pose proof (last_filter_Some lm_version local v) as HL.
  pose proof (last_filter_Some am_version applied v) as HA.
  fold (local_of local v) in HL. fold (applied_of applied v) in HA.
  destruct (local_of local v) as [l|] eqn:El, (applied_of applied v) as [a|] eqn:Ea.
  - assert (Hv : v ∈ map lm_version local /\ v ∈ map am_version applied) by (rewrite <- HL, <- HA; eauto).
    destruct (String.eqb_spec (lm_checksum l) (am_checksum a)) as [Heq|Hne].
    + split; [intros [= <-]; split; [by econstructor | done] |].
      intros [Hc <-]. destruct Hc; cbn in *; first [congruence | tauto].
    + split; [intros [= <-]; split; [by econstructor | done] |].
      intros [Hc <-]. destruct Hc; cbn in *; first [congruence | tauto].
  - assert (Hv : v ∉ map am_version applied) by (rewrite <- HA; by intros [? ?]).
    split; [intros [= <-]; split; [by econstructor | done] |].
    intros [Hc <-]. destruct Hc; cbn in *; first [congruence | tauto].
  - assert (Hv : v ∉ map lm_version local) by (rewrite <- HL; by intros [? ?]).
    split; [intros [= <-]; split; [by econstructor | done] |].
    intros [Hc <-]. destruct Hc; cbn in *; first [congruence | tauto].
  - split; [done |]. intros [Hc <-]. destruct Hc; cbn in *; congruence.
Qed.

Lemma classified_version local applied entry :
  classified local applied entry -> ml_version entry ∈ all_versions local applied.
Proof.
  rewrite elem_of_all_versions. intros [v l a Hl _ _ | v l a Hl _ _ | v l Hl _ | v a Ha _]; cbn.
  1-3: left; apply (last_filter_Some lm_version local v); by eexists.
  right. apply (last_filter_Some am_version applied v). by eexists.
Qed.

Lemma all_versions_sorted local applied :
  StronglySorted string_le (all_versions local applied) /\ NoDup (all_versions local applied).
Proof.
  unfold all_versions, sort_strings. split.
  - apply Sorted_StronglySorted; [apply _ | apply Sorted_merge_sort; apply _].
  - rewrite merge_sort_Permutation. apply NoDup_elements.
Qed.

(** Every version of the two lists has an entry, so the entries are in the
    order of the versions. *)
Lemma inventory_versions local applied :
  map ml_version (build_migration_inventory local applied) = all_versions local applied.
Proof.
  unfold build_migration_inventory.
  assert (Hall : Forall (fun v => v ∈ all_versions local applied) (all_versions local applied))
    by (by rewrite Forall_forall).
  revert Hall. generalize (all_versions local applied) at 2 3 4.
  induction 1 as [|v vs Hv _ IH]; [done |]. cbn [omap list_omap].
  destruct (inventory_entry _ _ v) as [entry|] eqn:He.
  - apply inventory_entry_spec in He as [_ <-]. cbn. by rewrite IH.
  - exfalso. unfold inventory_entry in He. rewrite !by_key_lookup in He.
    apply elem_of_all_versions in Hv. rewrite <- !last_filter_Some in Hv.
    destruct (last _) as [l|]; destruct (last _) as [a|]; try done.
    + by destruct (String.eqb _ _) in He.
    + by destruct Hv as [[? ?]|[? ?]].
Qed.

Lemma elem_of_inventory local applied entry :
  entry ∈ build_migration_inventory local applied <-> classified local applied entry.
Proof.
  unfold build_migration_inventory. rewrite list_elem_of_omap. split.
  - intros (v & _ & He). by apply inventory_entry_spec in He as [He _].
  - intros He. exists (ml_version entry). split; [by apply classified_version |].
    by apply inventory_entry_spec.
Qed.

(** The label of an entry in a report. *)
Definition label (entry : MigrationListEntry) : string :=
  ml_version entry +:+ "_" +:+ ml_name entry.

Lemma elem_of_entries_in state inventory s :
  s ∈ entries_in state inventory <->
  exists entry, entry ∈ inventory /\ ml_state entry = state /\ s = label entry.
Proof.
  unfold entries_in. rewrite list_elem_of_omap. split.
  - intros (e & Hin & He). case_decide; [| done]. injection He as <-. by exists e.
  - intros (e & Hin & Hs & ->). exists e. split; [done |]. by rewrite decide_True.
Qed.

Lemma entries_partition inventory :
  entries_in MSApplied inventory ++ entries_in MSPending inventory
  ++ entries_in MSChanged inventory ++ entries_in MSMissingLocal inventory
  ≡ₚ map label inventory.
Proof.
  induction inventory as [|e l IH]; [done |].
  unfold entries_in in *. cbn [omap list_omap map]. fold (label e).
  rewrite <- IH. destruct (ml_state e); cbn; solve_Permutation.
Qed.

Lemma entries_in_labels state inventory :
  entries_in state inventory = map label (filter (fun entry => ml_state entry = state) inventory).
Proof.
  unfold entries_in. induction inventory as [|e l IH]; [done |].
  rewrite filter_cons. cbn [omap list_omap]. destruct (decide (ml_state e = state)); cbn; by rewrite IH.
Qed.

(** A list of a report: the labels of the entries of the inventory in one
    state, sorted. *)
Definition lists (inventory : list MigrationListEntry) (state : MigrationState) (labels : list string)
  : Prop :=
  StronglySorted string_le labels
  /\ labels ≡ₚ map label (filter (fun entry => ml_state entry = state) inventory).

Lemma sorted_entries_listed inventory state :
  lists inventory state (sort_strings (entries_in state inventory)).
Proof.
  unfold lists, sort_strings. rewrite <- entries_in_labels. split; [| apply merge_sort_Permutation].
  apply Sorted_StronglySorted; [apply _ | apply Sorted_merge_sort; apply _].
Qed.

(** C38: the inventory classifies every migration once.  It has one entry per
    version of the local and the applied migrations, in the order of the
    versions; an entry is there exactly when a local and an applied migration
    agree (applied), differ in their checksum (changed), or only one of them
    exists (pending, missing locally).  Each of the four lists of the report
    has, sorted, the labels of the entries in the state it is named after, and
    together they have every entry. *)
Theorem migration_inventory_spec local applied :
  let inventory := build_migration_inventory local applied in
  let report := compare_migration_state local applied in
  StronglySorted string_le (map ml_version inventory)
  /\ NoDup (map ml_version inventory)
  /\ (forall v, v ∈ map ml_version inventory
                <-> v ∈ map lm_version local \/ v ∈ map am_version applied)
  /\ (forall entry, entry ∈ inventory <-> classified local applied entry)
  /\ lists inventory MSApplied (rep_applied report)
  /\ lists inventory MSPending (rep_pending report)
  /\ lists inventory MSChanged (rep_changed report)
  /\ lists inventory MSMissingLocal (rep_missing_local report)
  /\ rep_applied report ++ rep_pending report ++ rep_changed report ++ rep_missing_local report
     ≡ₚ map label inventory.
Proof.
  cbn zeta. rewrite inventory_versions. destruct (all_versions_sorted local applied) as [Hs Hn].
  split; [done |]. split; [done |]. split; [apply elem_of_all_versions |].
  split; [apply elem_of_inventory |]. unfold compare_migration_state. cbn.
  do 4 (split; [apply sorted_entries_listed |]). unfold sort_strings.
  rewrite !merge_sort_Permutation. apply entries_partition.
Qed.

(** * Discarding *)

Lemma starts_with_app p s : starts_with p (p +:+ s) = true.
Proof.
  unfold starts_with. induction p as [|a p IH]; [by destruct s |]. rewrite append_cons. cbn.
  destruct (Ascii.ascii_dec a a); done.
Qed.

Lemma has_version_state version state local applied name :
  classified local applied (mkMigrationListEntry version name state) ->
  has_version version (sort_strings (entries_in state (build_migration_inventory local applied)))
  = true.
Proof.
  intros Hc. unfold has_version. apply existsb_exists.
  exists (label (mkMigrationListEntry version name state)). split.
  - apply list_elem_of_In, elem_of_sort_strings, elem_of_entries_in.
    exists (mkMigrationListEntry version name state).
    split; [by apply elem_of_inventory | done].
  - unfold label. cbn. rewrite <- append_assoc. apply starts_with_app.
Qed.

(** A version that is applied is in one of the three refused states. *)
Lemma applied_refused version local applied :
  version ∈ map am_version applied ->
  let report := compare_migration_state local applied in
  has_version version (rep_applied report) = true
  \/ has_version version (rep_changed report) = true
  \/ has_version version (rep_missing_local report) = true.
Proof.
  intros Hv. cbn.
  pose proof (proj2 (last_filter_Some am_version applied version) Hv) as [a Ha].
  destruct (local_of local version) as [l|] eqn:Hl.
  - destruct (decide (lm_checksum l = am_checksum a)).
    + left. eapply has_version_state. by econstructor.
    + right; left. eapply has_version_state. by econstructor.
  - right; right. eapply has_version_state. econstructor; [exact Ha |].
    intros Hin. apply (last_filter_Some lm_version local version) in Hin as [l Hin].
    unfold local_of in Hl. congruence.
Qed.

(** [disk'] is [disk] without some of the given files. *)
Definition removes_only (names : list string) (disk disk' : Disk) : Prop :=
  dir_exists disk' = dir_exists disk
  /\ forall name, files disk' !! name = files disk !! name
                  \/ name ∈ names /\ files disk' !! name = None.

Lemma removes_nothing names disk : removes_only names disk disk.
Proof. split; [done |]. by left. Qed.

(** The file name of a path of the migrations directory. *)
Definition name_in (dir path : string) : string :=
  default path (strip_prefix (path_join dir EmptyString) path).

Lemma remove_file_spec `{FileSystem} dir path disk disk' r :
  remove_file dir path disk = (disk', r) ->
  (disk' = disk /\ is_ok r = false)
  \/ (files disk' = delete (name_in dir path) (files disk) /\ r = Ok tt
      /\ dir_exists disk' = dir_exists disk).
Proof.
  unfold remove_file. destruct (check_call _ _ _) as [u|e]; intros [= <- <-].
  - by right.
  - by left.
Qed.

(** Discarding removes at most the two files of one pending migration.
    Whatever the outcome, a file that is gone is the up or the down file of a
    local migration of the given version, a version that the database has not
    applied; and the command succeeds only when both are gone. *)
Theorem discard_only_pending `{FileSystem} dir version local applied disk disk' r :
  discard_pending_migration dir version local applied disk = (disk', r) ->
  disk' = disk /\ is_ok r = false
  \/ exists m down, m ∈ local /\ lm_version m = version /\ lm_down_path m = Some down
     /\ version ∉ map am_version applied
     /\ removes_only [name_in dir (lm_up_path m); name_in dir down] disk disk'
     /\ (is_ok r = true ->
         files disk' = delete (name_in dir down) (delete (name_in dir (lm_up_path m)) (files disk))
         /\ r = Ok (version +:+ "_" +:+ lm_name m)).
Proof.
  unfold discard_pending_migration.
  destruct (has_version version (rep_applied _)) eqn:H1; [intros [= <- <-]; by left |].
  destruct (has_version version (rep_changed _)) eqn:H2; [intros [= <- <-]; by left |].
  destruct (has_version version (rep_missing_local _)) eqn:H3; [intros [= <- <-]; by left |].
  destruct (find _ local) as [m|] eqn:Hfind; [| intros [= <- <-]; by left].
  apply find_some in Hfind as [Hm%list_elem_of_In Hv%String.eqb_eq].
  destruct (lm_down_path m) as [down|] eqn:Hdown; [| intros [= <- <-]; by left].
  destruct (_ || _); [intros [= <- <-]; by left |].
  assert (Happlied : version ∉ map am_version applied).
  { intros [|[|]]%(applied_refused _ local); congruence. }
  destruct (remove_file dir (lm_up_path m) disk) as [d1 r1] eqn:E1.
  apply remove_file_spec in E1 as [[-> Hr1] | (Hf1 & -> & Hd1)].
  { destruct r1; [done |]. intros [= <- <-]. by left. }
  destruct (remove_file dir down d1) as [d2 r2] eqn:E2.
  apply remove_file_spec in E2 as [[-> Hr2] | (Hf2 & -> & Hd2)].
  - destruct r2; [done |]. intros [= <- <-]. right. exists m, down.
    do 4 (split; [done |]). split; [| done]. split; [done |]. intros name. rewrite Hf1.
    destruct (decide (name = name_in dir (lm_up_path m))) as [->|Hne].
    + right. rewrite lookup_delete_eq. split; [by left | done].
    + left. by rewrite lookup_delete_ne.
  - intros [= <- <-]. right. exists m, down. do 4 (split; [done |]). split.
    + split; [congruence |]. intros name. rewrite Hf2, Hf1.
      destruct (decide (name = name_in dir down)) as [->|Hne1].
      { right. rewrite lookup_delete_eq. split; [by right; left | done]. }
      rewrite lookup_delete_ne by done.
      destruct (decide (name = name_in dir (lm_up_path m))) as [->|Hne].
      * right. rewrite lookup_delete_eq. split; [by left | done].
      * left. by rewrite lookup_delete_ne.
    + intros _. rewrite Hf2, Hf1, Hv. done.
Qed.

Definition demo_local : list LocalMigration :=
  [mkLocalMigration "20240101_000000" "init" "migrations/20240101_000000_init.up.sql"
     (Some "migrations/20240101_000000_init.down.sql") "a" (Some "b") "c1";
   mkLocalMigration "20240202_000000" "more" "migrations/20240202_000000_more.up.sql"
     (Some "migrations/20240202_000000_more.down.sql") "a" (Some "b") "c2"].

Definition demo_applied : list AppliedMigration :=
  [mkAppliedMigration "20240101_000000" "init" "c1" "2024-01-01"].

Definition demo_disk : Disk :=
  mkDisk true (list_to_map
    [("20240101_000000_init.up.sql", "a"); ("20240101_000000_init.down.sql", "b");
     ("20240202_000000_more.up.sql", "a"); ("20240202_000000_more.down.sql", "b")]).

Definition demo_discarded : Disk * result MarretaError string :=
  @discard_pending_migration no_fault "migrations" "20240202_000000" demo_local demo_applied
    demo_disk.

Lemma discard_only_pending_witness :
  demo_discarded.2 = Ok "20240202_000000_more"
  /\ (demo_discarded.1 = demo_disk /\ is_ok demo_discarded.2 = false
      \/ exists m down, m ∈ demo_local /\ lm_version m = "20240202_000000"
         /\ lm_down_path m = Some down /\ "20240202_000000" ∉ map am_version demo_applied
         /\ removes_only [name_in "migrations" (lm_up_path m); name_in "migrations" down]
              demo_disk demo_discarded.1
         /\ (is_ok demo_discarded.2 = true ->
             files demo_discarded.1
             = delete (name_in "migrations" down)
                 (delete (name_in "migrations" (lm_up_path m)) (files demo_disk))
             /\ demo_discarded.2 = Ok ("20240202_000000" +:+ "_" +:+ lm_name m))).
Proof.
  split; [vm_compute; reflexivity |].
  apply (@discard_only_pending no_fault "migrations" "20240202_000000" demo_local demo_applied
    demo_disk demo_discarded.1 demo_discarded.2).
  unfold demo_discarded. by destruct (discard_pending_migration _ _ _ _ _).
Defined.

(** * Writing and discovering *)

(** A version as [%Y%m%d_%H%M%S] prints it. *)
Definition version_ok (version : string) : Prop :=
  exists day time, version = day +:+ "_" +:+ time
    /\ String.length day = 8 /\ String.length time = 6
    /\ str_has "_" day = false /\ str_has "_" time = false.

Lemma split_once_sep a w s :
  str_has a w = false -> split_once a (w +:+ String a EmptyString +:+ s) = Some (w, s).
Proof. apply split_once_app. Qed.

Lemma parse_written version name suffix :
  version_ok version -> name <> EmptyString ->
  parse_migration_filename (version +:+ "_" +:+ name +:+ suffix) suffix = Ok (version, name).
Proof.
  intros (day & time & -> & Hd & Ht & Hdu & Htu) Hname. unfold parse_migration_filename.
  rewrite <- (append_assoc "_" name suffix), <- append_assoc, strip_suffix_app.
  rewrite !append_assoc. unfold splitn3.
  rewrite split_once_sep by done. rewrite split_once_sep by done. rewrite Hd, Ht. cbn.
  by apply String.eqb_neq in Hname as ->.
Qed.

Lemma parse_Ok filename suffix version name :
  parse_migration_filename filename suffix = Ok (version, name) ->
  filename = version +:+ "_" +:+ name +:+ suffix /\ version_ok version.
Proof.
  unfold parse_migration_filename. destruct (strip_suffix suffix filename) as [stem|] eqn:Hs; [| done].
  unfold splitn3. destruct (split_once "_" stem) as [[day rest]|] eqn:H1; [| done].
  destruct (split_once "_" rest) as [[time n]|] eqn:H2; [| done].
  destruct (_ || _) eqn:Hb; [done |]. intros [= <- <-].
  apply orb_false_iff in Hb as [[Hd%negb_false_iff%Nat.eqb_eq Ht%negb_false_iff%Nat.eqb_eq]%orb_false_iff _].
  apply split_once_Some in H1 as [-> Hdu]. apply split_once_Some in H2 as [-> Htu].
  apply strip_suffix_Some in Hs as ->. split.
  - change (String "_" ?x) with ("_" +:+ x). by rewrite !append_assoc.
  - by exists day, time.
Qed.

(** ** The listing *)

Definition up_names `{HashOrder} (disk : Disk) : list string :=
  sort_strings (List.filter (ends_with ".up.sql") (map fst (entries (files disk)))).

Lemma read_dir_names `{HashOrder} dir m1 m2 disk :
  @read_dir no_fault _ dir m1 m2 disk = Ok (map fst (entries (files disk))).
Proof.
  unfold read_dir. cbn. induction (entries (files disk)) as [|e l IH]; [done |]. cbn.
  cbn in IH. by rewrite IH.
Qed.

Lemma discover_Ok `{HashOrder} sha dir disk :
  dir_exists disk = true ->
  @discover_local_migrations no_fault _ sha dir disk
  = collect (@load_migration no_fault sha dir disk) (up_names disk).
Proof. intros Hd. unfold discover_local_migrations. by rewrite Hd, read_dir_names. Qed.

Lemma elem_of_up_names `{HashOrder} disk n :
  n ∈ up_names disk <-> is_Some (files disk !! n) /\ ends_with ".up.sql" n = true.
Proof.
  unfold up_names. rewrite elem_of_sort_strings, list_elem_of_In, filter_In, <- list_elem_of_In.
  rewrite list_elem_of_fmap. split.
  - intros [([k v] & -> & Hin) He]. split; [| done]. exists v. by apply elem_of_entries.
  - intros [[v Hv] He]. split; [| done]. exists (n, v). split; [done |]. by apply elem_of_entries.
Qed.

Lemma up_names_NoDup `{HashOrder} disk : NoDup (up_names disk).
Proof.
  unfold up_names, sort_strings. rewrite merge_sort_Permutation. apply NoDup_ListNoDup, List.NoDup_filter.
  apply NoDup_ListNoDup. change (map ?f ?l) with (f <$> l). rewrite entries_perm.
  apply NoDup_fst_map_to_list.
Qed.

Lemma find_version_spec prefix names :
  @find_version no_fault prefix names = Ok (existsb (starts_with prefix) names).
Proof.
  induction names as [|n l IH]; [done |]. cbn in *. by destruct (starts_with prefix n).
Qed.

(** Two file names with the same stem and different suffixes. *)
Lemma suffix_differ (s t a b : string) :
  String.length a = String.length b -> a <> b -> s +:+ a <> t +:+ b.
Proof.
  intros Hlen Hne Heq. pose proof (f_equal String.length Heq) as Hl.
  rewrite !length_append in Hl. assert (Hst : String.length s = String.length t) by lia.
  clear Hl. revert t Heq Hst. induction s as [|c s IH]; intros [|d t] Heq Hst; try discriminate Hst.
  - done.
  - rewrite !append_cons in Heq. injection Heq as _ Heq. injection Hst as Hst. by apply (IH t).
Qed.

Lemma up_is_not_down s t : s +:+ ".up.sql" <> t +:+ ".down.sql".
Proof.
  intros Heq. change ".down.sql" with (".d" +:+ "own.sql") in Heq.
  rewrite <- append_assoc in Heq. by apply (suffix_differ s (t +:+ ".d")) in Heq.
Qed.

Lemma collect_perm {E A B} (f : A -> result E B) l l' ys :
  l ≡ₚ l' -> collect f l = Ok ys -> exists ys', collect f l' = Ok ys' /\ ys ≡ₚ ys'.
Proof.
  intros Hperm. revert ys. induction Hperm as [|x l l' _ IH|x y l|l l' l'' _ IH1 _ IH2]; intros ys Hys.
  - by exists ys.
  - cbn in *. destruct (f x) as [b|]; [| done]. destruct (collect f l) as [bs|]; [| done].
    injection Hys as <-. destruct (IH bs) as (bs' & -> & Hp); [done |]. exists (b :: bs').
    split; [done | by constructor].
  - cbn in *. destruct (f y) as [b|]; [| done]. destruct (f x) as [c|]; [| done].
    destruct (collect f l) as [bs|]; [| done]. injection Hys as <-.
    exists (c :: b :: bs). split; [done | constructor].
  - destruct (IH1 ys Hys) as (ys' & Hys' & Hp). destruct (IH2 ys' Hys') as (ys'' & Hys'' & Hp').
    exists ys''. split; [done | by etransitivity].
Qed.

Lemma collect_ext {E A B} (f g : A -> result E B) l :
  (forall x, x ∈ l -> f x = g x) -> collect f l = collect g l.
Proof.
  induction l as [|x l IH]; intros Hext; [done |]. cbn. rewrite Hext by (by left).
  rewrite IH; [done |]. intros y Hy. apply Hext. by right.
Qed.

Section Written.
Context `{HashOrder}.
Variables (sha : string -> string) (dir version name up down : string) (disk : Disk).
Hypothesis Hversion : version_ok version.
Hypothesis Hname : name <> EmptyString.
Hypothesis Hnew : existsb (starts_with (version +:+ "_")) (map fst (entries (files disk))) = false.

Let up_name := version +:+ "_" +:+ name +:+ ".up.sql".
Let down_name := version +:+ "_" +:+ name +:+ ".down.sql".
Let disk' := mkDisk true (<[down_name := down]> (<[up_name := up]> (files disk))).

Lemma old_version n : is_Some (files disk !! n) -> starts_with (version +:+ "_") n = false.
Proof.
  intros [v Hv]. destruct (starts_with _ n) eqn:Hs; [| done].
  exfalso. apply not_true_iff_false in Hnew. apply Hnew, existsb_exists. exists n.
  split; [| done]. apply list_elem_of_In, list_elem_of_fmap. exists (n, v).
  split; [done |]. by apply elem_of_entries.
Qed.

Lemma old_differs n suffix :
  is_Some (files disk !! n) -> n <> version +:+ "_" +:+ name +:+ suffix.
Proof.
  intros Hn%old_version ->. rewrite <- append_assoc, starts_with_app in Hn. done.
Qed.

Lemma append_inj_r s t r : s +:+ r = t +:+ r -> s = t.
Proof.
  intros Heq. pose proof (f_equal String.length Heq) as Hl. rewrite !length_append in Hl.
  revert t Heq Hl. induction s as [|c s IH]; intros [|d t] Heq Hl; cbn in Hl; try lia; [done |].
  rewrite !append_cons in Heq. injection Heq as -> Heq. f_equal. apply IH; [done | lia].
Qed.

Lemma load_old n :
  n ∈ up_names disk ->
  @load_migration no_fault sha dir disk' n = @load_migration no_fault sha dir disk n.
Proof.
  intros [Hn _]%elem_of_up_names. unfold load_migration.
  destruct (parse_migration_filename n ".up.sql") as [[v nm]|] eqn:Hp; [| done].
  apply parse_Ok in Hp as [-> _]. cbn [mbind result_bind].
  assert (Hup : files disk' !! (v +:+ "_" +:+ nm +:+ ".up.sql")
                = files disk !! (v +:+ "_" +:+ nm +:+ ".up.sql")).
  { unfold disk', down_name, up_name. cbn.
    rewrite !lookup_insert_ne; [done | | ]; apply not_eq_sym; by apply old_differs. }
  assert (Hdown : files disk' !! (v +:+ "_" +:+ nm +:+ ".down.sql")
                  = files disk !! (v +:+ "_" +:+ nm +:+ ".down.sql")).
  { unfold disk', down_name, up_name. cbn. rewrite !lookup_insert_ne; [done | |].
    - rewrite <- !append_assoc. apply up_is_not_down.
    - intros Heq. apply (old_differs _ ".up.sql" Hn).
      assert (Hgroup : forall a b c, a +:+ "_" +:+ b +:+ c = (a +:+ "_" +:+ b) +:+ c)
        by (intros; by rewrite !append_assoc).
      rewrite !Hgroup in *. apply append_inj_r in Heq. by rewrite Heq. }
  by rewrite Hup, Hdown.
Qed.

(** The migration that was written. *)
Definition written : LocalMigration :=
  {| lm_version := version; lm_name := name;
     lm_up_path := path_join dir up_name; lm_down_path := Some (path_join dir down_name);
     lm_checksum := migration_checksum sha up (Some down);
     lm_up_sql := up; lm_down_sql := Some down |}.

Lemma load_new : @load_migration no_fault sha dir disk' up_name = Ok written.
Proof.
  unfold load_migration, up_name. rewrite parse_written by done. cbn [mbind result_bind].
  fold up_name down_name.
  assert (Hup : files disk' !! up_name = Some up).
  { unfold disk'. cbn. rewrite lookup_insert_ne; [by rewrite lookup_insert_eq |].
    unfold up_name, down_name. rewrite <- !append_assoc. apply not_eq_sym, up_is_not_down. }
  assert (Hdown : files disk' !! down_name = Some down).
  { unfold disk'. cbn. by rewrite lookup_insert_eq. }
  by rewrite Hup, Hdown.
Qed.

Lemma up_names_written : up_names disk' ≡ₚ up_name :: up_names disk.
Proof.
  apply NoDup_Permutation; [apply up_names_NoDup | |].
  - apply NoDup_cons. split; [| apply up_names_NoDup].
    intros [Hn _]%elem_of_up_names. by apply (old_differs _ ".up.sql" Hn).
  - intros n. rewrite elem_of_cons, !elem_of_up_names. unfold disk'. cbn.
    assert (Hends : ends_with ".up.sql" up_name = true).
    { unfold ends_with, up_name. by rewrite <- !append_assoc, strip_suffix_app. }
    assert (Hdown : ends_with ".up.sql" down_name = false).
    { unfold ends_with. destruct (strip_suffix ".up.sql" down_name) as [r|] eqn:Hr; [| done].
      apply strip_suffix_Some in Hr. unfold down_name in Hr. rewrite <- !append_assoc in Hr.
      symmetry in Hr. by apply up_is_not_down in Hr. }
    rewrite !lookup_insert_is_Some'. split.
    + intros [[<- | [<- | Hn]] He]; [congruence | by left | by right].
    + intros [-> | [Hn He]]; auto.
Qed.

Lemma discover_written before :
  dir_exists disk = true ->
  @discover_local_migrations no_fault _ sha dir disk = Ok before ->
  exists after, @discover_local_migrations no_fault _ sha dir disk' = Ok after
    /\ after ≡ₚ written :: before.
Proof.
  intros Hd. rewrite !discover_Ok by done. intros Hbefore.
  assert (Hall : collect (@load_migration no_fault sha dir disk') (up_name :: up_names disk)
                 = Ok (written :: before)).
  { cbn [collect]. rewrite load_new.
    rewrite (collect_ext _ (@load_migration no_fault sha dir disk)); [by rewrite Hbefore |].
    apply load_old. }
  destruct (collect_perm _ _ (up_names disk') _ (symmetry up_names_written) Hall)
    as (after & Hafter & Hperm). by exists after.
Qed.

End Written.

(** C39: a migration that was written is discovered.  In a directory whose
    migrations can be discovered, the files written for a new migration, read
    back, give that migration, with the same version, name, texts and
    checksum; the other migrations are found as before. *)
Theorem write_then_discover `{HashOrder} sha dir version name up_sql down_sql disk before disk' m :
  version_ok version -> sanitize_migration_name name <> EmptyString ->
  (dir_exists disk = false -> files disk = ∅) ->
  @discover_local_migrations no_fault _ sha dir disk = Ok before ->
  @write_migration_files no_fault _ sha dir version name up_sql down_sql disk = (disk', Ok m) ->
  exists after, @discover_local_migrations no_fault _ sha dir disk' = Ok after
    /\ after ≡ₚ m :: before.
Proof.
  intros Hv Hn Hempty Hbefore Hwrite. unfold write_migration_files in Hwrite.
  cbn [check_call fault no_fault] in Hwrite. unfold migration_version_exists in Hwrite.
  cbn [check_call fault no_fault mbind result_bind] in Hwrite.
  rewrite find_version_spec in Hwrite. cbn [files] in Hwrite.
  destruct (existsb _ _) eqn:Hnew; [discriminate Hwrite |].
  unfold write_file in Hwrite. cbn [dir_exists files] in Hwrite. injection Hwrite as <- <-.
  assert (Hb : @discover_local_migrations no_fault _ sha dir (mkDisk true (files disk)) = Ok before).
  { destruct disk as [[] fs]; [done |]. cbn [dir_exists files] in *. specialize (Hempty eq_refl). subst fs.
    injection Hbefore as <-. rewrite discover_Ok by done.
    assert (Hnil : up_names (mkDisk true ∅) = []).
    { destruct (up_names _) as [|n l] eqn:Hl; [done |]. exfalso.
      assert (Hin : n ∈ up_names (mkDisk true ∅)) by (rewrite Hl; by left).
      apply elem_of_up_names in Hin as [[v Hin] _]. cbn in Hin. by rewrite lookup_empty in Hin. }
    by rewrite Hnil. }
  rewrite !append_assoc.
  by apply (discover_written sha dir version (sanitize_migration_name name) (join_sql up_sql)
    (join_sql down_sql) (mkDisk true (files disk)) Hv Hn Hnew).
Qed.

Definition demo_written : Disk * result MarretaError LocalMigration :=
  @write_migration_files no_fault sorted_order (fun s => s) "migrations" "20240303_120000"
    "update_users" ["CREATE TABLE users (id BIGINT);"] ["DROP TABLE users;"] demo_disk.

Lemma write_then_discover_witness :
  exists before m after,
    @discover_local_migrations no_fault sorted_order (fun s => s) "migrations" demo_disk = Ok before
    /\ demo_written.2 = Ok m
    /\ @discover_local_migrations no_fault sorted_order (fun s => s) "migrations" demo_written.1
       = Ok after
    /\ after ≡ₚ m :: before.
Proof.
  destruct (@discover_local_migrations no_fault sorted_order (fun s => s) "migrations" demo_disk)
    as [before|e] eqn:Hb; [| vm_compute in Hb; discriminate Hb].
  destruct demo_written.2 as [m|e] eqn:Hm; [| vm_compute in Hm; discriminate Hm].
  exists before, m.
  destruct (@write_then_discover sorted_order (fun s => s) "migrations" "20240303_120000"
    "update_users" ["CREATE TABLE users (id BIGINT);"] ["DROP TABLE users;"] demo_disk before
    demo_written.1 m) as (after & Ha & Hp).
  - exists "20240303", "120000". repeat split; reflexivity.
  - vm_compute. discriminate.
  - done.
  - exact Hb.
  - rewrite <- Hm. unfold demo_written. by destruct (write_migration_files _ _ _ _ _ _ _).
  - exists after. split; [reflexivity |]. split; [reflexivity |]. split; assumption.
Defined.
