(* ===== verification/ProjectRuntime.v ===== *)
(** The project at run time (src/src/file_loader.rs, [ProjectRuntime]): the
    environments and schemas of its modules, the file namespaces of exported
    tasks, and the column index of the persistent tables. *)
From stdpp Require Import base list strings gmap sets.
From S2P Require Import Prelude RustStr Errors Ast Foreign QueryTypes Value Schemas Environment FeatureFlags Migrations.

Section ProjectRuntime.
Context `{E : Ext} `{H : HashOrder}.

Record ModuleRuntime : Type := mkModuleRuntime {
  mr_id : string;
  mr_env : Environment Value;
  mr_visible_schemas : gmap string SchemaDefinition;
}.

Record ProjectRuntime : Type := mkProjectRuntime {
  pr_global_env : Environment Value;
  pr_modules : gmap string ModuleRuntime;
  pr_public_schemas : gmap string SchemaDefinition;
  pr_persistent_schemas : gmap string SchemaDefinition;
  pr_feature_flags : FeatureFlags;
  pr_task_namespaces : gmap string (gmap string Value);
  pr_db_columns : gmap string (gset string);
}.

Definition single (global_env : Environment Value) (public_schemas : gmap string SchemaDefinition)
  : ProjectRuntime :=
  mkProjectRuntime global_env ∅ public_schemas ∅ (mkFeatureFlags ∅) ∅ ∅.

Definition table_columns (table : PersistentTable) : gset string :=
  list_to_set (map pc_column_name (pt_columns table))
  ∪ list_to_set (map pfk_column_name (pt_foreign_keys table)).

(** The columns of every persistent table; empty if the schemas cannot be
    modelled. *)
Definition build_db_column_index (persistent_schemas : gmap string SchemaDefinition)
  : gmap string (gset string) :=
  match build_persistent_tables persistent_schemas with
  | Err _ => ∅
  | Ok tables =>
      fold_left (fun index kv => <[pt_table_name (snd kv) := table_columns (snd kv)]> index)
        (entries tables) ∅
  end.

Definition module_task (rt : ProjectRuntime) (namespace task : string) : option Value :=
  tasks ← pr_task_namespaces rt !! namespace; tasks !! task.

Definition is_module_namespace (rt : ProjectRuntime) (namespace : string) : bool :=
  bool_decide (is_Some (pr_task_namespaces rt !! namespace)).

Definition env_for_module (rt : ProjectRuntime) (module_id : option string) : Environment Value :=
  default (pr_global_env rt) (id ← module_id; mr_env <$> pr_modules rt !! id).

Definition freeze_envs (rt : ProjectRuntime) : ProjectRuntime :=
  mkProjectRuntime (freeze (pr_global_env rt))
    ((fun m => mkModuleRuntime (mr_id m) (freeze (mr_env m)) (mr_visible_schemas m))
       <$> pr_modules rt)
    (pr_public_schemas rt) (pr_persistent_schemas rt) (pr_feature_flags rt)
    (pr_task_namespaces rt) (pr_db_columns rt).

Definition visible_schemas_for (rt : ProjectRuntime) (module_id : option string)
  : gmap string SchemaDefinition :=
  default (pr_public_schemas rt) (id ← module_id; mr_visible_schemas <$> pr_modules rt !! id).

Definition runtime_resolve_schema (rt : ProjectRuntime) (module_id : option string)
    (schema_name : string) : option SchemaDefinition :=
  match id ← module_id; m ← pr_modules rt !! id; mr_visible_schemas m !! schema_name with
  | Some schema => Some schema
  | None => pr_public_schemas rt !! schema_name
  end.

(** Whether a schema is stored in the table. *)
Definition is_table_schema (table : string) (kv : string * SchemaDefinition) : bool :=
  bool_decide (db_table (snd kv) = Some table).

(** [persistent_schemas.iter().find_map(..)]: the first in the order of the
    hash map. *)
Definition resolve_persistent_schema_for_table (rt : ProjectRuntime) (table : string)
  : option (string * SchemaDefinition) :=
  find (is_table_schema table) (entries (pr_persistent_schemas rt)).

Definition inject_global (name : string) (value : Value) (rt : ProjectRuntime) : ProjectRuntime :=
  mkProjectRuntime (set name value (pr_global_env rt))
    ((fun m => mkModuleRuntime (mr_id m) (set name value (mr_env m)) (mr_visible_schemas m))
       <$> pr_modules rt)
    (pr_public_schemas rt) (pr_persistent_schemas rt) (pr_feature_flags rt)
    (pr_task_namespaces rt) (pr_db_columns rt).

Definition set_feature_flags (feature_flags : FeatureFlags) (rt : ProjectRuntime) : ProjectRuntime :=
  mkProjectRuntime (pr_global_env rt) (pr_modules rt) (pr_public_schemas rt)
    (pr_persistent_schemas rt) feature_flags (pr_task_namespaces rt) (pr_db_columns rt).

End ProjectRuntime.
