(* ===== verification/Interaction.v ===== *)
(** What the evaluator asks of the outside world: the drivers of the relational
    and document stores, of the queue, the cache and the HTTP client
    (src/src/db/driver.rs, src/src/doc/mongodb.rs, src/src/queue/driver.rs,
    src/src/cache/driver.rs, src/src/http_client/driver.rs), files, standard
    output, the clock and random numbers; and what the server asks besides.

    An evaluation is a [Tree] of requests: it ends with a result, or makes a
    request and goes on with the answer, or runs branches side by side and goes
    on with their results.  Nothing is assumed of the answers.  A property of
    every path of a tree is [wp], relative to a protocol that says which
    requests are allowed when. *)
From stdpp Require Import base list strings gmap.
From Stdlib Require Import ZArith.
From S2P Require Import Prelude RustStr Errors Ast Foreign QueryTypes Value.

(** * Errors of the drivers *)

Inductive CacheDriverError : Type :=
| CacheConnectionFailed (m : string) | CacheOperationTimeout (m : string)
| CacheSerializationError (m : string) | CacheOperationFailed (m : string).

Definition show_cache_error (e : CacheDriverError) : string :=
  match e with
  | CacheConnectionFailed m => "connection failed: " +:+ m
  | CacheOperationTimeout m => "operation timeout: " +:+ m
  | CacheSerializationError m => "serialization error: " +:+ m
  | CacheOperationFailed m => "operation failed: " +:+ m
  end.

Inductive QueueDriverError : Type :=
| QueueConnectionFailed (m : string) | PublishFailed (m : string) | ConsumeFailed (m : string)
| AckFailed (m : string) | QueueSerializationError (m : string) | DeclarationFailed (m : string).

Definition show_queue_error (e : QueueDriverError) : string :=
  match e with
  | QueueConnectionFailed m => "connection failed: " +:+ m
  | PublishFailed m => "publish failed: " +:+ m
  | ConsumeFailed m => "consume failed: " +:+ m
  | AckFailed m => "ack failed: " +:+ m
  | QueueSerializationError m => "serialization error: " +:+ m
  | DeclarationFailed m => "declaration failed: " +:+ m
  end.

Inductive HttpClientDriverError : Type :=
| HttpConnectionFailed (m : string) | HttpTimeout (m : string) | TlsError (m : string)
| InvalidUrl (m : string) | RequestFailed (m : string).

Definition show_http_client_error (e : HttpClientDriverError) : string :=
  match e with
  | HttpConnectionFailed m => "connection failed: " +:+ m
  | HttpTimeout m => "request timeout: " +:+ m
  | TlsError m => "TLS error: " +:+ m
  | InvalidUrl m => "invalid URL: " +:+ m
  | RequestFailed m => "request failed: " +:+ m
  end.

(** [std::io::Error]: the evaluator tells a missing file from the rest. *)
Inductive IoFault : Type := NotFound | OtherFault (message : string).

Inductive HttpMethod : Type := MGet | MPost | MPut | MPatch | MDelete.

Section Interaction.
Context `{E : Ext}.

(** * Requests *)

Definition DbRow : Type := gmap string Value.
Definition DocRow : Type := gmap string Value.

(** The operations that [DbDriver] and [DbTx] have in common. *)
Inductive DbOperation : Type :=
| DbSave (table : string) (data : DbRow)
| DbFind (table : string) (id : Value)
| DbFindAll (table : string) (filters : list (FilterClause Value))
| DbUpdateById (table : string) (id : Value) (data : DbRow)
| DbDeleteById (table : string) (id : Value)
| DbQueryFetch (q : QueryState Value)
| DbQueryFetchOne (q : QueryState Value)
| DbQueryCount (q : QueryState Value)
| DbQueryExists (q : QueryState Value)
| DbQueryUpdate (q : QueryState Value) (data : DbRow)
| DbQueryDelete (q : QueryState Value)
| DbNativeQuery (sql : string) (params : list Value).

Definition db_answer (op : DbOperation) : Type :=
  match op with
  | DbSave _ _ => DbRow
  | DbFind _ _ | DbUpdateById _ _ _ | DbQueryFetchOne _ => option DbRow
  | DbFindAll _ _ | DbQueryFetch _ | DbNativeQuery _ _ => list DbRow
  | DbDeleteById _ _ | DbQueryExists _ => bool
  | DbQueryCount _ | DbQueryUpdate _ _ | DbQueryDelete _ => Z
  end.

(** [DocDriver]. *)
Inductive DocOperation : Type :=
| DocSave (collection : string) (data : DocRow)
| DocFind (collection : string) (id : Value)
| DocFindAll (collection : string)
| DocUpdateById (collection : string) (id : Value) (data : DocRow)
| DocDeleteById (collection : string) (id : Value)
| DocQueryFetch (q : DocQueryState Value)
| DocQueryFetchOne (q : DocQueryState Value)
| DocQueryCount (q : DocQueryState Value)
| DocQueryExists (q : DocQueryState Value)
| DocQueryUpdate (q : DocQueryState Value) (data : DocRow)
| DocQueryUpsert (q : DocQueryState Value) (data : DocRow)
| DocQueryDelete (q : DocQueryState Value)
| DocQueryAggregate (q : DocQueryState Value)
| DocRawPipeline (collection : string) (stages : list Value).

Definition doc_answer (op : DocOperation) : Type :=
  match op with
  | DocSave _ _ | DocUpdateById _ _ _ => DocRow
  | DocFind _ _ | DocQueryFetchOne _ => option DocRow
  | DocFindAll _ | DocQueryFetch _ | DocQueryAggregate _ | DocRawPipeline _ _ => list DocRow
  | DocDeleteById _ _ | DocQueryExists _ => bool
  | DocQueryCount _ | DocQueryUpdate _ _ | DocQueryUpsert _ _ | DocQueryDelete _ => Z
  end.

(** A time to live is a number of milliseconds. *)
Inductive CacheOperation : Type :=
| CacheGet (key : string)
| CacheSet (key : string) (value : Value) (ttl : option Z) (only_if_absent : bool)
| CacheDelete (key : string)
| CacheExists (key : string)
| CacheTtl (key : string)
| CacheExpire (key : string) (ttl : Z)
| CacheIncr (key : string) (by_ : Z) (ttl : option Z)
| CacheDecr (key : string) (by_ : Z) (ttl : option Z)
| CacheGetMany (keys : list string)
| CacheSetMany (entries : gmap string Value) (ttl : option Z).

Definition cache_answer (op : CacheOperation) : Type :=
  match op with
  | CacheGet _ | CacheSet _ _ _ _ => option Value
  | CacheDelete _ | CacheExists _ | CacheExpire _ _ => bool
  | CacheTtl _ => option Z
  | CacheIncr _ _ _ | CacheDecr _ _ _ => Z
  | CacheGetMany _ => gmap string (option Value)
  | CacheSetMany _ _ => unit
  end.

Record QueueMessage : Type := mkQueueMessage {
  qm_payload : Value;
  qm_metadata : gmap string string;
}.

(** [QueueMessage::new]. *)
Definition QueueMessage_new (payload : Value) : QueueMessage := mkQueueMessage payload ∅.

Record HttpRequest : Type := mkHttpRequest {
  hr_method : HttpMethod;
  hr_url : string;
  hr_body : option Value;
  hr_headers : gmap string string;
  hr_query : gmap string string;
  hr_timeout : option Z;
}.

Record HttpClientResponse : Type := mkHttpClientResponse {
  hcr_status : Z;
  hcr_body : Value;
  hcr_headers : gmap string string;
}.

(** A message of the broker, told apart by its delivery tag. *)
Record QueueDelivery : Type := mkQueueDelivery {
  qd_tag : Z;
  qd_payload : Value;
  qd_metadata : gmap string string;
  qd_routing_key : string;
  qd_exchange : string;
}.

(** What the server asks, and evaluation does not: the text of a GET that
    succeeded, the monotonic clock in nanoseconds, the two output streams, and
    the consuming side of the queue driver.  [SSettle] is [ack] ([None]) or
    [nack] with its flag. *)
Inductive ServerOperation : Type :=
| SGet (url : string)
| SInstant
| SStdout (line : string)
| SStderr (line : string)
| SDeclareQueue (queue : string)
| SBindTopic (pattern : string)
| SConsumeQueue (queue : string)
| SConsumeTopic (queue : string)
| SNextDelivery (queue : string)
| SSettle (tag : Z) (nack : option bool).

(** A failed [eprintln!] panics: its answer tells whether it succeeded. *)
Definition server_answer (op : ServerOperation) : Type :=
  match op with
  | SGet _ => option string
  | SInstant => Z
  | SStdout _ | SSettle _ _ => unit
  | SStderr _ => bool
  | SDeclareQueue _ | SConsumeQueue _ | SConsumeTopic _ => result QueueDriverError unit
  | SBindTopic _ => result QueueDriverError string
  | SNextDelivery _ => option QueueDelivery
  end.

(** A transaction is known by the number its [begin] answered. *)
Inductive Req : Type :=
| RDb (tx : option nat) (op : DbOperation)
| RBegin
| RCommit (tx : nat)
| RRollback (tx : nat)
| RDoc (op : DocOperation)
| RPush (queue : string) (message : QueueMessage)
| RPublish (topic : string) (message : QueueMessage)
| RCache (op : CacheOperation)
| RHttp (request : HttpRequest)
| RFsRead (path : string)
| RFsWrite (path content : string)
| RFsOpenAppend (path : string)
| RFsAppend (path content : string)
| RFsExists (path : string)
| RFsRemove (path : string)
| RPrintln (line : string)
| RLogLine (line : string)
| RNow
| RUuidV4
| RUuidV7
| RSpanDraws
| RServer (op : ServerOperation).

(** A failed [println!] panics: its answer tells whether it succeeded.  The
    answer of [RSpanDraws] is the blocks of random bytes that were drawn. *)
Definition Answer (r : Req) : Type :=
  match r with
  | RDb _ op => result MarretaError (db_answer op)
  | RBegin => result MarretaError nat
  | RCommit _ | RRollback _ => result MarretaError unit
  | RDoc op => result MarretaError (doc_answer op)
  | RPush _ _ | RPublish _ _ => result QueueDriverError unit
  | RCache op => result CacheDriverError (cache_answer op)
  | RHttp _ => result HttpClientDriverError HttpClientResponse
  | RFsRead _ => result IoFault string
  | RFsWrite _ _ | RFsOpenAppend _ | RFsAppend _ _ | RFsRemove _ => result IoFault unit
  | RFsExists _ | RPrintln _ => bool
  | RLogLine _ => result string unit
  | RNow => instant
  | RUuidV4 | RUuidV7 => string
  | RSpanDraws => list (list N)
  | RServer op => server_answer op
  end.

(** * Trees of requests *)

(** The result of a branch of a broadcast. *)
Definition BranchResult : Type := outcome MarretaError Value.

Inductive Tree (A : Type) : Type :=
| TRet (a : A)
| TReq (r : Req) (k : Answer r -> Tree A)
| TPar (branches : list (Tree BranchResult)) (k : list BranchResult -> Tree A).
Arguments TRet {A} a.
Arguments TReq {A} r k.
Arguments TPar {A} branches k.

Fixpoint tree_bind {A B} (t : Tree A) (f : A -> Tree B) : Tree B :=
  match t with
  | TRet a => f a
  | TReq r k => TReq r (fun x => tree_bind (k x) f)
  | TPar bs k => TPar bs (fun outs => tree_bind (k outs) f)
  end.

#[export] Instance tree_mret : MRet Tree := fun _ a => TRet a.
#[export] Instance tree_mbind : MBind Tree := fun _ _ f t => tree_bind t f.

(** ** Running a tree

    One world at a time: branches run in their order.  This is one of the
    interleavings the scheduler can choose, the one the examples use. *)
Section Run.
Context {W : Type} (handle : forall r, W -> Answer r * W).

Fixpoint run {A} (t : Tree A) (w : W) : A * W :=
  match t with
  | TRet a => (a, w)
  | TReq r k => let '(x, w) := handle r w in run (k x) w
  | TPar bs k =>
      let '(outs, w) :=
        (fix run_all bs w :=
           match bs with
           | [] => ([], w)
           | b :: bs =>
               let '(o, w) := run b w in
               let '(os, w) := run_all bs w in (o :: os, w)
           end) bs w in
      run (k outs) w
  end.
End Run.

(** ** Protocols

    What a computation may ask, with a ghost state that the answers move. *)
Record Protocol (G : Type) : Type := mkProtocol {
  allowed : G -> Req -> Prop;
  next : G -> forall r, Answer r -> G;
  (* a broadcast may start, each branch in the state [branch_start], which has
     to be in a state of [branch_done] when the branch ends with a result *)
  par_allowed : G -> Prop;
  branch_start : G;
  branch_done : BranchResult -> G -> Prop;
}.
Arguments mkProtocol {G}.
Arguments allowed {G}.
Arguments next {G}.
Arguments par_allowed {G}.
Arguments branch_start {G}.
Arguments branch_done {G}.

Section Wp.
Context {G : Type} (P : Protocol G).

(** Every path of the tree follows the protocol and ends in [Q]. *)
Fixpoint wp {A} (t : Tree A) (g : G) (Q : A -> G -> Prop) : Prop :=
  match t with
  | TRet a => Q a g
  | TReq r k => allowed P g r /\ forall x, wp (k x) (next P g r x) Q
  | TPar bs k =>
      par_allowed P g
      /\ (fix all bs := match bs with
                        | [] => True
                        | b :: bs => wp b (branch_start P) (branch_done P) /\ all bs
                        end) bs
      /\ forall outs, length outs = length bs -> wp (k outs) g Q
  end.

Lemma wp_par {A} bs (k : list BranchResult -> Tree A) g Q :
  wp (TPar bs k) g Q <->
  par_allowed P g
  /\ Forall (fun b => wp b (branch_start P) (branch_done P)) bs
  /\ forall outs, length outs = length bs -> wp (k outs) g Q.
Proof.
  cbn [wp].
  assert (H : (fix all bs := match bs with
      | [] => True
      | b :: bs => wp b (branch_start P) (branch_done P) /\ all bs
      end) bs <-> Forall (fun b => wp b (branch_start P) (branch_done P)) bs).
  { generalize bs. intros l. induction l as [|b l IH]; [by rewrite Forall_nil |].
    by rewrite Forall_cons, IH. }
  by rewrite H.
Qed.

Lemma tree_wp_mono {A} (t : Tree A) g (Q Q' : A -> G -> Prop) :
  wp t g Q -> (forall a g', Q a g' -> Q' a g') -> wp t g Q'.
Proof.
  intros Ht HQ. revert g Ht.
  induction t as [A a|A r k IH|A bs k IH]; intros g Ht.
  - by apply HQ.
  - destruct Ht as [Ha Ht]. split; [done |]. intros x. by apply (IH x Q).
  - apply wp_par in Ht as (Hp & Hb & Ht). apply wp_par. split_and!; [done.. |].
    intros outs Ho. apply (IH outs Q); auto.
Qed.

Lemma tree_wp_bind {A B} (t : Tree A) (f : A -> Tree B) g Q :
  wp t g (fun a g' => wp (f a) g' Q) -> wp (tree_bind t f) g Q.
Proof.
  revert g. induction t as [A a|A r k IH|A bs k IH]; intros g Ht; cbn [tree_bind].
  - exact Ht.
  - destruct Ht as [Ha Ht]. split; [done |]. intros x. by apply IH.
  - apply wp_par in Ht as (Hp & Hb & Ht). apply wp_par. split_and!; [done.. |].
    intros outs Ho. apply IH. auto.
Qed.
End Wp.

End Interaction.

Arguments TRet {E A} a.
Arguments TReq {E A} r k.
Arguments TPar {E A} branches k.
Arguments mkProtocol {E G}.
Arguments allowed {E G}.
Arguments next {E G}.
Arguments par_allowed {E G}.
Arguments branch_start {E G}.
Arguments branch_done {E G}.
