(* ===== verification/ParserState.v ===== *)
(** The state of the parser and its token navigation (src/src/parser.rs, the
    record [Parser] and the helpers at the end of its [impl]).

    A method that takes [&mut self] and returns a [Result] is a [Parse A]: it
    returns a value and the new state, or an error, or it panics (an index into
    [tokens] out of range).  A [while] or [loop] is [iterate], with one more
    iteration of fuel than there are tokens left. *)
From stdpp Require Import base list strings.
From Stdlib Require Import ZArith Lia.
From S2P Require Import Prelude RustStr F64 Token Errors.

Record Parser : Type := mkParser {
  p_tokens : list Token;
  p_pos : nat;
  inside_transaction : bool;
}.

Definition Parser_new (tokens : list Token) : Parser := mkParser tokens 0 false.

Definition set_pos (n : nat) (p : Parser) : Parser :=
  mkParser (p_tokens p) n (inside_transaction p).
Definition set_inside_transaction (b : bool) (p : Parser) : Parser :=
  mkParser (p_tokens p) (p_pos p) b.

(** * The monad *)

Definition Parse (A : Type) : Type := Parser -> outcome MarretaError (A * Parser).

#[export] Instance parse_ret : MRet Parse := fun _ a p => Done (a, p).
#[export] Instance parse_bind : MBind Parse := fun _ _ k m p =>
  match m p with
  | Done (a, p) => k a p
  | Fails e => Fails e
  | Panics => Panics
  | NoFuel => NoFuel
  end.

Definition fail {A} (e : MarretaError) : Parse A := fun _ => Fails e.
Definition out_of_fuel {A} : Parse A := fun _ => NoFuel.
Definition get_pos : Parse nat := fun p => Done (p_pos p, p).
Definition put_pos (n : nat) : Parse unit := fun p => Done (tt, set_pos n p).
Definition get_inside_transaction : Parse bool := fun p => Done (inside_transaction p, p).
Definition put_inside_transaction (b : bool) : Parse unit :=
  fun p => Done (tt, set_inside_transaction b p).

(** The number of tokens from the current one on. *)
Definition remaining (p : Parser) : nat := length (p_tokens p) - p_pos p.

(** What an iteration of a loop does next. *)
Inductive control (A : Type) : Type :=
| Continue (a : A)
| Break (a : A).
Arguments Continue {A} a.
Arguments Break {A} a.

Fixpoint iterate_fuel {A} (fuel : nat) (step : A -> Parse (control A)) (a : A) : Parse A :=
  match fuel with
  | 0 => out_of_fuel
  | S fuel =>
      c ← step a;
      match c with
      | Continue a => iterate_fuel fuel step a
      | Break a => mret a
      end
  end.

Definition iterate {A} (step : A -> Parse (control A)) (a : A) : Parse A :=
  fun p => iterate_fuel (S (remaining p)) step a p.

(** [while cond { acc = body(acc) }]. *)
Definition while_do {A} (cond : Parse bool) (body : A -> Parse A) (a : A) : Parse A :=
  iterate (fun a =>
    c ← cond;
    if (c : bool) then a ← body a; mret (Continue a) else mret (Break a)) a.

(** * Navigation *)

(** [self.tokens[self.pos]]. *)
Definition token_at_pos : Parse Token := fun p =>
  match p_tokens p !! p_pos p with Some t => Done (t, p) | None => Panics end.

Definition is_at_end : Parse bool := fun p =>
  Done (match p_tokens p !! p_pos p with
        | None => true
        | Some t => bool_decide (kind t = Eof)
        end, p).

(** [tokens.len() - 1] underflows, and panics, on an empty list. *)
Definition current : Parse Token := fun p =>
  match p_tokens p !! (p_pos p `min` (length (p_tokens p) - 1)) with
  | Some t => Done (t, p)
  | None => Panics
  end.

Definition current_kind : Parse TokenKind := t ← current; mret (kind t).

Definition peek_kind : Parse (option TokenKind) := fun p =>
  Done (kind <$> p_tokens p !! (p_pos p + 1), p).

Definition advance : Parse Token := fun p =>
  match current p with
  | Done (t, p) => Done (t, if p_pos p <? length (p_tokens p) then set_pos (p_pos p + 1) p else p)
  | r => r
  end.

(** [std::mem::discriminant(a) == std::mem::discriminant(b)]. *)
Definition same_discriminant (a b : TokenKind) : bool :=
  match a, b with
  | Integer _, Integer _ | Float _, Float _ | StringLiteral _, StringLiteral _
  | Identifier _, Identifier _ => true
  | _, _ => bool_decide (a = b)
  end.

Definition check (k : TokenKind) : Parse bool :=
  e ← is_at_end;
  if (e : bool) then mret false
  else k' ← current_kind; mret (same_discriminant k' k).

(** [matches!(self.current_kind(), k)] for a kind without a payload. *)
Definition current_is (k : TokenKind) : Parse bool :=
  k' ← current_kind; mret (bool_decide (k' = k)).

Definition skip_newlines : Parse unit :=
  while_do (e ← is_at_end; if (e : bool) then mret false else current_is Newline)
    (fun _ => _ ← advance; mret tt) tt.

(** The error at the current token. *)
Definition unexpected {A} (expected : string) : Parse A :=
  t ← current; fail (UnexpectedToken expected (lexeme t) (line t) (column t)).

(** [format!("{:?}", kind)], for the kinds [expect] is called with, which have
    no payload. *)
Definition debug_kind (k : TokenKind) : string :=
  match k with
  | Integer _ => "Integer" | Float _ => "Float" | StringLiteral _ => "StringLiteral"
  | Identifier _ => "Identifier"
  | True_ => "True" | False_ => "False" | Null => "Null"
  | Plus => "Plus" | Minus => "Minus" | Star => "Star" | Slash => "Slash"
  | Percent => "Percent" | Equal => "Equal" | NotEqual => "NotEqual" | Greater => "Greater"
  | Less => "Less" | GreaterEqual => "GreaterEqual" | LessEqual => "LessEqual"
  | And => "And" | Or => "Or" | Not => "Not" | Assign => "Assign" | Pipeline => "Pipeline"
  | Broadcast => "Broadcast" | Arrow => "Arrow" | FatArrow => "FatArrow"
  | LeftParen => "LeftParen" | RightParen => "RightParen" | LeftBracket => "LeftBracket"
  | RightBracket => "RightBracket" | LeftBrace => "LeftBrace" | RightBrace => "RightBrace"
  | Comma => "Comma" | Dot => "Dot" | Colon => "Colon"
  | Task => "Task" | Match => "Match" | Fallback => "Fallback" | Map => "Map"
  | Reduce => "Reduce" | Keep => "Keep" | Skip => "Skip" | Require_ => "Require"
  | Reject => "Reject" | While => "While" | If => "If" | Else => "Else"
  | Route => "Route" | Take => "Take" | Reply => "Reply" | Fail_ => "Fail" | Listen => "Listen"
  | Get => "Get" | Post => "Post" | Put => "Put" | Patch => "Patch" | Delete => "Delete"
  | Db => "Db" | Queue => "Queue" | Cache => "Cache" | Fs => "Fs" | Json => "Json"
  | Base64 => "Base64" | Uuid => "Uuid" | Log => "Log" | Time_ => "Time" | Math => "Math"
  | HttpClient => "HttpClient" | Doc => "Doc" | Feature => "Feature" | Env => "Env"
  | Schema => "Schema" | As => "As" | Export => "Export" | Of => "Of"
  | Transaction => "Transaction" | Raise => "Raise" | Rescue => "Rescue" | On => "On"
  | Topic => "Topic" | Nack => "Nack" | Requeue => "Requeue"
  | TypeString => "TypeString" | TypeInteger => "TypeInteger" | TypeFloat => "TypeFloat"
  | TypeBoolean => "TypeBoolean" | TypeInstant => "TypeInstant" | TypeDate => "TypeDate"
  | TypeDuration => "TypeDuration" | TypeInterval => "TypeInterval" | TypeList => "TypeList"
  | TypeMap => "TypeMap"
  | Newline => "Newline" | Indent => "Indent" | Dedent => "Dedent" | Eof => "Eof"
  end.

Definition expect (k : TokenKind) : Parse Token :=
  e ← is_at_end;
  if (e : bool) then fail (UnexpectedEndOfInput (debug_kind k))
  else
    k' ← current_kind;
    if same_discriminant k' k then advance else unexpected (debug_kind k).

(** The spelling of the current token if it is a reserved word. *)
Definition reserved_word_as_name : Parse (option string) :=
  t ← current;
  mret (if bool_decide (keyword_lookup (lexeme t) = Some (kind t)) then Some (lexeme t) else None).

Definition is_reserved_word_token : Parse bool :=
  w ← reserved_word_as_name; mret (match w with Some _ => true | None => false end).

(** A name with the position of its token. *)
Definition Name : Type := string * nat * nat.

(** A name in a binder position. *)
Definition expect_identifier : Parse Name :=
  e ← is_at_end;
  if (e : bool) then fail (UnexpectedEndOfInput "identifier")
  else
    t ← current;
    match kind t with
    | Identifier name => _ ← advance; mret (name, line t, column t)
    | _ =>
        w ← reserved_word_as_name;
        match w with
        | Some word => fail (ReservedWord word (line t) (column t))
        | None => unexpected "identifier"
        end
    end.

(** A name position: an identifier or any reserved word. *)
Definition expect_name : Parse Name :=
  t ← current;
  match kind t with
  | Identifier name => _ ← advance; mret (name, line t, column t)
  | _ =>
      w ← reserved_word_as_name;
      match w with
      | Some name => _ ← advance; mret (name, line t, column t)
      | None => unexpected "identifier"
      end
  end.

Definition check_identifier_lexeme (expected : string) : Parse bool :=
  k ← current_kind; mret (bool_decide (k = Identifier expected)).

Definition check_next_identifier_lexeme (expected : string) : Parse bool :=
  k ← peek_kind; mret (bool_decide (k = Some (Identifier expected))).

Definition expect_identifier_lexeme (expected : string) : Parse unit :=
  b ← check_identifier_lexeme expected;
  if (b : bool) then _ ← advance; mret tt else unexpected expected.

Definition expect_integer : Parse Z :=
  k ← current_kind;
  match k with
  | Integer n => _ ← advance; mret n
  | _ => unexpected "integer"
  end.

Definition expect_string : Parse string :=
  k ← current_kind;
  match k with
  | StringLiteral s => _ ← advance; mret s
  | _ => unexpected "string"
  end.

(** [if self.check(k) { self.advance(); f } else { other }]. *)
Definition if_check {A} (k : TokenKind) (f other : Parse A) : Parse A :=
  b ← check k; if (b : bool) then _ ← advance; f else other.

(** The same for [matches!(self.current_kind(), k)]. *)
Definition if_current {A} (k : TokenKind) (f other : Parse A) : Parse A :=
  b ← current_is k; if (b : bool) then _ ← advance; f else other.

(** [!self.check(k) && !self.is_at_end()]. *)
Definition until (k : TokenKind) : Parse bool :=
  b ← check k;
  if (b : bool) then mret false else e ← is_at_end; mret (negb e).
