(* ===== verification/Parser.v ===== *)
(** The parser: recursive descent for statements and operator precedence for
    expressions (src/src/parser.rs).

    The methods call each other recursively.  Every such cycle consumes a
    token, so the methods are defined over a record [Rec] of the three entry
    points a cycle goes through, and [parsers] ties the knot with a fuel that
    counts the nesting. *)
From stdpp Require Import base list strings.
From Stdlib Require Import ZArith Lia.
From S2P Require Import Prelude RustStr F64 Token Errors Ast ParserState.

Definition PREC_NONE : nat := 0.
Definition PREC_OR : nat := 1.
Definition PREC_AND : nat := 2.
Definition PREC_EQUALITY : nat := 4.
Definition PREC_COMPARISON : nat := 5.
Definition PREC_ADDITION : nat := 6.
Definition PREC_MULTIPLICATION : nat := 7.
Definition PREC_UNARY : nat := 8.
Definition PREC_CALL : nat := 9.

Record Rec : Type := mkRec {
  rec_expression : nat -> Parse Expression;
  rec_statement : Parse Statement;
  rec_if_expression : Parse Expression;
}.

(** The precedence of a token as an infix operator. *)
Definition infix_precedence (k : TokenKind) : nat :=
  match k with
  | Or => PREC_OR
  | And => PREC_AND
  | Equal | NotEqual => PREC_EQUALITY
  | Greater | Less | GreaterEqual | LessEqual => PREC_COMPARISON
  | Identifier name => if String.eqb name "in" then PREC_COMPARISON else PREC_NONE
  | Plus | Minus => PREC_ADDITION
  | Star | Slash | Percent => PREC_MULTIPLICATION
  | Dot | LeftBracket => PREC_CALL
  | Pipeline | Broadcast => PREC_OR
  | _ => PREC_NONE
  end.

Definition current_infix_precedence : Parse nat :=
  e ← is_at_end;
  if (e : bool) then mret PREC_NONE else k ← current_kind; mret (infix_precedence k).

Definition binop_of (k : TokenKind) : option BinaryOperator :=
  match k with
  | Plus => Some Add | Minus => Some Subtract | Star => Some Multiply | Slash => Some Divide
  | Percent => Some Modulo | Equal => Some OpEqual | NotEqual => Some OpNotEqual
  | Greater => Some OpGreater | Less => Some OpLess | GreaterEqual => Some OpGreaterEqual
  | LessEqual => Some OpLessEqual | And => Some OpAnd | Or => Some OpOr
  | Identifier name => if String.eqb name "in" then Some OpIn else None
  | _ => None
  end.

Definition token_to_binop : Parse BinaryOperator :=
  k ← current_kind;
  match binop_of k with Some op => mret op | None => unexpected "binary operator" end.

(** The name a namespace or type keyword is read as in expression position. *)
Definition keyword_identifier (k : TokenKind) : option string :=
  match k with
  | Db => Some "db" | Doc => Some "doc" | Feature => Some "feature" | Env => Some "env"
  | Cache => Some "cache" | Fs => Some "fs" | Json => Some "json" | Base64 => Some "base64"
  | Uuid => Some "uuid" | Log => Some "log" | Time_ => Some "time" | Math => Some "math"
  | HttpClient => Some "http_client"
  | TypeString => Some "string" | TypeInteger => Some "integer" | TypeFloat => Some "float"
  | TypeBoolean => Some "boolean" | TypeInstant => Some "instant" | TypeDate => Some "date"
  | TypeDuration => Some "duration" | TypeInterval => Some "interval"
  | _ => None
  end.

Definition is_http_client_method_call (e : Expression) : bool :=
  match e with
  | EMethodCall (EIdentifier name) _ _ => String.eqb name "http_client"
  | _ => false
  end.

(** [as Schema], where the schema name must be an identifier. *)
Definition parse_as_schema_name : Parse (option string) :=
  if_check As
    (k ← current_kind;
     match k with
     | Identifier name => _ ← advance; mret (Some name)
     | _ => unexpected "schema name"
     end)
    (mret None).

(** [as Schema], read as a binder. *)
Definition parse_as_identifier : Parse (option string) :=
  if_current As ('(name, _, _) ← expect_identifier; mret (Some name)) (mret None).

Section Expressions.
Variable rec : Rec.

(** [self.skip_newlines(); while !dedent && !end { push(item); skip_newlines }]. *)
Definition block_items {A} (item : Parse A) : Parse (list A) :=
  _ ← skip_newlines;
  while_do (until Dedent) (fun items =>
    x ← item; _ ← skip_newlines; mret (items ++ [x])) [].

Definition parse_queue_producer_args
  : Parse (Expression * option string * option Expression) :=
  name ← rec_expression rec PREC_NONE;
  schema ← parse_as_schema_name;
  payload ← if_check Comma (e ← rec_expression rec PREC_NONE; mret (Some e)) (mret None);
  mret (name, schema, payload).

(** The name of a named argument, if one starts here. *)
Definition named_argument_name : Parse (option string) :=
  next ← peek_kind;
  if bool_decide (next = Some Colon) then
    k ← current_kind;
    match k with
    | Identifier n => mret (Some n)
    | _ => reserved_word_as_name
    end
  else mret None.

Definition parse_argument (args : list Argument) : Parse (control (list Argument)) :=
  named ← named_argument_name;
  match named with
  | Some name =>
      _ ← advance;
      _ ← advance;
      value ← rec_expression rec PREC_NONE;
      let args := args ++ [Named name value] in
      last ← check RightParen;
      if (last : bool) then mret (Break args)
      else _ ← expect Comma; mret (Continue args)
  | None =>
      e ← rec_expression rec PREC_NONE;
      let args := args ++ [Positional e] in
      last ← check RightParen;
      _ ← (if (last : bool) then mret tt else _ ← expect Comma; mret tt);
      last ← check RightParen;
      if (last : bool) then mret (Break args) else mret (Continue args)
  end.

Definition parse_argument_list : Parse (list Argument) :=
  empty ← check RightParen;
  if (empty : bool) then mret [] else iterate parse_argument [].

Definition parse_list_literal : Parse Expression :=
  _ ← advance;
  elements ← while_do (until RightBracket) (fun elements =>
    e ← rec_expression rec PREC_NONE;
    last ← check RightBracket;
    _ ← (if (last : bool) then mret tt else _ ← expect Comma; mret tt);
    mret (elements ++ [e])) [];
  _ ← expect RightBracket;
  mret (EList elements).

(** [key: value], where the key is a name position. *)
Definition parse_entry : Parse (string * Expression) :=
  '(key, _, _) ← expect_name;
  _ ← expect Colon;
  value ← rec_expression rec PREC_NONE;
  mret (key, value).

Definition parse_map_literal : Parse Expression :=
  _ ← advance;
  pairs ← while_do (until RightBrace) (fun pairs =>
    kv ← parse_entry;
    last ← check RightBrace;
    _ ← (if (last : bool) then mret tt else _ ← expect Comma; mret tt);
    mret (pairs ++ [kv])) [];
  _ ← expect RightBrace;
  mret (EMapLiteral pairs).

Definition parse_constructor_field (fields : list (string * Expression))
  : Parse (control (list (string * Expression))) :=
  more ← until RightBrace;
  if negb more then mret (Break fields)
  else
    _ ← skip_newlines;
    last ← check RightBrace;
    if (last : bool) then mret (Break fields)
    else
      kv ← parse_entry;
      _ ← if_check Comma (mret tt) (mret tt);
      _ ← skip_newlines;
      mret (Continue (fields ++ [kv])).

Definition parse_schema_constructor (schema_name : string) : Parse Expression :=
  _ ← expect LeftBrace;
  fields ← iterate parse_constructor_field [];
  _ ← expect RightBrace;
  mret (ESchemaConstructor schema_name fields).

(** * Blocks, match and if *)

(** [match body_stmts.pop()]: the last statement is the value of the block when
    it is an expression. *)
Definition split_final (body_stmts : list Statement) : TaskBody :=
  match rev body_stmts with
  | SExpressionStatement e _ _ :: earlier => TBlock (rev earlier) e
  | _ => TBlock body_stmts ENull
  end.

Definition parse_expression_block_body : Parse TaskBody :=
  _ ← expect Newline;
  _ ← expect Indent;
  body_stmts ← block_items (rec_statement rec);
  _ ← expect Dedent;
  mret (split_final body_stmts).

Definition parse_task_like_body : Parse TaskBody :=
  if_current FatArrow
    (e ← rec_expression rec PREC_NONE; mret (TInline e))
    parse_expression_block_body.

Definition parse_match_arm : Parse MatchArm :=
  pattern ← if_current Fallback (mret PFallback)
              (e ← rec_expression rec PREC_NONE; mret (PLiteral e));
  _ ← expect Arrow;
  value ← rec_expression rec PREC_NONE;
  mret (mkMatchArm pattern value).

Definition parse_match_expression : Parse Expression :=
  _ ← advance;
  subject ← rec_expression rec PREC_NONE;
  _ ← expect Newline;
  _ ← expect Indent;
  arms ← block_items parse_match_arm;
  _ ← expect Dedent;
  mret (EMatch subject arms).

Definition parse_if_expression : Parse Expression :=
  _ ← advance;
  condition ← rec_expression rec PREC_NONE;
  then_branch ← parse_expression_block_body;
  else_branch ←
    if_check Else
      (nested ← check If;
       if (nested : bool) then e ← rec_if_expression rec; mret (Some (TInline e))
       else b ← parse_expression_block_body; mret (Some b))
      (mret None);
  mret (EIf condition then_branch else_branch).

(** * Pipelines *)

Definition parse_map_statement : Parse MapStatement :=
  keep ← check Keep;
  if (keep : bool) then
    _ ← advance;
    value ← rec_expression rec PREC_NONE;
    condition ← if_check If (c ← rec_expression rec PREC_NONE; mret (Some c)) (mret None);
    mret (MKeep value condition)
  else
    skip ← check Skip;
    if (skip : bool) then
      _ ← advance;
      _ ← expect If;
      condition ← rec_expression rec PREC_NONE;
      mret (MSkip condition)
    else s ← rec_statement rec; mret (MStatement s).

Definition parse_map_stage : Parse PipelineStage :=
  _ ← advance;
  '(variable, _, _) ← expect_identifier;
  _ ← expect Newline;
  _ ← expect Indent;
  body ← block_items parse_map_statement;
  _ ← expect Dedent;
  mret (PSMap variable body).

Definition parse_reduce_stage : Parse PipelineStage :=
  _ ← advance;
  _ ← expect LeftParen;
  initial ← rec_expression rec PREC_NONE;
  _ ← expect RightParen;
  '(accumulator, _, _) ← expect_identifier;
  _ ← expect Comma;
  '(item, _, _) ← expect_identifier;
  body ← parse_task_like_body;
  mret (PSReduce initial accumulator item body).

Definition parse_rescue_stage : Parse PipelineStage :=
  _ ← advance;
  saved ← get_pos;
  _ ← skip_newlines;
  block ← check Indent;
  if (block : bool) then
    _ ← advance;
    body ← block_items (rec_statement rec);
    _ ← expect Dedent;
    mret (PSRescue (RHBlock body))
  else
    _ ← put_pos saved;
    k ← current_kind;
    match k with
    | Newline | Dedent | Eof => mret (PSRescue (RHInline ENull))
    | _ => e ← rec_expression rec PREC_NONE; mret (PSRescue (RHInline e))
    end.

(** A stage of a pipeline, after [>>], and whether it can be followed by more. *)
Definition parse_stage : Parse (PipelineStage * bool) :=
  m ← current_is Map;
  if (m : bool) then s ← parse_map_stage; mret (s, true)
  else
    r ← current_is Reduce;
    if (r : bool) then s ← parse_reduce_stage; mret (s, true)
    else
      r ← current_is Rescue;
      if (r : bool) then s ← parse_rescue_stage; mret (s, false)
      else e ← rec_expression rec (PREC_CALL - 1); mret (PSExpression e, true).

Definition parse_pipeline_stage (stages : list PipelineStage)
  : Parse (control (list PipelineStage)) :=
  more ← check Pipeline;
  if negb more then mret (Break stages)
  else
    _ ← advance;
    _ ← skip_newlines;
    '(s, more) ← parse_stage;
    if (more : bool) then _ ← skip_newlines; mret (Continue (stages ++ [s]))
    else mret (Break (stages ++ [s])).

Definition parse_pipeline_stages (input : Expression) : Parse Expression :=
  stages ← iterate parse_pipeline_stage [];
  mret (EPipeline input stages).

Definition parse_broadcast (input : Expression) : Parse Expression :=
  _ ← advance;
  _ ← skip_newlines;
  block ← check Indent;
  if (block : bool) then
    _ ← advance;
    _ ← skip_newlines;
    targets ← while_do (check Arrow) (fun targets =>
      _ ← advance;
      target ← rec_expression rec PREC_NONE;
      _ ← skip_newlines;
      mret (targets ++ [target])) [];
    _ ← expect Dedent;
    mret (EBroadcast input targets)
  else
    _ ← expect Arrow;
    target ← rec_expression rec PREC_NONE;
    mret (EBroadcast input [target]).

(** * Expressions *)

Definition parse_in (left : Expression) (prec : nat) : Parse Expression :=
  _ ← advance;
  right ← rec_expression rec prec;
  mret (EBinaryOp left OpIn right).

Definition parse_binary (left : Expression) (prec : nat) : Parse Expression :=
  operator ← token_to_binop;
  _ ← advance;
  right ← rec_expression rec prec;
  mret (EBinaryOp left operator right).

Definition parse_subscript (left : Expression) : Parse Expression :=
  _ ← advance;
  key ← rec_expression rec PREC_NONE;
  _ ← expect RightBracket;
  mret (ESubscript left key).

(** [.field] or [.method(args)]. *)
Definition parse_member (left : Expression) : Parse Expression :=
  _ ← advance;
  '(name, _, _) ← expect_name;
  if_check LeftParen
    (arguments ← parse_argument_list;
     _ ← expect RightParen;
     mret (EMethodCall left name arguments))
    (mret (EPropertyAccess left name)).

Definition parse_infix (left : Expression) (prec : nat) : Parse Expression :=
  k ← current_kind;
  match k with
  | Identifier name => if String.eqb name "in" then parse_in left prec else mret left
  | Plus | Minus | Star | Slash | Percent | Equal | NotEqual | Greater | Less
  | GreaterEqual | LessEqual | And | Or => parse_binary left prec
  | LeftBracket => parse_subscript left
  | Dot => parse_member left
  | Pipeline => parse_pipeline_stages left
  | Broadcast => parse_broadcast left
  | _ => mret left
  end.

(** [queue.push ...] and [topic.publish ...], after the [.]. *)
Definition parse_queue_push : Parse Expression :=
  k ← current_kind;
  match k with
  | Identifier method =>
      if String.eqb method "push" then
        _ ← advance;
        '(queue_name, schema, payload) ← parse_queue_producer_args;
        mret (EQueuePush queue_name schema payload)
      else if String.eqb method "publish" then
        unexpected "push (use topic.publish to publish to a topic)"
      else unexpected "push"
  | _ => unexpected "push"
  end.

Definition parse_topic_publish : Parse Expression :=
  k ← current_kind;
  match k with
  | Identifier method =>
      if String.eqb method "publish" then
        _ ← advance;
        '(topic, schema, payload) ← parse_queue_producer_args;
        mret (ETopicPublish topic schema payload)
      else unexpected "publish"
  | _ => unexpected "publish"
  end.

Definition parse_identifier_expression (name : string) : Parse Expression :=
  _ ← advance;
  brace ← check LeftBrace;
  if (brace : bool) then parse_schema_constructor name
  else
    if_check LeftParen
      (arguments ← parse_argument_list;
       _ ← expect RightParen;
       mret (EFunctionCall name arguments))
      (mret (EIdentifier name)).

Definition parse_fail_expression : Parse Expression :=
  _ ← advance;
  code ← expect_integer;
  _ ← expect Comma;
  msg ← rec_expression rec PREC_NONE;
  mret (EFunctionCall "__fail__" [Positional (EInteger code); Positional msg]).

Definition parse_task_call : Parse Expression :=
  _ ← advance;
  _ ← advance;
  '(name, _, _) ← expect_identifier;
  _ ← expect RightParen;
  mret (ETaskCall name).

Definition parse_prefix : Parse Expression :=
  k ← current_kind;
  next ← peek_kind;
  match k with
  | Integer n => _ ← advance; mret (EInteger n)
  | Float x => _ ← advance; mret (EFloat x)
  | StringLiteral s => _ ← advance; mret (EStringLiteral s)
  | True_ => _ ← advance; mret (EBoolean true)
  | False_ => _ ← advance; mret (EBoolean false)
  | Null => _ ← advance; mret ENull
  | Not => _ ← advance; operand ← rec_expression rec PREC_UNARY; mret (EUnaryOp OpNot operand)
  | Minus => _ ← advance; operand ← rec_expression rec PREC_UNARY; mret (EUnaryOp Negate operand)
  | LeftParen =>
      _ ← advance;
      e ← rec_expression rec PREC_NONE;
      _ ← expect RightParen;
      mret e
  | LeftBracket => parse_list_literal
  | LeftBrace => parse_map_literal
  | Task =>
      if bool_decide (next = Some LeftParen) then parse_task_call else unexpected "expression"
  | Identifier name => parse_identifier_expression name
  | Match => parse_match_expression
  | If => parse_if_expression
  | Queue => _ ← advance; if_check Dot parse_queue_push (mret (EIdentifier "queue"))
  | Topic => _ ← advance; if_check Dot parse_topic_publish (mret (EIdentifier "topic"))
  | Fail_ => parse_fail_expression
  | k =>
      match keyword_identifier k with
      | Some name => _ ← advance; mret (EIdentifier name)
      | None => unexpected "expression"
      end
  end.

(** One iteration of the operator loop. *)
Definition parse_operator (min_prec : nat) (left : Expression) : Parse (control Expression) :=
  e ← is_at_end;
  if (e : bool) then mret (Break left)
  else
    prec ← current_infix_precedence;
    if prec <=? min_prec then mret (Break left)
    else left ← parse_infix left prec; mret (Continue left).

(** [as Schema] after a call of the HTTP client, and [rescue handler]. *)
Definition parse_modifiers (min_prec : nat) (left : Expression) : Parse Expression :=
  left ←
    (a ← current_is As;
     if (min_prec =? PREC_NONE) && a && is_http_client_method_call left then
       _ ← advance;
       '(schema_name, _, _) ← expect_identifier;
       mret (EHttpClientResponseSchema left schema_name)
     else mret left);
  r ← current_is Rescue;
  if (min_prec =? PREC_NONE) && r then
    _ ← advance;
    handler ← rec_expression rec PREC_NONE;
    mret (ERescue left handler)
  else mret left.

Definition parse_expression (min_prec : nat) : Parse Expression :=
  left ← parse_prefix;
  left ← iterate (parse_operator min_prec) left;
  parse_modifiers min_prec left.

(** Wraps an expression in a pipeline or broadcast if one follows, possibly on
    the next, indented line. *)
Definition maybe_parse_pipeline (e : Expression) : Parse Expression :=
  saved ← get_pos;
  _ ← skip_newlines;
  i ← check Indent;
  _ ← (if (i : bool) then _ ← advance; mret tt else mret tt);
  p ← check Pipeline;
  if (p : bool) then parse_pipeline_stages e
  else
    b ← check Broadcast;
    if (b : bool) then parse_infix e PREC_OR
    else _ ← put_pos saved; mret e.

End Expressions.
