(* ===== verification/ParserStatements.v ===== *)
(** The statements of the parser, the program loop, and the knot of the
    recursion (src/src/parser.rs). *)
From stdpp Require Import base list strings.
From Stdlib Require Import ZArith Lia.
From S2P Require Import Prelude RustStr F64 Token Errors Ast ParserState Parser.

(** [str::ends_with(char)] and [str::trim_end_matches(char)]. *)
Fixpoint ends_with_char (a : Ascii.ascii) (s : string) : bool :=
  match s with
  | EmptyString => false
  | String b EmptyString => Ascii.eqb a b
  | String _ s => ends_with_char a s
  end.
Arguments ends_with_char _%_char_scope _.

Fixpoint trim_end_matches (a : Ascii.ascii) (s : string) : string :=
  match s with
  | EmptyString => EmptyString
  | String b s =>
      match trim_end_matches a s with
      | EmptyString => if Ascii.eqb a b then EmptyString else String b EmptyString
      | s => String b s
      end
  end.
Arguments trim_end_matches _%_char_scope _.

(** * Types, schemas and bindings *)

Definition parse_enum_value (line column : nat) (values : list string)
  : Parse (control (list string)) :=
  value ← expect_string;
  if String.eqb value EmptyString then
    fail (UnexpectedToken "non-empty enum string value" (dquote +:+ dquote) line column)
  else if existsb (String.eqb value) values then
    fail (UnexpectedToken "unique enum string values" value line column)
  else
    last ← check RightBracket;
    if (last : bool) then mret (Break (values ++ [value]))
    else _ ← expect Comma; mret (Continue (values ++ [value])).

Definition parse_enum_schema_type : Parse SchemaType :=
  t ← current;
  _ ← advance;
  _ ← expect LeftBracket;
  empty ← check RightBracket;
  if (empty : bool) then
    fail (UnexpectedToken "at least one enum string value" "]" (line t) (column t))
  else
    values ← iterate (parse_enum_value (line t) (column t)) [];
    _ ← expect RightBracket;
    mret (EnumType values).

(** The type keywords without parameters. *)
Definition simple_type (k : TokenKind) : option SchemaType :=
  match k with
  | TypeString => Some StringType | TypeInteger => Some IntegerType
  | TypeFloat => Some FloatType | TypeBoolean => Some BooleanType
  | TypeInstant => Some InstantType | TypeDate => Some DateType | Time_ => Some TimeType
  | TypeDuration => Some DurationType | TypeInterval => Some IntervalType
  | Map => Some MapType
  | Identifier name =>
      if String.eqb name "decimal" then Some DecimalType
      else if String.eqb name "map" then Some MapType else None
  | _ => None
  end.

(** [list of list of ...] recurses; each level consumes two tokens. *)
Fixpoint parse_schema_type_fuel (fuel : nat) : Parse SchemaType :=
  match fuel with
  | 0 => out_of_fuel
  | S fuel =>
      k ← current_kind;
      match simple_type k with
      | Some t => _ ← advance; mret t
      | None =>
          match k with
          | Identifier name =>
              if String.eqb name "enum" then parse_enum_schema_type
              else if String.eqb name "list" then
                _ ← advance;
                if_current Of
                  (inner ← parse_schema_type_fuel fuel; mret (TypedList inner))
                  (mret ListType)
              else '(schema_name, _, _) ← expect_identifier; mret (Reference schema_name)
          | _ => unexpected "schema type (string, integer, float, decimal, boolean, instant, date, time, duration, interval, enum, list, map, or schema name)"
          end
      end
  end.

Definition parse_schema_type : Parse SchemaType :=
  fun p => parse_schema_type_fuel (S (remaining p)) p.

Definition SchemaBody : Type := option string * list SchemaField.

(** One line of a schema: the [db:] directive or a field. *)
Definition parse_schema_line (body : SchemaBody) : Parse SchemaBody :=
  let '(db_table, fields) := body in
  db ← current_is Db;
  next ← peek_kind;
  if (db : bool) && bool_decide (next = Some Colon) then
    _ ← advance;
    _ ← expect Colon;
    '(table_name, _, _) ← expect_name;
    _ ← skip_newlines;
    mret (Some table_name, fields)
  else
    '(raw_name, _, _) ← expect_name;
    let optional := ends_with_char "?" raw_name in
    let field_name := if optional then trim_end_matches "?" raw_name else raw_name in
    _ ← expect Colon;
    field_type ← parse_schema_type;
    _ ← skip_newlines;
    mret (db_table, fields ++ [mkSchemaField field_name field_type optional]).

Definition parse_schema : Parse Statement :=
  t ← current;
  _ ← advance;
  '(name, _, _) ← expect_identifier;
  _ ← expect Newline;
  _ ← expect Indent;
  _ ← skip_newlines;
  '(db_table, fields) ← while_do (until Dedent) parse_schema_line (None, []);
  _ ← expect Dedent;
  mret (SSchema name db_table fields (line t) (column t)).

Definition parse_param : Parse ParamDef :=
  '(name, _, _) ← expect_identifier;
  schema ← parse_as_identifier;
  mret (mkParamDef name schema).

Definition parse_param_list : Parse (list ParamDef) :=
  empty ← check RightParen;
  if (empty : bool) then mret []
  else
    first ← parse_param;
    while_do (check Comma) (fun params =>
      _ ← advance; x ← parse_param; mret (params ++ [x])) [first].

Definition take_kind (name : string) : TakeKind :=
  if String.eqb name "query" then TKQuery
  else if String.eqb name "headers" then TKHeaders
  else if String.eqb name "form" then TKForm
  else if String.eqb name "raw" then TKRaw
  else TKPayload.

Definition parse_take_binding (bindings : list TakeBinding) : Parse (control (list TakeBinding)) :=
  '(name, _, _) ← expect_identifier;
  schema ← parse_as_identifier;
  let bindings := bindings ++ [mkTakeBinding (take_kind name) name schema] in
  if_current Comma (mret (Continue bindings)) (mret (Break bindings)).

Definition parse_take_bindings : Parse (list TakeBinding) := iterate parse_take_binding [].

Definition parse_http_verb : Parse HttpVerb :=
  k ← current_kind;
  match k with
  | Get => _ ← advance; mret VGet
  | Post => _ ← advance; mret VPost
  | Put => _ ← advance; mret VPut
  | Patch => _ ← advance; mret VPatch
  | Delete => _ ← advance; mret VDelete
  | _ => unexpected "HTTP verb (GET, POST, PUT, PATCH, DELETE)"
  end.

Definition parse_nack : Parse Statement :=
  t ← current;
  _ ← advance;
  requeue ← if_check Requeue (mret true) (mret false);
  mret (SNack requeue None (line t) (column t)).

Definition parse_route_auth : Parse RouteAuth :=
  t ← current;
  _ ← advance;
  _ ← expect_identifier_lexeme "auth";
  '(provider, _, _) ← expect_identifier;
  mret (mkRouteAuth provider (line t) (column t)).

(** * Statements *)

Section Statements.
Variable rec : Rec.

#[local] Notation parse_expression := (Parser.parse_expression rec).
#[local] Notation block := (block_items (rec_statement rec)).

(** [match] or [if] as the whole right-hand side. *)
Definition parse_assigned_block (name : string) (line column : nat) (m : bool) : Parse Statement :=
  e ← (if m then parse_match_expression rec else parse_if_expression rec);
  e ← maybe_parse_pipeline rec e;
  mret (SAssignment name e line column).

Definition parse_assignment : Parse Statement :=
  '(name, line, column) ← expect_identifier;
  _ ← expect Assign;
  m ← current_is Match;
  i ← current_is If;
  if m || i then parse_assigned_block name line column m
  else
    value ← parse_expression PREC_NONE;
    if_current If
      (condition ← parse_expression PREC_NONE;
       mret (SConditionalAssignment name value condition line column))
      (value ← maybe_parse_pipeline rec value;
       mret (SAssignment name value line column)).

(** [fail CODE, "message"], after [fail]. *)
Definition parse_fail_clause : Parse (Z * string) :=
  error_code ← expect_integer;
  _ ← expect Comma;
  error_message ← expect_string;
  mret (error_code, error_message).

Definition parse_require : Parse Statement :=
  t ← current;
  _ ← advance;
  condition ← parse_expression PREC_NONE;
  _ ← expect Else;
  if_current Nack
    (requeue ← if_check Requeue (mret true) (mret false);
     mret (SNack requeue (Some (EUnaryOp OpNot condition)) (line t) (column t)))
    (if_current Raise
       (msg ← parse_expression PREC_NONE;
        mret (SRaise msg (Some (EUnaryOp OpNot condition)) (line t) (column t)))
       (_ ← expect Fail_;
        '(error_code, error_message) ← parse_fail_clause;
        mret (SRequire condition error_code error_message (line t) (column t)))).

Definition parse_reject : Parse Statement :=
  t ← current;
  _ ← advance;
  condition ← parse_expression PREC_NONE;
  _ ← expect Else;
  _ ← expect Fail_;
  '(error_code, error_message) ← parse_fail_clause;
  mret (SReject condition error_code error_message (line t) (column t)).

Definition parse_while : Parse Statement :=
  t ← current;
  _ ← advance;
  condition ← parse_expression PREC_NONE;
  _ ← expect Newline;
  _ ← expect Indent;
  body ← block;
  _ ← expect Dedent;
  mret (SWhile condition body (line t) (column t)).

Definition parse_transaction : Parse Statement :=
  t ← current;
  nested ← get_inside_transaction;
  if (nested : bool) then
    fail (UnexpectedToken "statement (not transaction — nested transactions are not allowed)"
            "transaction" (line t) (column t))
  else
    _ ← advance;
    _ ← expect Newline;
    _ ← expect Indent;
    _ ← put_inside_transaction true;
    body ← block;
    _ ← put_inside_transaction false;
    _ ← expect Dedent;
    mret (STransaction body (line t) (column t)).

(** The binding of a consumer. *)
Definition parse_consumer_binding : Parse string :=
  t ← current;
  match kind t with
  | Identifier name => _ ← advance; mret name
  | _ =>
      w ← reserved_word_as_name;
      match w with
      | Some word => fail (ReservedWord word (line t) (column t))
      | None => unexpected "identifier (binding name)"
      end
  end.

(** A topic literal with a wildcard, which [on topic] rejects. *)
Definition wildcard_topic (is_topic : bool) (target : Expression) : option string :=
  match target with
  | EStringLiteral topic =>
      if is_topic && (str_has "*" topic || str_has "#" topic) then Some topic else None
  | _ => None
  end.

Definition parse_on_body (is_topic : bool) (line column : nat) : Parse Statement :=
  target ← parse_expression PREC_NONE;
  match wildcard_topic is_topic target with
  | Some topic =>
      fail (UnexpectedToken "exact topic string without '*' or '#' wildcards" topic line column)
  | None =>
      _ ← expect Take;
      binding ← parse_consumer_binding;
      schema ← parse_as_schema_name;
      _ ← expect Newline;
      _ ← expect Indent;
      body ← block;
      _ ← expect Dedent;
      mret (if is_topic then SOnTopic target binding schema body line column
            else SOnQueue target binding schema body line column)
  end.

Definition parse_on : Parse Statement :=
  t ← current;
  _ ← advance;
  k ← current_kind;
  match k with
  | Queue => _ ← advance; parse_on_body false (line t) (column t)
  | Topic => _ ← advance; parse_on_body true (line t) (column t)
  | _ => unexpected "queue or topic"
  end.

Definition parse_scenario_given : Parse ScenarioStep :=
  t ← current;
  _ ← advance;
  target ← parse_expression PREC_NONE;
  _ ← expect_identifier_lexeme "returns";
  returns ← parse_expression PREC_NONE;
  mret (Given target returns (line t) (column t)).

Definition parse_scenario_when : Parse ScenarioStep :=
  t ← current;
  _ ← advance;
  verb ← parse_http_verb;
  path ← expect_string;
  w ← check_identifier_lexeme "with";
  body ← (if (w : bool) then
            _ ← advance; e ← parse_expression (PREC_AND + 1); mret (Some e)
          else mret None);
  headers ← if_current And
    (_ ← expect_identifier_lexeme "headers";
     e ← parse_expression PREC_NONE;
     mret (Some e))
    (mret None);
  mret (When verb path body headers (line t) (column t)).

Definition parse_scenario_then : Parse ScenarioStep :=
  t ← current;
  _ ← advance;
  s ← check_identifier_lexeme "status";
  if (s : bool) then
    _ ← advance;
    status ← parse_expression PREC_NONE;
    mret (ThenStatus status (line t) (column t))
  else
    r ← check_identifier_lexeme "response";
    if (r : bool) then
      _ ← advance;
      _ ← expect_identifier_lexeme "is";
      expected ← parse_expression PREC_NONE;
      mret (ThenResponse expected (line t) (column t))
    else unexpected "status or response after then".

Definition parse_scenario_step : Parse ScenarioStep :=
  k ← current_kind;
  match k with
  | Identifier name =>
      if String.eqb name "given" then parse_scenario_given
      else if String.eqb name "when" then parse_scenario_when
      else if String.eqb name "then" then parse_scenario_then
      else unexpected "given, when, or then inside scenario"
  | _ => unexpected "given, when, or then inside scenario"
  end.

Definition is_when (s : ScenarioStep) : bool :=
  match s with When _ _ _ _ _ _ => true | _ => false end.
Definition is_then (s : ScenarioStep) : bool :=
  match s with ThenStatus _ _ _ | ThenResponse _ _ _ => true | _ => false end.

Definition parse_scenario : Parse Statement :=
  t ← current;
  _ ← advance;
  name ← expect_string;
  _ ← expect Newline;
  _ ← expect Indent;
  steps ← block_items parse_scenario_step;
  _ ← expect Dedent;
  let when_count := length (List.filter is_when steps) in
  if negb (when_count =? 1) then
    fail (UnexpectedToken "exactly one when request inside scenario"
            (show_nat when_count +:+ " when requests") (line t) (column t))
  else if negb (existsb is_then steps) then
    fail (UnexpectedToken "at least one then assertion inside scenario"
            "no then assertions" (line t) (column t))
  else mret (SScenario name steps (line t) (column t)).

Definition parse_raise : Parse Statement :=
  t ← current;
  _ ← advance;
  message ← parse_expression PREC_NONE;
  condition ← if_current If (c ← parse_expression PREC_NONE; mret (Some c)) (mret None);
  mret (SRaise message condition (line t) (column t)).

(** The indented [take] lines; with an inline [take], any of them is an error. *)
Definition parse_take_line (inline_take : bool) (take : list TakeBinding)
  : Parse (list TakeBinding) :=
  t ← current;
  if inline_take then
    fail (UnexpectedToken "route body statement (a route uses either an inline `take` on the route line or indented `take` lines, not both)"
            (lexeme t) (line t) (column t))
  else
    _ ← advance;
    more ← parse_take_bindings;
    _ ← expect Newline;
    _ ← skip_newlines;
    mret (take ++ more).

(** [require auth], two tokens. *)
Definition at_route_auth : Parse bool :=
  r ← current_is Require_;
  a ← check_next_identifier_lexeme "auth";
  mret (r && a).

Definition parse_route_allow : Parse Expression :=
  _ ← advance; parse_expression PREC_NONE.

Definition parse_route_statement : Parse Statement :=
  allow ← check_identifier_lexeme "allow";
  if (allow : bool) then
    unexpected "route body statement (allow clauses must appear before the route body)"
  else
    auth ← at_route_auth;
    if (auth : bool) then
      unexpected "route body statement (require auth must appear before allow clauses and body)"
    else
      take ← current_is Take;
      if (take : bool) then
        unexpected "route body statement (`take` bindings must be the leading statements of the route, before any logic)"
      else rec_statement rec.

Definition parse_route : Parse Statement :=
  t ← current;
  _ ← advance;
  verb ← parse_http_verb;
  path ← expect_string;
  take ← if_current Take parse_take_bindings (mret []);
  let inline_take := match take with [] => false | _ => true end in
  _ ← expect Newline;
  _ ← expect Indent;
  _ ← skip_newlines;
  take ← while_do (current_is Take) (parse_take_line inline_take) take;
  a ← at_route_auth;
  auth ← (if (a : bool) then
            auth ← parse_route_auth; _ ← skip_newlines; mret (Some auth)
          else mret None);
  allow ← while_do (check_identifier_lexeme "allow") (fun allow =>
    e ← parse_route_allow; _ ← skip_newlines; mret (allow ++ [e])) [];
  body ← while_do (until Dedent) (fun body =>
    s ← parse_route_statement; _ ← skip_newlines; mret (body ++ [s])) [];
  _ ← expect Dedent;
  mret (SRoute verb path auth allow take body (line t) (column t)).

Definition parse_auth_field (fields : list (AuthProviderField Expression))
  : Parse (list (AuthProviderField Expression)) :=
  '(field_name, field_line, field_column) ← expect_name;
  _ ← expect Colon;
  value ← parse_expression PREC_NONE;
  _ ← if_check Comma (mret tt) (mret tt);
  _ ← skip_newlines;
  mret (fields ++ [mkAuthProviderField field_name value field_line field_column]).

Definition parse_auth_provider : Parse Statement :=
  t ← current;
  _ ← advance;
  '(kind, _, _) ← expect_identifier;
  '(name, _, _) ← expect_identifier;
  _ ← expect LeftBrace;
  _ ← skip_newlines;
  fields ← while_do (until RightBrace) parse_auth_field [];
  _ ← expect RightBrace;
  let config := mkAuthProviderConfig name fields in
  if String.eqb kind "jwt" then mret (SAuthProvider (Jwt config) (line t) (column t))
  else if String.eqb kind "api_key" then mret (SAuthProvider (ApiKey config) (line t) (column t))
  else fail (UnexpectedToken "jwt or api_key" kind (line t) (column t)).

(** The content type modifier, read by the spelling of an identifier. *)
Definition parse_content_type : Parse ReplyContentType :=
  t ← current;
  match kind t with
  | Identifier _ =>
      if String.eqb (lexeme t) "html" then _ ← advance; mret RHtml
      else if String.eqb (lexeme t) "text" then _ ← advance; mret RText
      else mret RJson
  | _ => mret RJson
  end.

Definition parse_reply : Parse Statement :=
  t ← current;
  _ ← advance;
  content_type ← parse_content_type;
  status_code ← parse_expression PREC_NONE;
  response_schema ← parse_as_identifier;
  _ ← expect Comma;
  body ← parse_expression PREC_NONE;
  extra_headers ← if_current Comma (e ← parse_expression PREC_NONE; mret (Some e)) (mret None);
  mret (SReply status_code content_type body response_schema extra_headers (line t) (column t)).

Definition parse_fail : Parse Statement :=
  t ← current;
  _ ← advance;
  status_code ← expect_integer;
  _ ← expect Comma;
  message ← parse_expression PREC_NONE;
  mret (SFail status_code message (line t) (column t)).

Definition parse_task_def : Parse Statement :=
  t ← current;
  _ ← advance;
  '(name, _, _) ← expect_identifier;
  _ ← expect LeftParen;
  params ← parse_param_list;
  _ ← expect RightParen;
  body ← parse_task_like_body rec;
  mret (STaskDef name params body (line t) (column t)).

(** Whether an assignment starts here: a name, or a reserved word, before [=]. *)
Definition at_assignment : Parse bool :=
  k ← current_kind;
  next ← peek_kind;
  w ← is_reserved_word_token;
  mret (bool_decide (next = Some Assign)
        && (match k with Identifier _ => true | _ => false end || w)).

Definition parse_export : Parse Statement :=
  t ← token_at_pos;
  _ ← advance;
  k ← current_kind;
  a ← at_assignment;
  match k with
  | Task => s ← parse_task_def; mret (SExport s)
  | Schema => s ← parse_schema; mret (SExport s)
  | k =>
      if (a : bool) then s ← parse_assignment; mret (SExport s)
      else if bool_decide (k = Route) then
        fail (UnexpectedToken "task, schema, or assignment" "route" (line t) (column t))
      else
        got ← token_at_pos;
        fail (UnexpectedToken "task, schema, or assignment after export" (lexeme got)
                (line t) (column t))
  end.

(** Whether the two tokens here open an authentication provider or a scenario. *)
Definition opens_auth (k : TokenKind) (next : option TokenKind) : bool :=
  bool_decide (k = Identifier "auth") &&
  match next with
  | Some (Identifier kind) => String.eqb kind "jwt" || String.eqb kind "api_key"
  | _ => false
  end.
Definition opens_scenario (k : TokenKind) (next : option TokenKind) : bool :=
  bool_decide (k = Identifier "scenario") &&
  match next with Some (StringLiteral _) => true | _ => false end.

Definition parse_expression_statement : Parse Statement :=
  t ← current;
  e ← parse_expression PREC_NONE;
  mret (SExpressionStatement e (line t) (column t)).

(** The arms of [parse_statement] after the keywords. *)
Definition parse_other_statement : Parse Statement :=
  t ← current;
  next ← peek_kind;
  a ← at_assignment;
  if opens_auth (kind t) next then parse_auth_provider
  else if opens_scenario (kind t) next then parse_scenario
  else if (a : bool) then parse_assignment
  else if bool_decide (kind t = Indent) then fail (UnexpectedIndentation (line t))
  else parse_expression_statement.

Definition parse_statement : Parse Statement :=
  k ← current_kind;
  match k with
  | Require_ => parse_require
  | Reject => parse_reject
  | While => parse_while
  | Task => parse_task_def
  | Route => parse_route
  | Schema => parse_schema
  | Reply => parse_reply
  | Fail_ => parse_fail
  | Export => parse_export
  | Transaction => parse_transaction
  | Raise => parse_raise
  | On => parse_on
  | Nack => parse_nack
  | _ => parse_other_statement
  end.

End Statements.

(** * The knot, and programs *)

Fixpoint parsers (fuel : nat) : Rec :=
  match fuel with
  | 0 => mkRec (fun _ => out_of_fuel) out_of_fuel out_of_fuel
  | S fuel =>
      let rec := parsers fuel in
      mkRec (parse_expression rec) (parse_statement rec) (parse_if_expression rec)
  end.

Definition parse_program (fuel : nat) : Parse Program :=
  _ ← skip_newlines;
  while_do (e ← is_at_end; mret (negb e)) (fun statements =>
    s ← parse_statement (parsers fuel);
    _ ← skip_newlines;
    mret (statements ++ [s])) [].

(** [Parser::new(tokens).parse()]: the recursion nests at most once per token. *)
Definition parse (tokens : list Token) : outcome MarretaError Program :=
  match parse_program (length tokens) (Parser_new tokens) with
  | Done (statements, _) => Done statements
  | Fails e => Fails e
  | Panics => Panics
  | NoFuel => NoFuel
  end.
