(* ===== verification/Formatter.v ===== *)
(** The formatter (src/src/formatter.rs): the depth of a line, the spacing
    inside it, blank lines, the guard on the tokens, and the formatting of a
    file.  Text is the list of its characters; a string is decoded and encoded
    where the source goes from one to the other. *)
From stdpp Require Import base list strings gmap.
From Stdlib Require Import ZArith Lia.
From S2P Require Import Prelude RustStr Token Errors Lexer Ast ParserState Parser ParserStatements.

Abbreviation Text := (list N).

(** * Text *)

(** [str::starts_with] and [==] with a literal of ASCII characters. *)
Definition text_starts (p : string) (l : Text) : bool :=
  bool_decide (firstn (length (bytes p)) l = bytes p).
Definition text_is (p : string) (l : Text) : bool := bool_decide (l = bytes p).

(** [str::lines]: a line ends with a newline, before which a carriage return
    is dropped. *)
Fixpoint str_lines (l : Text) : list Text :=
  match l with
  | [] => []
  | c :: l' =>
      let continued := match str_lines l' with
                       | [] => [[c]]
                       | w :: ws => (c :: w) :: ws
                       end in
      if (c =? 10)%N then [] :: str_lines l'
      else match l' with
           | d :: l'' => if (c =? 13)%N && (d =? 10)%N then [] :: str_lines l'' else continued
           | [] => continued
           end
  end.

Definition trim_end (l : Text) : Text := rev (drop_while is_whitespace (rev l)).

Definition is_indent_char (c : N) : bool := (c =? ch " ")%N || (c =? 9)%N.

(** [line.trim_start_matches([' ', '\t'])]. *)
Definition trim_indent (l : Text) : Text := drop_while is_indent_char l.

Fixpoint take_while (p : N -> bool) (l : Text) : Text :=
  match l with
  | [] => []
  | c :: l => if p c then c :: take_while p l else []
  end.

(** [[..].join("\n")]. *)
Fixpoint join_lines (l : list Text) : Text :=
  match l with
  | [] => []
  | [w] => w
  | w :: ws => w ++ 10%N :: join_lines ws
  end.

(** * The depth of a line *)

Definition leading_indent_width (line : Text) : nat :=
  sum_list_with (fun c => if (c =? 9)%N then 4 else 1) (take_while is_indent_char line).

(** The top of the stack is its last element. *)
Definition stack_top (stack : list nat) : nat := default 0 (last stack).

Definition rposition (n : nat) (stack : list nat) : option nat :=
  fst <$> find (fun ix => Nat.eqb (snd ix) n) (rev (imap (fun i x => (i, x)) stack)).

Definition depth_for_comment (raw_indent : nat) (stack : list nat) : nat :=
  match rposition raw_indent stack with
  | Some depth => depth
  | None => if stack_top stack <? raw_indent then length stack else length stack - 1
  end.

(** [while stack.len() > 1 && ..]: the length bounds the iterations. *)
Fixpoint pop_above (fuel : nat) (raw_indent : nat) (stack : list nat) : list nat :=
  match fuel with
  | O => stack
  | S fuel =>
      if (1 <? length stack) && (raw_indent <? stack_top stack)
      then pop_above fuel raw_indent (removelast stack) else stack
  end.

Definition depth_for_code (raw_indent : nat) (stack : list nat) : nat * list nat :=
  let current := stack_top stack in
  let stack := if current <? raw_indent then stack ++ [raw_indent]
               else if raw_indent <? current then pop_above (length stack) raw_indent stack
               else stack in
  (length stack - 1, stack).

(** * The spacing inside a line *)

Inductive Atom : Type :=
| Word (s : Text)
| AStr (s : Text)
| Comment (s : Text)
| Op (s : Text).

Section Scan.
(** [char::is_alphanumeric] on characters that are not ASCII: Unicode's
    tables. *)
Variable unicode_alphanumeric : N -> bool.

Definition is_alphanumeric (c : N) : bool :=
  if (c <? 128)%N then is_ascii_alphanumeric c else unicode_alphanumeric c.
Definition is_word_char (c : N) : bool := is_alphanumeric c || (c =? ch "_")%N.

(** A string literal after its opening quote, and what follows it. *)
Fixpoint string_rest (l : Text) : Text * Text :=
  match l with
  | [] => ([], [])
  | c :: l' =>
      if (c =? 92)%N then
        match l' with
        | [] => ([c], [])
        | d :: l'' => let '(s, rest) := string_rest l'' in (c :: d :: s, rest)
        end
      else if (c =? 34)%N then ([c], l')
      else let '(s, rest) := string_rest l' in (c :: s, rest)
  end.

Definition is_two_op (l : Text) : bool :=
  existsb (fun p => text_is p l) [">>"; "->"; "=>"; "=="; "!="; ">="; "<="].

Definition scan_op (l : Text) : Text :=
  if text_is "*>>" (firstn 3 l) then firstn 3 l
  else if is_two_op (firstn 2 l) then firstn 2 l
  else firstn 1 l.

(** An atom at the start of a text that does not start with a space, and what
    follows it. *)
Definition scan_atom (l : Text) : Atom * Text :=
  match l with
  | [] => (Op [], [])
  | c :: l' =>
      if (c =? 34)%N then let '(s, rest) := string_rest l' in (AStr (c :: s), rest)
      else if (c =? ch "#")%N then (Comment l, [])
      else if is_word_char c then (Word (take_while is_word_char l), drop_while is_word_char l)
      else let op := scan_op l in (Op op, skipn (length op) l)
  end.

(** [while i < n]: every iteration consumes a character. *)
Fixpoint scan_from (fuel : nat) (l : Text) : list Atom :=
  match fuel with
  | O => []
  | S fuel =>
      match l with
      | [] => []
      | c :: l' =>
          if is_indent_char c then scan_from fuel l'
          else let '(a, rest) := scan_atom l in a :: scan_from fuel rest
      end
  end.

Definition scan_atoms (line : Text) : list Atom := scan_from (length line) line.

Definition text_of (a : Atom) : Text :=
  match a with Word s | AStr s | Comment s | Op s => s end.

Definition op_str (a : Atom) : option Text := match a with Op s => Some s | _ => None end.

(** [op_str(a) == Some("..")]. *)
Definition op_is (p : string) (a : Atom) : bool :=
  match op_str a with Some s => text_is p s | None => false end.

Definition is_keyword_operator (word : Text) : bool :=
  existsb (fun p => text_is p word) ["and"; "or"; "not"; "in"].

Definition is_operand_end (a : Atom) : bool :=
  match a with
  | Word w => negb (is_keyword_operator w)
  | AStr _ => true
  | Op s => text_is ")" s || text_is "]" s || text_is "}" s
  | Comment _ => false
  end.

Definition is_binary_spaced_op (s : Text) (prev_is_operand : bool) : bool :=
  if existsb (fun p => text_is p s)
       ["="; "=="; "!="; ">="; "<="; "<"; ">"; "*"; "/"; "%"; ">>"; "*>>"; "->"; "=>"] then true
  else if text_is "+" s || text_is "-" s then prev_is_operand
  else false.

(** Whether a space goes between [prev] and [cur]; [before] is the atom in
    front of [prev], if there is one. *)
Definition separator (before : option Atom) (prev cur : Atom) : bool :=
  if op_is "." cur || op_is "." prev || op_is "?" cur || op_is "?" prev then false
  else if op_is "(" prev || op_is "[" prev || op_is ")" cur || op_is "]" cur then false
  else if op_is "," cur || op_is ":" cur then false
  else if op_is "," prev || op_is ":" prev then true
  else if op_is "{" prev && op_is "}" cur then false
  else if op_is "{" prev || op_is "}" cur then true
  else if op_is "(" cur || op_is "[" cur then negb (is_operand_end prev)
  else if match op_str cur with
          | Some cs => is_binary_spaced_op cs (is_operand_end prev)
          | None => false
          end then true
  else match op_str prev with
       | Some ps =>
           let prev_prev_operand :=
             match before with Some a => is_operand_end a | None => false end in
           if is_binary_spaced_op ps prev_prev_operand then true
           else negb ((text_is "+" ps || text_is "-" ps) && negb prev_prev_operand)
       | None => true
       end.

(** What the loop of [join_atoms] pushes for an atom; [out] is empty only
    before the first one. *)
Definition glue (before prev : option Atom) (cur : Atom) : Text :=
  match prev with
  | None => []
  | Some p =>
      match cur with
      | Comment _ => [ch " "; ch " "]
      | _ => if separator before p cur then [ch " "] else []
      end
  end.

Fixpoint join_from (before prev : option Atom) (atoms : list Atom) : Text :=
  match atoms with
  | [] => []
  | a :: atoms => glue before prev a ++ text_of a ++ join_from prev (Some a) atoms
  end.

Definition join_atoms (atoms : list Atom) : Text := join_from None None atoms.

Definition respace_line (line : Text) : Text := join_atoms (scan_atoms line).

(** * Lines *)

Record FormattedLine : Type := mkFormattedLine {
  fl_text : Text;
  fl_depth : nat;
  is_blank : bool;
  is_comment : bool;
  fl_declaration : bool;   (* is_top_level_declaration *)
}.

Definition FormattedLine_blank : FormattedLine := mkFormattedLine [] 0 true false false.

Definition is_top_level_declaration (stripped : Text) : bool :=
  existsb (fun p => text_starts p stripped)
    ["route "; "task "; "schema "; "auth "; "on queue "; "on topic "; "export task ";
     "export schema "].

Definition normalize_comment_spacing (comment : Text) : Text :=
  match comment with
  | hash :: ((next :: _) as rest) =>
      if negb (next =? ch " ")%N && negb (next =? ch "#")%N then hash :: ch " " :: rest
      else comment
  | _ => comment
  end.

Definition FormattedLine_new (depth : nat) (stripped : Text) : FormattedLine :=
  let is_comment := text_starts "#" stripped in
  let content := if is_comment then normalize_comment_spacing stripped
                 else respace_line stripped in
  mkFormattedLine (repeat (ch " ") (depth * 4) ++ content) depth false is_comment
    (Nat.eqb depth 0 && is_top_level_declaration stripped).

Definition format_line (raw_line : Text) (stack : list nat) : FormattedLine * list nat :=
  let line := trim_end raw_line in
  match trim_chars line with
  | [] => (FormattedLine_blank, stack)
  | _ =>
      let raw_indent := leading_indent_width line in
      let stripped := trim_indent line in
      if text_starts "#" stripped
      then (FormattedLine_new (depth_for_comment raw_indent stack) stripped, stack)
      else let '(depth, stack) := depth_for_code raw_indent stack in
           (FormattedLine_new depth stripped, stack)
  end.

Fixpoint format_lines (stack : list nat) (raw_lines : list Text) : list FormattedLine :=
  match raw_lines with
  | [] => []
  | raw_line :: raw_lines =>
      let '(line, stack) := format_line raw_line stack in line :: format_lines stack raw_lines
  end.

(** ** Blank lines *)

(** The first loop; [last_blank] says that nothing or a blank line was kept
    before. *)
Fixpoint collapse_blanks (last_blank : bool) (lines : list FormattedLine) : list FormattedLine :=
  match lines with
  | [] => []
  | line :: lines =>
      if is_blank line && last_blank then collapse_blanks last_blank lines
      else line :: collapse_blanks (is_blank line) lines
  end.

Definition normalize_blank_lines (lines : list FormattedLine) : list FormattedLine :=
  rev (drop_while is_blank (rev (collapse_blanks true lines))).

(** The lines in front of an index are passed in reverse, the last text that
    was pushed to [out] as [out_last]. *)
Definition previous_nonblank_line (before : list FormattedLine) : option FormattedLine :=
  find (fun line => negb (is_blank line)) before.

Fixpoint comment_group_leads_to_top_level_declaration (lines : list FormattedLine) : bool :=
  match lines with
  | [] => false
  | line :: lines =>
      if is_comment line then comment_group_leads_to_top_level_declaration lines
      else negb (is_blank line) && fl_declaration line
  end.

Definition should_insert_blank_before (before : list FormattedLine) (line : FormattedLine)
    (after : list FormattedLine) (out_last : option Text) : bool :=
  match out_last with
  | None | Some [] => false
  | Some _ =>
      if is_blank line then false
      else if negb (Nat.eqb (fl_depth line) 0) then false
      else if is_comment line then
        match previous_nonblank_line before with
        | None => false
        | Some previous =>
            if is_comment previous then false
            else comment_group_leads_to_top_level_declaration (line :: after)
        end
      else if fl_declaration line then
        negb match previous_nonblank_line before with
             | Some previous => is_comment previous
             | None => false
             end
      else false
  end.

Fixpoint apply_spacing_from (before : list FormattedLine) (out_last : option Text)
    (lines : list FormattedLine) : list Text :=
  match lines with
  | [] => []
  | line :: after =>
      (if should_insert_blank_before before line after out_last then [[]] else [])
      ++ fl_text line :: apply_spacing_from (line :: before) (Some (fl_text line)) after
  end.

Definition apply_top_level_spacing (lines : list FormattedLine) : list Text :=
  apply_spacing_from [] None lines.

Definition normalize_lines (raw_lines : list Text) : list Text :=
  apply_top_level_spacing (normalize_blank_lines (format_lines [0] raw_lines)).

Definition normalize_text (source : Text) : Text :=
  join_lines (normalize_lines (str_lines source)) ++ [10%N].

Definition normalize_source (source : string) : string := of_chars (normalize_text (chars source)).

(** * A source *)

Inductive FormatError : Type :=
| FParse (e : MarretaError)
| FIo (path : string) (source : string)
| MissingProjectRoot (path : string)
| MissingFileArgument
| InvalidPath (path : string)
| AstDivergence.

(** [impl Display for FormatError]. *)
Definition show_format_error (e : FormatError) : string :=
  match e with
  | FParse err => Display err
  | FIo path source => path +:+ ": " +:+ source
  | MissingProjectRoot path =>
      "no app.marreta found in " +:+ path
      +:+ "; run marreta fmt from a project root or pass explicit paths"
  | MissingFileArgument => "--stdin requires --file <path>"
  | InvalidPath path => "invalid format path: " +:+ path
  | AstDivergence => "internal formatter error: formatting changed the program's token stream"
  end.

Record FormatResult : Type := mkFormatResult { changed : bool; output : string }.

(** [map_err(FormatError::Parse)]. *)
Definition or_parse_error {A} (o : outcome MarretaError A) : outcome FormatError A :=
  match o with
  | Done a => Done a
  | Fails e => Fails (FParse e)
  | Panics => Panics
  | NoFuel => NoFuel
  end.

Definition parse_source (source : string) : outcome FormatError unit :=
  tokens ← or_parse_error (tokenize source);
  _ ← or_parse_error (parse tokens);
  Done tt.

Definition is_dedent (k : TokenKind) : bool := bool_decide (k = Dedent).

(** The index of the first of the dedents at the end. *)
Fixpoint dedents_from (kinds_rev : list TokenKind) : nat :=
  match kinds_rev with
  | [] => 0
  | k :: rest => if is_dedent k then dedents_from rest else length kinds_rev
  end.

Definition significant_tokens (source : string) : outcome FormatError (list TokenKind) :=
  tokens ← or_parse_error (tokenize source);
  let kinds := List.filter (fun k => negb (bool_decide (k = Eof))) (map kind tokens) in
  let end_ := dedents_from (rev kinds) in
  Done (match kinds !! (end_ - 1) with
        | Some Newline => if 0 <? end_ then firstn (end_ - 1) kinds ++ skipn end_ kinds else kinds
        | _ => kinds
        end).

(** A literal is never NaN: comparing kinds is comparing values. *)
Definition format_source (source : string) : outcome FormatError FormatResult :=
  _ ← parse_source source;
  before ← significant_tokens source;
  let formatted := normalize_source source in
  _ ← parse_source formatted;
  after ← significant_tokens formatted;
  if bool_decide (before = after)
  then Done (mkFormatResult (negb (String.eqb formatted source)) formatted)
  else Fails AstDivergence.
End Scan.

(** * A file *)

(** What [fs::read_to_string] and [fs::write] answer for a path. *)
Class FormatDisk : Type := {
  read_file_error : string -> option string;
  write_file_error : string -> option string;
}.

Section File.
Context `{FormatDisk}.
Variable unicode_alphanumeric : N -> bool.

(** The files are those that are UTF-8; reading another path fails with the
    text of the error. *)
Definition format_file (path : string) (check : bool) (disk : gmap string string)
  : outcome FormatError bool * gmap string string :=
  match read_file_error path, disk !! path with
  | Some err, _ => (Fails (FIo path err), disk)
  | None, None => (Fails (FIo path "No such file or directory (os error 2)"), disk)
  | None, Some source =>
      match format_source unicode_alphanumeric source with
      | Done result =>
          if changed result && negb check then
            match write_file_error path with
            | Some err => (Fails (FIo path err), disk)
            | None => (Done (changed result), <[path := output result]> disk)
            end
          else (Done (changed result), disk)
      | Fails e => (Fails e, disk)
      | Panics => (Panics, disk)
      | NoFuel => (NoFuel, disk)
      end
  end.
End File.
