(* ===== verification/FormatterFacts.v ===== *)
(** The formatter settles (Formatter.v): a line that was respaced is respaced
    to itself, the depths of formatted lines are read back from their
    indentation, and formatting a formatted source a second time changes
    nothing any more. *)
From stdpp Require Import base list strings gmap.
From Stdlib Require Import ZArith Lia.
From S2P Require Import Prelude RustStr Token Errors Lexer Ast ParserState Parser ParserStatements Formatter.

Lemma text_is_spec p l : text_is p l = true <-> l = bytes p.
Proof. unfold text_is. by rewrite bool_decide_eq_true. Qed.

(** * Depths *)

(** The stack of formatted code: every level is four columns deeper. *)
Definition canon (n : nat) : list nat := map (fun i => 4 * i) (seq 0 n).

Lemma canon_snoc n : canon (S n) = canon n ++ [4 * n].
Proof. unfold canon. rewrite seq_S, map_app. done. Qed.

Lemma canon_length n : length (canon n) = n.
Proof. unfold canon. by rewrite length_map, length_seq. Qed.

Lemma stack_top_snoc st x : stack_top (st ++ [x]) = x.
Proof. unfold stack_top. by rewrite last_snoc. Qed.

Lemma stack_top_canon n : stack_top (canon (S n)) = 4 * n.
Proof. by rewrite canon_snoc, stack_top_snoc. Qed.

Lemma rposition_snoc x st y :
  rposition x (st ++ [y]) = if Nat.eqb y x then Some (length st) else rposition x st.
Proof.
  unfold rposition. rewrite imap_app, rev_app_distr. cbn [imap rev app find].
  cbn. rewrite Nat.add_0_r. by destruct (Nat.eqb y x).
Qed.

Lemma rposition_lt x st i : rposition x st = Some i -> i < length st.
Proof.
  revert i. induction st as [|y st IH] using rev_ind; intros i; [done |].
  rewrite rposition_snoc, length_app. cbn. destruct (Nat.eqb y x); [intros [= <-]; lia |].
  intros ?%IH. lia.
Qed.

Lemma rposition_canon d n : rposition (4 * d) (canon n) = if d <? n then Some d else None.
Proof.
  induction n as [|n IH]; [done |]. rewrite canon_snoc, rposition_snoc, canon_length, IH.
  destruct (Nat.eqb_spec (4 * n) (4 * d)), (Nat.ltb_spec d n), (Nat.ltb_spec d (S n)); try lia; try done.
  f_equal. lia.
Qed.

Lemma depth_for_comment_le raw st : depth_for_comment raw st <= length st.
Proof.
  unfold depth_for_comment. destruct (rposition raw st) eqn:H; [apply rposition_lt in H; lia |].
  destruct (_ <? _); lia.
Qed.

Lemma depth_for_comment_canon d n :
  1 <= n -> d <= n -> depth_for_comment (4 * d) (canon n) = d.
Proof.
  intros Hn Hd. unfold depth_for_comment. rewrite rposition_canon.
  destruct (Nat.ltb_spec d n); [done |]. destruct n as [|n]; [lia |].
  rewrite canon_length, stack_top_canon.
  destruct (Nat.ltb_spec (4 * n) (4 * d)); lia.
Qed.

Lemma pop_above_length fuel raw st :
  1 <= length st -> 1 <= length (pop_above fuel raw st) <= length st.
Proof.
  revert st. induction fuel as [|fuel IH]; intros st Hst; cbn [pop_above]; [lia |].
  destruct (Nat.ltb_spec 1 (length st)); cbn [andb]; [| lia].
  destruct (raw <? stack_top st); [| lia].
  assert (Hr : length (removelast st) = length st - 1).
  { destruct st as [|x st' _] using rev_ind; [done |]. rewrite removelast_last, length_app. cbn. lia. }
  specialize (IH (removelast st)). lia.
Qed.

Lemma pop_above_canon fuel d m :
  d <= m -> m - d <= fuel -> pop_above fuel (4 * d) (canon (S m)) = canon (S d).
Proof.
  revert m. induction fuel as [|fuel IH]; intros m Hd Hf; cbn [pop_above].
  { by replace m with d by lia. }
  rewrite canon_length, stack_top_canon.
  destruct (Nat.ltb_spec (4 * d) (4 * m)); rewrite ?andb_false_r.
  - destruct m as [|m]; [lia |]. cbn [Nat.ltb Nat.leb andb]. rewrite canon_snoc, removelast_last.
    apply IH; lia.
  - by replace m with d by lia.
Qed.

Lemma depth_for_code_spec raw st :
  1 <= length st ->
  exists d st', depth_for_code raw st = (d, st') /\ length st' = S d /\ d <= length st.
Proof.
  intros Hst. unfold depth_for_code. destruct (stack_top st <? raw).
  - eexists _, _. split; [done |]. rewrite length_app. cbn. lia.
  - destruct (raw <? stack_top st).
    + pose proof (pop_above_length (length st) raw st Hst). eexists _, _. split; [done |]. lia.
    + eexists _, _. split; [done |]. lia.
Qed.

Lemma depth_for_code_canon d n :
  1 <= n -> d <= n -> depth_for_code (4 * d) (canon n) = (d, canon (S d)).
Proof.
  intros Hn Hd. destruct n as [|n]; [lia |]. unfold depth_for_code. rewrite stack_top_canon.
  destruct (Nat.ltb_spec (4 * n) (4 * d)).
  - replace d with (S n) by lia. rewrite (canon_snoc (S n)), length_app, canon_length. cbn [length].
    f_equal; lia.
  - destruct (Nat.ltb_spec (4 * d) (4 * n)).
    + rewrite canon_length, pop_above_canon by lia. rewrite canon_length. f_equal; lia.
    + replace d with n by lia. rewrite canon_length. f_equal; lia.
Qed.

Section Atoms.
Variable unicode_alphanumeric : N -> bool.
Abbreviation is_word_char := (is_word_char unicode_alphanumeric).
Abbreviation scan_atom := (scan_atom unicode_alphanumeric).
Abbreviation scan_from := (scan_from unicode_alphanumeric).
Abbreviation scan_atoms := (scan_atoms unicode_alphanumeric).
Abbreviation respace_line := (respace_line unicode_alphanumeric).

(** * Atoms *)

(** The characters an operator begins with. *)
Definition op_char (c : N) : bool :=
  negb (is_indent_char c) && negb (c =? 34)%N && negb (c =? ch "#")%N && negb (is_word_char c).

Lemma word_char_special c :
  is_word_char c = true ->
  is_indent_char c = false /\ (c =? 34)%N = false /\ (c =? ch "#")%N = false
  /\ (c =? 61)%N = false /\ (c =? 62)%N = false.
Proof.
  intros Hw. assert (Hne : forall d, (d <? 128)%N = true -> is_word_char d = false -> (c =? d)%N = false).
  { intros d _ Hd. apply N.eqb_neq. intros ->. congruence. }
  unfold is_indent_char. rewrite !orb_false_iff. by split_and!; apply Hne.
Qed.

(** The string literal ends inside the text. *)
Definition closed (body : Text) : Prop := forall rest, string_rest (body ++ rest) = (body, rest).

Definition atom_ok (a : Atom) : Prop :=
  match a with
  | Word s => s <> [] /\ Forall (fun c => is_word_char c = true) s
  | AStr s => exists body, s = 34%N :: body /\ string_rest body = (body, [])
  | Comment s => exists body, s = ch "#" :: body
  | Op s => (s = bytes "*>>" \/ is_two_op s = true \/ exists c, s = [c])
            /\ exists c s', s = c :: s' /\ op_char c = true
  end.

(** An atom that something can follow. *)
Definition complete (a : Atom) : Prop :=
  match a with
  | Word _ | Op _ => True
  | AStr s => closed (tail s)
  | Comment _ => False
  end.

Inductive atoms_ok : list Atom -> Prop :=
| atoms_nil : atoms_ok []
| atoms_last a : atom_ok a -> atoms_ok [a]
| atoms_cons a l : atom_ok a -> complete a -> atoms_ok l -> atoms_ok (a :: l).

(** What may come after an atom for it to be scanned again. *)
Definition follows (a : Atom) (rest : Text) : Prop :=
  match a with
  | Word _ => match rest with [] => True | d :: _ => is_word_char d = false end
  | AStr s => closed (tail s) \/ rest = []
  | Comment _ => rest = []
  | Op s => scan_op (s ++ rest) = s
  end.

Lemma take_while_app p w rest :
  Forall (fun c => p c = true) w -> match rest with [] => True | d :: _ => p d = false end ->
  take_while p (w ++ rest) = w /\ drop_while p (w ++ rest) = rest.
Proof.
  intros Hw Hrest. induction Hw as [|c w Hc Hw IH]; cbn.
  - destruct rest as [|d rest]; [done |]. cbn. by rewrite Hrest.
  - rewrite Hc. destruct IH as [-> ->]. done.
Qed.

Lemma take_drop_while (p : N -> bool) l :
  l = take_while p l ++ drop_while p l
  /\ Forall (fun c => p c = true) (take_while p l)
  /\ match drop_while p l with [] => True | d :: _ => p d = false end.
Proof.
  induction l as [|c l (IH1 & IH2 & IH3)]; cbn; [done |].
  destruct (p c) eqn:Hc; [| by cbn]. cbn. split_and!; [congruence | by constructor | done].
Qed.

Lemma scan_atom_again a rest :
  atom_ok a -> follows a rest -> scan_atom (text_of a ++ rest) = (a, rest).
Proof.
  destruct a as [s|s|s|s]; cbn [atom_ok follows text_of].
  - intros [Hne Hs] Hrest. destruct (take_while_app _ s rest Hs Hrest) as [Ht Hd].
    destruct s as [|c s]; [done |]. inversion Hs as [|? ? Hc _]; subst.
    destruct (word_char_special c Hc) as (_ & H34 & Hhash & _).
    cbn [app] in *. cbn [Formatter.scan_atom]. by rewrite H34, Hhash, Hc, Ht, Hd.
  - intros (body & -> & Hbody) Hrest. cbn [app Formatter.scan_atom N.eqb Pos.eqb tail] in *.
    destruct Hrest as [Hrest | ->]; [by rewrite Hrest |]. by rewrite app_nil_r, Hbody.
  - intros (body & ->) ->. rewrite app_nil_r. reflexivity.
  - intros [_ (c & s' & -> & Hc)] Hrest. unfold op_char in Hc.
    apply andb_true_iff in Hc as [[[_ H34]%andb_true_iff Hhash]%andb_true_iff Hw].
    apply negb_true_iff in H34, Hhash, Hw.
    cbn [app Formatter.scan_atom]. rewrite H34, Hhash, Hw.
    change (c :: s' ++ rest) with ((c :: s') ++ rest). rewrite Hrest. f_equal.
    by rewrite drop_app_length.
Qed.

Lemma string_rest_spec n l body rest :
  length l <= n -> string_rest l = (body, rest) ->
  l = body ++ rest /\ (closed body \/ rest = []) /\ string_rest body = (body, []).
Proof.
  revert l body rest. induction n as [|n IH]; intros [|c l] body rest Hn; cbn in Hn; try lia;
    cbn [string_rest]; try (intros [= <- <-]; by split_and!; [| right |]).
  destruct (c =? 92)%N eqn:Hc.
  - destruct l as [|d l]; [intros [= <- <-]; split_and!; [done | by right |]; cbn; by rewrite Hc |].
    destruct (string_rest l) as [s rest'] eqn:Hs. intros [= <- <-]. cbn in Hn.
    apply IH in Hs as (-> & Hcl & Hb); [| lia]. split_and!; [done | |].
    + destruct Hcl as [Hcl | ->]; [left | by right]. intros r. cbn. by rewrite Hc, Hcl.
    + cbn. by rewrite Hc, Hb.
  - destruct (c =? 34)%N eqn:Hq.
    + intros [= <- <-]. split_and!; [done | left; intros r; cbn; by rewrite Hc, Hq |].
      cbn. by rewrite Hc, Hq.
    + destruct (string_rest l) as [s rest'] eqn:Hs. intros [= <- <-].
      apply IH in Hs as (-> & Hcl & Hb); [| lia]. split_and!; [done | |].
      * destruct Hcl as [Hcl | ->]; [left | by right]. intros r. cbn. by rewrite Hc, Hq, Hcl.
      * cbn. by rewrite Hc, Hq, Hb.
Qed.

Lemma skipn_firstn_length {A} n (l : list A) : skipn (length (firstn n l)) l = skipn n l.
Proof. revert l. induction n as [|n IH]; intros [|x l]; cbn; [done.. |]. apply IH. Qed.

Lemma scan_op_shape c l :
  exists n, scan_op (c :: l) = firstn (S n) (c :: l)
  /\ (scan_op (c :: l) = bytes "*>>" \/ is_two_op (scan_op (c :: l)) = true
      \/ exists d, scan_op (c :: l) = [d]).
Proof.
  unfold scan_op. destruct (text_is "*>>" (firstn 3 (c :: l))) eqn:H3.
  - exists 2. split; [done |]. left. by apply text_is_spec.
  - destruct (is_two_op (firstn 2 (c :: l))) eqn:H2; [exists 1; by split; [| right; left] |].
    exists 0. split; [done |]. right. right. by exists c.
Qed.

(** One step of the scan: the atom is a prefix and can be read again. *)
Lemma scan_atom_spec c l a rest :
  is_indent_char c = false -> scan_atom (c :: l) = (a, rest) ->
  c :: l = text_of a ++ rest /\ atom_ok a /\ (complete a \/ rest = [])
  /\ exists s, text_of a = c :: s.
Proof.
  intros Hc. cbn [Formatter.scan_atom]. destruct (c =? 34)%N eqn:H34.
  - destruct (string_rest l) as [s r] eqn:Hs. intros [= <- <-].
    apply (string_rest_spec (length l)) in Hs as (-> & Hcl & Hb); [| done].
    apply N.eqb_eq in H34 as ->. cbn. split_and!; [done | by exists s | done | by eexists].
  - destruct (c =? ch "#")%N eqn:Hhash.
    + intros [= <- <-]. apply N.eqb_eq in Hhash as ->. cbn [text_of].
      split_and!; [by rewrite app_nil_r | by exists l | by right | by eexists].
    + destruct (is_word_char c) eqn:Hw.
      * intros [= <- <-]. destruct (take_drop_while is_word_char (c :: l)) as (H1 & H2 & _).
        cbn [text_of atom_ok complete]. split_and!; [done | | done | by left |].
        -- cbn. by rewrite Hw.
        -- cbn. rewrite Hw. by eexists.
      * destruct (scan_op_shape c l) as (n & Hn & Hshape). intros [= <- <-].
        rewrite Hn in *. cbn [firstn] in *. cbn [text_of]. split_and!.
        -- cbn. f_equal. by rewrite skipn_firstn_length, firstn_skipn.
        -- split; [exact Hshape |]. eexists _, _. split; [done |]. unfold op_char.
           by rewrite Hc, H34, Hhash, Hw.
        -- by left.
        -- by eexists.
Qed.

Lemma scan_from_ok fuel l : length l <= fuel -> atoms_ok (scan_from fuel l).
Proof.
  revert l. induction fuel as [|fuel IH]; intros [|c l] Hl; cbn in Hl; try lia; cbn [Formatter.scan_from];
    try constructor.
  destruct (is_indent_char c) eqn:Hc; [apply IH; lia |].
  destruct (scan_atom (c :: l)) as [a rest] eqn:Ha.
  apply scan_atom_spec in Ha as (Heq & Hok & Hcomp & s & Hs); [| done].
  rewrite Hs in Heq. injection Heq as ->. rewrite length_app in Hl.
  destruct Hcomp as [Hcomp | ->].
  - constructor; [done | done |]. apply IH. lia.
  - destruct fuel; by constructor.
Qed.

(** ** Separation *)

Lemma is_two_op_spec l :
  is_two_op l = true <->
  l ∈ [bytes ">>"; bytes "->"; bytes "=>"; bytes "=="; bytes "!="; bytes ">="; bytes "<="].
Proof.
  unfold is_two_op. rewrite existsb_exists. split.
  - intros (p & Hp & Hl%text_is_spec). rewrite Hl.
    change [bytes ">>"; bytes "->"; bytes "=>"; bytes "=="; bytes "!="; bytes ">="; bytes "<="]
      with (map bytes [">>"; "->"; "=>"; "=="; "!="; ">="; "<="]).
    apply list_elem_of_fmap_2. by apply list_elem_of_In.
  - intros H. change [bytes ">>"; bytes "->"; bytes "=>"; bytes "=="; bytes "!="; bytes ">="; bytes "<="]
      with (map bytes [">>"; "->"; "=>"; "=="; "!="; ">="; "<="]) in H.
    apply list_elem_of_fmap in H as (p & -> & Hp). exists p.
    split; [by apply list_elem_of_In | by apply text_is_spec].
Qed.

(** The operators that begin with the second character of a longer one. *)
Definition tail_ops : list Text :=
  [bytes ">"; bytes ">>"; bytes ">="; bytes "="; bytes "=="; bytes "=>"].

Lemma op_tail s d s' :
  atom_ok (Op s) -> s = d :: s' -> d = 61%N \/ d = 62%N -> s ∈ tail_ops.
Proof.
  intros [Hshape _] -> Hd. unfold tail_ops.
  destruct Hshape as [[= -> ->] | [Htwo%is_two_op_spec | (c & [= -> ->])]].
  - destruct Hd; discriminate.
  - repeat (apply elem_of_cons in Htwo as [Htwo | Htwo];
      [injection Htwo as -> ->; destruct Hd as [Hd | Hd]; try discriminate Hd; cbn; set_solver |]).
    by apply not_elem_of_nil in Htwo.
  - destruct Hd as [-> | ->]; cbn; set_solver.
Qed.

Lemma separator_tail before p s :
  s ∈ tail_ops -> separator before p (Op s) = false ->
  op_is "." p = true \/ op_is "?" p = true \/ op_is "(" p = true \/ op_is "[" p = true.
Proof.
  intros Hs. unfold separator.
  destruct (op_is "." p); [by left |]. destruct (op_is "?" p); [by auto |].
  destruct (op_is "(" p); [by auto |]. destruct (op_is "[" p); [by auto |].
  unfold tail_ops in Hs.
  repeat (apply elem_of_cons in Hs as [-> | Hs];
    [cbn; destruct (op_is "," p || op_is ":" p), (op_is "{" p); discriminate |]).
  by apply not_elem_of_nil in Hs.
Qed.

Lemma separator_word before s b : separator before (Word s) b = false -> exists s', b = Op s'.
Proof. destruct b; [done.. | by eexists]. Qed.

Lemma separator_str before s b : separator before (AStr s) b = false -> exists s', b = Op s'.
Proof. destruct b; [done.. | by eexists]. Qed.

(** An operator is read back when what follows cannot extend it. *)
Lemma scan_op_again s rest :
  atom_ok (Op s) ->
  match rest with
  | d :: _ => d <> 61%N /\ d <> 62%N \/ forall c, s = [c] -> c ∈ bytes ".?(["
  | [] => True
  end -> scan_op (s ++ rest) = s.
Proof.
  intros [Hshape _] Hrest. destruct Hshape as [-> | [Htwo%is_two_op_spec | (c & ->)]].
  - reflexivity.
  - repeat (apply elem_of_cons in Htwo as [-> | Htwo]; [destruct rest as [|? [|? ?]]; reflexivity |]).
    by apply not_elem_of_nil in Htwo.
  - cbn [app]. unfold scan_op.
    assert (H3 : text_is "*>>" (firstn 3 (c :: rest)) = false).
    { apply not_true_iff_false. rewrite text_is_spec. destruct rest as [|d [|e rest]]; [done.. |].
      cbn. intros [= -> -> ->]. destruct Hrest as [[_ H] | H]; [done |].
      specialize (H _ eq_refl). cbn in H. set_solver. }
    assert (H2 : is_two_op (firstn 2 (c :: rest)) = false).
    { apply not_true_iff_false. rewrite is_two_op_spec. destruct rest as [|d rest]; cbn; [set_solver |].
      intros H.
      repeat (apply elem_of_cons in H as [[= -> ->] | H];
        [destruct Hrest as [[? ?] | Hrest]; [done | specialize (Hrest _ eq_refl); cbn in Hrest; set_solver] |]).
      by apply not_elem_of_nil in H. }
    by rewrite H3, H2.
Qed.

(** ** Joined atoms are scanned again *)

Lemma atom_text_head a :
  atom_ok a -> exists d s, text_of a = d :: s /\ is_indent_char d = false
  /\ match a with
     | Word _ => is_word_char d = true
     | AStr _ => d = 34%N
     | Comment _ => d = ch "#"
     | Op _ => op_char d = true
     end.
Proof.
  destruct a as [s|s|s|s]; cbn [atom_ok text_of].
  - intros [Hne Hs]. destruct Hs as [|d s Hd Hs]; [done |]. exists d, s.
    split_and!; [done | by apply word_char_special | done].
  - intros (body & -> & _). by eexists _, _.
  - intros (body & ->). by eexists _, _.
  - intros [_ (d & s' & -> & Hd)]. exists d, s'. split_and!; [done | | done].
    unfold op_char in Hd. rewrite !andb_true_iff, negb_true_iff in Hd. tauto.
Qed.

Lemma op_is_char p c s : op_is p (Op s) = true -> bytes p = [c] -> s = [c].
Proof. unfold op_is. cbn. intros ->%text_is_spec. done. Qed.

Lemma glue_cases before a b :
  (exists spaces, glue before (Some a) b = ch " " :: spaces)
  \/ (glue before (Some a) b = [] /\ separator before a b = false).
Proof.
  cbn [glue]. destruct (separator before a b) eqn:Hs, b; eauto.
Qed.

Lemma op_follows before s b rest :
  atom_ok (Op s) -> atom_ok b -> separator before (Op s) b = false ->
  scan_op (s ++ text_of b ++ rest) = s.
Proof.
  intros Hs Hb Hsep. apply scan_op_again; [done |].
  destruct (atom_text_head b Hb) as (d & t & Ht & Hindent & Hd). rewrite Ht. cbn [app].
  destruct (decide (d = 61%N \/ d = 62%N)) as [Hd' | Hno]; [right | left; tauto].
  assert (exists s', b = Op s') as [s' ->].
  { destruct b; [| destruct Hd'; congruence | destruct Hd' as [-> | ->]; discriminate Hd | by eexists].
    apply word_char_special in Hd as (_ & _ & _ & H1%N.eqb_neq & H2%N.eqb_neq). tauto. }
  cbn in Ht. pose proof (op_tail _ _ _ Hb Ht Hd') as Htail.
  intros c ->.
  destruct (separator_tail _ _ _ Htail Hsep) as [H | [H | [H | H]]];
    apply text_is_spec in H; injection H as ->; cbn; repeat constructor.
Qed.

Lemma join_follows before a l : atoms_ok (a :: l) -> follows a (join_from before (Some a) l).
Proof.
  intros Hok. inversion Hok as [|a' Ha|a' l' Ha Hcomp Hl]; subst.
  { destruct a; cbn; try done; [by right |]. by apply scan_op_again. }
  destruct l as [|b l].
  { destruct a; cbn; try done; [by right |]. by apply scan_op_again. }
  assert (Hb : atom_ok b) by (by inversion Hl).
  cbn [join_from]. destruct (glue_cases before a b) as [[spaces ->] | [-> Hsep]].
  - destruct a; cbn [follows complete app] in *; [done | by left | done |].
    apply scan_op_again; [done |]. left. split; discriminate.
  - cbn [app]. destruct a; cbn [follows complete] in *; [| by left | done | by apply (op_follows before)].
    apply separator_word in Hsep as [s' ->].
    destruct (atom_text_head _ Hb) as (d & t & -> & _ & Hd). cbn.
    unfold op_char in Hd. rewrite !andb_true_iff, !negb_true_iff in Hd. tauto.
Qed.

Lemma scan_glue fuel before prev a l :
  length (glue before prev a ++ l) <= fuel ->
  exists fuel', length l <= fuel' /\ scan_from fuel (glue before prev a ++ l) = scan_from fuel' l.
Proof.
  unfold glue. destruct prev as [p|]; [| by exists fuel].
  destruct a; try (destruct (separator _ _ _); [| by exists fuel]);
    cbn [app length]; intros Hl; (destruct fuel as [|fuel]; [lia |]); cbn [Formatter.scan_from];
    try (exists fuel; split; [lia | reflexivity]).
  destruct fuel as [|fuel]; [lia |]. exists fuel. split; [lia | reflexivity].
Qed.

Lemma scan_join fuel before prev l :
  atoms_ok l -> length (join_from before prev l) <= fuel ->
  scan_from fuel (join_from before prev l) = l.
Proof.
  revert fuel before prev. induction l as [|a l IH]; intros fuel before prev Hok Hlen;
    [by destruct fuel |].
  cbn [join_from] in *. destruct (scan_glue fuel before prev a _ Hlen) as (f & Hf & ->).
  assert (Ha : atom_ok a) by (by inversion Hok).
  assert (Hl : atoms_ok l) by (inversion Hok; [constructor | done]).
  pose proof (scan_atom_again a _ Ha (join_follows prev a l Hok)) as Hscan.
  destruct (atom_text_head a Ha) as (d & t & Ht & Hd & _). rewrite Ht in *. cbn [app] in *.
  destruct f as [|f]; [cbn in Hf; lia |]. cbn [Formatter.scan_from]. rewrite Hd, Hscan. f_equal.
  apply IH; [done |]. cbn in Hf. rewrite length_app in Hf. lia.
Qed.

(** A line that was respaced is respaced to itself. *)
Lemma respace_respace l : respace_line (respace_line l) = respace_line l.
Proof.
  assert (H : scan_atoms (respace_line l) = scan_atoms l).
  { apply scan_join; [by apply scan_from_ok | done]. }
  unfold Formatter.respace_line at 1. by rewrite H.
Qed.

(** ** The ends of a respaced line *)

Lemma join_last fuel l before prev c :
  length l <= fuel -> last l = Some c -> is_indent_char c = false ->
  last (join_from before prev (scan_from fuel l)) = Some c.
Proof.
  revert l before prev. induction fuel as [|fuel IH]; intros [|d l] before prev Hl Hlast Hc;
    cbn in Hl; try lia; [done.. |]. cbn [Formatter.scan_from].
  destruct (is_indent_char d) eqn:Hd.
  - apply IH; [lia | | done]. destruct l; [cbn in Hlast; congruence | done].
  - destruct (scan_atom (d :: l)) as [a rest] eqn:Ha.
    apply scan_atom_spec in Ha as (Heq & _ & _ & s & Hs); [| done].
    cbn [join_from]. rewrite Hs in *. injection Heq as ->. rewrite !last_app.
    rewrite length_app in Hl.
    destruct rest as [|e rest].
    + rewrite app_nil_r in Hlast. replace (scan_from fuel []) with (@nil Atom) by (by destruct fuel).
      cbn [join_from last]. by rewrite Hlast.
    + rewrite (IH (e :: rest)); [done | lia | | done].
      change (d :: s ++ e :: rest) with ((d :: s) ++ e :: rest) in Hlast.
      rewrite last_app in Hlast. destruct (last (e :: rest)) eqn:Hrest; [done |].
      apply last_None in Hrest. done.
Qed.

Lemma respace_last l c :
  last l = Some c -> is_indent_char c = false -> last (respace_line l) = Some c.
Proof. intros. by apply join_last. Qed.

Lemma respace_head c l : is_indent_char c = false -> exists l', respace_line (c :: l) = c :: l'.
Proof.
  intros Hc. unfold Formatter.respace_line, Formatter.scan_atoms. cbn [length Formatter.scan_from].
  rewrite Hc. destruct (scan_atom (c :: l)) as [a rest] eqn:Ha.
  apply scan_atom_spec in Ha as (_ & _ & _ & s & Hs); [| done].
  unfold join_atoms. cbn [join_from glue]. rewrite Hs. by eexists.
Qed.

(** Respacing adds spaces only. *)
Lemma join_incl fuel l before prev x :
  x ∈ join_from before prev (scan_from fuel l) -> x ∈ l \/ x = ch " ".
Proof.
  revert l before prev. induction fuel as [|fuel IH]; intros [|d l] before prev;
    cbn [Formatter.scan_from join_from]; try (by intros ?%not_elem_of_nil).
  destruct (is_indent_char d) eqn:Hd.
  - intros [?|?]%IH; [left; by right | by right].
  - destruct (scan_atom (d :: l)) as [a rest] eqn:Ha.
    apply scan_atom_spec in Ha as (Heq & _ & _ & _); [| done]. rewrite Heq. cbn [join_from].
    intros [Hg | [Ht | [Hr | Hr]%IH]%elem_of_app]%elem_of_app.
    + right. unfold glue in Hg. destruct prev; [| by apply not_elem_of_nil in Hg].
      destruct a; try destruct (separator _ _ _); set_solver.
    + left. set_solver.
    + left. set_solver.
    + by right.
Qed.

(** * Lines *)

(** What is left of a line without its indentation and the spaces at its end. *)
Definition good (s : Text) : Prop :=
  (exists c l, s = c :: l /\ is_indent_char c = false)
  /\ (exists c, last s = Some c /\ is_whitespace c = false)
  /\ Forall (fun c => c <> 10%N) s.

Definition content (stripped : Text) : Text :=
  if text_starts "#" stripped then normalize_comment_spacing stripped
  else respace_line stripped.

Abbreviation FormattedLine_new := (FormattedLine_new unicode_alphanumeric).

Lemma FormattedLine_new_eq depth s :
  FormattedLine_new depth s
  = mkFormattedLine (repeat (ch " ") (depth * 4) ++ content s) depth false (text_starts "#" s)
      (Nat.eqb depth 0 && is_top_level_declaration s).
Proof. reflexivity. Qed.

Lemma starts_hash_cons c l : text_starts "#" (c :: l) = (c =? ch "#")%N.
Proof.
  unfold text_starts. change (bytes "#") with [35%N]. change (ch "#") with 35%N.
  cbn [length firstn]. destruct (N.eqb_spec c 35) as [->|H]; [done |].
  apply bool_decide_eq_false. intros [= ->]. done.
Qed.

Lemma whitespace_not_indent c : is_whitespace c = false -> is_indent_char c = false.
Proof.
  intros H. unfold is_indent_char. apply orb_false_iff.
  split; apply N.eqb_neq; intros ->; discriminate H.
Qed.

Lemma comment_spacing_spec l :
  normalize_comment_spacing (ch "#" :: l) = ch "#" :: l
  \/ (exists d l', l = d :: l' /\ normalize_comment_spacing (ch "#" :: l) = ch "#" :: ch " " :: l).
Proof. destruct l as [|d l]; [by left |]. cbn. destruct (_ && _); [right; eauto | by left]. Qed.

Lemma content_comment s :
  good s -> text_starts "#" s = true ->
  good (content s) /\ content (content s) = content s /\ text_starts "#" (content s) = true.
Proof.
  intros ((c & l & -> & Hc) & (e & He & Hws) & Hnl) Hstart.
  rewrite starts_hash_cons in Hstart. apply N.eqb_eq in Hstart as ->.
  unfold content. change (text_starts "#" (ch "#" :: l)) with true. cbv iota.
  destruct (comment_spacing_spec l) as [Heq | (d & l' & -> & Heq)].
  - rewrite Heq. change (text_starts "#" (ch "#" :: l)) with true. cbv iota.
    unfold good. split_and!; [by eexists _, _ | by exists e | done | done | done].
  - rewrite Heq. change (text_starts "#" (ch "#" :: ch " " :: d :: l')) with true. cbv iota.
    unfold good. split_and!; [by eexists _, _ | exists e; by split | | done | done].
    inversion Hnl as [|? ? H1 H2]; subst. constructor; [done |]. by constructor.
Qed.

Lemma content_code s :
  good s -> text_starts "#" s = false ->
  good (content s) /\ content (content s) = content s /\ text_starts "#" (content s) = false.
Proof.
  intros ((c & l & -> & Hc) & (e & He & Hws) & Hnl) Hstart.
  unfold content. rewrite Hstart. rewrite starts_hash_cons in Hstart.
  assert (Hstart' : text_starts "#" (respace_line (c :: l)) = false).
  { destruct (respace_head c l Hc) as [l' ->]. by rewrite starts_hash_cons. }
  rewrite Hstart'. unfold good. split_and!; [| | | by rewrite respace_respace | done].
  - destruct (respace_head c l Hc) as [l' ->]. by eexists _, _.
  - exists e. split; [| done]. apply respace_last; [done |]. by apply whitespace_not_indent.
  - apply Forall_forall. intros x [Hx | ->]%join_incl; [| done].
    rewrite Forall_forall in Hnl. by apply Hnl.
Qed.

Lemma content_good s :
  good s -> good (content s) /\ content (content s) = content s
  /\ text_starts "#" (content s) = text_starts "#" s.
Proof.
  intros H. destruct (text_starts "#" s) eqn:Hs; [by apply content_comment | by apply content_code].
Qed.

(** ** A line is read from its text *)

Lemma trim_end_last l c : last l = Some c -> is_whitespace c = false -> trim_end l = l.
Proof.
  intros (l' & ->)%last_Some Hc. unfold trim_end. rewrite rev_app_distr. cbn. rewrite Hc. cbn.
  by rewrite rev_involutive.
Qed.

Lemma drop_while_nil_Forall (p : N -> bool) l :
  drop_while p l = [] <-> Forall (fun c => p c = true) l.
Proof.
  induction l as [|c l IH]; cbn; [done |]. rewrite Forall_cons, <- IH.
  destruct (p c); [tauto | split; [done | by intros [? _]]].
Qed.

Lemma trim_chars_nil l : trim_chars l = [] <-> Forall (fun c => is_whitespace c = true) l.
Proof.
  unfold trim_chars. split.
  - intros H. apply (f_equal (@rev N)) in H. rewrite rev_involutive in H.
    apply drop_while_nil_Forall in H. destruct (take_drop_while is_whitespace l) as (Hl & H1 & H2).
    rewrite Hl. apply Forall_app. split; [done |]. rewrite Forall_forall in *. intros x Hx.
    apply H. by apply elem_of_rev.
  - intros H. apply drop_while_nil_Forall in H as ->. done.
Qed.

Lemma indent_width depth s c l :
  s = c :: l -> is_indent_char c = false ->
  leading_indent_width (repeat (ch " ") (depth * 4) ++ s) = 4 * depth
  /\ trim_indent (repeat (ch " ") (depth * 4) ++ s) = s.
Proof.
  intros -> Hc. unfold leading_indent_width, trim_indent.
  destruct (take_while_app is_indent_char (repeat (ch " ") (depth * 4)) (c :: l)) as [-> ->];
    [| done |].
  - apply Forall_forall. intros x Hx%list_elem_of_In%repeat_spec. by subst.
  - split; [| done]. rewrite Nat.mul_comm. generalize (4 * depth) as n.
    induction n as [|n IH]; [done |]. cbn. cbn in IH. by rewrite IH.
Qed.

Lemma good_last_app x s : good s -> exists c, last (x ++ s) = Some c /\ is_whitespace c = false.
Proof. intros (_ & (c & Hc & Hws) & _). exists c. by rewrite last_app, Hc. Qed.

Lemma last_not_blank l c :
  last l = Some c -> is_whitespace c = false -> exists d t, trim_chars l = d :: t.
Proof.
  intros (l' & ->)%last_Some Hc. destruct (trim_chars (l' ++ [c])) as [|d t] eqn:H; [| by eexists _, _].
  apply trim_chars_nil in H. apply Forall_app in H as [_ H]. inversion H. congruence.
Qed.

(** A text with the indentation of a depth. *)
Lemma format_line_indented depth s stack :
  good s ->
  format_line unicode_alphanumeric (repeat (ch " ") (depth * 4) ++ s) stack
  = if text_starts "#" s then (FormattedLine_new (depth_for_comment (4 * depth) stack) s, stack)
    else let '(d, stack) := depth_for_code (4 * depth) stack in (FormattedLine_new d s, stack).
Proof.
  intros Hs. destruct (good_last_app (repeat (ch " ") (depth * 4)) s Hs) as (c & Hc & Hws).
  unfold format_line. rewrite (trim_end_last _ c) by done.
  destruct (last_not_blank _ _ Hc Hws) as (d & t & ->).
  destruct Hs as ((e & l & He & Hindent) & _).
  destruct (indent_width depth s e l He Hindent) as [-> ->]. done.
Qed.

(** What a line without newlines is formatted to. *)
Lemma format_line_cases raw stack :
  Forall (fun c => c <> 10%N) raw ->
  format_line unicode_alphanumeric raw stack = (FormattedLine_blank, stack)
  \/ exists s raw_indent, good s /\
     format_line unicode_alphanumeric raw stack
     = if text_starts "#" s then (FormattedLine_new (depth_for_comment raw_indent stack) s, stack)
       else let '(d, stack) := depth_for_code raw_indent stack in (FormattedLine_new d s, stack).
Proof.
  intros Hnl. unfold format_line. destruct (trim_chars (trim_end raw)) as [|d t] eqn:Htrim; [by left |].
  right. exists (trim_indent (trim_end raw)), (leading_indent_width (trim_end raw)). split; [| done].
  destruct (take_drop_while is_whitespace (rev raw)) as (Hraw & Hblank & Hhead).
  assert (Hend : exists c l, trim_end raw = l ++ [c] /\ is_whitespace c = false).
  { unfold trim_end in *. destruct (drop_while is_whitespace (rev raw)) as [|c l]; [done |].
    exists c, (rev l). by split. }
  destruct Hend as (c & l & Hend & Hc). rewrite Hend.
  assert (Hincl : forall x, x ∈ l ++ [c] -> x <> 10%N).
  { rewrite <- Hend. intros x Hx. rewrite Forall_forall in Hnl. apply Hnl.
    unfold trim_end in Hx. rewrite RustStr.elem_of_rev in Hx. apply drop_while_incl in Hx.
    by rewrite RustStr.elem_of_rev in Hx. }
  destruct (take_drop_while is_indent_char (l ++ [c])) as (Heq & Hind & Hfirst).
  unfold trim_indent. destruct (drop_while is_indent_char (l ++ [c])) as [|e s] eqn:Hdrop.
  { exfalso. apply drop_while_nil_Forall, Forall_app in Hdrop as [_ Hdrop]. inversion Hdrop; subst.
    apply whitespace_not_indent in Hc. congruence. }
  unfold good. split_and!; [by eexists _, _ | |].
  - exists c. split; [| done]. apply (f_equal last) in Heq. rewrite !last_app in Heq. cbn [last] in Heq.
    destruct (last (e :: s)) eqn:Hlast; [congruence | by apply last_None in Hlast].
  - apply Forall_forall. intros x Hx. apply Hincl. rewrite Heq. apply elem_of_app. by right.
Qed.

(** * Formatted lines *)

(** Lines as a stack of [n] levels lets them be: their depths are those that
    their own indentation gives. *)
Inductive canonical : nat -> list FormattedLine -> Prop :=
| canonical_nil n : canonical n []
| canonical_blank n l : canonical n l -> canonical n (FormattedLine_blank :: l)
| canonical_comment n d s l :
    good s -> text_starts "#" s = true -> d <= n -> canonical n l ->
    canonical n (FormattedLine_new d s :: l)
| canonical_code n d s l :
    good s -> text_starts "#" s = false -> d <= n -> canonical (S d) l ->
    canonical n (FormattedLine_new d s :: l).

Lemma format_lines_canonical st raws :
  1 <= length st -> Forall (Forall (fun c => c <> 10%N)) raws ->
  canonical (length st) (format_lines unicode_alphanumeric st raws).
Proof.
  intros Hst Hraws. revert st Hst. induction Hraws as [|raw raws Hraw _ IH]; intros st Hst;
    cbn [format_lines]; [constructor |].
  destruct (format_line_cases raw st Hraw) as [-> | (s & ri & Hs & ->)].
  - constructor. by apply IH.
  - destruct (text_starts "#" s) eqn:Hhash.
    + apply canonical_comment; [done | done | apply depth_for_comment_le | by apply IH].
    + destruct (depth_for_code_spec ri st Hst) as (d & st' & -> & Hlen & Hd).
      apply canonical_code; [done | done | done |]. rewrite <- Hlen. apply IH. lia.
Qed.

(** A line as it is read back: whether it begins a declaration is decided on
    the respaced text. *)
Definition refresh (line : FormattedLine) : FormattedLine :=
  if is_blank line then line
  else mkFormattedLine (fl_text line) (fl_depth line) false (is_comment line)
         (Nat.eqb (fl_depth line) 0
          && is_top_level_declaration (skipn (fl_depth line * 4) (fl_text line))).

Lemma refresh_new d s : good s -> refresh (FormattedLine_new d s) = FormattedLine_new d (content s).
Proof.
  intros Hs. destruct (content_good s Hs) as (_ & Hc & Hstart).
  rewrite !FormattedLine_new_eq. unfold refresh. cbn [is_blank fl_text fl_depth is_comment].
  rewrite Hc, Hstart. do 2 f_equal. f_equal. rewrite skipn_app, repeat_length, Nat.sub_diag.
  rewrite skipn_all2 by (by rewrite repeat_length). done.
Qed.

Lemma reformat n lines :
  1 <= n -> canonical n lines ->
  format_lines unicode_alphanumeric (canon n) (map fl_text lines) = map refresh lines.
Proof.
  intros Hn H. induction H as [n|n l H IH|n d s l Hs Hhash Hd H IH|n d s l Hs Hhash Hd H IH];
    cbn [map format_lines]; [done | | |].
  - change (fl_text FormattedLine_blank) with (@nil N). change (format_line unicode_alphanumeric [] (canon n))
      with (FormattedLine_blank, canon n). cbv iota. by rewrite IH.
  - destruct (content_good s Hs) as (Hg & Hc & Hstart). rewrite FormattedLine_new_eq at 1.
    cbn [fl_text]. rewrite format_line_indented by done. rewrite Hstart, Hhash.
    rewrite depth_for_comment_canon by done. rewrite IH by done. by rewrite refresh_new.
  - destruct (content_good s Hs) as (Hg & Hc & Hstart). rewrite FormattedLine_new_eq at 1.
    cbn [fl_text]. rewrite format_line_indented by done. rewrite Hstart, Hhash.
    rewrite depth_for_code_canon by done. rewrite IH by lia. by rewrite refresh_new.
Qed.

(** Only lines that are not blank matter. *)
Definition nonblank (lines : list FormattedLine) : list FormattedLine :=
  List.filter (fun line => negb (is_blank line)) lines.

Definition line_ok (line : FormattedLine) : Prop :=
  line = FormattedLine_blank \/ exists d s, good s /\ line = FormattedLine_new d s.

Lemma canonical_line_ok n lines : canonical n lines -> Forall line_ok lines.
Proof. induction 1; constructor; try done; [by left | |]; right; by eexists _, _. Qed.

Lemma canonical_nonblank n lines : canonical n lines -> canonical n (nonblank lines).
Proof.
  induction 1; cbn; [constructor | done | by apply canonical_comment | by apply canonical_code].
Qed.

Lemma canonical_inv n line lines :
  canonical n (line :: lines) -> is_blank line = false ->
  fl_depth line <= n /\ canonical (if is_comment line then n else S (fl_depth line)) lines.
Proof.
  remember (line :: lines) as all eqn:Hall. intros H Hb. revert Hall Hb.
  destruct H as [n|n l H|n d s l Hs Hhash Hd H|n d s l Hs Hhash Hd H]; intros Hall Hb;
    [discriminate Hall | | |]; injection Hall as <- <-; [discriminate Hb | |];
    rewrite FormattedLine_new_eq; cbn [is_comment fl_depth]; by rewrite Hhash.
Qed.

Lemma canonical_of_nonblank n lines :
  Forall line_ok lines -> canonical n (nonblank lines) -> canonical n lines.
Proof.
  intros Hok. revert n. induction Hok as [|line lines [-> | (d & s & Hs & ->)] Hok IH]; intros n H.
  - constructor.
  - constructor. by apply IH.
  - change (nonblank (FormattedLine_new d s :: lines))
      with (FormattedLine_new d s :: nonblank lines) in H.
    apply canonical_inv in H as [Hd H]; [| done]. rewrite FormattedLine_new_eq in Hd, H.
    cbn [is_comment fl_depth] in Hd, H. destruct (text_starts "#" s) eqn:Hhash.
    + apply canonical_comment; [done | done | done | by apply IH].
    + apply canonical_code; [done | done | done | by apply IH].
Qed.

(** ** Blank lines *)

Fixpoint collapsed (last_blank : bool) (lines : list FormattedLine) : Prop :=
  match lines with
  | [] => True
  | line :: lines => (is_blank line = true -> last_blank = false) /\ collapsed (is_blank line) lines
  end.

(** No blank line at an edge, no two in a row. *)
Definition tidy (lines : list FormattedLine) : Prop :=
  collapsed true lines
  /\ match last lines with Some line => is_blank line = false | None => True end.

Lemma collapse_collapsed last_blank lines : collapsed last_blank (collapse_blanks last_blank lines).
Proof.
  revert last_blank. induction lines as [|line lines IH]; intros lb; cbn [collapse_blanks]; [done |].
  destruct (is_blank line && lb) eqn:H; [apply IH |]. cbn. split; [| apply IH].
  intros Hb. by rewrite Hb in H.
Qed.

Lemma collapse_id last_blank lines : collapsed last_blank lines -> collapse_blanks last_blank lines = lines.
Proof.
  revert last_blank. induction lines as [|line lines IH]; intros lb; cbn; [done |]. intros [H Hl].
  destruct (is_blank line) eqn:Hb; cbn [andb]; [rewrite H by done |]; f_equal; by apply IH.
Qed.

Lemma collapsed_prefix last_blank l l' : collapsed last_blank (l ++ l') -> collapsed last_blank l.
Proof.
  revert last_blank. induction l as [|x l IH]; intros lb; [done |]. cbn. intros [? ?]. split; [done |].
  by apply IH.
Qed.

Lemma strip_end {A} (p : A -> bool) l :
  exists t, l = rev (drop_while p (rev l)) ++ t /\ Forall (fun x => p x = true) t
  /\ match last (rev (drop_while p (rev l))) with Some x => p x = false | None => True end.
Proof.
  induction l as [|x l IH] using rev_ind; [by exists [] |].
  rewrite rev_app_distr. cbn [rev app drop_while]. destruct (p x) eqn:Hp.
  - destruct IH as (t & Ht & Hall & Hlast). exists (t ++ [x]).
    split_and!; [by rewrite app_assoc, <- Ht | by apply Forall_app; split; [| constructor] | done].
  - exists []. cbn [rev]. rewrite rev_involutive, app_nil_r, last_snoc. done.
Qed.

Lemma normalize_blank_lines_prefix lines :
  exists t, collapse_blanks true lines = normalize_blank_lines lines ++ t
  /\ Forall (fun line => is_blank line = true) t /\ tidy (normalize_blank_lines lines).
Proof.
  unfold normalize_blank_lines. destruct (strip_end is_blank (collapse_blanks true lines)) as (t & Ht & Hall & Hlast).
  exists t. split_and!; [done | done |]. split; [| done].
  eapply collapsed_prefix. rewrite <- Ht. apply collapse_collapsed.
Qed.

Lemma normalize_blank_lines_id lines : tidy lines -> normalize_blank_lines lines = lines.
Proof.
  intros [Hc Hl]. unfold normalize_blank_lines. rewrite collapse_id by done.
  induction lines as [|x l _] using rev_ind; [done |]. rewrite last_snoc in Hl.
  rewrite rev_app_distr. cbn. rewrite Hl. cbn. by rewrite rev_involutive.
Qed.

Lemma nonblank_app l l' : nonblank (l ++ l') = nonblank l ++ nonblank l'.
Proof. apply List.filter_app. Qed.

Lemma nonblank_blanks t : Forall (fun line => is_blank line = true) t -> nonblank t = [].
Proof. induction 1 as [|x t Hx _ IH]; [done |]. cbn. by rewrite Hx. Qed.

Lemma nonblank_cons x l : nonblank (x :: l) = if is_blank x then nonblank l else x :: nonblank l.
Proof. cbn. by destruct (is_blank x). Qed.

Lemma nonblank_collapse last_blank lines : nonblank (collapse_blanks last_blank lines) = nonblank lines.
Proof.
  revert last_blank. induction lines as [|x l IH]; intros lb; [done |]. cbn [collapse_blanks].
  destruct (is_blank x) eqn:Hx, lb; cbn [andb]; rewrite !nonblank_cons, ?Hx, ?IH; rewrite ?nonblank_cons, ?Hx; done.
Qed.

Lemma nonblank_normalize lines : nonblank (normalize_blank_lines lines) = nonblank lines.
Proof.
  destruct (normalize_blank_lines_prefix lines) as (t & Ht & Hall & _).
  apply (f_equal nonblank) in Ht. rewrite nonblank_collapse, nonblank_app, (nonblank_blanks t) in Ht by done.
  by rewrite app_nil_r in Ht.
Qed.

Lemma normalize_Forall (P : FormattedLine -> Prop) lines :
  Forall P lines -> Forall P (normalize_blank_lines lines).
Proof.
  intros H. destruct (normalize_blank_lines_prefix lines) as (t & Ht & _).
  assert (Hc : forall lb, Forall P (collapse_blanks lb lines)).
  { clear Ht. induction H as [|x l Hx _ IH]; intros lb; cbn; [done |].
    destruct (_ && _); [apply IH | constructor; [done | apply IH]]. }
  specialize (Hc true). rewrite Ht in Hc. by apply Forall_app in Hc as [? _].
Qed.

(** ** Spacing between declarations *)

(** The lines that [apply_top_level_spacing] prints. *)
Fixpoint spaced_from (before : list FormattedLine) (out_last : option Text)
    (lines : list FormattedLine) : list FormattedLine :=
  match lines with
  | [] => []
  | line :: after =>
      (if should_insert_blank_before before line after out_last then [FormattedLine_blank] else [])
      ++ line :: spaced_from (line :: before) (Some (fl_text line)) after
  end.

Lemma apply_spacing_spaced before out_last lines :
  apply_spacing_from before out_last lines = map fl_text (spaced_from before out_last lines).
Proof.
  revert before out_last. induction lines as [|x l IH]; intros b ol; [done |].
  cbn [apply_spacing_from spaced_from]. rewrite map_app. cbn [map]. rewrite IH.
  by destruct (should_insert_blank_before _ _ _ _).
Qed.

Definition after_blank (out_last : option Text) : bool :=
  match out_last with Some (_ :: _) => false | _ => true end.

Lemma should_insert_spec before line after out_last :
  should_insert_blank_before before line after out_last = true ->
  after_blank out_last = false /\ is_blank line = false.
Proof.
  unfold should_insert_blank_before. destruct out_last as [[|c t]|]; [done | | done].
  by destruct (is_blank line).
Qed.

Lemma should_insert_blank_false before line after out_last :
  after_blank out_last = true \/ is_blank line = true ->
  should_insert_blank_before before line after out_last = false.
Proof.
  intros H. apply not_true_iff_false. intros [H1 H2]%should_insert_spec. destruct H; congruence.
Qed.

Lemma line_ok_after line : line_ok line -> after_blank (Some (fl_text line)) = is_blank line.
Proof.
  intros [-> | (d & s & Hs & ->)]; [done |]. destruct (content_good s Hs) as (((c & l & Hc & _) & _) & _).
  rewrite FormattedLine_new_eq. cbn [fl_text is_blank]. rewrite Hc.
  by destruct (repeat (ch " ") (d * 4)).
Qed.

Lemma line_ok_comment line : line_ok line -> is_comment line = true -> is_blank line = false.
Proof. by intros [-> | (d & s & _ & ->)]. Qed.

Lemma spaced_collapsed before out_last lines :
  Forall line_ok lines -> collapsed (after_blank out_last) lines ->
  collapsed (after_blank out_last) (spaced_from before out_last lines).
Proof.
  intros Hok. revert before out_last. induction Hok as [|x l Hx _ IH]; intros b ol; [done |].
  cbn [collapsed spaced_from]. intros [Hb Hl].
  specialize (IH (x :: b) (Some (fl_text x))). rewrite (line_ok_after x Hx) in IH.
  destruct (should_insert_blank_before b x l ol) eqn:Hs; cbn [app collapsed].
  - apply should_insert_spec in Hs as [-> Hs]. rewrite Hs in *. cbn. split_and!; [done | done |].
    by apply IH.
  - split; [done |]. by apply IH.
Qed.

Lemma spaced_last before out_last lines : last (spaced_from before out_last lines) = last lines.
Proof.
  revert before out_last. induction lines as [|x l IH]; intros b ol; [done |].
  cbn [spaced_from]. rewrite last_app. rewrite !last_cons, IH. by destruct (last l).
Qed.

Lemma spaced_nonblank before out_last lines : nonblank (spaced_from before out_last lines) = nonblank lines.
Proof.
  revert before out_last. induction lines as [|x l IH]; intros b ol; [done |].
  cbn [spaced_from]. rewrite nonblank_app.
  assert (H : nonblank (if should_insert_blank_before b x l ol then [FormattedLine_blank] else []) = [])
    by (by destruct (should_insert_blank_before _ _ _ _)).
  rewrite H. cbn [app]. by rewrite !nonblank_cons, IH.
Qed.

Lemma spaced_Forall (P : FormattedLine -> Prop) before out_last lines :
  P FormattedLine_blank -> Forall P lines -> Forall P (spaced_from before out_last lines).
Proof.
  intros Hb H. revert before out_last. induction H as [|x l Hx _ IH]; intros b ol; cbn; [done |].
  apply Forall_app. split; [destruct (should_insert_blank_before _ _ _ _); by repeat constructor |].
  by constructor.
Qed.

Lemma previous_nonblank_head before : previous_nonblank_line before = head (nonblank before).
Proof.
  unfold previous_nonblank_line, nonblank. induction before as [|x b IH]; cbn; [done |].
  by destruct (is_blank x).
Qed.

(** Behind a comment of the group no blank is inserted. *)
Lemma comment_group_spaced before out_last lines x :
  Forall line_ok lines -> previous_nonblank_line before = Some x -> is_comment x = true ->
  comment_group_leads_to_top_level_declaration (spaced_from before out_last lines)
  = comment_group_leads_to_top_level_declaration lines.
Proof.
  intros Hok. revert before out_last x. induction Hok as [|y l Hy _ IH]; intros b ol x Hprev Hx; [done |].
  cbn [spaced_from].
  assert (Hno : should_insert_blank_before b y l ol = false).
  { unfold should_insert_blank_before. rewrite Hprev, Hx. repeat case_match; try done. }
  rewrite Hno. cbn [app comment_group_leads_to_top_level_declaration].
  destruct (is_comment y) eqn:Hcy; [| done]. apply (IH _ _ y); [| done].
  unfold previous_nonblank_line. cbn. by rewrite (line_ok_comment y).
Qed.

Lemma should_insert_again before before' line after out_last :
  line_ok line -> Forall line_ok after -> nonblank before' = nonblank before ->
  should_insert_blank_before before line after out_last = false ->
  should_insert_blank_before before' line
    (spaced_from (line :: before) (Some (fl_text line)) after) out_last = false.
Proof.
  intros Hl Hafter Hbefore. unfold should_insert_blank_before.
  rewrite !previous_nonblank_head, Hbefore, <- previous_nonblank_head.
  destruct out_last as [[|c t]|]; [done | | done]. destruct (is_blank line) eqn:Hb; [done |].
  destruct (negb (Nat.eqb (fl_depth line) 0)); [done |]. destruct (is_comment line) eqn:Hc; [| done].
  destruct (previous_nonblank_line before) as [p|]; [| done]. destruct (is_comment p); [done |].
  cbn [comment_group_leads_to_top_level_declaration]. rewrite Hc.
  rewrite (comment_group_spaced (line :: before) _ after line); [done | done | | done].
  unfold previous_nonblank_line. cbn. by rewrite Hb.
Qed.

(** Spacing that was applied is applied to itself. *)
Lemma spacing_settles before before' out_last lines :
  Forall line_ok lines -> nonblank before' = nonblank before ->
  apply_spacing_from before' out_last (spaced_from before out_last lines)
  = map fl_text (spaced_from before out_last lines).
Proof.
  intros Hok. revert before before' out_last. induction Hok as [|x l Hx Hl IH]; intros b b' ol Hb; [done |].
  cbn [spaced_from]. destruct (should_insert_blank_before b x l ol) eqn:Hs.
  - cbn [app apply_spacing_from map]. rewrite should_insert_blank_false by (by right).
    rewrite should_insert_blank_false by (by left). cbn [app]. do 2 f_equal. apply IH.
    rewrite !nonblank_cons. cbn [is_blank FormattedLine_blank]. by rewrite Hb.
  - cbn [app apply_spacing_from map]. rewrite (should_insert_again b b') by done. cbn [app].
    f_equal. apply IH. by rewrite !nonblank_cons, Hb.
Qed.

(** * A whole text *)

Abbreviation format_lines := (format_lines unicode_alphanumeric).
Abbreviation normalize_lines := (normalize_lines unicode_alphanumeric).
Abbreviation normalize_text := (normalize_text unicode_alphanumeric).

Definition one_line (w : Text) : Prop := Forall (fun c => c <> 10%N) w.

(** The lines between the two halves of a pass, and the lines printed. *)
Definition kept (raws : list Text) : list FormattedLine := normalize_blank_lines (format_lines [0] raws).
Definition printed (raws : list Text) : list FormattedLine := spaced_from [] None (kept raws).

Lemma normalize_lines_printed raws : normalize_lines raws = map fl_text (printed raws).
Proof. apply apply_spacing_spaced. Qed.

Lemma printed_spec raws :
  Forall one_line raws ->
  Forall line_ok (printed raws) /\ canonical 1 (printed raws) /\ tidy (printed raws)
  /\ Forall line_ok (kept raws).
Proof.
  intros Hraws. pose proof (format_lines_canonical [0] raws (le_n 1) Hraws) as Hcan.
  cbn [length] in Hcan. pose proof (canonical_line_ok _ _ Hcan) as Hok.
  assert (Hkept : Forall line_ok (kept raws)) by (by apply normalize_Forall).
  assert (Hprinted : Forall line_ok (printed raws)) by (apply spaced_Forall; [by left | done]).
  destruct (normalize_blank_lines_prefix (format_lines [0] raws)) as (_ & _ & _ & Htidy).
  split_and!; [done | | | done].
  - apply canonical_of_nonblank; [done |]. unfold printed, kept.
    rewrite spaced_nonblank, nonblank_normalize. by apply canonical_nonblank.
  - destruct Htidy as [Hc Hl]. split; unfold printed.
    + by apply (spaced_collapsed [] None).
    + by rewrite spaced_last.
Qed.

Lemma is_blank_refresh line : is_blank (refresh line) = is_blank line.
Proof. unfold refresh. by destruct (is_blank line) eqn:H. Qed.

Lemma tidy_refresh lines : tidy lines -> tidy (map refresh lines).
Proof.
  intros [Hc Hl]. split.
  - revert Hc. generalize true as lb. clear Hl. induction lines as [|x l IH]; intros lb; [done |].
    cbn. rewrite is_blank_refresh. intros [? ?]. split; [done | by apply IH].
  - induction lines as [|x l _] using rev_ind; [done |].
    rewrite map_app. cbn [map]. rewrite last_snoc in *. by rewrite is_blank_refresh.
Qed.

(** The second pass keeps the lines that the first one printed, refreshed. *)
Lemma kept_again raws :
  Forall one_line raws -> kept (normalize_lines raws) = map refresh (printed raws).
Proof.
  intros Hraws. destruct (printed_spec raws Hraws) as (_ & Hcan & Htidy & _).
  unfold kept at 1. rewrite normalize_lines_printed. change [0] with (canon 1).
  rewrite reformat by done. by apply normalize_blank_lines_id, tidy_refresh.
Qed.

Lemma map_refresh_id lines : Forall (fun line => refresh line = line) lines -> map refresh lines = lines.
Proof. induction 1 as [|x l Hx _ IH]; [done |]. cbn. by rewrite Hx, IH. Qed.

Lemma refresh_refresh line : line_ok line -> refresh (refresh line) = refresh line.
Proof.
  intros [-> | (d & s & Hs & ->)]; [done |]. rewrite refresh_new by done.
  destruct (content_good s Hs) as (Hg & Hc & _). rewrite refresh_new by done. by rewrite Hc.
Qed.

(** A pass that reads every declaration as it prints it is the last one. *)
Lemma stable_pass raws :
  Forall one_line raws -> Forall (fun line => refresh line = line) (kept raws) ->
  normalize_lines (normalize_lines raws) = normalize_lines raws.
Proof.
  intros Hraws Hstable. destruct (printed_spec raws Hraws) as (Hok & _ & _ & Hkept).
  unfold Formatter.normalize_lines at 1. change (normalize_blank_lines (format_lines [0] (normalize_lines raws)))
    with (kept (normalize_lines raws)).
  rewrite kept_again by done. rewrite map_refresh_id.
  - rewrite normalize_lines_printed. by apply spacing_settles.
  - apply spaced_Forall; [done | done].
Qed.

Lemma line_ok_text line : line_ok line -> one_line (fl_text line) /\ last (fl_text line) <> Some 13%N.
Proof.
  intros [-> | (d & s & Hs & ->)]; [by split; [constructor |] |].
  destruct (content_good s Hs) as (Hg & _). rewrite FormattedLine_new_eq. cbn [fl_text]. split.
  - apply Forall_app. split; [| apply Hg]. apply Forall_forall.
    intros x Hx%list_elem_of_In%repeat_spec. by subst.
  - destruct (good_last_app (repeat (ch " ") (d * 4)) _ Hg) as (c & -> & Hc). by intros [= ->].
Qed.

Lemma normalize_lines_texts raws :
  Forall one_line raws ->
  Forall (fun w => one_line w /\ last w <> Some 13%N) (normalize_lines raws).
Proof.
  intros Hraws. destruct (printed_spec raws Hraws) as (Hok & _). rewrite normalize_lines_printed.
  apply Forall_map. eapply Forall_impl; [done |]. apply line_ok_text.
Qed.

Lemma second_pass_settles raws :
  Forall one_line raws ->
  normalize_lines (normalize_lines (normalize_lines raws)) = normalize_lines (normalize_lines raws).
Proof.
  intros Hraws. apply stable_pass.
  - eapply Forall_impl; [by apply normalize_lines_texts | by intros w [? _]].
  - rewrite kept_again by done. destruct (printed_spec raws Hraws) as (Hok & _).
    apply Forall_map. eapply Forall_impl; [done |]. apply refresh_refresh.
Qed.

(** ** Lines and newlines *)

Lemma str_lines_one_line l : Forall one_line (str_lines l).
Proof.
  remember (length l) as n eqn:Hn. assert (Hle : length l <= n) by lia. clear Hn.
  revert l Hle. induction n as [|n IH]; intros [|c l] Hle; cbn in Hle; try lia; try constructor.
  assert (Hl : Forall one_line (str_lines l)) by (apply IH; lia).
  assert (Hcont : (c =? 10)%N = false -> Forall one_line
    match str_lines l with [] => [[c]] | w :: ws => (c :: w) :: ws end).
  { intros Hc%N.eqb_neq. destruct Hl as [|w ws Hw Hws]; constructor; try done; by constructor. }
  cbn [str_lines]. destruct (c =? 10)%N; [by constructor; [constructor |] |].
  destruct l as [|d l]; [by apply Hcont |].
  destruct ((c =? 13)%N && (d =? 10)%N); [| by apply Hcont].
  constructor; [constructor |]. apply IH. cbn in Hle. lia.
Qed.

Lemma str_lines_line w rest :
  one_line w -> last w <> Some 13%N -> str_lines (w ++ 10%N :: rest) = w :: str_lines rest.
Proof.
  intros Hw. induction Hw as [|c w Hc Hw IH]; intros Hlast; [done |].
  cbn [app str_lines]. apply N.eqb_neq in Hc. rewrite Hc.
  destruct w as [|d w].
  - cbn [app]. destruct (N.eqb_spec c 13) as [->|]; [done |]. done.
  - cbn [app]. inversion Hw as [|? ? Hd _]; subst. apply N.eqb_neq in Hd. rewrite Hd, andb_false_r.
    cbn [app] in IH. rewrite IH; [done |]. by destruct w.
Qed.

Lemma str_lines_join w ws :
  Forall (fun w => one_line w /\ last w <> Some 13%N) (w :: ws) ->
  str_lines (join_lines (w :: ws) ++ [10%N]) = w :: ws.
Proof.
  revert w. induction ws as [|v ws IH]; intros w H; inversion H as [|? ? [Hw Hlast] Hws]; subst.
  - cbn [join_lines]. by rewrite str_lines_line.
  - change (join_lines (w :: v :: ws)) with (w ++ 10%N :: join_lines (v :: ws)).
    rewrite <- app_assoc. cbn [app]. rewrite str_lines_line by done. by rewrite IH.
Qed.

(** Formatting what was printed is a pass over its lines. *)
Lemma normalize_printed raws :
  Forall one_line raws ->
  normalize_text (join_lines (normalize_lines raws) ++ [10%N])
  = join_lines (normalize_lines (normalize_lines raws)) ++ [10%N].
Proof.
  intros Hraws. unfold Formatter.normalize_text.
  pose proof (normalize_lines_texts raws Hraws) as Htexts.
  destruct (normalize_lines raws) as [|w ws]; [done |]. by rewrite str_lines_join.
Qed.

Lemma normalize_text_settles l :
  normalize_text (normalize_text (normalize_text l)) = normalize_text (normalize_text l).
Proof.
  pose proof (str_lines_one_line l) as H0.
  assert (H1 : Forall one_line (normalize_lines (str_lines l))).
  { eapply Forall_impl; [by apply normalize_lines_texts | by intros w [? _]]. }
  change (normalize_text l) with (join_lines (normalize_lines (str_lines l)) ++ [10%N]).
  rewrite !normalize_printed by done. by rewrite second_pass_settles.
Qed.

Lemma normalize_text_stable l :
  Forall (fun line => refresh line = line) (kept (str_lines l)) ->
  normalize_text (normalize_text l) = normalize_text l.
Proof.
  intros H. pose proof (str_lines_one_line l) as H0.
  change (normalize_text l) with (join_lines (normalize_lines (str_lines l)) ++ [10%N]).
  rewrite normalize_printed by done. by rewrite stable_pass.
Qed.

(** ** Characters *)

Section Characters.
Context (P : N -> Prop) (Hspace : P (ch " ")) (Hnewline : P 10%N).

Lemma content_chars s : Forall P s -> Forall P (content s).
Proof.
  intros Hs. unfold content. destruct (text_starts "#" s).
  - unfold normalize_comment_spacing. destruct s as [|c [|d s]]; try done.
    destruct (_ && _); [| done]. inversion Hs; subst. constructor; [done |]. by constructor.
  - apply Forall_forall. intros x [Hx | ->]%join_incl; [| done]. rewrite Forall_forall in Hs. by apply Hs.
Qed.

Lemma FormattedLine_new_chars depth s : Forall P s -> Forall P (fl_text (FormattedLine_new depth s)).
Proof.
  intros Hs. rewrite FormattedLine_new_eq. cbn [fl_text]. apply Forall_app.
  split; [| by apply content_chars]. apply Forall_forall.
  intros x Hx%list_elem_of_In%repeat_spec. by subst.
Qed.

Lemma format_line_chars raw stack :
  Forall P raw -> Forall P (fl_text (fst (format_line unicode_alphanumeric raw stack))).
Proof.
  intros Hraw. assert (Hs : Forall P (trim_indent (trim_end raw))).
  { apply Forall_forall. intros x Hx%drop_while_incl. unfold trim_end in Hx.
    rewrite RustStr.elem_of_rev in Hx. apply drop_while_incl in Hx. rewrite RustStr.elem_of_rev in Hx.
    rewrite Forall_forall in Hraw. by apply Hraw. }
  unfold format_line. destruct (trim_chars (trim_end raw)); [constructor |].
  destruct (text_starts "#" _); [by apply FormattedLine_new_chars |].
  destruct (depth_for_code _ _). by apply FormattedLine_new_chars.
Qed.

Lemma format_lines_chars stack raws :
  Forall (Forall P) raws -> Forall (fun line => Forall P (fl_text line)) (format_lines stack raws).
Proof.
  intros H. revert stack. induction H as [|raw raws Hraw _ IH]; intros stack; cbn [Formatter.format_lines];
    [constructor |].
  pose proof (format_line_chars raw stack Hraw) as Hl.
  destruct (format_line unicode_alphanumeric raw stack) as [line stack']. by constructor.
Qed.

Lemma str_lines_chars l : Forall P l -> Forall (Forall P) (str_lines l).
Proof.
  remember (length l) as n eqn:Hn. assert (Hle : length l <= n) by lia. clear Hn.
  revert l Hle. induction n as [|n IH]; intros [|c l] Hle Hall; cbn in Hle; try lia; try constructor.
  inversion Hall as [|? ? Hc Hl]; subst.
  assert (Hlines : Forall (Forall P) (str_lines l)) by (apply IH; [lia | done]).
  assert (Hcont : Forall (Forall P) match str_lines l with [] => [[c]] | w :: ws => (c :: w) :: ws end).
  { destruct Hlines as [|w ws Hw Hws]; constructor; try done; by constructor. }
  cbn [str_lines]. destruct (c =? 10)%N; [by constructor |].
  destruct l as [|d l]; [done |]. destruct (_ && _); [| done].
  constructor; [done |]. inversion Hl; subst. apply IH; [cbn in Hle; lia | done].
Qed.

Lemma normalize_text_chars l : Forall P l -> Forall P (normalize_text l).
Proof.
  intros Hl. unfold Formatter.normalize_text. apply Forall_app. split; [| by repeat constructor].
  assert (Hlines : Forall (Forall P) (normalize_lines (str_lines l))).
  { rewrite normalize_lines_printed. apply Forall_map, spaced_Forall; [constructor |].
    by apply normalize_Forall, format_lines_chars, str_lines_chars. }
  induction Hlines as [|w [|v ws] Hw Hws IH]; [done | done |].
  change (join_lines (w :: v :: ws)) with (w ++ 10%N :: join_lines (v :: ws)).
  apply Forall_app. split; [done |]. constructor; [done |]. apply IH.
Qed.
End Characters.

Lemma chars_normalize_source source :
  valid_str source ->
  chars (normalize_source unicode_alphanumeric source) = normalize_text (chars source).
Proof.
  intros (l & -> & Hl). unfold normalize_source. rewrite (chars_of_chars l) by done.
  apply chars_of_chars. apply forallb_forall. intros x Hx%list_elem_of_In.
  assert (Hall : Forall (fun c => is_scalar c = true) (normalize_text l)).
  { apply normalize_text_chars; [done | done |]. apply Forall_forall. intros y Hy%list_elem_of_In.
    rewrite forallb_forall in Hl. by apply Hl. }
  rewrite Forall_forall in Hall. by apply Hall.
Qed.

Lemma valid_normalize_source source :
  valid_str source -> valid_str (normalize_source unicode_alphanumeric source).
Proof.
  intros (l & -> & Hl). exists (normalize_text l). split.
  - unfold normalize_source. by rewrite chars_of_chars.
  - apply forallb_forall. intros x Hx%list_elem_of_In.
    assert (Hall : Forall (fun c => is_scalar c = true) (normalize_text l)).
    { apply normalize_text_chars; [done | done |]. apply Forall_forall. intros y Hy%list_elem_of_In.
      rewrite forallb_forall in Hl. by apply Hl. }
    rewrite Forall_forall in Hall. by apply Hall.
Qed.

(** * Formatting a source *)

(** Every line that begins a declaration does so before and after it is
    respaced. *)
Definition declarations_read_back (source : string) : Prop :=
  Forall (fun line => refresh line = line) (kept (str_lines (chars source))).

Abbreviation format_source := (format_source unicode_alphanumeric).

Lemma format_source_Done source r :
  format_source source = Done r ->
  parse_source source = Done tt
  /\ r = mkFormatResult (negb (String.eqb (normalize_source unicode_alphanumeric source) source))
           (normalize_source unicode_alphanumeric source)
  /\ parse_source (output r) = Done tt
  /\ exists kinds, significant_tokens source = Done kinds /\ significant_tokens (output r) = Done kinds.
Proof.
  unfold Formatter.format_source. intros H.
  apply bind_Done in H as ([] & Hparse & H). apply bind_Done in H as (before & Hbefore & H).
  apply bind_Done in H as ([] & Hparse' & H). apply bind_Done in H as (after & Hafter & H).
  case_bool_decide as Heq; [| done]. injection H as <-. subst after. cbn [output].
  split_and!; [done | done | done |]. by exists before.
Qed.

Lemma format_source_fixed source kinds :
  normalize_source unicode_alphanumeric source = source -> parse_source source = Done tt ->
  significant_tokens source = Done kinds -> format_source source = Done (mkFormatResult false source).
Proof.
  intros Hnorm Hparse Hkinds. unfold Formatter.format_source. rewrite Hnorm, Hparse, Hkinds.
  cbn [mbind outcome_bind]. rewrite bool_decide_eq_true_2 by done. by rewrite String.eqb_refl.
Qed.
End Atoms.

(** C21: Formatting keeps the tokens of a program and settles: what is printed
    has the significant tokens of the source, the second pass as well, and the
    third changes nothing.  The second already changes nothing when every line
    of the source begins a declaration exactly when its respaced text does. *)
Theorem formatting_settles (unicode_alphanumeric : N -> bool) (source : string) (r1 r2 : FormatResult)
    (Hvalid : valid_str source)
    (H1 : format_source unicode_alphanumeric source = Done r1)
    (H2 : format_source unicode_alphanumeric (output r1) = Done r2) :
  (exists kinds, significant_tokens source = Done kinds
   /\ significant_tokens (output r1) = Done kinds /\ significant_tokens (output r2) = Done kinds)
  /\ format_source unicode_alphanumeric (output r2) = Done (mkFormatResult false (output r2))
  /\ (declarations_read_back unicode_alphanumeric source -> r2 = mkFormatResult false (output r1)).
Proof.
  apply format_source_Done in H1 as (_ & -> & Hp1 & kinds & Hk & Hk1).
  apply format_source_Done in H2 as (_ & -> & Hp2 & kinds' & Hk1' & Hk2).
  rewrite Hk1 in Hk1'. injection Hk1' as <-. cbn [output] in *.
  pose proof (valid_normalize_source unicode_alphanumeric source Hvalid) as Hv1.
  pose proof (chars_normalize_source unicode_alphanumeric source Hvalid) as Hc1.
  pose proof (chars_normalize_source unicode_alphanumeric _ Hv1) as Hc2. rewrite Hc1 in Hc2.
  assert (Hfix : normalize_source unicode_alphanumeric
      (normalize_source unicode_alphanumeric (normalize_source unicode_alphanumeric source))
    = normalize_source unicode_alphanumeric (normalize_source unicode_alphanumeric source)).
  { etrans; [| symmetry]; unfold normalize_source; (etrans; [apply (f_equal of_chars), (f_equal (normalize_text _)) |]).
    - exact Hc2.
    - by rewrite normalize_text_settles.
    - exact Hc1.
    - done. }
  split_and!; [by exists kinds | by eapply format_source_fixed |].
  intros Hback. assert (Hfix1 : normalize_source unicode_alphanumeric (normalize_source unicode_alphanumeric source)
    = normalize_source unicode_alphanumeric source).
  { unfold normalize_source. etrans; [apply (f_equal of_chars), (f_equal (normalize_text _)), Hc1 |].
    by rewrite normalize_text_stable. }
  by rewrite Hfix1, String.eqb_refl.
Qed.

(** * Examples *)

Definition source_of (lines : list string) : string :=
  foldr (fun w s => w +:+ String (byte 10) s) EmptyString lines.

Notation no_unicode := (fun _ => false).

(** Depth, spacing, comments and blank lines. *)
Example format_example :
  format_source no_unicode
    (source_of [EmptyString; "x=1"; "#note"; "task f( a,b )"; "  y = a+b*-1  # sum"; "  y"; EmptyString; EmptyString])
  = Done (mkFormatResult true
      (source_of ["x = 1"; EmptyString; "# note"; "task f(a, b)"; "    y = a + b * -1  # sum"; "    y"])).
Proof. vm_compute. reflexivity. Qed.

(** One pass is not enough: [export], two spaces, [task] is no declaration to
    the first pass, which prints it with one space, and the second pass puts a
    blank line in front. *)
Definition two_spaces : string := source_of ["x = 1"; "export  task f(a) => a"].

Example second_pass_differs :
  format_source no_unicode two_spaces
  = Done (mkFormatResult true (source_of ["x = 1"; "export task f(a) => a"]))
  /\ format_source no_unicode (source_of ["x = 1"; "export task f(a) => a"])
     = Done (mkFormatResult true (source_of ["x = 1"; EmptyString; "export task f(a) => a"])).
Proof. split; vm_compute; reflexivity. Qed.

Lemma formatting_settles_witness :
  format_source no_unicode (source_of ["x = 1"; EmptyString; "export task f(a) => a"])
  = Done (mkFormatResult false (source_of ["x = 1"; EmptyString; "export task f(a) => a"])).
Proof.
  apply (formatting_settles no_unicode two_spaces
           (mkFormatResult true (source_of ["x = 1"; "export task f(a) => a"]))
           (mkFormatResult true (source_of ["x = 1"; EmptyString; "export task f(a) => a"]))).
  - apply valid_ascii. reflexivity.
  - apply second_pass_differs.
  - apply second_pass_differs.
Defined.

(** A file that cannot be read, one that is only checked, and one that is
    written. *)
Definition failing_disk : FormatDisk := {|
  read_file_error path := if String.eqb path "locked.marreta" then Some "permission denied" else None;
  write_file_error _ := None;
|}.

Example format_file_examples :
  let disk := {["a.marreta" := source_of ["x=1"]]} in
  fst (@format_file failing_disk no_unicode "locked.marreta" false disk)
    = Fails (FIo "locked.marreta" "permission denied")
  /\ @format_file failing_disk no_unicode "a.marreta" true disk = (Done true, disk)
  /\ snd (@format_file failing_disk no_unicode "a.marreta" false disk) !! "a.marreta"
     = Some (source_of ["x = 1"]).
Proof. vm_compute. split_and!; reflexivity. Qed.
