(* ===== verification/ParserLogic.v ===== *)
(** A program logic for the parser, and the specification of its navigation.

    [wp m n b Q]: run from token [n], inside a transaction or not according to
    [b], [m] neither panics nor runs out of fuel; if it fails, the error points
    at a token; if it returns a value, the parser is on a token and [Q] holds.  The class [Spec] finds the
    specification of a method; [wp_steps] walks through a body with it.  A
    method advances over at least one token before it calls another through
    [Rec], which is why the fuel of [parse] is enough (ParserFacts.v). *)
From stdpp Require Import base list strings.
From Stdlib Require Import ZArith Lia.
From S2P Require Import Prelude RustStr F64 Token Errors Ast LexerFacts ParserState.

(** * The logic *)

(** The tokens end in [Eof], as [tokenize] gives them. *)
Class EndsEof (ts : list Token) : Prop :=
  ends_eof : exists body e, ts = body ++ [e] /\ kind e = Eof.

Section Logic.
Context (ts : list Token).

#[local] Notation len := (length ts).

(** The kind of the token at [n]. *)
Definition kind_at (n : nat) : TokenKind :=
  match ts !! n with Some t => kind t | None => Eof end.

(** A position of an error is that of a token. *)
Definition at_token (l c : nat) : Prop := exists t, t ∈ ts /\ line t = l /\ column t = c.

(** The errors of the parser. *)
Definition located (e : MarretaError) : Prop :=
  match e with
  | UnexpectedToken _ _ l c | ReservedWord _ l c => at_token l c
  | UnexpectedIndentation l => exists c, at_token l c
  | UnexpectedEndOfInput _ => True
  | _ => False
  end.

Definition wp {A} (m : Parse A) (n : nat) (b : bool) (Q : A -> nat -> bool -> Prop) : Prop :=
  match m (mkParser ts n b) with
  | Done (a, p) =>
      p_tokens p = ts /\ p_pos p < len /\ Q a (p_pos p) (inside_transaction p)
  | Fails e => located e
  | Panics | NoFuel => False
  end.

Lemma wp_mono {A} (m : Parse A) n b (Q Q' : A -> nat -> bool -> Prop) :
  wp m n b Q -> (forall a n' b', n' < len -> Q a n' b' -> Q' a n' b') -> wp m n b Q'.
Proof. unfold wp. destruct (m _) as [[a p]| | |]; naive_solver. Qed.

Lemma wp_bind {A B} (m : Parse A) (k : A -> Parse B) n b Q :
  wp m n b (fun a n' b' => wp (k a) n' b' Q) -> wp (m ≫= k) n b Q.
Proof.
  unfold wp, mbind, parse_bind. destruct (m _) as [[a [ts' n' b']]| | |]; try done.
  cbn. by intros (-> & _ & H).
Qed.

Lemma wp_ret {A} (a : A) n b (Q : A -> nat -> bool -> Prop) :
  n < len -> Q a n b -> wp (mret a) n b Q.
Proof. done. Qed.

Lemma wp_fail {A} e n b (Q : A -> nat -> bool -> Prop) : located e -> wp (fail e) n b Q.
Proof. done. Qed.

(** The specification of a method. *)
Class Spec {A} (m : Parse A) (pre : nat -> Prop) (post : nat -> bool -> A -> nat -> Prop) : Prop :=
  spec n b : n < len -> pre n -> wp m n b (fun a n' b' => b' = b /\ post n b a n').

Lemma wp_use {A} (m : Parse A) pre post `{!Spec m pre post} n b (Q : A -> nat -> bool -> Prop) :
  n < len -> pre n ->
  (forall a n', n' < len -> post n b a n' -> Q a n' b) -> wp m n b Q.
Proof.
  intros Hn Hpre HQ. eapply wp_mono; [by apply spec |].
  intros a n' b' ? [-> ?]. by apply HQ.
Qed.

(** ** Navigation *)

Context `{!EndsEof ts}.

Lemma eof_last n : n < len -> kind_at n <> Eof -> S n < len.
Proof.
  destruct EndsEof0 as (body & e & H & He). unfold kind_at. rewrite H, length_app. cbn.
  intros Hn Hk. destruct (decide (n = length body)) as [-> | ?]; [| lia].
  exfalso. apply Hk. by rewrite lookup_app_r, Nat.sub_diag by lia.
Qed.

Lemma lookup_kind_at n : n < len -> exists t, ts !! n = Some t /\ kind_at n = kind t.
Proof.
  intros [t Ht]%lookup_lt_is_Some_2. exists t. split; [done |]. unfold kind_at. by rewrite Ht.
Qed.

#[local] Ltac token :=
  let n := fresh "n" in let b := fresh "b" in let Hn := fresh "Hn" in
  intros n b Hn; destruct (lookup_kind_at n Hn) as (t & Ht & Hk).

Lemma current_eq n b t : ts !! n = Some t -> current (mkParser ts n b) = Done (t, mkParser ts n b).
Proof.
  intros Ht. unfold current. cbn.
  replace (n `min` (len - 1)) with n; [by rewrite Ht |]. apply lookup_lt_Some in Ht. lia.
Qed.

Lemma at_token_lookup n t : ts !! n = Some t -> at_token (line t) (column t).
Proof. intros Ht. exists t. split_and!; [by eapply list_elem_of_lookup_2 | done..]. Qed.

#[export] Instance current_spec :
  Spec current (fun _ => True)
    (fun n _ t n' => n' = n /\ kind t = kind_at n /\ at_token (line t) (column t)).
Proof.
  token. intros _. unfold wp. rewrite (current_eq _ _ t) by done. cbn.
  split_and!; try done. by eapply at_token_lookup.
Qed.

#[export] Instance current_kind_spec :
  Spec current_kind (fun _ => True) (fun n _ k n' => n' = n /\ k = kind_at n).
Proof.
  token. intros _. unfold wp, current_kind, mbind, parse_bind.
  by rewrite (current_eq _ _ t).
Qed.

#[export] Instance token_at_pos_spec :
  Spec token_at_pos (fun _ => True) (fun n _ t n' => n' = n /\ at_token (line t) (column t)).
Proof.
  token. intros _. unfold wp, token_at_pos. cbn. rewrite Ht. split_and!; try done.
  by eapply at_token_lookup.
Qed.

#[export] Instance is_at_end_spec :
  Spec is_at_end (fun _ => True) (fun n _ c n' => n' = n /\ c = bool_decide (kind_at n = Eof)).
Proof. token. intros _. unfold wp, is_at_end. cbn. by rewrite Ht, Hk. Qed.

#[export] Instance advance_spec :
  Spec advance (fun n => kind_at n <> Eof) (fun n _ t n' => n' = S n /\ kind t = kind_at n).
Proof.
  token. intros Hne. unfold wp, advance. rewrite (current_eq _ _ t) by done.
  pose proof (eof_last n Hn Hne). cbn [p_pos p_tokens].
  apply Nat.ltb_lt in Hn as ->. cbn. by rewrite Nat.add_1_r.
Qed.

#[export] Instance peek_kind_spec :
  Spec peek_kind (fun _ => True) (fun n _ k n' => n' = n /\
    match k with Some k => kind_at (S n) = k | None => True end).
Proof.
  token. intros _. unfold wp, peek_kind. cbn. split_and!; [done.. |].
  unfold kind_at. rewrite Nat.add_1_r. by destruct (ts !! S n).
Qed.

#[export] Instance get_pos_spec : Spec get_pos (fun _ => True) (fun n _ k n' => n' = n /\ k = n).
Proof. token. done. Qed.

#[export] Instance put_pos_spec m : Spec (put_pos m) (fun _ => m < len) (fun n _ _ n' => n' = m).
Proof. token. done. Qed.

#[export] Instance get_inside_transaction_spec :
  Spec get_inside_transaction (fun _ => True) (fun n b c n' => n' = n /\ c = b).
Proof. token. done. Qed.

Lemma wp_put_inside_transaction c n b (Q : unit -> nat -> bool -> Prop) :
  n < len -> Q tt n c -> wp (put_inside_transaction c) n b Q.
Proof. done. Qed.

Lemma wp_unexpected {A} s n b (Q : A -> nat -> bool -> Prop) :
  n < len -> wp (unexpected s) n b Q.
Proof.
  intros Hn. destruct (lookup_kind_at n Hn) as (t & Ht & _). unfold wp, unexpected, mbind, parse_bind.
  rewrite (current_eq _ _ t) by done. by eapply at_token_lookup.
Qed.

End Logic.

Arguments Spec ts {A} m pre post.
Arguments wp_use ts {A} m {pre post _}.
#[export] Hint Mode Spec + + + - - : typeclass_instances.

(** Splits the conjunctions among the hypotheses. *)
Ltac split_hyps :=
  repeat match goal with
  | H : _ /\ _ |- _ => destruct H
  | H : ?P -> _, HP : ?P |- _ => lazymatch type of P with Prop => specialize (H HP) end
  end.

(** Resolves what is decided about the token at a position. *)
Ltac kinds :=
  repeat match goal with
  | H : context [bool_decide ?P] |- _ => case_bool_decide
  | |- context [bool_decide ?P] => case_bool_decide
  | H : _ && _ = true |- _ => apply andb_true_iff in H as [??]
  | H : _ || _ = true |- _ => apply orb_true_iff in H as [?|?]
  | H : negb _ = true |- _ => apply negb_true_iff in H
  | H : negb _ = false |- _ => apply negb_false_iff in H
  | H : Some _ <> None -> _ |- _ => specialize (H ltac:(discriminate)); split_hyps
  | H : true = true -> _ |- _ => specialize (H eq_refl); split_hyps
  end; try congruence.

(** One step through a method body: the goal is [wp ts m n b Q]. *)
Ltac wp_step :=
  lazymatch goal with
  | |- wp _ (mbind _ _) _ _ _ => apply wp_bind
  | |- wp _ (mret _) _ _ _ => apply wp_ret; [lia |]
  | |- wp _ (fail _) _ _ _ => apply wp_fail; solve [cbn; eauto]
  | |- wp _ (unexpected _) _ _ _ => apply wp_unexpected; lia
  | |- wp _ (if ?c then _ else _) _ _ _ => destruct c eqn:?
  | |- wp _ (match ?x with _ => _ end) _ _ _ => destruct x eqn:?; try discriminate; split_hyps
  | |- wp ?ts ?m ?n ?b _ =>
      apply (wp_use ts m); [lia | first [exact I | reflexivity | lia | kinds; fail | split; [lia | assumption || (kinds; fail)] | idtac] |
        cbv beta; let a := fresh "a" in let n' := fresh "n" in
        intros a n' ?; intros; split_hyps; subst; cbv beta; try contradiction]
  end.
Ltac wp_steps := repeat wp_step.

Section Navigation.
Context (ts : list Token) `{!EndsEof ts}.

#[local] Notation len := (length ts).
#[local] Notation kind_at := (kind_at ts).
#[local] Notation Spec := (Spec ts).

(** A kind that [check] and [expect] compare exactly, other than the end. *)
Definition plain (k : TokenKind) : bool :=
  match k with
  | Integer _ | Float _ | StringLiteral _ | Identifier _ | Eof => false
  | _ => true
  end.

Lemma same_discriminant_plain k k' :
  plain k = true -> same_discriminant k' k = bool_decide (k' = k).
Proof. destruct k; try discriminate; intros _; by destruct k'. Qed.

#[export] Instance check_spec k :
  Spec (check k) (fun _ => plain k = true) (fun n _ c n' => n' = n /\ c = bool_decide (kind_at n = k)).
Proof.
  intros n b Hn Hk. unfold check. wp_steps; split_and!; try done.
  - kinds. by replace k with Eof in Hk by congruence.
  - by rewrite same_discriminant_plain.
Qed.

(** A loop: [I] holds before every iteration, [J] when it ends; an iteration
    that does not end the loop advances. *)
Lemma wp_iterate {A} (I J : nat -> A -> Prop) (step : A -> Parse (control A)) a n b
    (Q : A -> nat -> bool -> Prop) :
  n < len -> I n a ->
  (forall a m, n <= m < len -> I m a ->
     wp ts (step a) m b (fun c m' b' => b' = b /\
       match c with
       | Continue a => m < m' /\ I m' a
       | Break a => m <= m' /\ J m' a
       end)) ->
  (forall a m, n <= m < len -> J m a -> Q a m b) ->
  wp ts (iterate step a) n b Q.
Proof.
  intros Hn Ha Hstep HQ. unfold wp, iterate.
  enough (forall fuel a m, len - m < fuel -> n <= m < len -> I m a ->
            wp ts (iterate_fuel fuel step a) m b Q) as Hloop
    by (apply Hloop; [unfold remaining; cbn; lia | lia | done]).
  clear a Ha. intros fuel. induction fuel as [|fuel IH]; intros a m Hf Hm Ha; [lia |].
  cbn [iterate_fuel]. apply wp_bind. eapply wp_mono; [by apply Hstep |].
  intros [a'|a'] m' b' Hm' [-> [Hle Ha']].
  - apply IH; [lia | lia | done].
  - apply wp_ret; [done |]. apply HQ; [lia | done].
Qed.

Lemma wp_while {A} (I : nat -> A -> Prop) cond pre (body : A -> Parse A) a n b
    (test : TokenKind -> bool) (Q : A -> nat -> bool -> Prop) :
  Spec cond pre (fun n _ c n' => n' = n /\ c = test (kind_at n)) ->
  (forall m, pre m) ->
  n < len -> I n a ->
  (forall a m, n <= m < len -> test (kind_at m) = true -> I m a ->
     wp ts (body a) m b (fun a m' b' => b' = b /\ m < m' /\ I m' a)) ->
  (forall a m, n <= m < len -> test (kind_at m) = false -> I m a -> Q a m b) ->
  wp ts (while_do cond body a) n b Q.
Proof.
  intros Hc Hpre Hn Ha Hbody HQ. unfold while_do.
  apply (wp_iterate I (fun m a => test (kind_at m) = false /\ I m a)); [done | done | |].
  - clear a Ha. intros a m Hm Ha. wp_step. wp_step; [apply Hpre |].
    destruct (test (kind_at m)) eqn:Ht.
    + wp_step. eapply wp_mono; [by apply Hbody |]. intros a' m' b' ? (-> & ? & ?). by wp_steps.
    + by wp_steps.
  - intros a' m Hm [? ?]. by apply HQ.
Qed.

#[export] Instance current_is_spec k :
  Spec (current_is k) (fun _ => True) (fun n _ c n' => n' = n /\ c = bool_decide (kind_at n = k)).
Proof. intros n b Hn _. unfold current_is. by wp_steps. Qed.

#[export] Instance until_spec k :
  Spec (until k) (fun _ => plain k = true)
    (fun n _ c n' => n' = n /\ c = negb (bool_decide (kind_at n = k)) && negb (bool_decide (kind_at n = Eof))).
Proof. intros n b Hn Hk. unfold until. wp_steps; by kinds. Qed.

#[export] Instance skip_newlines_spec :
  Spec skip_newlines (fun _ => True) (fun n _ _ n' => n <= n').
Proof.
  intros n b Hn _. unfold skip_newlines.
  apply (wp_while (fun _ _ => True) _ (fun _ => True) _ _ _ _ (fun k => bool_decide (k = Newline)));
    [| done | done | done | |].
  - intros m b' Hm _. wp_steps; split_and!; try done; kinds.
  - intros _ m Hm Hk _. wp_steps. split_and!; [done | lia | done].
  - intros _ m Hm _ _. split; [done | lia].
Qed.

#[export] Instance expect_spec k :
  Spec (expect k) (fun _ => plain k = true)
    (fun n _ t n' => n' = S n /\ kind t = kind_at n /\ kind_at n = k).
Proof.
  intros n b Hn Hk. unfold expect. wp_steps.
  rewrite same_discriminant_plain in * by done. kinds. by split_and!.
Qed.

Lemma keyword_not_eof w k : keyword_lookup w = Some k -> k <> Eof.
Proof.
  intros H ->. pose proof (LexerFacts.read_identifier_kind w) as [_ He].
  apply He. unfold Lexer.word_kind. by rewrite H.
Qed.

#[export] Instance reserved_word_as_name_spec :
  Spec reserved_word_as_name (fun _ => True)
    (fun n _ w n' => n' = n /\ (w <> None -> kind_at n <> Eof)).
Proof.
  intros n b Hn _. unfold reserved_word_as_name. wp_steps. split_and!; try done.
  case_bool_decide as Hk; [| done]. intros _.
  match goal with H : kind _ = _ |- _ => rewrite <- H end. by eapply keyword_not_eof.
Qed.

#[export] Instance is_reserved_word_token_spec :
  Spec is_reserved_word_token (fun _ => True)
    (fun n _ w n' => n' = n /\ (w = true -> kind_at n <> Eof)).
Proof. intros n b Hn _. unfold is_reserved_word_token. wp_steps; split_and!; naive_solver. Qed.

#[export] Instance expect_identifier_spec :
  Spec expect_identifier (fun _ => True) (fun n _ _ n' => n' = S n).
Proof.
  intros n b Hn _. unfold expect_identifier. by wp_steps.
Qed.

#[export] Instance expect_name_spec :
  Spec expect_name (fun _ => True) (fun n _ _ n' => n' = S n).
Proof.
  intros n b Hn _. unfold expect_name. wp_steps; try done; naive_solver.
Qed.

#[export] Instance check_identifier_lexeme_spec s :
  Spec (check_identifier_lexeme s) (fun _ => True)
    (fun n _ c n' => n' = n /\ c = bool_decide (kind_at n = Identifier s)).
Proof. intros n b Hn _. unfold check_identifier_lexeme. by wp_steps. Qed.

#[export] Instance check_next_identifier_lexeme_spec s :
  Spec (check_next_identifier_lexeme s) (fun _ => True) (fun n _ _ n' => n' = n).
Proof. intros n b Hn _. unfold check_next_identifier_lexeme. by wp_steps. Qed.

#[export] Instance expect_identifier_lexeme_spec s :
  Spec (expect_identifier_lexeme s) (fun _ => True) (fun n _ _ n' => n' = S n).
Proof. intros n b Hn _. unfold expect_identifier_lexeme. by wp_steps. Qed.

#[export] Instance expect_integer_spec :
  Spec expect_integer (fun _ => True) (fun n _ _ n' => n' = S n).
Proof. intros n b Hn _. unfold expect_integer. by wp_steps. Qed.

#[export] Instance expect_string_spec :
  Spec expect_string (fun _ => True) (fun n _ _ n' => n' = S n).
Proof. intros n b Hn _. unfold expect_string. by wp_steps. Qed.

(** The two conditional advances. *)
Lemma wp_if_check {A} k (f other : Parse A) n b Q :
  n < len -> plain k = true ->
  (kind_at n = k -> S n < len -> wp ts f (S n) b Q) ->
  (kind_at n <> k -> wp ts other n b Q) ->
  wp ts (if_check k f other) n b Q.
Proof.
  intros Hn Hk Hf Ho. unfold if_check. wp_step. wp_step. wp_step; kinds; [| by apply Ho].
  assert (kind_at n <> Eof) by (destruct k; (discriminate || congruence)).
  wp_step. wp_step. by apply Hf.
Qed.

Lemma wp_if_current {A} k (f other : Parse A) n b Q :
  n < len -> plain k = true ->
  (kind_at n = k -> S n < len -> wp ts f (S n) b Q) ->
  (kind_at n <> k -> wp ts other n b Q) ->
  wp ts (if_current k f other) n b Q.
Proof.
  intros Hn Hk Hf Ho. unfold if_current. wp_step. wp_step. wp_step; kinds; [| by apply Ho].
  assert (kind_at n <> Eof) by (destruct k; (discriminate || congruence)).
  wp_step. wp_step. by apply Hf.
Qed.
End Navigation.

Ltac wp_step ::=
  lazymatch goal with
  | |- wp _ (mbind _ _) _ _ _ => apply wp_bind
  | |- wp _ (mret _) _ _ _ => apply wp_ret; [lia |]
  | |- wp _ (fail _) _ _ _ => apply wp_fail; solve [cbn; eauto]
  | |- wp _ (unexpected _) _ _ _ => apply wp_unexpected; lia
  | |- wp _ (if_check _ _ _) _ _ _ => apply wp_if_check; [assumption | lia | reflexivity | intros ? ? | intros ?]
  | |- wp _ (if_current _ _ _) _ _ _ =>
      apply wp_if_current; [assumption | lia | reflexivity | intros ? ? | intros ?]
  | |- wp _ (if ?c then _ else _) _ _ _ => destruct c eqn:?
  | |- wp _ (match ?x with _ => _ end) _ _ _ => destruct x eqn:?; try discriminate; split_hyps
  | |- wp ?ts ?m ?n ?b _ =>
      apply (wp_use ts m); [lia | first [exact I | reflexivity | lia | kinds; fail | split; [lia | assumption || (kinds; fail)] | idtac] |
        cbv beta; let a := fresh "a" in let n' := fresh "n" in
        intros a n' ?; intros; split_hyps; subst; cbv beta; try contradiction]
  end.
