(* ===== verification/ParserFacts.v ===== *)
(** The specification of every method of the parser: it does not panic, its
    recursion needs no more fuel than there are tokens, and the tree it returns
    is [well_formed]. *)
From stdpp Require Import base list strings.
From Stdlib Require Import ZArith Lia.
From S2P Require Import Prelude RustStr F64 Token Errors Ast ParserState Parser ParserStatements ParserLogic.

(** * Well-formed trees *)

(** A list of stages as the parser builds it: not empty, and [rescue] only last. *)
Definition is_rescue (s : PipelineStage) : bool :=
  match s with PSRescue _ => true | _ => false end.
Definition stages_ok (stages : list PipelineStage) : bool :=
  match rev stages with
  | [] => false
  | _ :: earlier => negb (existsb is_rescue earlier)
  end.

Fixpoint enum_values_ok (values : list string) : bool :=
  match values with
  | [] => true
  | v :: values =>
      negb (String.eqb v EmptyString) && negb (existsb (String.eqb v) values)
      && enum_values_ok values
  end.

Fixpoint schema_type_ok (t : SchemaType) : bool :=
  match t with
  | EnumType values => negb (bool_decide (values = [])) && enum_values_ok values
  | TypedList inner => schema_type_ok inner
  | _ => true
  end.

Definition exportable (s : Statement) : bool :=
  match s with
  | STaskDef _ _ _ _ _ | SSchema _ _ _ _ _ | SAssignment _ _ _ _
  | SConditionalAssignment _ _ _ _ _ => true
  | _ => false
  end.

Definition statement_ok (in_transaction : bool) (s : Statement) : bool :=
  match s with
  | STransaction _ _ _ => negb in_transaction
  | SExport inner => exportable inner
  | SSchema _ _ fields _ _ => forallb (fun f => schema_type_ok (field_type f)) fields
  | SOnTopic target _ _ _ _ _ =>
      match wildcard_topic true target with Some _ => false | None => true end
  | SScenario _ steps _ _ =>
      (length (List.filter is_when steps) =? 1) && existsb is_then steps
  | _ => true
  end.

Definition expression_ok (e : Expression) : bool :=
  match e with
  | EPipeline _ stages => stages_ok stages
  | EHttpClientResponseSchema call _ => is_http_client_method_call call
  | _ => true
  end.

Definition node_ok (in_transaction : bool) (n : node) : bool :=
  match n with
  | NStatement s => statement_ok in_transaction s
  | NExpression e => expression_ok e
  | _ => true
  end.

Definition is_transaction (n : node) : bool :=
  match n with NStatement (STransaction _ _ _) => true | _ => false end.

Inductive well_formed : bool -> node -> Prop :=
| well_formed_node in_transaction n :
    node_ok in_transaction n = true ->
    (forall c, c ∈ children n ->
       well_formed (if is_transaction n then true else in_transaction) c) ->
    well_formed in_transaction n.

Lemma well_formed_intro b n :
  node_ok b n = true ->
  Forall (well_formed (if is_transaction n then true else b)) (children n) -> well_formed b n.
Proof. intros H Hc. constructor; [done |]. by apply Forall_forall. Qed.

Lemma well_formed_inv b n :
  well_formed b n ->
  node_ok b n = true /\ Forall (well_formed (if is_transaction n then true else b)) (children n).
Proof. destruct 1. split; [done | by apply Forall_forall]. Qed.

#[export] Instance parse_as_schema_name_spec ts `{!EndsEof ts} :
  Spec ts parse_as_schema_name (fun _ => True) (fun n _ _ n' => n <= n').
Proof. intros n b Hn _. unfold parse_as_schema_name. wp_steps; split; (done || lia). Qed.

#[export] Instance parse_as_identifier_spec ts `{!EndsEof ts} :
  Spec ts parse_as_identifier (fun _ => True) (fun n _ _ n' => n <= n').
Proof. intros n b Hn _. unfold parse_as_identifier. wp_steps; split; (done || lia). Qed.

(** Splits what [well_formed] demands of a node into its children. *)
Ltac wf :=
  repeat first
    [ assumption
    | match goal with
      | |- well_formed _ (_ _) => apply well_formed_intro; [first [reflexivity | assumption] | cbn]
      | |- Forall _ (map _ (_ ++ _)) => rewrite map_app
      | |- Forall _ (map _ (_ :: _)) => cbn [map]
      | |- Forall _ (map _ []) => constructor
      | |- Forall _ (_ ++ _) => apply Forall_app; split
      | |- Forall _ (_ :: _) => constructor
      | |- Forall _ [] => constructor
      end ].

Ltac wp_done := intros; cbn; repeat match goal with |- _ /\ _ => split end;
  intros; split_hyps; try discriminate; try reflexivity; try lia; wf.

(** The methods that recurse: [N] bounds the tokens the recursive calls may see. *)
Section Expressions.
Context (ts : list Token) `{!EndsEof ts} (N : nat) (rec : Rec).

#[local] Notation len := (length ts).
#[local] Notation kind_at := (kind_at ts).
#[local] Notation below := (fun n => len - n <= N).
#[local] Notation Spec := (Spec ts).

(** What the recursive entry points promise. *)
Class RecSpec : Prop := {
  rec_expression_spec prec :
    Spec (rec_expression rec prec) below (fun n b e n' => n < n' /\ well_formed b (NExpression e));
  rec_statement_spec :
    Spec (rec_statement rec) below (fun n b s n' => n < n' /\ well_formed b (NStatement s));
  rec_if_expression_spec :
    Spec (rec_if_expression rec) (fun n => len - n <= N /\ kind_at n <> Eof)
      (fun n b e n' => n < n' /\ well_formed b (NExpression e));
}.
#[export] Existing Instances rec_expression_spec rec_statement_spec rec_if_expression_spec.
Context `{!RecSpec}.

#[export] Instance parse_queue_producer_args_spec :
  Spec (parse_queue_producer_args rec) below (fun n b '(e, _, o) n' =>
    n < n' /\ well_formed b (NExpression e) /\ Forall (well_formed b) (opt_node NExpression o)).
Proof.
  intros n b Hn Hb. unfold parse_queue_producer_args. wp_steps; wp_done.
Qed.

#[export] Instance named_argument_name_spec :
  Spec named_argument_name (fun _ => True)
    (fun n b w n' => n' = n /\ (w <> None -> kind_at n <> Eof /\ kind_at (S n) = Colon)).
Proof.
  intros n b Hn _. unfold named_argument_name. wp_steps; kinds; split_and!; try done;
  destruct a; naive_solver congruence.
Qed.

#[export] Instance parse_argument_list_spec :
  Spec (parse_argument_list rec) below
    (fun n b args n' => n <= n' /\ Forall (well_formed b) (map NArgument args)).
Proof.
  intros n b Hn Hb. unfold parse_argument_list. wp_steps; [split_and!; [done | lia | wf] |].
  apply (wp_iterate _ (fun _ args => Forall (well_formed b) (map NArgument args))
    (fun _ args => Forall (well_formed b) (map NArgument args))); [lia | wf | |].
  - intros args m Hm Ha. unfold parse_argument. wp_steps; first [kinds; fail | wp_done].
  - wp_done.
Qed.

#[local] Notation open k := (fun k' => negb (bool_decide (k' = k)) && negb (bool_decide (k' = Eof))).

Lemma wp_until {A} (I : A -> Prop) k (body : A -> Parse A) a n b (Q : A -> nat -> bool -> Prop) :
  plain k = true -> n < len -> I a ->
  (forall a m, n <= m < len -> kind_at m <> Eof -> I a ->
     wp ts (body a) m b (fun a m' b' => b' = b /\ m < m' /\ I a)) ->
  (forall a m, n <= m < len -> I a -> Q a m b) ->
  wp ts (while_do (until k) body a) n b Q.
Proof.
  intros Hk Hn Ha Hbody HQ.
  eapply (wp_while _ (fun _ => I) _ _ _ _ _ _ (open k)); [by apply until_spec | | done | done | |].
  - done.
  - intros a' m Hm Ht Ha'. apply Hbody; [done | kinds | done].
  - intros a' m Hm _ Ha'. by apply HQ.
Qed.

#[export] Instance parse_list_literal_spec :
  Spec (parse_list_literal rec) (fun n => len - n <= S N /\ kind_at n <> Eof)
    (fun n b e n' => n < n' /\ well_formed b (NExpression e)).
Proof.
  intros n b Hn [Hb Hk]. unfold parse_list_literal. wp_step. wp_step. wp_step.
  apply (wp_until (fun items => Forall (well_formed b) (map NExpression items)));
    [done | lia | wf | |].
  - intros items m Hm _ Hi. wp_steps; wp_done.
  - intros items m Hm Hi. wp_steps. wp_done.
Qed.

#[export] Instance parse_entry_spec :
  Spec (parse_entry rec) below
    (fun n b kv n' => n < n' /\ well_formed b (NExpression (snd kv))).
Proof. intros n b Hn Hb. unfold parse_entry. wp_steps; wp_done. Qed.

#[export] Instance parse_map_literal_spec :
  Spec (parse_map_literal rec) (fun n => len - n <= S N /\ kind_at n <> Eof)
    (fun n b e n' => n < n' /\ well_formed b (NExpression e)).
Proof.
  intros n b Hn [Hb Hk]. unfold parse_map_literal. wp_step. wp_step. wp_step.
  apply (wp_until (fun kvs => Forall (well_formed b) (map (fun kv => NExpression (snd kv)) kvs)));
    [done | lia | wf | |].
  - intros kvs m Hm _ Hi. wp_steps; wp_done.
  - intros kvs m Hm Hi. wp_steps. wp_done.
Qed.

#[export] Instance parse_schema_constructor_spec s :
  Spec (parse_schema_constructor rec s) (fun n => len - n <= S N)
    (fun n b e n' => n < n' /\ well_formed b (NExpression e)).
Proof.
  intros n b Hn Hb. unfold parse_schema_constructor. wp_step. wp_step. wp_step.
  set (I := fun (_ : nat) (kvs : list (string * Expression)) =>
              Forall (well_formed b) (map (fun kv => NExpression (snd kv)) kvs)).
  apply (wp_iterate _ I I); [lia | unfold I; wf | unfold I | unfold I].
  - intros kvs m Hm Hi. unfold parse_constructor_field. wp_steps; wp_done.
  - intros kvs m Hm Hi. wp_steps. wp_done.
Qed.

(** ** Blocks, match and if *)

#[export] Instance block_items_spec {A} (item : Parse A) (f : A -> node) :
  Spec item below (fun n b x n' => n < n' /\ well_formed b (f x)) ->
  Spec (block_items item) below
    (fun n b l n' => n <= n' /\ Forall (well_formed b) (map f l)).
Proof.
  intros Hitem n b Hn Hb. unfold block_items. wp_step. wp_step.
  apply (wp_until (fun l => Forall (well_formed b) (map f l))); [done | lia | wf | |].
  - intros l m Hm _ Hl. wp_steps; wp_done.
  - wp_done.
Qed.

Lemma split_final_wf b l :
  Forall (well_formed b) (map NStatement l) -> well_formed b (NTaskBody (split_final l)).
Proof.
  intros Hl. pose proof Hl as Hs. unfold split_final. rewrite <- (rev_involutive l) in Hs.
  destruct (rev l) as [|s earlier]; [wf |].
  cbn in Hs. rewrite map_app, Forall_app in Hs. destruct Hs as [He Hs].
  apply Forall_cons in Hs as [Hs _]. destruct s; wf.
  apply well_formed_inv in Hs as [_ Hs]. by inversion Hs.
Qed.

#[export] Instance parse_expression_block_body_spec :
  Spec (parse_expression_block_body rec) (fun n => len - n <= S N)
    (fun n b t n' => n < n' /\ well_formed b (NTaskBody t)).
Proof.
  intros n b Hn Hb. unfold parse_expression_block_body. wp_steps.
  split; [done |]. split; [lia | by apply split_final_wf].
Qed.

#[export] Instance parse_task_like_body_spec :
  Spec (parse_task_like_body rec) (fun n => len - n <= S N)
    (fun n b t n' => n < n' /\ well_formed b (NTaskBody t)).
Proof. intros n b Hn Hb. unfold parse_task_like_body. wp_steps; wp_done. Qed.

#[export] Instance parse_match_arm_spec :
  Spec (parse_match_arm rec) below (fun n b a n' => n < n' /\ well_formed b (NMatchArm a)).
Proof. intros n b Hn Hb. unfold parse_match_arm. wp_steps; wp_done. Qed.

#[export] Instance parse_match_expression_spec :
  Spec (parse_match_expression rec) (fun n => len - n <= S N /\ kind_at n <> Eof)
    (fun n b e n' => n < n' /\ well_formed b (NExpression e)).
Proof. intros n b Hn [Hb Hk]. unfold parse_match_expression. wp_steps; wp_done. Qed.

#[export] Instance parse_if_expression_spec :
  Spec (parse_if_expression rec) (fun n => len - n <= S N /\ kind_at n <> Eof)
    (fun n b e n' => n < n' /\ well_formed b (NExpression e)).
Proof. intros n b Hn [Hb Hk]. unfold parse_if_expression. wp_steps; wp_done. Qed.

(** ** Pipelines *)

Lemma stages_ok_intro stages :
  stages <> [] -> existsb is_rescue stages = false -> stages_ok stages = true.
Proof.
  intros Hne Hr. unfold stages_ok. destruct (rev stages) as [|s earlier] eqn:Hrev.
  - apply (f_equal (@rev _)) in Hrev. by rewrite rev_involutive in Hrev.
  - apply negb_true_iff, not_true_iff_false. intros (x & Hx & Hres)%existsb_exists.
    apply not_true_iff_false in Hr. apply Hr, existsb_exists. exists x. split; [| done].
    rewrite in_rev, Hrev. by right.
Qed.

Lemma stages_ok_snoc stages s :
  existsb is_rescue stages = false -> stages_ok (stages ++ [s]) = true.
Proof.
  intros Hr. unfold stages_ok. rewrite rev_app_distr. cbn.
  apply negb_true_iff, not_true_iff_false. intros (x & Hx & Hres)%existsb_exists.
  apply not_true_iff_false in Hr. apply Hr, existsb_exists. exists x. by rewrite in_rev.
Qed.

#[export] Instance parse_map_statement_spec :
  Spec (parse_map_statement rec) below (fun n b m n' => n < n' /\ well_formed b (NMapStatement m)).
Proof. intros n b Hn Hb. unfold parse_map_statement. wp_steps; wp_done. Qed.

#[export] Instance parse_map_stage_spec :
  Spec (parse_map_stage rec) (fun n => len - n <= S N /\ kind_at n <> Eof)
    (fun n b s n' => n < n' /\ well_formed b (NPipelineStage s) /\ is_rescue s = false).
Proof. intros n b Hn [Hb Hk]. unfold parse_map_stage. wp_steps; wp_done. Qed.

#[export] Instance parse_reduce_stage_spec :
  Spec (parse_reduce_stage rec) (fun n => len - n <= S N /\ kind_at n <> Eof)
    (fun n b s n' => n < n' /\ well_formed b (NPipelineStage s) /\ is_rescue s = false).
Proof. intros n b Hn [Hb Hk]. unfold parse_reduce_stage. wp_steps; wp_done. Qed.

#[export] Instance parse_rescue_stage_spec :
  Spec (parse_rescue_stage rec) (fun n => len - n <= S N /\ kind_at n <> Eof)
    (fun n b s n' => n < n' /\ well_formed b (NPipelineStage s)).
Proof. intros n b Hn [Hb Hk]. unfold parse_rescue_stage. wp_steps; wp_done. Qed.

#[export] Instance parse_stage_spec :
  Spec (parse_stage rec) below (fun n b '(s, more) n' =>
    n < n' /\ well_formed b (NPipelineStage s) /\ (more = true -> is_rescue s = false)).
Proof. intros n b Hn Hb. unfold parse_stage. wp_steps; wp_done. Qed.

#[export] Instance parse_pipeline_stages_spec input :
  Spec (parse_pipeline_stages rec input) (fun n => len - n <= S N /\ kind_at n = Pipeline)
    (fun n b e n' => n < n' /\
       (well_formed b (NExpression input) -> well_formed b (NExpression e))).
Proof.
  intros n b Hn [Hb Hk]. unfold parse_pipeline_stages. wp_step.
  apply (wp_iterate _
    (fun m stages => Forall (well_formed b) (map NPipelineStage stages) /\
       existsb is_rescue stages = false /\ (m = n \/ stages <> [] /\ n < m))
    (fun m stages => Forall (well_formed b) (map NPipelineStage stages) /\
       stages_ok stages = true /\ n < m)); [lia | split_and!; [wf | done | lia] | |].
  - intros stages m Hm (Hs & Hr & Hne). unfold parse_pipeline_stage. wp_steps.
    + destruct Hne as [-> | [Hne ?]]; [kinds |]. split_and!; [done | lia | done | | lia].
      by apply stages_ok_intro.
    + split_and!; [done | lia | wf | | right; split; [by destruct stages | lia]].
      rewrite existsb_app, Hr. cbn. rewrite orb_false_r. by auto.
    + split_and!; [done | lia | wf | by apply stages_ok_snoc | lia].
  - intros stages m Hm (Hs & Hok & Hlt). wp_steps. split_and!; [done | lia |]. intros Hi.
    wf.
Qed.

#[export] Instance parse_broadcast_spec input :
  Spec (parse_broadcast rec input) (fun n => len - n <= S N /\ kind_at n <> Eof)
    (fun n b e n' => n < n' /\
       (well_formed b (NExpression input) -> well_formed b (NExpression e))).
Proof.
  intros n b Hn [Hb Hk]. unfold parse_broadcast. wp_steps; [| wp_done].
  eapply (wp_while _ (fun m targets => Forall (well_formed b) (map NExpression targets)) _ _ _ _ _ _
            (fun k => bool_decide (k = Arrow))); [by apply check_spec | done | lia | wf | |].
  - intros targets m Hm Ht Hi. wp_steps; wp_done.
  - intros targets m Hm _ Hi. wp_steps; wp_done.
Qed.

(** ** Operators *)

#[export] Instance current_infix_precedence_spec :
  Spec current_infix_precedence (fun _ => True)
    (fun n _ k n' => n' = n /\ k = infix_precedence (kind_at n)).
Proof.
  intros n b Hn _. unfold current_infix_precedence. wp_steps; [| by wp_steps].
  split; [done |]. kinds. split; [done |]. by replace (kind_at n) with Eof.
Qed.

#[export] Instance token_to_binop_spec :
  Spec token_to_binop (fun _ => True) (fun n _ _ n' => n' = n).
Proof. intros n b Hn _. unfold token_to_binop. by wp_steps. Qed.

#[export] Instance parse_in_spec left prec :
  Spec (parse_in rec left prec) (fun n => len - n <= S N /\ kind_at n <> Eof)
    (fun n b e n' => n < n' /\
       (well_formed b (NExpression left) -> well_formed b (NExpression e))).
Proof. intros n b Hn [Hb Hk]. unfold parse_in. wp_steps; wp_done. Qed.

#[export] Instance parse_binary_spec left prec :
  Spec (parse_binary rec left prec) (fun n => len - n <= S N /\ kind_at n <> Eof)
    (fun n b e n' => n < n' /\
       (well_formed b (NExpression left) -> well_formed b (NExpression e))).
Proof. intros n b Hn [Hb Hk]. unfold parse_binary. wp_steps; wp_done. Qed.

#[export] Instance parse_subscript_spec left :
  Spec (parse_subscript rec left) (fun n => len - n <= S N /\ kind_at n <> Eof)
    (fun n b e n' => n < n' /\
       (well_formed b (NExpression left) -> well_formed b (NExpression e))).
Proof. intros n b Hn [Hb Hk]. unfold parse_subscript. wp_steps; wp_done. Qed.

#[export] Instance parse_member_spec left :
  Spec (parse_member rec left) (fun n => len - n <= S N /\ kind_at n <> Eof)
    (fun n b e n' => n < n' /\
       (well_formed b (NExpression left) -> well_formed b (NExpression e))).
Proof. intros n b Hn [Hb Hk]. unfold parse_member. wp_steps; wp_done. Qed.

(** An infix method advances exactly when the token has a precedence. *)
#[export] Instance parse_infix_spec left prec :
  Spec (parse_infix rec left prec)
    (fun n => len - n <= S N /\ infix_precedence (kind_at n) <> 0)
    (fun n b e n' => n < n' /\
       (well_formed b (NExpression left) -> well_formed b (NExpression e))).
Proof.
  intros n b Hn [Hb Hk]. unfold parse_infix. wp_step. wp_step.
  destruct (kind_at n) eqn:Hkn; try (exfalso; exact (Hk eq_refl)); wp_steps; try wp_done.
  exfalso. apply Hk. unfold infix_precedence. by rewrite Heqb0.
Qed.

#[export] Instance parse_operator_spec min_prec left :
  Spec (parse_operator rec min_prec left) (fun n => len - n <= S N)
    (fun n b c n' => n <= n' /\
       match c with
       | Continue e => n < n' /\ (well_formed b (NExpression left) -> well_formed b (NExpression e))
       | Break e => e = left
       end).
Proof.
  intros n b Hn Hb. unfold parse_operator. wp_steps; try wp_done.
  - apply Nat.leb_gt in Heqb1. lia.
Qed.

#[export] Instance parse_modifiers_spec min_prec left :
  Spec (parse_modifiers rec min_prec left) below
    (fun n b e n' => n <= n' /\
       (well_formed b (NExpression left) -> well_formed b (NExpression e))).
Proof.
  intros n b Hn Hb. unfold parse_modifiers. wp_steps; kinds; wp_done.
Qed.

(** ** Prefixes *)

#[export] Instance parse_queue_push_spec :
  Spec (parse_queue_push rec) (fun n => len - n <= S N)
    (fun n b e n' => n < n' /\ well_formed b (NExpression e)).
Proof. intros n b Hn Hb. unfold parse_queue_push. wp_steps; wp_done. Qed.

#[export] Instance parse_topic_publish_spec :
  Spec (parse_topic_publish rec) (fun n => len - n <= S N)
    (fun n b e n' => n < n' /\ well_formed b (NExpression e)).
Proof. intros n b Hn Hb. unfold parse_topic_publish. wp_steps; wp_done. Qed.

#[export] Instance parse_identifier_expression_spec name :
  Spec (parse_identifier_expression rec name) (fun n => len - n <= S N /\ kind_at n <> Eof)
    (fun n b e n' => n < n' /\ well_formed b (NExpression e)).
Proof. intros n b Hn [Hb Hk]. unfold parse_identifier_expression. wp_steps; wp_done. Qed.

#[export] Instance parse_fail_expression_spec :
  Spec (parse_fail_expression rec) (fun n => len - n <= S N /\ kind_at n <> Eof)
    (fun n b e n' => n < n' /\ well_formed b (NExpression e)).
Proof. intros n b Hn [Hb Hk]. unfold parse_fail_expression. wp_steps; wp_done. Qed.

#[export] Instance parse_task_call_spec :
  Spec parse_task_call (fun n => kind_at n <> Eof /\ kind_at (S n) = LeftParen)
    (fun n b e n' => n < n' /\ well_formed b (NExpression e)).
Proof. intros n b Hn [Hb Hk]. unfold parse_task_call. wp_steps; wp_done. Qed.

#[export] Instance parse_prefix_spec :
  Spec (parse_prefix rec) (fun n => len - n <= S N)
    (fun n b e n' => n < n' /\ well_formed b (NExpression e)).
Proof.
  intros n b Hn Hb. unfold parse_prefix. wp_step. wp_step. wp_step. wp_step.
  destruct (kind_at n) eqn:Hkn; cbn [keyword_identifier]; wp_steps; try wp_done; [congruence |].
  apply bool_decide_eq_true in Heqb0. by subst.
Qed.

(** An expression can start with any token of the rest: it is the caller that
    has advanced. *)
#[export] Instance parse_expression_spec min_prec :
  Spec (parse_expression rec min_prec) (fun n => len - n <= S N)
    (fun n b e n' => n < n' /\ well_formed b (NExpression e)).
Proof.
  intros n b Hn Hb. unfold parse_expression. wp_step. wp_step. wp_step.
  set (I := fun (_ : nat) e => well_formed b (NExpression e)).
  apply (wp_iterate _ I I); [lia | done | |]; unfold I.
  - intros left m Hm Hl. wp_steps. split; [done |]. split_hyps.
    match goal with |- match ?c with _ => _ end => destruct c end; split_hyps; subst; wp_done.
  - intros left m Hm Hl. wp_step. wp_done.
Qed.

#[export] Instance maybe_parse_pipeline_spec e :
  Spec (maybe_parse_pipeline rec e) (fun n => len - n <= S N)
    (fun n b e' n' => n <= n' /\
       (well_formed b (NExpression e) -> well_formed b (NExpression e'))).
Proof.
  intros n b Hn Hb. unfold maybe_parse_pipeline. wp_steps; try wp_done;
    apply bool_decide_eq_true in Heqb2 as ->; done.
Qed.

End Expressions.
