(* ===== verification/ParserSound.v ===== *)
(** The specification of the statement methods of the parser, and what the
    whole parser guarantees. *)
From stdpp Require Import base list strings.
From Stdlib Require Import ZArith Lia.
From S2P Require Import Prelude RustStr F64 Token Errors Ast ParserState Parser ParserStatements ParserLogic ParserFacts.

(** * Types, schemas and bindings *)

Lemma enum_values_ok_snoc values v :
  enum_values_ok values = true -> String.eqb v EmptyString = false ->
  existsb (String.eqb v) values = false -> enum_values_ok (values ++ [v]) = true.
Proof.
  intros Hok Hv. induction values as [|w values IH]; cbn in *; [by rewrite Hv |].
  intros [Hw Hin]%orb_false_iff. apply andb_true_iff in Hok as [[Hw1 Hw2]%andb_true_iff Hok].
  rewrite existsb_app, IH by done. cbn. rewrite (String.eqb_sym w v), Hw.
  apply negb_true_iff in Hw2 as ->. by rewrite Hw1.
Qed.

Section Bindings.
Context (ts : list Token) `{!EndsEof ts}.
#[local] Notation len := (length ts).
#[local] Notation kind_at := (kind_at ts).
#[local] Notation Spec := (Spec ts).

#[export] Instance parse_enum_schema_type_spec :
  Spec parse_enum_schema_type (fun n => kind_at n <> Eof)
    (fun n b t n' => n < n' /\ schema_type_ok t = true).
Proof.
  intros n b Hn Hk. unfold parse_enum_schema_type. do 8 wp_step. wp_step; [wp_step |]. wp_step.
  apply (wp_iterate _ (fun _ values => enum_values_ok values = true)
    (fun _ values => values <> [] /\ enum_values_ok values = true)); [lia | done | |].
  - intros values m Hm Hv. unfold parse_enum_value. wp_steps; split_and!; try lia;
      first [done | by destruct values | by apply enum_values_ok_snoc].
  - intros values m Hm [Hne Hv]. wp_steps. split_and!; [done | lia |]. cbn. rewrite Hv.
    by destruct values.
Qed.

Lemma simple_type_ok k t : simple_type k = Some t -> k <> Eof /\ schema_type_ok t = true.
Proof.
  destruct k; cbn; try discriminate; try (intros [= <-]; done).
  repeat case_match; intros; by simplify_eq.
Qed.

#[export] Instance parse_schema_type_spec :
  Spec parse_schema_type (fun _ => True)
    (fun n b t n' => n < n' /\ schema_type_ok t = true).
Proof.
  intros n b Hn _. unfold wp, parse_schema_type.
  enough (forall fuel n, len - n < fuel -> n < len ->
    wp ts (parse_schema_type_fuel fuel) n b
      (fun t n' b' => b' = b /\ n < n' /\ schema_type_ok t = true)) as Hfuel
    by (apply Hfuel; unfold remaining; cbn; lia).
  clear n Hn. intros fuel. induction fuel as [|fuel IH]; intros n Hf Hn; [lia |].
  cbn [parse_schema_type_fuel]. wp_step. wp_step.
  destruct (simple_type (kind_at n)) as [t|] eqn:Ht.
  - apply simple_type_ok in Ht as [Hk Ht]. wp_steps; wp_done.
  - destruct (kind_at n) eqn:Hk; try (apply wp_unexpected; lia).
    wp_step; [wp_step; wp_done |]. wp_step; [| wp_steps; wp_done].
    wp_step. wp_step. wp_step; [| wp_steps; wp_done].
    wp_step. eapply wp_mono; [apply IH; lia |].
    intros t n' b' Hn' (-> & Hlt & Hok). wp_steps. wp_done.
Qed.

#[export] Instance parse_schema_spec :
  Spec parse_schema (fun n => kind_at n <> Eof)
    (fun n b s n' => n < n' /\ well_formed b (NStatement s) /\ exportable s = true).
Proof.
  intros n b Hn Hk. unfold parse_schema. do 15 wp_step.
  apply (wp_until _ (fun body => forallb (fun f => schema_type_ok (field_type f)) (snd body) = true));
    [done | lia | done | |].
  - intros [db fields] m Hm _ Hf. unfold parse_schema_line. wp_steps;
      split_and!; try lia; try done; cbn in *.
    rewrite forallb_app, Hf. cbn. by rewrite andb_true_r.
  - intros [db fields] m Hm Hf. wp_steps. wp_done.
Qed.

#[export] Instance parse_param_spec : Spec parse_param (fun _ => True) (fun n _ _ n' => n < n').
Proof. intros n b Hn _. unfold parse_param. wp_steps; wp_done. Qed.

#[export] Instance parse_param_list_spec :
  Spec parse_param_list (fun _ => True) (fun n _ _ n' => n <= n').
Proof.
  intros n b Hn _. unfold parse_param_list. wp_step. wp_step. wp_step; [wp_steps; wp_done |].
  wp_step. wp_step.
  eapply (wp_while _ (fun _ _ => True) _ _ _ _ _ _ (fun k => bool_decide (k = Comma)));
    [by apply check_spec | done | lia | done | |].
  - intros params m Hm Ht _. wp_steps; wp_done.
  - wp_done.
Qed.

#[export] Instance parse_take_bindings_spec :
  Spec parse_take_bindings (fun _ => True) (fun n _ _ n' => n < n').
Proof.
  intros n b Hn _. unfold parse_take_bindings.
  apply (wp_iterate _ (fun m _ => n <= m) (fun m _ => n < m)); [lia | done | |].
  - intros bindings m Hm _. unfold parse_take_binding. wp_steps; wp_done.
  - wp_done.
Qed.

#[export] Instance parse_http_verb_spec :
  Spec parse_http_verb (fun _ => True) (fun n _ _ n' => n < n').
Proof. intros n b Hn _. unfold parse_http_verb. wp_steps; wp_done. Qed.

#[export] Instance parse_nack_spec :
  Spec parse_nack (fun n => kind_at n <> Eof)
    (fun n b s n' => n < n' /\ well_formed b (NStatement s)).
Proof. intros n b Hn Hk. unfold parse_nack. wp_steps; wp_done. Qed.

#[export] Instance parse_route_auth_spec :
  Spec parse_route_auth (fun n => kind_at n <> Eof) (fun n b _ n' => n < n').
Proof. intros n b Hn Hk. unfold parse_route_auth. wp_steps; wp_done. Qed.

End Bindings.

(** * Statements *)

Section Statements.
Context (ts : list Token) `{!EndsEof ts} (N : nat) (rec : Rec) `{!RecSpec ts N rec}.
#[local] Notation len := (length ts).
#[local] Notation kind_at := (kind_at ts).
#[local] Notation Spec := (Spec ts).

(** The specification of a method that starts at its keyword. *)
#[local] Notation StatementSpec m :=
  (Spec m (fun n => len - n <= S N /\ kind_at n <> Eof)
     (fun n b s n' => n < n' /\ well_formed b (NStatement s))).
#[local] Notation StepSpec m :=
  (Spec m (fun n => len - n <= S N /\ kind_at n <> Eof)
     (fun n b s n' => n < n' /\ well_formed b (NScenarioStep s))).

#[local] Ltac statement m := intros n b Hn [Hb Hk]; unfold m; cbv zeta; wp_steps; wp_done.

#[export] Instance parse_assignment_spec :
  Spec (parse_assignment rec) (fun n => len - n <= S N)
    (fun n b s n' => n < n' /\ well_formed b (NStatement s) /\ exportable s = true).
Proof.
  intros n b Hn Hb. unfold parse_assignment, parse_assigned_block. wp_steps; wp_done; kinds.
Qed.

#[export] Instance parse_fail_clause_spec :
  Spec parse_fail_clause (fun _ => True) (fun n b _ n' => n < n').
Proof. intros n b Hn _. unfold parse_fail_clause. wp_steps; wp_done. Qed.

#[export] Instance parse_require_spec : StatementSpec (parse_require rec).
Proof. statement parse_require. Qed.

#[export] Instance parse_reject_spec : StatementSpec (parse_reject rec).
Proof. statement parse_reject. Qed.

#[export] Instance parse_while_spec : StatementSpec (parse_while rec).
Proof. statement parse_while. Qed.

(** The flag is set for the body and reset after it. *)
#[export] Instance parse_transaction_spec : StatementSpec (parse_transaction rec).
Proof.
  intros n b Hn [Hb Hk]. unfold parse_transaction. do 4 wp_step. wp_step; [wp_step |].
  do 6 wp_step. wp_step. apply wp_put_inside_transaction; [lia |].
  do 3 wp_step. apply wp_put_inside_transaction; [lia |]. wp_steps. wp_done.
Qed.

#[export] Instance parse_consumer_binding_spec :
  Spec parse_consumer_binding (fun _ => True) (fun n b _ n' => n < n').
Proof. intros n b Hn _. unfold parse_consumer_binding. wp_steps; wp_done. Qed.

#[export] Instance parse_on_body_spec is_topic line column :
  Spec (parse_on_body rec is_topic line column)
    (fun n => len - n <= S N /\ at_token ts line column)
    (fun n b s n' => n < n' /\ well_formed b (NStatement s)).
Proof.
  intros n b Hn [Hb Hl]. unfold parse_on_body. wp_steps. split; [done |]. split; [lia |].
  destruct is_topic; (apply well_formed_intro; [| cbn; wf]); [| done].
  cbn [node_ok statement_ok]. by rewrite Heqo.
Qed.

#[export] Instance parse_on_spec : StatementSpec (parse_on rec).
Proof. statement parse_on. Qed.

#[export] Instance parse_scenario_given_spec : StepSpec (parse_scenario_given rec).
Proof. statement parse_scenario_given. Qed.

#[export] Instance parse_scenario_when_spec : StepSpec (parse_scenario_when rec).
Proof. statement parse_scenario_when. Qed.

#[export] Instance parse_scenario_then_spec : StepSpec (parse_scenario_then rec).
Proof. statement parse_scenario_then. Qed.

#[export] Instance parse_scenario_step_spec :
  Spec (parse_scenario_step rec) (fun n => len - n <= N)
    (fun n b s n' => n < n' /\ well_formed b (NScenarioStep s)).
Proof. intros n b Hn Hb. unfold parse_scenario_step. wp_steps; wp_done. Qed.

#[export] Instance parse_scenario_spec : StatementSpec (parse_scenario rec).
Proof.
  intros n b Hn [Hb Hk]. unfold parse_scenario. cbv zeta. wp_steps. split_and!; [done | lia |].
  apply well_formed_intro; [| cbn; wf]. cbn [node_ok statement_ok].
  apply andb_true_iff. by split; apply negb_false_iff.
Qed.

#[export] Instance parse_raise_spec : StatementSpec (parse_raise rec).
Proof. statement parse_raise. Qed.

#[export] Instance at_route_auth_spec :
  Spec at_route_auth (fun _ => True)
    (fun n b c n' => n' = n /\ (c = true -> kind_at n <> Eof)).
Proof.
  intros n b Hn _. unfold at_route_auth. wp_steps. split_and!; [done.. |]. intros Hc. kinds.
Qed.

#[export] Instance parse_route_statement_spec :
  Spec (parse_route_statement rec) (fun n => len - n <= N)
    (fun n b s n' => n < n' /\ well_formed b (NStatement s)).
Proof. intros n b Hn Hb. unfold parse_route_statement. wp_steps; wp_done. Qed.

#[export] Instance parse_take_line_spec inline_take take :
  Spec (parse_take_line inline_take take) (fun n => kind_at n <> Eof) (fun n b _ n' => n < n').
Proof. intros n b Hn Hk. unfold parse_take_line. wp_steps; wp_done. Qed.

#[export] Instance parse_route_spec : StatementSpec (parse_route rec).
Proof.
  intros n b Hn [Hb Hk]. unfold parse_route. cbv zeta. do 9 wp_step.
  eapply wp_mono with (Q := fun (_ : list TakeBinding) m b' => b' = b /\ n < m);
    [wp_steps; wp_done |].
  intros take m b' Hm [-> Hlt]. do 7 wp_step.
  eapply (wp_while _ (fun m' _ => n < m') _ _ _ _ _ _ (fun k => bool_decide (k = Take)));
    [by apply current_is_spec | done | lia | lia | |].
  { intros take' m' Hm' Ht _. wp_steps; wp_done. }
  clear take. intros take m' Hm' _ _. wp_step. wp_step. wp_step.
  eapply wp_mono with (Q := fun (_ : option RouteAuth) m b' => b' = b /\ n < m);
    [wp_steps; wp_done |].
  intros auth k b' Hk' [-> Hlt']. wp_step.
  eapply (wp_while _ (fun k' allow => n < k' /\ Forall (well_formed b) (map NExpression allow))
            _ _ _ _ _ _ (fun k => bool_decide (k = Identifier "allow")));
    [by apply check_identifier_lexeme_spec | done | lia | split; [lia | wf] | |].
  { intros allow k' Hk1 Ht [Hlt1 Ha]. unfold parse_route_allow. wp_steps; wp_done. }
  intros allow k' Hk1 _ [Hlt1 Ha]. wp_step.
  apply (wp_until _ (fun body => Forall (well_formed b) (map NStatement body)));
    [done | lia | wf | |].
  - intros body l Hl _ Hbody. wp_steps; wp_done.
  - intros body l Hl Hbody. wp_steps. wp_done.
Qed.

#[export] Instance parse_auth_provider_spec : StatementSpec (parse_auth_provider rec).
Proof.
  intros n b Hn [Hb Hk]. unfold parse_auth_provider. cbv zeta. do 17 wp_step.
  apply (wp_until _ (fun fields => Forall (well_formed b) (map (fun f => NExpression (apf_value f)) fields)));
    [done | lia | wf | |].
  - intros fields m Hm _ Hf. unfold parse_auth_field. wp_steps; wp_done.
  - intros fields m Hm Hf. wp_steps; wp_done.
Qed.

#[export] Instance parse_content_type_spec :
  Spec parse_content_type (fun _ => True) (fun n _ _ n' => n <= n').
Proof. intros n b Hn _. unfold parse_content_type. wp_steps; wp_done. Qed.

#[export] Instance parse_reply_spec : StatementSpec (parse_reply rec).
Proof. statement parse_reply. Qed.

#[export] Instance parse_fail_spec : StatementSpec (parse_fail rec).
Proof. statement parse_fail. Qed.

#[export] Instance parse_task_def_spec :
  Spec (parse_task_def rec) (fun n => len - n <= S N /\ kind_at n <> Eof)
    (fun n b s n' => n < n' /\ well_formed b (NStatement s) /\ exportable s = true).
Proof. statement parse_task_def. Qed.

#[export] Instance at_assignment_spec :
  Spec at_assignment (fun _ => True) (fun n _ _ n' => n' = n).
Proof. intros n b Hn _. unfold at_assignment. by wp_steps. Qed.

#[export] Instance parse_export_spec : StatementSpec (parse_export rec).
Proof. statement parse_export. Qed.

#[export] Instance parse_expression_statement_spec :
  Spec (parse_expression_statement rec) (fun n => len - n <= S N)
    (fun n b s n' => n < n' /\ well_formed b (NStatement s)).
Proof. intros n b Hn Hb. unfold parse_expression_statement. wp_steps; wp_done. Qed.

#[export] Instance parse_other_statement_spec :
  Spec (parse_other_statement rec) (fun n => len - n <= S N)
    (fun n b s n' => n < n' /\ well_formed b (NStatement s)).
Proof.
  intros n b Hn Hb. unfold parse_other_statement, opens_auth, opens_scenario.
  wp_steps; wp_done; kinds.
Qed.

#[export] Instance parse_statement_spec :
  Spec (parse_statement rec) (fun n => len - n <= S N)
    (fun n b s n' => n < n' /\ well_formed b (NStatement s)).
Proof.
  intros n b Hn Hb. unfold parse_statement. wp_step. wp_step.
  destruct (kind_at n) eqn:Hk; wp_step; done.
Qed.

End Statements.

(** * The knot *)

Section Knot.
Context (ts : list Token) `{!EndsEof ts}.

#[export] Instance parsers_spec fuel : RecSpec ts fuel (parsers fuel).
Proof.
  induction fuel as [|fuel IH]; split; try (intros; intros n b Hn Hb; lia).
  - intros prec. apply (parse_expression_spec ts fuel (parsers fuel) prec).
  - apply (parse_statement_spec ts fuel (parsers fuel)).
  - apply (parse_if_expression_spec ts fuel (parsers fuel)).
Qed.

Lemma parse_program_spec :
  wp ts (parse_program (length ts)) 0 false (fun program _ _ =>
    Forall (well_formed false) (map NStatement program)).
Proof.
  assert (0 < length ts) as Hlen
    by (destruct EndsEof0 as (body & e & -> & _); rewrite length_app; cbn; lia).
  unfold parse_program. wp_step. wp_step.
  eapply (wp_while _ (fun _ l => Forall (well_formed false) (map NStatement l)) _ (fun _ => True) _ _ _ _
            (fun k => negb (bool_decide (k = Eof)))); [| done | lia | wf | |].
  - intros m b Hm _. wp_steps. by split_and!.
  - intros l m Hm Ht Hl. wp_steps; wp_done.
  - done.
Qed.
End Knot.

Lemma parse_spec ts :
  EndsEof ts ->
  match parse ts with
  | Done program => Forall (well_formed false) (map NStatement program)
  | Fails e => located ts e
  | Panics | NoFuel => False
  end.
Proof.
  intros Hts. pose proof (parse_program_spec ts) as H. unfold wp in H. unfold parse, Parser_new.
  destruct (parse_program _ _) as [[program p]| | |]; [by destruct H as (_ & _ & H) | done..].
Qed.

Lemma tokenize_ends_eof src ts : Lexer.tokenize src = Done ts -> EndsEof ts.
Proof.
  intros H. destruct (LexerFacts.tokenize_shape src ts H) as (body & l & c & -> & _).
  by exists body, (Token_eof l c).
Qed.

(** * What the parser guarantees *)

(** C25: the parser terminates and does not panic on any list of tokens that
    ends in [Eof]: every loop iteration and every recursive call consumes a
    token, and no index is out of range. *)
Theorem parse_terminates ts : EndsEof ts -> parse ts <> NoFuel /\ parse ts <> Panics.
Proof. intros Hts. pose proof (parse_spec ts Hts) as H. by destruct (parse ts). Qed.

(** [while x > 1] with a body that has a pipeline. *)
Definition demo_tokens : list Token :=
  let t k lexeme l c := mkToken k l c lexeme in
  [t While "while" 1 1; t (Identifier "x") "x" 1 7; t Greater ">" 1 9; t (Integer 1) "1" 1 11;
   t Newline "\n" 1 12; t Indent "" 2 1; t (Identifier "x") "x" 2 3; t Assign "=" 2 5;
   t (Identifier "db") "db" 2 7; t Pipeline ">>" 2 10; t (Identifier "f") "f" 2 13;
   t Pipeline ">>" 2 15; t Rescue "rescue" 2 18; t (Identifier "g") "g" 2 25;
   t Newline "\n" 2 26; t Dedent "" 3 1; t Eof "" 3 1]%string.

#[export] Instance demo_tokens_end : EndsEof demo_tokens.
Proof. by eexists (take 16 demo_tokens), _. Qed.

Lemma parse_terminates_witness : parse demo_tokens <> NoFuel /\ parse demo_tokens <> Panics.
Proof. exact (parse_terminates demo_tokens demo_tokens_end). Defined.

(** C24: every syntax tree the parser returns is well formed: a pipeline has a
    stage and [rescue] only as the last one, no transaction is inside another,
    the topic of [on topic] has no wildcard, a scenario has exactly one [when]
    and some [then], the values of an enum are present, distinct and not empty,
    [as] follows only a call of the HTTP client, and only a task, a schema or an
    assignment is exported. *)
Theorem parse_well_formed ts program :
  EndsEof ts -> parse ts = Done program ->
  Forall (fun s => well_formed false (NStatement s)) program.
Proof.
  intros Hts Hp. pose proof (parse_spec ts Hts) as H. rewrite Hp in H.
  rewrite List.Forall_map in H. exact H.
Qed.

Definition demo_program : Program :=
  [SWhile (EBinaryOp (EIdentifier "x") OpGreater (EInteger 1))
     [SAssignment "x"
        (EPipeline (EIdentifier "db")
           [PSExpression (EIdentifier "f"); PSRescue (RHInline (EIdentifier "g"))]) 2 3] 1 1].

Lemma parse_well_formed_witness :
  parse demo_tokens = Done demo_program /\
  Forall (fun s => well_formed false (NStatement s)) demo_program.
Proof.
  split; [vm_compute; reflexivity |].
  apply (parse_well_formed demo_tokens demo_program demo_tokens_end). vm_compute. reflexivity.
Defined.

Lemma well_formed_occurs b n m :
  occurs m n -> well_formed b n -> exists b', well_formed b' m /\ (b = true -> b' = true).
Proof.
  intros Ho. revert b. induction Ho as [|n c Hc Ho IH]; intros b Hn; [by exists b |].
  apply well_formed_inv in Hn as [_ Hn]. rewrite Forall_forall in Hn.
  destruct (IH _ (Hn c Hc)) as (b' & Hm & Hb'). exists b'. split; [done |].
  intros ->. apply Hb'. by destruct (is_transaction n).
Qed.

(** In a parsed program no transaction statement occurs, at any depth,
    inside the body of another transaction. *)
Theorem parse_no_nested_transaction ts program s body l c inner body' l' c' :
  EndsEof ts -> parse ts = Done program -> s ∈ program ->
  occurs (NStatement (STransaction body l c)) (NStatement s) -> inner ∈ body ->
  ~ occurs (NStatement (STransaction body' l' c')) (NStatement inner).
Proof.
  intros Hts Hp Hs Ho Hin Ho'. pose proof (parse_spec ts Hts) as H. rewrite Hp in H.
  rewrite List.Forall_map, Forall_forall in H. apply H in Hs.
  destruct (well_formed_occurs _ _ _ Ho Hs) as (b & Hb & _).
  apply well_formed_inv in Hb as [_ Hb]. cbn in Hb.
  rewrite List.Forall_map, Forall_forall in Hb.
  destruct (well_formed_occurs _ _ _ Ho' (Hb inner Hin)) as (b' & Hb' & Htrue).
  rewrite (Htrue eq_refl) in Hb'. apply well_formed_inv in Hb' as [Hno _]. done.
Qed.

(** A transaction with one statement, and one inside another. *)
Definition transaction_tokens : list Token :=
  let t k lexeme l c := mkToken k l c lexeme in
  [t Transaction "transaction" 1 1; t Newline "\n" 1 12; t Indent "" 2 1;
   t (Identifier "x") "x" 2 3; t Newline "\n" 2 4; t Dedent "" 3 1; t Eof "" 3 1]%string.
Definition nested_transaction_tokens : list Token :=
  let t k lexeme l c := mkToken k l c lexeme in
  [t Transaction "transaction" 1 1; t Newline "\n" 1 12; t Indent "" 2 1;
   t Transaction "transaction" 2 3; t Newline "\n" 2 14; t Indent "" 3 1;
   t (Identifier "x") "x" 3 5; t Newline "\n" 3 6; t Dedent "" 4 1; t Dedent "" 4 1;
   t Eof "" 4 1]%string.

#[export] Instance transaction_tokens_end : EndsEof transaction_tokens.
Proof. by eexists (take 6 transaction_tokens), _. Qed.
#[export] Instance nested_transaction_tokens_end : EndsEof nested_transaction_tokens.
Proof. by eexists (take 10 nested_transaction_tokens), _. Qed.

Lemma parse_no_nested_transaction_witness :
  let inner := SExpressionStatement (EIdentifier "x") 2 3 in
  parse transaction_tokens = Done [STransaction [inner] 1 1] /\
  ~ occurs (NStatement (STransaction [] 2 3)) (NStatement inner).
Proof.
  split; [vm_compute; reflexivity |].
  apply (parse_no_nested_transaction transaction_tokens
           [STransaction [SExpressionStatement (EIdentifier "x") 2 3] 1 1]
           (STransaction [SExpressionStatement (EIdentifier "x") 2 3] 1 1)
           [SExpressionStatement (EIdentifier "x") 2 3] 1 1
           (SExpressionStatement (EIdentifier "x") 2 3) [] 2 3);
    [exact transaction_tokens_end | vm_compute; reflexivity | by left | constructor | by left].
Defined.

(** C30: when the parser fails, the error is an unexpected token, a reserved word
    used as a name or an unexpected indentation whose position is that of a
    token of the source, or an unexpected end of the input. *)
Theorem parse_error_located src ts e :
  Lexer.tokenize src = Done ts -> parse ts = Fails e ->
  match e with
  | UnexpectedToken _ _ l c | ReservedWord _ l c =>
      exists t, t ∈ ts /\ line t = l /\ column t = c
  | UnexpectedIndentation l => exists t, t ∈ ts /\ line t = l
  | UnexpectedEndOfInput _ => True
  | _ => False
  end.
Proof.
  intros Hts He. pose proof (parse_spec ts (tokenize_ends_eof _ _ Hts)) as H. rewrite He in H.
  destruct e; try exact H. destruct H as (c & t & ? & ? & _). by exists t.
Qed.

(** The tokens of [x = while]. *)
Definition bad_tokens : list Token :=
  [mkToken (Identifier "x") 1 1 "x"; mkToken Assign 1 3 "="; mkToken While 1 5 "while";
   mkToken Eof 1 10 ""].

Lemma parse_error_located_witness :
  parse bad_tokens = Fails (UnexpectedToken "expression" "while" 1 5) /\
  exists t, t ∈ bad_tokens /\ line t = 1 /\ column t = 5.
Proof.
  split; [vm_compute; reflexivity |].
  apply (parse_error_located "x = while" bad_tokens (UnexpectedToken "expression" "while" 1 5));
    vm_compute; reflexivity.
Defined.

(** A transaction inside another is an error at the inner one. *)
Example nested_transaction_rejected :
  parse nested_transaction_tokens =
  Fails (UnexpectedToken "statement (not transaction — nested transactions are not allowed)"
           "transaction" 2 3).
Proof. vm_compute. reflexivity. Qed.

(** A pipeline whose first [>>] is on an indented line of its own is rejected:
    [maybe_parse_pipeline] consumes the [Indent], but nothing consumes the
    [Dedent] that closes it. *)
Example indented_pipeline_rejected :
  let source := of_chars (bytes "x = items" ++ 10%N :: bytes "  >> count" ++ [10%N]) in
  match Lexer.tokenize source with
  | Done ts => map kind ts = [Identifier "x"; Assign; Identifier "items"; Indent; Pipeline;
                              Identifier "count"; Newline; Dedent; Eof]
               /\ parse ts = Fails (UnexpectedToken "expression" "" 3 1)
  | _ => False
  end.
Proof. vm_compute. by split. Qed.
