(* ===== verification/ParserGrammar.v ===== *)
(** The grammar of one-line expressions, and that the operator precedence loop
    of the parser implements it.

    [spells k e fs]: the lexemes [fs] are a spelling of [e] at precedence level
    [k].  The levels are the binding powers of the parser: an operator of
    precedence [p] has its left operand at level [p] and its right one at level
    [p + 1], so the operators are left associative; the level of postfix forms
    is [PREC_CALL], and level 0 adds the modifiers [as] and [rescue].  The
    expressions that need line breaks ([match], [if], [map], [reduce] and
    [broadcast] blocks) and the queue producers are left out. *)
From stdpp Require Import base list strings.
From Stdlib Require Import ZArith Lia.
From S2P Require Import Prelude RustStr F64 Token Errors Ast Lexer LexerRoundtrip ParserState Parser ParserStatements ParserLogic.

(** * The grammar *)

Definition lparen : lexeme_form := LPunct LeftParen "(".
Definition rparen : lexeme_form := LPunct RightParen ")".
Definition lbracket : lexeme_form := LPunct LeftBracket "[".
Definition rbracket : lexeme_form := LPunct RightBracket "]".
Definition lbrace : lexeme_form := LPunct LeftBrace "{".
Definition rbrace : lexeme_form := LPunct RightBrace "}".
Definition comma : lexeme_form := LPunct Comma ",".
Definition dot : lexeme_form := LPunct Dot ".".
Definition colon : lexeme_form := LPunct Colon ":".
Definition pipe : lexeme_form := LPunct Pipeline ">>".
Definition word (s : string) : lexeme_form := LWord (bytes s).

(** The expression a word is by itself. *)
Definition word_expression (k : TokenKind) : option Expression :=
  match k with
  | True_ => Some (EBoolean true)
  | False_ => Some (EBoolean false)
  | Null => Some ENull
  | Identifier name => Some (EIdentifier name)
  | k => EIdentifier <$> keyword_identifier k
  end.

Definition unop_of (k : TokenKind) : option UnaryOperator :=
  match k with Not => Some OpNot | Minus => Some Negate | _ => None end.

(** [w] is an identifier, spelled as [name]. *)
Definition names (w : list N) (name : string) : Prop := form_kind (LWord w) = Identifier name.

Inductive spells : nat -> Expression -> list lexeme_form -> Prop :=
| sp_lower j k e fs : spells k e fs -> j <= k -> spells j e fs
| sp_int ds : spells PREC_CALL (EInteger (digits_value ds)) [LInt ds]
| sp_float ip fp :
    spells PREC_CALL
      (EFloat (f64_of_decimal false (Z.to_N (digits_value (ip ++ fp))) (- Z.of_nat (length fp))))
      [LFloat ip fp]
| sp_string cs : spells PREC_CALL (EStringLiteral (of_chars cs)) [LString cs]
| sp_word w e : word_expression (form_kind (LWord w)) = Some e -> spells PREC_CALL e [LWord w]
| sp_paren e fs : spells PREC_NONE e fs -> spells PREC_CALL e (lparen :: fs ++ [rparen])
| sp_list es fs : items es fs -> spells PREC_CALL (EList es) (lbracket :: fs ++ [rbracket])
| sp_map kvs fs : pairs kvs fs -> spells PREC_CALL (EMapLiteral kvs) (lbrace :: fs ++ [rbrace])
| sp_schema w name kvs fs :
    names w name -> pairs kvs fs ->
    spells PREC_CALL (ESchemaConstructor name kvs) (LWord w :: lbrace :: fs ++ [rbrace])
| sp_call w name args fs :
    names w name -> arguments args fs ->
    spells PREC_CALL (EFunctionCall name args) (LWord w :: lparen :: fs ++ [rparen])
| sp_task w name :
    names w name -> spells PREC_CALL (ETaskCall name) [word "task"; lparen; LWord w; rparen]
| sp_property e fs w name :
    spells PREC_CALL e fs -> names w name ->
    spells PREC_CALL (EPropertyAccess e name) (fs ++ [dot; LWord w])
| sp_method e fs w name args gs :
    spells PREC_CALL e fs -> names w name -> arguments args gs ->
    spells PREC_CALL (EMethodCall e name args) (fs ++ dot :: LWord w :: lparen :: gs ++ [rparen])
| sp_subscript e fs key gs :
    spells PREC_CALL e fs -> spells PREC_NONE key gs ->
    spells PREC_CALL (ESubscript e key) (fs ++ lbracket :: gs ++ [rbracket])
| sp_unary f op e fs :
    unop_of (form_kind f) = Some op -> spells PREC_UNARY e fs ->
    spells PREC_UNARY (EUnaryOp op e) (f :: fs)
| sp_binary f op l fl r fr :
    binop_of (form_kind f) = Some op ->
    spells (infix_precedence (form_kind f)) l fl ->
    spells (S (infix_precedence (form_kind f))) r fr ->
    spells (infix_precedence (form_kind f)) (EBinaryOp l op r) (fl ++ f :: fr)
| sp_pipeline e fs ss gs :
    spells PREC_AND e fs -> stages ss gs -> ss <> [] ->
    spells PREC_OR (EPipeline e ss) (fs ++ gs)
| sp_pipeline_rescue e fs ss gs h hs :
    spells PREC_AND e fs -> stages ss gs -> spells PREC_NONE h hs ->
    spells PREC_NONE (EPipeline e (ss ++ [PSRescue (RHInline h)]))
      (fs ++ gs ++ pipe :: word "rescue" :: hs)
| sp_rescue e fs h hs :
    spells PREC_OR e fs -> spells PREC_NONE h hs ->
    spells PREC_NONE (ERescue e h) (fs ++ word "rescue" :: hs)
| sp_as e fs w name :
    spells PREC_OR e fs -> is_http_client_method_call e = true -> names w name ->
    spells PREC_NONE (EHttpClientResponseSchema e name) (fs ++ [word "as"; LWord w])
| sp_as_rescue e fs w name h hs :
    spells PREC_OR e fs -> is_http_client_method_call e = true -> names w name ->
    spells PREC_NONE h hs ->
    spells PREC_NONE (ERescue (EHttpClientResponseSchema e name) h)
      (fs ++ word "as" :: LWord w :: word "rescue" :: hs)
| sp_fail ds e fs :
    spells PREC_NONE e fs ->
    spells PREC_NONE
      (EFunctionCall "__fail__" [Positional (EInteger (digits_value ds)); Positional e])
      (word "fail" :: LInt ds :: comma :: fs)

(** Elements separated by commas, with at most one after the last. *)
with items : list Expression -> list lexeme_form -> Prop :=
| items_nil : items [] []
| items_last e fs : spells PREC_NONE e fs -> items [e] fs
| items_cons e fs es gs : spells PREC_NONE e fs -> items es gs -> items (e :: es) (fs ++ comma :: gs)

with pairs : list (string * Expression) -> list lexeme_form -> Prop :=
| pairs_nil : pairs [] []
| pairs_last w name e fs :
    names w name -> spells PREC_NONE e fs -> pairs [(name, e)] (LWord w :: colon :: fs)
| pairs_cons w name e fs kvs gs :
    names w name -> spells PREC_NONE e fs -> pairs kvs gs ->
    pairs ((name, e) :: kvs) (LWord w :: colon :: fs ++ comma :: gs)

with arguments : list Argument -> list lexeme_form -> Prop :=
| arguments_nil : arguments [] []
| arguments_last a fs : argument a fs -> arguments [a] fs
| arguments_cons a fs b args gs :
    argument a fs -> arguments (b :: args) gs -> arguments (a :: b :: args) (fs ++ comma :: gs)

with argument : Argument -> list lexeme_form -> Prop :=
| argument_positional e fs : spells PREC_NONE e fs -> argument (Positional e) fs
| argument_named w name e fs :
    names w name -> spells PREC_NONE e fs -> argument (Named name e) (LWord w :: colon :: fs)

with stages : list PipelineStage -> list lexeme_form -> Prop :=
| stages_nil : stages [] []
| stages_cons e fs ss gs :
    spells PREC_CALL e fs -> stages ss gs ->
    stages (PSExpression e :: ss) (pipe :: fs ++ gs).

Scheme spells_mut := Minimality for spells Sort Prop
  with items_mut := Minimality for items Sort Prop
  with pairs_mut := Minimality for pairs Sort Prop
  with arguments_mut := Minimality for arguments Sort Prop
  with argument_mut := Minimality for argument Sort Prop
  with stages_mut := Minimality for stages Sort Prop.
Combined Scheme grammar_ind from spells_mut, items_mut, pairs_mut, arguments_mut, argument_mut, stages_mut.

(** * The first tokens of a spelling *)

(** A token that can start an expression of the grammar. *)
Definition starter (k : TokenKind) : bool :=
  match k with
  | RightParen | RightBracket | RightBrace | Comma | Colon | Map | Reduce | Rescue | Match | If
  | Newline | Indent | Dedent | Eof => false
  | _ => true
  end.

Definition second_ok (fs : list lexeme_form) : Prop :=
  match fs with [] => True | f :: _ => form_kind f <> Colon end.

(** A spelling is not empty, starts with a starter, and its second token is
    not a colon. *)
Definition starts (fs : list lexeme_form) : Prop :=
  match fs with [] => False | f :: fs => starter (form_kind f) = true /\ second_ok fs end.

Definition starts_or_empty (fs : list lexeme_form) : Prop :=
  match fs with [] => True | f :: _ => starter (form_kind f) = true end.

Lemma starter_not_colon f : starter (form_kind f) = true -> form_kind f <> Colon.
Proof. by intros H Hc; rewrite Hc in H. Qed.

Lemma starts_app fs g gs : starts fs -> form_kind g <> Colon -> starts (fs ++ g :: gs).
Proof. destruct fs as [|f [|h fs]]; cbn; tauto. Qed.

Lemma starts_cons f fs : starter (form_kind f) = true -> starts fs -> starts (f :: fs).
Proof. destruct fs as [|g fs]; cbn; [tauto |]. intros ? [? _]. split; [done | by apply starter_not_colon]. Qed.

Lemma starts_delimited f fs g :
  starter (form_kind f) = true -> starts_or_empty fs -> form_kind g <> Colon ->
  starts (f :: fs ++ [g]).
Proof.
  destruct fs as [|h fs]; cbn; [tauto |]. intros. split; [done | by apply starter_not_colon].
Qed.

Lemma binop_starter f op : binop_of (form_kind f) = Some op -> form_kind f <> Colon.
Proof. by intros H Hc; rewrite Hc in H. Qed.

Lemma starts_starts_or_empty fs : starts fs -> starts_or_empty fs.
Proof. destruct fs; cbn; tauto. Qed.

Lemma starts_or_empty_app fs g gs : starts fs -> starts_or_empty (fs ++ g :: gs).
Proof. destruct fs; cbn; tauto. Qed.

Lemma names_starter w name : names w name -> starter (form_kind (LWord w)) = true.
Proof. unfold names. by intros ->. Qed.

Lemma word_expression_starter k e : word_expression k = Some e -> starter k = true.
Proof. by destruct k. Qed.

Lemma unop_starter k op : unop_of k = Some op -> starter k = true.
Proof. by destruct k. Qed.

Lemma starts_word w name f fs :
  names w name -> form_kind f <> Colon -> starts (LWord w :: f :: fs).
Proof. intros Hw Hf. split; [by eapply names_starter | done]. Qed.

Definition pipe_or_empty (gs : list lexeme_form) : Prop :=
  match gs with [] => True | f :: _ => form_kind f = Pipeline end.

Lemma starts_app_pipe fs gs : starts fs -> pipe_or_empty gs -> starts (fs ++ gs).
Proof.
  destruct gs as [|g gs]; [by rewrite app_nil_r |]. intros Hfs Hg. apply starts_app; [done |].
  cbn in Hg. by rewrite Hg.
Qed.

Lemma starts_or_empty_app_nonempty fs gs :
  fs <> [] -> starts_or_empty fs -> starts_or_empty (fs ++ gs).
Proof. by destruct fs. Qed.

(** What the first tokens of every category are. *)
Lemma grammar_starts :
  (forall k e fs, spells k e fs -> starts fs) /\
  (forall es fs, items es fs -> starts_or_empty fs) /\
  (forall kvs fs, pairs kvs fs -> starts_or_empty fs) /\
  (forall args fs, arguments args fs -> starts_or_empty fs) /\
  (forall a fs, argument a fs -> fs <> [] /\ starts_or_empty fs) /\
  (forall ss gs, stages ss gs -> pipe_or_empty gs).
Proof.
  apply grammar_ind; try done; intros; destruct_and?; split_and?;
    try solve
      [ split; [reflexivity | exact I]
      | split; [by eapply word_expression_starter | exact I]
      | by apply starts_delimited; auto using starts_starts_or_empty
      | by eapply starts_word
      | by apply starts_app
      | by apply starts_app_pipe
      | by apply starts_starts_or_empty
      | by apply starts_or_empty_app
      | by apply starts_or_empty_app_nonempty
      | by eapply names_starter
      | by intros -> ].
  - apply starts_cons; [by eapply unop_starter | done].
  - apply starts_app; [done | by eapply binop_starter].
  - apply starts_app_pipe; [done |]. by destruct gs.
  - tauto.
  - by destruct fs.
Qed.

Lemma spells_starts k e fs : spells k e fs -> starts fs.
Proof. apply grammar_starts. Qed.
Lemma items_start es fs : items es fs -> starts_or_empty fs.
Proof. apply grammar_starts. Qed.
Lemma pairs_start kvs fs : pairs kvs fs -> starts_or_empty fs.
Proof. apply grammar_starts. Qed.
Lemma arguments_start args fs : arguments args fs -> starts_or_empty fs.
Proof. apply grammar_starts. Qed.
Lemma stages_start ss gs : stages ss gs -> pipe_or_empty gs.
Proof. apply grammar_starts. Qed.

(** * Reading tokens *)

Section Reading.
Context (ts : list Token).

(** The kinds of the tokens from the [n]th on. *)
Definition input (n : nat) : list TokenKind := map kind (drop n ts).

(** From token [n], [m] returns [a] on token [n']. *)
Definition reads {A} (m : Parse A) (n : nat) (a : A) (n' : nat) : Prop :=
  forall b, m (mkParser ts n b) = Done (a, mkParser ts n' b).

(** [m] from token [n] gives what [m'] gives from token [n']. *)
Definition steps {A} (m : Parse A) (n : nat) (m' : Parse A) (n' : nat) : Prop :=
  forall b r, m' (mkParser ts n' b) = Done r -> m (mkParser ts n b) = Done r.

Lemma input_app n xs ys : input n = xs ++ ys -> input (n + length xs) = ys.
Proof.
  unfold input. intros H. rewrite <- drop_drop.
  rewrite <- skipn_map, H. by rewrite drop_app_length.
Qed.

Lemma input_S n x xs : input n = x :: xs -> input (S n) = xs.
Proof. intros H. pose proof (input_app n [x] xs H) as H1. cbn in H1. by rewrite Nat.add_1_r in H1. Qed.

Lemma input_lookup n x xs :
  input n = x :: xs -> exists t, ts !! n = Some t /\ kind t = x /\ n < length ts.
Proof.
  unfold input. intros H. destruct (drop n ts) as [|t rest] eqn:Hd; [done |].
  exists t. assert (ts !! n = Some t) as Ht
    by (rewrite <- (Nat.add_0_r n), <- lookup_drop, Hd; done).
  split_and!; [done | by injection H | by apply lookup_lt_Some in Ht].
Qed.

Lemma reads_ret {A} (a : A) n : reads (mret a) n a n.
Proof. done. Qed.

Lemma reads_bind {A B} (m : Parse A) (k : A -> Parse B) n a n1 b n2 :
  reads m n a n1 -> reads (k a) n1 b n2 -> reads (m ≫= k) n b n2.
Proof. intros Hm Hk c. unfold mbind, parse_bind. by rewrite Hm, Hk. Qed.

Lemma steps_refl {A} (m : Parse A) n : steps m n m n.
Proof. by intros b r. Qed.

Lemma steps_trans {A} (m1 m2 m3 : Parse A) n1 n2 n3 :
  steps m1 n1 m2 n2 -> steps m2 n2 m3 n3 -> steps m1 n1 m3 n3.
Proof. intros H1 H2 b r H. by apply H1, H2. Qed.

Lemma steps_bind {A B} (m : Parse A) (k : A -> Parse B) n a n' :
  reads m n a n' -> steps (m ≫= k) n (k a) n'.
Proof. intros Hm b r H. unfold mbind, parse_bind. by rewrite Hm. Qed.

Lemma steps_then {A B} (m : Parse A) (k : A -> Parse B) n a n1 m' n' :
  reads m n a n1 -> steps (k a) n1 m' n' -> steps (m ≫= k) n m' n'.
Proof. intros Hm Hk. eapply steps_trans; [by apply steps_bind | exact Hk]. Qed.

Lemma steps_reads {A} (m m' : Parse A) n n' a n'' :
  steps m n m' n' -> reads m' n' a n'' -> reads m n a n''.
Proof. intros Hs Hr b. by apply Hs. Qed.

Lemma reads_steps {A} (m : Parse A) n a n' : reads m n a n' <-> steps m n (mret a) n'.
Proof.
  split; [| intros H b; by apply H].
  intros H b r Hr. cbn in Hr. injection Hr as <-. apply H.
Qed.

Lemma reads_at {A} (m : Parse A) n a n1 n2 : reads m n a n1 -> n1 = n2 -> reads m n a n2.
Proof. by intros H <-. Qed.

(** ** Navigation *)

Lemma current_at n b x xs :
  input n = x :: xs ->
  exists t, ts !! n = Some t /\ kind t = x /\ current (mkParser ts n b) = Done (t, mkParser ts n b).
Proof.
  intros H. destruct (input_lookup _ _ _ H) as (t & Ht & Hk & Hlt). exists t.
  split_and!; [done.. |]. unfold current. cbn [p_pos p_tokens].
  replace (n `min` (length ts - 1)) with n by lia. by rewrite Ht.
Qed.

Lemma reads_get_pos n : reads get_pos n n n.
Proof. done. Qed.

Lemma reads_put_pos n m : reads (put_pos m) n tt m.
Proof. done. Qed.

Lemma reads_current_kind n x xs : input n = x :: xs -> reads current_kind n x n.
Proof.
  intros H b. destruct (current_at n b x xs H) as (t & _ & <- & Hc).
  unfold current_kind, mbind, parse_bind. by rewrite Hc.
Qed.

Lemma reads_current_is n x xs k :
  input n = x :: xs -> reads (current_is k) n (bool_decide (x = k)) n.
Proof. intros H. eapply reads_bind; [by eapply reads_current_kind |]. by apply reads_ret. Qed.

Lemma reads_is_at_end n x xs : input n = x :: xs -> reads is_at_end n (bool_decide (x = Eof)) n.
Proof.
  intros H b. destruct (input_lookup _ _ _ H) as (t & Ht & <- & _).
  unfold is_at_end. cbn. by rewrite Ht.
Qed.

Lemma reads_peek_kind n x xs : input n = x :: xs -> reads peek_kind n (head xs) n.
Proof.
  intros H b. unfold peek_kind. cbn [p_tokens p_pos]. do 2 f_equal.
  apply input_S in H. rewrite <- H, Nat.add_1_r. unfold input.
  destruct (drop (S n) ts) as [|t rest] eqn:Hd.
  - cbn. rewrite <- (Nat.add_0_r (S n)), <- lookup_drop, Hd. done.
  - cbn. rewrite <- (Nat.add_0_r (S n)), <- lookup_drop, Hd. done.
Qed.

Lemma steps_advance {A} (k : Token -> Parse A) n x xs (m : Parse A) n' :
  input n = x :: xs -> (forall t, steps (k t) (S n) m n') -> steps (t ← advance; k t) n m n'.
Proof.
  intros H Hk b r Hr. destruct (current_at n b x xs H) as (t & Ht & _ & Hc).
  unfold mbind, parse_bind, advance. rewrite Hc. cbn [p_pos p_tokens].
  assert (n < length ts) as Hlt%Nat.ltb_lt by (by apply lookup_lt_Some in Ht). rewrite Hlt.
  unfold set_pos. cbn. rewrite Nat.add_1_r. by apply Hk.
Qed.

Lemma steps_check {A} k (f : bool -> Parse A) n x xs (m : Parse A) n' :
  input n = x :: xs -> plain k = true ->
  steps (f (bool_decide (x = k))) n m n' -> steps (c ← check k; f c) n m n'.
Proof.
  intros H Hk Hf. eapply steps_trans; [| exact Hf]. apply steps_bind. unfold check.
  eapply reads_bind; [by eapply reads_is_at_end |].
  destruct (decide (x = Eof)) as [-> | He].
  - rewrite bool_decide_eq_true_2, (bool_decide_eq_false_2 (Eof = k))
      by (done || by destruct k). apply reads_ret.
  - rewrite bool_decide_eq_false_2 by done. eapply reads_bind; [by eapply reads_current_kind |].
    rewrite same_discriminant_plain by done. apply reads_ret.
Qed.

Lemma steps_expect {A} k (f : Token -> Parse A) n xs (m : Parse A) n' :
  input n = k :: xs -> plain k = true ->
  (forall t, steps (f t) (S n) m n') -> steps (t ← expect k; f t) n m n'.
Proof.
  intros H Hk Hf. intros b r Hr. unfold expect.
  destruct (current_at n b _ _ H) as (t & Ht & _ & Hc).
  unfold mbind, parse_bind.
  rewrite (reads_is_at_end n k xs H b). rewrite bool_decide_eq_false_2 by (by destruct k).
  rewrite (reads_current_kind n k xs H b).
  rewrite same_discriminant_plain, bool_decide_eq_true_2 by done.
  unfold advance. rewrite Hc. cbn [p_pos p_tokens].
  assert (n < length ts) as Hlt%Nat.ltb_lt by (by apply lookup_lt_Some in Ht). rewrite Hlt.
  unfold set_pos. cbn. rewrite Nat.add_1_r. by apply Hf.
Qed.

Lemma steps_name {A} (f : Name -> Parse A) n name xs (m : Parse A) n' :
  input n = Identifier name :: xs ->
  (forall l c, steps (f (name, l, c)) (S n) m n') -> steps (w ← expect_name; f w) n m n'.
Proof.
  intros H Hf b r Hr. destruct (current_at n b _ _ H) as (t & Ht & Hk & Hc).
  unfold expect_name, mbind, parse_bind. rewrite Hc, Hk. unfold advance. rewrite Hc. cbn [p_pos p_tokens].
  assert (n < length ts) as Hlt%Nat.ltb_lt by (by apply lookup_lt_Some in Ht). rewrite Hlt.
  unfold set_pos. cbn. rewrite Nat.add_1_r. by apply Hf.
Qed.

Lemma steps_identifier {A} (f : Name -> Parse A) n name xs (m : Parse A) n' :
  input n = Identifier name :: xs ->
  (forall l c, steps (f (name, l, c)) (S n) m n') -> steps (w ← expect_identifier; f w) n m n'.
Proof.
  intros H Hf b r Hr. destruct (current_at n b _ _ H) as (t & Ht & Hk & Hc).
  unfold expect_identifier, mbind, parse_bind. rewrite (reads_is_at_end n _ xs H b).
  rewrite bool_decide_eq_false_2 by done.
  rewrite Hc, Hk. unfold advance. rewrite Hc. cbn [p_pos p_tokens].
  assert (n < length ts) as Hlt%Nat.ltb_lt by (by apply lookup_lt_Some in Ht). rewrite Hlt.
  unfold set_pos. cbn. rewrite Nat.add_1_r. by apply Hf.
Qed.

Lemma steps_integer {A} (f : Z -> Parse A) n z xs (m : Parse A) n' :
  input n = Integer z :: xs -> steps (f z) (S n) m n' -> steps (x ← expect_integer; f x) n m n'.
Proof.
  intros H Hf. eapply steps_then; [| exact Hf]. unfold expect_integer.
  eapply reads_bind; [by eapply reads_current_kind |]. cbv iota.
  apply reads_steps. eapply steps_advance; [exact H |]. intros _. apply steps_refl.
Qed.

Lemma reads_skip_newlines n x xs : input n = x :: xs -> x <> Newline -> reads skip_newlines n tt n.
Proof.
  intros H Hx b. unfold skip_newlines, while_do, iterate. cbn [iterate_fuel].
  unfold mbind, parse_bind. rewrite (reads_is_at_end n x xs H b).
  case_bool_decide; [done |].
  rewrite (reads_current_is n x xs Newline H b). by rewrite bool_decide_eq_false_2.
Qed.

Lemma steps_if_check_no {A} k (f other : Parse A) n x xs m n' :
  input n = x :: xs -> plain k = true -> x <> k ->
  steps other n m n' -> steps (if_check k f other) n m n'.
Proof.
  intros H Hk Hx Ho. unfold if_check. eapply steps_check; [exact H | done |].
  by rewrite bool_decide_eq_false_2.
Qed.

Lemma steps_if_check_yes {A} k (f other : Parse A) n xs m n' :
  input n = k :: xs -> plain k = true -> steps f (S n) m n' -> steps (if_check k f other) n m n'.
Proof.
  intros H Hk Hf. unfold if_check. eapply steps_check; [exact H | done |].
  rewrite bool_decide_eq_true_2 by done. by eapply steps_advance.
Qed.

(** ** Loops *)

Lemma iterate_fuel_more {A} (step : A -> Parse (control A)) f1 f2 a p r :
  iterate_fuel f1 step a p = Done r -> f1 <= f2 -> iterate_fuel f2 step a p = Done r.
Proof.
  revert f2 a p. induction f1 as [|f1 IH]; intros [|f2] a p H Hle; try done; [lia |].
  cbn [iterate_fuel] in *. unfold mbind, parse_bind in *.
  destruct (step a p) as [[[a'|a'] p']| | |]; try done. apply IH; [done | lia].
Qed.

Lemma steps_continue {A} (step : A -> Parse (control A)) a a' n n' :
  n < length ts -> n < n' -> reads (step a) n (Continue a') n' ->
  steps (iterate step a) n (iterate step a') n'.
Proof.
  intros Hn Hlt Hs b r Hr. unfold iterate in *. cbn [iterate_fuel]. unfold mbind, parse_bind.
  rewrite (Hs b). eapply iterate_fuel_more; [exact Hr |]. unfold remaining. cbn. lia.
Qed.

Lemma reads_break {A} (step : A -> Parse (control A)) a a' n n' :
  reads (step a) n (Break a') n' -> reads (iterate step a) n a' n'.
Proof. intros Hs b. unfold iterate. cbn [iterate_fuel]. unfold mbind, parse_bind. by rewrite (Hs b). Qed.

Lemma reads_precedence n x xs :
  input n = x :: xs -> reads current_infix_precedence n (infix_precedence x) n.
Proof.
  intros H. unfold current_infix_precedence.
  eapply reads_bind; [by eapply reads_is_at_end |]. case_bool_decide as He; [by subst |].
  eapply reads_bind; [by eapply reads_current_kind | apply reads_ret].
Qed.

Lemma reads_until n x xs k :
  input n = x :: xs -> plain k = true ->
  reads (until k) n (negb (bool_decide (x = k)) && negb (bool_decide (x = Eof))) n.
Proof.
  intros H Hk. apply reads_steps. unfold until.
  eapply steps_check; [exact H | done |]. case_bool_decide; [apply steps_refl |].
  eapply steps_then; [by eapply reads_is_at_end |]. apply steps_refl.
Qed.

Lemma steps_while {A} (cond : Parse bool) (body : A -> Parse A) a a' n n' x xs :
  input n = x :: xs -> n < n' -> reads cond n true n -> reads (body a) n a' n' ->
  steps (while_do cond body a) n (while_do cond body a') n'.
Proof.
  intros H Hn Hc Hb. destruct (input_lookup _ _ _ H) as (_ & _ & _ & Hlt). unfold while_do.
  apply steps_continue; [done | done |].
  eapply reads_bind; [exact Hc |]. eapply reads_bind; [exact Hb | apply reads_ret].
Qed.

Lemma reads_while_end {A} (cond : Parse bool) (body : A -> Parse A) a n :
  reads cond n false n -> reads (while_do cond body a) n a n.
Proof.
  intros Hc. unfold while_do. apply reads_break.
  eapply reads_bind; [exact Hc | apply reads_ret].
Qed.

End Reading.

(** * The parser reads what the grammar spells *)

Create HintDb forms.
Lemma kind_lparen : form_kind lparen = LeftParen. Proof. done. Qed.
Lemma kind_rparen : form_kind rparen = RightParen. Proof. done. Qed.
Lemma kind_lbracket : form_kind lbracket = LeftBracket. Proof. done. Qed.
Lemma kind_rbracket : form_kind rbracket = RightBracket. Proof. done. Qed.
Lemma kind_lbrace : form_kind lbrace = LeftBrace. Proof. done. Qed.
Lemma kind_rbrace : form_kind rbrace = RightBrace. Proof. done. Qed.
Lemma kind_comma : form_kind comma = Comma. Proof. done. Qed.
Lemma kind_dot : form_kind dot = Dot. Proof. done. Qed.
Lemma kind_colon : form_kind colon = Colon. Proof. done. Qed.
Lemma kind_pipe : form_kind pipe = Pipeline. Proof. done. Qed.
Lemma kind_task : form_kind (word "task") = Task. Proof. vm_compute. done. Qed.
Lemma kind_rescue : form_kind (word "rescue") = Rescue. Proof. vm_compute. done. Qed.
Lemma kind_as : form_kind (word "as") = As. Proof. vm_compute. done. Qed.
Lemma kind_fail : form_kind (word "fail") = Fail_. Proof. vm_compute. done. Qed.
#[export] Hint Rewrite kind_lparen kind_rparen kind_lbracket kind_rbracket kind_lbrace kind_rbrace
  kind_comma kind_dot kind_colon kind_pipe kind_task kind_rescue kind_as kind_fail
  @map_app @map_cons @app_nil_l : forms.

(** What may follow a spelling at level [k], and an expression with modifiers. *)
Definition follows (k : nat) (c : TokenKind) : Prop :=
  infix_precedence c <= k /\ c <> LeftParen /\ c <> LeftBrace /\
  (k <= 1 -> c <> Pipeline /\ c <> Newline).
Definition ends (c : TokenKind) : Prop := follows 0 c /\ c <> As /\ c <> Rescue.

Lemma follows_le j k c : j <= k -> follows j c -> follows k c.
Proof.
  unfold follows. intros Hle (Hp & Hl & Hb & Hnl).
  split; [lia |]. split; [done |]. split; [done |]. intros Hk. apply Hnl. lia.
Qed.

Lemma follows_plain k c :
  infix_precedence c <= k -> c <> LeftParen -> c <> LeftBrace -> c <> Pipeline -> c <> Newline ->
  follows k c.
Proof. by unfold follows. Qed.

Section Grammar.
Context (ts : list Token).
#[local] Notation input := (input ts).
#[local] Notation reads := (reads ts).
#[local] Notation steps := (steps ts).

(** The operator loop after a prefix. *)
Definition operand (fuel m : nat) : Parse Expression :=
  left ← parse_prefix (parsers fuel);
  iterate (parse_operator (parsers fuel) m) left.
Definition loop (fuel m : nat) (e : Expression) : Parse Expression :=
  iterate (parse_operator (parsers fuel) m) e.

(** A right operand of level [k] is parsed with the minimum [m]. *)
Definition under (m k : nat) : Prop := m < k \/ (m = PREC_UNARY /\ k = PREC_UNARY).

Definition Head (k : nat) (e : Expression) (fs : list lexeme_form) : Prop :=
  forall fuel n c ks m,
    input n = map form_kind fs ++ c :: ks -> length fs <= S fuel -> under m k -> follows k c ->
    steps (operand fuel m) n (loop fuel m e) (n + length fs).

Definition Full (e : Expression) (fs : list lexeme_form) : Prop :=
  forall fuel n c ks,
    input n = map form_kind fs ++ c :: ks -> length fs <= S fuel -> ends c ->
    reads (parse_expression (parsers fuel) PREC_NONE) n e (n + length fs).

Lemma loop_stops fuel m e n c ks :
  input n = c :: ks -> infix_precedence c <= m -> reads (loop fuel m e) n e n.
Proof.
  intros H Hp. unfold loop. apply reads_break. unfold parse_operator.
  eapply reads_bind; [by eapply reads_is_at_end |]. case_bool_decide; [apply reads_ret |].
  eapply reads_bind; [by eapply reads_precedence |].
  apply Nat.leb_le in Hp. rewrite Hp. apply reads_ret.
Qed.

Lemma loop_continues fuel m e e' n n' c ks :
  input n = c :: ks -> m < infix_precedence c -> n < n' ->
  reads (parse_infix (parsers fuel) e (infix_precedence c)) n e' n' ->
  steps (loop fuel m e) n (loop fuel m e') n'.
Proof.
  intros H Hm Hn Hi. destruct (input_lookup _ _ _ _ H) as (_ & _ & _ & Hlt).
  unfold loop. apply steps_continue; [done | done |]. unfold parse_operator.
  eapply reads_bind; [by eapply reads_is_at_end |].
  rewrite bool_decide_eq_false_2 by (intros ->; change (m < 0) in Hm; lia).
  eapply reads_bind; [by eapply reads_precedence |].
  rewrite (proj2 (Nat.leb_gt _ _)) by done.
  eapply reads_bind; [exact Hi | apply reads_ret].
Qed.

Lemma parse_expression_assoc fuel m n :
  steps (parse_expression (parsers fuel) m) n (operand fuel m ≫= parse_modifiers (parsers fuel) m) n.
Proof.
  intros b r. unfold parse_expression, operand, mbind, parse_bind.
  destruct (parse_prefix _ _) as [[e p]| | |]; done.
Qed.

Lemma modifiers_none fuel m e n c ks :
  input n = c :: ks -> (m = 0 -> c <> As /\ c <> Rescue) ->
  reads (parse_modifiers (parsers fuel) m e) n e n.
Proof.
  intros H Hm. unfold parse_modifiers.
  assert ((m =? PREC_NONE) && bool_decide (c = As) = false) as Ha.
  { destruct (Nat.eqb_spec m PREC_NONE) as [->|]; [| done].
    cbn. apply bool_decide_eq_false_2. by apply Hm. }
  assert ((m =? PREC_NONE) && bool_decide (c = Rescue) = false) as Hr.
  { destruct (Nat.eqb_spec m PREC_NONE) as [->|]; [| done].
    cbn. apply bool_decide_eq_false_2. by apply Hm. }
  eapply (reads_bind _ _ _ _ e n).
  - eapply reads_bind; [by eapply reads_current_is |]. rewrite Ha. apply reads_ret.
  - eapply reads_bind; [by eapply reads_current_is |]. rewrite Hr. apply reads_ret.
Qed.

(** Reading an operand with a given minimum. *)
Lemma head_expression k e fs fuel n c ks m :
  Head k e fs -> input n = map form_kind fs ++ c :: ks -> length fs <= S fuel -> under m k ->
  follows k c -> infix_precedence c <= m -> (m = 0 -> c <> As /\ c <> Rescue) ->
  reads (parse_expression (parsers fuel) m) n e (n + length fs).
Proof.
  intros Hh H Hf Hu Hc Hp Hm. eapply steps_reads; [apply parse_expression_assoc |].
  apply input_app in H as Hrest. rewrite length_map in Hrest.
  eapply reads_bind.
  - eapply steps_reads; [by eapply Hh |]. by eapply loop_stops.
  - by eapply modifiers_none.
Qed.

(** A recursive call, which has one fuel less. *)
Lemma rec_full e fs fuel n c ks :
  Full e fs -> fs <> [] -> input n = map form_kind fs ++ c :: ks -> length fs <= fuel -> ends c ->
  reads (rec_expression (parsers fuel) PREC_NONE) n e (n + length fs).
Proof.
  intros Hf Hne H Hlen Hc. destruct fuel as [|fuel]; [by destruct fs; cbn in Hlen; [| lia] |].
  by eapply Hf.
Qed.

Lemma rec_head k e fs fuel n c ks m :
  Head k e fs -> fs <> [] -> input n = map form_kind fs ++ c :: ks -> length fs <= fuel ->
  under m k -> follows k c -> infix_precedence c <= m -> m <> 0 ->
  reads (rec_expression (parsers fuel) m) n e (n + length fs).
Proof.
  intros Hf Hne H Hlen Hu Hc Hp Hm.
  destruct fuel as [|fuel]; [by destruct fs; cbn in Hlen; [| lia] |].
  by eapply head_expression.
Qed.

Lemma steps_ret {A} (a : A) n n' : n = n' -> steps (mret a) n (mret a) n'.
Proof. intros ->. apply steps_refl. Qed.

#[local] Ltac norm H :=
  autorewrite with forms in H; cbn [map app] in H; rewrite <- ?app_assoc in H; cbn [app] in H;
  rewrite <- ?app_assoc in H; cbn [app] in H.
#[local] Ltac lengths := cbn [length] in *; rewrite ?length_app in *; cbn [length] in *; lia.
#[local] Ltac run_advance H :=
  eapply steps_advance; [exact H |]; intros _; apply input_S in H.
#[local] Ltac run_expect H :=
  eapply steps_expect; [exact H | reflexivity |]; intros _; apply input_S in H.
#[local] Ltac run_read H tac :=
  eapply steps_then; [tac |];
  apply input_app in H; rewrite length_map in H; cbv beta.
#[local] Ltac run_rec H :=
  run_read H ltac:(eapply rec_full; [eassumption | assumption | exact H | lengths | try done]).
#[local] Ltac start_prefix H :=
  apply reads_steps; unfold parse_prefix;
  eapply steps_then; [eapply reads_current_kind; exact H |];
  eapply steps_then; [eapply reads_peek_kind; exact H |]; cbv beta iota.

(** ** Prefixes *)

Definition Atom (e : Expression) (fs : list lexeme_form) : Prop :=
  forall fuel n c ks,
    input n = map form_kind fs ++ c :: ks -> length fs <= S fuel ->
    c <> LeftParen -> c <> LeftBrace ->
    reads (parse_prefix (parsers fuel)) n e (n + length fs).

Lemma atom_head k e fs : Atom e fs -> Head k e fs.
Proof.
  intros Ha fuel n c ks m H Hf _ (_ & Hl & Hb & _). apply steps_bind. by eapply Ha.
Qed.

Lemma ends_rparen : ends RightParen.
Proof. unfold ends, follows. cbn. split_and!; try done; unfold PREC_NONE; lia. Qed.
Lemma ends_rbracket : ends RightBracket.
Proof. unfold ends, follows. cbn. split_and!; try done; unfold PREC_NONE; lia. Qed.
Lemma ends_rbrace : ends RightBrace.
Proof. unfold ends, follows. cbn. split_and!; try done; unfold PREC_NONE; lia. Qed.
Lemma ends_comma : ends Comma.
Proof. unfold ends, follows. cbn. split_and!; try done; unfold PREC_NONE; lia. Qed.
Lemma ends_eof : ends Eof.
Proof. unfold ends, follows. cbn. split_and!; try done; unfold PREC_NONE; lia. Qed.
#[local] Hint Resolve ends_rparen ends_rbracket ends_rbrace ends_comma ends_eof : core.

Lemma atom_literal f e k :
  form_kind f = k -> word_expression k = Some e \/
    (exists z, k = Integer z /\ e = EInteger z) \/ (exists x, k = Float x /\ e = EFloat x) \/
    (exists s, k = StringLiteral s /\ e = EStringLiteral s) ->
  Atom e [f].
Proof.
  intros Hk He fuel n c ks H _ Hl Hb. cbn in H. rewrite Hk in H. cbn [length].
  start_prefix H.
  destruct He as [He | [(z & -> & ->) | [(x & -> & ->) | (s & -> & ->)]]];
    [| run_advance H; apply steps_ret; lia ..].
  destruct k; cbn in He; try discriminate; injection He as <-;
    cbn [keyword_identifier]; try (run_advance H; apply steps_ret; lia).
  unfold parse_identifier_expression. run_advance H.
  eapply steps_check; [exact H | done |]. rewrite bool_decide_eq_false_2 by done.
  eapply steps_if_check_no; [exact H | done | done |]. apply steps_ret. lia.
Qed.

Lemma atom_paren e fs : Full e fs -> fs <> [] -> Atom e (lparen :: fs ++ [rparen]).
Proof.
  intros He Hne fuel n c ks H Hf Hl Hb. norm H. start_prefix H.
  run_advance H. run_rec H. run_expect H. apply steps_ret. lengths.
Qed.

(** ** Lists, maps and arguments *)

Lemma starts_input fs n c ks :
  starts fs -> input n = map form_kind fs ++ c :: ks ->
  exists x xs, input n = x :: xs /\ starter x = true.
Proof. destruct fs as [|f fs]; [done |]. intros [Hf _] ->. by eexists _, _. Qed.

Lemma reads_until_starter n x xs k :
  input n = x :: xs -> starter x = true -> plain k = true -> starter k = false ->
  reads (until k) n true n.
Proof.
  intros H Hx Hk Hs. pose proof (reads_until _ _ _ _ k H Hk) as Hu.
  rewrite (bool_decide_eq_false_2 (x = k)), (bool_decide_eq_false_2 (x = Eof)) in Hu
    by (intros ->; cbn in *; congruence). exact Hu.
Qed.

Lemma reads_until_end n xs k :
  input n = k :: xs -> plain k = true -> reads (until k) n false n.
Proof.
  intros H Hk. pose proof (reads_until _ _ _ _ k H Hk) as Hu.
  rewrite bool_decide_eq_true_2 in Hu by done. exact Hu.
Qed.

(** The separator after an element: nothing before the closing bracket. *)
Definition separator (close : TokenKind) : Parse unit :=
  last ← check close;
  if (last : bool) then mret tt else _ ← expect Comma; mret tt.

Lemma separator_close close n xs :
  input n = close :: xs -> plain close = true -> reads (separator close) n tt n.
Proof.
  intros H Hc. apply reads_steps. eapply steps_check; [exact H | done |].
  rewrite bool_decide_eq_true_2 by done. apply steps_refl.
Qed.

Lemma separator_comma close n xs :
  input n = Comma :: xs -> plain close = true -> close <> Comma ->
  reads (separator close) n tt (S n).
Proof.
  intros H Hc Hne. apply reads_steps. eapply steps_check; [exact H | done |].
  rewrite bool_decide_eq_false_2 by done.
  eapply steps_expect; [exact H | done |]. intros _. apply steps_refl.
Qed.

(** One element of a list literal, and of a map literal. *)
Definition list_element (fuel : nat) (acc : list Expression) : Parse (list Expression) :=
  e ← rec_expression (parsers fuel) PREC_NONE;
  last ← check RightBracket;
  _ ← (if (last : bool) then mret tt else _ ← expect Comma; mret tt);
  mret (acc ++ [e]).
Definition map_element (fuel : nat) (acc : list (string * Expression))
  : Parse (list (string * Expression)) :=
  kv ← parse_entry (parsers fuel);
  last ← check RightBrace;
  _ ← (if (last : bool) then mret tt else _ ← expect Comma; mret tt);
  mret (acc ++ [kv]).

Lemma reads_separated {A} (m : Parse A) (x : A) close (acc : list A) n n1 n2 :
  reads m n x n1 -> reads (separator close) n1 tt n2 ->
  reads (x ← m; last ← check close;
         _ ← (if (last : bool) then mret tt else _ ← expect Comma; mret tt);
         mret (acc ++ [x])) n (acc ++ [x]) n2.
Proof.
  intros Hm Hs b. specialize (Hm b). specialize (Hs b).
  unfold separator, mbind, parse_bind in *. rewrite Hm.
  destruct (check close _) as [[c p]| | |]; try discriminate Hs.
  by destruct (_ p) as [[[] ?]| | |]; simplify_eq.
Qed.

Definition Items (es : list Expression) (fs : list lexeme_form) : Prop :=
  forall fuel n ks acc,
    input n = map form_kind fs ++ RightBracket :: ks -> length fs <= fuel ->
    reads (while_do (until RightBracket) (list_element fuel) acc) n (acc ++ es) (n + length fs).

Definition Pairs (kvs : list (string * Expression)) (fs : list lexeme_form) : Prop :=
  forall fuel n ks acc,
    input n = map form_kind fs ++ RightBrace :: ks -> length fs <= fuel ->
    reads (while_do (until RightBrace) (map_element fuel) acc) n (acc ++ kvs) (n + length fs).

Lemma list_element_reads e fs fuel n c ks acc n' :
  Full e fs -> starts fs -> input n = map form_kind fs ++ c :: ks -> length fs <= fuel -> ends c ->
  reads (separator RightBracket) (n + length fs) tt n' -> n + length fs <= n' ->
  steps (while_do (until RightBracket) (list_element fuel) acc) n
    (while_do (until RightBracket) (list_element fuel) (acc ++ [e])) n'.
Proof.
  intros He Hs H Hf Hc Hsep Hn. destruct (starts_input _ _ _ _ Hs H) as (x & xs & Hx & Hxs).
  assert (0 < length fs) by (destruct fs; [done | cbn; lia]).
  eapply steps_while; [exact Hx | lia | by eapply reads_until_starter |].
  eapply reads_separated; [| exact Hsep]. eapply rec_full; [done | by intros -> | done..].
Qed.

Lemma items_nil_reads : Items [] [].
Proof.
  intros fuel n ks acc H _. cbn in *. rewrite app_nil_r, Nat.add_0_r.
  apply reads_while_end. by eapply reads_until_end.
Qed.

Lemma items_last_reads e fs : Full e fs -> starts fs -> Items [e] fs.
Proof.
  intros He Hs fuel n ks acc H Hf. pose proof (input_app _ _ _ _ H) as Hr. rewrite length_map in Hr.
  eapply steps_reads; [eapply list_element_reads; [done | done | exact H | done | done | | done] |].
  - by eapply separator_close.
  - apply reads_while_end. by eapply reads_until_end.
Qed.

Lemma items_cons_reads e fs es gs :
  Full e fs -> starts fs -> Items es gs -> Items (e :: es) (fs ++ comma :: gs).
Proof.
  intros He Hs Hes fuel n ks acc H Hf. norm H.
  pose proof (input_app _ _ _ _ H) as Hr. rewrite length_map in Hr.
  rewrite length_app in *. cbn [length] in *.
  eapply steps_reads; [eapply list_element_reads; [done | done | exact H | lia | done | |] |].
  - by eapply separator_comma.
  - lia.
  - replace (acc ++ e :: es) with ((acc ++ [e]) ++ es) by (by rewrite <- app_assoc).
    eapply reads_at; [eapply Hes; [by apply input_S in Hr | lia] | lia].
Qed.

Lemma atom_list es fs : Items es fs -> Atom (EList es) (lbracket :: fs ++ [rbracket]).
Proof.
  intros Hes fuel n c ks H Hf Hl Hb. norm H. start_prefix H. unfold parse_list_literal.
  run_advance H. run_read H ltac:(eapply (Hes fuel _ _ []); [exact H | lengths]).
  run_expect H. apply steps_ret. lengths.
Qed.

(** [key: value]. *)
Lemma entry_reads w name e fs fuel n c ks :
  names w name -> Full e fs -> starts fs ->
  input n = form_kind (LWord w) :: Colon :: map form_kind fs ++ c :: ks ->
  length fs <= fuel -> ends c ->
  reads (parse_entry (parsers fuel)) n (name, e) (S (S n) + length fs).
Proof.
  intros Hw He Hs H Hf Hc. assert (fs <> []) by by intros ->. rewrite Hw in H.
  apply reads_steps. unfold parse_entry.
  eapply steps_name; [exact H |]. intros _ _. apply input_S in H.
  run_expect H. run_rec H. apply steps_refl.
Qed.

Lemma map_element_reads w name e fs fuel n c ks acc n' :
  names w name -> Full e fs -> starts fs ->
  input n = form_kind (LWord w) :: Colon :: map form_kind fs ++ c :: ks ->
  length fs <= fuel -> ends c ->
  reads (separator RightBrace) (S (S n) + length fs) tt n' -> S (S n) + length fs <= n' ->
  steps (while_do (until RightBrace) (map_element fuel) acc) n
    (while_do (until RightBrace) (map_element fuel) (acc ++ [(name, e)])) n'.
Proof.
  intros Hw He Hs H Hf Hc Hsep Hn.
  eapply steps_while; [exact H | lia | |].
  - eapply reads_until_starter; [exact H | by eapply names_starter | done | done].
  - eapply reads_separated; [| exact Hsep]. by eapply entry_reads.
Qed.

Lemma pairs_nil_reads : Pairs [] [].
Proof.
  intros fuel n ks acc H _. cbn in *. rewrite app_nil_r, Nat.add_0_r.
  apply reads_while_end. by eapply reads_until_end.
Qed.

Lemma pairs_last_reads w name e fs :
  names w name -> Full e fs -> starts fs -> Pairs [(name, e)] (LWord w :: colon :: fs).
Proof.
  intros Hw He Hs fuel n ks acc H Hf. norm H. cbn [length] in *.
  pose proof H as Hr. do 2 apply input_S in Hr. apply input_app in Hr. rewrite length_map in Hr.
  eapply steps_reads;
    [eapply map_element_reads; [done | done | done | exact H | lia | done | | done] |].
  - by eapply separator_close.
  - eapply reads_at; [apply reads_while_end; by eapply reads_until_end | lia].
Qed.

Lemma pairs_cons_reads w name e fs kvs gs :
  names w name -> Full e fs -> starts fs -> Pairs kvs gs ->
  Pairs ((name, e) :: kvs) (LWord w :: colon :: fs ++ comma :: gs).
Proof.
  intros Hw He Hs Hkvs fuel n ks acc H Hf. norm H.
  pose proof H as Hr. do 2 apply input_S in Hr. apply input_app in Hr. rewrite length_map in Hr.
  cbn [length] in *. rewrite length_app in *. cbn [length] in *.
  eapply steps_reads;
    [eapply map_element_reads; [done | done | done | exact H | lia | done | |] |].
  - by eapply separator_comma.
  - lia.
  - replace (acc ++ (name, e) :: kvs) with ((acc ++ [(name, e)]) ++ kvs) by (by rewrite <- app_assoc).
    eapply reads_at; [eapply Hkvs; [by apply input_S in Hr | lia] | lia].
Qed.

Lemma atom_map kvs fs : Pairs kvs fs -> Atom (EMapLiteral kvs) (lbrace :: fs ++ [rbrace]).
Proof.
  intros Hes fuel n c ks H Hf Hl Hb. norm H. start_prefix H. unfold parse_map_literal.
  run_advance H. run_read H ltac:(eapply (Hes fuel _ _ []); [exact H | lengths]).
  run_expect H. apply steps_ret. lengths.
Qed.

(** ** Schema constructors *)

Definition Fields (kvs : list (string * Expression)) (fs : list lexeme_form) : Prop :=
  forall fuel n ks acc,
    input n = map form_kind fs ++ RightBrace :: ks -> length fs <= fuel ->
    reads (iterate (parse_constructor_field (parsers fuel)) acc) n (acc ++ kvs) (n + length fs).

(** One field, up to the separator. *)
Lemma field_steps w name e fs fuel n c ks acc (m : Parse (control (list (string * Expression)))) n' :
  names w name -> Full e fs -> starts fs ->
  input n = form_kind (LWord w) :: Colon :: map form_kind fs ++ c :: ks ->
  length fs <= fuel -> ends c ->
  steps (_ ← if_check Comma (mret tt) (mret tt); _ ← skip_newlines;
         mret (Continue (acc ++ [(name, e)]))) (S (S n) + length fs) m n' ->
  steps (parse_constructor_field (parsers fuel) acc) n m n'.
Proof.
  intros Hw He Hs H Hf Hc Hm. unfold parse_constructor_field.
  pose proof (names_starter _ _ Hw) as Hst.
  eapply steps_then; [by eapply reads_until_starter |]. cbv beta. cbn [negb].
  eapply steps_then; [eapply reads_skip_newlines; [exact H |] |].
  { intros Hx. by rewrite Hx in Hst. }
  eapply steps_check; [exact H | done |].
  rewrite bool_decide_eq_false_2 by (intros Hx; by rewrite Hx in Hst).
  eapply steps_then; [by eapply entry_reads |]. exact Hm.
Qed.

Lemma fields_end fuel n ks acc :
  input n = RightBrace :: ks ->
  reads (iterate (parse_constructor_field (parsers fuel)) acc) n acc n.
Proof.
  intros H. apply reads_break, reads_steps. unfold parse_constructor_field.
  eapply steps_then; [by eapply reads_until_end |]. apply steps_refl.
Qed.

Lemma fields_nil_reads : Fields [] [].
Proof.
  intros fuel n ks acc H _. cbn in *. rewrite app_nil_r, Nat.add_0_r. by eapply fields_end.
Qed.

Lemma fields_last_reads w name e fs :
  names w name -> Full e fs -> starts fs -> Fields [(name, e)] (LWord w :: colon :: fs).
Proof.
  intros Hw He Hs fuel n ks acc H Hf. norm H. cbn [length] in *.
  pose proof H as Hr. do 2 apply input_S in Hr. apply input_app in Hr. rewrite length_map in Hr.
  destruct (input_lookup _ _ _ _ H) as (_ & _ & _ & Hlt).
  eapply steps_reads; [eapply steps_continue; [done | | apply reads_steps] |].
  2: { eapply field_steps; [done | done | done | exact H | lia | done |].
       eapply steps_then; [apply reads_steps |].
       { eapply steps_if_check_no; [exact Hr | done | done | apply steps_refl]. }
       eapply steps_then; [eapply reads_skip_newlines; [exact Hr | done] |].
       apply steps_refl. }
  - lia.
  - eapply reads_at; [by eapply fields_end | lia].
Qed.

Lemma fields_cons_reads w name e fs kvs gs :
  names w name -> Full e fs -> starts fs -> Fields kvs gs -> starts_or_empty gs ->
  Fields ((name, e) :: kvs) (LWord w :: colon :: fs ++ comma :: gs).
Proof.
  intros Hw He Hs Hkvs Hgs fuel n ks acc H Hf. norm H.
  pose proof H as Hr. do 2 apply input_S in Hr. apply input_app in Hr. rewrite length_map in Hr.
  cbn [length] in *. rewrite length_app in *. cbn [length] in *.
  destruct (input_lookup _ _ _ _ H) as (_ & _ & _ & Hlt).
  assert (exists x xs, map form_kind gs ++ RightBrace :: ks = x :: xs /\ x <> Newline) as (x & xs & Hx & Hxn).
  { destruct gs as [|g gs]; [by eexists _, _ |]. eexists _, _. split; [reflexivity |].
    intros Heq. cbn in Hgs. by rewrite Heq in Hgs. }
  eapply steps_reads; [eapply steps_continue; [done | | apply reads_steps] |].
  2: { eapply field_steps; [done | done | done | exact H | lia | done |].
       eapply steps_then; [apply reads_steps |].
       - eapply steps_if_check_yes; [exact Hr | done | apply steps_refl].
       - apply input_S in Hr. rewrite Hx in Hr.
         eapply steps_then; [eapply reads_skip_newlines; [exact Hr | done] |].
         apply steps_refl. }
  - lia.
  - replace (acc ++ (name, e) :: kvs) with ((acc ++ [(name, e)]) ++ kvs) by (by rewrite <- app_assoc).
    eapply reads_at; [eapply Hkvs; [by apply input_S in Hr | lia] | lia].
Qed.

Lemma atom_schema w name kvs fs :
  names w name -> Fields kvs fs ->
  Atom (ESchemaConstructor name kvs) (LWord w :: lbrace :: fs ++ [rbrace]).
Proof.
  intros Hw Hes fuel n c ks H Hf Hl Hb. norm H. rewrite Hw in H. start_prefix H.
  unfold parse_identifier_expression. run_advance H.
  eapply steps_check; [exact H | done |]. rewrite bool_decide_eq_true_2 by done.
  unfold parse_schema_constructor. run_expect H.
  run_read H ltac:(eapply (Hes fuel _ _ []); [exact H | lengths]).
  run_expect H. apply steps_ret. lengths.
Qed.

(** ** Argument lists *)

Definition Arg (a : Argument) (fs : list lexeme_form) : Prop :=
  forall fuel n c ks acc,
    input n = map form_kind fs ++ c :: ks -> length fs <= fuel ->
    (c = RightParen ->
       reads (parse_argument (parsers fuel) acc) n (Break (acc ++ [a])) (n + length fs)) /\
    (forall d ds, c = Comma -> ks = d :: ds -> d <> RightParen ->
       reads (parse_argument (parsers fuel) acc) n (Continue (acc ++ [a])) (S (n + length fs))).

Definition Args (args : list Argument) (fs : list lexeme_form) : Prop :=
  (args = [] -> fs = []) /\
  (args <> [] -> fs <> [] /\ forall fuel n ks acc,
    input n = map form_kind fs ++ RightParen :: ks -> length fs <= fuel ->
    reads (iterate (parse_argument (parsers fuel)) acc) n (acc ++ args) (n + length fs)).

(** A positional argument is not taken for a named one. *)
Lemma second_not_colon fs n c ks :
  starts fs -> c <> Colon -> input n = map form_kind fs ++ c :: ks ->
  exists x xs, input n = x :: xs /\ head xs <> Some Colon.
Proof.
  destruct fs as [|f [|g fs]]; cbn; [done | |]; intros [_ Hg] Hc ->; eexists _, _;
    (split; [reflexivity |]); cbn; congruence.
Qed.

(** The separator after a positional argument, and after a named one. *)
Lemma positional_reads e fs : Full e fs -> starts fs -> Arg (Positional e) fs.
Proof.
  intros He Hs fuel n c ks acc H Hf. assert (fs <> []) by by intros ->.
  pose proof (input_app _ _ _ _ H) as Hr. rewrite length_map in Hr.
  assert (forall (m : Parse (control (list Argument))) n', c <> Colon -> ends c ->
    steps (last ← check RightParen;
           _ ← (if (last : bool) then mret tt else _ ← expect Comma; mret tt);
           last ← check RightParen;
           if (last : bool) then mret (Break (acc ++ [Positional e]))
           else mret (Continue (acc ++ [Positional e]))) (n + length fs) m n' ->
    steps (parse_argument (parsers fuel) acc) n m n') as Hsteps.
  { intros m n' Hcc Hc Hm. destruct (second_not_colon _ _ _ _ Hs Hcc H) as (x & xs & Hx & Hxs).
    assert (reads named_argument_name n None n) as Hn.
    { eapply reads_bind; [by eapply reads_peek_kind |].
      rewrite bool_decide_eq_false_2 by done. apply reads_ret. }
    unfold parse_argument. eapply steps_then; [exact Hn |].
    cbv beta iota. eapply steps_then; [by eapply rec_full |]. exact Hm. }
  split.
  - intros ->. apply reads_steps, Hsteps; [done | done |].
    eapply steps_check; [exact Hr | done |]. rewrite bool_decide_eq_true_2 by done.
    eapply steps_then; [apply reads_ret |]. cbv beta.
    eapply steps_check; [exact Hr | done |]. rewrite bool_decide_eq_true_2 by done. apply steps_refl.
  - intros d ds -> -> Hd. apply reads_steps, Hsteps; [done | done |].
    eapply steps_check; [exact Hr | done |]. rewrite bool_decide_eq_false_2 by done.
    eapply steps_then; [apply reads_steps; run_expect Hr; apply steps_refl |]. cbv beta.
    apply input_S in Hr. eapply steps_check; [exact Hr | done |].
    rewrite bool_decide_eq_false_2 by done. apply steps_refl.
Qed.

Lemma named_reads w name e fs :
  names w name -> Full e fs -> starts fs -> Arg (Named name e) (LWord w :: colon :: fs).
Proof.
  intros Hw He Hs fuel n c ks acc H Hf. assert (fs <> []) by by intros ->. norm H. rewrite Hw in H.
  cbn [length] in *. pose proof H as Hr. do 2 apply input_S in Hr. pose proof Hr as Hv.
  apply input_app in Hr. rewrite length_map in Hr.
  assert (forall (m : Parse (control (list Argument))) n', ends c ->
    steps (last ← check RightParen;
           if (last : bool) then mret (Break (acc ++ [Named name e]))
           else _ ← expect Comma; mret (Continue (acc ++ [Named name e]))) (S (S n) + length fs) m n' ->
    steps (parse_argument (parsers fuel) acc) n m n') as Hsteps.
  { intros m n' Hc Hm. assert (reads named_argument_name n (Some name) n) as Hn.
    { eapply reads_bind; [by eapply reads_peek_kind |].
      cbn [head]. rewrite bool_decide_eq_true_2 by done.
      eapply reads_bind; [by eapply reads_current_kind |]. apply reads_ret. }
    unfold parse_argument. eapply steps_then; [exact Hn |].
    cbv beta iota. run_advance H. run_advance H.
    eapply steps_then; [eapply rec_full; [done | done | exact Hv | lia | done] |].
      exact Hm. }
  split.
  - intros ->. apply reads_steps, Hsteps; [done |].
    eapply steps_check; [exact Hr | done |]. rewrite bool_decide_eq_true_2 by done.
    apply steps_ret. lia.
  - intros d ds -> -> Hd. apply reads_steps, Hsteps; [done |].
    eapply steps_check; [exact Hr | done |]. rewrite bool_decide_eq_false_2 by done.
    run_expect Hr. apply steps_ret. lia.
Qed.

Lemma args_nil_reads : Args [] [].
Proof. by split. Qed.

Lemma args_last_reads a fs : Arg a fs -> fs <> [] -> Args [a] fs.
Proof.
  intros Ha Hne. split; [done |]. intros _. split; [done |]. intros fuel n ks acc H Hf.
  destruct (Ha fuel n RightParen ks acc H Hf) as [Hend _]. by apply reads_break, Hend.
Qed.

Lemma args_cons_reads a fs b args gs :
  Arg a fs -> fs <> [] -> Args (b :: args) gs -> starts_or_empty gs ->
  Args (a :: b :: args) (fs ++ comma :: gs).
Proof.
  intros Ha Hne [_ Hargs] Hgs. destruct (Hargs ltac:(done)) as [Hgne Hreads].
  split; [done |]. intros _. split; [by destruct fs |]. intros fuel n ks acc H Hf. norm H.
  pose proof (input_app _ _ _ _ H) as Hr. rewrite length_map in Hr. apply input_S in Hr.
  rewrite length_app in *. cbn [length] in *.
  destruct gs as [|g gs]; [done |]. cbn in Hgs.
  destruct (Ha fuel n Comma (map form_kind (g :: gs) ++ RightParen :: ks) acc H) as [_ Hstep]; [lia |].
  eapply steps_reads; [eapply steps_continue; [| | eapply Hstep; [done | reflexivity |]] |].
  - destruct fs; [done |]. cbn in H. by destruct (input_lookup _ _ _ _ H) as (_ & _ & _ & ?).
  - lia.
  - intros Heq. by rewrite Heq in Hgs.
  - replace (acc ++ a :: b :: args) with ((acc ++ [a]) ++ b :: args) by (by rewrite <- app_assoc).
    eapply reads_at; [eapply Hreads; [exact Hr | lia] | lia].
Qed.

Lemma argument_list_reads args fs fuel n ks :
  Args args fs -> starts_or_empty fs -> input n = map form_kind fs ++ RightParen :: ks ->
  length fs <= fuel ->
  reads (parse_argument_list (parsers fuel)) n args (n + length fs).
Proof.
  intros [Hnil Hargs] Hs H Hf. apply reads_steps. unfold parse_argument_list.
  destruct args as [|a args].
  - rewrite Hnil in * by done. cbn in H. eapply steps_check; [exact H | done |].
    rewrite bool_decide_eq_true_2 by done. apply steps_ret. cbn. lia.
  - destruct (Hargs ltac:(done)) as [Hne Hreads]. destruct fs as [|f fs]; [done |]. cbn in Hs.
    eapply steps_check; [exact H | done |].
    rewrite bool_decide_eq_false_2 by (intros Heq; by rewrite Heq in Hs).
    apply reads_steps. by eapply (Hreads fuel n ks []).
Qed.

Lemma atom_call w name args fs :
  names w name -> Args args fs -> starts_or_empty fs ->
  Atom (EFunctionCall name args) (LWord w :: lparen :: fs ++ [rparen]).
Proof.
  intros Hw Ha Hs fuel n c ks H Hf Hl Hb. norm H. rewrite Hw in H. start_prefix H.
  unfold parse_identifier_expression. run_advance H.
  eapply steps_check; [exact H | done |]. rewrite bool_decide_eq_false_2 by done.
  eapply steps_if_check_yes; [exact H | done |]. apply input_S in H.
  run_read H ltac:(eapply argument_list_reads; [done | done | exact H | lengths]).
  run_expect H. apply steps_ret. lengths.
Qed.

Lemma atom_task w name : names w name -> Atom (ETaskCall name) [word "task"; lparen; LWord w; rparen].
Proof.
  intros Hw fuel n c ks H Hf Hl Hb. norm H. rewrite Hw in H. start_prefix H. cbn [head].
  rewrite bool_decide_eq_true_2 by done. unfold parse_task_call. run_advance H. run_advance H.
  eapply steps_identifier; [exact H |]. intros _ _. apply input_S in H.
  run_expect H. apply steps_ret. lengths.
Qed.

(** ** Operators *)

Lemma head_lower j k e fs : Head k e fs -> j <= k -> Head j e fs.
Proof.
  intros Hh Hle fuel n c ks m H Hf Hu Hc. eapply Hh; [exact H | done | | by eapply follows_le].
  unfold under in *. unfold PREC_UNARY in *. lia.
Qed.

Lemma head_full k e fs : 0 < k -> Head k e fs -> Full e fs.
Proof.
  intros Hk Hh fuel n c ks H Hf (Hc & Has & Hr).
  eapply head_expression; [done | exact H | done | by left | | | done].
  - eapply follows_le; [| exact Hc]. lia.
  - by destruct Hc.
Qed.

(** An operand of level [k] followed by the operator [f] and the rest of a
    form of level [k']. *)
Lemma head_then k e fs f gs k' e' :
  Head k e fs -> fs <> [] -> k' <= k -> k' <> PREC_UNARY ->
  follows k (form_kind f) -> k' <= infix_precedence (form_kind f) ->
  (forall fuel n c ks,
     input n = form_kind f :: map form_kind gs ++ c :: ks -> length gs < fuel -> follows k' c ->
     reads (parse_infix (parsers fuel) e (infix_precedence (form_kind f))) n e' (n + S (length gs))) ->
  Head k' e' (fs ++ f :: gs).
Proof.
  intros Hh Hne Hk Hku Hfg Hp Hread fuel n c ks m H Hf Hu Hc. norm H.
  pose proof (input_app _ _ _ _ H) as Hr. rewrite length_map in Hr.
  rewrite length_app in *. cbn [length] in *. rewrite Nat.add_assoc.
  assert (m < k') as Hm by (unfold under in Hu; lia).
  assert (0 < length fs) by (destruct fs; [done | cbn; lia]).
  eapply steps_trans; [eapply Hh; [exact H | lia | by left; lia | done] |].
  eapply loop_continues; [exact Hr | lia | lia |]. eapply Hread; [exact Hr | lia | done].
Qed.

Lemma head_property e fs w name :
  Head PREC_CALL e fs -> fs <> [] -> names w name ->
  Head PREC_CALL (EPropertyAccess e name) (fs ++ [dot; LWord w]).
Proof.
  intros Hh Hne Hw. eapply head_then; [done | done | done | done | by apply follows_plain | done |].
  intros fuel n c ks H Hf (_ & Hl & _). norm H. rewrite Hw in H. apply reads_steps.
  unfold parse_infix. eapply steps_then; [by eapply reads_current_kind |].
  cbv beta. rewrite kind_dot. cbv iota. unfold parse_member. run_advance H.
  eapply steps_name; [exact H |]. intros _ _. apply input_S in H.
  eapply steps_if_check_no; [exact H | done | done |]. apply steps_ret. cbn. lia.
Qed.

Lemma head_method e fs w name args gs :
  Head PREC_CALL e fs -> fs <> [] -> names w name -> Args args gs -> starts_or_empty gs ->
  Head PREC_CALL (EMethodCall e name args) (fs ++ dot :: LWord w :: lparen :: gs ++ [rparen]).
Proof.
  intros Hh Hne Hw Ha Hs.
  eapply head_then; [done | done | done | done | by apply follows_plain | done |].
  intros fuel n c ks H Hf _. norm H. rewrite Hw in H. apply reads_steps.
  unfold parse_infix. eapply steps_then; [by eapply reads_current_kind |].
  cbv beta. rewrite kind_dot. cbv iota. unfold parse_member. run_advance H.
  eapply steps_name; [exact H |]. intros _ _. apply input_S in H.
  eapply steps_if_check_yes; [exact H | done |]. apply input_S in H.
  run_read H ltac:(eapply argument_list_reads; [done | done | exact H | lengths]).
  run_expect H. apply steps_ret. lengths.
Qed.

Lemma head_subscript e fs key gs :
  Head PREC_CALL e fs -> fs <> [] -> Full key gs -> gs <> [] ->
  Head PREC_CALL (ESubscript e key) (fs ++ lbracket :: gs ++ [rbracket]).
Proof.
  intros Hh Hne Hk Hgs.
  eapply head_then; [done | done | done | done | by apply follows_plain | done |].
  intros fuel n c ks H Hf _. norm H. apply reads_steps.
  unfold parse_infix. eapply steps_then; [by eapply reads_current_kind |].
  cbv beta. rewrite kind_lbracket. cbv iota. unfold parse_subscript. run_advance H.
  run_rec H. run_expect H. apply steps_ret. lengths.
Qed.

Lemma head_unary f op e fs :
  unop_of (form_kind f) = Some op -> Head PREC_UNARY e fs -> fs <> [] ->
  Head PREC_UNARY (EUnaryOp op e) (f :: fs).
Proof.
  intros Hop Hh Hne fuel n c ks m H Hf Hu Hc. apply steps_bind. cbn in H.
  destruct (form_kind f) eqn:Hk; try discriminate; injection Hop as <-; start_prefix H;
    cbn [length] in *; run_advance H;
    (run_read H ltac:(eapply rec_head;
       [done | done | exact H | lia | by right | done | by destruct Hc | done]));
    apply steps_ret; lia.
Qed.

Lemma binop_level k op :
  binop_of k = Some op ->
  1 <= infix_precedence k < PREC_UNARY /\ k <> LeftParen /\ k <> LeftBrace /\ k <> Pipeline /\ k <> Newline.
Proof.
  destruct k; cbn; try discriminate; intros H; unfold PREC_UNARY, PREC_OR, PREC_AND, PREC_EQUALITY,
    PREC_COMPARISON, PREC_ADDITION, PREC_MULTIPLICATION; try (split_and!; (done || lia)).
  case_match; [| done]. split_and!; (done || lia).
Qed.

(** The infix method of a binary operator. *)
Lemma binary_reads k op left fuel n xs right n' :
  binop_of k = Some op -> input n = k :: xs ->
  reads (rec_expression (parsers fuel) (infix_precedence k)) (S n) right n' ->
  reads (parse_infix (parsers fuel) left (infix_precedence k)) n (EBinaryOp left op right) n'.
Proof.
  intros Hop H Hr. apply reads_steps. unfold parse_infix.
  eapply steps_then; [by eapply reads_current_kind |]. cbv beta.
  assert (steps (parse_binary (parsers fuel) left (infix_precedence k)) n
            (mret (EBinaryOp left op right)) n') as Hbin.
  { unfold parse_binary. assert (reads token_to_binop n op n) as Hb.
    { eapply reads_bind; [by eapply reads_current_kind |]. rewrite Hop. apply reads_ret. }
    eapply steps_then; [exact Hb |]. run_advance H. eapply steps_then; [exact Hr |]. apply steps_refl. }
  destruct k; cbn [binop_of] in Hop; try discriminate; try exact Hbin.
  case_match; [| discriminate]. injection Hop as <-.
  unfold parse_in. run_advance H. eapply steps_then; [exact Hr |]. apply steps_refl.
Qed.

Lemma head_binary f op l fl r fr :
  binop_of (form_kind f) = Some op ->
  Head (infix_precedence (form_kind f)) l fl -> fl <> [] ->
  Head (S (infix_precedence (form_kind f))) r fr -> fr <> [] ->
  Head (infix_precedence (form_kind f)) (EBinaryOp l op r) (fl ++ f :: fr).
Proof.
  intros Hop Hl Hlne Hr Hrne.
  destruct (binop_level _ _ Hop) as (Hp & Hk1 & Hk2 & Hk3 & Hk4).
  eapply head_then; [exact Hl | done | done | unfold PREC_UNARY in *; lia | by apply follows_plain | done |].
  intros fuel n c ks H Hf Hc. eapply binary_reads; [exact Hop | exact H |]. apply input_S in H.
  eapply reads_at; [eapply rec_head; [exact Hr | done | exact H | lia | by left; lia | | |] | lia].
  - eapply follows_le; [| exact Hc]. lia.
  - by destruct Hc.
  - lia.
Qed.

(** ** Pipelines *)

Definition Stages (ss : list PipelineStage) (gs : list lexeme_form) : Prop :=
  forall fuel n c ks acc,
    input n = map form_kind gs ++ c :: ks -> length gs <= fuel ->
    follows PREC_UNARY c -> c <> Newline ->
    steps (iterate (parse_pipeline_stage (parsers fuel)) acc) n
      (iterate (parse_pipeline_stage (parsers fuel)) (acc ++ ss)) (n + length gs).

Lemma follows_pipeline k : PREC_AND <= k -> follows k Pipeline.
Proof.
  unfold follows, PREC_AND. cbn. unfold PREC_OR. intros. split_and!; try done; [lia |]. intros. lia.
Qed.

Lemma starter_current_is n x xs k :
  input n = x :: xs -> starter x = true -> starter k = false -> reads (current_is k) n false n.
Proof.
  intros H Hx Hk. pose proof (reads_current_is _ _ _ _ k H) as Hc.
  rewrite bool_decide_eq_false_2 in Hc by (intros ->; congruence). exact Hc.
Qed.

(** A stage of one expression, after [>>]. *)
Lemma stage_reads e fs fuel n c ks :
  Head PREC_CALL e fs -> starts fs -> input n = map form_kind fs ++ c :: ks -> length fs <= fuel ->
  follows PREC_UNARY c ->
  reads (parse_stage (parsers fuel)) n (PSExpression e, true) (n + length fs).
Proof.
  intros Hh Hs H Hf Hc. destruct (starts_input _ _ _ _ Hs H) as (x & xs & Hx & Hxs).
  unfold parse_stage.
  eapply reads_bind; [by eapply (starter_current_is _ _ _ Map) |]. cbv iota.
  eapply reads_bind; [by eapply (starter_current_is _ _ _ Reduce) |]. cbv iota.
  eapply reads_bind; [by eapply (starter_current_is _ _ _ Rescue) |]. cbv iota.
  eapply reads_bind; [eapply rec_head; [exact Hh | by intros -> | exact H | done | | | |] | apply reads_ret].
  - left. unfold PREC_CALL. lia.
  - eapply follows_le; [| exact Hc]. unfold PREC_UNARY, PREC_CALL. lia.
  - by destruct Hc.
  - done.
Qed.

Lemma skip_starter fs n c ks :
  starts fs -> input n = map form_kind fs ++ c :: ks -> reads skip_newlines n tt n.
Proof.
  intros Hs H. destruct (starts_input _ _ _ _ Hs H) as (x & xs & Hx & Hxs).
  eapply reads_skip_newlines; [exact Hx | by intros ->].
Qed.

Lemma stages_nil_reads : Stages [] [].
Proof.
  intros fuel n c ks acc H _ _ _. cbn. rewrite app_nil_r, Nat.add_0_r. apply steps_refl.
Qed.

Lemma stages_cons_reads e fs ss gs :
  Head PREC_CALL e fs -> starts fs -> Stages ss gs -> pipe_or_empty gs ->
  Stages (PSExpression e :: ss) (pipe :: fs ++ gs).
Proof.
  intros Hh Hs Hss Hgs fuel n c ks acc H Hf Hc Hnl. norm H.
  cbn [length] in *. rewrite length_app in *.
  destruct (input_lookup _ _ _ _ H) as (_ & _ & _ & Hlt).
  assert (exists d ds, map form_kind gs ++ c :: ks = d :: ds /\ follows PREC_UNARY d /\ d <> Newline)
    as (d & ds & Hd & Hdf & Hdn).
  { destruct gs as [|g gs]; [by eexists _, _ |]. cbn in Hgs. cbn. rewrite Hgs.
    eexists _, _. split; [reflexivity |]. split; [| done]. apply follows_pipeline.
    unfold PREC_AND, PREC_UNARY. lia. }
  rewrite Hd in H. pose proof (input_S _ _ _ _ H) as H1. pose proof (input_app _ _ _ _ H1) as Hr.
  rewrite length_map in Hr.
  eapply steps_trans.
  - eapply (steps_continue _ _ _ _ _ (S n + length fs)); [done | lia |].
    apply reads_steps. unfold parse_pipeline_stage. eapply steps_check; [exact H | done |].
    rewrite bool_decide_eq_true_2 by done. cbn [negb]. cbv iota. run_advance H.
    eapply steps_then; [by eapply skip_starter |].
    eapply steps_then; [eapply stage_reads; [exact Hh | done | exact H | lia | done] |]. cbv iota.
    eapply steps_then; [by eapply reads_skip_newlines |]. apply steps_refl.
  - replace (acc ++ PSExpression e :: ss) with ((acc ++ [PSExpression e]) ++ ss)
      by (by rewrite <- app_assoc).
    replace (n + S (length fs + length gs)) with (S n + length fs + length gs) by lia.
    eapply Hss; [by rewrite Hr, Hd | lia | done | done].
Qed.

Lemma head_pipeline e fs ss gs :
  Head PREC_AND e fs -> fs <> [] -> Stages ss gs -> pipe_or_empty gs -> gs <> [] ->
  Head PREC_OR (EPipeline e ss) (fs ++ gs).
Proof.
  intros Hh Hne Hss Hp Hgs. destruct gs as [|g gs]; [done |]. cbn in Hp.
  eapply head_then; [exact Hh | done | by unfold PREC_OR, PREC_AND; lia | done | | by rewrite Hp |].
  { rewrite Hp. by apply follows_pipeline. }
  intros fuel n c ks H Hf Hc. apply reads_steps. unfold parse_infix.
  assert (input n = map form_kind (g :: gs) ++ c :: ks) as Hin by done.
  rewrite Hp in H. eapply steps_then; [by eapply reads_current_kind |]. cbv iota.
  unfold parse_pipeline_stages. destruct Hc as (Hc1 & Hc2 & Hc3 & Hc4).
  destruct (Hc4 ltac:(unfold PREC_OR; lia)) as [Hcp Hcn].
  eapply steps_then; [| apply steps_refl].
  eapply steps_reads; [eapply (Hss fuel n c ks []); [exact Hin | cbn; lia | | done] |].
  - split_and!; [unfold PREC_UNARY, PREC_OR in *; lia | done | done | done].
  - cbn [app]. apply reads_break, reads_steps. unfold parse_pipeline_stage.
    apply input_app in Hin. rewrite length_map in Hin.
    eapply steps_check; [exact Hin | done |]. rewrite bool_decide_eq_false_2 by done. apply steps_refl.
Qed.

(** ** Modifiers *)

(** An expression at level 0 is an operand and then the modifiers. *)
Lemma full_intro e0 e fuel n n0 n' c ks :
  steps (operand fuel 0) n (loop fuel 0 e0) n0 -> input n0 = c :: ks -> infix_precedence c <= 0 ->
  reads (parse_modifiers (parsers fuel) 0 e0) n0 e n' ->
  reads (parse_expression (parsers fuel) PREC_NONE) n e n'.
Proof.
  intros Ho H Hc Hm. eapply steps_reads; [apply parse_expression_assoc |].
  eapply reads_bind; [| exact Hm]. eapply steps_reads; [exact Ho |]. by eapply loop_stops.
Qed.

Lemma follows_word k c : 1 <= k -> c = Rescue \/ c = As -> follows k c.
Proof. intros Hk [-> | ->]; (apply follows_plain; [cbn; unfold PREC_NONE; lia | done..]). Qed.

(** The rescue modifier. *)
Lemma rescue_modifier_reads e h hs fuel n c ks :
  Full h hs -> hs <> [] -> input n = Rescue :: map form_kind hs ++ c :: ks -> length hs <= fuel ->
  ends c ->
  reads (r ← current_is Rescue;
         if (PREC_NONE =? PREC_NONE) && r then
           _ ← advance; handler ← rec_expression (parsers fuel) PREC_NONE; mret (ERescue e handler)
         else mret e) n (ERescue e h) (n + S (length hs)).
Proof.
  intros Hh Hne H Hf Hc. apply reads_steps. eapply steps_then; [by eapply reads_current_is |].
  rewrite bool_decide_eq_true_2 by done. cbn [Nat.eqb PREC_NONE andb]. run_advance H. run_rec H.
  apply steps_ret. lia.
Qed.

Lemma full_rescue e fs h hs :
  Head PREC_OR e fs -> fs <> [] -> Full h hs -> hs <> [] ->
  Full (ERescue e h) (fs ++ word "rescue" :: hs).
Proof.
  intros He Hne Hh Hhne fuel n c ks H Hf Hc. norm H. rewrite length_app in *. cbn [length] in *.
  pose proof (input_app _ _ _ _ H) as Hr. rewrite length_map in Hr.
  assert (0 < length fs) by (destruct fs; [done | cbn; lia]).
  eapply full_intro; [eapply He; [exact H | lia | left; unfold PREC_OR; lia | by apply follows_word; auto] | exact Hr | done |].
  unfold parse_modifiers. eapply reads_bind.
  - eapply reads_bind; [by eapply reads_current_is |]. cbn. apply reads_ret.
  - eapply reads_at; [eapply rescue_modifier_reads; [done | done | exact Hr | lia | done] | lia].
Qed.

Lemma as_modifier_reads e w name n ks :
  is_http_client_method_call e = true -> names w name -> input n = As :: form_kind (LWord w) :: ks ->
  reads (a ← current_is As;
         if (PREC_NONE =? PREC_NONE) && a && is_http_client_method_call e then
           _ ← advance; '(schema_name, _, _) ← expect_identifier;
           mret (EHttpClientResponseSchema e schema_name)
         else mret e) n (EHttpClientResponseSchema e name) (S (S n)).
Proof.
  intros He Hw H. rewrite Hw in H. apply reads_steps. eapply steps_then; [by eapply reads_current_is |].
  rewrite bool_decide_eq_true_2, He by done. cbn [Nat.eqb PREC_NONE andb]. run_advance H.
  eapply steps_identifier; [exact H |]. intros l c. apply steps_refl.
Qed.

Lemma full_as e fs w name :
  Head PREC_OR e fs -> fs <> [] -> is_http_client_method_call e = true -> names w name ->
  Full (EHttpClientResponseSchema e name) (fs ++ [word "as"; LWord w]).
Proof.
  intros He Hne Hcall Hw fuel n c ks H Hf (Hc & _ & Hcr). norm H. rewrite length_app in *.
  cbn [length] in *. pose proof (input_app _ _ _ _ H) as Hr. rewrite length_map in Hr.
  assert (0 < length fs) by (destruct fs; [done | cbn; lia]).
  eapply full_intro; [eapply He; [exact H | lia | left; unfold PREC_OR; lia | by apply follows_word; auto] | exact Hr | done |].
  unfold parse_modifiers. eapply reads_bind; [by eapply as_modifier_reads |].
  do 2 apply input_S in Hr. eapply reads_bind; [by eapply reads_current_is |].
  rewrite bool_decide_eq_false_2 by done. rewrite andb_false_r.
  eapply reads_at; [apply reads_ret | lia].
Qed.

Lemma full_as_rescue e fs w name h hs :
  Head PREC_OR e fs -> fs <> [] -> is_http_client_method_call e = true -> names w name ->
  Full h hs -> hs <> [] ->
  Full (ERescue (EHttpClientResponseSchema e name) h)
    (fs ++ word "as" :: LWord w :: word "rescue" :: hs).
Proof.
  intros He Hne Hcall Hw Hh Hhne fuel n c ks H Hf Hc. norm H. rewrite length_app in *.
  cbn [length] in *. pose proof (input_app _ _ _ _ H) as Hr. rewrite length_map in Hr.
  assert (0 < length fs) by (destruct fs; [done | cbn; lia]).
  eapply full_intro; [eapply He; [exact H | lia | left; unfold PREC_OR; lia | by apply follows_word; auto] | exact Hr | done |].
  unfold parse_modifiers. eapply reads_bind; [by eapply as_modifier_reads |].
  do 2 apply input_S in Hr.
  eapply reads_at; [eapply rescue_modifier_reads; [done | done | exact Hr | lia | done] | lia].
Qed.

Lemma full_fail ds e fs :
  Full e fs -> fs <> [] ->
  Full (EFunctionCall "__fail__" [Positional (EInteger (digits_value ds)); Positional e])
    (word "fail" :: LInt ds :: comma :: fs).
Proof.
  intros He Hne fuel n c ks H Hf Hc. norm H. cbn [form_kind length] in *.
  assert (reads (parse_prefix (parsers fuel)) n
    (EFunctionCall "__fail__" [Positional (EInteger (digits_value ds)); Positional e])
    (n + S (S (S (length fs))))) as Hp.
  { pose proof H as H'. start_prefix H'. unfold parse_fail_expression. run_advance H'.
    eapply steps_integer; [exact H' |]. apply input_S in H'. run_expect H'. run_rec H'.
    apply steps_ret. lia. }
  do 3 apply input_S in H. apply input_app in H. rewrite length_map in H.
  replace (S (S (S n)) + length fs) with (n + S (S (S (length fs)))) in H by lia.
  destruct Hc as (Hc & Has & Hr).
  eapply full_intro; [apply steps_bind; exact Hp | exact H | by destruct Hc |].
  eapply modifiers_none; [exact H | done].
Qed.

(** A pipeline that ends in a rescue stage. *)
Lemma rescue_stage_reads h hs fuel n c ks :
  Full h hs -> starts hs -> input n = Rescue :: map form_kind hs ++ c :: ks -> length hs <= fuel ->
  ends c ->
  reads (parse_rescue_stage (parsers fuel)) n (PSRescue (RHInline h)) (n + S (length hs)).
Proof.
  intros Hh Hs H Hf Hc. assert (hs <> []) by by intros ->. apply reads_steps.
  unfold parse_rescue_stage. run_advance H.
  destruct (starts_input _ _ _ _ Hs H) as (x & xs & Hx & Hxs).
  eapply steps_then; [apply (reads_get_pos ts) |].
  eapply steps_then; [by eapply skip_starter |].
  eapply steps_check; [exact Hx | done |].
  rewrite bool_decide_eq_false_2 by (intros ->; discriminate).
  eapply steps_then; [apply (reads_put_pos ts (S n) (S n)) |].
  eapply steps_then; [by eapply reads_current_kind |].
  assert (steps (e ← rec_expression (parsers fuel) PREC_NONE; mret (PSRescue (RHInline e))) (S n)
            (mret (PSRescue (RHInline h))) (n + S (length hs))) as Hrec
    by (run_rec H; apply steps_ret; lia).
  destruct x; try discriminate Hxs; exact Hrec.
Qed.

Lemma full_pipeline_rescue e fs ss gs h hs :
  Head PREC_AND e fs -> fs <> [] -> Stages ss gs -> pipe_or_empty gs -> Full h hs -> starts hs ->
  Full (EPipeline e (ss ++ [PSRescue (RHInline h)])) (fs ++ gs ++ pipe :: word "rescue" :: hs).
Proof.
  intros He Hne Hss Hp Hh Hs fuel n c ks H Hf Hc. rewrite !length_app in *. cbn [length] in *.
  rewrite !map_app, <- !app_assoc in H. cbn [map app] in H. rewrite kind_pipe, kind_rescue in H.
  assert (exists ds, map form_kind gs ++ Pipeline :: Rescue :: map form_kind hs ++ c :: ks
                     = Pipeline :: ds) as [ds Hd].
  { destruct gs as [|g gs]; [by eexists |]. cbn in Hp. cbn. rewrite Hp. by eexists. }
  pose proof (input_app _ _ _ _ H) as H1. rewrite length_map in H1.
  assert (0 < length fs) by (destruct fs; [done | cbn; lia]).
  pose proof (input_app _ _ _ _ H1) as H2. rewrite length_map in H2.
  pose proof (input_S _ _ _ _ H2) as H3.
  pose proof (input_S _ _ _ _ H3) as H4. apply input_app in H4. rewrite length_map in H4.
  assert (steps (operand fuel 0) n
    (loop fuel 0 (EPipeline e (ss ++ [PSRescue (RHInline h)])))
    (n + (length fs + (length gs + S (S (length hs)))))) as Ho.
  { eapply steps_trans; [eapply He; [rewrite Hd in H; exact H | lia | left; unfold PREC_AND; lia |]|].
    { by apply follows_pipeline. }
    eapply loop_continues; [rewrite Hd in H1; exact H1 | cbn; unfold PREC_OR; lia | lia |].
    apply reads_steps. unfold parse_infix.
    eapply steps_then; [rewrite Hd in H1; eapply reads_current_kind; exact H1 |]. cbv iota.
    unfold parse_pipeline_stages. eapply steps_then; [| apply steps_refl].
    eapply steps_reads; [eapply (Hss fuel _ _ _ []); [exact H1 | lia | | done] |].
    { apply follows_pipeline. unfold PREC_AND, PREC_UNARY. lia. }
    cbn [app]. apply reads_break, reads_steps. unfold parse_pipeline_stage.
    eapply steps_check; [exact H2 | done |]. rewrite bool_decide_eq_true_2 by done. cbn [negb]. cbv iota.
    run_advance H2. eapply steps_then; [by eapply reads_skip_newlines |].
    eapply steps_then with (a := (PSRescue (RHInline h), false)); [| apply steps_refl].
    unfold parse_stage. eapply reads_bind; [by eapply reads_current_is |]. cbv iota.
    eapply reads_bind; [by eapply reads_current_is |]. cbv iota.
    eapply reads_bind; [by eapply reads_current_is |]. cbv iota.
    eapply reads_bind; [eapply rescue_stage_reads; [done | done | exact H3 | lia | done] |].
    eapply reads_at; [apply reads_ret | lia]. }
  destruct Hc as (Hc & Has & Hr).
  eapply full_intro; [exact Ho | | by destruct Hc |].
  - eapply eq_trans; [| exact H4]. f_equal. lia.
  - eapply modifiers_none; [| done]. eapply eq_trans; [| exact H4]. f_equal. lia.
Qed.

(** ** The whole grammar *)

Definition Reads (k : nat) (e : Expression) (fs : list lexeme_form) : Prop :=
  (0 < k -> Head k e fs) /\ Full e fs.

Lemma reads_of_head k e fs : 0 < k -> Head k e fs -> Reads k e fs.
Proof. intros Hk Hh. split; [done | by eapply head_full]. Qed.

Lemma reads_of_atom e fs : Atom e fs -> Reads PREC_CALL e fs.
Proof. intros Ha. apply reads_of_head; [unfold PREC_CALL; lia | by apply atom_head]. Qed.

Lemma starts_nonempty fs : starts fs -> fs <> [].
Proof. by destruct fs. Qed.

Lemma grammar_reads :
  (forall k e fs, spells k e fs -> Reads k e fs) /\
  (forall es fs, items es fs -> Items es fs) /\
  (forall kvs fs, pairs kvs fs -> Pairs kvs fs /\ Fields kvs fs) /\
  (forall args fs, arguments args fs -> Args args fs) /\
  (forall a fs, argument a fs -> Arg a fs) /\
  (forall ss gs, stages ss gs -> Stages ss gs).
Proof.
  assert (forall k e fs, spells k e fs -> fs <> []) as Hne
    by (intros k e fs H; eapply starts_nonempty, spells_starts, H).
  assert (forall k e fs, 0 < k -> Reads k e fs -> Head k e fs) as Hhead by (unfold Reads; tauto).
  assert (forall k e fs, Reads k e fs -> Full e fs) as Hfull by (unfold Reads; tauto).
  apply grammar_ind; intros.
  - destruct j as [|j]; [split; [lia | by eapply Hfull] |].
    apply reads_of_head; [lia |]. eapply head_lower; [eapply Hhead; [| done] | done]. lia.
  - apply reads_of_atom. eapply atom_literal; [reflexivity | eauto 10].
  - apply reads_of_atom. eapply atom_literal; [reflexivity | eauto 10].
  - apply reads_of_atom. eapply atom_literal; [reflexivity | eauto 10].
  - apply reads_of_atom. eapply atom_literal; [reflexivity | by left].
  - apply reads_of_atom, atom_paren; [by eapply Hfull | by eapply Hne].
  - by apply reads_of_atom, atom_list.
  - apply reads_of_atom, atom_map; tauto.
  - apply reads_of_atom, atom_schema; tauto.
  - apply reads_of_atom, atom_call; [done | done | by eapply arguments_start].
  - by apply reads_of_atom, atom_task.
  - apply reads_of_head; [unfold PREC_CALL; lia |]. apply head_property; eauto;
      (apply Hhead; [unfold PREC_CALL; lia | done]).
  - apply reads_of_head; [unfold PREC_CALL; lia |]. apply head_method; eauto using arguments_start;
      (apply Hhead; [unfold PREC_CALL; lia | done]).
  - apply reads_of_head; [unfold PREC_CALL; lia |]. apply head_subscript; eauto;
      (apply Hhead; [unfold PREC_CALL; lia | done]).
  - apply reads_of_head; [unfold PREC_UNARY; lia |]. apply head_unary; eauto;
      (apply Hhead; [unfold PREC_UNARY; lia | done]).
  - destruct (binop_level _ _ H) as ([Hp _] & _).
    apply reads_of_head; [lia |]. apply head_binary; eauto; (apply Hhead; [lia | done]).
  - apply reads_of_head; [unfold PREC_OR; lia |]. apply head_pipeline; eauto using stages_start.
    + apply Hhead; [unfold PREC_AND; lia | done].
    + intros ->. inversion H1; by subst.
  - split; [unfold PREC_NONE; lia |].
    apply full_pipeline_rescue; eauto using stages_start, spells_starts;
      (apply Hhead; [unfold PREC_AND; lia | done]).
  - split; [unfold PREC_NONE; lia |]. apply full_rescue; eauto;
      (apply Hhead; [unfold PREC_OR; lia | done]).
  - split; [unfold PREC_NONE; lia |]. apply full_as; eauto;
      (apply Hhead; [unfold PREC_OR; lia | done]).
  - split; [unfold PREC_NONE; lia |]. apply full_as_rescue; eauto;
      (apply Hhead; [unfold PREC_OR; lia | done]).
  - split; [unfold PREC_NONE; lia |]. apply full_fail; eauto.
  - apply items_nil_reads.
  - apply items_last_reads; [by eapply Hfull | by eapply spells_starts].
  - apply items_cons_reads; [by eapply Hfull | by eapply spells_starts | done].
  - split; [apply pairs_nil_reads | apply fields_nil_reads].
  - split; [apply pairs_last_reads | apply fields_last_reads]; eauto using spells_starts.
  - match goal with H : _ /\ _ |- _ => destruct H end.
    split; [apply pairs_cons_reads | apply fields_cons_reads];
      eauto using spells_starts, pairs_start.
  - apply args_nil_reads.
  - apply args_last_reads; [done |]. by eapply (proj1 (proj2 (proj2 (proj2 (proj2 grammar_starts))))).
  - apply args_cons_reads; [done | | done | by eapply arguments_start].
    by eapply (proj1 (proj2 (proj2 (proj2 (proj2 grammar_starts))))).
  - apply positional_reads; [by eapply Hfull | by eapply spells_starts].
  - apply named_reads; [done | by eapply Hfull | by eapply spells_starts].
  - apply stages_nil_reads.
  - apply stages_cons_reads; eauto using spells_starts, stages_start.
    apply Hhead; [unfold PREC_CALL; lia | done].
Qed.
End Grammar.

(** * Statements and programs *)

Section Programs.
Context (ts : list Token).
#[local] Notation input := (input ts).
#[local] Notation reads := (reads ts).
#[local] Notation steps := (steps ts).

(** What a program loop returns at the end of the input. *)
Lemma program_reads fuel n xs s n' :
  input n = xs -> (exists x ys, xs = x :: ys /\ starter x = true) ->
  n < n' -> reads (parse_statement (parsers fuel)) n s n' -> input n' = [Eof] ->
  reads (parse_program fuel) n [s] n'.
Proof.
  intros H (x & ys & -> & Hx) Hn Hs He. apply reads_steps. unfold parse_program.
  eapply steps_then; [eapply reads_skip_newlines; [exact H | by intros ->] |].
  eapply steps_trans; [eapply (steps_while _ _ _ [] [s] n n'); [exact H | done | |] |].
  - eapply reads_bind; [by eapply reads_is_at_end |].
    rewrite bool_decide_eq_false_2 by (intros ->; discriminate). apply reads_ret.
  - eapply reads_bind; [exact Hs |].
    eapply reads_bind; [by eapply reads_skip_newlines | apply reads_ret].
  - apply reads_steps, reads_while_end.
    eapply reads_bind; [by eapply reads_is_at_end |]. rewrite bool_decide_eq_true_2 by done.
    apply reads_ret.
Qed.

Lemma parse_intro s n' :
  reads (parse_program (length ts)) 0 [s] n' -> parse ts = Done [s].
Proof. intros H. unfold parse, Parser_new. by rewrite (H false). Qed.

(** No pipeline follows at the end of the input. *)
Lemma maybe_parse_pipeline_end rec e n :
  input n = [Eof] -> reads (maybe_parse_pipeline rec e) n e n.
Proof.
  intros H. apply reads_steps. unfold maybe_parse_pipeline.
  eapply steps_then; [apply reads_get_pos |].
  eapply steps_then; [by eapply reads_skip_newlines |].
  eapply steps_check; [exact H | done |]. eapply steps_then; [apply reads_ret |]. cbv beta.
  eapply steps_check; [exact H | done |]. cbv iota.
  eapply steps_check; [exact H | done |]. cbv iota.
  eapply steps_then; [apply (reads_put_pos ts n n) |]. apply steps_refl.
Qed.

(** [name = expression] as the only statement. *)
Lemma assignment_reads fuel name e fs :
  Full ts e fs -> starts fs -> length fs <= S fuel ->
  input 0 = Identifier name :: Assign :: map form_kind fs ++ [Eof] ->
  exists l c, reads (parse_statement (parsers fuel)) 0 (SAssignment name e l c) (S (S (length fs))).
Proof.
  intros He Hs Hf H. destruct (current_at ts 0 false _ _ H) as (t & Ht & Hk & _).
  pose proof H as H2. do 2 apply input_S in H2.
  destruct (starts_input ts _ _ _ _ Hs H2) as (x & xs & Hx & Hxs).
  pose proof (He fuel _ _ _ H2 Hf ends_eof) as Hread.
  pose proof H2 as Hend. apply input_app in Hend. rewrite length_map in Hend.
  exists (line t), (column t). apply reads_steps. unfold parse_statement.
  eapply steps_then; [by eapply reads_current_kind |]. cbv iota. unfold parse_other_statement.
  assert (reads current 0 t 0) as Hcur.
  { intros b. destruct (current_at ts 0 b _ _ H) as (t' & Ht' & _ & Hc).
    assert (t' = t) as -> by congruence. exact Hc. }
  assert (exists w, reads is_reserved_word_token 0 w 0) as [w Hw].
  { eexists. unfold is_reserved_word_token, reserved_word_as_name.
    eapply reads_bind; [eapply reads_bind; [exact Hcur | apply reads_ret] | apply reads_ret]. }
  eapply steps_then; [exact Hcur |].
  eapply steps_then; [by eapply reads_peek_kind |]. cbn [head].
  eapply steps_then with (a := true).
  { eapply reads_bind; [by eapply reads_current_kind |].
    eapply reads_bind; [by eapply reads_peek_kind |].
    eapply reads_bind; [exact Hw |]. cbn [head]. apply reads_ret. }
  rewrite Hk. unfold opens_auth, opens_scenario. rewrite !andb_false_r. cbv iota.
  unfold parse_assignment, expect_identifier.
  assert (forall A (f : Name -> Parse A) m n', steps (f (name, line t, column t)) 1 m n' ->
            steps (w ← expect_identifier; f w) 0 m n') as Hid.
  { intros A f m n' Hf'. eapply steps_then; [| exact Hf']. unfold expect_identifier.
    eapply reads_bind; [by eapply reads_is_at_end |]. rewrite bool_decide_eq_false_2 by done.
    eapply reads_bind; [exact Hcur |]. rewrite Hk. apply reads_steps.
    eapply steps_advance; [exact H |]. intros _. apply steps_refl. }
  apply Hid. apply input_S in H. eapply steps_expect; [exact H | done |]. intros _.
  eapply steps_then; [by eapply (starter_current_is ts _ _ _ Match) |].
  eapply steps_then; [by eapply (starter_current_is ts _ _ _ If) |]. cbn [orb].
  eapply steps_then; [exact Hread |].
  unfold if_current. eapply steps_then; [by eapply reads_current_is |].
  rewrite bool_decide_eq_false_2 by done.
  eapply steps_then; [by apply maybe_parse_pipeline_end |]. apply steps_ret. lia.
Qed.
End Programs.

(** The binary operators with their levels, the table of
    docs/spec/001_CORE.md (4.1) with [in] among the comparisons. *)
Definition operator_table : list (TokenKind * BinaryOperator * nat) :=
  [(Or, OpOr, 1); (And, OpAnd, 2); (Equal, OpEqual, 4); (NotEqual, OpNotEqual, 4);
   (Greater, OpGreater, 5); (Less, OpLess, 5); (GreaterEqual, OpGreaterEqual, 5);
   (LessEqual, OpLessEqual, 5); (Identifier "in", OpIn, 5);
   (Plus, Add, 6); (Minus, Subtract, 6); (Star, Multiply, 7); (Slash, Divide, 7);
   (Percent, Modulo, 7)].

Definition in_operator_table (k : TokenKind) (op : BinaryOperator) (n : nat) : Prop :=
  (k, op, n) ∈ operator_table.

Lemma operator_levels k op n :
  in_operator_table k op n <-> binop_of k = Some op /\ infix_precedence k = n.
Proof.
  unfold in_operator_table, operator_table. rewrite !elem_of_cons, elem_of_nil. split.
  - intuition (by simplify_eq).
  - intros [H <-]. destruct k; try discriminate H; cbn in H |- *.
    all: try (injection H as <-; tauto).
    match type of H with
    | context [String.eqb ?name _] => destruct (String.eqb_spec name "in") as [->|]
    end; [injection H as <-; tauto | done].
Qed.

(** C1: the parser implements the grammar: for every spelling [fs] of an
    expression [e], the line [name = fs] is tokenized and parsed into the
    assignment of [e], operators with their precedence and associativity,
    postfix forms, literals, calls, pipelines and modifiers included.  The
    binary operators have exactly the levels of the table of
    docs/spec/001_CORE.md ([or] 1, [and] 2, equality 4, comparisons and [in] 5,
    addition 6, multiplication 7) and are left associative.  Both unary
    operators bind tighter than every binary one (level 8), [not] too: the
    code reads [not a == b] as [(not a) == b], where that table has [not] at
    level 3 and so reads [not (a == b)]; the divergence is among the findings.
    Expressions that need line breaks are not in the grammar. *)
Theorem parse_implements_grammar w name e fs :
  names w name -> spells PREC_NONE e fs -> Forall valid_form (LWord w :: fs) ->
  (exists ts l c,
    tokenize (of_chars (line_text (LWord w :: LPunct Assign "=" :: fs))) = Done ts /\
    parse ts = Done [SAssignment name e l c]) /\
  (forall k op n, in_operator_table k op n <-> binop_of k = Some op /\ infix_precedence k = n) /\
  PREC_NONE = 0 /\ PREC_UNARY = 8 /\ PREC_CALL = 9.
Proof.
  intros Hw Hs Hv. split; [| split; [apply operator_levels | done]].
  apply Forall_cons in Hv as [Hvw Hv].
  destruct (tokenize_line (LWord w :: LPunct Assign "=" :: fs)) as (ts & Hts & Hk).
  { constructor; [done |]. constructor; [| done]. exact (list_elem_of_lookup_2 punctuation 11 (Assign, "="%string) eq_refl). }
  exists ts. cbn [map] in Hk. rewrite Hw in Hk. cbn [app] in Hk.
  assert (input ts 0 = Identifier name :: Assign :: map form_kind fs ++ [Eof]) as H
    by (unfold input; rewrite drop_0; exact Hk).
  assert (length ts = S (S (S (length fs)))) as Hlen
    by (rewrite <- (length_map kind), Hk; cbn; rewrite length_app, length_map; cbn; lia).
  destruct (assignment_reads ts (length ts) name e fs) as (l & c & Hread);
    [by eapply grammar_reads | by eapply spells_starts | lia | exact H |].
  exists l, c. split; [exact Hts |]. eapply parse_intro, program_reads; [exact H | | | exact Hread |].
  - eexists _, _. by split.
  - lia.
  - pose proof H as Hend. do 2 apply input_S in Hend. apply input_app in Hend.
    by rewrite length_map in Hend.
Qed.

(** The grammar is unambiguous: lexemes that spell an expression spell no
    other one. *)
Theorem grammar_unambiguous e e' fs : spells PREC_NONE e fs -> spells PREC_NONE e' fs -> e = e'.
Proof.
  intros H H'.
  set (ts := map (fun k => mkToken k 1 1 EmptyString) (map form_kind fs ++ [Eof])).
  assert (input ts 0 = map form_kind fs ++ [Eof]) as Hi.
  { unfold input, ts. rewrite drop_0, map_map. cbn. apply map_id. }
  pose proof (proj2 (proj1 (grammar_reads ts) _ _ _ H) (length fs) 0 Eof [] Hi
                ltac:(lia) ends_eof false) as Hr.
  pose proof (proj2 (proj1 (grammar_reads ts) _ _ _ H') (length fs) 0 Eof [] Hi
                ltac:(lia) ends_eof false) as Hr'.
  rewrite Hr in Hr'. by injection Hr'.
Qed.

(** [- a.n * (b + 1) == f(c, k: 2) rescue null]. *)
Definition demo_spelling : list lexeme_form :=
  [LPunct Minus "-"; word "a"; dot; word "n"; LPunct Star "*"; lparen; word "b"; LPunct Plus "+";
   LInt (bytes "1"); rparen; LPunct Equal "=="; word "f"; lparen; word "c"; comma; word "k"; colon;
   LInt (bytes "2"); rparen; word "rescue"; word "null"].

Definition demo_expression : Expression :=
  ERescue
    (EBinaryOp
       (EBinaryOp (EUnaryOp Negate (EPropertyAccess (EIdentifier "a") "n")) Multiply
          (EBinaryOp (EIdentifier "b") Add (EInteger 1)))
       OpEqual
       (EFunctionCall "f" [Positional (EIdentifier "c"); Named "k" (EInteger 2)]))
    ENull.

(** Applies a rule of the grammar at a level above the required one. *)
#[local] Tactic Notation "rule" uconstr(r) :=
  eapply sp_lower; [eapply r | apply Nat.leb_le; reflexivity].

Lemma demo_spells : spells PREC_NONE demo_expression demo_spelling.
Proof.
  apply (sp_rescue _ (take 19 demo_spelling)); [| by rule sp_word].
  rule (sp_binary (LPunct Equal "==") OpEqual _ (take 10 demo_spelling)); [reflexivity | |].
  - rule (sp_binary (LPunct Star "*") Multiply _ (take 4 demo_spelling)); [reflexivity | |].
    + rule (sp_unary (LPunct Minus "-")); [reflexivity |].
      rule (sp_property _ [word "a"]); [by rule sp_word | reflexivity].
    + rule (sp_paren _ [word "b"; LPunct Plus "+"; LInt (bytes "1")]).
      rule (sp_binary (LPunct Plus "+") Add _ [word "b"]); [reflexivity | by rule sp_word |].
      rule (sp_int (bytes "1")).
  - rule (sp_call (bytes "f") "f" _ [word "c"; comma; word "k"; colon; LInt (bytes "2")]);
      [reflexivity |].
    apply (arguments_cons _ [word "c"]); [apply argument_positional; by rule sp_word |].
    apply arguments_last, argument_named; [reflexivity |]. rule (sp_int (bytes "2")).
Qed.

Lemma demo_spelling_valid : Forall valid_form (word "x" :: demo_spelling).
Proof.
  unfold demo_spelling, word. rewrite !Forall_cons. split_and!; cbn [valid_form];
    try solve [repeat constructor];
    try (eexists _, _; split_and!; [reflexivity | vm_compute; reflexivity | repeat constructor]);
    try (split_and!; [done | repeat constructor | vm_compute; discriminate]).
  all: unfold punctuation; repeat constructor.
Qed.

Lemma parse_implements_grammar_witness :
  exists ts l c,
    tokenize "x = - a . n * ( b + 1 ) == f ( c , k : 2 ) rescue null " = Done ts /\
    parse ts = Done [SAssignment "x" demo_expression l c].
Proof.
  exact (proj1 (parse_implements_grammar (bytes "x") "x" demo_expression demo_spelling eq_refl demo_spells
           demo_spelling_valid)).
Defined.

(** [not a == b] is [(not a) == b]: the operand of [not] is parsed at the level
    of the unary minus (parser.rs:1352), not below the equality as in the table
    of docs/spec/001_CORE.md (4.1). *)
Lemma not_binds_tighter_than_equality :
  match tokenize "x = not a == b" with
  | Done ts =>
      match parse ts with Done [SAssignment name e _ _] => Some (name, e) | _ => None end
  | _ => None
  end = Some ("x", EBinaryOp (EUnaryOp OpNot (EIdentifier "a")) OpEqual (EIdentifier "b")).
Proof. vm_compute. reflexivity. Qed.

Lemma grammar_unambiguous_witness : demo_expression = demo_expression.
Proof. exact (grammar_unambiguous demo_expression demo_expression demo_spelling demo_spells demo_spells). Defined.
