(* ===== verification/Interp.v ===== *)
(** The state of the evaluator (src/src/interpreter.rs): the record
    [Interpreter], its trace frames, and the methods that read the schemas.

    The fields that evaluation never writes are the record [Config]; a driver
    is a flag there, because its operations are requests (Interaction.v).  A
    method that takes [&mut self] and returns a [Result] is an [Eval A]: from a
    state, a tree of requests whose leaves are a value or an error, with the
    state that is left, or a panic. *)
From stdpp Require Import base list strings gmap.
From Stdlib Require Import ZArith Lia.
From S2P Require Import Prelude RustStr F64 Errors Ast IndexMap Foreign QueryTypes Value Schemas Validator Environment Crates TraceContext FeatureFlags ProjectRuntime Interaction.

(** * Trace frames *)

Inductive FrameLabel : Type :=
| FRoute (verb : HttpVerb) (path : string)
| FTask (name : string)
| FConsumer (kind target : string)
| FOp (op : string)
| FRaw (label : string).

Definition render_label (l : FrameLabel) : string :=
  match l with
  | FRoute verb path => "route " +:+ show_verb verb +:+ " " +:+ path
  | FTask name => "task " +:+ name
  | FConsumer kind target => "consumer " +:+ kind +:+ " " +:+ target
  | FOp op | FRaw op => op
  end.

Record MarretaFrame : Type := mkMarretaFrame {
  mf_label : FrameLabel;
  mf_source_module : option string;
  mf_line : option nat;
  mf_column : option nat;
}.

Definition render_frame (f : MarretaFrame) : string :=
  match mf_source_module f, mf_line f with
  | Some module, Some (S _ as line) =>
      "at " +:+ render_label (mf_label f) +:+ " (" +:+ module +:+ ".marreta:" +:+ show_nat line +:+ ")"
  | _, _ => "at " +:+ render_label (mf_label f)
  end.

Section Interp.
Context `{E : Ext} `{C : !Crates E} `{HO : HashOrder}.

(** * Configuration and state *)

Record Config : Type := mkConfig {
  c_max_recursion_depth : nat;
  c_project_runtime : option ProjectRuntime;
  c_schemas : option (gmap string SchemaDefinition);
  c_db_engine : bool;
  c_doc_engine : bool;
  c_queue_driver : bool;
  c_cache_driver : bool;
  c_cache_default_ttl : option Z;
  c_http_client_driver : bool;
  c_trace_context : option TraceContext;
  c_feature_flags : FeatureFlags;
  (* the environment of the process, and how the engine was compiled *)
  c_env_var : string -> option string;
  c_overflow_checks : bool;
}.

(** [Interpreter::default_max_recursion_depth]. *)
Definition default_max_recursion_depth (env_var : string -> option string) : nat :=
  match env_var "MARRETA_MAX_RECURSION_DEPTH" ≫= parse_u64 with
  | Some n => Z.to_nat n
  | None => 500
  end.

Record Interp : Type := mkInterp {
  i_env : Environment Value;
  i_line : nat;
  i_column : nat;
  i_call_depth : nat;
  i_module : option string;
  i_inside_transaction : bool;
  i_active_tx : option nat;
  i_trace_frames : list MarretaFrame;
}.

(** [Interpreter::from_environment]; [new] starts from an empty environment. *)
Definition from_environment (env : Environment Value) : Interp :=
  mkInterp env 0 0 0 None false None [].
Definition Interp_new : Interp := from_environment Environment_new.

Definition with_env (env : Environment Value) (s : Interp) : Interp :=
  mkInterp env (i_line s) (i_column s) (i_call_depth s) (i_module s) (i_inside_transaction s)
    (i_active_tx s) (i_trace_frames s).
Definition with_position (line column : nat) (s : Interp) : Interp :=
  mkInterp (i_env s) line column (i_call_depth s) (i_module s) (i_inside_transaction s)
    (i_active_tx s) (i_trace_frames s).
Definition with_call_depth (n : nat) (s : Interp) : Interp :=
  mkInterp (i_env s) (i_line s) (i_column s) n (i_module s) (i_inside_transaction s)
    (i_active_tx s) (i_trace_frames s).
Definition with_inside_transaction (b : bool) (s : Interp) : Interp :=
  mkInterp (i_env s) (i_line s) (i_column s) (i_call_depth s) (i_module s) b
    (i_active_tx s) (i_trace_frames s).
Definition with_active_tx (tx : option nat) (s : Interp) : Interp :=
  mkInterp (i_env s) (i_line s) (i_column s) (i_call_depth s) (i_module s)
    (i_inside_transaction s) tx (i_trace_frames s).
Definition with_trace_frames (frames : list MarretaFrame) (s : Interp) : Interp :=
  mkInterp (i_env s) (i_line s) (i_column s) (i_call_depth s) (i_module s)
    (i_inside_transaction s) (i_active_tx s) frames.

(** [fork_with_env]: the fork shares the holder of the transaction. *)
Definition fork_with_env (env : Environment Value) (current_module : option string) (s : Interp)
  : Interp :=
  mkInterp env (i_line s) (i_column s) (i_call_depth s) current_module (i_inside_transaction s)
    (i_active_tx s) (i_trace_frames s).

(** [impl Clone for Interpreter]: the clone gets an empty holder. *)
Definition clone (s : Interp) : Interp := with_active_tx None s.

(** * The monad *)

Inductive Res (A : Type) : Type :=
| RDone (a : A) (s : Interp)
| RFail (e : MarretaError) (s : Interp)
| RPanic
| RNoFuel.
Arguments RDone {A} a s.
Arguments RFail {A} e s.
Arguments RPanic {A}.
Arguments RNoFuel {A}.

Definition Eval (A : Type) : Type := Interp -> Tree (Res A).

#[export] Instance eval_ret : MRet Eval := fun _ a s => TRet (RDone a s).
#[export] Instance eval_bind : MBind Eval := fun _ _ k m s =>
  tree_bind (m s) (fun r =>
    match r with
    | RDone a s => k a s
    | RFail e s => TRet (RFail e s)
    | RPanic => TRet RPanic
    | RNoFuel => TRet RNoFuel
    end).

Definition raise {A} (e : MarretaError) : Eval A := fun s => TRet (RFail e s).
Definition panic {A} : Eval A := fun _ => TRet RPanic.
Definition no_fuel {A} : Eval A := fun _ => TRet RNoFuel.
Definition get_state : Eval Interp := fun s => TRet (RDone s s).
Definition gets {A} (f : Interp -> A) : Eval A := fun s => TRet (RDone (f s) s).
Definition modify (f : Interp -> Interp) : Eval unit := fun s => TRet (RDone tt (f s)).
Definition request (r : Req) : Eval (Answer r) := fun s => TReq r (fun x => TRet (RDone x s)).

(** A [Result] that is inspected instead of returned with [?]. *)
Definition attempt {A} (m : Eval A) : Eval (result MarretaError A) := fun s =>
  tree_bind (m s) (fun r =>
    match r with
    | RDone a s => TRet (RDone (Ok a) s)
    | RFail e s => TRet (RDone (Err e) s)
    | RPanic => TRet RPanic
    | RNoFuel => TRet RNoFuel
    end).

Definition of_outcome {A} (o : outcome MarretaError A) : Eval A :=
  match o with Done a => mret a | Fails e => raise e | Panics => panic | NoFuel => no_fuel end.
Definition of_res {A} (r : result MarretaError A) : Eval A :=
  match r with Ok a => mret a | Err e => raise e end.

(** An error at the current position. *)
Definition raise_at {A} (e : nat -> nat -> MarretaError) : Eval A :=
  fun s => TRet (RFail (e (i_line s) (i_column s)) s).
Definition type_error {A} (message : string) : Eval A := raise_at (TypeError message).
Definition runtime_error {A} (message : string) : Eval A := raise_at (RuntimeError message).
Definition wrong_arity {A} (task_name : string) (expected got : nat) : Eval A :=
  raise_at (WrongArity task_name expected got).
Definition property_not_found {A} (object_type property : string) : Eval A :=
  raise_at (PropertyNotFound object_type property).

(** A loop over a list that collects results, and one that returns nothing. *)
Fixpoint mapE {A B} (f : A -> Eval B) (l : list A) : Eval (list B) :=
  match l with
  | [] => mret []
  | x :: l => y ← f x; ys ← mapE f l; mret (y :: ys)
  end.

Fixpoint foldE {A S} (f : S -> A -> Eval S) (acc : S) (l : list A) : Eval S :=
  match l with
  | [] => mret acc
  | x :: l => acc ← f acc x; foldE f acc l
  end.

(** ** The fields *)

Definition env_get (name : string) : Eval (option Value) := gets (fun s => get name (i_env s)).
Definition env_has (name : string) : Eval bool := gets (fun s => has name (i_env s)).
Definition modify_env (f : Environment Value -> Environment Value) : Eval unit :=
  modify (fun s => with_env (f (i_env s)) s).
Definition env_set (name : string) (v : Value) : Eval unit := modify_env (set name v).
Definition env_update (name : string) (v : Value) : Eval unit := modify_env (update name v).
Definition env_push_scope : Eval unit := modify_env push_scope.
Definition env_pop_scope : Eval unit := modify_env pop_scope.

(** [push_trace_frame]; the guard it returns is the depth to truncate to. *)
Definition push_trace_frame (frame : MarretaFrame) : Eval nat := fun s =>
  TRet (RDone (length (i_trace_frames s))
          (with_trace_frames (i_trace_frames s ++ [frame]) s)).
Definition truncate_frames (depth : nat) : Eval unit :=
  modify (fun s => with_trace_frames (take depth (i_trace_frames s)) s).

Definition enter_route (verb : HttpVerb) (path : string) (module_id : option string)
    (line column : nat) : Eval nat :=
  push_trace_frame (mkMarretaFrame (FRoute verb path) module_id (Some line) (Some column)).
Definition enter_consumer (kind target : string) (module_id : option string)
    (line column : nat) : Eval nat :=
  push_trace_frame (mkMarretaFrame (FConsumer kind target) module_id (Some line) (Some column)).
Definition enter_task (name : string) (source_module : option string) (line column : nat)
  : Eval nat :=
  push_trace_frame (mkMarretaFrame (FTask name) source_module (Some line) (Some column)).

Definition uncaught_trace_lines (err : MarretaError) (s : Interp) : list string :=
  map render_frame
    (i_trace_frames s ++
     match trace_operation_label err with
     | Some op => [mkMarretaFrame (FOp op) (i_module s) (Some (i_line s)) (Some (i_column s))]
     | None => []
     end).

(** * Schemas *)

Variable cfg : Config.

Definition schema_registry_for (module_id : option string) : gmap string SchemaDefinition :=
  match c_project_runtime cfg with
  | Some runtime => visible_schemas_for runtime module_id
  | None => default ∅ (c_schemas cfg)
  end.

Definition resolve_schema (current_module : option string) (schema_name : string)
  : option SchemaDefinition :=
  match c_project_runtime cfg with
  | Some runtime =>
      match runtime_resolve_schema runtime current_module schema_name with
      | Some schema => Some schema
      | None => pr_persistent_schemas runtime !! schema_name
      end
  | None => schemas ← c_schemas cfg; schemas !! schema_name
  end.

(** In a constructor the [id] of a persistent schema is optional. *)
Definition optional_id (schema : SchemaDefinition) : SchemaDefinition :=
  match db_table schema with
  | None => schema
  | Some _ =>
      mkSchemaDefinition (db_table schema)
        (map (fun f => if String.eqb (sf_name f) "id"
                       then mkSchemaField (sf_name f) (field_type f) true else f)
           (sd_fields schema))
  end.

Definition constructor_schema_registry (current_module : option string) (schema_name : string)
  : gmap string SchemaDefinition * option SchemaDefinition :=
  let schemas := schema_registry_for current_module in
  let schemas :=
    match schemas !! schema_name, resolve_schema current_module schema_name with
    | None, Some schema => <[schema_name := schema]> schemas
    | _, _ => schemas
    end in
  let schemas := optional_id <$> schemas in
  (schemas, schemas !! schema_name).

(** [serde_json::from_str(body)], then the string at the key [error]. *)
Definition error_of_body (body : string) : option string :=
  match json_parse body with
  | Ok (JObject entries) =>
      match IM.get "error" entries with Some (JString s) => Some s | _ => None end
  | _ => None
  end.

Definition validation_error_detail (err : MarretaError) : string :=
  match err with
  | HttpResponse _ body _ _ _ => default body (error_of_body body)
  | other => Display other
  end.

Section Undeclared.
Variable schemas : gmap string SchemaDefinition.

Definition Checker : Type := SchemaDefinition -> string -> result string unit.

Definition undeclared_field (m : list (string * Value)) (schema : SchemaDefinition)
  : option string :=
  find (fun key => negb (bool_decide (key ∈ map sf_name (sd_fields schema)))) (IM.keys m).

(** The check of one declared field, given the checks of its value as an
    object and, when the value is a list, of its items. *)
Definition check_declared_field (checks : list (string * (Checker * Checker)))
    (path_prefix : string) (field : SchemaField) : result string unit :=
  match IM.get (sf_name field) checks with
  | None => Ok tt
  | Some (as_object, as_items) =>
      let path := field_path path_prefix (sf_name field) in
      match field_type field with
      | Reference schema_name =>
          match schemas !! schema_name with
          | Some nested_schema => as_object nested_schema path
          | None => Ok tt
          end
      | TypedList (Reference schema_name) =>
          match schemas !! schema_name with
          | Some nested_schema => as_items nested_schema path
          | None => Ok tt
          end
      | _ => Ok tt
      end
  end.

Fixpoint reject_undeclared_schema_fields (value : Value) (schema : SchemaDefinition)
    (path_prefix : string) {struct value} : result string unit :=
  match value with
  | VMap m =>
      match undeclared_field m schema with
      | Some key => Err ("received undeclared field '" +:+ field_path path_prefix key +:+ "'")
      | None =>
          let checks :=
            map (fun kv =>
              (fst kv,
               (fun schema path => reject_undeclared_schema_fields (snd kv) schema path,
                fun schema path =>
                  match snd kv with
                  | VList items =>
                      (fix each (index : nat) (items : list Value) : result string unit :=
                         match items with
                         | [] => Ok tt
                         | item :: items =>
                             _ ← reject_undeclared_schema_fields item schema
                                   (path +:+ "[" +:+ show_nat index +:+ "]");
                             each (S index) items
                         end) 0 items
                  | _ => Ok tt
                  end))) m in
          for_each (check_declared_field checks path_prefix) (sd_fields schema)
      end
  | _ => Ok tt
  end.
End Undeclared.

(** * Rows and relations *)

Definition resolve_schema_name_for_table (current_module : option string) (table : string)
  : option string :=
  match c_project_runtime cfg ≫= fun runtime => resolve_persistent_schema_for_table runtime table with
  | Some (schema_name, _) => Some schema_name
  | None =>
      fst <$> find (is_table_schema table) (entries (schema_registry_for current_module))
  end.

Definition infer_inverse_reference_field (current_module : option string)
    (owner_schema_name target_schema_name : string) : option string :=
  target_schema ← resolve_schema current_module target_schema_name;
  match List.filter (fun field => bool_decide (field_type field = Reference owner_schema_name))
          (sd_fields target_schema) with
  | [field] => Some (sf_name field)
  | _ => None
  end.

Definition eq_filter (column : string) (value : Value) : FilterClause Value :=
  mkFilterClause column FEq value.

Definition with_filters {V} (filters : list (FilterClause V)) (q : QueryState V) : QueryState V :=
  mkQueryState (q_table q) filters (q_joins q) (q_select_cols q) (q_order_by q) (q_limit q)
    (q_offset q) (q_count q) (q_known_columns q).

Definition relation_handle_for_property (current_module : option string) (schema_name : string)
    (fields : list (string * Value)) (property : string) : option Value :=
  schema ← resolve_schema current_module schema_name;
  field ← find (fun f => String.eqb (sf_name f) property) (sd_fields schema);
  match field_type field with
  | Reference target_schema_name =>
      target_schema ← resolve_schema current_module target_schema_name;
      target_table ← db_table target_schema;
      let fk_value := default VNull (IM.get (property +:+ "_id") fields) in
      let query := with_filters [eq_filter "id" fk_value] (QueryState_new target_table) in
      Some (VRelationHandle (mkRelationHandle query One
              (match fk_value with VNull => true | _ => false end)))
  | TypedList (Reference target_schema_name) =>
      target_schema ← resolve_schema current_module target_schema_name;
      target_table ← db_table target_schema;
      inverse_field ← infer_inverse_reference_field current_module schema_name target_schema_name;
      let owner_id := default VNull (IM.get "id" fields) in
      let query := with_filters [eq_filter (inverse_field +:+ "_id") owner_id]
                     (QueryState_new target_table) in
      Some (VRelationHandle (mkRelationHandle query Many false))
  | _ => None
  end.

(** The entries of a [HashMap] collected into an [IndexMap]. *)
Definition row_to_map (row : DbRow) : list (string * Value) := IM.from_pairs (entries row).

Definition db_row_to_value (row : DbRow) : Value := VMap (row_to_map row).

Definition db_row_to_runtime_value (current_module : option string) (table : string) (row : DbRow)
  : outcome MarretaError Value :=
  match resolve_schema_name_for_table current_module table with
  | None => Done (db_row_to_value row)
  | Some schema_name =>
      match resolve_schema current_module schema_name with
      | None => Done (VRelationalRecord schema_name (row_to_map row))
      | Some schema =>
          match coerce_payload (schema_registry_for current_module) (db_row_to_value row) schema with
          | Done (VMap m) => Done (VRelationalRecord schema_name m)
          | Done _ | Fails _ => Done (VRelationalRecord schema_name (row_to_map row))
          | Panics => Panics
          | NoFuel => NoFuel
          end
      end
  end.

(** The pairs of an [IndexMap] collected into a [HashMap]. *)
Definition map_to_row (m : list (string * Value)) : DbRow :=
  fold_left (fun row kv => <[fst kv := snd kv]> row) m ∅.

Definition value_to_db_row (v : Value) : Eval DbRow :=
  match v with
  | VMap m => mret (map_to_row m)
  | other => type_error ("expected a map, got " +:+ type_name other)
  end.

(** [doc::mongodb::value_to_doc_row] and [doc_row_to_value]. *)
Definition value_to_doc_row (v : Value) : Eval DocRow :=
  match v with
  | VMap m => mret (map_to_row m)
  | other => type_error ("expected Map for document data, got " +:+ type_name other)
  end.

Definition doc_row_to_value (row : DocRow) : Value := VMap (row_to_map row).

Definition rows_to_runtime (table : string) (rows : list DbRow) : Eval Value :=
  module ← gets i_module;
  vs ← of_outcome (collect_outcome (db_row_to_runtime_value module table) rows);
  mret (VList vs).

Definition row_to_runtime (table : string) (row : option DbRow) : Eval Value :=
  match row with
  | None => mret VNull
  | Some row => module ← gets i_module; of_outcome (db_row_to_runtime_value module table row)
  end.

(** * The database connection *)

Definition no_db_message : string :=
  "db.* called but no DB is configured (set MARRETA_DB_PROVIDER, MARRETA_DB_HOST, MARRETA_DB_PORT, MARRETA_DB_NAME, MARRETA_DB_USER, and optional MARRETA_DB_PASSWORD)".
Definition no_doc_message : string :=
  "doc.* called but no document DB is configured (set MARRETA_DOC_PROVIDER, MARRETA_DOC_HOST, MARRETA_DOC_PORT, MARRETA_DOC_NAME, optional MARRETA_DOC_USER, and optional MARRETA_DOC_PASSWORD)".

Definition require_db_engine : Eval unit :=
  if c_db_engine cfg then mret tt else type_error no_db_message.
Definition require_doc_engine : Eval unit :=
  if c_doc_engine cfg then mret tt else type_error no_doc_message.

Definition has_active_tx : Eval bool := gets (fun s => bool_decide (is_Some (i_active_tx s))).

(** [take_tx] panics when there is no transaction. *)
Definition take_tx : Eval nat := fun s =>
  match i_active_tx s with
  | Some tx => TRet (RDone tx (with_active_tx None s))
  | None => TRet RPanic
  end.
Definition restore_tx (tx : nat) : Eval unit := modify (with_active_tx (Some tx)).

(** A relational operation: on the open transaction, which is taken and put
    back, or on the pool. *)
Definition db_call (op : DbOperation) : Eval (db_answer op) :=
  active ← has_active_tx;
  answer ← (if (active : bool) then
              tx ← take_tx;
              res ← request (RDb (Some tx) op);
              _ ← restore_tx tx;
              mret res
            else request (RDb None op));
  of_res answer.

Definition doc_call (op : DocOperation) : Eval (doc_answer op) :=
  answer ← request (RDoc op); of_res answer.

End Interp.

Arguments RDone {E A} a s.
Arguments RFail {E A} e s.
Arguments RPanic {E A}.
Arguments RNoFuel {E A}.
