(* ===== verification/EvalLogic.v ===== *)
(** A program logic for the evaluator.

    [triple P m Q R]: from a state in [P], every path of [m] keeps to the
    protocol of transactions and ends with a result in [Q] or an error in [R].
    Evaluation has one invariant, [from s0]: the state is one that [s0] may
    become ([steps]), and the transaction it holds is the one the database has
    open.  [safe m] says that [m] keeps it, whatever [s0] is. *)
From stdpp Require Import base list strings gmap sets.
From Stdlib Require Import ZArith Lia.
From S2P Require Import Prelude RustStr Errors Ast Foreign QueryTypes Value Environment ProjectRuntime Interaction Interp.

(** * The protocol of transactions *)

Section Protocol.
Context `{E : Ext}.

(** The state is the open transaction.  A relational operation goes through it,
    there is one at a time, and only it can be closed.  What the server asks is
    not for evaluation to ask. *)
Definition tx_allowed (g : option nat) (r : Req) : Prop :=
  match r with
  | RDb tx _ => tx = g
  | RBegin => g = None
  | RCommit tx | RRollback tx => g = Some tx
  | RServer _ => False
  | _ => True
  end.

Definition tx_next (g : option nat) (r : Req) : Answer r -> option nat :=
  match r return Answer r -> option nat with
  | RBegin => fun x => match (x : result MarretaError nat) with Ok tx => Some tx | Err _ => g end
  | RCommit _ | RRollback _ => fun _ => None
  | _ => fun _ => g
  end.

(** A broadcast starts outside a transaction, and a branch that ends leaves none
    open. *)
Definition tx_branch_done (o : BranchResult) (g : option nat) : Prop :=
  match o with Done _ | Fails _ => g = None | Panics | NoFuel => True end.

Definition tx_protocol : Protocol (option nat) :=
  mkProtocol tx_allowed tx_next (fun g => g = None) None tx_branch_done.

Definition tx_neutral (r : Req) : bool :=
  match r with RDb _ _ | RBegin | RCommit _ | RRollback _ | RServer _ => false | _ => true end.

Lemma tx_neutral_next r g x : tx_neutral r = true -> tx_next g r x = g.
Proof. by destruct r. Qed.
End Protocol.

(** * What evaluation does to a state *)

Section Steps.
Context `{E : Ext}.

(** No scope goes away, and no variable of a scope. *)
Definition scopes_grow (l l' : list (gmap string Value)) : Prop :=
  exists l1 l2, l' = l1 ++ l2 /\ Forall2 (fun m m' => dom m ⊆ dom m') l l1.

Definition env_grows (e e' : Environment Value) : Prop :=
  base e' = base e /\ scopes_grow (scopes e) (scopes e').

Record steps (s s' : Interp) : Prop := mkSteps {
  steps_call_depth : i_call_depth s' = i_call_depth s;
  steps_module : i_module s' = i_module s;
  steps_inside : i_inside_transaction s' = i_inside_transaction s;
  steps_tx : i_active_tx s' = i_active_tx s;
  steps_env : env_grows (i_env s) (i_env s');
  steps_frames : i_trace_frames s `prefix_of` i_trace_frames s';
}.

Lemma sub_doms_refl (l : list (gmap string Value)) : Forall2 (fun m m' => dom m ⊆ dom m') l l.
Proof. induction l; constructor; done. Qed.

Lemma sub_doms_trans (l l' l'' : list (gmap string Value)) :
  Forall2 (fun m m' => dom m ⊆ dom m') l l' -> Forall2 (fun m m' => dom m ⊆ dom m') l' l'' ->
  Forall2 (fun m m' => dom m ⊆ dom m') l l''.
Proof.
  intros H. revert l''. induction H; intros l'' H'; inversion H'; subst; constructor; auto. set_solver.
Qed.

#[export] Instance scopes_grow_preorder : PreOrder scopes_grow.
Proof.
  split.
  - intros l. exists l, []. rewrite app_nil_r. split; [done |]. apply sub_doms_refl.
  - intros l l' l'' (l1 & l2 & -> & H1) (k1 & k2 & -> & H2).
    apply Forall2_app_inv_l in H2 as (k3 & k4 & H3 & H4 & ->).
    exists k3, (k4 ++ k2). rewrite app_assoc. split; [done |].
    by eapply sub_doms_trans.
Qed.

#[export] Instance env_grows_preorder : PreOrder env_grows.
Proof.
  split; [done |]. intros e e' e'' [Hb Hs] [Hb' Hs']. split; [congruence |]. by etrans.
Qed.

#[export] Instance steps_preorder : PreOrder steps.
Proof.
  split; [by split |].
  intros s s' s'' [] []. split; solve [congruence | by etrans].
Qed.

(** ** Environments *)

Lemma scopes_grow_snoc l l' : scopes_grow l l' -> scopes_grow (l ++ [∅]) (l' ++ [∅]).
Proof.
  intros (l1 & l2 & -> & H). destruct (l2 ++ [∅]) as [|m l3] eqn:Hl; [by destruct l2 |].
  exists (l1 ++ [m]), l3. rewrite <- !app_assoc, Hl. split; [done |].
  apply Forall2_app; [done |]. constructor; [set_solver | done].
Qed.

Lemma push_scope_mono e e' : env_grows e e' -> env_grows (push_scope e) (push_scope e').
Proof. intros [Hb Hs]. split; [done |]. by apply scopes_grow_snoc. Qed.

Lemma push_scope_grows e : env_grows e (push_scope e).
Proof. split; [done |]. exists (scopes e), [∅]. split; [done |]. apply sub_doms_refl. Qed.

Lemma set_grows name v e : env_grows e (set name v e).
Proof.
  unfold set. destruct (rev (scopes e)) as [|m l] eqn:Hr; [done |]. split; [done |]. cbn.
  apply (f_equal (@rev _)) in Hr. rewrite rev_involutive in Hr. cbn in Hr.
  eexists _, []. rewrite app_nil_r, Hr. split; [done |].
  apply Forall2_app; [apply sub_doms_refl |].
  constructor; [set_solver | done].
Qed.

Lemma update_scopes_grow name v l l' :
  update_scopes name v l = Some l' -> Forall2 (fun m m' : gmap string Value => dom m ⊆ dom m') l l'.
Proof.
  revert l'. induction l as [|m l IH]; cbn; [done |]. intros l'.
  destruct (m !! name) eqn:Hm.
  - intros [= <-]. constructor; [set_solver |]. apply sub_doms_refl.
  - destruct (update_scopes name v l) as [l1|]; [| done]. intros [= <-].
    constructor; [done |]. by apply IH.
Qed.

Lemma update_grows name v e : env_grows e (update name v e).
Proof.
  unfold update. destruct (update_scopes name v (rev (scopes e))) as [l|] eqn:Hu; [| apply set_grows].
  split; [done |]. exists (rev l), []. cbn. rewrite app_nil_r. split; [done |].
  apply update_scopes_grow, Forall2_reverse in Hu. unfold reverse in Hu.
  by rewrite <- !rev_alt, rev_involutive in Hu.
Qed.

(** Leaving a scope gives back an environment that has grown from the one it
    was entered in. *)
Lemma pop_scope_grows e e' : env_grows (push_scope e) e' -> env_grows e (pop_scope e').
Proof.
  intros [Hb (l1 & l2 & Hs & HF)]. cbn in *.
  apply Forall2_app_inv_l in HF as (k1 & k2 & Hk & Hm & ->).
  inversion Hm as [|? m ? ? _ Hn]; subst. inversion Hn; subst.
  rewrite <- app_assoc in Hs. cbn in Hs. unfold pop_scope. rewrite Hs.
  destruct (1 <? length (k1 ++ m :: l2)) eqn:Hlen.
  - split; [done |]. cbn. exists k1, (removelast (m :: l2)).
    split; [| done]. by rewrite removelast_app.
  - split; [done |]. rewrite Hs. by exists k1, (m :: l2).
Qed.

(** A variable that was bound stays bound. *)
Lemma env_grows_has name e e' : env_grows e e' -> has name e = true -> has name e' = true.
Proof.
  intros [Hb (l1 & l2 & Hs & HF)]. unfold has. rewrite !orb_true_iff, !existsb_exists, Hb.
  intros [(m & Hin & Hm) | H]; [left | by right].
  rewrite <- in_rev, <- list_elem_of_In in Hin. apply list_elem_of_lookup in Hin as [i Hi].
  destruct (Forall2_lookup_l _ _ _ _ _ HF Hi) as (m' & Hi' & Hd).
  exists m'. rewrite <- in_rev, <- list_elem_of_In, Hs, elem_of_app. split.
  - left. by apply list_elem_of_lookup_2 in Hi'.
  - apply bool_decide_eq_true in Hm. apply bool_decide_eq_true.
    rewrite <- elem_of_dom in *. set_solver.
Qed.
End Steps.

(** * Triples *)

(** Runs the evaluator's monad as far as the state is known. *)
Ltac run_eval :=
  cbv beta iota zeta delta [mbind eval_bind mret eval_ret gets get_state modify request raise raise_at
    attempt of_res of_outcome db_call has_active_tx restore_tx modify_env env_push_scope
    env_pop_scope env_set env_update env_get truncate_frames push_trace_frame];
  cbn [tree_bind wp bool_decide].

Section Triples.
Context `{E : Ext}.
Variable cfg : Config.

Definition St : Type := Interp -> option nat -> Prop.

Definition post {A} (Q : A -> St) (R : St) (r : Res A) (g : option nat) : Prop :=
  match r with
  | RDone a s => Q a s g
  | RFail _ s => R s g
  | RPanic | RNoFuel => True
  end.

Definition triple {A} (P : St) (m : Eval A) (Q : A -> St) (R : St) : Prop :=
  forall s g, P s g -> wp tx_protocol (m s) g (post Q R).

(** The state agrees with the database on the open transaction, and the calls
    are not deeper than they may be. *)
Definition ready (s : Interp) (g : option nat) : Prop :=
  i_active_tx s = g
  /\ i_inside_transaction s = match g with Some _ => true | None => false end
  /\ i_call_depth s <= c_max_recursion_depth cfg.

Definition from (s0 : Interp) : St := fun s g => ready s g /\ steps s0 s.

Definition safe {A} (m : Eval A) : Prop := forall s0, triple (from s0) m (fun _ => from s0) (from s0).

(** ** Rules *)

Lemma triple_mono {A} (P P' : St) (m : Eval A) (Q Q' : A -> St) (R R' : St) :
  triple P m Q R ->
  (forall s g, P' s g -> P s g) -> (forall a s g, Q a s g -> Q' a s g) ->
  (forall s g, R s g -> R' s g) -> triple P' m Q' R'.
Proof.
  intros H HP HQ HR s g Hs. eapply tree_wp_mono; [apply H, HP, Hs |].
  intros [a s'|e s'| |] g'; cbn; auto.
Qed.

Lemma triple_ret {A} (P : St) (a : A) R : triple P (mret a) (fun _ => P) R.
Proof. intros s g H. exact H. Qed.

Lemma triple_bind {A B} (P : St) (m : Eval A) (k : A -> Eval B) (M : A -> St) Q R :
  triple P m M R -> (forall a, triple (M a) (k a) Q R) -> triple P (m ≫= k) Q R.
Proof.
  intros Hm Hk s g Hs. apply tree_wp_bind. eapply tree_wp_mono; [by apply Hm |].
  intros [a s'|e s'| |] g' H; cbn in *; [by apply Hk | done..].
Qed.

Lemma triple_attempt {A} (P : St) (m : Eval A) (Q : result MarretaError A -> St) R :
  triple P m (fun a => Q (Ok a)) (fun s g => forall e, Q (Err e) s g) -> triple P (attempt m) Q R.
Proof.
  intros Hm s g Hs. apply tree_wp_bind. eapply tree_wp_mono; [by apply Hm |].
  intros [a s'|e s'| |] g' H; cbn in *; done.
Qed.

Lemma triple_attempt_inv {A} (P : St) (m : Eval A) R :
  triple P m (fun _ => P) P -> triple P (attempt m) (fun _ => P) R.
Proof. intros Hm. apply triple_attempt. by eapply triple_mono; [apply Hm | ..]. Qed.

Lemma triple_modify (P : St) f Q R :
  (forall s g, P s g -> Q (f s) g) -> triple P (modify f) (fun _ => Q) R.
Proof. intros H s g Hs. by apply H. Qed.

Lemma triple_mapE {A B} (P : St) (f : A -> Eval B) l R :
  (forall a, triple P (f a) (fun _ => P) R) -> triple P (mapE f l) (fun _ => P) R.
Proof.
  intros Hf. induction l; [apply triple_ret |].
  cbn. eapply triple_bind; [done | intros b]. eapply triple_bind; [done | intros bs]. apply triple_ret.
Qed.

(** ** What is safe *)

Lemma from_start s g : ready s g -> from s s g.
Proof. by intros. Qed.

Lemma safe_at {A} (m : Eval A) :
  (forall s g, ready s g -> wp tx_protocol (m s) g (post (fun _ => from s) (from s))) -> safe m.
Proof.
  intros H s0 s g [Hr Hs]. eapply tree_wp_mono; [by apply H |].
  intros [a s'|e s'| |] g'; cbn; try done; intros [Hr' Hs']; split; try done; by etrans.
Qed.

Lemma safe_mret {A} (a : A) : safe (mret a).
Proof. intros s0. apply (triple_ret (from s0)). Qed.

Lemma safe_raise {A} e : safe (raise (A := A) e).
Proof. intros s0 s g H. exact H. Qed.

Lemma safe_raise_at {A} e : safe (raise_at (A := A) e).
Proof. intros s0 s g H. exact H. Qed.

Lemma safe_panic {A} : safe (panic (A := A)).
Proof. intros s0 s g H. exact I. Qed.

Lemma safe_no_fuel {A} : safe (no_fuel (A := A)).
Proof. intros s0 s g H. exact I. Qed.

Lemma safe_gets {A} (f : Interp -> A) : safe (gets f).
Proof. intros s0 s g H. exact H. Qed.

Lemma safe_get_state : safe get_state.
Proof. intros s0 s g H. exact H. Qed.

Lemma safe_bind {A B} (m : Eval A) (k : A -> Eval B) :
  safe m -> (forall a, safe (k a)) -> safe (m ≫= k).
Proof. intros Hm Hk s0. eapply triple_bind; [apply Hm | intros a; apply Hk]. Qed.

Lemma safe_attempt {A} (m : Eval A) : safe m -> safe (attempt m).
Proof. intros Hm s0. apply triple_attempt_inv, Hm. Qed.

Lemma safe_of_outcome {A} (o : outcome MarretaError A) : safe (of_outcome o).
Proof.
  destruct o; [apply safe_mret | apply safe_raise | apply safe_panic | apply safe_no_fuel].
Qed.

Lemma safe_of_res {A} (r : result MarretaError A) : safe (of_res r).
Proof. destruct r; [apply safe_mret | apply safe_raise]. Qed.

Lemma safe_request r : tx_neutral r = true -> safe (request r).
Proof.
  intros Hr s0 s g H. split; [by destruct r |]. intros x. cbn.
  rewrite tx_neutral_next by done. exact H.
Qed.

Lemma from_modify_env f s0 s g :
  (forall e, env_grows e (f e)) -> from s0 s g -> from s0 (with_env (f (i_env s)) s) g.
Proof.
  intros Hf [Hr Hs]. split; [done |]. etrans; [exact Hs |]. split; cbn; done || apply Hf.
Qed.

Lemma safe_modify_env f : (forall e, env_grows e (f e)) -> safe (modify_env f).
Proof. intros Hf s0 s g H. by apply from_modify_env. Qed.

Lemma safe_env_set name v : safe (env_set name v).
Proof. apply safe_modify_env. intros. apply set_grows. Qed.

Lemma safe_env_update name v : safe (env_update name v).
Proof. apply safe_modify_env. intros. apply update_grows. Qed.

Lemma safe_push_trace_frame frame : safe (push_trace_frame frame).
Proof.
  intros s0 s g [Hr Hs]. split; [done |]. etrans; [exact Hs |].
  split; cbn; try done. by apply prefix_app_r.
Qed.

Lemma safe_with_position line column : safe (modify (with_position line column)).
Proof. intros s0 s g [Hr Hs]. split; [done |]. etrans; [exact Hs |]. by split. Qed.

Lemma safe_mapE {A B} (f : A -> Eval B) l : (forall a, safe (f a)) -> safe (mapE f l).
Proof. intros Hf s0. apply triple_mapE. intros a. apply Hf. Qed.

Lemma safe_foldE {A S} (f : S -> A -> Eval S) acc l :
  (forall acc a, safe (f acc a)) -> safe (foldE f acc l).
Proof.
  intros Hf. revert acc. induction l; intros acc; [apply safe_mret |].
  cbn. apply safe_bind; [done |]. auto.
Qed.

(** ** Scopes and frames *)

Definition pushed (s : Interp) : Interp := with_env (push_scope (i_env s)) s.

Lemma from_pushed s0 s g : from (pushed s0) s g -> from s0 s g.
Proof.
  intros [Hr Hs]. split; [done |]. etrans; [| exact Hs]. split; cbn; try done. apply push_scope_grows.
Qed.

(** A scope is entered, and left, around a computation that is safe in it. *)
Lemma triple_push s0 R :
  triple (from s0) env_push_scope (fun _ => from (pushed s0)) R.
Proof.
  intros s g [Hr Hs]. split; [done |]. destruct Hs. split; cbn; try done. by apply push_scope_mono.
Qed.

Lemma triple_pop s0 R :
  triple (from (pushed s0)) env_pop_scope (fun _ => from s0) R.
Proof.
  intros s g [Hr Hs]. split; [done |]. destruct Hs as [????Henv]. cbn in *. split; cbn; try done.
  by apply pop_scope_grows.
Qed.

Lemma triple_in_scope {A} s0 (m : Eval A) :
  safe m -> triple (from (pushed s0)) m (fun _ => from (pushed s0)) (from s0).
Proof. intros Hm. eapply triple_mono; [apply Hm | done.. |]. apply from_pushed. Qed.

Lemma triple_truncate s0 n R :
  length (i_trace_frames s0) <= n ->
  triple (from s0) (truncate_frames n) (fun _ => from s0) R.
Proof.
  intros Hn s g [Hr [????? [l Hl]]]. split; [done |]. split; cbn; try done.
  rewrite Hl, take_app_ge by done. by apply prefix_app_r.
Qed.

(** The depth that a frame is pushed at is no less than that of [s0]. *)
Lemma triple_push_trace_frame s0 frame R :
  triple (from s0) (push_trace_frame frame)
    (fun n s g => from s0 s g /\ length (i_trace_frames s0) <= n) R.
Proof.
  intros s g H. split; [by apply (safe_push_trace_frame frame s0 s g) |].
  destruct H as [_ []]. by apply prefix_length.
Qed.

(** The depth of calls goes up for a call and comes down after it. *)
Definition deeper (s : Interp) : Interp := with_call_depth (S (i_call_depth s)) s.

Lemma triple_deeper s0 R :
  i_call_depth s0 < c_max_recursion_depth cfg ->
  triple (from s0) (modify deeper) (fun _ => from (deeper s0)) R.
Proof.
  intros Hd s g [(?&?&?) []]. split; [split_and!; cbn; try done; lia |]. split; cbn; try done. lia.
Qed.

Lemma triple_shallower s0 R :
  i_call_depth s0 < c_max_recursion_depth cfg ->
  triple (from (deeper s0)) (modify (fun s => with_call_depth (i_call_depth s - 1) s))
    (fun _ => from s0) R.
Proof.
  intros Hd s g [(?&?&?) [Hc ?????]]. cbn in *.
  split; [split_and!; cbn; try done; lia |]. split; cbn; try done. lia.
Qed.

(** The relational operation of a [db] call goes to the open transaction. *)
Lemma safe_db_call op : safe (db_call op).
Proof.
  apply safe_at. intros s g Hr. pose proof Hr as (Htx & Hin & Hd).
  run_eval. destruct (i_active_tx s) as [tx|] eqn:Ha.
  - change (bool_decide (is_Some (Some tx))) with true. unfold take_tx. rewrite Ha. run_eval. split; [done |]. intros x. run_eval.
    assert (Hs : with_active_tx (Some tx) (with_active_tx None s) = s).
    { destruct s; cbn in *. by subst. }
    rewrite Hs. by destruct x as [a|e].
  - change (bool_decide (is_Some None)) with false. run_eval. split; [done |]. by intros [a|e].
Qed.

Lemma safe_doc_call op : safe (doc_call op).
Proof.
  apply safe_bind; [by apply safe_request |]. intros a. apply safe_of_res.
Qed.

End Triples.

#[export] Hint Resolve safe_mret safe_raise safe_raise_at safe_panic safe_no_fuel safe_gets safe_get_state
  safe_of_outcome safe_of_res safe_env_set safe_env_update safe_push_trace_frame
  safe_with_position : safe.
#[export] Hint Extern 1 (safe _ (db_call ?op)) => exact (safe_db_call _ op) : safe.
#[export] Hint Extern 1 (safe _ (doc_call ?op)) => exact (safe_doc_call _ op) : safe.
#[export] Hint Extern 1 (safe _ (request _)) => (apply safe_request; reflexivity) : safe.

(** One step of a proof that a computation is safe: a known computation, a
    sequence, a loop, the branches of a test, or a definition to open. *)
Ltac head_of t := match t with ?f _ => head_of f | _ => t end.
Ltac safe_step :=
  match goal with
  | |- forall _, _ => intros
  | |- safe _ (mbind _ _) => apply safe_bind
  | |- safe _ (mapE _ _) => apply safe_mapE
  | |- safe _ (foldE _ _ _) => apply safe_foldE
  | |- safe _ (attempt _) => apply safe_attempt
  | |- safe _ (match ?x with _ => _ end) => destruct x
  | |- safe _ (match ?x with _ => _ end _) => destruct x
  | |- safe _ _ => solve [eauto 2 with safe nocore]
  | |- safe _ ?m => let h := head_of m in unfold h; cbv beta zeta
  end.
Ltac safe := repeat safe_step.
