(* ===== verification/Namespaces.v ===== *)
(** The built-in namespaces of the evaluator: [log], [fs], [json], [base64],
    [uuid], [feature], [math] and [time] (src/src/interpreter/namespaces.rs),
    and the properties of temporal values (src/src/interpreter/access.rs).

    They are over the evaluator of argument expressions, [evaluate]. *)
From stdpp Require Import base list strings gmap.
From Stdlib Require Import ZArith Lia SpecFloat.
From S2P Require Import Prelude RustStr F64 Errors Ast IndexMap Foreign QueryTypes Value Schemas Validator Environment Operators Crates ValueMethods TraceContext FeatureFlags ProjectRuntime Interaction Interp.

(** [String::from_utf8(bytes).is_ok()]: the bytes encode scalar values. *)
Definition is_utf8 (s : string) : bool :=
  forallb is_scalar (chars s) && String.eqb (of_chars (chars s)) s.

Inductive LogLevel : Type := Debug | Info | Warn | ErrorLevel.

Definition log_level_str (l : LogLevel) : string :=
  match l with Debug => "debug" | Info => "info" | Warn => "warn" | ErrorLevel => "error" end.

(** The derived order: the order of declaration. *)
Definition log_level_rank (l : LogLevel) : nat :=
  match l with Debug => 0 | Info => 1 | Warn => 2 | ErrorLevel => 3 end.

(** [MathNumericValue]. *)
Record MathNumericValue : Type := mkMathNumericValue {
  mn_value : f64;
  mn_is_float : bool;
}.

Section Namespaces.
Context `{E : Ext} `{C : !Crates E} `{HO : HashOrder}.
Variable cfg : Config.
Variable evaluate : Expression -> Eval Value.

Notation type_error := Interp.type_error.
Notation property_not_found := Interp.property_not_found.

(** * Arguments *)

Definition evaluate_args (arguments : list Argument) : Eval (list Value) :=
  mapE (fun arg => match arg with Positional expr => evaluate expr | Named _ value => evaluate value end)
    arguments.

(** The positional values, after the injected one if any, and the named. *)
Definition collect_named_and_positional (arguments : list Argument) (injected_input : option Value)
  : Eval (list Value * list (string * Value)) :=
  foldE (fun acc arg =>
    match arg with
    | Positional expr => v ← evaluate expr; mret (fst acc ++ [v], snd acc)
    | Named name value => v ← evaluate value; mret (fst acc, snd acc ++ [(name, v)])
    end) (match injected_input with Some v => [v] | None => [] end, []) arguments.

Definition ensure_no_named_args (named : list (string * Value)) (method : string) : Eval unit :=
  match named with
  | (name, _) :: _ => type_error (method +:+ "() does not accept named argument '" +:+ name +:+ "'")
  | [] => mret tt
  end.

Definition expect_string_value (args : list Value) (index : nat) (method : string) : Eval string :=
  match args !! index with
  | Some (VString s) => mret s
  | Some other => type_error (method +:+ "() argument " +:+ show_nat (index + 1)
                              +:+ " must be String, got " +:+ type_name other)
  | None => type_error (method +:+ "() missing required argument " +:+ show_nat (index + 1))
  end.

Definition expect_numeric_i64_value (args : list Value) (index : nat) (method : string) : Eval Z :=
  match args !! index with
  | Some value =>
      match as_integer value with
      | Some n => mret n
      | None => type_error (method +:+ "() argument " +:+ show_nat (index + 1)
                            +:+ " must be Integer, got " +:+ type_name value)
      end
  | None => type_error (method +:+ "() missing required argument " +:+ show_nat (index + 1))
  end.

(** The check [args.len() != expected]. *)
Definition ensure_arity (task_name : string) (expected : nat) (args : list Value) : Eval unit :=
  if length args =? expected then mret tt else wrong_arity task_name expected (length args).

Definition resolve_named_i64 (named : list (string * Value)) (key : string) (default_ : Z) : Z :=
  default default_
    (head (omap (fun nv => if String.eqb (fst nv) key then as_integer (snd nv) else None) named)).

(** * log *)

Definition configured_log_level : LogLevel :=
  match to_ascii_lowercase <$> c_env_var cfg "MARRETA_LOG_LEVEL" with
  | Some level =>
      if String.eqb level "debug" then Debug
      else if String.eqb level "warn" then Warn
      else if String.eqb level "error" then ErrorLevel
      else Info
  | None => Info
  end.

Definition log_level_for_method (method : string) : Eval LogLevel :=
  if String.eqb method "debug" then mret Debug
  else if String.eqb method "info" then mret Info
  else if String.eqb method "warn" then mret Warn
  else if String.eqb method "error" then mret ErrorLevel
  else property_not_found "LogNamespace" method.

Definition should_emit_log_level (level : LogLevel) : bool :=
  log_level_rank configured_log_level <=? log_level_rank level.

Definition build_log_event (level : LogLevel) (value : Value) : Eval Json :=
  now ← request RNow;
  match value_to_json_strict value with
  | Err message => type_error ("log." +:+ log_level_str level +:+ "() " +:+ message)
  | Ok data =>
      mret (JObject ([("timestamp", JString (instant_show now)); ("kind", JString "app_log");
                      ("level", JString (log_level_str level))]
                     ++ match c_trace_context cfg with
                        | Some c => [("trace_id", JString (trace_id c)); ("span_id", JString (span_id c))]
                        | None => []
                        end
                     ++ [("data", data)]))
  end.

Definition emit_log_value (level : LogLevel) (value : Value) : Eval unit :=
  if should_emit_log_level level then
    event ← build_log_event level value;
    written ← request (RLogLine (json_show event));
    match written : result string unit with
    | Ok _ => mret tt
    | Err err => runtime_error ("log." +:+ log_level_str level +:+ "() failed: " +:+ err)
    end
  else mret tt.

Definition dispatch_log_with_input (method : string) (arguments : list Argument)
    (injected_input : option Value) : Eval Value :=
  level ← log_level_for_method method;
  '(positional, named) ← collect_named_and_positional arguments injected_input;
  _ ← ensure_no_named_args named ("log." +:+ method);
  _ ← ensure_arity ("log." +:+ method) 1 positional;
  match positional with
  | value :: _ => _ ← emit_log_value level value; mret value
  | [] => panic
  end.

Definition dispatch_log (method : string) (arguments : list Argument) : Eval Value :=
  dispatch_log_with_input method arguments None.

(** * fs *)

Definition fs_runtime_error {A} (path : string) (err : IoFault) : Eval A :=
  match err with
  | NotFound => raise (FileNotFound path)
  | OtherFault m => raise (IoError ("fs operation failed for '" +:+ path +:+ "': " +:+ m))
  end.

Definition fs_string_arg (args : list Value) (index : nat) (method : string) : Eval string :=
  expect_string_value args index ("fs." +:+ method).

(** [map_err(|err| self.fs_runtime_error(&path, err))?]. *)
Definition fs_result {A} (path : string) (r : result IoFault A) : Eval A :=
  match r with Ok a => mret a | Err err => fs_runtime_error path err end.

(** The path and the content of [write] and [append]: an injected input is the
    first positional argument, and is the content. *)
Definition fs_path_and_content (method : string) (positional : list Value) (injected : bool)
  : Eval (string * string) :=
  _ ← ensure_arity ("fs." +:+ method) 2 positional;
  if injected then
    path ← fs_string_arg positional 1 method;
    content ← fs_string_arg positional 0 method;
    mret (path, content)
  else
    path ← fs_string_arg positional 0 method;
    content ← fs_string_arg positional 1 method;
    mret (path, content).

Definition dispatch_fs_with_input (method : string) (arguments : list Argument)
    (injected_input : option Value) : Eval Value :=
  '(positional, named) ← collect_named_and_positional arguments injected_input;
  _ ← ensure_no_named_args named ("fs." +:+ method);
  let injected := bool_decide (is_Some injected_input) in
  if String.eqb method "read" then
    path ← fs_string_arg positional 0 "read";
    _ ← ensure_arity "fs.read" 1 positional;
    r ← request (RFsRead path);
    content ← fs_result path r;
    mret (VString content)
  else if String.eqb method "write" then
    '(path, content) ← fs_path_and_content "write" positional injected;
    r ← request (RFsWrite path content);
    _ ← fs_result path r;
    mret (VString content)
  else if String.eqb method "append" then
    '(path, content) ← fs_path_and_content "append" positional injected;
    r ← request (RFsOpenAppend path);
    _ ← fs_result path r;
    r ← request (RFsAppend path content);
    _ ← fs_result path r;
    mret (VString content)
  else if String.eqb method "exists" then
    path ← fs_string_arg positional 0 "exists";
    _ ← ensure_arity "fs.exists" 1 positional;
    exists_ ← request (RFsExists path);
    mret (VBoolean exists_)
  else if String.eqb method "delete" then
    path ← fs_string_arg positional 0 "delete";
    _ ← ensure_arity "fs.delete" 1 positional;
    r ← request (RFsRemove path);
    match r : result IoFault unit with
    | Ok _ => mret (VBoolean true)
    | Err NotFound => mret (VBoolean false)
    | Err err => fs_runtime_error path err
    end
  else property_not_found "FsNamespace" method.

Definition dispatch_fs (method : string) (arguments : list Argument) : Eval Value :=
  dispatch_fs_with_input method arguments None.

(** * json *)

Definition dispatch_json_with_input (method : string) (arguments : list Argument)
    (injected_input : option Value) : Eval Value :=
  '(positional, named) ← collect_named_and_positional arguments injected_input;
  _ ← ensure_no_named_args named ("json." +:+ method);
  if String.eqb method "parse" then
    _ ← ensure_arity "json.parse" 1 positional;
    match positional with
    | VString text :: _ =>
        match json_parse text with
        | Ok parsed => mret (json_to_value parsed)
        | Err err => runtime_error ("json.parse() invalid JSON: " +:+ err)
        end
    | other :: _ => type_error ("json.parse() argument 1 must be String, got " +:+ type_name other)
    | [] => panic
    end
  else if String.eqb method "stringify" || String.eqb method "pretty" then
    _ ← ensure_arity ("json." +:+ method) 1 positional;
    match positional with
    | value :: _ =>
        match value_to_json_strict value with
        | Err message => type_error ("json." +:+ method +:+ "() " +:+ message)
        | Ok json =>
            mret (VString (if String.eqb method "pretty" then json_show_pretty json else json_show json))
        end
    | [] => panic
    end
  else property_not_found "JsonNamespace" method.

Definition dispatch_json (method : string) (arguments : list Argument) : Eval Value :=
  dispatch_json_with_input method arguments None.

(** * base64 *)

Definition base64_url_safe_flag (named : list (string * Value)) (method : string) : Eval bool :=
  foldE (fun (url_safe : bool) (nv : string * Value) =>
    if String.eqb (fst nv) "url_safe" then mret (is_truthy (snd nv))
    else type_error ("base64." +:+ method +:+ "() does not accept named argument '"
                     +:+ fst nv +:+ "'")) false named.

Definition base64_decode_bytes (text : string) (url_safe : bool) : Eval string :=
  let '(padded, unpadded) := if url_safe then (BASE64_URL_SAFE, BASE64_URL_SAFE_NO_PAD)
                             else (BASE64_STANDARD, BASE64_STANDARD_NO_PAD) in
  match base64_decode padded text with
  | Ok bytes => mret bytes
  | Err _ =>
      match base64_decode unpadded text with
      | Ok bytes => mret bytes
      | Err err => runtime_error ("base64.decode() invalid Base64: " +:+ err)
      end
  end.

Definition dispatch_base64_with_input (method : string) (arguments : list Argument)
    (injected_input : option Value) : Eval Value :=
  '(positional, named) ← collect_named_and_positional arguments injected_input;
  url_safe ← base64_url_safe_flag named method;
  if String.eqb method "encode" then
    _ ← ensure_arity "base64.encode" 1 positional;
    text ← expect_string_value positional 0 "base64.encode";
    mret (VString (base64_encode (if (url_safe : bool) then BASE64_URL_SAFE else BASE64_STANDARD) text))
  else if String.eqb method "decode" then
    _ ← ensure_arity "base64.decode" 1 positional;
    text ← expect_string_value positional 0 "base64.decode";
    bytes ← base64_decode_bytes text url_safe;
    if is_utf8 bytes then mret (VString bytes)
    else runtime_error ("base64.decode() decoded bytes are not valid UTF-8: " +:+ utf8_error bytes)
  else property_not_found "Base64Namespace" method.

Definition dispatch_base64 (method : string) (arguments : list Argument) : Eval Value :=
  dispatch_base64_with_input method arguments None.

(** * uuid and feature *)

Definition dispatch_uuid (method : string) (arguments : list Argument) : Eval Value :=
  args ← evaluate_args arguments;
  _ ← ensure_arity ("uuid." +:+ method) 0 args;
  if String.eqb method "v4" then id ← request RUuidV4; mret (VString id)
  else if String.eqb method "v7" then id ← request RUuidV7; mret (VString id)
  else property_not_found "UuidNamespace" method.

Definition FEATURE_NAME_HELP : string :=
  "use lowercase letters, digits, and single underscores; " +:+
  "start with a letter; " +:+
  "do not use double underscores or trailing underscores".

Definition dispatch_feature (method : string) (arguments : list Argument) : Eval Value :=
  args ← evaluate_args arguments;
  if String.eqb method "enabled" then
    _ ← ensure_arity "feature.enabled" 1 args;
    match args with
    | VString name :: _ =>
        if is_valid_feature_name name then
          let flags := match c_project_runtime cfg with
                       | Some runtime => pr_feature_flags runtime
                       | None => c_feature_flags cfg
                       end in
          mret (VBoolean (enabled flags name))
        else runtime_error ("invalid feature flag name '" +:+ name +:+ "': " +:+ FEATURE_NAME_HELP)
    | other :: _ =>
        type_error ("feature.enabled() argument 1 must be String, got " +:+ type_name other)
    | [] => panic
    end
  else property_not_found "FeatureNamespace" method.

(** * math *)

Definition math_numeric_value (value : Value) (name : string) : Eval MathNumericValue :=
  match value with
  | VInteger n => mret (mkMathNumericValue (f64_of_Z n) false)
  | VFloat x => mret (mkMathNumericValue x true)
  | other => type_error (name +:+ "() requires Integer or Float, got " +:+ type_name other)
  end.

Definition math_number_arg (args : list Value) (name : string) : Eval f64 :=
  _ ← ensure_arity name 1 args;
  match args with
  | value :: _ => n ← math_numeric_value value name; mret (mn_value n)
  | [] => type_error (name +:+ "() requires one numeric argument")
  end.

Definition math_two_number_args (args : list Value) (name : string)
  : Eval (MathNumericValue * MathNumericValue) :=
  _ ← ensure_arity name 2 args;
  match args with
  | a :: b :: _ =>
      l ← math_numeric_value a name;
      r ← math_numeric_value b name;
      mret (l, r)
  | _ => type_error (name +:+ "() requires two numeric arguments")
  end.

Definition math_min_max_result (left right : MathNumericValue) (op : f64 -> f64 -> f64) : Value :=
  let result := op (mn_value left) (mn_value right) in
  if mn_is_float left || mn_is_float right then VFloat result else VInteger (f64_to_i64 result).

Definition dispatch_math_round (positional : list Value) (named : list (string * Value))
  : Eval Value :=
  places ← foldE (fun (_ : option Z) (nv : string * Value) =>
    if String.eqb (fst nv) "places" then
      match as_integer (snd nv) with
      | None => type_error ("math.round() places: must be Integer, got " +:+ type_name (snd nv))
      | Some parsed =>
          if (parsed <? 0)%Z then runtime_error "math.round() places: must be zero or greater"
          else mret (Some parsed)
      end
    else type_error ("math.round() does not accept named argument '" +:+ fst nv +:+ "'")) None named;
  _ ← ensure_arity "math.round" 1 positional;
  match positional with
  | value :: _ =>
      number ← math_numeric_value value "math.round";
      match places with
      | Some places =>
          let scale := powi10 (to_i32 places) in
          mret (VFloat (f64_div (f64_round (f64_mul (mn_value number) scale)) scale))
      | None => mret (VInteger (f64_to_i64 (f64_round (mn_value number))))
      end
  | [] => panic
  end.

(** [a > b] on floats: false when one is NaN. *)
Definition f64_gtb (a b : f64) : bool := match f64_cmp a b with Some Gt => true | _ => false end.

Definition dispatch_math_clamp (positional : list Value) (named : list (string * Value))
  : Eval Value :=
  '(min, max) ← foldE (fun (acc : option Value * option Value) (nv : string * Value) =>
    if String.eqb (fst nv) "min" then mret (Some (snd nv), snd acc)
    else if String.eqb (fst nv) "max" then mret (fst acc, Some (snd nv))
    else type_error ("math.clamp() does not accept named argument '" +:+ fst nv +:+ "'"))
    (None, None) named;
  _ ← ensure_arity "math.clamp" 1 positional;
  match positional, min, max with
  | value :: _, Some min, Some max =>
      value ← math_numeric_value value "math.clamp";
      min ← math_numeric_value min "math.clamp";
      max ← math_numeric_value max "math.clamp";
      if f64_gtb (mn_value min) (mn_value max) then runtime_error "math.clamp() requires min <= max"
      else
        let clamped := f64_min (f64_max (mn_value value) (mn_value min)) (mn_value max) in
        mret (if mn_is_float value || mn_is_float min || mn_is_float max
              then VFloat clamped else VInteger (f64_to_i64 clamped))
  | [], _, _ => panic
  | _, _, _ => type_error "math.clamp() requires min: and max:"
  end.

Definition dispatch_math_with_input (method : string) (arguments : list Argument)
    (injected_input : option Value) : Eval Value :=
  '(positional, named) ← collect_named_and_positional arguments injected_input;
  if String.eqb method "abs" then
    _ ← ensure_no_named_args named "math.abs";
    match positional with
    | [] => type_error "math.abs() requires one numeric argument"
    | VInteger n :: _ => of_outcome (int_result (c_overflow_checks cfg) (Z.abs n))
    | VFloat x :: _ => mret (VFloat (f64_abs x))
    | other :: _ => type_error ("math.abs() requires Integer or Float, got " +:+ type_name other)
    end
  else if String.eqb method "floor" then
    _ ← ensure_no_named_args named "math.floor";
    number ← math_number_arg positional "math.floor";
    mret (VInteger (f64_to_i64 (f64_floor number)))
  else if String.eqb method "ceil" then
    _ ← ensure_no_named_args named "math.ceil";
    number ← math_number_arg positional "math.ceil";
    mret (VInteger (f64_to_i64 (f64_ceil number)))
  else if String.eqb method "round" then dispatch_math_round positional named
  else if String.eqb method "min" then
    _ ← ensure_no_named_args named "math.min";
    '(l, r) ← math_two_number_args positional "math.min";
    mret (math_min_max_result l r f64_min)
  else if String.eqb method "max" then
    _ ← ensure_no_named_args named "math.max";
    '(l, r) ← math_two_number_args positional "math.max";
    mret (math_min_max_result l r f64_max)
  else if String.eqb method "clamp" then dispatch_math_clamp positional named
  else property_not_found "MathNamespace" method.

Definition dispatch_math (method : string) (arguments : list Argument) : Eval Value :=
  dispatch_math_with_input method arguments None.

(** * time *)

Definition local_date_time_to_utc (d : date) (t : time) (prefer_latest : bool) : Eval instant :=
  match resolve_local_datetime (current_timezone (c_env_var cfg)) d t prefer_latest with
  | Fails (TypeError message _ _) => type_error message
  | o => of_outcome o
  end.

Definition temporal_value_to_runtime_value (v : TemporalValue) : Value :=
  match v with TVInstant dt => VInstant dt | TVDate d => VDate d | TVTime t => VTime t end.

Definition temporal_value_from_runtime_value (v : Value) : Eval TemporalValue :=
  match v with
  | VInstant dt => mret (TVInstant dt)
  | VDate d => mret (TVDate d)
  | VTime t => mret (TVTime t)
  | other => type_error ("expected temporal value (instant, date, or time), got " +:+ type_name other)
  end.

Definition interval_duration (i : TemporalInterval) : Eval duration :=
  match ti_start i, ti_end i with
  | TVInstant start, TVInstant stop => mret (instant_sub stop start)
  | TVDate start, TVDate stop => mret (date_sub stop start)
  | TVTime start, TVTime stop => mret (time_sub stop start)
  | _, _ => type_error "interval start and end must share the same temporal type"
  end.

Definition ensure_same_temporal_kind (left right : TemporalValue) : Eval unit :=
  match left, right with
  | TVInstant _, TVInstant _ | TVDate _, TVDate _ | TVTime _, TVTime _ => mret tt
  | _, _ => type_error "temporal values must share the same type"
  end.

(** The order of two temporal values of one kind. *)
Definition temporal_cmp (a b : TemporalValue) : option comparison :=
  match a, b with
  | TVInstant a, TVInstant b => Some (instant_cmp a b)
  | TVDate a, TVDate b => Some (date_cmp a b)
  | TVTime a, TVTime b => Some (time_cmp a b)
  | _, _ => None
  end.

Definition is_le (c : comparison) : bool := match c with Gt => false | _ => true end.

Definition interval_contains (i : TemporalInterval) (v : TemporalValue) : Eval bool :=
  match temporal_cmp (ti_start i) v, temporal_cmp v (ti_end i) with
  | Some a, Some b => mret (is_le a && is_le b)
  | _, _ => type_error "time.contains() requires interval and value of the same temporal type"
  end.

Definition intervals_overlap (left right : TemporalInterval) : Eval bool :=
  match temporal_cmp (ti_start left) (ti_end right), temporal_cmp (ti_start right) (ti_end left),
        temporal_cmp (ti_start left) (ti_start right) with
  | Some a, Some b, Some _ => mret (is_le a && is_le b)
  | _, _, _ => type_error "time.overlaps() requires intervals with matching temporal types"
  end.

(** The mask of the language, in chrono's letters. *)
Definition chrono_mask (mask : string) : string :=
  replace_str "ss" "%S" (replace_str "mm" "%M" (replace_str "HH" "%H"
    (replace_str "dd" "%d" (replace_str "MM" "%m" (replace_str "yyyy" "%Y" mask))))).

Definition format_temporal_value (v : Value) (mask : string) : Eval string :=
  let rendered (o : option string) : Eval string :=
    match o with Some s => mret s | None => panic end in
  match v with
  | VInstant dt => rendered (instant_format (chrono_mask mask) dt)
  | VDate d => rendered (date_format (chrono_mask mask) d)
  | VTime t => rendered (time_format (chrono_mask mask) t)
  | other => type_error ("time.format() requires instant, date, or time, got " +:+ type_name other)
  end.

Definition parse_temporal_string (input : string) : Eval Value :=
  match instant_parse input, date_parse input, time_parse input with
  | Some dt, _, _ => mret (VInstant dt)
  | None, Some d, _ => mret (VDate d)
  | None, None, Some t => mret (VTime t)
  | None, None, None => type_error ("time.parse() could not parse '" +:+ input +:+ "'")
  end.

Definition parse_instant_string (input : string) : Eval Value :=
  match instant_parse input with
  | Some dt => mret (VInstant dt)
  | None => type_error ("time.instant() requires RFC3339 timestamp, got '" +:+ input +:+ "'")
  end.

(** The cast of a float to [i64] saturates; [ChronoDuration::milliseconds]
    panics on the smallest. *)
Definition duration_from_unit (args : list Value) (name : string) (millis_per_unit : Z) : Eval Value :=
  amount ← match args !! 0 with
           | Some (VInteger n) => mret (f64_of_Z n)
           | Some (VFloat x) => mret x
           | Some other => type_error (name +:+ "() requires numeric amount, got " +:+ type_name other)
           | None => type_error (name +:+ "() requires a numeric amount")
           end;
  d ← of_outcome (milliseconds (f64_to_i64 (f64_round (f64_mul amount (f64_of_Z millis_per_unit)))));
  mret (VDuration d).

Definition time_interval (args : list Value) : Eval Value :=
  match args with
  | start :: stop :: _ =>
      start ← temporal_value_from_runtime_value start;
      stop ← temporal_value_from_runtime_value stop;
      _ ← ensure_same_temporal_kind start stop;
      mret (VInterval (mkTemporalInterval start stop))
  | _ => type_error "time.interval() requires start and end"
  end.

Definition interval_arg (args : list Value) (index : nat) (wrong_type missing : string)
  : Eval TemporalInterval :=
  match args !! index with
  | Some (VInterval i) => mret i
  | Some other => type_error (wrong_type +:+ type_name other)
  | None => type_error missing
  end.

Definition time_contains (args : list Value) : Eval Value :=
  interval ← interval_arg args 0 "time.contains() requires Interval as first argument, got "
               "time.contains() requires interval and value";
  match args !! 1 with
  | None => type_error "time.contains() requires interval and value"
  | Some value =>
      value ← temporal_value_from_runtime_value value;
      _ ← ensure_same_temporal_kind (ti_start interval) value;
      b ← interval_contains interval value;
      mret (VBoolean b)
  end.

Definition time_overlaps (args : list Value) : Eval Value :=
  left ← interval_arg args 0 "time.overlaps() requires Interval as first argument, got "
           "time.overlaps() requires two intervals";
  right ← interval_arg args 1 "time.overlaps() requires Interval as second argument, got "
            "time.overlaps() requires two intervals";
  _ ← ensure_same_temporal_kind (ti_start left) (ti_start right);
  b ← intervals_overlap left right;
  mret (VBoolean b).

Definition dispatch_time (method : string) (arguments : list Argument) : Eval Value :=
  args ← evaluate_args arguments;
  if String.eqb method "now" then
    match args with
    | _ :: _ => type_error "time.now() takes no arguments"
    | [] => now ← request RNow; mret (VInstant now)
    end
  else if String.eqb method "today" then
    match args with
    | _ :: _ => type_error "time.today() takes no arguments"
    | [] =>
        now ← request RNow;
        mret (VDate (fst (to_local (current_timezone (c_env_var cfg)) now)))
    end
  else if String.eqb method "parse" then
    input ← expect_string_value args 0 "time.parse"; parse_temporal_string input
  else if String.eqb method "date" then
    input ← expect_string_value args 0 "time.date";
    match date_parse input with
    | Some d => mret (VDate d)
    | None => type_error ("time.date() requires YYYY-MM-DD, got '" +:+ input +:+ "'")
    end
  else if String.eqb method "at" then
    input ← expect_string_value args 0 "time.at";
    match time_parse input with
    | Some t => mret (VTime t)
    | None => type_error ("time.at() requires HH:MM:SS, got '" +:+ input +:+ "'")
    end
  else if String.eqb method "instant" then
    input ← expect_string_value args 0 "time.instant"; parse_instant_string input
  else if String.eqb method "days" then duration_from_unit args "time.days" 86400000
  else if String.eqb method "hours" then duration_from_unit args "time.hours" 3600000
  else if String.eqb method "minutes" then duration_from_unit args "time.minutes" 60000
  else if String.eqb method "seconds" then duration_from_unit args "time.seconds" 1000
  else if String.eqb method "interval" then time_interval args
  else if String.eqb method "contains" then time_contains args
  else if String.eqb method "overlaps" then time_overlaps args
  else if String.eqb method "format" then
    match args !! 0 with
    | None => type_error "time.format() requires value and mask"
    | Some value =>
        mask ← expect_string_value args 1 "time.format";
        text ← format_temporal_value value mask;
        mret (VString text)
    end
  else if String.eqb method "from_unix" then
    secs ← expect_numeric_i64_value args 0 "time.from_unix";
    match instant_from_timestamp secs with
    | Some dt => mret (VInstant dt)
    | None => type_error ("time.from_unix() received invalid epoch seconds '" +:+ show_Z secs +:+ "'")
    end
  else if String.eqb method "unix" then
    match args !! 0 with
    | Some (VInstant dt) => mret (VInteger (instant_timestamp dt))
    | Some other => type_error ("time.unix() requires Instant, got " +:+ type_name other)
    | None => type_error "time.unix() requires an instant"
    end
  else property_not_found "TimeNamespace" method.

(** * Properties *)

Definition access_instant_property (dt : instant) (property : string) : Eval Value :=
  let '(d, t) := to_local (current_timezone (c_env_var cfg)) dt in
  if String.eqb property "year" then mret (VInteger (date_year d))
  else if String.eqb property "month" then mret (VInteger (date_month d))
  else if String.eqb property "day" then mret (VInteger (date_day d))
  else if String.eqb property "hour" then mret (VInteger (time_hour t))
  else if String.eqb property "minute" then mret (VInteger (time_minute t))
  else if String.eqb property "second" then mret (VInteger (time_second t))
  else if String.eqb property "weekday" then mret (VInteger (date_weekday d))
  else if String.eqb property "unix" then mret (VInteger (instant_timestamp dt))
  else if String.eqb property "date" then mret (VDate d)
  else if String.eqb property "time" then mret (VTime t)
  else property_not_found "Instant" property.

Definition access_date_property (d : date) (property : string) : Eval Value :=
  if String.eqb property "year" then mret (VInteger (date_year d))
  else if String.eqb property "month" then mret (VInteger (date_month d))
  else if String.eqb property "day" then mret (VInteger (date_day d))
  else if String.eqb property "weekday" then mret (VInteger (date_weekday d))
  else if String.eqb property "start_of_day" then
    dt ← local_date_time_to_utc d midnight false; mret (VInstant dt)
  else if String.eqb property "end_of_day" then
    dt ← local_date_time_to_utc d last_milli true; mret (VInstant dt)
  else property_not_found "Date" property.

Definition access_time_property (t : time) (property : string) : Eval Value :=
  if String.eqb property "hour" then mret (VInteger (time_hour t))
  else if String.eqb property "minute" then mret (VInteger (time_minute t))
  else if String.eqb property "second" then mret (VInteger (time_second t))
  else property_not_found "Time" property.

Definition access_duration_property (d : duration) (property : string) : Eval Value :=
  let total (unit_ : Z) : Eval Value :=
    mret (VFloat (f64_div (f64_of_Z (num_milliseconds d)) (f64_of_Z unit_))) in
  if String.eqb property "total_days" then total 86400000%Z
  else if String.eqb property "total_hours" then total 3600000%Z
  else if String.eqb property "total_minutes" then total 60000%Z
  else if String.eqb property "total_seconds" then total 1000%Z
  else property_not_found "Duration" property.

Definition access_interval_property (i : TemporalInterval) (property : string) : Eval Value :=
  if String.eqb property "start" then mret (temporal_value_to_runtime_value (ti_start i))
  else if String.eqb property "end" then mret (temporal_value_to_runtime_value (ti_end i))
  else if String.eqb property "duration" then d ← interval_duration i; mret (VDuration d)
  else property_not_found "Interval" property.

Definition access_property (obj : Value) (property : string) : Eval Value :=
  match obj with
  | VMap m => mret (default VNull (IM.get property m))
  | VRelationalRecord schema_name fields =>
      match IM.get property fields with
      | Some value => mret value
      | None =>
          module ← gets i_module;
          mret (default VNull (relation_handle_for_property cfg module schema_name fields property))
      end
  | VInstant dt => access_instant_property dt property
  | VDate d => access_date_property d property
  | VTime t => access_time_property t property
  | VDuration d => access_duration_property d property
  | VInterval i => access_interval_property i property
  | _ => property_not_found (type_name obj) property
  end.

End Namespaces.
