(* ===== verification/Infra.v ===== *)
(** The infrastructure calls of the evaluator: [cache.*], [http_client.*],
    [doc.COLLECTION.*], [doc.pipeline], [db.TABLE.*] and [db.native_query]
    (src/src/interpreter/infra.rs), queue producers, and the expressions inside
    [#{}] (src/src/interpreter.rs). *)
From stdpp Require Import base list strings gmap.
From Stdlib Require Import ZArith Lia.
From S2P Require Import Prelude RustStr F64 Errors Token Lexer Ast IndexMap Foreign QueryTypes Value Schemas Validator Serializer Environment Crates ValueMethods DocBson TraceContext FeatureFlags ProjectRuntime ParserState Parser ParserStatements Interaction Interp Namespaces.

(** * Templates

    A template is literal characters and expressions in [#{}].  Braces nest
    inside an expression; an expression that is not closed runs to the end. *)

Inductive Piece : Type :=
| Literal (c : N)
| Placeholder (expr : list N).

(** The characters of an expression, [depth] braces deep, and what follows its
    closing brace. *)
Fixpoint take_expr (depth : nat) (l : list N) : list N * list N :=
  match l with
  | [] => ([], [])
  | c :: l =>
      let depth := if (c =? ch "{")%N then S depth else if (c =? ch "}")%N then depth - 1 else depth in
      match depth with
      | 0 => ([], l)
      | S _ => let '(e, rest) := take_expr depth l in (c :: e, rest)
      end
  end.

(** The loop over the characters; every step consumes one, so their number is
    enough fuel. *)
Fixpoint template_pieces (fuel : nat) (l : list N) : list Piece :=
  match fuel, l with
  | S fuel, c :: l' =>
      match l' with
      | c' :: l'' =>
          if (c =? ch "#")%N && (c' =? ch "{")%N then
            let '(e, rest) := take_expr 1 l'' in Placeholder e :: template_pieces fuel rest
          else Literal c :: template_pieces fuel l'
      | [] => [Literal c]
      end
  | _, _ => []
  end.

Definition pieces_of (template : string) : list Piece :=
  template_pieces (length (chars template)) (chars template).

Definition placeholder_mark : string := "#{".

Section Infra.
Context `{E : Ext} `{C : !Crates E} `{B : !BsonCrate E} `{HO : HashOrder}.
Variable cfg : Config.
Variable evaluate : Expression -> Eval Value.

Notation type_error := Interp.type_error.
Notation property_not_found := Interp.property_not_found.
Notation evaluate_args := (Namespaces.evaluate_args evaluate).
Notation collect_arguments arguments :=
  (Namespaces.collect_named_and_positional evaluate arguments None).

(** * Expressions in a source string *)

Definition evaluate_source_expression (src : string) : Eval Value :=
  let invalid {A} (e : MarretaError) : Eval A :=
    type_error ("invalid expression in native_query #{" +:+ src +:+ "}: " +:+ Display e) in
  match tokenize ("__nq_param = " +:+ src) with
  | Fails e => invalid e
  | Panics => panic
  | NoFuel => no_fuel
  | Done tokens =>
      match parse tokens with
      | Fails e => invalid e
      | Panics => panic
      | NoFuel => no_fuel
      | Done (SAssignment _ value _ _ :: _) => evaluate value
      | Done _ => type_error ("could not parse expression in native_query #{" +:+ src +:+ "}")
      end
  end.

(** [interpolate_string]: an expression that fails is [null]. *)
Definition interpolate_string (s : string) : Eval Value :=
  if str_contains placeholder_mark s then
    result ← foldE (fun result piece =>
      match piece with
      | Literal c => mret (result +:+ of_chars [c])
      | Placeholder e =>
          val ← attempt (evaluate_source_expression (trim (of_chars e)));
          mret (result +:+ show_value (match val with Ok v => v | Err _ => VNull end))
      end) EmptyString (pieces_of s);
    mret (VString result)
  else mret (VString s).

(** * Cache *)

Definition cache_error {A} (msg op : string) : Eval A := raise (CacheError msg op).

Definition no_cache_message : string :=
  "cache.* called but no cache is configured (set MARRETA_CACHE_PROVIDER, MARRETA_CACHE_HOST, MARRETA_CACHE_PORT, and optional MARRETA_CACHE_PASSWORD)".

Definition require_cache_driver (op : string) : Eval unit :=
  if c_cache_driver cfg then mret tt else cache_error no_cache_message op.

(** The first named [ttl:] that is a positive integer, in milliseconds. *)
Definition resolve_explicit_ttl (named : list (string * Value)) : option Z :=
  head (omap (fun nv =>
    if String.eqb (fst nv) "ttl" then
      match as_integer (snd nv) with
      | Some secs => if (0 <? secs)%Z then Some (secs * 1000)%Z else None
      | None => None
      end
    else None) named).

Definition resolve_ttl (named : list (string * Value)) : option Z :=
  match resolve_explicit_ttl named with
  | Some ttl => Some ttl
  | None => c_cache_default_ttl cfg
  end.

Definition resolve_named_bool (named : list (string * Value)) (key : string) : bool :=
  existsb (fun nv => String.eqb (fst nv) key && is_truthy (snd nv)) named.

Definition cache_call (op : string) (c : CacheOperation) : Eval (cache_answer c) :=
  r ← request (RCache c);
  match r : result CacheDriverError (cache_answer c) with
  | Ok a => mret a
  | Err e => cache_error (show_cache_error e) op
  end.

(** The key of an operation: its first positional argument, printed. *)
Definition cache_key (op message : string) (positional : list Value) : Eval string :=
  match positional with
  | key :: _ => mret (show_value key)
  | [] => cache_error message op
  end.

Definition dispatch_cache (method : string) (arguments : list Argument) : Eval Value :=
  let op := "cache." +:+ method in
  _ ← require_cache_driver op;
  '(positional, named) ← collect_arguments arguments;
  let key := cache_key op (op +:+ " requires a key argument") positional in
  if String.eqb method "get" then
    key ← key;
    result ← cache_call op (CacheGet key);
    mret (default VNull result)
  else if String.eqb method "set" then
    key ← key;
    match positional !! 1 with
    | None => cache_error "cache.set requires a value argument" op
    | Some value =>
        result ← cache_call op (CacheSet key value (resolve_ttl named)
                                  (resolve_named_bool named "only_if_absent"));
        mret (default VNull result)
    end
  else if String.eqb method "delete" then
    key ← key; existed ← cache_call op (CacheDelete key); mret (VBoolean existed)
  else if String.eqb method "exists" then
    key ← key; exists_ ← cache_call op (CacheExists key); mret (VBoolean exists_)
  else if String.eqb method "ttl" then
    key ← key;
    ttl ← cache_call op (CacheTtl key);
    mret (match ttl : option Z with Some ms => VInteger (ms / 1000) | None => VNull end)
  else if String.eqb method "expire" then
    key ← key;
    match resolve_explicit_ttl named with
    | None => cache_error "cache.expire requires ttl: N named argument" op
    | Some ttl => ok ← cache_call op (CacheExpire key ttl); mret (VBoolean ok)
    end
  else if String.eqb method "incr" then
    key ← key;
    n ← cache_call op (CacheIncr key (resolve_named_i64 named "by" 1) (resolve_explicit_ttl named));
    mret (VInteger n)
  else if String.eqb method "decr" then
    key ← key;
    n ← cache_call op (CacheDecr key (resolve_named_i64 named "by" 1) (resolve_explicit_ttl named));
    mret (VInteger n)
  else if String.eqb method "get_many" then
    match positional with
    | [] => cache_error "cache.get_many requires a list of keys" op
    | VList items :: _ =>
        result ← cache_call op (CacheGetMany (map show_value items));
        mret (VMap (IM.from_pairs
          (map (fun kv => (fst kv, default VNull (snd kv)))
             (entries (result : gmap string (option Value))))))
    | _ :: _ => cache_error "cache.get_many argument must be a list" op
    end
  else if String.eqb method "set_many" then
    match positional with
    | [] => cache_error "cache.set_many requires a map argument" op
    | VMap m :: _ => _ ← cache_call op (CacheSetMany (map_to_row m) (resolve_ttl named)); mret VNull
    | _ :: _ => cache_error "cache.set_many argument must be a map" op
    end
  else cache_error ("unknown cache operation '" +:+ method +:+ "'") op.

(** [value >> cache.set(key, ..)]: the input is the value. *)
Definition pipeline_cache_set (input : Value) (arguments : list Argument) : Eval Value :=
  let op := "cache.set" in
  _ ← require_cache_driver op;
  match arguments with
  | Positional expr :: rest =>
      key ← evaluate expr;
      named ← foldE (fun named arg =>
        match arg with
        | Named name value => v ← evaluate value; mret (named ++ [(name, v)])
        | Positional _ => mret named
        end) [] rest;
      _ ← cache_call op (CacheSet (show_value key) input (resolve_ttl named)
                           (resolve_named_bool named "only_if_absent"));
      mret input
  | _ => cache_error "cache.set in pipeline requires a key argument" op
  end.

(** * Trace context of outgoing calls *)

(** [trace_context.outbound_child()], if there is a context.  The draws stand
    for as many blocks as it takes. *)
Definition outgoing_context : Eval (option TraceContext) :=
  match c_trace_context cfg with
  | None => mret None
  | Some context =>
      draws ← request RSpanDraws;
      match outbound_child context draws with
      | Some child => mret (Some child)
      | None => no_fuel
      end
  end.

(** * HTTP client *)

Definition http_client_error {A} (msg op : string) : Eval A := raise (HttpClientError msg op).

Definition http_method_of (method : string) : option HttpMethod :=
  if String.eqb method "get" then Some MGet
  else if String.eqb method "post" then Some MPost
  else if String.eqb method "put" then Some MPut
  else if String.eqb method "patch" then Some MPatch
  else if String.eqb method "delete" then Some MDelete
  else None.

Definition has_body (m : HttpMethod) : bool :=
  match m with MPost | MPut | MPatch => true | MGet | MDelete => false end.

(** The body: the pipeline input, else the second positional argument. *)
Definition request_body (m : HttpMethod) (pipeline_input explicit_body : option Value) : option Value :=
  if has_body m then match pipeline_input with Some input => Some input | None => explicit_body end
  else None.

(** Adds the printed entries of a map. *)
Definition insert_shown (key : string -> string) (m : list (string * Value)) (acc : gmap string string)
  : gmap string string :=
  fold_left (fun acc kv => <[key (fst kv) := show_value (snd kv)]> acc) m acc.

(** The entries of the named arguments [name:] that are maps. *)
Definition named_entries (key : string -> string) (name : string) (named : list (string * Value))
  : gmap string string :=
  fold_left (fun acc nv =>
    match snd nv with
    | VMap m => if String.eqb (fst nv) name then insert_shown key m acc else acc
    | _ => acc
    end) named ∅.

(** [entry(k).or_insert(v)]. *)
Definition or_insert (k v : string) (m : gmap string string) : gmap string string :=
  match m !! k with Some _ => m | None => <[k := v]> m end.

Definition trace_headers (child : option TraceContext) (headers : gmap string string)
  : gmap string string :=
  match child with
  | None => headers
  | Some child =>
      let headers := or_insert "traceparent" (traceparent child) headers in
      match tracestate child with
      | Some state => or_insert "tracestate" state headers
      | None => headers
      end
  end.

Definition request_timeout (named : list (string * Value)) : option Z :=
  nv ← find (fun nv => String.eqb (fst nv) "timeout") named;
  ms ← as_integer (snd nv);
  if (0 <? ms)%Z then Some ms else None.

Definition http_response_to_value (response : HttpClientResponse) : Value :=
  VMap [("status", VInteger (hcr_status response));
        ("body", hcr_body response);
        ("headers", VMap (IM.from_pairs (map (fun kv => (fst kv, VString (snd kv)))
                                           (entries (hcr_headers response)))))].

Definition dispatch_http_client_with_pipeline (method : string) (arguments : list Argument)
    (pipeline_input : option Value) : Eval Value :=
  let op := "http_client." +:+ method in
  match http_method_of method with
  | None =>
      http_client_error ("unknown http_client operation '" +:+ method
                         +:+ "'. Valid: get, post, put, patch, delete") op
  | Some http_method =>
      _ ← (if c_http_client_driver cfg then mret tt
           else http_client_error "http_client.* called but no HTTP client is configured" op);
      '(positional, named) ← collect_arguments arguments;
      url ← match positional with
            | VString s :: _ => mret s
            | other :: _ => http_client_error (op +:+ " first argument must be a URL string, got "
                                               +:+ type_name other) op
            | [] => http_client_error (op +:+ " requires a URL argument") op
            end;
      let body := request_body http_method pipeline_input (positional !! 1) in
      let query := named_entries id "query" named in
      query ← match pipeline_input with
              | Some input =>
                  if has_body http_method then mret query
                  else match input with
                       | VMap m => mret (insert_shown id m query)
                       | _ => http_client_error ("pipeline input to " +:+ op
                                +:+ " must be a Map (query params), got " +:+ type_name input) op
                       end
              | None => mret query
              end;
      child ← outgoing_context;
      let headers := trace_headers child (named_entries to_lowercase "headers" named) in
      r ← request (RHttp (mkHttpRequest http_method url body headers query (request_timeout named)));
      match r : result HttpClientDriverError HttpClientResponse with
      | Ok response => mret (http_response_to_value response)
      | Err e => http_client_error (show_http_client_error e) op
      end
  end.

Definition dispatch_http_client (method : string) (arguments : list Argument) : Eval Value :=
  dispatch_http_client_with_pipeline method arguments None.

(** [http_client.get(..) as schema]. *)
Definition evaluate_http_client_response_schema (call : Expression) (schema_name : string)
  : Eval Value :=
  let op := match call with
            | EMethodCall (EIdentifier name) method _ =>
                if String.eqb name "http_client" then "http_client." +:+ method else "http_client"
            | _ => "http_client"
            end in
  response ← evaluate call;
  match response with
  | VMap response_map =>
      module ← gets i_module;
      match resolve_schema cfg module schema_name with
      | None => http_client_error ("unknown schema '" +:+ schema_name +:+ "'") op
      | Some schema =>
          let body := default VNull (IM.get "body" response_map) in
          match coerce_payload (schema_registry_for cfg module) body schema with
          | Done coerced => mret (VMap (IM.insert "body" coerced response_map))
          | Fails err =>
              http_client_error ("response body does not match schema '" +:+ schema_name +:+ "': "
                                 +:+ validation_error_detail err) op
          | Panics => panic
          | NoFuel => no_fuel
          end
      end
  | _ => http_client_error "http_client schema annotation expected a response map" op
  end.

(** * Queue producers *)

Definition no_queue_message : string :=
  "Queue provider not configured — set MARRETA_QUEUE_PROVIDER, MARRETA_QUEUE_HOST, MARRETA_QUEUE_PORT, MARRETA_QUEUE_USER, and optional MARRETA_QUEUE_PASSWORD".

Definition queue_message (payload : Value) : Eval QueueMessage :=
  child ← outgoing_context;
  mret (mkQueueMessage payload
    match child with
    | None => ∅
    | Some child =>
        let metadata := {["traceparent" := traceparent child]} in
        match tracestate child with
        | Some state => <["tracestate" := state]> metadata
        | None => metadata
        end
    end).

(** The parts that [eval_queue_push] and [eval_topic_publish] share: what they
    call themselves, and the request they make. *)
Definition eval_producer (op target_name : string) (send : string -> QueueMessage -> Req)
    (sent : forall target message, Answer (send target message) -> result QueueDriverError unit)
    (target : Expression) (schema : option string) (payload : option Expression)
    (pipeline_input : option Value) : Eval Value :=
  _ ← (if c_queue_driver cfg then mret tt else raise (QueueError no_queue_message op));
  target ← evaluate target;
  target ← match target with
           | VString s => mret s
           | other => type_error (op +:+ ": " +:+ target_name +:+ " must be a string, got "
                                  +:+ debug_value other)
           end;
  value ← match payload, pipeline_input with
          | Some expr, _ => evaluate expr
          | None, Some input => mret input
          | None, None => type_error (op +:+ ": no payload provided and not inside a pipeline")
          end;
  let value := match schema ≫= (fun name => schemas ← c_schemas cfg; schemas !! name) with
               | Some schema_def => serialize_response value schema_def
               | None => value
               end in
  message ← queue_message value;
  r ← request (send target message);
  match sent target message r with
  | Ok _ => mret value
  | Err e => raise (QueueError (show_queue_error e) op)
  end.

Definition eval_queue_push (queue_name : Expression) (schema : option string)
    (payload : option Expression) (pipeline_input : option Value) : Eval Value :=
  eval_producer "queue.push" "queue name" RPush (fun _ _ r => r) queue_name schema payload pipeline_input.

Definition eval_topic_publish (topic : Expression) (schema : option string)
    (payload : option Expression) (pipeline_input : option Value) : Eval Value :=
  eval_producer "topic.publish" "topic" RPublish (fun _ _ r => r) topic schema payload pipeline_input.

(** * Document store *)

Definition dispatch_doc_pipeline (args : list Value) : Eval Value :=
  match args with
  | [collection; stages] =>
      match collection with
      | VString collection =>
          match stages with
          | VList stages =>
              _ ← of_res (for_each (fun stage => _ ← translate_pipeline_stage stage; Ok tt) stages);
              _ ← require_doc_engine cfg;
              rows ← doc_call (DocRawPipeline collection stages);
              mret (VList (map doc_row_to_value rows))
          | _ => type_error "doc.pipeline second argument must be a list of stage maps"
          end
      | _ => type_error "doc.pipeline first argument must be a string (collection name)"
      end
  | _ => type_error ("doc.pipeline expects 2 arguments (collection, stages), got "
                     +:+ show_nat (length args))
  end.

(** [args.get(index).ok_or_else(type error)?]. *)
Definition required_arg (args : list Value) (index : nat) (message : string) : Eval Value :=
  match args !! index with Some v => mret v | None => type_error message end.

Definition optional_doc (row : option DocRow) : Value :=
  match row with Some row => doc_row_to_value row | None => VNull end.

Definition dispatch_doc_direct (collection method : string) (raw_args : list Argument) : Eval Value :=
  _ ← require_doc_engine cfg;
  if String.eqb method "save" then
    args ← evaluate_args raw_args;
    data ← required_arg args 0 "doc.COLLECTION.save requires a map argument";
    row ← value_to_doc_row data;
    result ← doc_call (DocSave collection row);
    mret (doc_row_to_value result)
  else if String.eqb method "find" then
    args ← evaluate_args raw_args;
    id ← required_arg args 0 "doc.COLLECTION.find requires an id argument";
    result ← doc_call (DocFind collection id);
    mret (optional_doc result)
  else if String.eqb method "find_all" then
    rows ← doc_call (DocFindAll collection);
    mret (VList (map doc_row_to_value rows))
  else if String.eqb method "update" || String.eqb method "update_by_id" then
    args ← evaluate_args raw_args;
    id ← required_arg args 0 "doc.COLLECTION.update requires (id, partial_map) arguments";
    data ← required_arg args 1 "doc.COLLECTION.update requires a second map argument";
    row ← value_to_doc_row data;
    result ← doc_call (DocUpdateById collection id row);
    mret (doc_row_to_value result)
  else if String.eqb method "delete" || String.eqb method "delete_by_id" then
    args ← evaluate_args raw_args;
    id ← required_arg args 0 "doc.COLLECTION.delete requires an id argument";
    deleted ← doc_call (DocDeleteById collection id);
    mret (VBoolean deleted)
  else property_not_found ("DocCollection(" +:+ collection +:+ ")") method.

(** * Relational store *)

(** [args_to_equality_filters]. *)
Definition args_to_equality_filters (raw_args : list Argument) : Eval (list (FilterClause Value)) :=
  mapE (fun arg =>
    match arg with
    | Named name value => v ← evaluate value; mret (eq_filter name v)
    | Positional _ =>
        type_error ("find_all filters must be named arguments (e.g. find_all(status: "
                    +:+ dquote +:+ "active" +:+ dquote +:+ "))")
    end) raw_args.

Definition dispatch_db_direct (table method : string) (raw_args : list Argument) : Eval Value :=
  _ ← require_db_engine cfg;
  if String.eqb method "save" then
    args ← evaluate_args raw_args;
    data ← required_arg args 0 "db.TABLE.save requires a map argument";
    row ← value_to_db_row data;
    module ← gets i_module;
    if bool_decide (is_Some (resolve_schema_name_for_table cfg module table))
       && bool_decide (is_Some (row !! "id"))
    then type_error "db.TABLE.save must not include `id` for db: schemas; id is generated by the database in v1"
    else
      result ← db_call (DbSave table row);
      row_to_runtime cfg table (Some result)
  else if String.eqb method "find" then
    args ← evaluate_args raw_args;
    id ← required_arg args 0 "db.TABLE.find requires an id argument";
    result ← db_call (DbFind table id);
    row_to_runtime cfg table result
  else if String.eqb method "find_all" then
    filters ← args_to_equality_filters raw_args;
    rows ← db_call (DbFindAll table filters);
    rows_to_runtime cfg table rows
  else if String.eqb method "update" then
    args ← evaluate_args raw_args;
    id ← required_arg args 0 "db.TABLE.update requires (id, partial_map) arguments";
    data ← required_arg args 1 "db.TABLE.update requires a second argument (partial map)";
    row ← value_to_db_row data;
    result ← db_call (DbUpdateById table id row);
    row_to_runtime cfg table result
  else if String.eqb method "delete" then
    args ← evaluate_args raw_args;
    id ← required_arg args 0 "db.TABLE.delete requires an id argument";
    deleted ← db_call (DbDeleteById table id);
    mret (VBoolean deleted)
  else type_error ("unknown db operation '" +:+ method +:+ "' on table '" +:+ table
                   +:+ "' — supported: save, find, find_all, update, delete").

(** One piece of the template: an expression becomes the next numbered
    placeholder, its value the next parameter. *)
Definition native_query_step (acc : string * list Value) (piece : Piece)
  : Eval (string * list Value) :=
  match piece with
  | Literal c => mret (fst acc +:+ of_chars [c], snd acc)
  | Placeholder e =>
      val ← evaluate_source_expression (trim (of_chars e));
      mret (fst acc +:+ "$" +:+ show_nat (S (length (snd acc))), snd acc ++ [val])
  end.

Definition extract_native_query_params (template : string) : Eval (string * list Value) :=
  if str_contains placeholder_mark template then
    foldE native_query_step (EmptyString, []) (pieces_of template)
  else mret (template, []).

(** The template: the text of a literal as it stands, any other expression
    evaluated, together with the other arguments. *)
Definition native_query_template (raw_args : list Argument) : Eval string :=
  match raw_args with
  | Positional (EStringLiteral s) :: _ => mret s
  | _ :: _ =>
      args ← evaluate_args raw_args;
      match args with
      | VString s :: _ => mret s
      | other :: _ => type_error ("db.native_query first argument must be a string, got "
                                  +:+ type_name other)
      | [] => panic
      end
  | [] => type_error "db.native_query requires a SQL string as the first argument"
  end.

Definition dispatch_native_query (raw_args : list Argument) : Eval Value :=
  _ ← require_db_engine cfg;
  template ← native_query_template raw_args;
  '(sql, params) ← extract_native_query_params template;
  rows ← db_call (DbNativeQuery sql params);
  mret (VList (map db_row_to_value rows)).

End Infra.
