(* ===== verification/QueryPipeline.v ===== *)
(** The stages of a database pipeline: the steps that accumulate a query and
    the terminals that execute it, for relational queries, relations and
    document queries (src/src/interpreter/pipeline.rs), with the filters of
    [where] (src/src/interpreter.rs). *)
From stdpp Require Import base list strings gmap.
From Stdlib Require Import ZArith Lia.
From S2P Require Import Prelude RustStr F64 Errors Ast IndexMap Foreign QueryTypes Value Schemas Crates DocBson ProjectRuntime Interaction Interp Namespaces Infra.

(** The derived [Debug] of an operator. *)
Definition debug_binop (o : BinaryOperator) : string :=
  match o with
  | Add => "Add" | Subtract => "Subtract" | Multiply => "Multiply" | Divide => "Divide"
  | Modulo => "Modulo" | OpEqual => "Equal" | OpNotEqual => "NotEqual" | OpGreater => "Greater"
  | OpLess => "Less" | OpGreaterEqual => "GreaterEqual" | OpLessEqual => "LessEqual"
  | OpIn => "In" | OpAnd => "And" | OpOr => "Or"
  end.

Section QueryPipeline.
Context `{E : Ext} `{C : !Crates E} `{B : !BsonCrate E} `{HO : HashOrder}.
Variable cfg : Config.
Variable evaluate : Expression -> Eval Value.

Notation type_error := Interp.type_error.
Notation evaluate_args := (Namespaces.evaluate_args evaluate).
Notation Query := (QueryState Value).
Notation DocQuery := (DocQueryState Value).

(** * Filters *)

Definition comparison_filter (o : BinaryOperator) : option FilterOp :=
  match o with
  | OpGreater => Some FGt | OpGreaterEqual => Some FGte | OpLess => Some FLt
  | OpLessEqual => Some FLte | OpNotEqual => Some FNe | OpEqual => Some FEq
  | _ => None
  end.

Definition extract_filter_from_expr (expr : Expression) : Eval (FilterClause Value) :=
  match expr with
  | EBinaryOp left_ operator right_ =>
      match comparison_filter operator with
      | None => type_error ("unsupported operator " +:+ debug_binop operator
                            +:+ " in where() — supported: >, >=, <, <=, !=, ==")
      | Some op =>
          match left_ with
          | EIdentifier column => v ← evaluate right_; mret (mkFilterClause column op v)
          | _ => type_error "left side of where() filter must be a column identifier (e.g. total > 1000)"
          end
      end
  | other => type_error ("unsupported expression in where() — use 'col > val' or 'col: val' (got "
                         +:+ debug_expression other +:+ ")")
  end.

Definition parse_where_args (arguments : list Argument) : Eval (list (FilterClause Value)) :=
  mapE (fun arg =>
    match arg with
    | Named name value => v ← evaluate value; mret (eq_filter name v)
    | Positional expr => extract_filter_from_expr expr
    end) arguments.

Definition doc_comparison (o : BinaryOperator) (column : string) (v : Value)
  : option (DocFilter Value) :=
  match o with
  | OpGreater => Some (DGt column v) | OpGreaterEqual => Some (DGte column v)
  | OpLess => Some (DLt column v) | OpLessEqual => Some (DLte column v)
  | OpNotEqual => Some (DNe column v) | OpEqual => Some (DEq column v)
  | _ => None
  end.

Definition doc_identifier_message : string :=
  "doc.* where() requires string field names — use where(" +:+ dquote +:+ "field" +:+ dquote
  +:+ " == value) not where(field == value). String field names support dot-notation paths like "
  +:+ dquote +:+ "address.city" +:+ dquote +:+ ".".

Definition extract_doc_filter_from_expr (expr : Expression) : Eval (DocFilter Value) :=
  match expr with
  | EBinaryOp left_ operator right_ =>
      match left_ with
      | EStringLiteral column =>
          v ← evaluate right_;
          match doc_comparison operator column v with
          | Some filter => mret filter
          | None => type_error ("unsupported operator " +:+ debug_binop operator +:+ " in where()")
          end
      | EIdentifier _ => type_error doc_identifier_message
      | _ => type_error ("left side of doc where() filter must be a string field name, e.g. where("
                         +:+ dquote +:+ "status" +:+ dquote +:+ " == " +:+ dquote +:+ "pending"
                         +:+ dquote +:+ ")")
      end
  | _ => type_error "unsupported expression in where()"
  end.

Definition parse_doc_where_args (arguments : list Argument) : Eval (list (DocFilter Value)) :=
  mapE (fun arg =>
    match arg with
    | Named _ _ =>
        type_error ("doc.* where() requires string field names — use where(" +:+ dquote +:+ "field"
                    +:+ dquote +:+ " == value) instead of named arguments")
    | Positional expr => extract_doc_filter_from_expr expr
    end) arguments.

(** The string value of the first argument named [key]. *)
Fixpoint extract_named_string_arg (arguments : list Argument) (key : string) : Eval (option string) :=
  match arguments with
  | [] => mret None
  | Named name value :: arguments =>
      if String.eqb name key then
        v ← evaluate value;
        match v with
        | VString s => mret (Some s)
        | other => type_error ("'" +:+ key +:+ ":' argument must be a string, got " +:+ type_name other)
        end
      else extract_named_string_arg arguments key
  | Positional _ :: arguments => extract_named_string_arg arguments key
  end.

(** The evaluated arguments, of which the first must be a string, or an
    integer. *)
Definition string_arg (arguments : list Argument) (message : string) : Eval (string * list Value) :=
  args ← evaluate_args arguments;
  match args with
  | VString s :: rest => mret (s, rest)
  | _ => type_error message
  end.

Definition integer_arg (arguments : list Argument) (message : string) : Eval Z :=
  args ← evaluate_args arguments;
  match args with
  | VInteger n :: _ => mret n
  | _ => type_error message
  end.

(** * Relational queries *)

Definition add_filters (filters : list (FilterClause Value)) (q : Query) : Query :=
  with_filters (q_filters q ++ filters) q.
Definition add_join (j : JoinClause) (q : Query) : Query :=
  mkQueryState (q_table q) (q_filters q) (q_joins q ++ [j]) (q_select_cols q) (q_order_by q)
    (q_limit q) (q_offset q) (q_count q) (q_known_columns q).
Definition set_select (cols : list string) (q : Query) : Query :=
  mkQueryState (q_table q) (q_filters q) (q_joins q) cols (q_order_by q)
    (q_limit q) (q_offset q) (q_count q) (q_known_columns q).
Definition set_order (order : string) (q : Query) : Query :=
  mkQueryState (q_table q) (q_filters q) (q_joins q) (q_select_cols q) (Some order)
    (q_limit q) (q_offset q) (q_count q) (q_known_columns q).
Definition set_limit (n : Z) (q : Query) : Query :=
  mkQueryState (q_table q) (q_filters q) (q_joins q) (q_select_cols q) (q_order_by q)
    (Some n) (q_offset q) (q_count q) (q_known_columns q).
Definition set_offset (n : Z) (q : Query) : Query :=
  mkQueryState (q_table q) (q_filters q) (q_joins q) (q_select_cols q) (q_order_by q)
    (q_limit q) (Some n) (q_count q) (q_known_columns q).
Definition set_known_columns (cols : option (gset string)) (q : Query) : Query :=
  mkQueryState (q_table q) (q_filters q) (q_joins q) (q_select_cols q) (q_order_by q)
    (q_limit q) (q_offset q) (q_count q) cols.

(** [db_known_columns]. *)
Definition db_known_columns (table : string) : option (gset string) :=
  runtime ← c_project_runtime cfg; pr_db_columns runtime !! table.

Definition mquery (q : Query) : Eval Value := mret (VQueryBuilder q).

Definition quote (s : string) : string := dquote +:+ s +:+ dquote.

(** The steps that take arguments, and the terminal [update]. *)
Definition query_step (q : Query) (name : string) (arguments : list Argument) : Eval Value :=
  if String.eqb name "where" then
    filters ← parse_where_args arguments; mquery (add_filters filters q)
  else if String.eqb name "join" || String.eqb name "left_join" then
    let kind := if String.eqb name "join" then Inner else Left_ in
    '(table, _) ← string_arg arguments (name +:+ " first argument must be a table name string");
    on ← extract_named_string_arg arguments "on";
    match on : option string with
    | None => type_error (name +:+ " requires on: " +:+ quote "fk_column" +:+ " named argument")
    | Some on => mquery (add_join (mkJoinClause kind table on) q)
    end
  else if String.eqb name "select" then
    args ← evaluate_args arguments;
    cols ← mapE (fun v => match v with
                          | VString s => mret s
                          | other => type_error ("select columns must be strings, got "
                                                 +:+ type_name other)
                          end) args;
    mquery (set_select cols q)
  else if String.eqb name "order_by" then
    '(order, _) ← string_arg arguments
      ("order_by requires a string argument (e.g. order_by(" +:+ quote "created_at desc" +:+ "))");
    mquery (set_order order q)
  else if String.eqb name "limit" then
    n ← integer_arg arguments "limit requires an integer argument"; mquery (set_limit n q)
  else if String.eqb name "offset" then
    n ← integer_arg arguments "offset requires an integer argument"; mquery (set_offset n q)
  else if String.eqb name "like" then
    '(col, rest) ← string_arg arguments
      ("like requires a column name string as first argument (e.g. like(" +:+ quote "name" +:+ ", "
       +:+ quote "Ana%" +:+ "))");
    match rest with
    | pattern :: _ => mquery (add_filters [mkFilterClause col FLike pattern] q)
    | [] => type_error "like requires a pattern string as second argument"
    end
  else if String.eqb name "in" then
    '(col, rest) ← string_arg arguments
      ("in requires a column name string as first argument (e.g. in(" +:+ quote "status" +:+ ", ["
       +:+ quote "active" +:+ ", " +:+ quote "pending" +:+ "]))");
    match rest with
    | VList items :: _ => mquery (add_filters [mkFilterClause col FIn (VList items)] q)
    | other :: _ => type_error ("in requires a list as second argument, got " +:+ type_name other)
    | [] => type_error "in requires a list as second argument"
    end
  else if String.eqb name "update" then
    args ← evaluate_args arguments;
    match args with
    | [] => type_error ">> update({...}) requires a map argument"
    | v :: _ =>
        data ← value_to_db_row v;
        _ ← require_db_engine cfg;
        n ← db_call (DbQueryUpdate q data);
        mret (VInteger (wrap_i64 n))
    end
  else type_error ("unknown query pipeline step '" +:+ name +:+ "' — supported steps: where, like, in, join, left_join, select, order_by, limit, offset; terminals: fetch, fetch_one, count, exists, update, delete").

(** The terminals that are bare names. *)
Definition query_terminal (q : Query) (name : string) : Eval Value :=
  _ ← require_db_engine cfg;
  if String.eqb name "fetch" || String.eqb name "fetch_all" then
    rows ← db_call (DbQueryFetch q); rows_to_runtime cfg (q_table q) rows
  else if String.eqb name "fetch_one" then
    row ← db_call (DbQueryFetchOne q); row_to_runtime cfg (q_table q) row
  else if String.eqb name "count" then n ← db_call (DbQueryCount q); mret (VInteger n)
  else if String.eqb name "exists" then b ← db_call (DbQueryExists q); mret (VBoolean b)
  else if String.eqb name "delete" then
    n ← db_call (DbQueryDelete q); mret (VInteger (wrap_i64 n))
  else type_error ("'" +:+ name +:+ "' is not a valid query terminal — use: fetch, fetch_one, count, exists, update({...}), delete").

Definition apply_query_pipeline_stage (q : Query) (expr : Expression) : Eval Value :=
  match expr with
  | EFunctionCall name arguments => query_step q name arguments
  | EIdentifier name => query_terminal q name
  | other => type_error ("expected a query pipeline step or terminal after QueryBuilder, got "
                         +:+ debug_expression other)
  end.

(** A relation to one record is fetched or tested; a null key answers without
    a query. *)
Definition apply_relation_pipeline_stage (relation : RelationHandle Value) (expr : Expression)
  : Eval Value :=
  match rh_cardinality relation with
  | Many => apply_query_pipeline_stage (rh_query relation) expr
  | One =>
      match expr with
      | EIdentifier name =>
          if String.eqb name "fetch" then
            if rh_null_short_circuit relation then mret VNull
            else
              _ ← require_db_engine cfg;
              row ← db_call (DbQueryFetchOne (rh_query relation));
              row_to_runtime cfg (q_table (rh_query relation)) row
          else if String.eqb name "exists" then
            if rh_null_short_circuit relation then mret (VBoolean false)
            else
              _ ← require_db_engine cfg;
              b ← db_call (DbQueryExists (rh_query relation));
              mret (VBoolean b)
          else type_error ("singular relation '" +:+ name +:+ "' only supports >> fetch and >> exists")
      | EFunctionCall name _ =>
          type_error ("singular relation does not support " +:+ name
                      +:+ "(); use >> fetch or >> exists")
      | other => type_error ("expected >> fetch or >> exists after singular relation, got "
                             +:+ debug_expression other)
      end
  end.

(** * Document queries *)

Definition doc_add_filters (filters : list (DocFilter Value)) (q : DocQuery) : DocQuery :=
  mkDocQueryState (dq_collection q) (dq_filters q ++ filters) (dq_projection q) (dq_sort q)
    (dq_limit q) (dq_offset q) (dq_mode q) (dq_group_by q) (dq_accumulators q) (dq_post_sort q)
    (dq_post_limit q).
Definition doc_set_projection (fields : list string) (q : DocQuery) : DocQuery :=
  mkDocQueryState (dq_collection q) (dq_filters q) (Some fields) (dq_sort q)
    (dq_limit q) (dq_offset q) (dq_mode q) (dq_group_by q) (dq_accumulators q) (dq_post_sort q)
    (dq_post_limit q).
(** In an aggregation the order and the limit apply after grouping. *)
Definition doc_set_sort (sort : string * SortDirection) (q : DocQuery) : DocQuery :=
  let agg := is_aggregate q in
  mkDocQueryState (dq_collection q) (dq_filters q) (dq_projection q)
    (if agg then dq_sort q else Some sort)
    (dq_limit q) (dq_offset q) (dq_mode q) (dq_group_by q) (dq_accumulators q)
    (if agg then Some sort else dq_post_sort q) (dq_post_limit q).
Definition doc_set_limit (n : Z) (q : DocQuery) : DocQuery :=
  let agg := is_aggregate q in
  mkDocQueryState (dq_collection q) (dq_filters q) (dq_projection q) (dq_sort q)
    (if agg then dq_limit q else Some n) (dq_offset q) (dq_mode q) (dq_group_by q)
    (dq_accumulators q) (dq_post_sort q) (if agg then Some n else dq_post_limit q).
Definition doc_set_offset (n : Z) (q : DocQuery) : DocQuery :=
  mkDocQueryState (dq_collection q) (dq_filters q) (dq_projection q) (dq_sort q)
    (dq_limit q) (Some n) (dq_mode q) (dq_group_by q) (dq_accumulators q) (dq_post_sort q)
    (dq_post_limit q).
Definition doc_set_group_by (field : string) (q : DocQuery) : DocQuery :=
  mkDocQueryState (dq_collection q) (dq_filters q) (dq_projection q) (dq_sort q)
    (dq_limit q) (dq_offset q) Aggregate (Some field) (dq_accumulators q) (dq_post_sort q)
    (dq_post_limit q).
Definition doc_add_accumulator (a : Accumulator) (q : DocQuery) : DocQuery :=
  mkDocQueryState (dq_collection q) (dq_filters q) (dq_projection q) (dq_sort q)
    (dq_limit q) (dq_offset q) Aggregate (dq_group_by q) (dq_accumulators q ++ [a])
    (dq_post_sort q) (dq_post_limit q).

Definition mdoc (q : DocQuery) : Eval Value := mret (VDocQueryBuilder q).

Definition is_write_mode (q : DocQuery) : bool :=
  match dq_mode q with Update _ | Upsert _ | DeleteMode => true | _ => false end.

Definition write_after_aggregation : string :=
  "write terminals (update/upsert/delete) cannot follow aggregation steps".

Definition is_named (key : string) (arg : Argument) : bool :=
  match arg with Named name _ => String.eqb name key | Positional _ => false end.

(** The direction, in any case. *)
Definition direction_of (rest : list Value) : Eval SortDirection :=
  match rest with
  | VString s :: _ =>
      if String.eqb (to_lowercase s) "desc" then mret Desc
      else if String.eqb (to_lowercase s) "asc" then mret Asc
      else type_error ("order direction must be " +:+ quote "asc" +:+ " or " +:+ quote "desc")
  | _ :: _ => type_error ("order direction must be " +:+ quote "asc" +:+ " or " +:+ quote "desc")
  | [] => type_error ("order requires a direction as second argument: order(" +:+ quote "field"
                      +:+ ", " +:+ quote "asc" +:+ ") or order(" +:+ quote "field" +:+ ", "
                      +:+ quote "desc" +:+ ")")
  end.

(** The field and the alias of [sum], [avg], [min] and [max]: the last
    positional argument and the last named [as]. *)
Definition accumulator_arguments (step : string) (arguments : list Argument)
  : Eval (option string * option string) :=
  foldE (fun (acc : option string * option string) arg =>
    match arg with
    | Positional expr =>
        v ← evaluate expr;
        match v with
        | VString s => mret (Some s, snd acc)
        | _ => type_error (step +:+ "() field argument must be a string")
        end
    | Named name expr =>
        if String.eqb name "as" then
          v ← evaluate expr;
          match v with
          | VString s => mret (fst acc, Some s)
          | _ => type_error (step +:+ "() 'as:' argument must be a string")
          end
        else mret acc
    end) (None, None) arguments.

Definition doc_accumulator_step (q : DocQuery) (step : string) (arguments : list Argument)
  : Eval Value :=
  if is_write_mode q then type_error write_after_aggregation
  else
    '(field_opt, alias_opt) ← accumulator_arguments step arguments;
    match field_opt, alias_opt with
    | None, _ => type_error (step +:+ "() requires a field name as first argument, e.g. " +:+ step
                             +:+ "(" +:+ quote "amount" +:+ ", as: " +:+ quote "total" +:+ ")")
    | Some field, None =>
        type_error (step +:+ "() requires a named 'as:' argument, e.g. " +:+ step
                    +:+ "(" +:+ quote field +:+ ", as: " +:+ quote "alias" +:+ ")")
    | Some field, Some alias =>
        let acc := if String.eqb step "sum" then Sum field alias
                   else if String.eqb step "avg" then Avg field alias
                   else if String.eqb step "min" then Min field alias
                   else Max field alias in
        mdoc (doc_add_accumulator acc q)
    end.

(** [count] accumulates in an aggregation, or when it has an [as:]. *)
Definition is_count_accumulator (q : DocQuery) (arguments : list Argument) : bool :=
  is_aggregate q || bool_decide (is_Some (dq_group_by q))
  || negb (bool_decide (dq_accumulators q = [])) || existsb (is_named "as") arguments.

Definition doc_count_step (q : DocQuery) (arguments : list Argument) : Eval Value :=
  if existsb (fun arg => match arg with Positional _ => true | Named _ _ => false end) arguments then
    type_error ("count() does not accept a field argument — use count(as: " +:+ quote "alias" +:+ ")")
  else
    alias ← foldE (fun (acc : option string) arg =>
      match arg with
      | Named name expr =>
          if String.eqb name "as" then
            v ← evaluate expr;
            match v with VString s => mret (Some s) | _ => mret acc end
          else mret acc
      | Positional _ => mret acc
      end) None arguments;
    match alias : option string with
    | Some alias => mdoc (doc_add_accumulator (CountAcc alias) q)
    | None => type_error ("count() requires a named 'as:' argument, e.g. count(as: "
                          +:+ quote "total" +:+ ")")
    end.

(** [update] and [upsert]. *)
Definition doc_write_step (q : DocQuery) (name : string) (arguments : list Argument) : Eval Value :=
  if is_aggregate q then type_error write_after_aggregation
  else
    args ← evaluate_args arguments;
    match args with
    | [] => type_error (">> " +:+ name +:+ "({...}) requires a map argument")
    | v :: _ =>
        data ← value_to_doc_row v;
        _ ← require_doc_engine cfg;
        n ← (if String.eqb name "update" then doc_call (DocQueryUpdate q data)
             else doc_call (DocQueryUpsert q data));
        mret (VInteger n)
    end.

Definition doc_query_step (q : DocQuery) (name : string) (arguments : list Argument) : Eval Value :=
  if String.eqb name "where" then
    filters ← parse_doc_where_args arguments; mdoc (doc_add_filters filters q)
  else if String.eqb name "pick" then
    if is_aggregate q then
      type_error "pick() cannot be used in aggregation pipelines — use accumulator aliases directly"
    else
      args ← evaluate_args arguments;
      match args with
      | VList items :: _ =>
          fields ← mapE (fun item => match item with
                                     | VString s => mret s
                                     | _ => type_error "pick fields must be strings"
                                     end) items;
          mdoc (doc_set_projection fields q)
      | _ => type_error "pick requires a list string field names"
      end
  else if String.eqb name "order" then
    '(field, rest) ← string_arg arguments
      ("order requires a string field name as first argument, e.g. order(" +:+ quote "created_at"
       +:+ ", " +:+ quote "desc" +:+ ")");
    dir ← direction_of rest;
    mdoc (doc_set_sort (field, dir) q)
  else if String.eqb name "limit" then
    n ← integer_arg arguments "limit requires an integer argument"; mdoc (doc_set_limit n q)
  else if String.eqb name "offset" then
    n ← integer_arg arguments "offset requires an integer argument"; mdoc (doc_set_offset n q)
  else if String.eqb name "like" then
    '(col, rest) ← string_arg arguments "like requires a column name string";
    match rest with
    | VString pattern :: _ => mdoc (doc_add_filters [DLike col pattern] q)
    | _ => type_error "like requires a pattern string"
    end
  else if String.eqb name "in" then
    '(col, rest) ← string_arg arguments "in requires a column name string";
    match rest with
    | VList items :: _ => mdoc (doc_add_filters [DIn col items] q)
    | _ => type_error "in requires a list as second argument"
    end
  else if String.eqb name "group_by" then
    if bool_decide (dq_accumulators q = []) then
      '(field, _) ← string_arg arguments "group_by requires a string field name";
      mdoc (doc_set_group_by field q)
    else type_error "group_by() must appear before accumulator steps (sum, avg, min, max, count)"
  else if String.eqb name "sum" || String.eqb name "avg" || String.eqb name "min"
          || String.eqb name "max" then doc_accumulator_step q name arguments
  else if String.eqb name "count" && is_count_accumulator q arguments then doc_count_step q arguments
  else if String.eqb name "update" || String.eqb name "upsert" then doc_write_step q name arguments
  else type_error ("unknown doc pipeline step '" +:+ name +:+ "' — supported: where, pick, order, limit, offset, like, in, group_by, sum, avg, min, max, count; terminals: fetch_all, fetch_one, count, exists, update({...}), upsert({...}), delete").

Definition doc_query_terminal (q : DocQuery) (name : string) : Eval Value :=
  _ ← require_doc_engine cfg;
  if String.eqb name "fetch_all" || String.eqb name "fetch" then
    rows ← (if is_aggregate q then doc_call (DocQueryAggregate q) else doc_call (DocQueryFetch q));
    mret (VList (map doc_row_to_value rows))
  else if String.eqb name "fetch_one" then
    row ← (if is_aggregate q then rows ← doc_call (DocQueryAggregate q); mret (head rows)
           else doc_call (DocQueryFetchOne q));
    mret (optional_doc row)
  else if String.eqb name "count" then n ← doc_call (DocQueryCount q); mret (VInteger n)
  else if String.eqb name "exists" then b ← doc_call (DocQueryExists q); mret (VBoolean b)
  else if String.eqb name "delete" then
    if is_aggregate q then type_error write_after_aggregation
    else n ← doc_call (DocQueryDelete q); mret (VInteger n)
  else type_error ("'" +:+ name +:+ "' is not a valid doc query terminal — use: fetch_all, fetch_one, count, exists, delete").

Definition apply_doc_query_pipeline_stage (q : DocQuery) (expr : Expression) : Eval Value :=
  match expr with
  | EFunctionCall name arguments => doc_query_step q name arguments
  | EIdentifier name => doc_query_terminal q name
  | other => type_error ("expected a doc query pipeline step or terminal, got "
                         +:+ debug_expression other)
  end.

End QueryPipeline.
