(* ===== verification/Calls.v ===== *)
(** Calls of the evaluator (src/src/interpreter.rs): tasks and built-in
    functions, the stages of pipelines and broadcasts that call them, rescue
    handlers, and the test of purity that decides how a broadcast runs.

    They are over the evaluators of expressions and statements. *)
From stdpp Require Import base list strings gmap.
From Stdlib Require Import ZArith Lia.
From S2P Require Import Prelude RustStr F64 Errors Token Ast IndexMap Foreign QueryTypes Value Schemas Validator Serializer Environment Operators Crates ValueMethods DocBson TraceContext FeatureFlags ProjectRuntime Interaction Interp Namespaces Infra QueryPipeline.

(** * Purity *)

(** The namespaces whose mention makes an expression impure. *)
Definition impure_name (name : string) : bool :=
  String.eqb name "db" || String.eqb name "doc" || String.eqb name "cache"
  || String.eqb name "queue" || String.eqb name "http_client".

Fixpoint expression_has_side_effects (expr : Expression) : bool :=
  match expr with
  | EInteger _ | EFloat _ | EBoolean _ | ENull => false
  | EStringLiteral s => str_contains placeholder_mark s
  | EIdentifier name => impure_name name
  | EList items => existsb expression_has_side_effects items
  | EMapLiteral entries => existsb (fun kv => expression_has_side_effects (snd kv)) entries
  | EBinaryOp l _ r => expression_has_side_effects l || expression_has_side_effects r
  | EUnaryOp _ operand => expression_has_side_effects operand
  | EPropertyAccess object _ => expression_has_side_effects object
  | ESubscript object key =>
      expression_has_side_effects object || expression_has_side_effects key
  | EMethodCall object _ arguments =>
      expression_has_side_effects object
      || existsb (fun arg =>
           match arg with Positional e | Named _ e => expression_has_side_effects e end) arguments
  | _ => true
  end.

Definition argument_has_side_effects (arg : Argument) : bool :=
  match arg with Positional e | Named _ e => expression_has_side_effects e end.

Definition task_body_is_pure (body : TaskBody) : bool :=
  match body with
  | TInline expr => negb (expression_has_side_effects expr)
  | TBlock stmts ret => bool_decide (stmts = []) && negb (expression_has_side_effects ret)
  end.

Section Calls.
Context `{E : Ext} `{C : !Crates E} `{B : !BsonCrate E} `{HO : HashOrder}.
Variable cfg : Config.
Variable evaluate : Expression -> Eval Value.
Variable execute_statement : Statement -> Eval Value.

Notation type_error := Interp.type_error.
Notation evaluate_args := (Namespaces.evaluate_args evaluate).

(** [value_to_json_string]: the text that serde_json writes for a value is that
    of its tree ([ValueFacts.serialize_agrees_with_tree]). *)
Definition value_to_json_string (v : Value) : string := json_show (value_to_json v).

(** * Statements in a row, and bodies *)

(** [execute]: the value of the last statement. *)
Definition execute (program : list Statement) : Eval Value :=
  foldE (fun _ stmt => execute_statement stmt) VNull program.

Definition run_body (body : TaskBody) : Eval Value :=
  match body with
  | TInline expr => evaluate expr
  | TBlock stmts return_expr => _ ← execute stmts; evaluate return_expr
  end.

(** A branch of [if]: the environment is put back whatever happens. *)
Definition evaluate_branch_body (body : TaskBody) : Eval Value :=
  saved_env ← gets i_env;
  result ← attempt (run_body body);
  _ ← modify (with_env saved_env);
  of_res result.

(** * Built-in functions *)

Definition error_body (msg : Value) : string :=
  match msg with
  | VMap _ | VList _ => value_to_json_string msg
  | _ => json_show (JObject [("error", JString (show_value msg))])
  end.

(** [n as u16]. *)
Definition to_u16 (n : Z) : Z := (n mod 2 ^ 16)%Z.

Definition fail_response (status_code : Z) (msg : Value) : MarretaError :=
  HttpResponse (to_u16 status_code) (error_body msg) "application/json" [] true.

Definition has_exponent (s : string) : bool := str_contains "e" s || str_contains "E" s.

Definition builtin_decimal (args : list Value) : Eval Value :=
  match args with
  | [VDecimal d] => mret (VDecimal d)
  | [VInteger n] => mret (VDecimal (dec_of_Z n))
  | [VString s] =>
      if has_exponent s then
        type_error "decimal() rejects scientific notation; use a plain decimal string"
      else
        match dec_parse s with
        | Some d => mret (VDecimal d)
        | None => type_error "decimal() requires a plain decimal string or Integer"
        end
  | [other] => type_error ("decimal() requires String or Integer, got " +:+ type_name other)
  | _ => wrong_arity "decimal" 1 (length args)
  end.

Definition builtin_len (args : list Value) : Eval Value :=
  match args with
  | [VString s] => mret (VInteger (Z.of_nat (String.length s)))
  | [VList l] => mret (VInteger (Z.of_nat (length l)))
  | [VMap m] => mret (VInteger (Z.of_nat (length m)))
  | [other] => type_error ("len() not supported for " +:+ type_name other)
  | _ => wrong_arity "len" 1 (length args)
  end.

(** [start..=end]. *)
Definition range_values (from to : Z) : list Value :=
  if (to <? from)%Z then []
  else map (fun i => VInteger (from + Z.of_nat i)%Z) (seq 0 (Z.to_nat (to - from + 1))).

Definition builtin_range (args : list Value) : Eval Value :=
  match args with
  | [VInteger to] => mret (VList (range_values 1 to))
  | [VInteger from; VInteger to] => mret (VList (range_values from to))
  | [single] => type_error ("range() expects Integer arguments, got " +:+ type_name single)
  | [first; second] =>
      type_error ("range() expects Integer arguments, got " +:+ type_name first +:+ " and "
                  +:+ type_name second)
  | _ => wrong_arity "range" 1 (length args)
  end.

(** [print]: [println!] panics when standard output is closed. *)
Definition builtin_print (args : list Value) : Eval Value :=
  written ← request (RPrintln (join " " (map show_value args)));
  if (written : bool) then mret VNull else panic.

Definition builtin_function (name : string) (args : list Value) : option (Eval Value) :=
  if String.eqb name "__fail__" then
    Some (raise (fail_response (match args with VInteger n :: _ => n | _ => 500%Z end)
                               (default VNull (args !! 1))))
  else if String.eqb name "print" then Some (builtin_print args)
  else if String.eqb name "type" then
    Some (match args with
          | [arg] => mret (VString (type_name arg))
          | _ => wrong_arity "type" 1 (length args)
          end)
  else if String.eqb name "decimal" then Some (builtin_decimal args)
  else if String.eqb name "len" then Some (builtin_len args)
  else if String.eqb name "range" then Some (builtin_range args)
  else None.

(** * Calls of tasks *)

(** One argument against the schema of its parameter. *)
Definition coerce_argument (visible_schemas : gmap string SchemaDefinition) (task_name : string)
    (param : ParamDef) (arg : Value) : Eval Value :=
  match pd_schema param with
  | None => mret arg
  | Some schema_name =>
      match visible_schemas !! schema_name with
      | None =>
          type_error ("task '" +:+ task_name +:+ "' argument '" +:+ pd_name param
                      +:+ "' references unknown schema '" +:+ schema_name +:+ "'")
      | Some schema_def =>
          match coerce_payload visible_schemas arg schema_def with
          | Done coerced => mret coerced
          | Fails err =>
              type_error ("task '" +:+ task_name +:+ "' argument '" +:+ pd_name param
                          +:+ "' does not match schema '" +:+ schema_name +:+ "': "
                          +:+ validation_error_detail err)
          | Panics => panic
          | NoFuel => no_fuel
          end
      end
  end.

Definition coerce_arguments (owner_module : option string) (task_name : string)
    (params : list ParamDef) (args : list Value) : Eval (list Value) :=
  current ← gets i_module;
  let visible_schemas :=
    schema_registry_for cfg (match owner_module with Some m => Some m | None => current end) in
  mapE (fun pa => coerce_argument visible_schemas task_name (fst pa) (snd pa)) (zip params args).

Definition set_all (bindings : list (string * Value)) (env : Environment Value)
  : Environment Value :=
  fold_left (fun env nv => set (fst nv) (snd nv) env) bindings env.

Definition bindings_of (params : list ParamDef) (args : list Value) : list (string * Value) :=
  map (fun pa => (pd_name (fst pa), snd pa)) (zip params args).

(** A call in the module that owns the task: the state is that of the caller,
    one scope deeper.  The frame of a call that fails stays. *)
Definition call_local (name : string) (params : list ParamDef) (body : TaskBody)
    (source_module : option string) (line column : nat) (args : list Value) : Eval Value :=
  _ ← modify (fun s => with_call_depth (S (i_call_depth s)) s);
  task_trace ← enter_task name source_module line column;
  _ ← env_push_scope;
  _ ← modify_env (set_all (bindings_of params args));
  result ← attempt (run_body body);
  _ ← env_pop_scope;
  _ ← modify (fun s => with_call_depth (i_call_depth s - 1) s);
  match result with
  | Ok value => _ ← truncate_frames task_trace; mret value
  | Err err => raise err
  end.

(** The environment of a call into another module: the module's, a scope of
    the caller's local variables, and the parameters. *)
Definition cross_module_env (owner_module : string) (bindings : list (string * Value))
    (caller : Environment Value) : Environment Value :=
  let base_env := match c_project_runtime cfg with
                  | Some runtime => env_for_module runtime (Some owner_module)
                  | None => caller
                  end in
  set_all bindings (push_scope (set_all (local_variables caller) (push_scope base_env))).

(** A call into another module: a fork runs the body.  It shares the holder of
    the transaction, and its frames come back when it fails. *)
Definition call_cross_module (owner_module : string) (name : string) (params : list ParamDef)
    (body : TaskBody) (source_module : option string) (line column : nat) (args : list Value)
  : Eval Value := fun s =>
  let frame := mkMarretaFrame (FTask name) source_module (Some line) (Some column) in
  let fork := fork_with_env (cross_module_env owner_module (bindings_of params args) (i_env s))
                (Some owner_module) s in
  let fork := with_trace_frames (i_trace_frames s ++ [frame])
                (with_call_depth (S (i_call_depth s)) fork) in
  tree_bind (run_body body fork) (fun r =>
    match r with
    | RDone value f => TRet (RDone value (with_active_tx (i_active_tx f) s))
    | RFail err f =>
        TRet (RFail err (with_trace_frames (i_trace_frames f) (with_active_tx (i_active_tx f) s)))
    | RPanic => TRet RPanic
    | RNoFuel => TRet RNoFuel
    end).

Definition call_task_value (task : Value) (args : list Value) (call_name : string) : Eval Value :=
  match task with
  | VTask name params body owner_module source_module line column =>
      if negb (length params =? length args) then wrong_arity name (length params) (length args)
      else
        coerced_args ← coerce_arguments owner_module name params args;
        call_depth ← gets i_call_depth;
        if c_max_recursion_depth cfg <=? call_depth then
          runtime_error "maximum recursion depth exceeded"
        else
          current ← gets i_module;
          match owner_module with
          | Some owner =>
              if bool_decide (current = Some owner) then
                call_local name params body source_module line column coerced_args
              else
                call_cross_module owner name params body source_module line column coerced_args
          | None => call_local name params body source_module line column coerced_args
          end
  | _ => raise_at (NotCallable call_name)
  end.

Definition call_function (name : string) (args : list Value) : Eval Value :=
  match builtin_function name args with
  | Some result => result
  | None =>
      task ← env_get name;
      match task with
      | Some task => call_task_value task args name
      | None => raise_at (UndefinedTask name)
      end
  end.

(** * Stages *)

(** A task of a file namespace, unless the name is bound to a value. *)
Definition namespace_stage_task (object : Expression) (name : string) (s : Interp) : option Value :=
  match object with
  | EIdentifier ns =>
      if has ns (i_env s) then None
      else rt ← c_project_runtime cfg; module_task rt ns name
  | _ => None
  end.

Definition is_fetch (name : string) : bool :=
  String.eqb name "fetch" || String.eqb name "fetch_one".

Definition fetch_error (name : string) (input : Value) : Eval Value :=
  type_error ("cannot apply >> " +:+ name +:+ " to " +:+ type_name input
              +:+ "; this value is not a relation or query").

(** The namespaces whose functions take the value of a stage as an argument. *)
Definition dispatch_with_input (namespace method : string) (arguments : list Argument)
    (input : Value) : option (Eval Value) :=
  if String.eqb namespace "fs" then Some (dispatch_fs_with_input evaluate method arguments (Some input))
  else if String.eqb namespace "json" then
    Some (dispatch_json_with_input evaluate method arguments (Some input))
  else if String.eqb namespace "base64" then
    Some (dispatch_base64_with_input evaluate method arguments (Some input))
  else if String.eqb namespace "log" then
    Some (dispatch_log_with_input cfg evaluate method arguments (Some input))
  else if String.eqb namespace "math" then
    Some (dispatch_math_with_input cfg evaluate method arguments (Some input))
  else None.

(** The value of the stage is the first argument. *)
Definition with_injected (input : Value) (arguments : list Argument)
    (call : list Value -> Eval Value) : Eval Value :=
  args ← evaluate_args arguments; call (input :: args).

(** A method call in the position of a stage: the namespaces that take the
    value, the task of a file namespace, or an expression like any other. *)
Definition method_stage (object : Expression) (method : string) (arguments : list Argument)
    (input : Value) : Eval Value := fun s =>
  let otherwise :=
    match namespace_stage_task object method s with
    | Some task => with_injected input arguments (fun args => call_task_value task args method) s
    | None => evaluate (EMethodCall object method arguments) s
    end in
  match object with
  | EIdentifier n =>
      match dispatch_with_input n method arguments input with
      | Some dispatched => dispatched s
      | None => otherwise
      end
  | _ => otherwise
  end.

(** The task that a stage names, called on the value by [apply_task]. *)
Definition named_stage (apply_task : Value -> string -> Eval Value) (expr : Expression)
    (name : string) (input : Value) : Eval Value :=
  if is_fetch name then fetch_error name input
  else
    task ← env_get name;
    match task with
    | Some (VTask _ _ _ _ _ _ _ as task) => apply_task task name
    | _ => evaluate expr
    end.

Definition property_stage (apply_task : Value -> string -> Eval Value) (object : Expression)
    (property : string) : Eval Value := fun s =>
  match namespace_stage_task object property s with
  | Some task => apply_task task property s
  | None => evaluate (EPropertyAccess object property) s
  end.

(** ** Broadcasts: a branch receives the whole value *)

Definition apply_broadcast_value (input : Value) (expr : Expression) : Eval Value :=
  let apply_task task name := call_task_value task [input] name in
  match expr with
  | ETaskCall name | EIdentifier name => named_stage apply_task expr name input
  | EFunctionCall name arguments => with_injected input arguments (call_function name)
  | EMethodCall object method arguments => method_stage object method arguments input
  | EPropertyAccess object property => property_stage apply_task object property
  | _ => evaluate expr
  end.

Definition is_pure_task (task : option Value) : bool :=
  match task with Some (VTask _ _ body _ _ _ _) => task_body_is_pure body | _ => false end.

Definition broadcast_branch_is_pure (s : Interp) (target : Expression) : bool :=
  match target with
  | EIdentifier name | ETaskCall name =>
      if is_fetch name then false else is_pure_task (get name (i_env s))
  | EPropertyAccess object property => is_pure_task (namespace_stage_task object property s)
  | _ => false
  end.

Definition broadcast_branches_are_pure (s : Interp) (targets : list Expression) : bool :=
  forallb (broadcast_branch_is_pure s) targets.

(** A branch runs in a clone of the state, which it keeps to itself. *)
Definition run_branch (s : Interp) (input : Value) (target : Expression) : Tree (Res Value) :=
  apply_broadcast_value input target (clone s).

Definition branch_result (r : Res Value) : BranchResult :=
  match r with
  | RDone v _ => Done v
  | RFail e _ => Fails e
  | RPanic => Panics
  | RNoFuel => NoFuel
  end.

(** The fast path: the branches in turn, up to the first that fails. *)
Definition run_branches_in_turn (input : Value) (targets : list Expression) : Eval Value :=
  results ← mapE (fun target s =>
    tree_bind (run_branch s input target) (fun r =>
      match r with
      | RDone v _ => TRet (RDone v s)
      | RFail e _ => TRet (RFail e s)
      | RPanic => TRet RPanic
      | RNoFuel => TRet RNoFuel
      end)) targets;
  mret (VList results).

(** What a branch gives its broadcast: a panic was caught at the join. *)
Definition join_branch (result : BranchResult) : Eval Value :=
  match result with
  | Done v => mret v
  | Fails e => raise e
  | Panics => type_error "broadcast branch panicked during parallel execution"
  | NoFuel => no_fuel
  end.

(** The parallel path: every branch runs to its end, and the first failure in
    the order of the targets is the failure of the broadcast. *)
Definition run_branches_in_parallel (input : Value) (targets : list Expression) : Eval Value :=
  fun s =>
  TPar (map (fun target => tree_bind (run_branch s input target) (fun r => TRet (branch_result r)))
          targets)
    (fun outcomes => (results ← mapE join_branch outcomes; mret (VList results)) s).

Definition evaluate_broadcast (input : Expression) (targets : list Expression) : Eval Value :=
  inside ← gets i_inside_transaction;
  if (inside : bool) then type_error "*>> (broadcast) is not allowed inside a transaction block"
  else
    val ← evaluate input;
    s ← get_state;
    if broadcast_branches_are_pure s targets then run_branches_in_turn val targets
    else run_branches_in_parallel val targets.

(** ** Pipelines: a task is called on every element of a list *)

Definition apply_to_each (input : Value) (task : Value) (name : string) : Eval Value :=
  match input with
  | VList items =>
      results ← mapE (fun item => call_task_value task [item] name) items;
      mret (VList results)
  | _ => call_task_value task [input] name
  end.

Definition apply_pipeline_value (input : Value) (expr : Expression) : Eval Value :=
  match expr with
  | ETaskCall name | EIdentifier name => named_stage (apply_to_each input) expr name input
  | EFunctionCall name arguments => with_injected input arguments (call_function name)
  | EQueuePush queue_name schema payload =>
      eval_queue_push cfg evaluate queue_name schema payload (Some input)
  | ETopicPublish topic schema payload =>
      eval_topic_publish cfg evaluate topic schema payload (Some input)
  | EMethodCall (EIdentifier n as object) method arguments =>
      if String.eqb n "cache" && String.eqb method "set" then
        pipeline_cache_set cfg evaluate input arguments
      else if String.eqb n "http_client" then
        dispatch_http_client_with_pipeline cfg evaluate method arguments (Some input)
      else method_stage object method arguments input
  | EMethodCall object method arguments => method_stage object method arguments input
  | EPropertyAccess object property => property_stage (apply_to_each input) object property
  | _ => evaluate expr
  end.

(** * Rescue *)

Definition build_error_map (err : MarretaError) : Value :=
  VMap [("message", VString (display_message err)); ("op", VString (operation_name err));
        ("code", VString (semantic_code err))].

Definition execute_rescue_handler (handler : RescueHandler) : Eval Value :=
  match handler with
  | RHInline expr => evaluate expr
  | RHBlock stmts => execute stmts
  end.

(** The frames of the failed expression are dropped, and the handler runs in a
    scope with [error]. *)
Definition with_error_scope (depth_before : nat) (e : MarretaError) (handler : Eval Value)
  : Eval Value :=
  _ ← truncate_frames depth_before;
  _ ← env_push_scope;
  _ ← env_set "error" (build_error_map e);
  result ← attempt handler;
  _ ← env_pop_scope;
  of_res result.

(** [fail] and [reply] are not caught. *)
Definition is_http_response (e : MarretaError) : bool :=
  match e with HttpResponse _ _ _ _ _ => true | _ => false end.

End Calls.
