(* ===== verification/Evaluator.v ===== *)
(** The evaluator (src/src/interpreter.rs, with the stages of
    src/src/interpreter/pipeline.rs): statements, expressions and pipelines.

    Evaluation recurses through tasks and through the expressions in strings,
    so it is not structural.  Every definition is over [evaluate] and
    [execute_statement], and [interp] ties the knot with fuel: one unit for
    every expression or statement inside another.  More fuel never changes a
    result (EvaluatorFuel.v). *)
From stdpp Require Import base list strings gmap.
From Stdlib Require Import ZArith Lia.
From S2P Require Import Prelude RustStr F64 Errors Token Ast IndexMap Foreign QueryTypes Value Schemas Validator Serializer Environment Operators Crates ValueMethods DocBson TraceContext FeatureFlags ProjectRuntime Interaction Interp Namespaces Infra QueryPipeline Calls.

(** The position a statement sets; an export has that of the declarations it
    can export. *)
Definition statement_position (stmt : Statement) : option (nat * nat) :=
  match stmt with
  | SAssignment _ _ l c | SConditionalAssignment _ _ _ l c | SRequire _ _ _ l c
  | SReject _ _ _ l c | SWhile _ _ l c | STaskDef _ _ _ l c | SExpressionStatement _ l c
  | SRoute _ _ _ _ _ _ l c | SSchema _ _ _ l c | SAuthProvider _ l c
  | SReply _ _ _ _ _ l c | SFail _ _ l c | SRaise _ _ l c | STransaction _ l c
  | SOnQueue _ _ _ _ l c | SOnTopic _ _ _ _ l c | SNack _ _ l c | SScenario _ _ l c =>
      Some (l, c)
  | SExport inner =>
      match inner with
      | SAssignment _ _ l c | STaskDef _ _ _ l c | SSchema _ _ _ l c
      | SExpressionStatement _ l c => Some (l, c)
      | _ => None
      end
  end.

(** The namespaces that an identifier names. *)
Definition namespace_sentinel `{E : Ext} (name : string) : option Value :=
  if String.eqb name "db" then Some VDbNamespace
  else if String.eqb name "doc" then Some VDocNamespace
  else if String.eqb name "cache" then Some VCacheNamespace
  else if String.eqb name "fs" then Some VFsNamespace
  else if String.eqb name "json" then Some VJsonNamespace
  else if String.eqb name "base64" then Some VBase64Namespace
  else if String.eqb name "uuid" then Some VUuidNamespace
  else if String.eqb name "feature" then Some VFeatureNamespace
  else if String.eqb name "log" then Some VLogNamespace
  else if String.eqb name "time" then Some VTimeNamespace
  else if String.eqb name "math" then Some VMathNamespace
  else if String.eqb name "http_client" then Some VHttpClientNamespace
  else None.

(** The bound on the iterations of a [while]. *)
Definition while_limit : nat := Z.to_nat 10000.

Section Evaluator.
Context `{E : Ext} `{C : !Crates E} `{B : !BsonCrate E} `{HO : HashOrder}.
Variable cfg : Config.

Section Open.
Variable evaluate : Expression -> Eval Value.
Variable execute_statement : Statement -> Eval Value.

Notation type_error := Interp.type_error.
Notation evaluate_args := (Namespaces.evaluate_args evaluate).
Notation execute := (Calls.execute execute_statement).
Notation run_body := (Calls.run_body evaluate execute_statement).
Notation call_task_value := (Calls.call_task_value cfg evaluate execute_statement).

(** * Statements *)

Definition null (_ : unit) : Eval Value := mret VNull.

Fixpoint while_loop (remaining : nat) (condition : Expression) (body : list Statement) : Eval Value :=
  v ← evaluate condition;
  if is_truthy v then
    match remaining with
    | 0 => runtime_error "while loop exceeded the maximum of 10000 iterations"
    | S remaining => _ ← execute body; while_loop remaining condition body
    end
  else mret VNull.

(** The condition of [raise] and [nack]; none is true. *)
Definition condition_holds (condition : option Expression) : Eval bool :=
  match condition with
  | Some cond_expr => v ← evaluate cond_expr; mret (is_truthy v)
  | None => mret true
  end.

(** The body of a [transaction], between the [begin] and the [commit] or
    [rollback] of the connection it holds. *)
Definition execute_transaction (body : list Statement) : Eval Value :=
  inside ← gets i_inside_transaction;
  if (inside : bool) then type_error "nested transaction blocks are not allowed"
  else
    _ ← require_db_engine cfg;
    begun ← request RBegin;
    match begun : result MarretaError nat with
    | Err e => type_error ("transaction BEGIN failed: " +:+ Display e)
    | Ok tx =>
        _ ← restore_tx tx;
        _ ← modify (with_inside_transaction true);
        ran ← attempt (execute body);
        _ ← modify (with_inside_transaction false);
        tx ← take_tx;
        match ran with
        | Err e => _ ← request (RRollback tx); raise e
        | Ok _ =>
            committed ← request (RCommit tx);
            match committed : result MarretaError unit with
            | Ok _ => mret VNull
            | Err e => type_error ("transaction COMMIT failed: " +:+ Display e)
            end
        end
    end.

Definition reply_mime (content_type : ReplyContentType) : string :=
  match content_type with
  | RJson => "application/json"
  | RHtml => "text/html; charset=utf-8"
  | RText => "text/plain; charset=utf-8"
  end.

Definition reply_body (content_type : ReplyContentType) (val : Value) : string :=
  match content_type with
  | RJson => value_to_json_string val
  | RHtml | RText => show_value val
  end.

Definition execute_reply (status_code : Expression) (content_type : ReplyContentType)
    (body : Expression) (response_schema : option string) (extra_headers : option Expression)
  : Eval Value :=
  status_val ← evaluate status_code;
  status_int ← match status_val with
               | VInteger n => mret n
               | other => type_error ("reply status must be Integer, got " +:+ type_name other)
               end;
  val ← evaluate body;
  module ← gets i_module;
  let val := match response_schema ≫= resolve_schema cfg module with
             | Some schema_def => serialize_response val schema_def
             | None => val
             end in
  hdrs ← match extra_headers with
         | None => mret []
         | Some hdr_expr =>
             hdr_val ← evaluate hdr_expr;
             mret (match hdr_val with
                   | VMap m => map (fun kv => (fst kv, show_value (snd kv))) m
                   | _ => []
                   end)
         end;
  raise (HttpResponse (to_u16 status_int) (reply_body content_type val) (reply_mime content_type)
           hdrs false).

Definition statement_body (stmt : Statement) : Eval Value :=
  match stmt with
  | SAssignment target value _ _ => val ← evaluate value; u ← env_update target val; null u
  | SConditionalAssignment target value condition _ _ =>
      cond ← evaluate condition;
      if is_truthy cond then val ← evaluate value; u ← env_update target val; null u
      else mret VNull
  | SRequire condition error_code error_message _ _ =>
      val ← evaluate condition;
      if is_truthy val then mret VNull else raise (HttpError error_code error_message)
  | SReject condition error_code error_message _ _ =>
      val ← evaluate condition;
      if is_truthy val then raise (HttpError error_code error_message) else mret VNull
  | SWhile condition body _ _ => while_loop while_limit condition body
  | STaskDef name params body line column =>
      module ← gets i_module;
      u ← env_set name (VTask name params body module module line column); null u
  | SExpressionStatement expression _ _ => evaluate expression
  | SRoute _ _ _ _ _ _ _ _ | SSchema _ _ _ _ _ | SAuthProvider _ _ _ | SScenario _ _ _ _
  | SOnQueue _ _ _ _ _ _ | SOnTopic _ _ _ _ _ _ => mret VNull
  | SExport inner => execute_statement inner
  | STransaction body _ _ => execute_transaction body
  | SReply status_code content_type body response_schema extra_headers _ _ =>
      execute_reply status_code content_type body response_schema extra_headers
  | SFail status_code message _ _ =>
      msg ← evaluate message; raise (fail_response status_code msg)
  | SRaise message condition _ _ =>
      holds ← condition_holds condition;
      if (holds : bool) then msg ← evaluate message; raise (RaiseError (show_value msg))
      else mret VNull
  | SNack requeue condition _ _ =>
      holds ← condition_holds condition;
      if (holds : bool) then raise (NackSignal requeue) else mret VNull
  end.

Definition update_position (stmt : Statement) : Eval unit :=
  match statement_position stmt with
  | Some (line, column) => modify (with_position line column)
  | None => mret tt
  end.

Definition execute_statement_with (stmt : Statement) : Eval Value :=
  _ ← update_position stmt; statement_body stmt.

(** * Expressions *)

Definition evaluate_fields (fields : list (string * Expression)) : Eval (list (string * Value)) :=
  foldE (fun m kv => v ← evaluate (snd kv); mret (IM.insert (fst kv) v m)) [] fields.

Definition evaluate_schema_constructor (schema_name : string) (fields : list (string * Expression))
  : Eval Value :=
  module ← gets i_module;
  let '(schemas, schema) := constructor_schema_registry cfg module schema_name in
  match schema with
  | None => type_error ("unknown schema '" +:+ schema_name +:+ "'")
  | Some schema =>
      m ← evaluate_fields fields;
      match reject_undeclared_schema_fields schemas (VMap m) schema EmptyString with
      | Err message => type_error ("schema constructor " +:+ schema_name +:+ " " +:+ message)
      | Ok _ =>
          match coerce_payload schemas (VMap m) schema with
          | Done v => mret v
          | Fails err =>
              type_error ("schema constructor " +:+ schema_name +:+ ": "
                          +:+ validation_error_detail err)
          | Panics => panic
          | NoFuel => no_fuel
          end
      end
  end.

Definition evaluate_identifier (name : string) : Eval Value :=
  match namespace_sentinel name with
  | Some v => mret v
  | None =>
      v ← env_get name;
      match v with Some v => mret v | None => raise_at (UndefinedVariable name) end
  end.

(** A computation that needs the position and how the engine was compiled. *)
Definition computed (f : bool -> nat -> nat -> outcome MarretaError Value) : Eval Value :=
  s ← get_state; of_outcome (f (c_overflow_checks cfg) (i_line s) (i_column s)).

Definition evaluate_binary (l : Expression) (operator : BinaryOperator) (r : Expression) : Eval Value :=
  match operator with
  | OpAnd => lv ← evaluate l; if is_truthy lv then evaluate r else mret lv
  | OpOr => lv ← evaluate l; if is_truthy lv then mret lv else evaluate r
  | _ =>
      lv ← evaluate l;
      rv ← evaluate r;
      computed (fun checks line column => apply_binary_op checks line column operator lv rv)
  end.

(** The place of an index in a list; a negative one counts from the end. *)
Definition list_index (len : nat) (idx : Z) : option nat :=
  if (idx <? 0)%Z then
    let adjusted := (Z.of_nat len + idx)%Z in
    if (adjusted <? 0)%Z then None else Some (Z.to_nat adjusted)
  else Some (Z.to_nat idx).

Definition evaluate_subscript (object key : Expression) : Eval Value :=
  obj ← evaluate object;
  k ← evaluate key;
  match obj, k with
  | VMap m, VString s => mret (default VNull (IM.get s m))
  | VList l, VInteger idx => mret (default VNull (i ← list_index (length l) idx; l !! i))
  | _, _ =>
      type_error ("subscript requires Map[String] or List[Integer], got " +:+ type_name obj
                  +:+ "[" +:+ type_name k +:+ "]")
  end.

Definition evaluate_property (object : Expression) (property : string) : Eval Value :=
  obj ← evaluate object;
  match obj with
  | VDbNamespace => mret (VDbTable property)
  | VDocNamespace => mret (VDocCollection property)
  | _ => access_property cfg obj property
  end.

(** A method of the value of [object]. *)
Definition value_method (obj : Value) (method : string) (arguments : list Argument) : Eval Value :=
  let call_method :=
    args ← evaluate_args arguments;
    computed (fun checks line column =>
      call_method_at (c_env_var cfg) checks line column obj method args) in
  match obj with
  | VDbNamespace =>
      if String.eqb method "native_query" then dispatch_native_query cfg evaluate arguments
      else call_method
  | VDocNamespace =>
      if String.eqb method "pipeline" then
        args ← evaluate_args arguments; dispatch_doc_pipeline cfg args
      else call_method
  | VDbTable table => dispatch_db_direct cfg evaluate table method arguments
  | VCacheNamespace => dispatch_cache cfg evaluate method arguments
  | VFsNamespace => dispatch_fs evaluate method arguments
  | VJsonNamespace => dispatch_json evaluate method arguments
  | VBase64Namespace => dispatch_base64 evaluate method arguments
  | VUuidNamespace => dispatch_uuid evaluate method arguments
  | VFeatureNamespace => dispatch_feature cfg evaluate method arguments
  | VLogNamespace => dispatch_log cfg evaluate method arguments
  | VTimeNamespace => dispatch_time cfg evaluate method arguments
  | VMathNamespace => dispatch_math cfg evaluate method arguments
  | VHttpClientNamespace => dispatch_http_client cfg evaluate method arguments
  | VDocCollection collection => dispatch_doc_direct cfg evaluate collection method arguments
  | _ => call_method
  end.

(** What [file.task(..)] names, when [file] is a file namespace and not bound:
    a task, or nothing the file exports. *)
Definition namespace_call (object : Expression) (method : string) (s : Interp)
  : option (result string Value) :=
  match object with
  | EIdentifier ns =>
      if has ns (i_env s) then None
      else
        rt ← c_project_runtime cfg;
        match module_task rt ns method with
        | Some task => Some (Ok task)
        | None => if is_module_namespace rt ns then Some (Err (ns +:+ "." +:+ method)) else None
        end
  | _ => None
  end.

Definition evaluate_method_call (object : Expression) (method : string) (arguments : list Argument)
  : Eval Value :=
  s ← get_state;
  match namespace_call object method s with
  | Some (Ok task) => args ← evaluate_args arguments; call_task_value task args method
  | Some (Err name) => raise_at (UndefinedTask name)
  | None => obj ← evaluate object; value_method obj method arguments
  end.

Fixpoint evaluate_match (subject : Value) (arms : list MatchArm) : Eval Value :=
  match arms with
  | [] => mret VNull
  | mkMatchArm PFallback value :: _ => evaluate value
  | mkMatchArm (PLiteral expr) value :: arms =>
      pattern_val ← evaluate expr;
      if value_eqb subject pattern_val then evaluate value else evaluate_match subject arms
  end.

(** * Pipelines *)

(** A table or a collection becomes a query at the first stage. *)
Definition promote (input : Value) : Value :=
  match input with
  | VDbTable table =>
      VQueryBuilder (set_known_columns (db_known_columns cfg table) (QueryState_new table))
  | VDocCollection coll => VDocQueryBuilder (DocQueryState_new coll)
  | _ => input
  end.

(** The body of [map] for one element: a value that is kept, or none. *)
Fixpoint map_body (body : list MapStatement) : Eval (option Value) :=
  match body with
  | [] => mret None
  | MStatement stmt :: body => _ ← execute_statement stmt; map_body body
  | MKeep value condition :: body =>
      holds ← condition_holds condition;
      if (holds : bool) then v ← evaluate value; mret (Some v) else map_body body
  | MSkip condition :: body =>
      v ← evaluate condition;
      if is_truthy v then mret None else map_body body
  end.

Definition map_item (variable : string) (body : list MapStatement) (item : Value)
  : Eval (option Value) :=
  _ ← env_push_scope;
  _ ← env_set variable item;
  kept ← map_body body;
  _ ← env_pop_scope;
  mret kept.

Definition reduce_item (accumulator item : string) (body : TaskBody) (acc current_item : Value)
  : Eval Value :=
  _ ← env_push_scope;
  _ ← env_set accumulator acc;
  _ ← env_set item current_item;
  next ← run_body body;
  _ ← env_pop_scope;
  mret next.

(** A stage on a value that is not a query. *)
Definition value_stage (input : Value) (stage : PipelineStage) : Eval Value :=
  match stage with
  | PSExpression expr => apply_pipeline_value cfg evaluate execute_statement input expr
  | PSMap variable body =>
      match input with
      | VList items =>
          kept ← mapE (map_item variable body) items;
          mret (VList (omap (fun v => v) kept))
      | _ => type_error ("pipeline map requires a List, got " +:+ type_name input)
      end
  | PSReduce initial accumulator item body =>
      match input with
      | VList items =>
          acc ← evaluate initial;
          foldE (reduce_item accumulator item body) acc items
      | _ => type_error ("pipeline reduce requires a List, got " +:+ type_name input)
      end
  | PSRescue _ => mret input
  end.

Definition not_a_list (what hint : string) : Eval Value :=
  type_error ("cannot use map/keep on a " +:+ what +:+ " — did you forget >> fetch" +:+ hint).

Definition evaluate_pipeline_stage (input : Value) (stage : PipelineStage) : Eval Value :=
  match promote input, stage with
  | VRelationHandle relation, PSExpression expr =>
      apply_relation_pipeline_stage cfg evaluate relation expr
  | VRelationHandle _, _ => not_a_list "relation handle" "?"
  | VQueryBuilder q, PSExpression expr => apply_query_pipeline_stage cfg evaluate q expr
  | VQueryBuilder _, _ => not_a_list "QueryBuilder" " or >> fetch_one?"
  | VDocQueryBuilder q, PSExpression expr => apply_doc_query_pipeline_stage cfg evaluate q expr
  | VDocQueryBuilder _, _ => not_a_list "DocQueryBuilder" "?"
  | input, stage => value_stage input stage
  end.

Definition is_rescue_stage (s : PipelineStage) : bool :=
  match s with PSRescue _ => true | _ => false end.

(** The stages with a rescue among them: an error waits for the next rescue. *)
Fixpoint rescued_stages (depth_before : nat) (current : result MarretaError Value)
    (stages : list PipelineStage) : Eval Value :=
  match stages with
  | [] => of_res current
  | PSRescue handler :: stages =>
      match current with
      | Ok val => rescued_stages depth_before (Ok val) stages
      | Err e =>
          if is_http_response e then raise e
          else
            next ← attempt (with_error_scope depth_before e
                              (execute_rescue_handler evaluate execute_statement handler));
            rescued_stages depth_before next stages
      end
  | stage :: stages =>
      match current with
      | Ok val => next ← attempt (evaluate_pipeline_stage val stage);
                  rescued_stages depth_before next stages
      | Err e => rescued_stages depth_before (Err e) stages
      end
  end.

Definition evaluate_pipeline (input : Expression) (stages : list PipelineStage) : Eval Value :=
  if existsb is_rescue_stage stages then
    depth_before ← gets (fun s => length (i_trace_frames s));
    first ← attempt (evaluate input);
    rescued_stages depth_before first stages
  else
    val ← evaluate input;
    foldE evaluate_pipeline_stage val stages.

Definition evaluate_rescue (expr handler : Expression) : Eval Value :=
  depth_before ← gets (fun s => length (i_trace_frames s));
  first ← attempt (evaluate expr);
  match first with
  | Ok val => mret val
  | Err e =>
      if is_http_response e then raise e
      else with_error_scope depth_before e (evaluate handler)
  end.

Definition evaluate_with (expr : Expression) : Eval Value :=
  match expr with
  | EInteger n => mret (VInteger n)
  | EFloat x => mret (VFloat x)
  | EStringLiteral s => interpolate_string evaluate s
  | EBoolean b => mret (VBoolean b)
  | ENull => mret VNull
  | EList items => vals ← mapE evaluate items; mret (VList vals)
  | EMapLiteral pairs => m ← evaluate_fields pairs; mret (VMap m)
  | ESchemaConstructor schema_name fields => evaluate_schema_constructor schema_name fields
  | EIdentifier name => evaluate_identifier name
  | EBinaryOp l operator r => evaluate_binary l operator r
  | EUnaryOp operator operand =>
      val ← evaluate operand;
      computed (fun checks line column => apply_unary_op checks line column operator val)
  | ESubscript object key => evaluate_subscript object key
  | EPropertyAccess object property => evaluate_property object property
  | EMethodCall object method arguments => evaluate_method_call object method arguments
  | EHttpClientResponseSchema call schema_name =>
      evaluate_http_client_response_schema cfg evaluate call schema_name
  | EFunctionCall name arguments =>
      args ← evaluate_args arguments; call_function cfg evaluate execute_statement name args
  | ETaskCall name =>
      v ← env_get name;
      match v with Some v => mret v | None => raise_at (UndefinedTask name) end
  | EMatch subject arms => subj ← evaluate subject; evaluate_match subj arms
  | EIf condition then_branch else_branch =>
      cond ← evaluate condition;
      if is_truthy cond then evaluate_branch_body evaluate execute_statement then_branch
      else
        match else_branch with
        | Some else_branch => evaluate_branch_body evaluate execute_statement else_branch
        | None => mret VNull
        end
  | EPipeline input stages => evaluate_pipeline input stages
  | ERescue expr handler => evaluate_rescue expr handler
  | EQueuePush queue_name schema payload =>
      eval_queue_push cfg evaluate queue_name schema payload None
  | ETopicPublish topic schema payload =>
      eval_topic_publish cfg evaluate topic schema payload None
  | EBroadcast input targets => evaluate_broadcast cfg evaluate execute_statement input targets
  end.
End Open.

(** * The knot *)

Record Evaluators : Type := mkEvaluators {
  evaluator : Expression -> Eval Value;
  executor : Statement -> Eval Value;
}.

Fixpoint interp (fuel : nat) : Evaluators :=
  match fuel with
  | 0 => mkEvaluators (fun _ => no_fuel) (fun _ => no_fuel)
  | S fuel =>
      let r := interp fuel in
      mkEvaluators (evaluate_with (evaluator r) (executor r))
                   (execute_statement_with (evaluator r) (executor r))
  end.

Definition evaluate (fuel : nat) : Expression -> Eval Value := evaluator (interp fuel).
Definition execute_statement (fuel : nat) : Statement -> Eval Value := executor (interp fuel).

(** [Interpreter::execute]. *)
Definition execute_program (fuel : nat) (program : Program) : Eval Value :=
  Calls.execute (execute_statement fuel) program.

End Evaluator.
