(* ===== verification/Loader.v ===== *)
(** Loading a project of several files (src/src/file_loader.rs) and the version
    it asks for (src/src/version.rs).

    The files below the root are a tree of directories, without symbolic links,
    each with its entries in the order [read_dir] gives them. *)
From stdpp Require Import base list strings gmap sets.
From Stdlib Require Import ZArith Lia.
From S2P Require Import Prelude RustStr F64 Errors Token Lexer Ast IndexMap Foreign QueryTypes Value Schemas SchemaCycle Validator Environment Operators Crates ValueMethods DocBson Auth RouteLoader IndexInference FeatureFlags ParserState Parser ParserStatements ProjectRuntime Interaction Interp Namespaces Infra QueryPipeline Calls Evaluator.

(** * Versions *)

Definition MARRETA_VERSION : string := "0.2.0".

Definition parse_version (value : string) : option (Z * Z * Z) :=
  match split_on "." value with
  | [major; minor; patch] =>
      major ← parse_u64 major; minor ← parse_u64 minor; patch ← parse_u64 patch;
      Some (major, minor, patch)
  | _ => None
  end.

(** [>=MAJOR.MINOR.PATCH], with at most one space after the operator. *)
Definition parse_requires_marreta (value : string) : option (Z * Z * Z) :=
  after_op ← strip_prefix ">=" (trim value);
  let version := default after_op (strip_prefix " " after_op) in
  if existsb is_whitespace (chars version) then None else parse_version version.

(** The order of tuples. *)
Definition version_ltb (a b : Z * Z * Z) : bool :=
  let '(a1, a2, a3) := a in
  let '(b1, b2, b3) := b in
  ((a1 <? b1) || ((a1 =? b1) && ((a2 <? b2) || ((a2 =? b2) && (a3 <? b3)))))%Z.

Definition check_runtime_compatibility (requirement : string) : outcome MarretaError unit :=
  match parse_requires_marreta requirement with
  | None =>
      Fails (IoError ("invalid 'requires_marreta' value '" +:+ requirement
                      +:+ "': expected a minimum like " +:+ dquote +:+ ">=0.2.0" +:+ dquote))
  | Some minimum =>
      match parse_version MARRETA_VERSION with
      | None => Panics
      | Some actual =>
          if version_ltb actual minimum then
            Fails (IncompatibleRuntime (trim requirement) MARRETA_VERSION)
          else Done tt
      end
  end.

(** * The files of a project *)

(** What is at a path: the text of a file, or the reason it cannot be read; the
    entries of a directory, if it can be listed. *)
Inductive Node : Type :=
| File (text : result string string)
| Directory (listing : option (list (string * Node))).

(** The components of a path below the root. *)
Definition RelPath : Type := list string.

(** [Path::file_stem] and [Path::extension] of a file name: a dot at its start
    does not begin an extension. *)
Definition split_extension (name : string) : string * option string :=
  match rev (split_on "." name) with
  | ext :: (_ :: _) as stem =>
      let stem := join "." (rev stem) in
      if String.eqb stem EmptyString then (name, None) else (stem, Some ext)
  | _ => (name, None)
  end.

Definition is_marreta_file (name : string) : bool :=
  bool_decide (snd (split_extension name) = Some "marreta").

(** The files below a directory, with what reading them gives. *)
Fixpoint collect_recursive (entrypoint dir : RelPath) (node : Node)
  : list (RelPath * result string string) :=
  match node with
  | File _ => []
  | Directory None => []
  | Directory (Some listing) =>
      flat_map (fun entry =>
        let path := dir ++ [fst entry] in
        match snd entry with
        | Directory _ => collect_recursive entrypoint path (snd entry)
        | File text =>
            if is_marreta_file (fst entry) && negb (bool_decide (path = entrypoint))
            then [(path, text)] else []
        end) listing
  end.

(** The order of paths: by component, then by byte. *)
Fixpoint path_cmp (a b : RelPath) : comparison :=
  match a, b with
  | [], [] => Eq
  | [], _ :: _ => Lt
  | _ :: _, [] => Gt
  | x :: a, y :: b => match String.compare x y with Eq => path_cmp a b | c => c end
  end.

Definition file_cmp (a b : RelPath * result string string) : comparison :=
  path_cmp (fst a) (fst b).

(** The path of an entry point is its parent, which is empty for a bare file
    name, and its name. *)
Record Project : Type := mkProject {
  p_parent : string;
  p_name : string;
  p_text : result string string;
  p_root : Node;
}.

Definition root_dir (p : Project) : string :=
  if String.eqb (p_parent p) EmptyString then "." else p_parent p.

Definition collect_marreta_files (p : Project) : list (RelPath * result string string) :=
  sort_by file_cmp (collect_recursive [p_name p] [] (p_root p)).

Definition path_under (dir : string) (path : RelPath) : string :=
  if ends_with "/" dir then dir +:+ join "/" path else dir +:+ "/" +:+ join "/" path.

(** [path.display()] of a discovered file and of the entry point. *)
Definition display_path (p : Project) (path : RelPath) : string := path_under (root_dir p) path.
Definition display_entrypoint (p : Project) : string :=
  if String.eqb (p_parent p) EmptyString then p_name p else path_under (p_parent p) [p_name p].

Definition last_name (path : RelPath) : string := default EmptyString (last path).

Definition file_stem (path : RelPath) : string := fst (split_extension (last_name path)).

Definition module_id (path : RelPath) : string :=
  replace_char "\" "/" (join "/" (removelast path ++ [file_stem path])).

Definition read_source (display : string) (text : result string string) : outcome MarretaError string :=
  match text with
  | Ok source => Done source
  | Err e => Fails (IoError ("cannot read '" +:+ display +:+ "': " +:+ e))
  end.

Definition parse_source (source : string) : outcome MarretaError (list Statement) :=
  tokens ← tokenize source; parse tokens.

(** * The entry point *)

Record Metadata : Type := mkMetadata {
  project_name : bool;
  project_version : bool;
  requires_marreta : option string;
  requires_marreta_non_string : bool;
}.

(** One statement of the scan: the last assignment of each name counts. *)
Definition scan_metadata (m : Metadata) (stmt : Statement) : Metadata :=
  match stmt with
  | SAssignment target value _ _ =>
      match value with
      | EStringLiteral s =>
          if String.eqb target "project_name" then
            mkMetadata true (project_version m) (requires_marreta m) (requires_marreta_non_string m)
          else if String.eqb target "project_version" then
            mkMetadata (project_name m) true (requires_marreta m) (requires_marreta_non_string m)
          else if String.eqb target "requires_marreta" then
            mkMetadata (project_name m) (project_version m) (Some s) (requires_marreta_non_string m)
          else m
      | _ =>
          if String.eqb target "requires_marreta" then
            mkMetadata (project_name m) (project_version m) (requires_marreta m) true
          else m
      end
  | _ => m
  end.

Definition invalid_entrypoint {A} (display what : string) : outcome MarretaError A :=
  Fails (IoError ("invalid project entrypoint '" +:+ display +:+ "': " +:+ what)).

Definition validate_entrypoint_metadata (display : string) (program : list Statement)
  : outcome MarretaError unit :=
  let m := fold_left scan_metadata program (mkMetadata false false None false) in
  if negb (project_name m) then
    invalid_entrypoint display "missing required string assignment 'project_name'"
  else if negb (project_version m) then
    invalid_entrypoint display "missing required string assignment 'project_version'"
  else if requires_marreta_non_string m then
    invalid_entrypoint display
      ("'requires_marreta' must be a string like " +:+ dquote +:+ ">=0.2.0" +:+ dquote)
  else
    match requires_marreta m with
    | Some requirement => check_runtime_compatibility requirement
    | None => Done tt
    end.

(** * One module *)

Record ModuleDefinition : Type := mkModuleDefinition {
  md_id : string;
  md_is_entrypoint : bool;
  md_startup_stmts : list Statement;
  md_public_symbols : list string;
  md_routes : list RouteDefinition;
  md_consumers : list ConsumerDefinition;
  md_auth_providers : gmap string (AuthProvider Expression);
  md_private_schemas : gmap string SchemaDefinition;
  md_public_schemas : gmap string SchemaDefinition;
}.

Definition declared_symbol_name (stmt : Statement) : option string :=
  match stmt with
  | STaskDef name _ _ _ _ | SSchema name _ _ _ _ => Some name
  | SAssignment target _ _ _ | SConditionalAssignment target _ _ _ _ => Some target
  | _ => None
  end.

Definition exported_symbol_name (stmt : Statement) : option string := declared_symbol_name stmt.

(** [dedupe]: the first occurrences; [seen] are the items already kept. *)
Fixpoint dedupe_from (seen : list string) (items : list string) : list string :=
  match items with
  | [] => []
  | item :: items =>
      if existsb (String.eqb item) seen then dedupe_from seen items
      else item :: dedupe_from (item :: seen) items
  end.
Definition dedupe : list string -> list string := dedupe_from [].

(** The variables of the loop of [build_module_definition]. *)
Record ModuleState : Type := mkModuleState {
  ms_module : ModuleDefinition;
  ms_local_exported_tasks : list string;
  ms_exported_names : gmap string string;
}.

Section Module.
Variable module_id source_tag : string.
Variable is_entrypoint : bool.

Definition on_module (f : ModuleDefinition -> ModuleDefinition) (st : ModuleState) : ModuleState :=
  mkModuleState (f (ms_module st)) (ms_local_exported_tasks st) (ms_exported_names st).

Definition push_startup (stmt : Statement) (m : ModuleDefinition) : ModuleDefinition :=
  mkModuleDefinition (md_id m) (md_is_entrypoint m) (md_startup_stmts m ++ [stmt])
    (md_public_symbols m) (md_routes m) (md_consumers m) (md_auth_providers m)
    (md_private_schemas m) (md_public_schemas m).
Definition push_symbol (name : string) (m : ModuleDefinition) : ModuleDefinition :=
  mkModuleDefinition (md_id m) (md_is_entrypoint m) (md_startup_stmts m)
    (md_public_symbols m ++ [name]) (md_routes m) (md_consumers m) (md_auth_providers m)
    (md_private_schemas m) (md_public_schemas m).
Definition push_route (r : RouteDefinition) (m : ModuleDefinition) : ModuleDefinition :=
  mkModuleDefinition (md_id m) (md_is_entrypoint m) (md_startup_stmts m)
    (md_public_symbols m) (md_routes m ++ [r]) (md_consumers m) (md_auth_providers m)
    (md_private_schemas m) (md_public_schemas m).
Definition push_consumer (c : ConsumerDefinition) (m : ModuleDefinition) : ModuleDefinition :=
  mkModuleDefinition (md_id m) (md_is_entrypoint m) (md_startup_stmts m)
    (md_public_symbols m) (md_routes m) (md_consumers m ++ [c]) (md_auth_providers m)
    (md_private_schemas m) (md_public_schemas m).
Definition insert_provider (name : string) (provider : AuthProvider Expression)
    (m : ModuleDefinition) : ModuleDefinition :=
  mkModuleDefinition (md_id m) (md_is_entrypoint m) (md_startup_stmts m)
    (md_public_symbols m) (md_routes m) (md_consumers m)
    (<[name := provider]> (md_auth_providers m)) (md_private_schemas m) (md_public_schemas m).
Definition insert_public_schema (name : string) (def : SchemaDefinition) (m : ModuleDefinition)
  : ModuleDefinition :=
  mkModuleDefinition (md_id m) (md_is_entrypoint m) (md_startup_stmts m)
    (md_public_symbols m) (md_routes m) (md_consumers m) (md_auth_providers m)
    (md_private_schemas m) (<[name := def]> (md_public_schemas m)).
Definition insert_private_schema (name : string) (def : SchemaDefinition) (m : ModuleDefinition)
  : ModuleDefinition :=
  mkModuleDefinition (md_id m) (md_is_entrypoint m) (md_startup_stmts m)
    (md_public_symbols m) (md_routes m) (md_consumers m) (md_auth_providers m)
    (<[name := def]> (md_private_schemas m)) (md_public_schemas m).

Definition duplicate_auth_provider {A} (name : string) : result MarretaError A :=
  Err (RuntimeError ("duplicate auth provider '" +:+ name +:+ "'") 0 0).

(** The symbol of an exported statement: tasks are unique in their file, other
    names in the project. *)
Definition export_symbol (inner : Statement) (st : ModuleState) : result MarretaError ModuleState :=
  match exported_symbol_name inner with
  | None => Ok st
  | Some name =>
      st ← match inner with
           | STaskDef _ _ _ _ _ =>
               if existsb (String.eqb name) (ms_local_exported_tasks st) then
                 Err (RuntimeError ("duplicate exported task '" +:+ name +:+ "' in '" +:+ module_id
                                    +:+ ".marreta'") 0 0)
               else Ok (mkModuleState (ms_module st) (name :: ms_local_exported_tasks st)
                          (ms_exported_names st))
           | _ =>
               match ms_exported_names st !! name with
               | Some prev => Err (ExportConflict name prev module_id)
               | None => Ok (mkModuleState (ms_module st) (ms_local_exported_tasks st)
                               (<[name := module_id]> (ms_exported_names st)))
               end
           end;
      Ok (on_module (push_symbol name) st)
  end.

Definition build_module_statement (st : ModuleState) (stmt : Statement)
  : result MarretaError ModuleState :=
  match stmt with
  | SExport inner =>
      st ← export_symbol inner st;
      let st := match inner with
                | SSchema name db_table fields _ _ =>
                    on_module (insert_public_schema name (mkSchemaDefinition db_table fields)) st
                | _ => st
                end in
      Ok (on_module (push_startup stmt) st)
  | SSchema name db_table fields _ _ =>
      let def := mkSchemaDefinition db_table fields in
      let st := if is_entrypoint
                then on_module (fun m => push_symbol name (insert_public_schema name def m)) st
                else on_module (insert_private_schema name def) st in
      Ok (on_module (push_startup stmt) st)
  | SRoute verb path auth allow take body line column =>
      Ok (on_module (push_route (mkRouteDefinition verb path auth allow take body line column
                                   (Some source_tag) (Some module_id))) st)
  | SAuthProvider provider _ _ =>
      let name := provider_name provider in
      match md_auth_providers (ms_module st) !! name with
      | Some _ => duplicate_auth_provider name
      | None => Ok (on_module (insert_provider name provider) st)
      end
  | SOnQueue queue_name binding schema body line column =>
      Ok (on_module (push_consumer (mkConsumerDefinition QueueConsumer queue_name binding schema body
                                      line column (Some source_tag) (Some module_id))) st)
  | SOnTopic pattern binding schema body line column =>
      Ok (on_module (push_consumer (mkConsumerDefinition TopicConsumer pattern binding schema body
                                      line column (Some source_tag) (Some module_id))) st)
  | other =>
      let st := match declared_symbol_name other with
                | Some name => if is_entrypoint then on_module (push_symbol name) st else st
                | None => st
                end in
      Ok (on_module (push_startup other) st)
  end.

Fixpoint build_module_statements (program : list Statement) (st : ModuleState)
  : result MarretaError ModuleState :=
  match program with
  | [] => Ok st
  | stmt :: program => st ← build_module_statement st stmt; build_module_statements program st
  end.

Definition empty_module : ModuleDefinition :=
  mkModuleDefinition module_id is_entrypoint [] [] [] [] ∅ ∅ ∅.

Definition with_symbols (symbols : list string) (m : ModuleDefinition) : ModuleDefinition :=
  mkModuleDefinition (md_id m) (md_is_entrypoint m) (md_startup_stmts m) symbols (md_routes m)
    (md_consumers m) (md_auth_providers m) (md_private_schemas m) (md_public_schemas m).

Definition build_module_definition (program : list Statement) (exported_names : gmap string string)
  : result MarretaError (ModuleDefinition * gmap string string) :=
  st ← build_module_statements program (mkModuleState empty_module [] exported_names);
  let m := ms_module st in
  Ok (with_symbols (dedupe (md_public_symbols m)) m, ms_exported_names st).

End Module.

(** * The environments of the modules *)

Section Runtime.
Context `{E : Ext} `{C : !Crates E} `{B : !BsonCrate E} `{HO : HashOrder} `{AH : AuthHost}.
Variable overflow_checks : bool.

(** Loading runs the startup statements of the modules: it asks what they ask. *)
Definition Load (A : Type) : Type := Tree (outcome MarretaError A).
#[local] Instance load_ret : MRet Load := fun _ a => TRet (Done a).
#[local] Instance load_bind : MBind Load := fun _ _ k m =>
  tree_bind m (fun o => match o with
                        | Done a => k a
                        | Fails e => TRet (Fails e)
                        | Panics => TRet Panics
                        | NoFuel => TRet NoFuel
                        end).
Definition load_outcome {A} (o : outcome MarretaError A) : Load A := TRet o.

(** [Interpreter::from_environment(..).with_feature_flags(..)]. *)
Definition startup_config (feature_flags : FeatureFlags) : Config :=
  mkConfig (default_max_recursion_depth env_var) None None false false false false None false None
    feature_flags env_var overflow_checks.

Definition with_module (module : option string) (s : Interp) : Interp :=
  mkInterp (i_env s) (i_line s) (i_column s) (i_call_depth s) module (i_inside_transaction s)
    (i_active_tx s) (i_trace_frames s).

Definition run_startup (fuel : nat) (feature_flags : FeatureFlags) (global_env : Environment Value)
    (m : ModuleDefinition) : Load (Environment Value) :=
  tree_bind (execute_program (startup_config feature_flags) fuel (md_startup_stmts m)
               (with_module (Some (md_id m)) (from_environment global_env)))
    (fun r => TRet match r with
                   | RDone _ s => Done (i_env s)
                   | RFail e _ => Fails e
                   | RPanic => Panics
                   | RNoFuel => NoFuel
                   end).

(** The entries of the catalog of kind [Namespace], and [app]. *)
Definition reserved_namespaces : list string :=
  ["app"; "db"; "doc"; "cache"; "queue"; "topic"; "http_client"; "time"; "math"; "uuid"; "feature";
   "json"; "base64"; "fs"; "log"].
Definition is_reserved_namespace (stem : string) : bool :=
  existsb (String.eqb stem) reserved_namespaces.

Definition namespace_from_module_id (module_id : string) : string :=
  default module_id (last (split_on "/" module_id)).

Definition identifier_start (c : N) : bool := is_ascii_alphabetic c || (c =? ch "_")%N.
Definition identifier_char (c : N) : bool := is_ascii_alphanumeric c || (c =? ch "_")%N.
Definition is_namespace_identifier (stem : string) : bool :=
  match chars stem with
  | c :: rest => identifier_start c && forallb identifier_char rest
  | [] => false
  end.

Definition namespace_hint (stem : string) : string :=
  of_chars (map (fun c => if is_ascii_alphanumeric c then c else ch "_") (chars stem)).

Definition validate_namespace_stem (stem module_id : string) : result MarretaError unit :=
  if is_reserved_namespace stem then
    Err (RuntimeError ("file '" +:+ module_id +:+ ".marreta' exports tasks but its name '" +:+ stem
                       +:+ "' is a reserved namespace; rename the file") 0 0)
  else if is_namespace_identifier stem then Ok tt
  else Err (RuntimeError ("file '" +:+ module_id +:+ ".marreta' exports tasks but its name '" +:+ stem
              +:+ "' is not a valid namespace identifier; rename it (e.g. '" +:+ namespace_hint stem
              +:+ "')") 0 0).

(** The variables of the loop of [build_project_runtime]. *)
Record RuntimeState : Type := mkRuntimeState {
  rs_global_env : Environment Value;
  rs_modules : gmap string ModuleRuntime;
  rs_task_namespaces : gmap string (gmap string Value);
  rs_namespace_owner : gmap string string;
}.

(** The exported tasks of a module, and the global environment with its other
    public symbols. *)
Definition partition_symbol (m : ModuleDefinition) (module_env : Environment Value)
    (acc : gmap string Value * Environment Value) (symbol : string)
  : gmap string Value * Environment Value :=
  match get symbol module_env with
  | None => acc
  | Some value =>
      if negb (md_is_entrypoint m) && is_task value
      then (<[symbol := value]> (fst acc), snd acc)
      else (fst acc, update symbol value (snd acc))
  end.

Definition partition_symbols (m : ModuleDefinition) (module_env global_env : Environment Value)
  : gmap string Value * Environment Value :=
  fold_left (partition_symbol m module_env) (md_public_symbols m) (∅, global_env).

(** The namespace of a module that exports tasks. *)
Definition claim_namespace (m : ModuleDefinition) (exported_tasks : gmap string Value)
    (st : RuntimeState) : result MarretaError RuntimeState :=
  if bool_decide (exported_tasks = ∅) then Ok st
  else
    let stem := namespace_from_module_id (md_id m) in
    _ ← validate_namespace_stem stem (md_id m);
    match rs_namespace_owner st !! stem with
    | Some prev =>
        Err (RuntimeError ("namespace '" +:+ stem +:+ "' is exported by two files ('" +:+ prev
               +:+ "' and '" +:+ md_id m +:+ "') — rename one") 0 0)
    | None =>
        Ok (mkRuntimeState (rs_global_env st) (rs_modules st)
              (<[stem := exported_tasks]> (rs_task_namespaces st))
              (<[stem := md_id m]> (rs_namespace_owner st)))
    end.

Definition visible_schemas_of (merged_public_schemas : gmap string SchemaDefinition)
    (m : ModuleDefinition) : gmap string SchemaDefinition :=
  md_public_schemas m ∪ (md_private_schemas m ∪ merged_public_schemas).

Definition add_module (merged_public_schemas : gmap string SchemaDefinition) (m : ModuleDefinition)
    (module_env : Environment Value) (st : RuntimeState) : result MarretaError RuntimeState :=
  let '(exported_tasks, global_env) := partition_symbols m module_env (rs_global_env st) in
  st ← claim_namespace m exported_tasks
         (mkRuntimeState global_env (rs_modules st) (rs_task_namespaces st) (rs_namespace_owner st));
  Ok (mkRuntimeState (rs_global_env st)
        (<[md_id m := mkModuleRuntime (md_id m) module_env (visible_schemas_of merged_public_schemas m)]>
           (rs_modules st))
        (rs_task_namespaces st) (rs_namespace_owner st)).

Fixpoint run_modules (fuel : nat) (feature_flags : FeatureFlags)
    (merged_public_schemas : gmap string SchemaDefinition) (module_defs : list ModuleDefinition)
    (st : RuntimeState) : Load RuntimeState :=
  match module_defs with
  | [] => mret st
  | m :: module_defs =>
      module_env ← run_startup fuel feature_flags (rs_global_env st) m;
      st ← load_outcome (of_result (add_module merged_public_schemas m module_env st));
      run_modules fuel feature_flags merged_public_schemas module_defs st
  end.

(** Global symbols that a module does not define. *)
Definition inject_bindings (global_bindings : list (string * Value)) (m : ModuleRuntime)
  : ModuleRuntime :=
  mkModuleRuntime (mr_id m)
    (fold_left (fun env kv => if has (fst kv) env then env else set (fst kv) (snd kv) env)
       global_bindings (mr_env m))
    (mr_visible_schemas m).

Definition build_project_runtime (fuel : nat) (module_defs : list ModuleDefinition)
    (merged_public_schemas persistent_schemas : gmap string SchemaDefinition)
    (feature_flags : FeatureFlags) : Load ProjectRuntime :=
  st ← run_modules fuel feature_flags merged_public_schemas module_defs
         (mkRuntimeState Environment_new ∅ ∅ ∅);
  let global_bindings := all_variables (rs_global_env st) in
  mret (mkProjectRuntime (rs_global_env st) (inject_bindings global_bindings <$> rs_modules st)
          merged_public_schemas persistent_schemas feature_flags (rs_task_namespaces st)
          (build_db_column_index persistent_schemas)).

End Runtime.

(** * The project *)

Section LoadProject.
Context `{E : Ext} `{C : !Crates E} `{B : !BsonCrate E} `{HO : HashOrder} `{AH : AuthHost}.
Variable overflow_checks : bool.
Variable sha256 : string -> list N.

Record LoadedProject : Type := mkLoadedProject {
  registry : RouteRegistry;
  runtime : ProjectRuntime;
  doc_index_plan : list InferredIndex;
}.

(** A schema bound to an input other than the payload. *)
Definition check_take_schema (schemas : gmap string SchemaDefinition) (binding : TakeBinding)
  : result MarretaError unit :=
  match tb_schema binding with
  | None => Ok tt
  | Some schema_name =>
      let unbindable (take : string) :=
        Err (InvalidSchemaDefinition schema_name
               ("a schema cannot be bound to a `" +:+ take
                +:+ "` take; schema binding is for payload, query, and headers")) in
      let flat (location : string) :=
        match schema ← schemas !! schema_name; first_non_flat_field schema with
        | Some field =>
            Err (InvalidSchemaDefinition schema_name
                   ("schema bound to " +:+ location +:+ " must be flat: field '" +:+ field
                    +:+ "' is a nested object or schema reference; " +:+ location
                    +:+ " parameters cannot carry nested objects"))
        | None => Ok tt
        end in
      match tb_kind binding with
      | TKRaw => unbindable "raw"
      | TKForm => unbindable "form"
      | TKQuery => flat "query"
      | TKHeaders => flat "headers"
      | TKPayload => Ok tt
      end
  end.

Definition validate_take_input_schemas (routes : list RouteDefinition)
    (schemas : gmap string SchemaDefinition) : result MarretaError unit :=
  for_each (fun route => for_each (check_take_schema schemas) (rd_take route)) routes.

Definition check_route_conflict (routes : list RouteDefinition) (route : RouteDefinition)
  : result MarretaError unit :=
  match conflicting_route (rd_verb route) (rd_path route) routes with
  | Some existing =>
      Err (RouteConflict (show_verb (rd_verb route)) (rd_path existing) (rd_path route)
             (rd_line route) (rd_column route))
  | None => Ok tt
  end.

(** The providers of a module, into those of the project. *)
Fixpoint merge_providers (providers : list (string * AuthProvider Expression))
    (merged : gmap string (AuthProvider Expression))
  : result MarretaError (gmap string (AuthProvider Expression)) :=
  match providers with
  | [] => Ok merged
  | (name, provider) :: providers =>
      match merged !! name with
      | Some _ => duplicate_auth_provider name
      | None => merge_providers providers (<[name := provider]> merged)
      end
  end.

Definition is_export (stmt : Statement) : bool := match stmt with SExport _ => true | _ => false end.

(** The variables of the loop of [load_project_with_feature_flags]. *)
Record Merge : Type := mkMerge {
  mg_module_defs : list ModuleDefinition;
  mg_routes : list RouteDefinition;
  mg_schemas : gmap string SchemaDefinition;
  mg_all_project_schemas : gmap string SchemaDefinition;
  mg_startup : list Statement;
  mg_all_statements : list Statement;
  mg_consumers : list ConsumerDefinition;
  mg_auth_providers : gmap string (AuthProvider Expression);
  mg_exported_names : gmap string string;
}.

Definition Merge_new : Merge := mkMerge [] [] ∅ ∅ [] [] [] ∅ ∅.

(** A module that was built, into the project. *)
Definition merge_module (program : list Statement) (module : ModuleDefinition)
    (exported_names : gmap string string) (mg : Merge) : result MarretaError Merge :=
  _ ← for_each (check_route_conflict (mg_routes mg)) (md_routes module);
  providers ← merge_providers (entries (md_auth_providers module)) (mg_auth_providers mg);
  Ok (mkMerge (mg_module_defs mg ++ [module]) (mg_routes mg ++ md_routes module)
        (md_public_schemas module ∪ mg_schemas mg)
        (md_private_schemas module ∪ (md_public_schemas module ∪ mg_all_project_schemas mg))
        (mg_startup mg ++ (if md_is_entrypoint module then md_startup_stmts module
                           else List.filter is_export (md_startup_stmts module)))
        (mg_all_statements mg ++ program) (mg_consumers mg ++ md_consumers module)
        providers exported_names).

(** One file. *)
Definition load_file (display : string) (is_entrypoint : bool) (path : RelPath)
    (text : result string string) (mg : Merge) : outcome MarretaError Merge :=
  source ← read_source display text;
  program ← parse_source source;
  _ ← (if is_entrypoint then validate_entrypoint_metadata display program else Done tt);
  '(module, exported_names) ←
    of_result (build_module_definition (module_id path) (file_stem path) is_entrypoint program
                 (mg_exported_names mg));
  of_result (merge_module program module exported_names mg).

Fixpoint load_files (p : Project) (files : list (RelPath * result string string)) (mg : Merge)
  : outcome MarretaError Merge :=
  match files with
  | [] => load_file (display_entrypoint p) true [p_name p] (p_text p) mg
  | (path, text) :: files =>
      mg ← load_file (display_path p path) false path text mg;
      load_files p files mg
  end.

(** The checks of the whole project. *)
Definition check_project (mg : Merge) : outcome MarretaError unit :=
  let all_project_schemas := mg_all_project_schemas mg in
  _ ← of_result (validate_schema_naming all_project_schemas);
  _ ← match detect_schema_cycle all_project_schemas with
      | None => NoFuel
      | Some r => of_result r
      end;
  _ ← of_result (validate_persistent_schema_references all_project_schemas);
  _ ← of_result (validate_take_input_schemas (mg_routes mg) all_project_schemas);
  _ ← of_result (validate_auth_contract (mg_routes mg) (mg_auth_providers mg));
  _ ← of_result (build_auth_registry (mg_auth_providers mg));
  Done tt.

Definition merge_project (p : Project) : outcome MarretaError Merge :=
  mg ← load_files p (collect_marreta_files p) Merge_new;
  _ ← check_project mg;
  Done mg.

#[local] Existing Instance load_bind.

Definition load_project_with_feature_flags (fuel : nat) (p : Project) (feature_flags : FeatureFlags)
  : Load LoadedProject :=
  mg ← load_outcome (merge_project p);
  let persistent := collect_persistent_schemas (mg_all_project_schemas mg) in
  rt ← build_project_runtime overflow_checks fuel (mg_module_defs mg) (mg_schemas mg) persistent
         feature_flags;
  TRet (Done (mkLoadedProject
                (mkRouteRegistry (mg_routes mg) (mg_schemas mg) persistent (mg_startup mg)
                   (mg_consumers mg) (mg_auth_providers mg))
                rt (infer_indexes sha256 (mg_all_statements mg)))).

Definition load_project (fuel : nat) (p : Project) : Load LoadedProject :=
  load_project_with_feature_flags fuel p (mkFeatureFlags ∅).

End LoadProject.
