(* ===== verification/EvalSafe.v ===== *)
(** The evaluator keeps its invariant: every definition of Namespaces.v,
    Infra.v, QueryPipeline.v, Calls.v and Evaluator.v is [safe] when the
    evaluators it is over are, and so is the knot. *)
From stdpp Require Import base list strings gmap sets.
From Stdlib Require Import ZArith Lia.
From S2P Require Import Prelude RustStr F64 Errors Token Ast IndexMap Foreign QueryTypes Value Schemas Validator Serializer Environment Operators Crates ValueMethods DocBson TraceContext FeatureFlags ProjectRuntime Interaction Interp EvalLogic Namespaces Infra QueryPipeline Calls Evaluator.

Section Safe.
Context `{E : Ext} `{C : !Crates E} `{B : !BsonCrate E} `{HO : HashOrder}.
Variable cfg : Config.

Section Open.
Variable evaluate : Expression -> Eval Value.
Hypothesis evaluate_safe : forall e, safe cfg (evaluate e).
#[local] Hint Resolve evaluate_safe : safe.

Lemma safe_dispatch_log method arguments input :
  safe cfg (dispatch_log_with_input cfg evaluate method arguments input).
Proof. safe. Qed.

Lemma safe_dispatch_fs method arguments input :
  safe cfg (dispatch_fs_with_input evaluate method arguments input).
Proof. safe. Qed.

Lemma safe_dispatch_json method arguments input :
  safe cfg (dispatch_json_with_input evaluate method arguments input).
Proof. safe. Qed.

Lemma safe_dispatch_base64 method arguments input :
  safe cfg (dispatch_base64_with_input evaluate method arguments input).
Proof. safe. Qed.

Lemma safe_dispatch_math method arguments input :
  safe cfg (dispatch_math_with_input cfg evaluate method arguments input).
Proof. safe. Qed.

Lemma safe_dispatch_uuid method arguments : safe cfg (dispatch_uuid evaluate method arguments).
Proof. safe. Qed.

Lemma safe_dispatch_feature method arguments :
  safe cfg (dispatch_feature cfg evaluate method arguments).
Proof. safe. Qed.

Lemma safe_dispatch_time method arguments :
  safe cfg (dispatch_time cfg evaluate method arguments).
Proof. safe. Qed.

Lemma safe_access_property obj property : safe cfg (access_property cfg obj property).
Proof. safe. Qed.

Lemma safe_interpolate_string t : safe cfg (interpolate_string evaluate t).
Proof. safe. Qed.

Lemma safe_dispatch_cache method arguments : safe cfg (dispatch_cache cfg evaluate method arguments).
Proof. safe. Qed.

Lemma safe_pipeline_cache_set input arguments :
  safe cfg (pipeline_cache_set cfg evaluate input arguments).
Proof. safe. Qed.

Lemma safe_dispatch_http_client method arguments input :
  safe cfg (dispatch_http_client_with_pipeline cfg evaluate method arguments input).
Proof. safe. Qed.

Lemma safe_http_client_response_schema call schema_name :
  safe cfg (evaluate_http_client_response_schema cfg evaluate call schema_name).
Proof. safe. Qed.

Lemma safe_eval_queue_push queue_name schema payload input :
  safe cfg (eval_queue_push cfg evaluate queue_name schema payload input).
Proof. safe. Qed.

Lemma safe_eval_topic_publish topic schema payload input :
  safe cfg (eval_topic_publish cfg evaluate topic schema payload input).
Proof. safe. Qed.

Lemma safe_dispatch_doc_pipeline args : safe cfg (dispatch_doc_pipeline cfg args).
Proof. safe. Qed.

Lemma safe_dispatch_doc_direct collection method arguments :
  safe cfg (dispatch_doc_direct cfg evaluate collection method arguments).
Proof. safe. Qed.

Lemma safe_dispatch_db_direct table method arguments :
  safe cfg (dispatch_db_direct cfg evaluate table method arguments).
Proof. safe. Qed.

Lemma safe_dispatch_native_query arguments :
  safe cfg (dispatch_native_query cfg evaluate arguments).
Proof. safe. Qed.

Lemma safe_extract_named_string_arg arguments key :
  safe cfg (extract_named_string_arg evaluate arguments key).
Proof. induction arguments as [|[e|name e] arguments IH]; cbn; safe; done. Qed.
#[local] Hint Resolve safe_extract_named_string_arg : safe.

Lemma safe_query_pipeline_stage q expr :
  safe cfg (apply_query_pipeline_stage cfg evaluate q expr).
Proof. safe. Qed.

Lemma safe_relation_pipeline_stage relation expr :
  safe cfg (apply_relation_pipeline_stage cfg evaluate relation expr).
Proof. safe. Qed.

Lemma safe_doc_query_pipeline_stage q expr :
  safe cfg (apply_doc_query_pipeline_stage cfg evaluate q expr).
Proof. safe. Qed.

#[local] Hint Resolve safe_dispatch_log safe_dispatch_fs safe_dispatch_json safe_dispatch_base64
  safe_dispatch_math safe_dispatch_uuid safe_dispatch_feature safe_dispatch_time
  safe_access_property safe_interpolate_string safe_dispatch_cache safe_pipeline_cache_set
  safe_dispatch_http_client safe_http_client_response_schema safe_eval_queue_push
  safe_eval_topic_publish safe_dispatch_doc_pipeline safe_dispatch_doc_direct
  safe_dispatch_db_direct safe_dispatch_native_query safe_query_pipeline_stage
  safe_relation_pipeline_stage safe_doc_query_pipeline_stage : safe.

Variable execute_statement : Statement -> Eval Value.
Hypothesis execute_statement_safe : forall stmt, safe cfg (execute_statement stmt).
#[local] Hint Resolve execute_statement_safe : safe.

(** * Calls *)

Lemma safe_run_body body : safe cfg (run_body evaluate execute_statement body).
Proof. safe. Qed.
#[local] Hint Resolve safe_run_body : safe.

Lemma set_all_grows bindings e : env_grows e (set_all bindings e).
Proof.
  unfold set_all. revert e. induction bindings as [|b bindings IH]; intros e; [done |].
  cbn. etrans; [apply set_grows | apply IH].
Qed.

(** A computation inside a scope that it enters and always leaves. *)
Lemma triple_scoped {X Y} s0 f (m : Eval X) (after : result MarretaError X -> Eval Y) Q R :
  (forall e, env_grows e (f e)) -> safe cfg m ->
  (forall r, triple (from cfg s0) (after r) Q R) ->
  triple (from cfg s0)
    (_ ← env_push_scope; _ ← modify_env f; r ← attempt m; _ ← env_pop_scope; after r) Q R.
Proof.
  intros Hf Hm Ha.
  eapply triple_bind; [apply triple_push | intros []].
  eapply triple_bind; [apply triple_modify; intros s g Hs; by apply from_modify_env | intros []].
  eapply triple_bind; [| intros r; eapply triple_bind; [apply triple_pop | intros []; apply Ha]].
  apply triple_attempt_inv, Hm.
Qed.

Lemma safe_evaluate_branch_body body :
  safe cfg (evaluate_branch_body evaluate execute_statement body).
Proof.
  apply safe_at. intros s g Hr. unfold evaluate_branch_body. run_eval.
  do 2 apply tree_wp_bind. eapply tree_wp_mono; [by apply (safe_run_body body s s g) |].
  intros [v s'|e s'| |] g'; cbn; try done; intros [Hr' []]; (split; [done |]);
    by split; cbn.
Qed.
#[local] Hint Resolve safe_evaluate_branch_body : safe.

Lemma triple_call_local name params body source_module line column args s0 :
  i_call_depth s0 < c_max_recursion_depth cfg ->
  triple (from cfg s0)
    (call_local evaluate execute_statement name params body source_module line column args)
    (fun _ => from cfg s0) (from cfg s0).
Proof.
  intros Hd. unfold call_local.
  eapply triple_bind; [by apply triple_deeper | intros []].
  eapply triple_bind; [apply triple_push_trace_frame | intros n].
  intros s g [Hs Hn]. revert s g Hs. apply triple_scoped; [apply set_all_grows | safe |].
  intros r. eapply triple_bind; [by apply triple_shallower | intros []].
  destruct r; [| apply safe_raise].
  eapply triple_bind; [by apply triple_truncate | intros []]. apply safe_mret.
Qed.

Lemma triple_call_cross_module owner name params body source_module line column args s0 :
  i_call_depth s0 < c_max_recursion_depth cfg ->
  triple (from cfg s0)
    (call_cross_module cfg evaluate execute_statement owner name params body source_module line
       column args)
    (fun _ => from cfg s0) (from cfg s0).
Proof.
  intros Hd s g [Hr Hs]. unfold call_cross_module. apply tree_wp_bind.
  set (fork := with_trace_frames _ _). eapply tree_wp_mono.
  { apply (safe_run_body body fork fork g). split; [| done].
    destruct Hr as (?&?&?), Hs. split_and!; cbn; try done. lia. }
  intros [v f|e f| |] g'; cbn; try done; intros [(Htx&Hin&_) [? ? Hi Ht _ Hf]];
    destruct Hr as (?&?&?), Hs; cbn in *; (split; [split_and!; cbn; congruence |]).
  - split; cbn; try done; congruence.
  - split; cbn; try done; try congruence.
    etrans; [done |]. etrans; [| exact Hf]. by apply prefix_app_r.
Qed.
Lemma safe_call_task_value task args call_name :
  safe cfg (call_task_value cfg evaluate execute_statement task args call_name).
Proof.
  destruct task; cbn [call_task_value]; try apply safe_raise_at. destruct (negb _); [safe |]. apply safe_bind; [safe |]. intros coerced.
  intros s0 s g [Hr Hs]. run_eval.
  destruct (c_max_recursion_depth cfg <=? i_call_depth s) eqn:Hd; [by split |].
  apply Nat.leb_gt in Hd. rewrite (steps_call_depth _ _ Hs) in Hd.
  assert (Hl := triple_call_local name params body source_module line column coerced s0 Hd s g (conj Hr Hs)).
  destruct owner_module as [owner|]; [| exact Hl]. case_bool_decide; [exact Hl |].
  by apply triple_call_cross_module.
Qed.
#[local] Hint Resolve safe_call_task_value : safe.

Lemma safe_call_function name args :
  safe cfg (call_function cfg evaluate execute_statement name args).
Proof.
  unfold call_function. destruct (builtin_function name args) as [m|] eqn:Hb; [| safe].
  unfold builtin_function in Hb.
  repeat match type of Hb with context [if ?b then _ else _] => destruct b end;
    try discriminate Hb; injection Hb as <-; safe.
Qed.
#[local] Hint Resolve safe_call_function : safe.

(** * Stages *)

Lemma safe_dispatch_with_input namespace method arguments input m :
  dispatch_with_input cfg evaluate namespace method arguments input = Some m -> safe cfg m.
Proof.
  unfold dispatch_with_input. intros H.
  repeat match type of H with context [if ?b then _ else _] => destruct b end;
    try discriminate H; injection H as <-; safe.
Qed.

Lemma safe_with_injected input arguments call :
  (forall args, safe cfg (call args)) -> safe cfg (with_injected evaluate input arguments call).
Proof. intros Hc. safe; apply Hc. Qed.

Lemma safe_method_stage object method arguments input :
  safe cfg (method_stage cfg evaluate execute_statement object method arguments input).
Proof.
  unfold method_stage.
  assert (Ho : safe cfg (fun s =>
    match namespace_stage_task cfg object method s with
    | Some task => with_injected evaluate input arguments
        (fun args => call_task_value cfg evaluate execute_statement task args method) s
    | None => evaluate (EMethodCall object method arguments) s
    end)).
  { intros s0 s g Hs. destruct (namespace_stage_task _ _ _ _); [| by apply evaluate_safe].
    apply safe_with_injected; [intros args; apply safe_call_task_value | done]. }
  destruct object; try exact Ho.
  destruct (dispatch_with_input _ _ _ _ _ _) as [m|] eqn:Hd; [| exact Ho].
  by apply safe_dispatch_with_input in Hd.
Qed.

Lemma safe_named_stage apply_task expr name input :
  (forall task name, safe cfg (apply_task task name)) ->
  safe cfg (named_stage evaluate apply_task expr name input).
Proof. intros Ha. safe; apply Ha. Qed.

Lemma safe_property_stage apply_task object property :
  (forall task name, safe cfg (apply_task task name)) ->
  safe cfg (property_stage cfg evaluate apply_task object property).
Proof.
  intros Ha s0 s g Hs. unfold property_stage.
  destruct (namespace_stage_task _ _ _ _); [by apply Ha | by apply evaluate_safe].
Qed.
#[local] Hint Resolve safe_method_stage safe_named_stage safe_property_stage : safe.

Lemma safe_apply_broadcast_value input expr :
  safe cfg (apply_broadcast_value cfg evaluate execute_statement input expr).
Proof. safe. Qed.

Lemma safe_apply_to_each input task name :
  safe cfg (apply_to_each cfg evaluate execute_statement input task name).
Proof. safe. Qed.
#[local] Hint Resolve safe_apply_to_each : safe.

Lemma safe_apply_pipeline_value input expr :
  safe cfg (apply_pipeline_value cfg evaluate execute_statement input expr).
Proof. safe. Qed.
(** ** Broadcasts *)

(** A clone made outside a transaction is as ready as the state. *)
Lemma ready_clone s g :
  ready cfg s g -> i_inside_transaction s = false -> g = None /\ ready cfg (clone s) None.
Proof.
  intros (Htx & Hin & Hd) Hf. rewrite Hf in Hin. destruct g; [done |].
  split; [done |]. by split_and!.
Qed.

Lemma triple_branches_in_turn input targets s0 :
  i_inside_transaction s0 = false ->
  triple (from cfg s0) (run_branches_in_turn cfg evaluate execute_statement input targets)
    (fun _ => from cfg s0) (from cfg s0).
Proof.
  intros Hf. unfold run_branches_in_turn.
  eapply triple_bind; [| intros results; apply safe_mret].
  apply triple_mapE. intros target s g [Hr Hs]. apply tree_wp_bind.
  destruct (ready_clone s g Hr) as [-> Hc]; [by rewrite (steps_inside _ _ Hs) |].
  eapply tree_wp_mono.
  { by apply (safe_apply_broadcast_value input target (clone s) (clone s) None). }
  intros [v s'|e s'| |] g'; cbn; try done; intros [(Ht&_) [_ _ _ Ht' _ _]]; cbn in *;
    assert (g' = None) as -> by congruence; by split.
Qed.

Lemma triple_branches_in_parallel input targets s0 :
  i_inside_transaction s0 = false ->
  triple (from cfg s0) (run_branches_in_parallel cfg evaluate execute_statement input targets)
    (fun _ => from cfg s0) (from cfg s0).
Proof.
  intros Hf s g [Hr Hs].
  destruct (ready_clone s g Hr) as [-> Hc]; [by rewrite (steps_inside _ _ Hs) |].
  apply wp_par. split_and!; [done | |].
  - apply Forall_map, Forall_true. intros target. apply tree_wp_bind. eapply tree_wp_mono.
    { by apply (safe_apply_broadcast_value input target (clone s) (clone s) None). }
    intros [v s'|e s'| |] g'; cbn; try done; intros [(Ht&_) [_ _ _ Ht' _ _]]; cbn in *; congruence.
  - intros outs _.
    assert (H : safe cfg (results ← mapE join_branch outs; mret (VList results))) by safe.
    by apply (H s0).
Qed.

Lemma safe_evaluate_broadcast input targets :
  safe cfg (evaluate_broadcast cfg evaluate execute_statement input targets).
Proof.
  apply safe_at. intros s g Hr. unfold evaluate_broadcast.
  destruct (i_inside_transaction s) eqn:Hin; [run_eval; by rewrite Hin |].
  assert (Ht : triple (from cfg s) (val ← evaluate input; s ← get_state;
      if broadcast_branches_are_pure cfg s targets
      then run_branches_in_turn cfg evaluate execute_statement val targets
      else run_branches_in_parallel cfg evaluate execute_statement val targets)
    (fun _ => from cfg s) (from cfg s)).
  { eapply triple_bind; [apply evaluate_safe | intros val].
    eapply triple_bind; [apply safe_gets | intros s'].
    destruct (broadcast_branches_are_pure _ _ _);
      [by apply triple_branches_in_turn | by apply triple_branches_in_parallel]. }
  unfold mbind at 1, eval_bind, gets. cbn [tree_bind]. rewrite Hin. by apply Ht.
Qed.
#[local] Hint Resolve safe_apply_broadcast_value safe_apply_pipeline_value safe_evaluate_broadcast : safe.
(** * Statements *)

Lemma safe_while_loop remaining condition body :
  safe cfg (while_loop evaluate execute_statement remaining condition body).
Proof. induction remaining; cbn [while_loop]; safe; done. Qed.
#[local] Hint Resolve safe_while_loop : safe.

(** The state inside a transaction. *)
Definition in_transaction (tx : nat) (s : Interp) : Interp :=
  with_inside_transaction true (with_active_tx (Some tx) s).

Lemma safe_execute_transaction body :
  safe cfg (execute_transaction cfg execute_statement body).
Proof.
  apply safe_at. intros s g Hr. pose proof Hr as (Htx & Hin & Hd).
  unfold execute_transaction. run_eval.
  destruct (i_inside_transaction s) eqn:Hi; [done |]. destruct g; [done |].
  unfold require_db_engine. destruct (c_db_engine cfg); [| done]. run_eval.
  split; [done |]. intros [tx|e]; run_eval; [| done].
  do 2 apply tree_wp_bind. eapply tree_wp_mono.
  { assert (Hb : safe cfg (execute execute_statement body)) by safe.
    apply (Hb (in_transaction tx s) (in_transaction tx s) (Some tx)). split; [by split_and! | done]. }
  intros [v s'|e s'| |] g'; cbn [post wp]; try done;
    intros [(Ht & _ & Hd') [Hs1 Hs2 Hs3 Hs4 Hs5 Hs6]]; run_eval; unfold take_tx; cbn in *;
    rewrite Hs4; run_eval; (split; [congruence |]).
  - intros [u|e]; cbn; (split; [by split_and!; cbn; try done; lia | by split]).
  - intros x. cbn. split; [by split_and!; cbn; try done; lia | by split].
Qed.

Lemma safe_execute_statement_with stmt :
  safe cfg (execute_statement_with cfg evaluate execute_statement stmt).
Proof.
  pose proof safe_execute_transaction.
  unfold execute_statement_with. apply safe_bind; [safe | intros []]. destruct stmt; safe; done.
Qed.

(** * Expressions *)

Lemma triple_with_error_scope s0 n e handler :
  length (i_trace_frames s0) <= n -> safe cfg handler ->
  triple (from cfg s0) (with_error_scope n e handler) (fun _ => from cfg s0) (from cfg s0).
Proof.
  intros Hn Hh. unfold with_error_scope.
  eapply triple_bind; [by apply triple_truncate | intros []].
  apply triple_scoped; [intros env; apply set_grows | done | intros r; apply safe_of_res].
Qed.

(** Reading how many frames there are gives at least those of the start. *)
Lemma triple_frames s0 R :
  triple (from cfg s0) (gets (fun s => length (i_trace_frames s)))
    (fun n s g => from cfg s0 s g /\ length (i_trace_frames s0) <= n) R.
Proof. intros s g H. split; [done |]. destruct H as [_ []]. by apply prefix_length. Qed.

Lemma safe_evaluate_rescue expr handler : safe cfg (evaluate_rescue evaluate expr handler).
Proof.
  intros s0. eapply triple_bind; [apply triple_frames | intros n].
  intros s g [Hs Hn]. revert s g Hs.
  eapply triple_bind; [apply safe_attempt, evaluate_safe | intros [v|e]]; [apply safe_mret |].
  cbn. destruct (is_http_response e); [apply safe_raise |]. by apply triple_with_error_scope.
Qed.

Lemma safe_map_body body : safe cfg (map_body evaluate execute_statement body).
Proof.
  induction body as [|[stmt|value condition|condition] body IH]; cbn [map_body]; safe; done.
Qed.

Lemma safe_map_item variable body item :
  safe cfg (map_item evaluate execute_statement variable body item).
Proof.
  intros s0. eapply triple_bind; [apply triple_push | intros []].
  eapply triple_bind; [by apply triple_in_scope, safe_env_set | intros []].
  eapply triple_bind; [by apply triple_in_scope, safe_map_body | intros kept].
  eapply triple_bind; [apply triple_pop | intros []]. apply safe_mret.
Qed.

Lemma safe_reduce_item accumulator item body acc current :
  safe cfg (reduce_item evaluate execute_statement accumulator item body acc current).
Proof.
  intros s0. eapply triple_bind; [apply triple_push | intros []].
  do 2 (eapply triple_bind; [by apply triple_in_scope, safe_env_set | intros []]).
  eapply triple_bind; [by apply triple_in_scope, safe_run_body | intros next].
  eapply triple_bind; [apply triple_pop | intros []]. apply safe_mret.
Qed.
#[local] Hint Resolve safe_map_item safe_reduce_item : safe.

Lemma safe_evaluate_pipeline_stage input stage :
  safe cfg (evaluate_pipeline_stage cfg evaluate execute_statement input stage).
Proof. safe. Qed.
#[local] Hint Resolve safe_evaluate_pipeline_stage : safe.
Lemma triple_rescued_stages s0 n current stages :
  length (i_trace_frames s0) <= n ->
  triple (from cfg s0) (rescued_stages cfg evaluate execute_statement n current stages)
    (fun _ => from cfg s0) (from cfg s0).
Proof.
  intros Hn. revert current. induction stages as [|stage stages IH]; intros current.
  { apply safe_of_res. }
  assert (Hs : triple (from cfg s0)
    match current with
    | Ok val => next ← attempt (evaluate_pipeline_stage cfg evaluate execute_statement val stage);
                rescued_stages cfg evaluate execute_statement n next stages
    | Err e => rescued_stages cfg evaluate execute_statement n (Err e) stages
    end (fun _ => from cfg s0) (from cfg s0)).
  { destruct current as [val|e]; [| apply IH].
    eapply triple_bind; [apply safe_attempt, safe_evaluate_pipeline_stage | intros next; apply IH]. }
  destruct stage; try exact Hs. cbn [rescued_stages]. destruct current as [val|e]; [apply IH |].
  destruct (is_http_response e); [apply safe_raise |].
  eapply triple_bind; [| intros next; apply IH].
  apply triple_attempt_inv, triple_with_error_scope; [done | safe].
Qed.

Lemma safe_evaluate_pipeline input stages :
  safe cfg (evaluate_pipeline cfg evaluate execute_statement input stages).
Proof.
  unfold evaluate_pipeline. destruct (existsb _ stages); [| safe].
  intros s0. eapply triple_bind; [apply triple_frames | intros n].
  intros s g [Hs Hn]. revert s g Hs.
  eapply triple_bind; [apply safe_attempt, evaluate_safe | intros first].
  by apply triple_rescued_stages.
Qed.

Lemma safe_evaluate_match subject arms : safe cfg (evaluate_match evaluate subject arms).
Proof. induction arms as [|[[e|] value] arms IH]; cbn [evaluate_match]; safe; done. Qed.
#[local] Hint Resolve safe_evaluate_rescue safe_evaluate_pipeline safe_evaluate_match : safe.

Lemma safe_evaluate_with expr : safe cfg (evaluate_with cfg evaluate execute_statement expr).
Proof. destruct expr; cbn [evaluate_with]; safe. Qed.
End Open.

(** The knot: with any fuel, the evaluators are safe. *)
Lemma safe_interp fuel :
  (forall expr, safe cfg (evaluate cfg fuel expr))
  /\ (forall stmt, safe cfg (execute_statement cfg fuel stmt)).
Proof.
  unfold evaluate, execute_statement. induction fuel as [|fuel [IHe IHs]]; cbn.
  - split; intros; apply safe_no_fuel.
  - split; intros; [by apply safe_evaluate_with | by apply safe_execute_statement_with].
Qed.
End Safe.
