(* ===== verification/EvaluatorFuel.v ===== *)
(** Fuel only decides how far the model of the evaluator can go.

    [approx bot t t'] says that [t'] is [t] with some of its leaves [bot]
    replaced by more of the tree.  Every definition of the evaluator is
    monotone for it, so that with more fuel the knot gives the same tree as
    soon as no leaf ran out of it. *)
From stdpp Require Import base list strings gmap.
From Stdlib Require Import ZArith Lia.
From S2P Require Import Prelude RustStr F64 Errors Token Ast IndexMap Foreign QueryTypes Value Schemas Validator Serializer Environment Operators Crates ValueMethods DocBson TraceContext FeatureFlags ProjectRuntime Interaction Interp EvalLogic Namespaces Infra QueryPipeline Calls Evaluator.

Section Approx.
Context `{E : Ext}.

(** * Approximation of trees *)

Fixpoint approx {A : Type} (bot : A) (t t' : Tree A) : Prop :=
  match t with
  | TRet a => a = bot \/ t' = TRet a
  | TReq r k => exists k', t' = TReq r k' /\ forall x, approx bot (k x) (k' x)
  | TPar bs k =>
      exists bs' k', t' = TPar bs' k'
      /\ (fix all bs bs' :=
            match bs, bs' with
            | [], [] => True
            | b :: bs, b' :: bs' => approx NoFuel b b' /\ all bs bs'
            | _, _ => False
            end) bs bs'
      /\ forall outs, approx bot (k outs) (k' outs)
  end.

(** No leaf of the tree, nor of its branches, is [bot]. *)
Fixpoint enough {A : Type} (bot : A) (t : Tree A) : Prop :=
  match t with
  | TRet a => a <> bot
  | TReq r k => forall x, enough bot (k x)
  | TPar bs k =>
      (fix all bs := match bs with [] => True | b :: bs => enough NoFuel b /\ all bs end) bs
      /\ forall outs, Forall (fun o => o <> NoFuel) outs -> enough bot (k outs)
  end.

(** ** Induction on a tree and on its branches *)
Section TreeInduction.
Variable P : forall A, Tree A -> Prop.
Hypothesis Hret : forall A (a : A), P A (TRet a).
Hypothesis Hreq : forall A r (k : Answer r -> Tree A), (forall x, P A (k x)) -> P A (TReq r k).
Hypothesis Hpar : forall A bs (k : list BranchResult -> Tree A),
  Forall (P BranchResult) bs -> (forall outs, P A (k outs)) -> P A (TPar bs k).

Fixpoint Tree_induction {A} (t : Tree A) : P A t :=
  match t with
  | TRet a => Hret A a
  | TReq r k => Hreq A r k (fun x => Tree_induction (k x))
  | TPar bs k =>
      Hpar A bs k
        ((fix all bs : Forall (P BranchResult) bs :=
            match bs with
            | [] => Forall_nil_2 _
            | b :: bs => Forall_cons_2 _ _ _ (Tree_induction b) (all bs)
            end) bs)
        (fun outs => Tree_induction (k outs))
  end.
End TreeInduction.

Lemma enough_par {A} (bot : A) bs k :
  enough bot (TPar bs k) <->
  Forall (enough NoFuel) bs
  /\ forall outs, Forall (fun o => o <> NoFuel) outs -> enough bot (k outs).
Proof.
  cbn [enough]. assert (H : (fix all bs := match bs with
      | [] => True
      | b :: bs => enough NoFuel b /\ all bs
      end) bs <-> Forall (enough NoFuel) bs).
  { induction bs as [|b bs IH]; [by rewrite Forall_nil |]. by rewrite Forall_cons, IH. }
  by rewrite H.
Qed.

Lemma approx_par {A} (bot : A) bs k t' :
  approx bot (TPar bs k) t' <->
  exists bs' k', t' = TPar bs' k' /\ Forall2 (approx NoFuel) bs bs'
                 /\ forall outs, approx bot (k outs) (k' outs).
Proof.
  cbn [approx]. assert (H : forall bs bs' : list (Tree BranchResult), (fix all bs bs' := match bs, bs' with
      | [], [] => True
      | b :: bs, b' :: bs' => approx NoFuel b b' /\ all bs bs'
      | _, _ => False
      end) bs bs' <-> Forall2 (approx NoFuel) bs bs').
  { clear. induction bs as [|b bs IH]; intros [|b' bs']; cbn.
    - by split.
    - split; [done | by intros H%Forall2_nil_cons_inv].
    - split; [done | by intros H%Forall2_cons_nil_inv].
    - by rewrite Forall2_cons, IH. }
  by setoid_rewrite H.
Qed.

(** The results of branches that run one after the other. *)
Fixpoint run_all {W} (handle : forall r, W -> Answer r * W) (bs : list (Tree BranchResult)) (w : W)
  : list BranchResult * W :=
  match bs with
  | [] => ([], w)
  | b :: bs =>
      let '(o, w) := run handle b w in
      let '(os, w) := run_all handle bs w in (o :: os, w)
  end.

Lemma run_par {W} (handle : forall r, W -> Answer r * W) {A} bs (k : _ -> Tree A) w :
  run handle (TPar bs k) w = let '(outs, w) := run_all handle bs w in run handle (k outs) w.
Proof.
  cbn [run]. f_equal.
  assert (H : forall bs w, (fix run_all bs w := match bs with
    | [] => ([], w)
    | b :: bs => let '(o, w) := run handle b w in let '(os, w) := run_all bs w in (o :: os, w)
    end) bs w = run_all handle bs w).
  { clear. induction bs as [|b bs IH]; intros w; [done |]. cbn.
    destruct (run handle b w) as [o w']. by rewrite IH. }
  by rewrite H.
Qed.

(** A tree without [bot] does not run to it. *)
Lemma enough_run {W} (handle : forall r, W -> Answer r * W) {A} (t : Tree A) :
  forall bot w, enough bot t -> fst (run handle t w) <> bot.
Proof.
  induction A, t as [A a|A r k IH|A bs k IHb IH] using Tree_induction; intros bot w Ht.
  - exact Ht.
  - cbn. destruct (handle r w) as [x w']. by apply IH.
  - apply enough_par in Ht as [Hb Hk]. rewrite run_par.
    destruct (run_all handle bs w) as [outs w'] eqn:Hr. apply IH, Hk.
    clear IH Hk. revert w outs w' Hr. induction bs as [|b bs IHbs]; intros w outs w'; cbn.
    + by intros [= <- _].
    + apply Forall_cons in IHb as [IHb IHbs']. apply Forall_cons in Hb as [Hb Hbs].
      specialize (IHb NoFuel w Hb). destruct (run handle b w) as [o w1].
      destruct (run_all handle bs w1) as [os w2] eqn:Ho. intros [= <- _].
      constructor; [done |]. by eapply IHbs.
Qed.

Lemma run_all_enough {W} (handle : forall r, W -> Answer r * W) bs w :
  Forall (enough NoFuel) bs -> Forall (fun o => o <> NoFuel) (fst (run_all handle bs w)).
Proof.
  intros Hb. revert w. induction Hb as [|b bs Hb _ IH]; intros w; cbn; [done |].
  pose proof (enough_run handle b NoFuel w Hb). unfold BranchResult in *.
  destruct (run handle b w) as [o w1].
  specialize (IH w1). destruct (run_all handle bs w1). by constructor.
Qed.

(** A tree in which nothing ran out of fuel runs like any that extends it. *)
Lemma approx_run {W} (handle : forall r, W -> Answer r * W) {A} (t : Tree A) :
  forall bot t' w, approx bot t t' -> enough bot t -> run handle t' w = run handle t w.
Proof.
  induction A, t as [A a|A r k IH|A bs k IHb IH] using Tree_induction; intros bot t' w Ha Ht.
  - by destruct Ha as [-> | ->].
  - destruct Ha as (k' & -> & Hk). cbn. destruct (handle r w) as [x w']. by apply (IH x bot).
  - apply approx_par in Ha as (bs' & k' & -> & Hbs & Hk). apply enough_par in Ht as [Hb He].
    rewrite !run_par. pose proof (run_all_enough handle bs w Hb) as Ho.
    assert (run_all handle bs' w = run_all handle bs w) as ->.
    { clear -IHb Hbs Hb. revert w. induction Hbs as [|b b' bs bs' Hbb _ IHbs]; intros w; [done |].
      apply Forall_cons in IHb as [IHb IHbs']. apply Forall_cons in Hb as [Hb Hbs]. cbn.
      rewrite (IHb NoFuel b' w) by done. unfold BranchResult in *.
      destruct (run handle b w). by rewrite IHbs. }
    destruct (run_all handle bs w) as [outs w']. by apply (IH outs bot), He.
Qed.

(** ** Rules *)

Lemma approx_refl {A} (bot : A) t : approx bot t t.
Proof.
  revert bot. induction A, t as [A a|A r k IH|A bs k IHb IH] using Tree_induction; intros bot.
  - by right.
  - by exists k.
  - apply approx_par. exists bs, k. split_and!; [done | | done].
    induction IHb; constructor; auto.
Qed.

Lemma approx_bind {A B} (bot : A) (bot' : B) t t' f f' :
  approx bot t t' -> (forall a, approx bot' (f a) (f' a)) -> f bot = TRet bot' ->
  approx bot' (tree_bind t f) (tree_bind t' f').
Proof.
  intros Ht Hf Hb. revert t' Ht. induction t as [A a|A r k IH|A bs k IH]; intros t' Ht.
  - destruct Ht as [-> | ->]; [| apply Hf]. cbn. rewrite Hb. by left.
  - destruct Ht as (k' & -> & Hk). cbn. eexists. split; [done |]. intros x. by apply (IH x bot).
  - apply approx_par in Ht as (bs' & k' & -> & Hbs & Hk). cbn [tree_bind]. apply approx_par.
    do 2 eexists. split_and!; [done.. |]. intros outs. by apply (IH outs bot).
Qed.

End Approx.

(** * Monotone definitions *)

Section Grows.
Context `{E : Ext}.

(** [m'] is [m] with more fuel. *)
Definition more {A} (m m' : Eval A) : Prop := forall s, approx RNoFuel (m s) (m' s).

Lemma more_refl {A} (m : Eval A) : more m m.
Proof. intros s. apply approx_refl. Qed.

Lemma more_bind {A B} (m m' : Eval A) (k k' : A -> Eval B) :
  more m m' -> (forall a, more (k a) (k' a)) -> more (m ≫= k) (m' ≫= k').
Proof.
  intros Hm Hk s. apply (approx_bind RNoFuel); [apply Hm | | done].
  intros [a s'|e s'| |]; [apply Hk | apply approx_refl..].
Qed.

Lemma more_attempt {A} (m m' : Eval A) : more m m' -> more (attempt m) (attempt m').
Proof.
  intros Hm s. apply (approx_bind RNoFuel); [apply Hm | | done].
  intros [a s'|e s'| |]; apply approx_refl.
Qed.

Lemma more_mapE {A B} (f f' : A -> Eval B) l :
  (forall a, more (f a) (f' a)) -> more (mapE f l) (mapE f' l).
Proof.
  intros Hf. induction l; [apply more_refl |]. cbn.
  apply more_bind; [done | intros b]. apply more_bind; [done | intros bs]. apply more_refl.
Qed.

Lemma more_foldE {A S} (f f' : S -> A -> Eval S) acc l :
  (forall acc a, more (f acc a) (f' acc a)) -> more (foldE f acc l) (foldE f' acc l).
Proof.
  intros Hf. revert acc. induction l; intros acc; [apply more_refl |]. cbn. by apply more_bind.
Qed.

(** A computation that chooses by the state. *)
Lemma more_at {A} (m m' : Eval A) : (forall s, more (fun _ => m s) (fun _ => m' s)) -> more m m'.
Proof. intros H s. apply (H s s). Qed.
End Grows.

Create HintDb more.

(** The steps of [safe], for two computations of one shape. *)
Ltac more_step :=
  match goal with
  | |- forall _, _ => intros
  | |- more ?m ?m => apply more_refl
  | |- more (mbind _ _) (mbind _ _) => apply more_bind
  | |- more (mapE _ _) (mapE _ _) => apply more_mapE
  | |- more (foldE _ _ _) (foldE _ _ _) => apply more_foldE
  | |- more (attempt _) (attempt _) => apply more_attempt
  | |- more (match ?x with _ => _ end) (match ?x with _ => _ end) => destruct x
  | |- more (match ?x with _ => _ end _) (match ?x with _ => _ end _) => destruct x
  | |- more _ _ => solve [eauto 2 with more nocore]
  | |- more ?m _ => let h := head_of m in unfold h; cbv beta zeta
  end.
Ltac more := repeat more_step.

Section More.
Context `{E : Ext} `{C : !Crates E} `{B : !BsonCrate E} `{HO : HashOrder}.
Variable cfg : Config.
Variables ev ev' : Expression -> Eval Value.
Hypothesis ev_more : forall e, more (ev e) (ev' e).
#[local] Hint Resolve ev_more : more.

Lemma more_dispatch_log method arguments input :
  more (dispatch_log_with_input cfg ev method arguments input)
       (dispatch_log_with_input cfg ev' method arguments input).
Proof. more. Qed.

Lemma more_dispatch_fs method arguments input :
  more (dispatch_fs_with_input ev method arguments input)
       (dispatch_fs_with_input ev' method arguments input).
Proof. more. Qed.

Lemma more_dispatch_json method arguments input :
  more (dispatch_json_with_input ev method arguments input)
       (dispatch_json_with_input ev' method arguments input).
Proof. more. Qed.

Lemma more_dispatch_base64 method arguments input :
  more (dispatch_base64_with_input ev method arguments input)
       (dispatch_base64_with_input ev' method arguments input).
Proof. more. Qed.

Lemma more_dispatch_math method arguments input :
  more (dispatch_math_with_input cfg ev method arguments input)
       (dispatch_math_with_input cfg ev' method arguments input).
Proof. more. Qed.

Lemma more_dispatch_uuid method arguments :
  more (dispatch_uuid ev method arguments)
       (dispatch_uuid ev' method arguments).
Proof. more. Qed.

Lemma more_dispatch_feature method arguments :
  more (dispatch_feature cfg ev method arguments)
       (dispatch_feature cfg ev' method arguments).
Proof. more. Qed.

Lemma more_dispatch_time method arguments :
  more (dispatch_time cfg ev method arguments)
       (dispatch_time cfg ev' method arguments).
Proof. more. Qed.

Lemma more_interpolate_string t :
  more (interpolate_string ev t)
       (interpolate_string ev' t).
Proof. more. Qed.

Lemma more_dispatch_cache method arguments :
  more (dispatch_cache cfg ev method arguments)
       (dispatch_cache cfg ev' method arguments).
Proof. more. Qed.

Lemma more_pipeline_cache_set input arguments :
  more (pipeline_cache_set cfg ev input arguments)
       (pipeline_cache_set cfg ev' input arguments).
Proof. more. Qed.

Lemma more_dispatch_http_client method arguments input :
  more (dispatch_http_client_with_pipeline cfg ev method arguments input)
       (dispatch_http_client_with_pipeline cfg ev' method arguments input).
Proof. more. Qed.

Lemma more_http_client_response_schema call schema_name :
  more (evaluate_http_client_response_schema cfg ev call schema_name)
       (evaluate_http_client_response_schema cfg ev' call schema_name).
Proof. more. Qed.

Lemma more_eval_queue_push queue_name schema payload input :
  more (eval_queue_push cfg ev queue_name schema payload input)
       (eval_queue_push cfg ev' queue_name schema payload input).
Proof. more. Qed.

Lemma more_eval_topic_publish topic schema payload input :
  more (eval_topic_publish cfg ev topic schema payload input)
       (eval_topic_publish cfg ev' topic schema payload input).
Proof. more. Qed.

Lemma more_dispatch_doc_direct collection method arguments :
  more (dispatch_doc_direct cfg ev collection method arguments)
       (dispatch_doc_direct cfg ev' collection method arguments).
Proof. more. Qed.

Lemma more_dispatch_db_direct table method arguments :
  more (dispatch_db_direct cfg ev table method arguments)
       (dispatch_db_direct cfg ev' table method arguments).
Proof. more. Qed.

Lemma more_dispatch_native_query arguments :
  more (dispatch_native_query cfg ev arguments)
       (dispatch_native_query cfg ev' arguments).
Proof. more. Qed.

Lemma more_extract_named_string_arg arguments key :
  more (extract_named_string_arg ev arguments key)
       (extract_named_string_arg ev' arguments key).
Proof. induction arguments as [|[e|name e] arguments IH]; cbn; more; done. Qed.

#[local] Hint Resolve more_extract_named_string_arg : more.

Lemma more_query_pipeline_stage q expr :
  more (apply_query_pipeline_stage cfg ev q expr)
       (apply_query_pipeline_stage cfg ev' q expr).
Proof. more. Qed.

Lemma more_relation_pipeline_stage relation expr :
  more (apply_relation_pipeline_stage cfg ev relation expr)
       (apply_relation_pipeline_stage cfg ev' relation expr).
Proof. more. Qed.

Lemma more_doc_query_pipeline_stage q expr :
  more (apply_doc_query_pipeline_stage cfg ev q expr)
       (apply_doc_query_pipeline_stage cfg ev' q expr).
Proof. more. Qed.

#[local] Hint Resolve more_dispatch_log more_dispatch_fs more_dispatch_json more_dispatch_base64
  more_dispatch_math more_dispatch_uuid more_dispatch_feature more_dispatch_time
  more_interpolate_string more_dispatch_cache more_pipeline_cache_set more_dispatch_http_client
  more_http_client_response_schema more_eval_queue_push more_eval_topic_publish
  more_dispatch_doc_direct more_dispatch_db_direct more_dispatch_native_query
  more_query_pipeline_stage more_relation_pipeline_stage more_doc_query_pipeline_stage : more.

Variables ex ex' : Statement -> Eval Value.
Hypothesis ex_more : forall stmt, more (ex stmt) (ex' stmt).
#[local] Hint Resolve ex_more : more.

(** ** Calls and stages *)

Lemma more_run_body body :
  more (run_body ev ex body)
       (run_body ev' ex' body).
Proof. more. Qed.

#[local] Hint Resolve more_run_body : more.

Lemma more_call_cross_module owner name params body source line column args :
  more (call_cross_module cfg ev ex owner name params body source line column args)
       (call_cross_module cfg ev' ex' owner name params body source line column args).
Proof.
  intros s. unfold call_cross_module. apply (approx_bind RNoFuel); [apply more_run_body | | done].
  intros [a s'|e s'| |]; apply approx_refl.
Qed.

#[local] Hint Resolve more_call_cross_module : more.

Lemma more_call_task_value task args call_name :
  more (call_task_value cfg ev ex task args call_name)
       (call_task_value cfg ev' ex' task args call_name).
Proof. more. Qed.

#[local] Hint Resolve more_call_task_value : more.

Lemma more_call_function name args :
  more (call_function cfg ev ex name args)
       (call_function cfg ev' ex' name args).
Proof. more. Qed.

#[local] Hint Resolve more_call_function : more.

Lemma more_with_injected input arguments call call' :
  (forall args, more (call args) (call' args)) ->
  more (with_injected ev input arguments call) (with_injected ev' input arguments call').
Proof. intros Hc. more; apply Hc. Qed.

Lemma more_dispatch_with_input namespace method arguments input :
  match dispatch_with_input cfg ev namespace method arguments input,
        dispatch_with_input cfg ev' namespace method arguments input with
  | Some m, Some m' => more m m'
  | None, None => True
  | _, _ => False
  end.
Proof.
  unfold dispatch_with_input.
  repeat match goal with |- context [if ?b then _ else _] => destruct b end; more || exact I.
Qed.

Lemma more_method_stage object method arguments input :
  more (method_stage cfg ev ex object method arguments input)
       (method_stage cfg ev' ex' object method arguments input).
Proof.
  intros s. unfold method_stage.
  pose proof (fun n => more_dispatch_with_input n method arguments input) as Hd.
  assert (Ho : forall t, approx RNoFuel
    match t with
    | Some task => with_injected ev input arguments
        (fun args => call_task_value cfg ev ex task args method) s
    | None => ev (EMethodCall object method arguments) s
    end
    match t with
    | Some task => with_injected ev' input arguments
        (fun args => call_task_value cfg ev' ex' task args method) s
    | None => ev' (EMethodCall object method arguments) s
    end).
  { intros [task|]; [apply more_with_injected; intros args; apply more_call_task_value |].
    apply ev_more. }
  destruct object; try apply Ho. specialize (Hd name).
  destruct (dispatch_with_input cfg ev _ _ _ _), (dispatch_with_input cfg ev' _ _ _ _);
    [apply Hd | done | done | apply Ho].
Qed.

Lemma more_named_stage apply_task apply_task' expr name input :
  (forall task name, more (apply_task task name) (apply_task' task name)) ->
  more (named_stage ev apply_task expr name input) (named_stage ev' apply_task' expr name input).
Proof. intros Ha. more; apply Ha. Qed.

Lemma more_property_stage apply_task apply_task' object property :
  (forall task name, more (apply_task task name) (apply_task' task name)) ->
  more (property_stage cfg ev apply_task object property)
       (property_stage cfg ev' apply_task' object property).
Proof.
  intros Ha s. unfold property_stage.
  destruct (namespace_stage_task _ _ _ _); [apply Ha | apply ev_more].
Qed.
#[local] Hint Resolve more_method_stage more_named_stage more_property_stage : more.

Lemma more_apply_broadcast_value input expr :
  more (apply_broadcast_value cfg ev ex input expr)
       (apply_broadcast_value cfg ev' ex' input expr).
Proof. more. Qed.

#[local] Hint Resolve more_apply_broadcast_value : more.

Lemma more_apply_to_each input task name :
  more (apply_to_each cfg ev ex input task name)
       (apply_to_each cfg ev' ex' input task name).
Proof. more. Qed.

#[local] Hint Resolve more_apply_to_each : more.

Lemma more_apply_pipeline_value input expr :
  more (apply_pipeline_value cfg ev ex input expr)
       (apply_pipeline_value cfg ev' ex' input expr).
Proof. more. Qed.

Lemma more_branches_in_turn input targets :
  more (run_branches_in_turn cfg ev ex input targets)
       (run_branches_in_turn cfg ev' ex' input targets).
Proof.
  apply more_bind; [apply more_mapE; intros target s | intros results; apply more_refl].
  apply (approx_bind RNoFuel); [apply more_apply_broadcast_value | | done].
  intros [a s'|e s'| |]; apply approx_refl.
Qed.

Lemma more_branches_in_parallel input targets :
  more (run_branches_in_parallel cfg ev ex input targets)
       (run_branches_in_parallel cfg ev' ex' input targets).
Proof.
  intros s. apply approx_par. do 2 eexists. split_and!; [done | | intros outs; apply approx_refl].
  induction targets as [|target targets IH]; constructor; [| done].
  apply (approx_bind RNoFuel); [apply more_apply_broadcast_value | | done].
  intros [a s'|e s'| |]; apply approx_refl.
Qed.

#[local] Hint Resolve more_apply_pipeline_value more_branches_in_turn more_branches_in_parallel : more.

Lemma more_evaluate_broadcast input targets :
  more (evaluate_broadcast cfg ev ex input targets)
       (evaluate_broadcast cfg ev' ex' input targets).
Proof. more. Qed.

(** ** Statements and expressions *)

Lemma more_while_loop remaining condition body :
  more (while_loop ev ex remaining condition body)
       (while_loop ev' ex' remaining condition body).
Proof. induction remaining; cbn [while_loop]; more; done. Qed.

#[local] Hint Resolve more_evaluate_broadcast more_while_loop : more.

Lemma more_execute_statement_with stmt :
  more (execute_statement_with cfg ev ex stmt)
       (execute_statement_with cfg ev' ex' stmt).
Proof.   unfold execute_statement_with. apply more_bind; [more | intros []]. destruct stmt; more. Qed.

Lemma more_map_body body :
  more (map_body ev ex body)
       (map_body ev' ex' body).
Proof.   induction body as [|[stmt|value condition|condition] body IH]; cbn [map_body]; more; done. Qed.

#[local] Hint Resolve more_map_body : more.

Lemma more_evaluate_pipeline_stage input stage :
  more (evaluate_pipeline_stage cfg ev ex input stage)
       (evaluate_pipeline_stage cfg ev' ex' input stage).
Proof. more. Qed.

#[local] Hint Resolve more_evaluate_pipeline_stage : more.

Lemma more_rescued_stages n current stages :
  more (rescued_stages cfg ev ex n current stages)
       (rescued_stages cfg ev' ex' n current stages).
Proof.
  revert current. induction stages as [|stage stages IH]; intros current; [apply more_refl |].
  destruct stage; cbn [rescued_stages]; more; apply IH.
Qed.

Lemma more_evaluate_match subject arms :
  more (evaluate_match ev subject arms)
       (evaluate_match ev' subject arms).
Proof.   induction arms as [|[[e|] value] arms IH]; cbn [evaluate_match]; more; done. Qed.

#[local] Hint Resolve more_rescued_stages more_evaluate_match : more.

Lemma more_evaluate_with expr :
  more (evaluate_with cfg ev ex expr)
       (evaluate_with cfg ev' ex' expr).
Proof. destruct expr; cbn [evaluate_with]; more. Qed.

End More.

(** * The knot *)

Section Knot.
Context `{E : Ext} `{C : !Crates E} `{B : !BsonCrate E} `{HO : HashOrder}.
Variable cfg : Config.

Lemma interp_more n m :
  n <= m ->
  (forall expr, more (evaluate cfg n expr) (evaluate cfg m expr))
  /\ (forall stmt, more (execute_statement cfg n stmt) (execute_statement cfg m stmt)).
Proof.
  unfold evaluate, execute_statement. revert m. induction n as [|n IH]; intros m Hm; cbn [interp].
  - split; intros x s; by left.
  - destruct m as [|m]; [lia |]. destruct (IH m) as [IHe IHs]; [lia |]. cbn.
    split; intros x; [by apply more_evaluate_with | by apply more_execute_statement_with].
Qed.
End Knot.
