(* ===== verification/EvalDemo.v ===== *)
(** Programs run by the evaluator over the demonstration instances: what the
    theorems about evaluation are applied to, and behaviours worth knowing. *)
From stdpp Require Import base list strings gmap.
From Stdlib Require Import ZArith.
From S2P Require Import Prelude RustStr F64 Errors Token Lexer Ast IndexMap Foreign QueryTypes Value Environment Crates DocBson FeatureFlags ProjectRuntime ParserState Parser ParserStatements Interaction Interp EvalLogic Calls Evaluator.

#[export] Existing Instance demo_ext.
#[export] Existing Instance demo_crates.
#[export] Existing Instance demo_bson.
#[export] Existing Instance sorted_order.

(** Every driver is there, and a few calls deep is deep enough. *)
Definition demo_config : Config :=
  mkConfig 20 None None true true true true None true None (mkFeatureFlags ∅) (fun _ => None) true.

(** Drivers that answer in the simplest way; the world is the requests made. *)
Definition demo_handle (r : Req) (w : list Req) : Answer r * list Req :=
  (match r return Answer r with
   | RDb tx op => Err (DbError "no table" "db")
   | RBegin => Ok 7
   | RCommit _ | RRollback _ => Ok tt
   | RDoc op => Err (DbError "no collection" "doc")
   | RPush _ _ | RPublish _ _ => Ok tt
   | RCache op => Err (CacheOperationFailed "no cache")
   | RHttp _ => Err (HttpTimeout "no answer")
   | RFsRead _ => Err NotFound
   | RFsWrite _ _ | RFsOpenAppend _ | RFsAppend _ _ | RFsRemove _ => Ok tt
   | RFsExists _ => false
   | RPrintln _ => true
   | RLogLine _ => Ok tt
   | RNow => 0%Z
   | RUuidV4 => "4"
   | RUuidV7 => "7"
   | RSpanDraws => []
   | RServer op =>
       match op return server_answer op with
       | SGet _ => None
       | SInstant => 0%Z
       | SStdout _ | SSettle _ _ => tt
       | SStderr _ => true
       | SDeclareQueue _ | SConsumeQueue _ | SConsumeTopic _ => Ok tt
       | SBindTopic pattern => Ok pattern
       | SNextDelivery _ => None
       end
   end, w ++ [r]).

Definition lines_of (l : list string) : string :=
  join (of_chars [10%N]) l +:+ of_chars [10%N].

Definition program_of (l : list string) : Program :=
  match tokenize (lines_of l) with
  | Done tokens => match parse tokens with Done p => p | _ => [] end
  | _ => []
  end.

Definition run_program (l : list string) : Res Value * list Req :=
  run demo_handle (execute_program demo_config 30 (program_of l) Interp_new) [].

Definition result_of (l : list string) : option Value :=
  match fst (run_program l) with RDone v _ => Some v | _ => None end.

(** A failed [save] rolls its transaction back: its only requests are the begin,
    the operation on the connection of the transaction, and the rollback. *)
Definition transaction_program : list string :=
  ["transaction"; "    db.users.save({name: 1})"].

Definition shape (r : Req) : string * option nat :=
  match r with
  | RDb tx (DbSave table _) => (table, tx)
  | RBegin => ("begin", None)
  | RRollback tx => ("rollback", Some tx)
  | _ => ("other", None)
  end.

Example transaction_requests :
  map shape (snd (run_program transaction_program))
  = [("begin", None); ("users", Some 7); ("rollback", Some 7)].
Proof. reflexivity. Qed.

(** ** Behaviours *)

(** An error in a [map] stage leaves its scope on the stack, so that the call
    pops that scope instead of its own: after the error is handled, the
    parameter of the task hides a variable of the caller. *)
Definition leaking_map : list string :=
  ["l = 7"; "task f(l)"; "    r = l >> map x"; "        keep x / 0"; "    r";
   "z = f([1, 2]) rescue 5"; "l"].

Example map_error_leaks_scope : result_of leaking_map = Some (VList [VInteger 1; VInteger 2]).
Proof. reflexivity. Qed.

(** A task that fails inside [#{}] leaves its frame in the trace, although the
    failure was handled: the string reads [null] there. *)
Definition ghost_frame : list string :=
  ["task boom(p)"; "    raise p"; "    p"; "s = " +:+ dquote +:+ "#{boom(1)}" +:+ dquote; "1 / 0"].

Definition trace_of (r : Res Value) : list string :=
  match r with RFail e s => uncaught_trace_lines e s | _ => [] end.

Example interpolation_leaves_frames : trace_of (fst (run_program ghost_frame)) = ["at task boom"].
Proof. reflexivity. Qed.

(** A branch whose body logs is taken for pure: the second branch fails before
    the third has logged, which on the parallel path it would. *)
Definition logging_branches : list string :=
  ["task a(p) => log.info(p)"; "task b(p) => p / 0"; "1 *>>"; "    -> b"; "    -> a"].

Definition error_of (r : Res Value) : option MarretaError :=
  match r with RFail e _ => Some e | _ => None end.

Example logging_is_called_pure :
  error_of (fst (run_program logging_branches)) = Some (DivisionByZero 3 1)
  /\ snd (run_program logging_branches) = [].
Proof. split; reflexivity. Qed.

(** The arguments of a native query after the template are ignored. *)
Definition native_arguments : list string :=
  ["db.native_query(" +:+ dquote +:+ "select #{1}" +:+ dquote +:+ ", 5)"].

Example native_query_ignores_arguments :
  snd (run_program native_arguments) = [RDb None (DbNativeQuery "select $1" [VInteger 1])].
Proof. reflexivity. Qed.
