(* ===== verification/EvaluatorFacts.v ===== *)
(** What holds of every evaluation: transactions are bracketed, the state of
    the interpreter is kept, fuel does not matter once there is enough of it,
    arguments meet the contracts of tasks, and native queries carry values only
    as parameters. *)
From stdpp Require Import base list strings gmap sets.
From Stdlib Require Import ZArith Lia.
From S2P Require Import Prelude RustStr F64 Errors Token Ast IndexMap Foreign QueryTypes Value Schemas Validator ValidatorFacts Environment Operators Crates ValueMethods DocBson FeatureFlags ProjectRuntime Interaction Interp EvalLogic Namespaces Infra QueryPipeline Calls Evaluator EvalDemo EvalSafe EvaluatorFuel.

(** * Running and the logic *)

Section Run.
Context `{E : Ext} {W : Type} (handle : forall r, W -> Answer r * W).

Lemma run_all_length bs w : length (fst (run_all handle bs w)) = length bs.
Proof.
  revert w. induction bs as [|b bs IH]; intros w; [done |]. cbn. unfold BranchResult in *.
  destruct (run handle b w) as [o w1]. specialize (IH w1). destruct (run_all handle bs w1).
  cbn in *. by rewrite IH.
Qed.

(** What every path reaches, a run reaches. *)
Lemma wp_run {G A} (P : Protocol G) (t : Tree A) : forall g Q w,
  wp P t g Q -> exists g', Q (fst (run handle t w)) g'.
Proof.
  induction A, t as [A a|A r k IH|A bs k _ IH] using Tree_induction; intros g Q w Ht.
  - by exists g.
  - destruct Ht as [_ Ht]. cbn. destruct (handle r w) as [x w']. by eapply IH.
  - apply wp_par in Ht as (_ & _ & Ht). rewrite run_par.
    pose proof (run_all_length bs w) as Hl. destruct (run_all handle bs w) as [outs w'].
    by eapply IH, Ht.
Qed.
Lemma run_bind {A B} (t : Tree A) (f : A -> Tree B) : forall w,
  run handle (tree_bind t f) w = let '(a, w1) := run handle t w in run handle (f a) w1.
Proof.
  induction A, t as [A a|A r k IH|A bs k _ IH] using Tree_induction; intros w; cbn [tree_bind].
  - done.
  - cbn [run]. destruct (handle r w). apply IH.
  - rewrite !run_par. destruct (run_all handle bs w). apply IH.
Qed.
End Run.

(** A statement about the results of all paths: nothing is asked of the
    requests. *)
Definition free_protocol `{E : Ext} : Protocol unit :=
  mkProtocol (fun _ _ => True) (fun g _ _ => g) (fun _ => True) tt (fun _ _ => True).
Definition always `{E : Ext} {A} (t : Tree A) (Q : A -> Prop) : Prop :=
  wp free_protocol t tt (fun a _ => Q a).

Section Always.
Context `{E : Ext}.

Lemma always_True {A} (t : Tree A) : always t (fun _ => True).
Proof.
  induction A, t as [A a|A r k IH|A bs k IHb IH] using Tree_induction; [done | by split |].
  apply wp_par. split_and!; [done | exact IHb | intros outs _; apply IH].
Qed.

Lemma always_bind {A B} (t : Tree A) (f : A -> Tree B) Q :
  (forall a, always (f a) Q) -> always (tree_bind t f) Q.
Proof.
  intros Hf. apply tree_wp_bind. eapply tree_wp_mono; [apply always_True |]. intros a [] _. apply Hf.
Qed.

Lemma always_run {A W} (handle : forall r, W -> Answer r * W) (t : Tree A) Q w :
  always t Q -> Q (fst (run handle t w)).
Proof. intros H. by destruct (wp_run handle _ t _ _ w H). Qed.
End Always.

Section Facts.
Context `{E : Ext} `{C : !Crates E} `{B : !BsonCrate E} `{HO : HashOrder}.
Variable cfg : Config.

(** * Transactions *)

(** What is left when a computation ends with a result or an error. *)
Definition no_transaction {A} (r : Res A) (g : option nat) : Prop :=
  match r with
  | RDone _ s | RFail _ s => g = None /\ i_active_tx s = None /\ i_inside_transaction s = false
  | RPanic | RNoFuel => True
  end.

Lemma safe_execute_program fuel program : safe cfg (execute_program cfg fuel program).
Proof.
  unfold execute_program, Calls.execute. apply safe_foldE. intros _ stmt. by apply safe_interp.
Qed.

(** C2: on every path of every program: there is at most one transaction, every
    relational operation in it goes through its connection and none outside it
    does, no broadcast starts in it, and before the program ends, with a result
    or with an error, it is closed by one commit or one rollback. *)
Theorem transactions_bracketed fuel program s :
  i_active_tx s = None -> i_inside_transaction s = false ->
  i_call_depth s <= c_max_recursion_depth cfg ->
  wp tx_protocol (execute_program cfg fuel program s) None no_transaction.
Proof.
  intros Ht Hi Hd. eapply tree_wp_mono.
  { apply (safe_execute_program fuel program s s None). by split_and!. }
  intros [v s'|e s'| |] g; cbn; try done; intros [(Htx & _) [_ _ Hi' Ht' _ _]]; split_and!; congruence.
Qed.

(** * The state *)

(** The state agrees with itself on whether a transaction is open. *)
Definition wf_state (s : Interp) : Prop :=
  i_inside_transaction s = bool_decide (is_Some (i_active_tx s))
  /\ i_call_depth s <= c_max_recursion_depth cfg.

Lemma wf_state_ready s : wf_state s -> ready cfg s (i_active_tx s).
Proof.
  intros [Hi Hd]. split_and!; [done | | done]. rewrite Hi. by destruct (i_active_tx s).
Qed.

(** C6: whatever the drivers answer, an expression leaves the depth of calls,
    the module, the transaction and the frozen globals as they were; a variable
    that was defined stays defined, and the trace only gains frames.  It leaves
    a state that is well formed again. *)
Theorem evaluation_keeps_state fuel expr s {W} (handle : forall r, W -> Answer r * W) (w : W) :
  wf_state s ->
  match fst (run handle (evaluate cfg fuel expr s) w) with
  | RDone _ s' | RFail _ s' =>
      wf_state s'
      /\ i_call_depth s' = i_call_depth s /\ i_module s' = i_module s
      /\ i_inside_transaction s' = i_inside_transaction s /\ i_active_tx s' = i_active_tx s
      /\ base (i_env s') = base (i_env s)
      /\ (forall name, has name (i_env s) = true -> has name (i_env s') = true)
      /\ i_trace_frames s `prefix_of` i_trace_frames s'
  | RPanic | RNoFuel => True
  end.
Proof.
  intros Hw. pose proof (wf_state_ready s Hw) as Hr.
  destruct (safe_interp cfg fuel) as [He _].
  destruct (wp_run handle _ _ _ _ w (He expr s s _ (from_start cfg s _ Hr))) as [g' Hg].
  destruct Hw as [Hi Hd].
  destruct (fst (run handle (evaluate cfg fuel expr s) w)); cbn in Hg; try done;
    destruct Hg as [_ [Hc Hm Hin Htx Henv Hf]];
    pose proof (fun name => env_grows_has name _ _ Henv); destruct Henv as [? _];
    (split; [unfold wf_state; by rewrite Hin, Htx, Hc | by split_and!]).
Qed.

(** * Fuel *)

(** When no path of an evaluation ran out of fuel, more of it gives the
    same run, whatever the drivers answer. *)
Theorem fuel_is_irrelevant n m expr s {W} (handle : forall r, W -> Answer r * W) (w : W) :
  n <= m -> enough RNoFuel (evaluate cfg n expr s) ->
  run handle (evaluate cfg m expr s) w = run handle (evaluate cfg n expr s) w.
Proof.
  intros Hm He. destruct (interp_more cfg n m Hm) as [H _]. 
  apply (approx_run handle _ RNoFuel); [apply H | done].
Qed.

(** * The contracts of tasks *)

Section Contracts.
Variable visible_schemas : gmap string SchemaDefinition.

(** The value of an argument meets the schema of its parameter: it is the
    argument, coerced to the schema and conforming to it; without a schema it
    is the argument itself. *)
Definition meets_contract (pa : ParamDef * Value) (v : Value) : Prop :=
  match pd_schema (fst pa) with
  | None => v = snd pa
  | Some schema_name =>
      exists schema, visible_schemas !! schema_name = Some schema
                     /\ coerce_payload visible_schemas (snd pa) schema = Done v
                     /\ conforms visible_schemas MAX_DEPTH schema v
  end.

(** An argument the call is refused for: its parameter has a schema that is not
    visible, or the validator answers an error. *)
Definition rejected_argument (pa : ParamDef * Value) : Prop :=
  exists schema_name, pd_schema (fst pa) = Some schema_name /\
    match visible_schemas !! schema_name with
    | None => True
    | Some schema => exists e, coerce_payload visible_schemas (snd pa) schema = Fails e
    end.

(** An argument on which the validator panics. *)
Definition panicking_argument (pa : ParamDef * Value) : Prop :=
  exists schema_name schema, pd_schema (fst pa) = Some schema_name /\
    visible_schemas !! schema_name = Some schema /\
    coerce_payload visible_schemas (snd pa) schema = Panics.

(** Why a call fails before its body, and with which error, at the position of
    the caller. *)
Definition refused (params : list ParamDef) (args : list Value) (max_depth : nat) (s : Interp)
    (e : MarretaError) : Prop :=
  (length params <> length args /\
     exists name, e = WrongArity name (length params) (length args) (i_line s) (i_column s))
  \/ (length params = length args /\ (exists pa, pa ∈ zip params args /\ rejected_argument pa) /\
     exists message, e = TypeError message (i_line s) (i_column s))
  \/ (length params = length args /\ max_depth <= i_call_depth s /\
     exists message, e = RuntimeError message (i_line s) (i_column s)).

Lemma coerce_argument_spec task_name param arg s :
  (exists v, coerce_argument visible_schemas task_name param arg s = TRet (RDone v s)
             /\ meets_contract (param, arg) v)
  \/ (exists message, coerce_argument visible_schemas task_name param arg s
                       = TRet (RFail (TypeError message (i_line s) (i_column s)) s)
                /\ rejected_argument (param, arg))
  \/ (coerce_argument visible_schemas task_name param arg s = TRet RPanic
      /\ panicking_argument (param, arg)).
Proof.
  unfold coerce_argument, meets_contract, rejected_argument, panicking_argument. cbn [fst snd].
  destruct (pd_schema param) as [schema_name|]; [| left; by exists arg].
  destruct (visible_schemas !! schema_name) as [schema|] eqn:Hs.
  - pose proof (coerce_payload_fuel visible_schemas arg schema).
    destruct (coerce_payload visible_schemas arg schema) as [v|e| |] eqn:Hc; [left | right; left | | done].
    + exists v. split; [done |]. exists schema. split_and!; [done | done |].
      by apply (coerce_payload_sound _ arg).
    + eexists. split; [done |]. exists schema_name. rewrite Hs.
      split; [done | by eexists].
    + do 2 right. split; [done | by exists schema_name, schema].
  - right; left. eexists. split; [done |]. exists schema_name. by rewrite Hs.
Qed.

Lemma coerce_arguments_spec task_name params args s :
  length params = length args ->
  let m := mapE (fun pa => coerce_argument visible_schemas task_name (fst pa) (snd pa)) (zip params args) in
  (exists vs, m s = TRet (RDone vs s) /\ Forall2 meets_contract (zip params args) vs)
  \/ (exists message, m s = TRet (RFail (TypeError message (i_line s) (i_column s)) s)
        /\ exists pa, pa ∈ zip params args /\ rejected_argument pa)
  \/ (m s = TRet RPanic /\ exists pa, pa ∈ zip params args /\ panicking_argument pa).
Proof.
  revert args. induction params as [|param params IH]; intros [|arg args] Hl; try done.
  { left. by exists []. }
  injection Hl as Hl. cbn -[coerce_argument].
  unfold mbind, eval_bind.
  destruct (coerce_argument_spec task_name param arg s)
    as [(v & Hv & Hm) | [(message & He & Hr) | [Hp Hr]]].
  - rewrite Hv. cbn [tree_bind].
    destruct (IH args Hl) as [(vs & Hvs & Hms) | [(message & He & pa & Hin & Hr) | [Hp (pa & Hin & Hr)]]];
      cbn in *.
    + left. exists (v :: vs). rewrite Hvs. split; [done |]. by constructor.
    + right; left. exists message. rewrite He. split; [done |]. exists pa. split; [by right | done].
    + do 2 right. rewrite Hp. split; [done |]. exists pa. split; [by right | done].
  - right; left. exists message. rewrite He. split; [done |]. exists (param, arg). split; [by left | done].
  - do 2 right. rewrite Hp. split; [done |]. exists (param, arg). split; [by left | done].
Qed.
End Contracts.


(** * Native queries *)

(** The text of a query: its literal characters, and a numbered parameter for
    every expression. *)
Fixpoint numbered_sql (n : nat) (pieces : list Piece) : string :=
  match pieces with
  | [] => EmptyString
  | Literal c :: pieces => of_chars [c] +:+ numbered_sql n pieces
  | Placeholder _ :: pieces => ("$" +:+ show_nat (S n)) +:+ numbered_sql (S n) pieces
  end.

(** The sources of the expressions, in the order they stand in. *)
Definition expressions (pieces : list Piece) : list (list N) :=
  omap (fun p => match p with Placeholder e => Some e | Literal _ => None end) pieces.

(** The characters the pieces stand for. *)
Definition pieces_text (pieces : list Piece) : list N :=
  concat (map (fun p => match p with
                        | Literal c => [c]
                        | Placeholder e => bytes "#{" ++ e ++ bytes "}"
                        end) pieces).

Lemma take_expr_text depth l e rest :
  take_expr (S depth) l = (e, rest) -> l = e ++ ch "}" :: rest \/ (l = e /\ rest = []).
Proof.
  revert depth e rest. induction l as [|c l IH]; intros depth e rest; cbn [take_expr].
  { intros [= <- <-]. by right. }
  assert (Hstep : forall d, (let '(e, rest) := take_expr (S d) l in (c :: e, rest)) = (e, rest) ->
                  c :: l = e ++ ch "}" :: rest \/ (c :: l = e /\ rest = [])).
  { intros d. destruct (take_expr (S d) l) as [e1 rest1] eqn:He. intros [= <- <-].
    destruct (IH d e1 rest1 He) as [-> | [-> ->]]; [by left | by right]. }
  destruct (c =? ch "{")%N; [apply Hstep |].
  destruct (N.eqb_spec c (ch "}")) as [->|_]; [| apply Hstep].
  destruct depth as [|depth]; [| apply (Hstep depth)].
  intros [= <- <-]. by left.
Qed.

Lemma template_pieces_text fuel l :
  length l <= fuel ->
  exists closing, pieces_text (template_pieces fuel l) = l ++ closing /\
    (closing = [] \/ closing = bytes "}").
Proof.
  revert l. induction fuel as [|fuel IH]; intros l Hl.
  { destruct l; [| cbn in Hl; lia]. exists []. auto. }
  destruct l as [|c [|c' l]]; [exists []; auto | exists []; auto |].
  cbn [template_pieces length] in *.
  destruct (N.eqb_spec c (ch "#")) as [->|_]; [destruct (N.eqb_spec c' (ch "{")) as [->|_] |]; cbn [andb].
  - destruct (take_expr 1 l) as [e rest] eqn:He. cbn [pieces_text map concat].
    destruct (take_expr_text 0 l e rest He) as [-> | [-> ->]].
    + destruct (IH rest) as (closing & Hc & Hcl); [rewrite length_app in Hl; cbn in Hl; lia |].
      exists closing. split; [| done]. change (concat (map _ (template_pieces fuel rest)))
        with (pieces_text (template_pieces fuel rest)). rewrite Hc.
      change (ch "#" :: ch "{" :: e ++ ch "}" :: rest) with (bytes "#{" ++ e ++ bytes "}" ++ rest).
      by rewrite <- !app_assoc.
    + exists (bytes "}"). split; [| by right].
      assert (template_pieces fuel [] = []) as -> by (by destruct fuel).
      cbn [map concat]. by rewrite app_nil_r.
  - destruct (IH (c' :: l)) as (closing & Hc & Hcl); [cbn; lia |]. exists closing.
    split; [| done]. exact (f_equal (cons _) Hc).
  - destruct (IH (c' :: l)) as (closing & Hc & Hcl); [cbn; lia |]. exists closing.
    split; [| done]. exact (f_equal (cons _) Hc).
Qed.

Section NativeQuery.
Context (ev : Expression -> Eval Value) {W : Type} (handle : forall r, W -> Answer r * W).

(** [values_in_turn sources s w values s' w']: the expressions, evaluated from
    the first to the last, each in the state and the world the one before it
    left, have the values [values]. *)
Inductive values_in_turn : list (list N) -> Interp -> W -> list Value -> Interp -> W -> Prop :=
| values_none s w : values_in_turn [] s w [] s w
| values_next src srcs s w v s1 w1 vs s2 w2 :
    run handle (evaluate_source_expression ev (trim (of_chars src)) s) w = (RDone v s1, w1) ->
    values_in_turn srcs s1 w1 vs s2 w2 ->
    values_in_turn (src :: srcs) s w (v :: vs) s2 w2.

(** How the extraction ends: with the numbered text and the values in turn, or
    as the first expression that has no value does. *)
Definition extracted (acc : string * list Value) (pieces : list Piece) (s : Interp) (w : W)
    (out : Res (string * list Value) * W) : Prop :=
  match fst out with
  | RDone (sql, params) s' =>
      sql = fst acc +:+ numbered_sql (length (snd acc)) pieces /\
      exists vs, params = snd acc ++ vs /\ values_in_turn (expressions pieces) s w vs s' (snd out)
  | r =>
      exists before src after vs s1 w1,
        expressions pieces = before ++ src :: after /\ values_in_turn before s w vs s1 w1 /\
        match run handle (evaluate_source_expression ev (trim (of_chars src)) s1) w1, r with
        | (RFail e s2, w2), RFail e' s' => e' = e /\ s' = s2 /\ snd out = w2
        | (RPanic, _), RPanic | (RNoFuel, _), RNoFuel => True
        | _, _ => False
        end
  end.

Lemma native_pieces_spec pieces acc s w :
  extracted acc pieces s w (run handle (foldE (native_query_step ev) acc pieces s) w).
Proof.
  revert acc s w. induction pieces as [|piece pieces IH]; intros [sql params] s w.
  { split; cbn [fst snd numbered_sql]; [by rewrite append_nil_r |].
    exists []. rewrite app_nil_r. split; [done | constructor]. }
  change (foldE (native_query_step ev) (sql, params) (piece :: pieces) s) with
    (tree_bind (native_query_step ev (sql, params) piece s)
       (fun r => match r with
                 | RDone acc s => foldE (native_query_step ev) acc pieces s
                 | RFail e s => TRet (RFail e s)
                 | RPanic => TRet RPanic
                 | RNoFuel => TRet RNoFuel
                 end)).
  destruct piece as [c|src].
  - specialize (IH (sql +:+ of_chars [c], params) s w). cbn [native_query_step fst snd] in *.
    change (tree_bind _ _) with (foldE (native_query_step ev) (sql +:+ of_chars [c], params) pieces s).
    unfold extracted in *. destruct (fst _) as [[sql' params'] s'| | |]; [| exact IH..].
    cbn [fst snd numbered_sql] in *. by rewrite append_assoc in IH.
  - rewrite run_bind.
    change (native_query_step ev (sql, params) (Placeholder src) s) with
      (tree_bind (evaluate_source_expression ev (trim (of_chars src)) s)
         (fun r => match r with
                   | RDone val s1 => TRet (RDone (sql +:+ "$" +:+ show_nat (S (length params)),
                                                  params ++ [val]) s1)
                   | RFail e s => TRet (RFail e s)
                   | RPanic => TRet RPanic
                   | RNoFuel => TRet RNoFuel
                   end)).
    rewrite run_bind.
    destruct (run handle (evaluate_source_expression ev (trim (of_chars src)) s) w)
      as [[v s1|e s1| |] w1] eqn:Hrun; cbn [run].
    2-4: exists [], src, (expressions pieces), [], s, w; split_and!;
      [done | constructor | by rewrite Hrun].
    specialize (IH (sql +:+ "$" +:+ show_nat (S (length params)), params ++ [v]) s1 w1).
    unfold extracted in *.
    destruct (fst (run _ (foldE _ _ _ _) _)) as [[sql' params'] s'| | |].
    2-4: destruct IH as (before & src' & after & vs & s2 & w2 & He & Hv & Hr);
      exists (src :: before), src', after, (v :: vs), s2, w2;
      split_and!; [cbn; by f_equal | by econstructor | exact Hr].
    destruct IH as (-> & vs & -> & Hv). cbn [fst snd numbered_sql]. split.
    + rewrite length_app, Nat.add_comm, !append_assoc. done.
    + exists (v :: vs). split; [by rewrite <- app_assoc | by econstructor].
Qed.
End NativeQuery.

(** C12: the values in a native query are parameters, never text.  The template
    is read as literal characters and expressions in [#{}] (the pieces put
    together again are the template, up to the brace of a last expression left
    open).  When the extraction succeeds, the text sent is the template with
    [$1], [$2], ... in place of its expressions, so it does not depend on any
    value, and the parameters are the values of these expressions in order:
    each is evaluated once, from the first to the last, in the state the one
    before it left.  When it does not, the first expression without a value
    decides how it ends, with its error and its state, and the later ones are
    not evaluated.  A template without [#{] is sent as it is, without
    parameters. *)
Theorem native_query_parameters (ev : Expression -> Eval Value) template s {W}
    (handle : forall r, W -> Answer r * W) (w : W) :
  let pieces := pieces_of template in
  (if str_contains placeholder_mark template then
     extracted ev handle (EmptyString, []) pieces s w
       (run handle (extract_native_query_params ev template s) w)
   else run handle (extract_native_query_params ev template s) w = (RDone (template, []) s, w)) /\
  exists closing, pieces_text pieces = chars template ++ closing /\
    (closing = [] \/ closing = bytes "}").
Proof.
  intros pieces. split; [| by apply template_pieces_text].
  unfold extract_native_query_params.
  destruct (str_contains placeholder_mark template); [apply native_pieces_spec | done].
Qed.
End Facts.

(** * The theorems at work *)

Lemma demo_ready : wf_state demo_config Interp_new.
Proof. split; [reflexivity | cbn; lia]. Qed.

Lemma transactions_bracketed_witness :
  wp tx_protocol (execute_program demo_config 30 (program_of transaction_program) Interp_new) None
    no_transaction.
Proof.
  apply (transactions_bracketed demo_config 30 (program_of transaction_program) Interp_new);
    [reflexivity | reflexivity | cbn; lia].
Defined.

Definition demo_sum : Expression := EBinaryOp (EInteger 1) Add (EInteger 2).

Lemma evaluation_keeps_state_witness :
  match fst (run demo_handle (evaluate demo_config 2 demo_sum Interp_new) []) with
  | RDone _ s' | RFail _ s' => wf_state demo_config s'
  | RPanic | RNoFuel => True
  end.
Proof.
  pose proof (evaluation_keeps_state demo_config 2 demo_sum Interp_new demo_handle [] demo_ready) as H.
  destruct (fst (run demo_handle (evaluate demo_config 2 demo_sum Interp_new) [])) as [v s'|e s'| |];
    [exact (proj1 H) | exact (proj1 H) | exact I | exact I].
Defined.

Lemma fuel_is_irrelevant_witness :
  run demo_handle (evaluate demo_config 9 demo_sum Interp_new) []
  = run demo_handle (evaluate demo_config 2 demo_sum Interp_new) [].
Proof.
  apply (fuel_is_irrelevant demo_config 2 9 demo_sum Interp_new demo_handle []); [lia |].
  cbn. discriminate.
Defined.

(** The demonstration project of Validator.v, as the schemas of an evaluator. *)
Definition schema_config : Config :=
  mkConfig 20 None (Some demo_schemas) true true true true None true None (mkFeatureFlags ∅)
    (fun _ => None) true.

