(* ===== verification/Config.v ===== *)
(** The configuration (src/src/config.rs): the [marreta.env] file, the
    variables of the process over those of the file, the settings of the server
    and of each store, the errors that are collected, and connection URLs.
    A [Duration] is its number of milliseconds. *)
From stdpp Require Import base list strings gmap.
From Stdlib Require Import ZArith Lia.
From S2P Require Import Prelude RustStr F64 Ast IndexMap Foreign QueryTypes Value Crates Migrations Replay FeatureFlags.

(** * Percent encoding *)

Definition upper_hex (n : N) : Ascii.ascii :=
  byte (if (n <? 10)%N then ch "0" + n else ch "A" + (n - 10))%N.

Definition is_unreserved (b : N) : bool :=
  is_ascii_alphanumeric b || (b =? ch "-")%N || (b =? ch "_")%N || (b =? ch ".")%N
  || (b =? ch "~")%N.

Definition percent_byte (a : Ascii.ascii) (rest : string) : string :=
  "%" +:+ String (upper_hex (ch a / 16)) (String (upper_hex (ch a mod 16)) rest).

Fixpoint percent_encode (allow_slash : bool) (input : string) : string :=
  match input with
  | EmptyString => EmptyString
  | String a input =>
      let out := percent_encode allow_slash input in
      if is_unreserved (ch a) || (allow_slash && (ch a =? ch "/")%N) then String a out
      else percent_byte a out
  end.

Definition percent_encode_component : string -> string := percent_encode false.
Definition percent_encode_path_segment : string -> string := percent_encode true.

Definition require_value (value : option string) (env_key provider : string)
  : result string string :=
  ok_or value ("incomplete structured config for provider " +:+ provider +:+ ": missing " +:+ env_key).

(** * The stores *)

Record DbRuntimeConfig : Type := mkDbRuntimeConfig {
  db_provider : string;
  db_host : option string;
  db_port : option Z;
  db_name : option string;
  db_user : option string;
  db_password : option string;
  db_ssl_mode : option string;
  db_pool_max_connections : option Z;
  db_pool_min_connections : option Z;
  db_pool_acquire_timeout_secs : option Z;
  db_pool_idle_timeout_secs : option Z;
  db_pool_max_lifetime_secs : option Z;
  db_pool_test_before_acquire : option bool;
}.

Record DocRuntimeConfig : Type := mkDocRuntimeConfig {
  doc_provider : string;
  doc_host : option string;
  doc_port : option Z;
  doc_name : option string;
  doc_user : option string;
  doc_password : option string;
  doc_auth_source : option string;
  doc_pool_max_connections : option Z;
  doc_pool_min_connections : option Z;
  doc_pool_connect_timeout_ms : option Z;
  doc_pool_server_selection_timeout_ms : option Z;
}.

Record CacheRuntimeConfig : Type := mkCacheRuntimeConfig {
  cache_provider : string;
  cache_host : option string;
  cache_port : option Z;
  cache_user : option string;
  cache_password : option string;
  cache_db : option Z;
  cache_prefix : string;
  cache_default_ttl : option Z;
  cache_pool_size : Z;
  cache_connect_timeout : Z;
  cache_operation_timeout : Z;
  cache_reconnect_max_retries : Z;
}.

Record QueueRuntimeConfig : Type := mkQueueRuntimeConfig {
  queue_provider : string;
  queue_host : option string;
  queue_port : option Z;
  queue_user : option string;
  queue_password : option string;
  queue_vhost : option string;
  queue_topic_exchange : string;
  queue_prefetch_count : Z;
  queue_reconnect_max_retries : Z;
}.

Record MarretaConfig : Type := mkMarretaConfig {
  mc_host : string;
  mc_port : Z;
  cors_enabled : bool;
  cors_origin : string;
  docs_enabled : bool;
  docs_path : string;
  mc_db : option DbRuntimeConfig;
  mc_doc : option DocRuntimeConfig;
  mc_cache : option CacheRuntimeConfig;
  mc_queue : option QueueRuntimeConfig;
  mc_feature_flags : FeatureFlags;
  config_errors : list string;
}.

(** [trim_start_matches('/')]. *)
Fixpoint trim_start_slashes (s : string) : string :=
  match s with
  | String a s' => if (ch a =? ch "/")%N then trim_start_slashes s' else s
  | EmptyString => EmptyString
  end.

(** ** Connection URLs *)

Section Urls.
Context `{E : Ext} `{C : !Crates E}.

(** The [":password"] part of the credentials. *)
Definition password_part (password : option string) : string :=
  match password with Some v => ":" +:+ percent_encode_component v | None => EmptyString end.

(** The [":port"] part, with the default of the store. *)
Definition port_part (port : option Z) (default_port : Z) : string :=
  ":" +:+ show_Z (default default_port port).

(** A parameter after the path. *)
Definition query_part (name : string) (value : option string) : string :=
  match value with
  | Some v => "?" +:+ name +:+ "=" +:+ percent_encode_component v
  | None => EmptyString
  end.

Definition db_connection_url (c : DbRuntimeConfig) : result string string :=
  let provider := to_lowercase (db_provider c) in
  if String.eqb provider "postgres" || String.eqb provider "postgresql" then
    host ← require_value (db_host c) "MARRETA_DB_HOST" "postgres";
    name ← require_value (db_name c) "MARRETA_DB_NAME" "postgres";
    user ← require_value (db_user c) "MARRETA_DB_USER" "postgres";
    Ok ("postgres://" +:+ percent_encode_component user +:+ password_part (db_password c) +:+ "@"
        +:+ host +:+ port_part (db_port c) 5432 +:+ "/" +:+ percent_encode_path_segment name
        +:+ query_part "sslmode" (db_ssl_mode c))
  else Err ("unsupported structured db provider '" +:+ provider +:+ "'").

Definition doc_connection_url (c : DocRuntimeConfig) : result string string :=
  let provider := to_lowercase (doc_provider c) in
  if String.eqb provider "mongodb" then
    host ← require_value (doc_host c) "MARRETA_DOC_HOST" "mongodb";
    name ← require_value (doc_name c) "MARRETA_DOC_NAME" "mongodb";
    auth ← match doc_user c, doc_password c with
           | Some user, password => Ok (percent_encode_component user +:+ password_part password +:+ "@")
           | None, Some _ =>
               Err "incomplete structured doc config for provider mongodb: missing MARRETA_DOC_USER"
           | None, None => Ok EmptyString
           end;
    Ok ("mongodb://" +:+ auth +:+ host +:+ port_part (doc_port c) 27017 +:+ "/"
        +:+ percent_encode_path_segment name +:+ query_part "authSource" (doc_auth_source c))
  else Err ("unsupported structured doc provider '" +:+ provider +:+ "'").

Definition cache_connection_url (c : CacheRuntimeConfig) : result string string :=
  let provider := to_lowercase (cache_provider c) in
  if String.eqb provider "redis" then
    host ← require_value (cache_host c) "MARRETA_CACHE_HOST" "redis";
    let auth := match cache_user c, cache_password c with
                | Some user, password => percent_encode_component user +:+ password_part password +:+ "@"
                | None, Some password => ":" +:+ percent_encode_component password +:+ "@"
                | None, None => EmptyString
                end in
    let db_suffix := match cache_db c with Some v => "/" +:+ show_Z v | None => EmptyString end in
    Ok ("redis://" +:+ auth +:+ host +:+ port_part (cache_port c) 6379 +:+ db_suffix)
  else Err ("unsupported structured cache provider '" +:+ provider +:+ "'").

Definition queue_connection_url (c : QueueRuntimeConfig) : result string string :=
  let provider := to_lowercase (queue_provider c) in
  if String.eqb provider "rabbitmq" then
    host ← require_value (queue_host c) "MARRETA_QUEUE_HOST" "rabbitmq";
    user ← require_value (queue_user c) "MARRETA_QUEUE_USER" "rabbitmq";
    let auth := percent_encode_component user +:+ password_part (queue_password c) +:+ "@" in
    let vhost := default "/" (queue_vhost c) in
    let encoded_vhost := if String.eqb vhost "/" then "%2F"
                         else percent_encode_path_segment (trim_start_slashes vhost) in
    Ok ("amqp://" +:+ auth +:+ host +:+ port_part (queue_port c) 5672 +:+ "/" +:+ encoded_vhost)
  else Err ("unsupported structured queue provider '" +:+ provider +:+ "'").

(** * Reading the variables *)

(** A value with the errors that reading it pushes. *)
Definition Cfg (A : Type) : Type := (A * list string)%type.
#[local] Instance cfg_ret : MRet Cfg := fun _ a => (a, []).
#[local] Instance cfg_bind : MBind Cfg := fun _ _ k m =>
  let '(a, errors) := m in let '(b, errors') := k a in (b, errors ++ errors').

Definition parse_bool (value : option string) : option bool :=
  (fun v => negb (String.eqb (to_lowercase v) "false") && negb (String.eqb v "0")) <$> value.

(** [v.parse()] at an unsigned type, and the error it pushes. *)
Definition parse_uint (max : Z) (value : option string) (env_key : string) : Cfg (option Z) :=
  match value with
  | None => (None, [])
  | Some v =>
      match parse_u64 v with
      | Some n =>
          if (n <=? max)%Z then (Some n, [])
          else (None, ["invalid " +:+ env_key +:+ ": expected integer, got '" +:+ v +:+ "'"])
      | None => (None, ["invalid " +:+ env_key +:+ ": expected integer, got '" +:+ v +:+ "'"])
      end
  end.
Definition parse_u16_var : option string -> string -> Cfg (option Z) := parse_uint (2 ^ 16 - 1).
Definition parse_u32_var : option string -> string -> Cfg (option Z) := parse_uint (2 ^ 32 - 1).
Definition parse_u64_var : option string -> string -> Cfg (option Z) := parse_uint u64_max.

Section Load.
Variable get : string -> option string.

Definition u16_of (key : string) : Cfg (option Z) := parse_u16_var (get key) key.
Definition u32_of (key : string) : Cfg (option Z) := parse_u32_var (get key) key.
Definition u64_of (key : string) : Cfg (option Z) := parse_u64_var (get key) key.

Definition load_db_config : Cfg (option DbRuntimeConfig) :=
  match get "MARRETA_DB_PROVIDER" with
  | None => mret None
  | Some provider =>
      port ← u16_of "MARRETA_DB_PORT";
      max_connections ← u32_of "MARRETA_DB_POOL_MAX_CONNECTIONS";
      min_connections ← u32_of "MARRETA_DB_POOL_MIN_CONNECTIONS";
      acquire ← u64_of "MARRETA_DB_POOL_ACQUIRE_TIMEOUT_SECS";
      idle ← u64_of "MARRETA_DB_POOL_IDLE_TIMEOUT_SECS";
      lifetime ← u64_of "MARRETA_DB_POOL_MAX_LIFETIME_SECS";
      mret (Some (mkDbRuntimeConfig provider (get "MARRETA_DB_HOST") port (get "MARRETA_DB_NAME")
                    (get "MARRETA_DB_USER") (get "MARRETA_DB_PASSWORD") (get "MARRETA_DB_SSL_MODE")
                    max_connections min_connections acquire idle lifetime
                    (parse_bool (get "MARRETA_DB_POOL_TEST_BEFORE_ACQUIRE"))))
  end.

Definition load_doc_config : Cfg (option DocRuntimeConfig) :=
  match get "MARRETA_DOC_PROVIDER" with
  | None => mret None
  | Some provider =>
      port ← u16_of "MARRETA_DOC_PORT";
      max_connections ← u32_of "MARRETA_DOC_POOL_MAX_CONNECTIONS";
      min_connections ← u32_of "MARRETA_DOC_POOL_MIN_CONNECTIONS";
      connect ← u64_of "MARRETA_DOC_POOL_CONNECT_TIMEOUT_MS";
      selection ← u64_of "MARRETA_DOC_POOL_SERVER_SELECTION_TIMEOUT_MS";
      mret (Some (mkDocRuntimeConfig provider (get "MARRETA_DOC_HOST") port (get "MARRETA_DOC_NAME")
                    (get "MARRETA_DOC_USER") (get "MARRETA_DOC_PASSWORD")
                    (get "MARRETA_DOC_AUTH_SOURCE") max_connections min_connections connect selection))
  end.

Definition load_cache_config : Cfg (option CacheRuntimeConfig) :=
  match get "MARRETA_CACHE_PROVIDER" with
  | None => mret None
  | Some provider =>
      port ← u16_of "MARRETA_CACHE_PORT";
      db ← u32_of "MARRETA_CACHE_DB";
      default_ttl ← u64_of "MARRETA_CACHE_DEFAULT_TTL";
      pool_size ← u32_of "MARRETA_CACHE_POOL_SIZE";
      connect ← u64_of "MARRETA_CACHE_CONNECT_TIMEOUT_MS";
      operation ← u64_of "MARRETA_CACHE_OPERATION_TIMEOUT_MS";
      retries ← u32_of "MARRETA_CACHE_RECONNECT_MAX_RETRIES";
      mret (Some (mkCacheRuntimeConfig provider (get "MARRETA_CACHE_HOST") port
                    (get "MARRETA_CACHE_USER") (get "MARRETA_CACHE_PASSWORD") db
                    (default EmptyString (get "MARRETA_CACHE_PREFIX"))
                    ((fun secs => 1000 * secs)%Z <$> default_ttl) (default 10%Z pool_size)
                    (default 2000%Z connect) (default 1000%Z operation) (default 10%Z retries)))
  end.

Definition load_queue_config : Cfg (option QueueRuntimeConfig) :=
  match get "MARRETA_QUEUE_PROVIDER" with
  | None => mret None
  | Some provider =>
      port ← u16_of "MARRETA_QUEUE_PORT";
      prefetch ← u16_of "MARRETA_QUEUE_PREFETCH";
      retries ← u32_of "MARRETA_QUEUE_RECONNECT_MAX_RETRIES";
      mret (Some (mkQueueRuntimeConfig provider (get "MARRETA_QUEUE_HOST") port
                    (get "MARRETA_QUEUE_USER") (get "MARRETA_QUEUE_PASSWORD") (get "MARRETA_QUEUE_VHOST")
                    (default "marreta.topics" (get "MARRETA_TOPIC_EXCHANGE"))
                    (default 10%Z prefetch) (default 10%Z retries)))
  end.
End Load.

(** * The file *)

Definition unquote (val : string) : string :=
  match strip_prefix dquote val ≫= strip_suffix dquote with
  | Some v => v
  | None => default val (strip_prefix "'" val ≫= strip_suffix "'")
  end.

Definition read_env_line (map : gmap string string) (raw : string) : gmap string string :=
  let line := trim raw in
  if String.eqb line EmptyString || starts_with "#" line then map
  else match split_once "=" line with
       | Some (key, val) =>
           let val := trim (default EmptyString (head (split_on "#" val))) in
           <[trim key := unquote val]> map
       | None => map
       end.

(** [None]: the file cannot be read. *)
Definition read_env_file_path (content : option string) : gmap string string :=
  match content with
  | None => ∅
  | Some content => fold_left read_env_line (lines content) ∅
  end.

Section File.
Context `{HO : HashOrder}.

(** [process]: the variables of the process. *)
Definition load_from_env_file (process : gmap string string) (content : option string)
  : MarretaConfig :=
  let file_vars := read_env_file_path content in
  let merged_vars := process ∪ file_vars in
  let get := fun key => match process !! key with Some v => Some v | None => file_vars !! key end in
  let '(feature_flags, feature_errors) := load_feature_flags merged_vars in
  let '(config, errors) :=
    port ← u16_of get "MARRETA_PORT";
    db ← load_db_config get;
    doc ← load_doc_config get;
    cache ← load_cache_config get;
    queue ← load_queue_config get;
    mret (mkMarretaConfig (default "0.0.0.0" (get "MARRETA_HOST")) (default 8080%Z port)
            (default true (parse_bool (get "MARRETA_CORS"))) (default "*" (get "MARRETA_CORS_ORIGIN"))
            (default true (parse_bool (get "MARRETA_DOCS_ENABLED")))
            (default "/docs" (get "MARRETA_DOCS_PATH")) db doc cache queue feature_flags) in
  config (feature_errors ++ errors).

Definition project_env_vars (content : option string) : gmap string string :=
  read_env_file_path content.
End File.
End Urls.

Definition with_port (port : Z) (c : MarretaConfig) : MarretaConfig :=
  mkMarretaConfig (mc_host c) port (cors_enabled c) (cors_origin c) (docs_enabled c) (docs_path c)
    (mc_db c) (mc_doc c) (mc_cache c) (mc_queue c) (mc_feature_flags c) (config_errors c).

Definition first_config_error (c : MarretaConfig) : option string := head (config_errors c).

Definition feature_flag_config_errors (c : MarretaConfig) : list string :=
  List.filter (str_contains FEATURE_ENV_PREFIX) (config_errors c).

Definition first_feature_flag_config_error (c : MarretaConfig) : option string :=
  find (str_contains FEATURE_ENV_PREFIX) (config_errors c).
