(* ===== verification/OpenApi.v ===== *)
(** The OpenAPI document (src/src/openapi.rs): the schemas the routes and the
    other schemas refer to, the operation of every route with its parameters,
    request body and responses, and the whole document.  A [json!] object with
    distinct literal keys is the list of its entries; what is indexed or
    inserted into afterwards is an index map ([preserve_order]).  A [HashMap]
    becomes JSON in the order of the hash map. *)
From stdpp Require Import base list strings gmap sorting.
From Stdlib Require Import ZArith Lia.
From S2P Require Import Prelude RustStr F64 Ast IndexMap Foreign QueryTypes Value Schemas Environment Crates Auth RouteLoader Migrations ProjectRuntime IndexInference.

(** * Schema references *)

(** A reference: the name of a schema and the module that refers to it.  The
    vector [out] of the source is only pushed to: a walk returns what it
    pushes. *)
Abbreviation SchemaRef := (string * option string)%type.

Fixpoint collect_schema_type_refs (module_id : option string) (schema_type : SchemaType)
  : list SchemaRef :=
  match schema_type with
  | Reference name => [(name, module_id)]
  | TypedList inner => collect_schema_type_refs module_id inner
  | _ => []
  end.

Definition collect_nested_schema_refs (module_id : option string) (schema : SchemaDefinition)
  : list SchemaRef :=
  flat_map (fun field => collect_schema_type_refs module_id (field_type field)) (sd_fields schema).

Section SchemaRefs.
Context (module_id : option string).

Definition named_schema_ref (schema : option string) : list SchemaRef :=
  match schema with Some name => [(name, module_id)] | None => [] end.

Fixpoint collect_statement_schema_refs (s : Statement) : list SchemaRef :=
  match s with
  | SReply _ _ body response_schema _ _ _ =>
      named_schema_ref response_schema ++ collect_expression_schema_refs body
  | STransaction body _ _ | SWhile _ body _ _ | SOnQueue _ _ _ body _ _
  | SOnTopic _ _ _ body _ _ => flat_map collect_statement_schema_refs body
  | STaskDef _ _ body _ _ => collect_task_body_schema_refs body
  | SExpressionStatement e _ _ | SAssignment _ e _ _ | SConditionalAssignment _ e _ _ _
  | SFail _ e _ _ | SRaise e _ _ _ => collect_expression_schema_refs e
  | SExport inner => collect_statement_schema_refs inner
  | _ => []
  end

with collect_task_body_schema_refs (b : TaskBody) : list SchemaRef :=
  match b with
  | TInline e => collect_expression_schema_refs e
  | TBlock statements e =>
      flat_map collect_statement_schema_refs statements ++ collect_expression_schema_refs e
  end

with collect_expression_schema_refs (e : Expression) : list SchemaRef :=
  match e with
  | ESchemaConstructor schema_name fields =>
      (schema_name, module_id)
      :: flat_map (fun kv => collect_expression_schema_refs (snd kv)) fields
  | EHttpClientResponseSchema call schema_name =>
      (schema_name, module_id) :: collect_expression_schema_refs call
  | EList items => flat_map collect_expression_schema_refs items
  | EMapLiteral items => flat_map (fun kv => collect_expression_schema_refs (snd kv)) items
  | EBinaryOp l _ r => collect_expression_schema_refs l ++ collect_expression_schema_refs r
  | EUnaryOp _ operand | EPropertyAccess operand _ => collect_expression_schema_refs operand
  | EMethodCall object _ arguments =>
      collect_expression_schema_refs object ++ flat_map collect_argument_schema_refs arguments
  | EFunctionCall _ arguments => flat_map collect_argument_schema_refs arguments
  | EMatch subject arms =>
      collect_expression_schema_refs subject ++ flat_map collect_match_arm_schema_refs arms
  | EIf condition then_branch else_branch =>
      collect_expression_schema_refs condition ++ collect_task_body_schema_refs then_branch
      ++ match else_branch with Some b => collect_task_body_schema_refs b | None => [] end
  | ESubscript object key =>
      collect_expression_schema_refs object ++ collect_expression_schema_refs key
  | EPipeline input stages =>
      collect_expression_schema_refs input ++ flat_map collect_pipeline_stage_schema_refs stages
  | EBroadcast input targets =>
      collect_expression_schema_refs input ++ flat_map collect_expression_schema_refs targets
  | ERescue e handler =>
      collect_expression_schema_refs e ++ collect_expression_schema_refs handler
  | EQueuePush e schema payload | ETopicPublish e schema payload =>
      collect_expression_schema_refs e ++ named_schema_ref schema
      ++ match payload with Some p => collect_expression_schema_refs p | None => [] end
  | _ => []
  end

with collect_argument_schema_refs (a : Argument) : list SchemaRef :=
  match a with
  | Positional e | Named _ e => collect_expression_schema_refs e
  end

with collect_match_arm_schema_refs (a : MatchArm) : list SchemaRef :=
  match a with
  | mkMatchArm _ value => collect_expression_schema_refs value
  end

with collect_pipeline_stage_schema_refs (stage : PipelineStage) : list SchemaRef :=
  match stage with
  | PSExpression e => collect_expression_schema_refs e
  | PSMap _ body => flat_map collect_map_statement_schema_refs body
  | PSReduce initial _ _ body =>
      collect_expression_schema_refs initial ++ collect_task_body_schema_refs body
  | PSRescue handler => collect_rescue_handler_schema_refs handler
  end

with collect_map_statement_schema_refs (m : MapStatement) : list SchemaRef :=
  match m with
  | MStatement s => collect_statement_schema_refs s
  | MKeep value condition =>
      collect_expression_schema_refs value
      ++ match condition with Some c => collect_expression_schema_refs c | None => [] end
  | MSkip condition => collect_expression_schema_refs condition
  end

with collect_rescue_handler_schema_refs (h : RescueHandler) : list SchemaRef :=
  match h with
  | RHInline e => collect_expression_schema_refs e
  | RHBlock statements => flat_map collect_statement_schema_refs statements
  end.

Definition collect_response_schema_refs (body : list Statement) : list SchemaRef :=
  flat_map collect_statement_schema_refs body.
End SchemaRefs.

(** * Bindings of a route *)

Definition has_binding (k : TakeKind) (route : RouteDefinition) : bool :=
  existsb (fun b => bool_decide (tb_kind b = k)) (rd_take route).
Definition has_payload_binding : RouteDefinition -> bool := has_binding TKPayload.
Definition has_raw_binding : RouteDefinition -> bool := has_binding TKRaw.
Definition has_form_binding : RouteDefinition -> bool := has_binding TKForm.
Definition has_headers_binding : RouteDefinition -> bool := has_binding TKHeaders.

Definition binding_schema (route : RouteDefinition) (k : TakeKind) : option string :=
  binding_for (rd_take route) k ≫= tb_schema.

Definition collect_route_schema_refs (route : RouteDefinition) : list SchemaRef :=
  let module_id := rd_module_id route in
  (if has_payload_binding route then named_schema_ref module_id (payload_schema (rd_take route))
   else [])
  ++ flat_map (fun k => named_schema_ref module_id (binding_schema route k)) [TKQuery; TKHeaders]
  ++ collect_response_schema_refs module_id (rd_body route).

(** * The schemas of the document *)

Section Resolve.
Context `{E : Ext} `{HO : HashOrder}.
Context (registry : RouteRegistry) (runtime : option ProjectRuntime).

Definition resolve_schema_for_docs (module_id : option string) (schema_name : string)
  : option SchemaDefinition :=
  match rt ← runtime; runtime_resolve_schema rt module_id schema_name with
  | Some schema => Some schema
  | None => schemas registry !! schema_name
  end.

(** [while let Some(..) = pending.pop()]; the last element is popped first. *)
Fixpoint resolve_pending (fuel : nat) (resolved : gmap string SchemaDefinition)
    (pending : list SchemaRef) : option (gmap string SchemaDefinition) :=
  match fuel with
  | O => None
  | S fuel =>
      match last pending with
      | None => Some resolved
      | Some (schema_name, module_id) =>
          let pending := removelast pending in
          match resolved !! schema_name with
          | Some _ => resolve_pending fuel resolved pending
          | None =>
              match resolve_schema_for_docs module_id schema_name with
              | Some schema =>
                  resolve_pending fuel (<[schema_name := schema]> resolved)
                    (pending ++ collect_nested_schema_refs module_id schema)
              | None => resolve_pending fuel resolved pending
              end
          end
      end
  end.

Definition initial_pending : list SchemaRef :=
  flat_map collect_route_schema_refs (routes registry)
  ++ flat_map (fun kv => collect_nested_schema_refs None (snd kv)) (entries (schemas registry)).

(** Every definition a reference can resolve to, under its name. *)
Definition schema_candidates : list (string * SchemaDefinition) :=
  map_to_list (schemas registry)
  ++ match runtime with
     | Some rt =>
         map_to_list (pr_public_schemas rt)
         ++ flat_map (fun m => map_to_list (mr_visible_schemas (snd m))) (map_to_list (pr_modules rt))
     | None => []
     end.

(** Enough iterations: one for each pending reference and for each reference
    a definition can add, and one that finds nothing pending. *)
Definition resolve_fuel : nat :=
  S (length initial_pending + sum_of (fun kv => length (sd_fields (snd kv))) schema_candidates).

Definition resolve_all_schema_defs : option (gmap string SchemaDefinition) :=
  resolve_pending resolve_fuel (schemas registry) initial_pending.
End Resolve.

(** * JSON schemas *)

Definition jobj : list (string * Json) -> Json := JObject.
Definition jstr : string -> Json := JString.

(** [j[key] = v], on an object or a null; the document indexes nothing else,
    which panics. *)
Definition json_set (key : string) (v : Json) (j : Json) : Json :=
  match j with
  | JObject entries => JObject (IM.insert key v entries)
  | JNull => JObject [(key, v)]
  | j => j
  end.

Definition schema_path (name : string) : string := "#/components/schemas/" +:+ name.

Fixpoint schema_type_to_openapi (t : SchemaType) : Json :=
  match t with
  | StringType => jobj [("type", jstr "string")]
  | IntegerType => jobj [("type", jstr "integer"); ("format", jstr "int64")]
  | FloatType => jobj [("type", jstr "number"); ("format", jstr "float")]
  | DecimalType => jobj [("type", jstr "string"); ("format", jstr "decimal")]
  | BooleanType => jobj [("type", jstr "boolean")]
  | InstantType => jobj [("type", jstr "string"); ("format", jstr "date-time")]
  | DateType => jobj [("type", jstr "string"); ("format", jstr "date")]
  | TimeType => jobj [("type", jstr "string"); ("format", jstr "time")]
  | DurationType => jobj [("type", jstr "string"); ("format", jstr "duration")]
  | IntervalType =>
      jobj [("type", jstr "object");
            ("properties", jobj [("start", jobj [("type", jstr "string")]);
                                 ("end", jobj [("type", jstr "string")])]);
            ("required", JArray [jstr "start"; jstr "end"])]
  | ListType => jobj [("type", jstr "array")]
  | MapType => jobj [("type", jstr "object")]
  | EnumType values => jobj [("type", jstr "string"); ("enum", JArray (map jstr values))]
  | Reference name => jobj [("$ref", jstr (schema_path name))]
  | TypedList inner => jobj [("type", jstr "array"); ("items", schema_type_to_openapi inner)]
  end.

Section SchemaJson.
Context `{HO : HashOrder}.

Definition schema_properties (schema_def : SchemaDefinition) : gmap string Json :=
  fold_left (fun properties field =>
      <[sf_name field := schema_type_to_openapi (field_type field)]> properties)
    (sd_fields schema_def) ∅.

Definition required_fields (schema_def : SchemaDefinition) : list string :=
  map sf_name (List.filter (fun field => negb (optional field)) (sd_fields schema_def)).

Definition schema_definition_to_openapi (schema_def : SchemaDefinition) : Json :=
  let schema_obj := jobj [("type", jstr "object");
                          ("properties", jobj (entries (schema_properties schema_def)))] in
  match required_fields schema_def with
  | [] => schema_obj
  | required => json_set "required" (JArray (map jstr required)) schema_obj
  end.

Definition build_component_schemas (resolved_defs : gmap string SchemaDefinition)
  : gmap string Json :=
  schema_definition_to_openapi <$> resolved_defs.
End SchemaJson.

Definition generic_json_object_schema : Json := jobj [("type", jstr "object")].
Definition free_form_json_object_schema : Json :=
  jobj [("type", jstr "object"); ("additionalProperties", JBool true)].

Definition schema_ref_or_fallback (component_names : gset string) (schema_name : string) : Json :=
  if decide (schema_name ∈ component_names) then jobj [("$ref", jstr (schema_path schema_name))]
  else jobj [("type", jstr "object"); ("x-marreta-unresolved-schema", jstr schema_name)].

(** [serde_json::Value: PartialEq]; two objects are equal as maps. *)
Fixpoint json_eqb (a b : Json) : bool :=
  match a, b with
  | JNull, JNull => true
  | JBool a, JBool b => Bool.eqb a b
  | JNumber (PosInt a), JNumber (PosInt b) | JNumber (NegInt a), JNumber (NegInt b) => Z.eqb a b
  | JNumber (JFloat a), JNumber (JFloat b) => f64_eqb a b
  | JString a, JString b => String.eqb a b
  | JArray a, JArray b =>
      (fix go a b := match a, b with
                     | [], [] => true
                     | x :: a, y :: b => json_eqb x y && go a b
                     | _, _ => false
                     end) a b
  | JObject a, JObject b =>
      Nat.eqb (length a) (length b)
      && forallb (fun kv => match IM.get (fst kv) b with
                            | Some y => json_eqb (snd kv) y
                            | None => false
                            end) a
  | _, _ => false
  end.

(** The schema all the items share, from the schemas inferred for them. *)
Definition infer_list_item_schema (item_schemas : list Json) : Json :=
  match item_schemas with
  | [] => jobj []
  | first_schema :: rest =>
      if forallb (fun item => json_eqb item first_schema) rest then first_schema else jobj []
  end.

Section Infer.
Context (component_names : gset string).

Fixpoint infer_expression_schema (e : Expression) : Json :=
  match e with
  | EStringLiteral _ => jobj [("type", jstr "string")]
  | EInteger _ => jobj [("type", jstr "integer"); ("format", jstr "int64")]
  | EFloat _ => jobj [("type", jstr "number"); ("format", jstr "float")]
  | EBoolean _ => jobj [("type", jstr "boolean")]
  | ENull => jobj [("nullable", JBool true)]
  | EList items =>
      jobj [("type", jstr "array");
            ("items", infer_list_item_schema (map infer_expression_schema items))]
  | EMapLiteral items =>
      let properties :=
        IM.from_pairs (map (fun kv => (fst kv, infer_expression_schema (snd kv))) items) in
      jobj [("type", jstr "object"); ("properties", jobj properties)]
  | ESchemaConstructor schema_name _ => schema_ref_or_fallback component_names schema_name
  | EFunctionCall name (_ :: _) =>
      if String.eqb name "decimal" then jobj [("type", jstr "string"); ("format", jstr "decimal")]
      else generic_json_object_schema
  | _ => generic_json_object_schema
  end.
End Infer.

(** * The outcomes of a route *)

Record ResponseSpec : Type := mkResponseSpec {
  rs_code : option Z;
  rs_schema_name : option string;
  rs_content_type : ReplyContentType;
  rs_body : Expression;
}.

Record RouteOutcomes : Type := mkRouteOutcomes {
  ro_responses : list ResponseSpec;
  ro_error_codes : list Z;
}.

Definition push_response (r : ResponseSpec) (o : RouteOutcomes) : RouteOutcomes :=
  mkRouteOutcomes (ro_responses o ++ [r]) (ro_error_codes o).
Definition push_error (code : Z) (o : RouteOutcomes) : RouteOutcomes :=
  mkRouteOutcomes (ro_responses o) (ro_error_codes o ++ [code]).

(** [outcomes] passed along a list, and to a part that may be missing. *)
Notation each f l o := (fold_left (fun acc x => f x acc) l o).

Definition literal_status_code (e : Expression) : option Z :=
  match e with
  | EInteger n => if (100 <=? n)%Z && (n <=? 599)%Z then Some (to_u16 n) else None
  | _ => None
  end.

(** The code of a call of [__fail__]. *)
Definition push_fail_call (name : string) (arguments : list Argument) (o : RouteOutcomes)
  : RouteOutcomes :=
  match arguments with
  | Positional (EInteger code) :: _ =>
      if String.eqb name "__fail__" then push_error (to_u16 code) o else o
  | _ => o
  end.

Fixpoint collect_statement_outcomes (s : Statement) (o : RouteOutcomes) : RouteOutcomes :=
  match s with
  | SReply status_code content_type body response_schema _ _ _ =>
      push_response (mkResponseSpec (literal_status_code status_code) response_schema
                       content_type body) o
  | SFail status_code _ _ _ | SRequire _ status_code _ _ _ | SReject _ status_code _ _ _ =>
      push_error (to_u16 status_code) o
  | SRaise _ _ _ _ => push_error 500 o
  | SExport inner => collect_statement_outcomes inner o
  | STransaction body _ _ | SWhile _ body _ _ | SOnQueue _ _ _ body _ _
  | SOnTopic _ _ _ body _ _ => each collect_statement_outcomes body o
  | STaskDef _ _ body _ _ => collect_task_body_outcomes body o
  | SExpressionStatement e _ _ | SAssignment _ e _ _ | SConditionalAssignment _ e _ _ _ =>
      collect_expression_outcomes e o
  | _ => o
  end

with collect_task_body_outcomes (b : TaskBody) (o : RouteOutcomes) : RouteOutcomes :=
  match b with
  | TInline e => collect_expression_outcomes e o
  | TBlock statements e =>
      collect_expression_outcomes e (each collect_statement_outcomes statements o)
  end

with collect_expression_outcomes (e : Expression) (o : RouteOutcomes) : RouteOutcomes :=
  match e with
  | EIf condition then_branch else_branch =>
      let o := collect_task_body_outcomes then_branch (collect_expression_outcomes condition o) in
      match else_branch with Some b => collect_task_body_outcomes b o | None => o end
  | EPipeline input stages =>
      each collect_pipeline_stage_outcomes stages (collect_expression_outcomes input o)
  | ERescue e handler => collect_expression_outcomes handler (collect_expression_outcomes e o)
  | EList items => each collect_expression_outcomes items o
  | EMapLiteral items | ESchemaConstructor _ items =>
      fold_left (fun o kv => collect_expression_outcomes (snd kv) o) items o
  | EBinaryOp l _ r => collect_expression_outcomes r (collect_expression_outcomes l o)
  | EUnaryOp _ operand | EPropertyAccess operand _ => collect_expression_outcomes operand o
  | EMethodCall object _ arguments =>
      each collect_argument_outcomes arguments (collect_expression_outcomes object o)
  | EHttpClientResponseSchema call _ => collect_expression_outcomes call o
  | EFunctionCall name arguments =>
      each collect_argument_outcomes arguments (push_fail_call name arguments o)
  | EMatch subject arms =>
      each collect_match_arm_outcomes arms (collect_expression_outcomes subject o)
  | ESubscript object key => collect_expression_outcomes key (collect_expression_outcomes object o)
  | EBroadcast input targets =>
      each collect_expression_outcomes targets (collect_expression_outcomes input o)
  | EQueuePush e _ payload | ETopicPublish e _ payload =>
      let o := collect_expression_outcomes e o in
      match payload with Some p => collect_expression_outcomes p o | None => o end
  | _ => o
  end

with collect_argument_outcomes (a : Argument) (o : RouteOutcomes) : RouteOutcomes :=
  match a with
  | Positional e | Named _ e => collect_expression_outcomes e o
  end

with collect_match_arm_outcomes (a : MatchArm) (o : RouteOutcomes) : RouteOutcomes :=
  match a with
  | mkMatchArm _ value => collect_expression_outcomes value o
  end

with collect_pipeline_stage_outcomes (stage : PipelineStage) (o : RouteOutcomes) : RouteOutcomes :=
  match stage with
  | PSExpression e => collect_expression_outcomes e o
  | PSMap _ body => each collect_map_statement_outcomes body o
  | PSReduce initial _ _ body =>
      collect_task_body_outcomes body (collect_expression_outcomes initial o)
  | PSRescue handler => collect_rescue_handler_outcomes handler o
  end

with collect_map_statement_outcomes (m : MapStatement) (o : RouteOutcomes) : RouteOutcomes :=
  match m with
  | MStatement s => collect_statement_outcomes s o
  | MKeep value condition =>
      let o := collect_expression_outcomes value o in
      match condition with Some c => collect_expression_outcomes c o | None => o end
  | MSkip condition => collect_expression_outcomes condition o
  end

with collect_rescue_handler_outcomes (h : RescueHandler) (o : RouteOutcomes) : RouteOutcomes :=
  match h with
  | RHInline e => collect_expression_outcomes e o
  | RHBlock statements => each collect_statement_outcomes statements o
  end.

Definition response_key (r : ResponseSpec) : string :=
  match rs_code r with Some code => show_Z code | None => "default" end.

(** The responses whose key was not seen, [retain]. *)
Fixpoint first_responses (seen : gset string) (l : list ResponseSpec) : list ResponseSpec :=
  match l with
  | [] => []
  | r :: l =>
      if decide (response_key r ∈ seen) then first_responses seen l
      else r :: first_responses ({[ response_key r ]} ∪ seen) l
  end.

Definition dedupe_outcomes (o : RouteOutcomes) : RouteOutcomes :=
  mkRouteOutcomes (first_responses ∅ (ro_responses o)) (dedup (merge_sort Z.le (ro_error_codes o))).

Definition collect_route_outcomes (body : list Statement) : RouteOutcomes :=
  dedupe_outcomes (each collect_statement_outcomes body (mkRouteOutcomes [] [])).

Definition status_description (code : Z) : string :=
  if (code =? 200)%Z then "Success" else if (code =? 201)%Z then "Created"
  else if (code =? 202)%Z then "Accepted" else if (code =? 204)%Z then "No Content"
  else if (code =? 301)%Z then "Moved Permanently" else if (code =? 302)%Z then "Found"
  else if (code =? 400)%Z then "Bad Request" else if (code =? 401)%Z then "Unauthorized"
  else if (code =? 403)%Z then "Forbidden" else if (code =? 404)%Z then "Not Found"
  else if (code =? 405)%Z then "Method Not Allowed" else if (code =? 409)%Z then "Conflict"
  else if (code =? 410)%Z then "Gone" else if (code =? 422)%Z then "Unprocessable Entity"
  else if (code =? 429)%Z then "Too Many Requests"
  else if (code =? 500)%Z then "Internal Server Error"
  else if (code =? 503)%Z then "Service Unavailable" else "Response".

(** * Operations *)

(** [entry(key).or_insert(v)]. *)
Definition or_insert (key : string) (v : Json) (m : list (string * Json)) : list (string * Json) :=
  if IM.contains_key key m then m else IM.insert key v m.

Definition text_schema : Json := jobj [("type", jstr "string")].

Definition content_of (media_type : string) (schema : Json) : Json :=
  jobj [(media_type, jobj [("schema", schema)])].

Definition response_to_openapi (component_names : gset string) (response : ResponseSpec) : Json :=
  let description :=
    match rs_code response with
    | Some code => status_description code
    | None => "Dynamic response status"
    end in
  let content :=
    match rs_content_type response with
    | RJson =>
        content_of "application/json"
          match rs_schema_name response with
          | Some name => schema_ref_or_fallback component_names name
          | None => infer_expression_schema component_names (rs_body response)
          end
    | RHtml => content_of "text/html" text_schema
    | RText => content_of "text/plain" text_schema
    end in
  let obj := jobj [("description", jstr description); ("content", content)] in
  match rs_code response with
  | Some _ => obj
  | None => json_set "x-marreta-dynamic-status" (JBool true) obj
  end.

Definition described (description : string) : Json := jobj [("description", jstr description)].

Definition path_parameters (path : string) : list Json :=
  flat_map (fun segment =>
    match strip_prefix ":" segment with
    | Some param_name =>
        [jobj [("name", jstr param_name); ("in", jstr "path"); ("required", JBool true);
               ("schema", text_schema)]]
    | None => []
    end) (split_on "/" path).

Definition is_list_type (t : SchemaType) : bool :=
  match t with TypedList _ | ListType => true | _ => false end.

Definition field_parameter (location : string) (field : SchemaField) : Json :=
  let param := jobj [("name", jstr (sf_name field)); ("in", jstr location);
                     ("required", JBool (negb (optional field)));
                     ("schema", schema_type_to_openapi (field_type field))] in
  if is_list_type (field_type field) then
    json_set "explode" (JBool true) (json_set "style" (jstr "form") param)
  else param.

Definition schema_parameters (resolved_defs : gmap string SchemaDefinition)
    (route : RouteDefinition) (k : TakeKind) (location : string) : list Json :=
  match schema_name ← binding_schema route k; resolved_defs !! schema_name with
  | Some schema_def => map (field_parameter location) (sd_fields schema_def)
  | None => []
  end.

Definition operation_parameters (resolved_defs : gmap string SchemaDefinition)
    (route : RouteDefinition) : list Json :=
  path_parameters (rd_path route)
  ++ schema_parameters resolved_defs route TKQuery "query"
  ++ schema_parameters resolved_defs route TKHeaders "header".

(** Whether a binding of the route is validated by a schema. *)
Definition has_schema_binding (route : RouteDefinition) : bool :=
  (has_payload_binding route
   && match payload_schema (rd_take route) with Some _ => true | None => false end)
  || match binding_schema route TKQuery with Some _ => true | None => false end
  || match binding_schema route TKHeaders with Some _ => true | None => false end.

Definition insert_response (component_names : gset string) (responses : list (string * Json))
    (response : ResponseSpec) : list (string * Json) :=
  or_insert (response_key response) (response_to_openapi component_names response) responses.

Definition insert_error_code (responses : list (string * Json)) (code : Z)
  : list (string * Json) :=
  or_insert (show_Z code) (described (status_description code)) responses.

Definition operation_responses (component_names : gset string) (route : RouteDefinition)
  : list (string * Json) :=
  let outcomes := collect_route_outcomes (rd_body route) in
  let responses := fold_left (insert_response component_names) (ro_responses outcomes) [] in
  let responses := fold_left insert_error_code (ro_error_codes outcomes) responses in
  let responses :=
    match rd_auth route with
    | Some _ => or_insert "401" (described "Unauthorized") responses
    | None => responses
    end in
  let responses :=
    match rd_allow route with
    | [] => responses
    | _ => or_insert "403" (described "Forbidden") responses
    end in
  let responses :=
    if has_schema_binding route then or_insert "422" (described "Unprocessable Entity") responses
    else responses in
  match responses with
  | [] => [("200", jobj [("description", jstr "Success");
                         ("content", content_of "application/json" generic_json_object_schema)])]
  | _ => responses
  end.

Definition build_operation (component_names : gset string)
    (resolved_defs : gmap string SchemaDefinition) (tag : string) (route : RouteDefinition)
  : Json :=
  let op := jobj [("tags", JArray [jstr tag]);
                  ("responses", jobj (operation_responses component_names route))] in
  let op :=
    match operation_parameters resolved_defs route with
    | [] => op
    | parameters => json_set "parameters" (JArray parameters) op
    end in
  match rd_auth route with
  | Some auth => json_set "security" (JArray [jobj [(ra_provider auth, JArray [])]]) op
  | None => op
  end.

Definition required_body (content : Json) : Json :=
  jobj [("required", JBool true); ("content", content)].

Definition build_request_body (component_names : gset string) (route : RouteDefinition)
  : option Json :=
  if has_payload_binding route then
    let schema :=
      match payload_schema (rd_take route) with
      | Some name => schema_ref_or_fallback component_names name
      | None => free_form_json_object_schema
      end in
    Some (required_body (content_of "application/json" schema))
  else if has_raw_binding route then Some (required_body (content_of "text/plain" text_schema))
  else if has_form_binding route then
    Some (required_body (content_of "application/x-www-form-urlencoded" generic_json_object_schema))
  else None.

(** * Names *)

Definition verb_str (verb : HttpVerb) : string :=
  match verb with
  | VGet => "get" | VPost => "post" | VPut => "put" | VPatch => "patch" | VDelete => "delete"
  end.

Definition normalize_operation_id_segment (segment : string) : string :=
  of_chars (map (fun c => if is_ascii_alphanumeric c then to_ascii_lowercase_char c else ch "_")
              (chars segment)).

Fixpoint collapse_from (previous_underscore : bool) (l : list N) : list N :=
  match l with
  | [] => []
  | c :: l =>
      if (c =? ch "_")%N then
        if previous_underscore then collapse_from true l else c :: collapse_from true l
      else c :: collapse_from false l
  end.

Definition collapse_underscores (input : string) : string :=
  of_chars (trim_matches (ch "_") (collapse_from false (chars input))).

Definition operation_id_segment (segment : string) : string :=
  "_" +:+ match strip_prefix ":" segment with
          | Some param => "by_" +:+ normalize_operation_id_segment param
          | None => normalize_operation_id_segment segment
          end.

Definition is_nonempty (s : string) : bool := negb (String.eqb s EmptyString).

(** The identifier before repetitions are told apart. *)
Definition base_operation_id (route : RouteDefinition) : string :=
  collapse_underscores
    (fold_left (fun id segment => id +:+ operation_id_segment segment)
       (List.filter is_nonempty (split_on "/" (rd_path route))) (verb_str (rd_verb route))).

Definition operation_id (route : RouteDefinition) (seen : gmap string nat)
  : string * gmap string nat :=
  let id := base_operation_id route in
  let count := S (default 0 (seen !! id)) in
  (if Nat.eqb count 1 then id else id +:+ "_" +:+ show_nat count, <[id := count]> seen).

Definition openapi_segment (seg : string) : string :=
  match strip_prefix ":" seg with
  | Some name => "{" +:+ name +:+ "}"
  | None => seg
  end.

Definition to_openapi_path (path : string) : string :=
  join "/" (map openapi_segment (split_on "/" path)).

Definition extract_string_literal (e : Expression) : option string :=
  match e with EStringLiteral s => Some s | _ => None end.

Section Security.
Context `{AH : AuthHost}.

Definition expression_to_static_string (e : Expression) : option string :=
  match e with
  | EStringLiteral value => Some value
  | EPropertyAccess (EIdentifier name) property =>
      if String.eqb name "env" then env_var property else None
  | _ => None
  end.

Definition security_scheme (provider : AuthProvider Expression) : Json :=
  match provider with
  | Jwt _ =>
      jobj [("type", jstr "http"); ("scheme", jstr "bearer"); ("bearerFormat", jstr "JWT")]
  | ApiKey config =>
      let header :=
        default "api-key"
          (field ← find (fun field => String.eqb (apf_name field) "header") (apc_fields config);
           expression_to_static_string (apf_value field)) in
      jobj [("type", jstr "apiKey"); ("in", jstr "header"); ("name", jstr header)]
  end.

Definition build_security_schemes (auth_providers : gmap string (AuthProvider Expression))
  : gmap string Json :=
  security_scheme <$> auth_providers.
End Security.

(** * The document *)

Section Document.
Context `{E : Ext} `{C : !Crates E} `{HO : HashOrder} `{AH : AuthHost}.

Definition tag_word (word : string) : string :=
  match chars word with
  | [] => EmptyString
  | first :: rest => to_uppercase (of_chars [first]) +:+ of_chars rest
  end.

Definition stem_to_tag (stem : string) : string := join " " (map tag_word (split_on "_" stem)).

Record DocState : Type := mkDocState {
  ds_paths : gmap string Json;
  ds_tag_names : list string;
  ds_operation_ids : gmap string nat;
}.

Definition route_tag (title : string) (route : RouteDefinition) : string :=
  match rd_source_file route with Some stem => stem_to_tag stem | None => title end.

(** The whole operation object of a route. *)
Definition route_operation (component_names : gset string)
    (resolved_defs : gmap string SchemaDefinition) (title id : string) (route : RouteDefinition)
  : Json :=
  let operation := build_operation component_names resolved_defs (route_tag title route) route in
  let operation := json_set "operationId" (jstr id) operation in
  let operation :=
    match build_request_body component_names route with
    | Some request_body => json_set "requestBody" request_body operation
    | None => operation
    end in
  if has_headers_binding route then
    json_set "x-marreta-bindings" (jobj [("headers", JBool true)]) operation
  else operation.

Definition add_route (component_names : gset string)
    (resolved_defs : gmap string SchemaDefinition) (title : string) (st : DocState)
    (route : RouteDefinition) : DocState :=
  let openapi_path := to_openapi_path (rd_path route) in
  let tag := route_tag title route in
  let tag_names :=
    if decide (tag ∈ ds_tag_names st) then ds_tag_names st else ds_tag_names st ++ [tag] in
  let '(id, operation_ids) := operation_id route (ds_operation_ids st) in
  let operation := route_operation component_names resolved_defs title id route in
  let path_entry := default (jobj []) (ds_paths st !! openapi_path) in
  mkDocState (<[openapi_path := json_set (verb_str (rd_verb route)) operation path_entry]>
                (ds_paths st))
    tag_names operation_ids.

Definition consumer_to_openapi (c : ConsumerDefinition) : Json :=
  let target := default "<dynamic>" (extract_string_literal (cd_target c)) in
  let obj := match cd_kind c with
             | QueueConsumer => jobj [("kind", jstr "queue"); ("target", jstr target)]
             | TopicConsumer => jobj [("kind", jstr "topic"); ("pattern", jstr target)]
             end in
  match cd_schema c with
  | Some schema => json_set "schema" (jstr schema) obj
  | None => obj
  end.

Definition document_routes (registry : RouteRegistry)
    (resolved_defs : gmap string SchemaDefinition) (title : string) : DocState :=
  fold_left (add_route (dom (build_component_schemas resolved_defs)) resolved_defs title)
    (routes registry) (mkDocState ∅ [] ∅).

Definition map_nonempty {V} (m : gmap string V) : bool := negb (bool_decide (m = ∅)).

Definition add_components (components_schemas security_schemes : gmap string Json) (spec : Json)
  : Json :=
  if map_nonempty components_schemas || map_nonempty security_schemes then
    let components := jobj [] in
    let components :=
      if map_nonempty components_schemas
      then json_set "schemas" (jobj (entries components_schemas)) components else components in
    let components :=
      if map_nonempty security_schemes
      then json_set "securitySchemes" (jobj (entries security_schemes)) components
      else components in
    json_set "components" components spec
  else spec.

Definition add_consumers (consumers : list ConsumerDefinition) (spec : Json) : Json :=
  match consumers with
  | [] => spec
  | _ => json_set "x-marreta-consumers" (JArray (map consumer_to_openapi consumers)) spec
  end.

(** The document of the resolved schemas. *)
Definition document (registry : RouteRegistry) (resolved_defs : gmap string SchemaDefinition)
    (title version : string) : Json :=
  let st := document_routes registry resolved_defs title in
  let tag_names := match ds_tag_names st with [] => [title] | names => names end in
  let spec := jobj [("openapi", jstr "3.0.3");
                    ("info", jobj [("title", jstr title); ("version", jstr version)]);
                    ("tags", JArray (map (fun n => jobj [("name", jstr n)]) tag_names));
                    ("paths", jobj (entries (ds_paths st)))] in
  let spec := add_components (build_component_schemas resolved_defs)
                (build_security_schemes (auth_providers registry)) spec in
  add_consumers (consumers registry) spec.

Definition build_inner (registry : RouteRegistry) (runtime : option ProjectRuntime)
    (title version : string) : option string :=
  resolved_defs ← resolve_all_schema_defs registry runtime;
  Some (json_show_pretty (document registry resolved_defs title version)).

Definition build (registry : RouteRegistry) (title version : string) : option string :=
  build_inner registry None title version.

Definition build_with_runtime (registry : RouteRegistry) (runtime : ProjectRuntime)
    (title version : string) : option string :=
  build_inner registry (Some runtime) title version.
End Document.
