(* ===== verification/OpenApiOperation.v ===== *)
(** What an operation of the OpenAPI document holds, stated apart from the code
    that builds it (OpenApi.v): its identifier as the words of the path, its
    parameters, its request body and the statuses a route can answer. *)
From stdpp Require Import base list strings gmap sorting.
From Stdlib Require Import ZArith Lia.
From S2P Require Import Prelude RustStr F64 Ast IndexMap Foreign QueryTypes Value Schemas Environment Crates Auth RouteLoader RouteFacts Migrations ProjectRuntime IndexInference IndexFacts OpenApi.

(** * Identifiers *)

(** The maximal runs of ASCII letters and digits, in lower case; [cur] is the
    run being read. *)
Fixpoint alnum_runs (cur : list N) (l : list N) : list (list N) :=
  match l with
  | [] => match cur with [] => [] | _ => [cur] end
  | c :: l =>
      if is_ascii_alphanumeric c then alnum_runs (cur ++ [to_ascii_lowercase_char c]) l
      else match cur with [] => alnum_runs [] l | _ => cur :: alnum_runs [] l end
  end.

(** The words of a segment; those of a parameter follow the word [by]. *)
Definition segment_words (segment : string) : list (list N) :=
  match strip_prefix ":" segment with
  | Some name => bytes "by" :: alnum_runs [] (chars name)
  | None => alnum_runs [] (chars segment)
  end.

Fixpoint joined (words : list (list N)) : list N :=
  match words with
  | [] => []
  | [word] => word
  | word :: words => word ++ ch "_" :: joined words
  end.

(** The verb in lower case. *)
Definition method_of (route : RouteDefinition) : string :=
  to_ascii_lowercase (show_verb (rd_verb route)).

Lemma verb_str_method route : verb_str (rd_verb route) = method_of route.
Proof. unfold method_of. by destruct (rd_verb route). Qed.

(** The name of a route: its verb and the words of its path, joined by
    underscores. *)
Definition route_name (route : RouteDefinition) : string :=
  of_chars (joined (bytes (method_of route)
                    :: flat_map segment_words (split_on "/" (rd_path route)))).

(** The identifier of a route that follows others: its name, and its number
    among the routes of that name from the second on. *)
Definition route_identifier (earlier : list RouteDefinition) (route : RouteDefinition) : string :=
  match length (filter (fun r => route_name r = route_name route) earlier) with
  | O => route_name route
  | S n => route_name route +:+ "_" +:+ show_nat (S (S n))
  end.

Definition id_char (c : N) : N :=
  if is_ascii_alphanumeric c then to_ascii_lowercase_char c else ch "_".

Lemma alnum_lowercase c : is_ascii_alphanumeric c = true ->
  (to_ascii_lowercase_char c =? ch "_")%N = false /\ (to_ascii_lowercase_char c < 128)%N.
Proof.
  unfold is_ascii_alphanumeric, is_ascii_alphabetic, to_ascii_lowercase_char, is_ascii_uppercase,
    is_ascii_lowercase, is_ascii_digit, between. intros Hc.
  change (ch "A") with 65%N in *. change (ch "Z") with 90%N in *. change (ch "a") with 97%N in *.
  change (ch "z") with 122%N in *. change (ch "0") with 48%N in *. change (ch "9") with 57%N in *.
  change (ch "_") with 95%N. rewrite N.eqb_neq.
  destruct ((65 <=? c)%N && (c <=? 90)%N) eqn:Hu;
    rewrite ?orb_true_iff, ?andb_true_iff, ?andb_false_iff, ?N.leb_le, ?N.leb_gt in *; lia.
Qed.

Lemma id_char_ascii c : (id_char c <? 128)%N = true.
Proof.
  unfold id_char. destruct (is_ascii_alphanumeric c) eqn:Hc; [| done].
  apply N.ltb_lt, alnum_lowercase, Hc.
Qed.

Definition is_word (w : list N) : Prop := w <> [] /\ Forall (fun c => (c =? ch "_")%N = false) w.

Lemma alnum_runs_words l : forall cur, Forall (fun c => (c =? ch "_")%N = false) cur ->
  Forall is_word (alnum_runs cur l).
Proof.
  induction l as [|c l IH]; intros cur Hcur; cbn.
  - destruct cur; [done |]. by apply Forall_singleton.
  - destruct (is_ascii_alphanumeric c) eqn:Hc.
    + apply IH, Forall_app. split; [done |]. apply Forall_singleton. by apply alnum_lowercase.
    + destruct cur; [by apply IH |]. apply Forall_cons. split; [done | by apply IH].
Qed.

Lemma alnum_runs_nonnil l : forall cur, cur <> [] -> alnum_runs cur l <> [].
Proof.
  induction l as [|c l IH]; intros cur Hcur; cbn; [by destruct cur |].
  destruct (is_ascii_alphanumeric c); [apply IH; by destruct cur | by destruct cur].
Qed.

Lemma alnum_runs_sep a b : forall cur,
  alnum_runs cur (a ++ ch "_" :: b) = alnum_runs cur a ++ alnum_runs [] b.
Proof.
  induction a as [|c a IH]; intros cur; cbn; [by destruct cur |].
  destruct (is_ascii_alphanumeric c); [apply IH |].
  destruct cur; [apply IH | by rewrite IH].
Qed.

(** Collapsing the underscores of a text that begins with a letter joins its
    words, but for an underscore at the end. *)
Lemma collapse_runs l :
  (forall cur, cur <> [] -> exists t, (t = [] \/ t = [ch "_"]) /\
     cur ++ collapse_from false (map id_char l) = joined (alnum_runs cur l) ++ t)
  /\ (exists t, (t = [] \/ t = [ch "_"]) /\
     collapse_from true (map id_char l)
     = match alnum_runs [] l with [] => [] | words => joined words ++ t end).
Proof.
  induction l as [|c l [IH1 IH2]].
  - split; [intros [|d cur] Hcur; [done |] |]; exists []; (split; [by left |]); cbn; by rewrite ?app_nil_r.
  - cbn [map collapse_from alnum_runs]. destruct (is_ascii_alphanumeric c) eqn:Hc.
    + assert (id_char c = to_ascii_lowercase_char c) as -> by (unfold id_char; by rewrite Hc).
      destruct (alnum_lowercase _ Hc) as [-> _]. split.
      * intros cur _. destruct (IH1 (cur ++ [to_ascii_lowercase_char c])) as (t & Ht & Heq).
        { by destruct cur. }
        exists t. split; [done |]. by rewrite <- Heq, <- app_assoc.
      * destruct (IH1 [to_ascii_lowercase_char c]) as (t & Ht & Heq); [done |].
        exists t. split; [done |]. cbn [app] in *. rewrite Heq.
        destruct (alnum_runs [to_ascii_lowercase_char c] l) eqn:Hr; [| done].
        by apply alnum_runs_nonnil in Hr.
    + assert (id_char c = ch "_") as -> by (unfold id_char; by rewrite Hc).
      rewrite N.eqb_refl. split; [| exact IH2].
      intros [|d cur] Hcur; [done |]. destruct IH2 as (t & Ht & ->).
      destruct (alnum_runs [] l) as [|w ws]; [exists [ch "_"]; split; [by right | done] |].
      exists t. split; [done |]. cbn [joined]. by rewrite <- app_assoc.
Qed.

Lemma drop_while_keeps l c : head l = Some c -> (c =? ch "_")%N = false ->
  drop_while (N.eqb (ch "_")) l = l.
Proof. destruct l as [|d l]; [done |]. intros [= ->] Hc. cbn [drop_while]. by rewrite N.eqb_sym, Hc. Qed.

Lemma trim_underscores l c d t :
  head l = Some c -> last l = Some d -> (c =? ch "_")%N = false -> (d =? ch "_")%N = false ->
  (t = [] \/ t = [ch "_"]) -> trim_matches (ch "_") (l ++ t) = l.
Proof.
  intros Hc Hd Wc Wd Ht. unfold trim_matches.
  rewrite (drop_while_keeps (l ++ t) c) by (done || by destruct l).
  assert (Hrev : drop_while (N.eqb (ch "_")) (rev l) = rev l).
  { apply (drop_while_keeps _ d); [| done]. apply last_Some in Hd as [l' ->].
    by rewrite rev_app_distr. }
  rewrite rev_app_distr. destruct Ht as [-> | ->]; cbn [rev app drop_while];
    rewrite ?N.eqb_refl, Hrev; apply rev_involutive.
Qed.

Lemma joined_ends words :
  words <> [] -> Forall is_word words ->
  exists c d, head (joined words) = Some c /\ last (joined words) = Some d
    /\ (c =? ch "_")%N = false /\ (d =? ch "_")%N = false.
Proof.
  induction words as [|w words IH]; [done |]. intros _ [[Hne Hw] Hws]%Forall_cons.
  assert (Hhead : forall k, exists c, head (w ++ k) = Some c /\ (c =? ch "_")%N = false).
  { intros k. destruct w as [|c w]; [done |]. exists c. split; [done |]. by apply Forall_cons in Hw as [? _]. }
  destruct words as [|v words].
  - cbn. destruct (Hhead []) as (c & Hc & Wc). rewrite app_nil_r in Hc.
    destruct (last w) as [d|] eqn:Hd; [| by apply last_None in Hd].
    exists c, d. split_and!; [done.. |]. rewrite Forall_forall in Hw. apply Hw.
    by apply last_Some_elem_of.
  - destruct (Hhead (ch "_" :: joined (v :: words))) as (c & Hc & Wc).
    destruct IH as (_ & d & _ & Hd & _ & Wd); [done.. |].
    exists c, d. change (joined (w :: v :: words)) with (w ++ ch "_" :: joined (v :: words)).
    split_and!; [done | | done..]. rewrite last_app, last_cons, Hd. done.
Qed.

(** ** The identifier of the code *)

Lemma bytes_of_chars l : forallb (fun c => (c <? 128)%N) l = true -> bytes (of_chars l) = l.
Proof.
  induction l as [|c l IH]; [done |]. cbn [forallb]. intros [Hc Hl]%andb_true_iff.
  change (of_chars (c :: l)) with (encode_char c (of_chars l)). unfold encode_char. rewrite Hc.
  cbn [bytes]. rewrite ch_byte by (apply N.ltb_lt in Hc; lia). by rewrite IH.
Qed.

Lemma id_chars_ascii l : forallb (fun c => (c <? 128)%N) (map id_char l) = true.
Proof. induction l as [|c l IH]; [done |]. cbn [map forallb]. by rewrite id_char_ascii. Qed.

(** The text of a segment before it is normalised. *)
Definition segment_text (segment : string) : list N :=
  match strip_prefix ":" segment with
  | Some name => bytes "by_" ++ chars name
  | None => chars segment
  end.

Lemma operation_id_segment_bytes segment :
  bytes (operation_id_segment segment) = map id_char (ch "_" :: segment_text segment).
Proof.
  unfold operation_id_segment, segment_text, normalize_operation_id_segment.
  destruct (strip_prefix ":" segment); rewrite !bytes_app, bytes_of_chars by apply id_chars_ascii;
    [| reflexivity]. rewrite map_cons, map_app. reflexivity.
Qed.

Lemma segment_text_words segment : alnum_runs [] (segment_text segment) = segment_words segment.
Proof.
  unfold segment_text, segment_words. destruct (strip_prefix ":" segment) as [name|]; [| done].
  change (bytes "by_") with (bytes "by" ++ [ch "_"]). rewrite <- app_assoc.
  exact (alnum_runs_sep (bytes "by") (chars name) []).
Qed.

Lemma fold_segments_bytes segments : forall id,
  bytes (fold_left (fun id segment => id +:+ operation_id_segment segment) segments id)
  = bytes id ++ flat_map (fun segment => map id_char (ch "_" :: segment_text segment)) segments.
Proof.
  induction segments as [|segment segments IH]; intros id; cbn [fold_left flat_map].
  - by rewrite app_nil_r.
  - by rewrite IH, bytes_app, operation_id_segment_bytes, app_assoc.
Qed.

Lemma alnum_runs_segments segments : forall a,
  alnum_runs [] (a ++ flat_map (fun segment => ch "_" :: segment_text segment) segments)
  = alnum_runs [] a ++ flat_map segment_words segments.
Proof.
  induction segments as [|segment segments IH]; intros a; cbn [flat_map].
  - by rewrite !app_nil_r.
  - change ((ch "_" :: segment_text segment) ++ ?k) with (ch "_" :: segment_text segment ++ k).
    by rewrite alnum_runs_sep, IH, segment_text_words.
Qed.

Lemma nonempty_segments segments :
  flat_map segment_words (List.filter is_nonempty segments) = flat_map segment_words segments.
Proof.
  induction segments as [|segment segments IH]; [done |]. cbn [List.filter flat_map].
  destruct segment as [|a segment]; [exact IH |]. change (is_nonempty (String a segment)) with true. cbn [flat_map]. by rewrite IH.
Qed.

Lemma base_operation_id_name route : base_operation_id route = route_name route.
Proof.
  unfold base_operation_id, collapse_underscores, route_name. rewrite <- verb_str_method. f_equal.
  set (segments := List.filter is_nonempty _). set (verb := verb_str (rd_verb route)).
  assert (Hverb : bytes verb = map id_char (bytes verb) /\ alnum_runs [] (bytes verb) = [bytes verb])
    by (unfold verb; by destruct (rd_verb route)).
  destruct Hverb as [Hmap Hrun].
  set (raw := bytes verb ++ flat_map (fun segment => ch "_" :: segment_text segment) segments).
  assert (Hbytes : bytes (fold_left (fun id segment => id +:+ operation_id_segment segment) segments verb)
                   = map id_char raw).
  { rewrite fold_segments_bytes. unfold raw. rewrite map_app, <- Hmap. f_equal.
    induction segments as [|s l IH]; [done |]. cbn [flat_map]. by rewrite map_app, IH. }
  rewrite chars_ascii by (unfold is_ascii; rewrite Hbytes; apply id_chars_ascii). rewrite Hbytes.
  assert (Hruns : alnum_runs [] raw = bytes verb :: flat_map segment_words (split_on "/" (rd_path route))).
  { unfold raw. rewrite alnum_runs_segments, Hrun. unfold segments. by rewrite nonempty_segments. }
  rewrite <- Hruns. assert (Hwords : Forall is_word (alnum_runs [] raw)) by by apply alnum_runs_words.
  destruct (joined_ends (alnum_runs [] raw)) as (c & d & Hc & Hd & Wc & Wd); [by rewrite Hruns | done |].
  assert (Hraw : exists v rest, raw = v :: rest /\ is_ascii_alphanumeric v = true).
  { unfold raw, verb. destruct (rd_verb route); cbn [verb_str bytes app]; by do 2 eexists. }
  destruct Hraw as (v & rest & Hv & Halnum).
  assert (Hcollapse : exists t, (t = [] \/ t = [ch "_"]) /\
    collapse_from false (map id_char raw) = joined (alnum_runs [] raw) ++ t).
  { rewrite Hv. cbn [map collapse_from alnum_runs]. rewrite Halnum.
    assert (id_char v = to_ascii_lowercase_char v) as -> by (unfold id_char; by rewrite Halnum).
    destruct (alnum_lowercase v Halnum) as [-> _].
    exact (proj1 (collapse_runs rest) [to_ascii_lowercase_char v] ltac:(done)). }
  destruct Hcollapse as (t & Ht & ->). by apply (trim_underscores _ c d).
Qed.

(** The identifiers given so far. *)
Definition numbered (earlier : list RouteDefinition) (ids : gmap string nat) : Prop :=
  forall name, default 0 (ids !! name) = length (filter (fun r => route_name r = name) earlier).

Lemma operation_id_numbered earlier route ids :
  numbered earlier ids ->
  fst (operation_id route ids) = route_identifier earlier route
  /\ numbered (earlier ++ [route]) (snd (operation_id route ids)).
Proof.
  intros Hids. unfold operation_id, route_identifier. cbn [fst snd].
  rewrite !base_operation_id_name, !Hids. split.
  - generalize (length (filter (fun r => route_name r = route_name route) earlier)). by intros [|n].
  - intros name. rewrite filter_app, length_app, filter_cons, filter_nil.
    destruct (decide (route_name route = name)) as [<- | Hne].
    + rewrite lookup_insert_eq. cbn. lia.
    + rewrite lookup_insert_ne, Hids by done. cbn. lia.
Qed.

(** The path of a route in the document: the same segments, with a parameter
    between braces. *)
Definition documents_segment (segment documented : string) : Prop :=
  match segment with
  | String ":" name => documented = "{" +:+ name +:+ "}"
  | _ => documented = segment
  end.

Definition documents_path (path documented : string) : Prop :=
  Forall2 documents_segment (split_on "/" path) (split_on "/" documented).

Lemma openapi_segment_documents segment : documents_segment segment (openapi_segment segment).
Proof.
  unfold documents_segment, openapi_segment. destruct segment as [|a segment]; [done |].
  cbn [strip_prefix]. destruct (Ascii.eqb_spec ":" a) as [<-|Hne]; [done |].
  destruct a as [[] [] [] [] [] [] [] []]; try done.
Qed.

(** * The statuses a route can answer *)

(** The parts of a body that the document looks into: the bodies of statements,
    the values computed and assigned, and every part of an expression. *)
Definition inspected (n : node) : list node :=
  match n with
  | NStatement s =>
      match s with
      | STransaction body _ _ | SWhile _ body _ _ | SOnQueue _ _ _ body _ _
      | SOnTopic _ _ _ body _ _ => map NStatement body
      | STaskDef _ _ body _ _ => [NTaskBody body]
      | SExpressionStatement e _ _ | SAssignment _ e _ _ | SConditionalAssignment _ e _ _ _ =>
          [NExpression e]
      | SExport inner => [NStatement inner]
      | _ => []
      end
  | NMatchArm (mkMatchArm _ value) => [NExpression value]
  | NScenarioStep _ | NMatchPattern _ => []
  | n => children n
  end.

(** The key of the response a part is itself the cause of: the status of a
    reply if it is a literal one, and that of a failure. *)
Definition own_response (n : node) : option string :=
  match n with
  | NStatement (SReply (EInteger code) _ _ _ _ _ _) =>
      Some (if decide (100 <= code <= 599)%Z then show_Z code else "default")
  | NStatement (SReply _ _ _ _ _ _ _) => Some "default"
  | NStatement (SFail code _ _ _ | SRequire _ code _ _ _ | SReject _ code _ _ _) =>
      Some (show_Z (code mod 2 ^ 16))
  | NStatement (SRaise _ _ _ _) => Some "500"
  | NExpression (EFunctionCall name (Positional (EInteger code) :: _)) =>
      if decide (name = "__fail__") then Some (show_Z (code mod 2 ^ 16)) else None
  | _ => None
  end.

Inductive responds (key : string) : node -> Prop :=
| responds_own n : own_response n = Some key -> responds key n
| responds_part n part : part ∈ inspected n -> responds key part -> responds key n.

(** The keys of the responses collected so far. *)
Definition collected (o : RouteOutcomes) (key : string) : Prop :=
  key ∈ map response_key (ro_responses o) \/ key ∈ map show_Z (ro_error_codes o).

Definition node_outcomes (n : node) (o : RouteOutcomes) : RouteOutcomes :=
  match n with
  | NStatement s => collect_statement_outcomes s o
  | NTaskBody b => collect_task_body_outcomes b o
  | NExpression e => collect_expression_outcomes e o
  | NArgument a => collect_argument_outcomes a o
  | NMatchArm a => collect_match_arm_outcomes a o
  | NPipelineStage s => collect_pipeline_stage_outcomes s o
  | NRescueHandler h => collect_rescue_handler_outcomes h o
  | NMapStatement m => collect_map_statement_outcomes m o
  | NScenarioStep _ | NMatchPattern _ => o
  end.

Definition own_outcome (n : node) (o : RouteOutcomes) : RouteOutcomes :=
  match n with
  | NStatement (SReply status_code content_type body response_schema _ _ _) =>
      push_response (mkResponseSpec (literal_status_code status_code) response_schema
                       content_type body) o
  | NStatement (SFail code _ _ _ | SRequire _ code _ _ _ | SReject _ code _ _ _) =>
      push_error (to_u16 code) o
  | NStatement (SRaise _ _ _ _) => push_error 500 o
  | NExpression (EFunctionCall name arguments) => push_fail_call name arguments o
  | _ => o
  end.

Lemma fold_left_map_outer {A B S} (f : B -> S -> S) (g : A -> B) l (o : S) :
  fold_left (fun o n => f n o) (map g l) o = fold_left (fun o a => f (g a) o) l o.
Proof. revert o. induction l as [|a l IH]; intros o; cbn; [done | apply IH]. Qed.

(** The walk collects what a node is the cause of, and then its parts. *)
Lemma node_outcomes_parts n o :
  node_outcomes n o = fold_left (fun o part => node_outcomes part o) (inspected n) (own_outcome n o).
Proof.
  destruct n as [s|s|b|e|a|a|p|s|h|m];
    [destruct s | | destruct b | destruct e | destruct a | destruct a | destruct p | destruct s
    | destruct h | destruct m];
    cbn [node_outcomes own_outcome inspected children expression_children
         collect_statement_outcomes collect_task_body_outcomes collect_expression_outcomes
         collect_argument_outcomes collect_match_arm_outcomes collect_pipeline_stage_outcomes
         collect_map_statement_outcomes collect_rescue_handler_outcomes];
    try match goal with |- context [opt_node _ ?x] => destruct x end;
    cbn [opt_node]; rewrite ?fold_left_app; cbn [fold_left]; rewrite ?fold_left_map_outer;
    cbn [node_outcomes]; reflexivity.
Qed.

Lemma collected_error o code key :
  collected (push_error code o) key <-> collected o key \/ show_Z code = key.
Proof.
  unfold collected, push_error. cbn. rewrite map_app, elem_of_app. cbn.
  rewrite list_elem_of_singleton. naive_solver.
Qed.

Lemma collected_response o r key :
  collected (push_response r o) key <-> collected o key \/ response_key r = key.
Proof.
  unfold collected, push_response. cbn. rewrite map_app, elem_of_app. cbn.
  rewrite list_elem_of_singleton. naive_solver.
Qed.

Lemma reply_key status content_type schema body :
  Some (response_key (mkResponseSpec (literal_status_code status) schema content_type body))
  = own_response (NStatement (SReply status content_type body schema None 0 0)).
Proof.
  destruct status as [n| | | | | | | | | | | | | | | | | | | | | | |]; try reflexivity.
  unfold response_key, own_response, literal_status_code. cbn [rs_code].
  destruct (Z.leb_spec 100 n), (Z.leb_spec n 599); cbn [andb];
    [rewrite decide_True by lia | rewrite decide_False by lia; done ..].
  unfold to_u16. do 2 f_equal. apply Z.mod_small. lia.
Qed.

Lemma own_outcome_collected n o key :
  collected (own_outcome n o) key <-> collected o key \/ own_response n = Some key.
Proof.
  assert (Hno : collected o key <-> collected o key \/ None = Some key) by naive_solver.
  destruct n as [s| | |e| | | | | |]; try exact Hno.
  - destruct s; try exact Hno; cbn [own_outcome];
      rewrite ?collected_error, ?collected_response; f_equiv.
    1,2,4,5: cbn [own_response]; unfold to_u16; try change (show_Z 500) with "500"; naive_solver.
    assert (Hkey : own_response (NStatement (SReply status_code content_type body response_schema
                     extra_headers line column))
                   = own_response (NStatement (SReply status_code content_type body response_schema None 0 0)))
      by by destruct status_code.
    rewrite Hkey, <- reply_key. split; [by intros -> | by intros [= ->]].
  - destruct e; try exact Hno. cbn [own_outcome]. unfold push_fail_call.
    destruct arguments as [|[e|] args]; try exact Hno. destruct e; try exact Hno.
    cbn [own_response]. destruct (String.eqb_spec name "__fail__"), (decide (name = "__fail__")); try done.
    rewrite collected_error. f_equiv. split; [by intros <- | by intros [= <-]].
Qed.

Lemma inspected_children n c : c ∈ inspected n -> c ∈ children n.
Proof. destruct n as [[]|[]| | | |[]| | | |]; cbn; set_solver. Qed.

Lemma responds_inv key n :
  responds key n <->
  own_response n = Some key \/ exists part, part ∈ inspected n /\ responds key part.
Proof.
  split; [intros []; [by left | right; eauto] |].
  intros [? | (part & ? & ?)]; [by apply responds_own | by eapply responds_part].
Qed.

Lemma node_outcomes_collected n : forall o key,
  collected (node_outcomes n o) key <-> collected o key \/ responds key n.
Proof.
  induction n as [n IH] using tree_ind. intros o key.
  rewrite node_outcomes_parts, responds_inv.
  assert (Hfold : forall parts o', (forall c, c ∈ parts -> c ∈ children n) ->
    collected (fold_left (fun o part => node_outcomes part o) parts o') key <->
    collected o' key \/ exists part, part ∈ parts /\ responds key part).
  { intros parts. induction parts as [|part parts IHp]; intros o' Hsub; cbn [fold_left].
    - setoid_rewrite elem_of_nil. naive_solver.
    - rewrite IHp by set_solver. rewrite IH by set_solver. setoid_rewrite elem_of_cons. naive_solver. }
  rewrite Hfold by apply inspected_children. rewrite own_outcome_collected. tauto.
Qed.

Lemma first_responses_keys l : forall seen key,
  key ∈ map response_key (first_responses seen l) <-> key ∈ map response_key l /\ key ∉ seen.
Proof.
  induction l as [|r l IH]; intros seen key; cbn [first_responses map].
  - rewrite elem_of_nil. tauto.
  - destruct (decide (response_key r ∈ seen)) as [Hin | Hout]; cbn [map];
      rewrite ?elem_of_cons, IH; [naive_solver |].
    destruct (decide (key = response_key r)) as [-> | Hne]; [naive_solver |].
    rewrite not_elem_of_union, not_elem_of_singleton. naive_solver.
Qed.

Lemma collect_route_outcomes_collected body key :
  collected (collect_route_outcomes body) key <-> exists s, s ∈ body /\ responds key (NStatement s).
Proof.
  transitivity (collected (fold_left (fun o s => collect_statement_outcomes s o) body
                             (mkRouteOutcomes [] [])) key).
  { unfold collect_route_outcomes, collected, dedupe_outcomes. cbn [ro_responses ro_error_codes].
    rewrite first_responses_keys. f_equiv; [set_solver |].
    rewrite !list_elem_of_fmap. setoid_rewrite dedup_elem_of.
    setoid_rewrite merge_sort_Permutation. done. }
  assert (Hfold : forall o, collected (fold_left (fun o s => collect_statement_outcomes s o) body o) key
    <-> collected o key \/ exists s, s ∈ body /\ responds key (NStatement s)).
  { induction body as [|s body IH]; intros o; cbn [fold_left].
    - setoid_rewrite elem_of_nil. naive_solver.
    - rewrite IH. change (collect_statement_outcomes s o) with (node_outcomes (NStatement s) o).
      rewrite node_outcomes_collected. setoid_rewrite elem_of_cons. naive_solver. }
  rewrite Hfold. unfold collected. cbn. rewrite !elem_of_nil. tauto.
Qed.

Definition has_key (responses : list (string * Json)) (key : string) : Prop :=
  is_Some (IM.get key responses).

Lemma has_key_or_insert k v m key : has_key (or_insert k v m) key <-> has_key m key \/ k = key.
Proof.
  unfold has_key, or_insert, IM.contains_key. destruct (IM.get k m) as [w|] eqn:Hk.
  - split; [by left |]. intros [? | <-]; [done | by rewrite Hk].
  - rewrite IM.get_insert. destruct (String.eqb_spec k key) as [->|Hne]; [| naive_solver].
    split; [by right | by eexists].
Qed.

Lemma has_key_fold {A} (k : A -> string) (v : A -> Json) l key : forall m,
  has_key (fold_left (fun m a => or_insert (k a) (v a) m) l m) key <-> has_key m key \/ key ∈ map k l.
Proof.
  induction l as [|a l IH]; intros m; cbn [fold_left map]; [rewrite elem_of_nil; tauto |].
  rewrite IH, has_key_or_insert, elem_of_cons. naive_solver.
Qed.

(** The first binding of the kind is validated by a schema. *)
Definition bound_by_schema (route : RouteDefinition) (k : TakeKind) : Prop :=
  exists b, binding_for (rd_take route) k = Some b /\ is_Some (tb_schema b).

(** The statuses the body, the provider, the rules and the schemas of the
    route can be the cause of. *)
Definition gives (route : RouteDefinition) (key : string) : Prop :=
  (exists s, s ∈ rd_body route /\ responds key (NStatement s))
  \/ (key = "401" /\ is_Some (rd_auth route))
  \/ (key = "403" /\ rd_allow route <> [])
  \/ (key = "422" /\ exists k, k ∈ [TKPayload; TKQuery; TKHeaders] /\ bound_by_schema route k).

Lemma binding_for_Some take k b : binding_for take k = Some b ->
  existsb (fun b => bool_decide (tb_kind b = k)) take = true.
Proof.
  unfold binding_for. intros [Hin Hk]%find_some. apply existsb_exists. by exists b.
Qed.

Lemma binding_schema_bound route k : is_Some (binding_schema route k) <-> bound_by_schema route k.
Proof.
  unfold binding_schema, bound_by_schema. destruct (binding_for (rd_take route) k) as [b|]; cbn.
  - split; [by exists b | by intros (? & [= <-] & ?)].
  - split; [by intros [] | by intros (? & [=] & _)].
Qed.

Lemma has_schema_binding_bound route :
  has_schema_binding route = true <->
  exists k, k ∈ [TKPayload; TKQuery; TKHeaders] /\ bound_by_schema route k.
Proof.
  assert (Hk : forall k, match binding_schema route k with Some _ => true | None => false end = true
                         <-> bound_by_schema route k).
  { intros k. rewrite <- binding_schema_bound. by destruct (binding_schema route k). }
  assert (Hp : has_payload_binding route
               && match payload_schema (rd_take route) with Some _ => true | None => false end = true
               <-> bound_by_schema route TKPayload).
  { rewrite <- Hk. unfold payload_schema, binding_schema, has_payload_binding, has_binding.
    fold (binding_for (rd_take route) TKPayload).
    destruct (binding_for (rd_take route) TKPayload) as [b|] eqn:Hb; cbn; [| by rewrite andb_false_r].
    by rewrite (binding_for_Some _ _ _ Hb). }
  unfold has_schema_binding. rewrite !orb_true_iff, Hp, !Hk. setoid_rewrite elem_of_cons.
  setoid_rewrite elem_of_cons. setoid_rewrite list_elem_of_singleton. naive_solver.
Qed.

Lemma operation_responses_keys names route key :
  has_key (operation_responses names route) key <->
  gives route key \/ (key = "200" /\ forall k, ~ gives route k).
Proof.
  set (responses := fun o => 
    fold_left insert_error_code (ro_error_codes o) (fold_left (insert_response names) (ro_responses o) [])).
  set (auth := fun m => match rd_auth route with
                        | Some _ => or_insert "401" (described "Unauthorized") m | None => m end).
  set (allow := fun m => match rd_allow route with
                         | [] => m | _ => or_insert "403" (described "Forbidden") m end).
  set (schema := fun m => if has_schema_binding route
                          then or_insert "422" (described "Unprocessable Entity") m else m).
  set (all := schema (allow (auth (responses (collect_route_outcomes (rd_body route)))))).
  assert (Hall : forall k, has_key all k <-> gives route k).
  { intros k. unfold all, schema, allow, auth, responses, gives. rewrite <- has_schema_binding_bound.
    rewrite <- collect_route_outcomes_collected. unfold collected.
    assert (Hbase : forall o, has_key (fold_left insert_error_code (ro_error_codes o)
        (fold_left (insert_response names) (ro_responses o) [])) k
      <-> k ∈ map response_key (ro_responses o) \/ k ∈ map show_Z (ro_error_codes o)).
    { intros o. unfold insert_error_code, insert_response.
      rewrite (has_key_fold show_Z), (has_key_fold response_key). unfold has_key. cbn.
      rewrite is_Some_alt. tauto. }
    destruct (has_schema_binding route), (rd_allow route), (rd_auth route);
      rewrite ?has_key_or_insert, Hbase; naive_solver. }
  change (operation_responses names route) with
    match all with
    | [] => [("200", jobj [("description", jstr "Success");
                           ("content", content_of "application/json" generic_json_object_schema)])]
    | m => m
    end.
  destruct all as [|kv m] eqn:Heq.
  - assert (Hno : forall k, ~ gives route k) by (intros k Hk%Hall; by destruct Hk).
    unfold has_key. cbn [IM.get]. destruct (String.eqb_spec "200" key) as [<-|Hne].
    + split; [by right | by eexists].
    + split; [by intros [] |]. intros [?%Hno | [-> _]]; done.
  - rewrite Hall. split; [by left |]. intros [? | [_ Hno]]; [done |].
    exfalso. apply (Hno (fst kv)), Hall. unfold has_key. destruct kv as [k v]. cbn.
    by rewrite String.eqb_refl.
Qed.

(** * The operation of a route *)

Definition parameter (location name : string) (required : bool) (t : SchemaType) : Json :=
  JObject ([("name", JString name); ("in", JString location); ("required", JBool required);
            ("schema", schema_type_to_openapi t)]
           ++ match t with
              | TypedList _ | ListType => [("style", JString "form"); ("explode", JBool true)]
              | _ => []
              end).

(** The fields of the schema of the first binding of the kind. *)
Definition bound_fields (resolved : gmap string SchemaDefinition) (route : RouteDefinition)
    (k : TakeKind) : list SchemaField :=
  match b ← binding_for (rd_take route) k; name ← tb_schema b; resolved !! name with
  | Some def => sd_fields def
  | None => []
  end.

(** The parameters of the path, each a segment that begins with a colon, and
    the fields of the schemas of the query and of the headers. *)
Definition route_parameters (resolved : gmap string SchemaDefinition) (route : RouteDefinition)
  : list Json :=
  map (fun name => parameter "path" name true StringType)
    (omap (strip_prefix ":") (split_on "/" (rd_path route)))
  ++ map (fun f => parameter "query" (sf_name f) (negb (optional f)) (field_type f))
       (bound_fields resolved route TKQuery)
  ++ map (fun f => parameter "header" (sf_name f) (negb (optional f)) (field_type f))
       (bound_fields resolved route TKHeaders).

Definition binds (route : RouteDefinition) (k : TakeKind) : Prop :=
  Exists (fun b => tb_kind b = k) (rd_take route).

(** The media type and the schema of the request body, if the route takes one:
    a payload of its schema, or else the raw text, or else a form. *)
Definition route_body (components : gset string) (route : RouteDefinition) : option (string * Json) :=
  if decide (binds route TKPayload) then
    Some ("application/json",
          match b ← binding_for (rd_take route) TKPayload; tb_schema b with
          | Some name =>
              if decide (name ∈ components)
              then JObject [("$ref", JString ("#/components/schemas/" +:+ name))]
              else JObject [("type", JString "object"); ("x-marreta-unresolved-schema", JString name)]
          | None => JObject [("type", JString "object"); ("additionalProperties", JBool true)]
          end)
  else if decide (binds route TKRaw) then
    Some ("text/plain", JObject [("type", JString "string")])
  else if decide (binds route TKForm) then
    Some ("application/x-www-form-urlencoded", JObject [("type", JString "object")])
  else None.

Section Operation.
Context `{E : Ext} `{C : !Crates E}.

(** What the operation of a route says. *)
Record operation_of (components : gset string) (resolved : gmap string SchemaDefinition)
    (title id : string) (route : RouteDefinition) (op : list (string * Json)) : Prop := {
  of_id : IM.get "operationId" op = Some (JString id);
  of_tags : IM.get "tags" op = Some (JArray [JString (route_tag title route)]);
  of_parameters : IM.get "parameters" op
    = match route_parameters resolved route with [] => None | ps => Some (JArray ps) end;
  of_body : IM.get "requestBody" op
    = (fun body => JObject [("required", JBool true);
                            ("content", JObject [(fst body, JObject [("schema", snd body)])])])
      <$> route_body components route;
  of_security : IM.get "security" op
    = (fun auth => JArray [JObject [(ra_provider auth, JArray [])]]) <$> rd_auth route;
  of_responses : exists responses, IM.get "responses" op = Some (JObject responses)
    /\ forall key, has_key responses key <->
         gives route key \/ (key = "200" /\ forall k, ~ gives route k);
}.

Lemma json_set_entries key v es : json_set key v (JObject es) = JObject (IM.insert key v es).
Proof. reflexivity. Qed.

Lemma field_parameter_spec location f :
  field_parameter location f = parameter location (sf_name f) (negb (optional f)) (field_type f).
Proof. unfold field_parameter, parameter. by destruct (field_type f). Qed.

Lemma operation_parameters_spec resolved route :
  operation_parameters resolved route = route_parameters resolved route.
Proof.
  unfold operation_parameters, route_parameters. f_equal; [| f_equal].
  - unfold path_parameters. induction (split_on "/" (rd_path route)) as [|s l IH]; [done |].
    cbn [flat_map]. rewrite IH.
    change (omap (strip_prefix ":") (s :: l)) with
      (match strip_prefix ":" s with
       | Some name => name :: omap (strip_prefix ":") l
       | None => omap (strip_prefix ":") l
       end).
    by destruct (strip_prefix ":" s).
  - unfold schema_parameters, bound_fields, binding_schema.
    destruct (binding_for _ _) as [b|]; cbn; [| done]. destruct (tb_schema b) as [name|]; cbn; [| done].
    destruct (resolved !! name); [| done]. apply map_ext, field_parameter_spec.
  - unfold schema_parameters, bound_fields, binding_schema.
    destruct (binding_for _ _) as [b|]; cbn; [| done]. destruct (tb_schema b) as [name|]; cbn; [| done].
    destruct (resolved !! name); [| done]. apply map_ext, field_parameter_spec.
Qed.

Lemma has_binding_binds {A} k route (x y : A) :
  (if has_binding k route then x else y) = (if decide (binds route k) then x else y).
Proof.
  unfold has_binding, binds. destruct (existsb _ _) eqn:Hb.
  - rewrite decide_True; [done |]. apply Exists_exists. apply existsb_exists in Hb as (b & Hin & Hk).
    exists b. rewrite list_elem_of_In. split; [done | by apply bool_decide_eq_true in Hk].
  - rewrite decide_False; [done |]. intros (b & Hin & Hk)%Exists_exists.
    apply not_true_iff_false in Hb. apply Hb, existsb_exists. exists b.
    rewrite <- list_elem_of_In. split; [done | by apply bool_decide_eq_true].
Qed.

Lemma build_request_body_spec components route :
  build_request_body components route
  = (fun body => JObject [("required", JBool true);
                          ("content", JObject [(fst body, JObject [("schema", snd body)])])])
    <$> route_body components route.
Proof.
  unfold build_request_body, route_body, has_payload_binding, has_raw_binding, has_form_binding.
  rewrite !has_binding_binds.
  destruct (decide (binds route TKPayload)) as [_|_];
    [| by destruct (decide (binds route TKRaw)), (decide (binds route TKForm))].
  unfold payload_schema, schema_ref_or_fallback. fold (binding_for (rd_take route) TKPayload).
  destruct (binding_for _ _) as [b|]; [| reflexivity]. cbn [mbind option_bind].
  destruct (tb_schema b) as [name|]; [| reflexivity].
  by destruct (decide (name ∈ components)).
Qed.

Lemma route_operation_spec components resolved title id route :
  exists op, route_operation components resolved title id route = JObject op
  /\ operation_of components resolved title id route op.
Proof.
  unfold route_operation, build_operation, jobj, jstr.
  rewrite operation_parameters_spec, build_request_body_spec.
  destruct (route_parameters resolved route) eqn:Hp, (rd_auth route) eqn:Ha,
    (route_body components route) eqn:Hb, (has_headers_binding route);
    cbn [fmap option_fmap option_map]; rewrite ?json_set_entries;
    (eexists; split; [reflexivity |]);
    constructor; rewrite ?Hp, ?Ha, ?Hb; try reflexivity;
    (eexists; split; [reflexivity | intros key; apply operation_responses_keys]).
Qed.
End Operation.
