(* ===== verification/LoaderFacts.v ===== *)
(** Theorems on the loading of projects: the files that are found, and what
    the modules, the schemas and the namespaces of a loaded project satisfy. *)
From stdpp Require Import base list strings gmap sets sorting.
From Stdlib Require Import ZArith Lia Sorting.Sorted.
From S2P Require Import Prelude RustStr F64 Errors Token Lexer Ast IndexMap Foreign QueryTypes Value Schemas SchemaCycle Validator Environment Operators Crates ValueMethods ValueMethodFacts DocBson Auth RouteLoader RouteFacts IndexInference FeatureFlags ParserState Parser ParserStatements ProjectRuntime Interaction Interp EvalLogic Namespaces Infra QueryPipeline Calls Evaluator Loader EvalDemo EvaluatorFacts.

(** * The files of a directory *)

(** Reading the path below a node gives the text. *)
Inductive file_at : Node -> RelPath -> result string string -> Prop :=
| file_here text : file_at (File text) [] text
| file_below listing name node path text :
    (name, node) ∈ listing -> file_at node path text ->
    file_at (Directory (Some listing)) (name :: path) text.

(** No directory has two entries of the same name. *)
Inductive unique_names : Node -> Prop :=
| unique_file text : unique_names (File text)
| unique_unreadable : unique_names (Directory None)
| unique_directory listing :
    NoDup (map fst listing) -> Forall (fun entry => unique_names (snd entry)) listing ->
    unique_names (Directory (Some listing)).

Definition path_lt (a b : RelPath) : Prop := path_cmp a b = Lt.

Fixpoint Node_depth_ind (P : Node -> Prop) (Hf : forall text, P (File text))
    (Hn : P (Directory None))
    (Hd : forall listing, Forall (fun entry => P (snd entry)) listing -> P (Directory (Some listing)))
    (n : Node) {struct n} : P n :=
  match n with
  | File text => Hf text
  | Directory None => Hn
  | Directory (Some listing) =>
      Hd listing
        ((fix go (l : list (string * Node)) : Forall (fun entry => P (snd entry)) l :=
            match l with
            | [] => List.Forall_nil _
            | (name, m) :: l => List.Forall_cons _ (name, m) l (Node_depth_ind P Hf Hn Hd m) (go l)
            end) listing)
  end.

Lemma path_cmp_antisym a b : path_cmp b a = CompOpp (path_cmp a b).
Proof.
  revert b. induction a as [|x a IH]; intros [|y b]; cbn; try done.
  rewrite String.compare_antisym, IH. by destruct (String.compare x y).
Qed.

Lemma string_compare_Eq a b : String.compare a b = Eq <-> a = b.
Proof.
  split; [apply String.compare_eq_iff |]. intros ->. induction b as [|c b IH]; [done |].
  cbn. unfold Ascii.compare. by rewrite N.compare_refl.
Qed.

Lemma path_cmp_Eq a b : path_cmp a b = Eq <-> a = b.
Proof.
  revert b. induction a as [|x a IH]; intros [|y b]; cbn; try done.
  destruct (String.compare x y) eqn:Hc.
  - apply string_compare_Eq in Hc as ->. rewrite IH. split; congruence.
  - split; [done |]. intros [= -> ->]. by rewrite (proj2 (string_compare_Eq y y)) in Hc.
  - split; [done |]. intros [= -> ->]. by rewrite (proj2 (string_compare_Eq y y)) in Hc.
Qed.

Lemma path_cmp_trans a b c :
  path_cmp a b <> Gt -> path_cmp b c <> Gt -> path_cmp a c <> Gt.
Proof.
  revert b c. induction a as [|x a IH]; intros [|y b] [|z c]; cbn; try done.
  pose proof (string_compare_trans x y z) as Ht.
  destruct (String.compare x y) eqn:Hxy; try done;
    destruct (String.compare y z) eqn:Hyz; try done; intros Hab Hbc.
  - apply string_compare_Eq in Hxy as ->. rewrite Hyz. eauto.
  - apply string_compare_Eq in Hxy as ->. by rewrite Hyz.
  - apply string_compare_Eq in Hyz as <-. by rewrite Hxy.
  - destruct (String.compare x z) eqn:Hxz; try done; [| by destruct Ht].
    apply string_compare_Eq in Hxz as ->. rewrite String.compare_antisym, Hyz in Hxy. done.
Qed.

Section Discovery.
Variable entrypoint : RelPath.

Lemma collect_recursive_spec node : forall dir path text,
  (path, text) ∈ collect_recursive entrypoint dir node <->
  exists rest, path = dir ++ rest /\ rest <> [] /\ file_at node rest text
    /\ is_marreta_file (last_name rest) = true /\ path <> entrypoint.
Proof.
  induction node as [t| |listing IH] using Node_depth_ind; intros dir path text.
  - split; [by intros H%elem_of_nil |]. intros (rest & _ & Hne & Hat & _). inversion Hat; congruence.
  - split; [by intros H%elem_of_nil |]. intros (rest & _ & _ & Hat & _). inversion Hat.
  - cbn [collect_recursive]. rewrite elem_of_flat_map. rewrite List.Forall_forall in IH. split.
    + intros ([name n] & Hin & Hx). cbn [fst snd] in Hx. destruct n as [t|l'].
      * destruct (is_marreta_file name) eqn:Hm; cbn [andb] in Hx; [| by apply elem_of_nil in Hx].
        case_bool_decide as Hd; cbn [negb] in Hx; [by apply elem_of_nil in Hx |].
        apply list_elem_of_singleton in Hx as [= -> ->]. exists [name].
        split_and!; try done. econstructor; [done | constructor].
      * apply (IH (name, Directory l')) in Hx as (rest & -> & Hne & Hat & Hm & Hp);
          [| by apply list_elem_of_In].
        exists (name :: rest). rewrite <- app_assoc in *. cbn in *.
        split_and!; try done; [by econstructor |]. destruct rest; done.
    + intros (rest & -> & Hne & Hat & Hm & Hp). inversion Hat as [|? name n rest' ? Hin Hat']; subst.
      exists (name, n). split; [done |]. cbn [fst snd]. destruct n as [t|l'].
      * inversion Hat'; subst. unfold last_name in Hm. cbn in Hm. rewrite Hm. cbn [andb].
        case_bool_decide; cbn; [done | by left].
      * apply (IH (name, Directory l')); [by apply list_elem_of_In |]. exists rest'.
        rewrite <- app_assoc. cbn. inversion Hat'; subst. split_and!; try done.
Qed.

Lemma collect_recursive_NoDup node : unique_names node -> forall dir,
  NoDup (map fst (collect_recursive entrypoint dir node)).
Proof.
  induction node as [t| |listing IH] using Node_depth_ind; intros Hu dir; try constructor.
  inversion Hu as [| |? Hnd Hall]; subst. cbn [collect_recursive]. clear Hu.
  induction listing as [|[name n] listing IHl]; cbn [flat_map map fst snd]; [constructor |].
  apply Forall_cons in IH as [IHn IH], Hall as [Hn Hall]. cbn [map fst] in Hnd.
  apply NoDup_cons in Hnd as [Hfresh Hnd].
  rewrite map_app. apply NoDup_app. split_and!; [| | by apply IHl].
  - destruct n as [t|l]; [| by apply IHn]. destruct (_ && _); cbn; [| constructor].
    apply NoDup_singleton.
  - intros path Hin Hin'. apply list_elem_of_fmap in Hin as ([s text] & -> & Hin).
    apply list_elem_of_fmap in Hin' as ([p text'] & Hp & Hin'). cbn in Hp. subst p.
    apply elem_of_flat_map in Hin' as ([name' n'] & Hl & Hin'). cbn [fst snd] in *.
    assert (Hpre : forall nm m tx, (s, tx) ∈ (match m with
        | File t => if is_marreta_file nm && negb (bool_decide (dir ++ [nm] = entrypoint))
                    then [(dir ++ [nm], t)] else []
        | Directory _ => collect_recursive entrypoint (dir ++ [nm]) m end) ->
        exists rest, s = dir ++ nm :: rest).
    { intros nm m tx Hx. destruct m as [t|l'].
      - destruct (is_marreta_file nm && negb (bool_decide (dir ++ [nm] = entrypoint)));
          [| by apply elem_of_nil in Hx].
        apply list_elem_of_singleton in Hx as [= -> _]. by exists [].
      - apply collect_recursive_spec in Hx as (rest & -> & _). exists rest. by rewrite <- app_assoc. }
    apply Hpre in Hin as [r1 ->]. apply Hpre in Hin' as [r2 Heq].
    apply app_inv_head in Heq as [= -> _]. apply Hfresh. apply list_elem_of_fmap. by exists (name', n').
Qed.
End Discovery.

Lemma files_sorted (l : list (RelPath * result string string)) :
  NoDup (map fst l) -> StronglySorted path_lt (map fst (sort_by file_cmp l)).
Proof.
  intros Hnd.
  assert (Hs : StronglySorted (le file_cmp) (sort_by file_cmp l)).
  { apply sort_sorted with (P := fun _ => True).
    - intros a b. apply path_cmp_antisym.
    - intros a b c _ _ _. apply path_cmp_trans.
    - by apply Forall_forall. }
  assert (Hnd' : NoDup (map fst (sort_by file_cmp l))) by (by rewrite sort_permutation).
  induction Hs as [|x l' Hs IH Hx]; cbn in *; [constructor |].
  apply NoDup_cons in Hnd' as [Hf Hnd']. constructor; [by apply IH |].
  apply List.Forall_forall. intros path (y & <- & Hy)%in_map_iff.
  apply (proj1 (List.Forall_forall _ _) Hx) in Hy as Hle. unfold path_lt, le, file_cmp in *.
  destruct (path_cmp x.1 y.1) eqn:Hc; try done. apply path_cmp_Eq in Hc.
  exfalso. apply Hf. rewrite Hc. by apply list_elem_of_In, in_map.
Qed.

(** C36: in a tree whose directories have no two entries of one name, the loader
    finds each [.marreta] file below the root except the entry point once, at
    any depth and whether or not it can be read, and nothing else, and it
    orders them strictly by path: the modules are loaded in an order that does
    not depend on the order in which directories are listed. *)
Theorem discovery_spec p :
  unique_names (p_root p) ->
  StronglySorted path_lt (map fst (collect_marreta_files p)) /\
  (forall path text,
     (path, text) ∈ collect_marreta_files p <->
     path <> [] /\ file_at (p_root p) path text
     /\ is_marreta_file (last_name path) = true /\ path <> [p_name p]).
Proof.
  intros Hu. split.
  - apply files_sorted, collect_recursive_NoDup, Hu.
  - intros path text. unfold collect_marreta_files. rewrite sort_permutation, collect_recursive_spec.
    cbn. split; [intros (rest & -> & H); by apply H |]. intros H. exists path. split; [done | apply H].
Qed.

(** * Modules *)

Definition module_route (path : RelPath) (s : Statement) : option RouteDefinition :=
  match s with
  | SRoute verb url auth allow take body line column =>
      Some (mkRouteDefinition verb url auth allow take body line column
              (Some (file_stem path)) (Some (module_id path)))
  | _ => None
  end.

Definition module_consumer (path : RelPath) (s : Statement) : option ConsumerDefinition :=
  match s with
  | SOnQueue e binding schema body line column =>
      Some (mkConsumerDefinition QueueConsumer e binding schema body line column
              (Some (file_stem path)) (Some (module_id path)))
  | SOnTopic e binding schema body line column =>
      Some (mkConsumerDefinition TopicConsumer e binding schema body line column
              (Some (file_stem path)) (Some (module_id path)))
  | _ => None
  end.

(** The schemas a file keeps to itself: those it does not export, unless it is
    the entry point. *)
Definition private_schema (entry : bool) (s : Statement) : option (string * SchemaDefinition) :=
  match s with
  | SSchema name table fields _ _ =>
      if entry then None else Some (name, mkSchemaDefinition table fields)
  | _ => None
  end.

(** The schemas a file gives to the project: those it exports, and all those of
    the entry point. *)
Definition public_schema (entry : bool) (s : Statement) : option (string * SchemaDefinition) :=
  match s with
  | SExport (SSchema name table fields _ _) => Some (name, mkSchemaDefinition table fields)
  | SSchema name table fields _ _ =>
      if entry then Some (name, mkSchemaDefinition table fields) else None
  | _ => None
  end.

Definition insert_all {A} (declarations : list (string * A)) (m : gmap string A) : gmap string A :=
  fold_left (fun m d => <[fst d := snd d]> m) declarations m.

Lemma insert_all_app {A} (l k : list (string * A)) m :
  insert_all (l ++ k) m = insert_all k (insert_all l m).
Proof. apply fold_left_app. Qed.

Lemma lookup_insert_all {A} (l : list (string * A)) m name :
  insert_all l m !! name = match last_declared name l with Some a => Some a | None => m !! name end.
Proof.
  induction l as [|[k a] l IH] using rev_ind; [done |].
  rewrite insert_all_app, last_declared_app. unfold last_declared at 1. cbn.
  destruct (decide (k = name)) as [<-|Hne]; cbn;
    [by rewrite lookup_insert_eq | by rewrite lookup_insert_ne].
Qed.

(** The program exports a task, a schema or an assignment of this name. *)
Definition exports (program : list Statement) (name : string) : Prop :=
  exists inner, SExport inner ∈ program /\
    match inner with
    | STaskDef n _ _ _ _ | SSchema n _ _ _ _ | SAssignment n _ _ _
    | SConditionalAssignment n _ _ _ _ => n = name
    | _ => False
    end.

(** What a program adds to the module. *)
Record extends_module (path : RelPath) (entry : bool) (program : list Statement)
    (m m' : ModuleDefinition) : Prop := {
  em_id : md_id m' = md_id m;
  em_entrypoint : md_is_entrypoint m' = md_is_entrypoint m;
  em_routes : md_routes m' = md_routes m ++ omap (module_route path) program;
  em_consumers : md_consumers m' = md_consumers m ++ omap (module_consumer path) program;
  em_private : md_private_schemas m'
    = insert_all (omap (private_schema entry) program) (md_private_schemas m);
  em_public : md_public_schemas m'
    = insert_all (omap (public_schema entry) program) (md_public_schemas m);
  em_providers : forall name p, md_auth_providers m' !! name = Some p <->
    md_auth_providers m !! name = Some p \/ (declares_provider program p /\ provider_name p = name);
  em_symbols : entry = false -> forall name, name ∈ md_public_symbols m' ->
    name ∈ md_public_symbols m \/ exports program name;
}.

Lemma no_provider_added program (m m' : gmap string (AuthProvider Expression)) :
  m' = m -> (forall p, ~ declares_provider program p) -> forall name p,
  m' !! name = Some p <-> m !! name = Some p \/ (declares_provider program p /\ provider_name p = name).
Proof. intros -> Hno name p. split; [by left |]. intros [? | [[]%Hno _]]. done. Qed.

Lemma one_provider_added q line column (m : gmap string (AuthProvider Expression)) :
  m !! provider_name q = None -> forall name p,
  <[provider_name q := q]> m !! name = Some p <->
  m !! name = Some p \/ (declares_provider [SAuthProvider q line column] p /\ provider_name p = name).
Proof.
  intros Hq name p. rewrite lookup_insert_Some. unfold declares_provider.
  setoid_rewrite list_elem_of_singleton. split.
  - intros [[<- <-] | [_ ?]]; [right | by left]. split; [by do 2 eexists | done].
  - intros [Hp | [(l & c & [= -> _ _]) <-]]; [| by left].
    right. split; [| done]. intros <-. congruence.
Qed.

Lemma declares_provider_one s p :
  declares_provider [s] p -> exists line column, s = SAuthProvider p line column.
Proof. intros (l & c & Hin%list_elem_of_singleton). by exists l, c. Qed.

Lemma export_symbol_module id inner st st' :
  export_symbol id inner st = Ok st' ->
  exists names, ms_module st' = with_symbols names (ms_module st) /\
    forall name, name ∈ names -> name ∈ md_public_symbols (ms_module st) \/ exports [SExport inner] name.
Proof.
  unfold export_symbol. destruct (exported_symbol_name inner) as [name|] eqn:Hname.
  - intros (st1 & Hst1 & [= <-])%bind_Ok. exists (md_public_symbols (ms_module st) ++ [name]).
    assert (ms_module st1 = ms_module st) as Hm.
    { destruct inner; try (destruct (ms_exported_names st !! name); [done | by injection Hst1 as <-]).
      destruct (existsb _ _); [done | by injection Hst1 as <-]. }
    cbn. rewrite Hm. split; [done |].
    intros other [Hin | ->%list_elem_of_singleton]%elem_of_app; [by left | right].
    exists inner. split; [by left |]. destruct inner; try discriminate Hname; by injection Hname.
  - intros [= <-]. exists (md_public_symbols (ms_module st)).
    split; [by destruct (ms_module st) | by left].
Qed.

Lemma build_module_statement_extends path entry st stmt st' :
  build_module_statement (module_id path) (file_stem path) entry st stmt = Ok st' ->
  extends_module path entry [stmt] (ms_module st) (ms_module st').
Proof.
  assert (Hnone : (forall p l c, stmt <> SAuthProvider p l c) -> forall p, ~ declares_provider [stmt] p).
  { intros Hs p (l & c & ->)%declares_provider_one. by edestruct Hs. }
  destruct stmt; cbn [build_module_statement declared_symbol_name];
    try (intros [= <-]; try destruct entry; constructor; cbn; rewrite ?app_nil_r;
         first [done | by left | by apply no_provider_added; [| apply Hnone]]).
  - destruct (_ !! _) eqn:Hq; [done |]. intros [= <-].
    constructor; cbn; rewrite ?app_nil_r; [done.. | by apply one_provider_added | by left].
  - intros (st1 & Hst1 & [= <-])%bind_Ok.
    apply export_symbol_module in Hst1 as (names & Hm & Hnames).
    destruct stmt; constructor; cbn; rewrite Hm, ?app_nil_r;
      first [done | by intros _ | by apply no_provider_added; [| apply Hnone]].
Qed.

Lemma extends_module_app path entry program rest m m1 m' :
  extends_module path entry program m m1 -> extends_module path entry rest m1 m' ->
  extends_module path entry (program ++ rest) m m'.
Proof.
  intros [Hi1 He1 Hr1 Hc1 Hp1 Hb1 Ha1 Hs1] [Hi2 He2 Hr2 Hc2 Hp2 Hb2 Ha2 Hs2].
  constructor; rewrite ?omap_app, ?insert_all_app; [congruence.. | | | congruence | congruence | |].
  - by rewrite Hr2, Hr1, app_assoc.
  - by rewrite Hc2, Hc1, app_assoc.
  - intros name p. rewrite Ha2, Ha1. unfold declares_provider. setoid_rewrite elem_of_app.
    naive_solver.
  - intros He name. specialize (Hs1 He name). specialize (Hs2 He name).
    unfold exports in *. setoid_rewrite elem_of_app. naive_solver.
Qed.

Lemma build_module_statements_extends path entry program st st' :
  build_module_statements (module_id path) (file_stem path) entry program st = Ok st' ->
  extends_module path entry program (ms_module st) (ms_module st').
Proof.
  revert st. induction program as [|stmt program IH]; intros st; cbn [build_module_statements].
  - intros [= <-]. constructor; cbn; rewrite ?app_nil_r; try done.
    + apply no_provider_added; [done |]. by intros p (l & c & Hin%elem_of_nil).
    + by left.
  - intros (st1 & H1%build_module_statement_extends & H2%IH)%bind_Ok.
    by apply (extends_module_app path entry [stmt] program _ (ms_module st1)).
Qed.

Lemma elem_of_dedupe_from items : forall seen name, name ∈ dedupe_from seen items -> name ∈ items.
Proof.
  induction items as [|item items IH]; intros seen name; cbn; [done |].
  destruct (existsb _ seen); [intros ?%IH; by right |].
  intros [-> | ?%IH]%elem_of_cons; [by left | by right].
Qed.

Lemma build_module_definition_Ok path entry program names m names' :
  build_module_definition (module_id path) (file_stem path) entry program names = Ok (m, names') ->
  extends_module path entry program (empty_module (module_id path) entry) m.
Proof.
  unfold build_module_definition.
  intros (st & Hst%build_module_statements_extends & [= <- <-])%bind_Ok.
  destruct Hst as [Hi He Hr Hc Hp Hb Ha Hs]. constructor; try done.
  intros Hentry name Hin%elem_of_dedupe_from. by apply Hs.
Qed.

Lemma module_route_id path (program : list Statement) r :
  r ∈ omap (module_route path) program -> rd_module_id r = Some (module_id path).
Proof.
  intros (s & _ & Hs)%list_elem_of_omap. destruct s; try discriminate Hs. by injection Hs as <-.
Qed.

(** * The merge of the modules *)

(** Routes that match the same requests come from one module. *)
Definition conflicts_within_module (rs : list RouteDefinition) : Prop :=
  forall a b, a ∈ rs -> b ∈ rs -> rd_verb a = rd_verb b ->
    Forall2 segment_matches (split_on "/" (rd_path a)) (split_on "/" (rd_path b)) ->
    rd_module_id a = rd_module_id b.

Section Merged.
Context `{HO : HashOrder} `{AH : AuthHost}.

(** A file is read and parsed to the program. *)
Definition reads_to (file : RelPath * result string string) (program : list Statement) : Prop :=
  exists source, snd file = Ok source /\ parse_source source = Done program.

Definition all_of {A} (f : RelPath -> Statement -> option A)
    (files : list (RelPath * result string string)) (programs : list (list Statement)) : list A :=
  concat (zip_with (fun file program => omap (f (fst file)) program) files programs).

(** The project merged so far is that of the files read so far. *)
Record merged (files : list (RelPath * result string string)) (programs : list (list Statement))
    (mg : Merge) : Prop := {
  mg_read : Forall2 reads_to files programs;
  mg_routes_eq : mg_routes mg = all_of module_route files programs;
  mg_consumers_eq : mg_consumers mg = all_of module_consumer files programs;
  mg_statements_eq : mg_all_statements mg = concat programs;
  mg_modules_eq : map md_id (mg_module_defs mg) = map (fun file => module_id (fst file)) files;
  mg_route_modules : forall r, r ∈ mg_routes mg ->
    exists m, m ∈ mg_module_defs mg /\ rd_module_id r = Some (md_id m);
  mg_conflicts : conflicts_within_module (mg_routes mg);
}.

Lemma all_of_snoc {A} (f : RelPath -> Statement -> option A) files programs file program :
  length files = length programs ->
  all_of f (files ++ [file]) (programs ++ [program])
  = all_of f files programs ++ omap (f (fst file)) program.
Proof.
  intros Hl. unfold all_of. rewrite zip_with_app by done. rewrite concat_app. cbn.
  by rewrite app_nil_r.
Qed.

Lemma check_route_conflict_Ok rs route :
  check_route_conflict rs route = Ok tt ->
  forall r, r ∈ rs -> rd_verb r = rd_verb route ->
    ~ Forall2 segment_matches (split_on "/" (rd_path r)) (split_on "/" (rd_path route)).
Proof.
  unfold check_route_conflict. destruct (conflicting_route _ _ _) eqn:Hc; [done |].
  intros _. by apply conflicting_route_None.
Qed.

Lemma merge_step files programs mg path text program m names mg' :
  merged files programs mg -> reads_to (path, text) program ->
  md_id m = module_id path -> md_routes m = omap (module_route path) program ->
  md_consumers m = omap (module_consumer path) program ->
  merge_module program m names mg = Ok mg' ->
  merged (files ++ [(path, text)]) (programs ++ [program]) mg'.
Proof.
  intros [Hread Hr Hc Hs Hm Hrm Hconf] Hprog Hid Hmr Hmc H. unfold merge_module in H.
  apply bind_Ok in H as ([] & Hfresh & H). apply bind_Ok in H as (providers & _ & [= <-]).
  rewrite for_each_Ok, Forall_forall in Hfresh. pose proof (Forall2_length _ _ _ Hread) as Hl.
  assert (Hnew : forall r, r ∈ md_routes m -> rd_module_id r = Some (module_id path)).
  { intros r. rewrite Hmr. apply module_route_id. }
  constructor; cbn.
  - by apply Forall2_app; [| constructor].
  - by rewrite all_of_snoc, Hr, Hmr.
  - by rewrite all_of_snoc, Hc, Hmc.
  - rewrite concat_app, Hs. cbn. by rewrite app_nil_r.
  - rewrite !map_app, Hm. cbn. by rewrite Hid.
  - intros r [Hin | Hin]%elem_of_app.
    + destruct (Hrm r Hin) as (m' & Hm' & Heq). exists m'. split; [set_solver | done].
    + exists m. split; [set_solver |]. by rewrite Hid, Hnew.
  - intros a b [Ha | Ha]%elem_of_app [Hb | Hb]%elem_of_app Hv Hp; [by apply Hconf | | |].
    + by destruct (check_route_conflict_Ok _ _ (Hfresh b Hb) a).
    + apply segments_match_sym in Hp. by destruct (check_route_conflict_Ok _ _ (Hfresh a Ha) b).
    + by rewrite !Hnew.
Qed.

(** A file with whether it is the entry point. *)
Definition MarkedProgram : Type := bool * list Statement.

(** The schema a file declares under a name: its own ones come before those it
    gives to the project, and the last declaration counts. *)
Definition file_schema (name : string) (file : MarkedProgram) : option SchemaDefinition :=
  match last_declared name (omap (private_schema (fst file)) (snd file)) with
  | Some s => Some s
  | None => last_declared name (omap (public_schema (fst file)) (snd file))
  end.

Definition file_public_schema (name : string) (file : MarkedProgram) : option SchemaDefinition :=
  last_declared name (omap (public_schema (fst file)) (snd file)).

(** The module is that of the file, and the symbols it gives to the project are
    exported by the file, unless it is the entry point. *)
Definition exports_of (m : ModuleDefinition) (file : MarkedProgram) : Prop :=
  md_is_entrypoint m = fst file /\
  (fst file = false -> forall name, name ∈ md_public_symbols m -> exports (snd file) name).

(** The schemas, the providers and the symbols merged so far. *)
Record declared (files : list MarkedProgram) (mg : Merge) : Prop := {
  dc_all : forall name, mg_all_project_schemas mg !! name = last (omap (file_schema name) files);
  dc_public : forall name, mg_schemas mg !! name = last (omap (file_public_schema name) files);
  dc_providers : forall name p, mg_auth_providers mg !! name = Some p <->
    (exists file, file ∈ files /\ declares_provider (snd file) p) /\ provider_name p = name;
  dc_modules : Forall2 exports_of (mg_module_defs mg) files;
}.

Lemma last_omap_snoc {A B} (f : A -> option B) l a :
  last (omap f (l ++ [a])) = match f a with Some b => Some b | None => last (omap f l) end.
Proof. rewrite omap_app, last_app. cbn. by destruct (f a). Qed.

Lemma merge_providers_Ok new : forall old merged,
  merge_providers new old = Ok merged -> forall name p,
  merged !! name = Some p <-> old !! name = Some p \/ (name, p) ∈ new.
Proof.
  induction new as [|[k q] new IH]; intros old merged; cbn [merge_providers].
  - intros [= <-] name p. rewrite elem_of_nil. naive_solver.
  - destruct (old !! k) eqn:Hk; [done |]. intros H name p.
    rewrite (IH _ _ H), lookup_insert_Some, elem_of_cons. split; [naive_solver |].
    intros [Ho | [[= -> ->] | ?]]; [left; right | by left; left | by right].
    split; [| done]. intros ->. congruence.
Qed.

Lemma merge_step_declared files mg path entry program m names mg' :
  declared files mg -> extends_module path entry program (empty_module (module_id path) entry) m ->
  merge_module program m names mg = Ok mg' -> declared (files ++ [(entry, program)]) mg'.
Proof.
  intros [Hall Hpub Hprov Hmods] Hm H. unfold merge_module in H.
  apply bind_Ok in H as ([] & _ & H). apply bind_Ok in H as (providers & Hnew & [= <-]).
  pose proof (merge_providers_Ok _ _ _ Hnew) as Hmerged.
  constructor; cbn.
  - intros name. rewrite !lookup_union, last_omap_snoc, Hall, (em_private _ _ _ _ _ Hm),
      (em_public _ _ _ _ _ Hm), !lookup_insert_all. cbn. rewrite !lookup_empty.
    unfold file_schema. cbn. destruct (last_declared name _), (last_declared name _), (last _); done.
  - intros name. rewrite lookup_union, last_omap_snoc, Hpub, (em_public _ _ _ _ _ Hm),
      lookup_insert_all. cbn. rewrite lookup_empty.
    unfold file_public_schema at 2. cbn. by destruct (last_declared name _), (last _).
  - intros name p. rewrite Hmerged, Hprov, elem_of_entries, (em_providers _ _ _ _ _ Hm). cbn.
    rewrite lookup_empty. setoid_rewrite elem_of_app. setoid_rewrite list_elem_of_singleton.
    split; [intros [[(file & ? & ?) ?] | [[=] | [? ?]]] | intros [(file & [? | ->] & ?) ?]]; eauto 10.
  - apply Forall2_app; [done |]. constructor; [| constructor]. split; [apply Hm |].
    intros He name Hin. apply (em_symbols _ _ _ _ _ Hm He) in Hin as [Hin | ?]; [| done].
    by apply elem_of_nil in Hin.
Qed.

Lemma load_file_merged files programs marked mg display entry path text mg' :
  merged files programs mg -> declared marked mg ->
  load_file display entry path text mg = Done mg' ->
  exists program, merged (files ++ [(path, text)]) (programs ++ [program]) mg'
    /\ declared (marked ++ [(entry, program)]) mg'
    /\ (entry = true -> validate_entrypoint_metadata display program = Done tt).
Proof.
  intros Hmg Hmarked H. unfold load_file in H.
  apply bind_Done in H as (source & Hsource & H). apply bind_Done in H as (program & Hparse & H).
  apply bind_Done in H as ([] & Hmeta & H). apply bind_Done in H as ([m names] & Hm & H).
  apply of_result_Done in Hm, H. apply build_module_definition_Ok in Hm.
  exists program. split_and!; [| by eapply merge_step_declared | intros ->; done].
  destruct Hm as [Hid He Hr Hc _ _ _ _].
  eapply merge_step; try done. exists source. split; [| done]. cbn.
  by destruct text; [injection Hsource as -> |].
Qed.

Definition project_files (p : Project) : list (RelPath * result string string) :=
  collect_marreta_files p ++ [([p_name p], p_text p)].

(** The programs of a project, its entry point last. *)
Definition marked (modules : list (list Statement)) (main : list Statement) : list MarkedProgram :=
  map (pair false) modules ++ [(true, main)].

Lemma declared_marked modules main p :
  (exists file, file ∈ marked modules main /\ declares_provider (snd file) p) <->
  exists program, program ∈ modules ++ [main] /\ declares_provider program p.
Proof.
  assert (Hsnd : map snd (marked modules main) = modules ++ [main]).
  { unfold marked. rewrite map_app, map_map. cbn. by rewrite map_id. }
  rewrite <- Hsnd. setoid_rewrite list_elem_of_fmap. naive_solver.
Qed.

Lemma load_files_merged p rest : forall files programs earlier mg mg',
  merged files programs mg -> declared earlier mg -> load_files p rest mg = Done mg' ->
  exists later program, merged (files ++ rest ++ [([p_name p], p_text p)])
    (programs ++ later ++ [program]) mg'
    /\ declared (earlier ++ marked later program) mg'
    /\ validate_entrypoint_metadata (display_entrypoint p) program = Done tt.
Proof.
  induction rest as [|[path text] rest IH]; intros files programs earlier mg mg' Hmg Hd H;
    cbn [load_files] in H.
  - eapply load_file_merged in H as (program & Hmg' & Hd' & Hmeta); [| done..].
    exists [], program. split_and!; [done.. | by apply Hmeta].
  - apply bind_Done in H as (mg1 & H1 & H).
    eapply load_file_merged in H1 as (program1 & Hmg1 & Hd1 & _); [| done..].
    destruct (IH _ _ _ _ _ Hmg1 Hd1 H) as (later & program & Hmg' & Hd' & Hmeta).
    exists (program1 :: later), program. rewrite <- !app_assoc in Hmg'.
    rewrite <- app_assoc in Hd'. by split_and!.
Qed.
End Merged.

(** * The runtime of the project *)

Section Runtime.
Context `{E : Ext} `{C : !Crates E} `{B : !BsonCrate E} `{HO : HashOrder} `{AH : AuthHost}.

(** A file namespace: tasks of one file that is not the entry point, under a
    name that no built-in namespace has. *)
Record namespace_ok (defs : list ModuleDefinition) (stem : string) (tasks : gmap string Value)
  : Prop := {
  ns_nonempty : tasks <> ∅;
  ns_tasks : map_Forall (fun _ v => is_task v = true) tasks;
  ns_free : is_reserved_namespace stem = false;
  ns_identifier : is_namespace_identifier stem = true;
  ns_owner : exists m, m ∈ defs /\ md_is_entrypoint m = false
    /\ namespace_from_module_id (md_id m) = stem
    /\ forall name, is_Some (tasks !! name) -> name ∈ md_public_symbols m;
}.

Record runtime_ok (defs : list ModuleDefinition) (modules : gmap string ModuleRuntime)
    (namespaces : gmap string (gmap string Value)) : Prop := {
  rt_modules : forall m, m ∈ defs -> is_Some (modules !! md_id m);
  rt_ids : forall id m, modules !! id = Some m -> mr_id m = id;
  rt_namespaces : forall stem tasks, namespaces !! stem = Some tasks -> namespace_ok defs stem tasks;
}.

Lemma namespace_ok_weaken defs defs' stem tasks :
  defs ⊆ defs' -> namespace_ok defs stem tasks -> namespace_ok defs' stem tasks.
Proof.
  intros Hsub [H1 H2 H3 H4 (m & Hm & H5)]. constructor; try done. exists m. split; [by apply Hsub | done].
Qed.

Lemma partition_symbols_tasks m env symbols acc :
  map_Forall (fun name v => is_task v = true /\ md_is_entrypoint m = false /\ name ∈ md_public_symbols m)
    (fst acc) ->
  symbols ⊆ md_public_symbols m ->
  map_Forall (fun name v => is_task v = true /\ md_is_entrypoint m = false /\ name ∈ md_public_symbols m)
    (fst (fold_left (partition_symbol m env) symbols acc)).
Proof.
  revert acc. induction symbols as [|symbol symbols IH]; intros acc Hacc Hsub; cbn; [done |].
  apply IH; [| set_solver]. unfold partition_symbol.
  destruct (get symbol env) as [v|]; [| done].
  destruct (md_is_entrypoint m) eqn:He; cbn [negb andb]; [done |].
  destruct (is_task v) eqn:Hv; cbn; [| done].
  apply map_Forall_insert_2; [| done]. split_and!; [done.. |]. apply Hsub. by left.
Qed.

Lemma validate_namespace_stem_Ok stem id :
  validate_namespace_stem stem id = Ok tt ->
  is_reserved_namespace stem = false /\ is_namespace_identifier stem = true.
Proof.
  unfold validate_namespace_stem. destruct (is_reserved_namespace stem); [done |].
  by destruct (is_namespace_identifier stem).
Qed.

Lemma add_module_ok defs publics m env st st' :
  add_module publics m env st = Ok st' ->
  runtime_ok defs (rs_modules st) (rs_task_namespaces st) ->
  runtime_ok (defs ++ [m]) (rs_modules st') (rs_task_namespaces st').
Proof.
  unfold add_module. destruct (partition_symbols _ _ _) as [tasks global_env] eqn:Hp.
  intros (st1 & Hst1 & [= <-])%bind_Ok [Hm Hid Hns].
  assert (Htasks : map_Forall (fun name v =>
      is_task v = true /\ md_is_entrypoint m = false /\ name ∈ md_public_symbols m) tasks).
  { change tasks with (fst (tasks, global_env)). rewrite <- Hp.
    apply partition_symbols_tasks; [apply map_Forall_empty | done]. }
  assert (Hst : rs_modules st1 = rs_modules st /\
    forall stem tasks', rs_task_namespaces st1 !! stem = Some tasks' ->
      namespace_ok (defs ++ [m]) stem tasks').
  { assert (Hsub : defs ⊆ defs ++ [m]) by set_solver.
    unfold claim_namespace in Hst1. case_bool_decide as Hne.
    - injection Hst1 as <-. split; [done |]. intros. eapply namespace_ok_weaken; [done | by apply Hns].
    - apply bind_Ok in Hst1 as ([] & Hok & Hst1). cbn [rs_namespace_owner] in Hst1.
      destruct (rs_namespace_owner st !! _); [done |]. injection Hst1 as <-. split; [done |].
      apply validate_namespace_stem_Ok in Hok as [Hres Hidf]. cbn.
      intros stem tasks' [[<- <-] | [_ Hl]]%lookup_insert_Some;
        [| eapply namespace_ok_weaken; [done | by apply Hns]].
      constructor; try done.
      + eapply map_Forall_impl; [exact Htasks |]. by intros ? ? [? _].
      + destruct (map_choose _ Hne) as (name & v & Hv).
        destruct (Htasks _ _ Hv) as (_ & He & _).
        exists m. split_and!; try done; [set_solver |].
        intros name' [v' Hv']. by destruct (Htasks _ _ Hv') as (_ & _ & ?). }
  destruct Hst as [Hmods Hns1]. constructor; cbn; [| | exact Hns1].
  - intros m' [Hin | ->%list_elem_of_singleton]%elem_of_app; rewrite Hmods, lookup_insert_is_Some'.
    + right. by apply Hm.
    + by left.
  - intros id m'. rewrite Hmods. intros [[<- <-] | [_ Hl]]%lookup_insert_Some; [done |]. by apply Hid.
Qed.

Lemma load_outcome_bind {A A'} (o : outcome MarretaError A) (k : A -> Load A') Q :
  (forall e, Q (Fails e)) -> Q Panics -> Q NoFuel ->
  (forall a, o = Done a -> always (k a) Q) ->
  always (load_bind _ _ k (load_outcome o)) Q.
Proof.
  intros He Hp Hn Hk. unfold load_bind, load_outcome.
  destruct o as [a|e| |]; cbn; [by apply Hk | apply He | done | done].
Qed.

Lemma run_modules_ok overflow_checks fuel flags publics later : forall defs st,
  runtime_ok defs (rs_modules st) (rs_task_namespaces st) ->
  always (run_modules overflow_checks fuel flags publics later st)
    (fun r => forall st', r = Done st' ->
       runtime_ok (defs ++ later) (rs_modules st') (rs_task_namespaces st')).
Proof.
  induction later as [|m later IH]; intros defs st Hok; cbn [run_modules].
  - intros st' [= <-]. by rewrite app_nil_r.
  - apply always_bind. intros [env|e| |]; [| by intros ? [=]..].
    apply load_outcome_bind; try done. intros st1 H1%of_result_Done.
    replace (defs ++ m :: later) with ((defs ++ [m]) ++ later) by by rewrite <- app_assoc.
    apply IH. by eapply add_module_ok.
Qed.
End Runtime.

(** * The loaded project *)

(** A query parameter or a header can carry the type: a scalar, or a list that
    is not one of lists, maps or schemas. *)
Definition flat_type (t : SchemaType) : Prop :=
  match t with
  | Reference _ | MapType | TypedList (Reference _ | MapType | ListType | TypedList _) => False
  | _ => True
  end.

Lemma first_non_flat_field_None def :
  first_non_flat_field def = None <-> forall f, f ∈ sd_fields def -> flat_type (field_type f).
Proof.
  unfold first_non_flat_field. set (p := fun field : SchemaField => _).
  assert (Hp : forall f, p f = false <-> flat_type (field_type f)).
  { intros f. unfold p, flat_type. destruct (field_type f) as [| | | | | | | | | | | | | |t]; try done.
    by destruct t. }
  setoid_rewrite <- Hp. destruct (find p (sd_fields def)) as [f|] eqn:Hf; cbn.
  - split; [done |]. apply find_some in Hf as [Hin%list_elem_of_In Hf]. intros Hall.
    by rewrite (Hall f Hin) in Hf.
  - split; [| done]. intros _ f Hin%list_elem_of_In. by eapply find_none.
Qed.

(** A schema bound to an input of a route can describe it. *)
Definition take_ok (schemas : gmap string SchemaDefinition) (b : TakeBinding) : Prop :=
  forall name, tb_schema b = Some name ->
    tb_kind b <> TKRaw /\ tb_kind b <> TKForm /\
    (tb_kind b = TKQuery \/ tb_kind b = TKHeaders ->
     forall def, schemas !! name = Some def ->
       forall f, f ∈ sd_fields def -> flat_type (field_type f)).

Lemma check_take_schema_Ok schemas b : check_take_schema schemas b = Ok tt <-> take_ok schemas b.
Proof.
  unfold check_take_schema, take_ok. setoid_rewrite <- first_non_flat_field_None.
  destruct (tb_schema b) as [name|]; [| split; [by intros _ ? [=] | done]].
  destruct (tb_kind b); (split; [intros H name' [= <-] | intros H; destruct (H name eq_refl) as (H1 & H2 & H3)]);
    try done; try (by split_and!; [done.. | intros [[=]|[=]]]).
  all: cbn [mbind option_bind] in *.
  all: try (split_and!; [done.. | intros _ def Hd; rewrite Hd in H; cbn in H;
                                  by destruct (first_non_flat_field def)]).
  all: destruct (schemas !! name) as [def|] eqn:Hd; cbn; [| done].
  all: rewrite (H3 ltac:(auto) def eq_refl); done.
Qed.

Section Loaded.
Context `{E : Ext} `{C : !Crates E} `{B : !BsonCrate E} `{HO : HashOrder} `{AH : AuthHost}.

(** A value of schema [a] contains a value of schema [b], which has no table:
    a field of [a] has the type [b], or is a list of it, at any depth. *)
Fixpoint type_contains (t : SchemaType) (name : string) : Prop :=
  match t with
  | Reference n => n = name
  | TypedList t => type_contains t name
  | _ => False
  end.

Definition schema_contains (schemas : gmap string SchemaDefinition) (a b : string) : Prop :=
  (exists s f, schemas !! a = Some s /\ f ∈ sd_fields s /\ type_contains (field_type f) b)
  /\ (forall s, schemas !! b = Some s -> db_table s = None).

Lemma type_contains_refs t name : type_contains t name <-> name ∈ collect_schema_type_refs t.
Proof.
  induction t as [| | | | | | | | | | | | | |t IH]; cbn;
    rewrite ?elem_of_nil, ?list_elem_of_singleton; try done.
Qed.

Lemma schema_contains_embeds schemas a b :
  schema_contains schemas a b <-> schema_embeds schemas a b.
Proof.
  unfold schema_contains, schema_embeds. setoid_rewrite type_contains_refs. f_equiv.
  setoid_rewrite is_persistent_table. split.
  - intros Hb (s & Hs%Hb & Ht). rewrite Hs in Ht. by destruct Ht.
  - intros Hb s Hs. destruct (db_table s) eqn:Ht; [| done]. destruct Hb. exists s. by rewrite Ht.
Qed.

(** The program assigns a literal string to the name. *)
Definition assigns_string (program : list Statement) (name text : string) : Prop :=
  exists line column, SAssignment name (EStringLiteral text) line column ∈ program.

Definition requirement_of (s : Statement) : option string :=
  match s with
  | SAssignment target (EStringLiteral text) _ _ =>
      if String.eqb target "requires_marreta" then Some text else None
  | _ => None
  end.

(** The entry point names its project and a version of it; what it requires of
    the runtime, if anything, is a string, and the last requirement is met. *)
Record entrypoint_ok (program : list Statement) : Prop := {
  en_name : exists text, assigns_string program "project_name" text;
  en_version : exists text, assigns_string program "project_version" text;
  en_string : forall value line column,
    SAssignment "requires_marreta" value line column ∈ program -> exists text, value = EStringLiteral text;
  en_requirement : forall text, last (omap requirement_of program) = Some text ->
    exists minimum actual, parse_requires_marreta text = Some minimum
      /\ parse_version MARRETA_VERSION = Some actual /\ version_ltb actual minimum = false;
}.

Definition scanned (program : list Statement) (m : Metadata) : Prop :=
  (project_name m = true -> exists text, assigns_string program "project_name" text)
  /\ (project_version m = true -> exists text, assigns_string program "project_version" text)
  /\ (requires_marreta_non_string m = false -> forall value line column,
        SAssignment "requires_marreta" value line column ∈ program -> exists text, value = EStringLiteral text)
  /\ requires_marreta m = last (omap requirement_of program).

Lemma scanned_assigns program name s text :
  (exists t, assigns_string program name t) \/ (exists l c, s = SAssignment name (EStringLiteral text) l c) ->
  exists t, assigns_string (program ++ [s]) name t.
Proof.
  unfold assigns_string. intros [(t & l & c & Hin) | (l & c & ->)];
    [exists t, l, c | exists text, l, c]; set_solver.
Qed.

Lemma scanned_step program s m : scanned program m -> scanned (program ++ [s]) (scan_metadata m s).
Proof.
  intros (Hn & Hv & Hs & Hr).
  assert (Hstring : forall b, (b = false -> requires_marreta_non_string m = false
      /\ forall v l c, s = SAssignment "requires_marreta" v l c -> exists text, v = EStringLiteral text) ->
    b = false -> forall v l c, SAssignment "requires_marreta" v l c ∈ program ++ [s] ->
      exists text, v = EStringLiteral text).
  { intros b Hb [Hm Hlast]%Hb v l c [Hin | Hin%list_elem_of_singleton]%elem_of_app;
      [by eapply Hs | by eapply Hlast]. }
  unfold scanned. rewrite last_omap_snoc, <- Hr.
  assert (Hkeep : forall name, (exists t, assigns_string program name t) ->
    exists t, assigns_string (program ++ [s]) name t).
  { intros name Ht. apply (scanned_assigns _ _ _ EmptyString). by left. }
  destruct s as [target value l c| | | | | | | | | | | | | | | | | |]; cbn;
    try (split_and!; [by intros ?%Hn%Hkeep | by intros ?%Hv%Hkeep | by apply Hstring | done]).
  destruct value; cbn;
    try (destruct (String.eqb_spec target "requires_marreta") as [->|Hne]; cbn;
         (split_and!; [by intros ?%Hn%Hkeep | by intros ?%Hv%Hkeep
                      | apply Hstring; first [done | intros ?; split; [done |]; by intros ? ? ? [= ? _ _ _]]
                      | done])).
  destruct (String.eqb_spec target "project_name") as [->|Hn1]; cbn;
    [| destruct (String.eqb_spec target "project_version") as [->|Hn2]; cbn;
       [| destruct (String.eqb_spec target "requires_marreta") as [->|Hn3]; cbn]];
    (split_and!;
       [first [by intros ?%Hn%Hkeep | intros _; eapply scanned_assigns; right; by do 2 eexists]
       | first [by intros ?%Hv%Hkeep | intros _; eapply scanned_assigns; right; by do 2 eexists]
       | apply Hstring; intros ?; split; [done |]; intros ? ? ? Heq; inversion Heq; by eexists
       | done]).
Qed.

Lemma scan_metadata_scanned program :
  scanned program (fold_left scan_metadata program (mkMetadata false false None false)).
Proof.
  induction program as [|s program IH] using rev_ind.
  - split_and!; try done. cbn. intros _ v l c Hin. by apply elem_of_nil in Hin.
  - rewrite fold_left_app. by apply scanned_step.
Qed.

Lemma validate_entrypoint_metadata_Done display program :
  validate_entrypoint_metadata display program = Done tt -> entrypoint_ok program.
Proof.
  unfold validate_entrypoint_metadata.
  destruct (scan_metadata_scanned program) as (Hn & Hv & Hs & Hr). rewrite Hr. clear Hr.
  set (m := fold_left _ _ _) in *.
  destruct (project_name m) eqn:Hpn; [| done]. destruct (project_version m) eqn:Hpv; [| done].
  destruct (requires_marreta_non_string m) eqn:Hns; [done |]. cbn [negb].
  intros Hreq. constructor; [by apply Hn | by apply Hv | by apply Hs |].
  intros text Ht. rewrite Ht in Hreq. unfold check_runtime_compatibility in Hreq.
  destruct (parse_requires_marreta text) as [minimum|]; [| done].
  destruct (parse_version MARRETA_VERSION) as [actual|]; [| done].
  exists minimum, actual. split_and!; [done.. |]. by destruct (version_ltb actual minimum).
Qed.

(** A file namespace: tasks that one file exports, which is not the entry
    point, under the name of the file, which no built-in namespace has. *)
Record file_namespace (p : Project) (modules : list (list Statement)) (stem : string)
    (tasks : gmap string Value) : Prop := {
  fn_nonempty : tasks <> ∅;
  fn_tasks : map_Forall (fun _ v => is_task v = true) tasks;
  fn_free : stem ∉ reserved_namespaces;
  fn_identifier : is_namespace_identifier stem = true;
  fn_owner : exists i path text program,
    collect_marreta_files p !! i = Some (path, text) /\ modules !! i = Some program
    /\ namespace_from_module_id (module_id path) = stem
    /\ forall name, is_Some (tasks !! name) -> exports program name;
}.

Lemma namespace_of_file p modules main defs stem tasks :
  length (collect_marreta_files p) = length modules ->
  map md_id defs = map (fun file => module_id (fst file)) (project_files p) ->
  Forall2 exports_of defs (marked modules main) ->
  namespace_ok defs stem tasks -> file_namespace p modules stem tasks.
Proof.
  intros Hlen Hids Hdefs [Hne Htasks Hfree Hid (m & Hm & He & Hstem & Hnames)].
  constructor; try done.
  { intros Hin%list_elem_of_In. apply not_true_iff_false in Hfree. destruct Hfree.
    apply existsb_exists. exists stem. by rewrite String.eqb_refl. }
  apply list_elem_of_lookup in Hm as [i Hi].
  destruct (Forall2_lookup_l _ _ _ _ _ Hdefs Hi) as ([entry program] & Hmarked & Hentry & Hexp).
  cbn in Hentry, Hexp. rewrite He in Hentry. subst entry. unfold marked in Hmarked.
  apply lookup_app_Some in Hmarked as [Hmarked | [_ Hmain]];
    [| by apply list_lookup_singleton_Some in Hmain as [_ [=]]].
  apply list_lookup_fmap_Some in Hmarked as (program' & [= <-] & Hprog).
  destruct (lookup_lt_is_Some_2 (collect_marreta_files p) i) as [[path text] Hfile].
  { rewrite Hlen. by eapply lookup_lt_Some. }
  exists i, path, text, program. split_and!; [done.. | | intros name ?%Hnames; by apply Hexp].
  rewrite <- Hstem. f_equal.
  assert (Hi' : map md_id defs !! i = Some (md_id m)) by (by rewrite list_lookup_fmap, Hi).
  rewrite Hids, list_lookup_fmap in Hi'. unfold project_files in Hi'.
  rewrite lookup_app_l, Hfile in Hi' by (by eapply lookup_lt_Some). by injection Hi'.
Qed.

(** What a project that loads satisfies.  [modules] are the parsed files, in
    the order of their paths, and [main] is the entry point. *)
Record project_ok (p : Project) (flags : FeatureFlags) (lp : LoadedProject)
    (modules : list (list Statement)) (main : list Statement)
    (all_schemas : gmap string SchemaDefinition) : Prop := {
  po_read : Forall2 reads_to (project_files p) (modules ++ [main]);
  po_entrypoint : entrypoint_ok main;
  po_routes : routes (registry lp) = all_of module_route (project_files p) (modules ++ [main]);
  po_consumers : consumers (registry lp) = all_of module_consumer (project_files p) (modules ++ [main]);
  po_schemas : forall name,
    all_schemas !! name = last (omap (file_schema name) (marked modules main));
  po_public : forall name,
    schemas (registry lp) !! name = last (omap (file_public_schema name) (marked modules main));
  po_providers : forall name provider, auth_providers (registry lp) !! name = Some provider <->
    (exists program, program ∈ modules ++ [main] /\ declares_provider program provider)
    /\ provider_name provider = name;
  po_conflicts : conflicts_within_module (routes (registry lp));
  po_route_runtime : forall r, r ∈ routes (registry lp) -> exists id m,
    rd_module_id r = Some id /\ pr_modules (runtime lp) !! id = Some m /\ mr_id m = id;
  po_names : forall name, is_Some (all_schemas !! name) -> pascal_case name;
  po_acyclic : forall x, ~ tc (schema_contains all_schemas) x x;
  po_persistent : forall name s, all_schemas !! name = Some s -> is_Some (db_table s) ->
    persistent_ok all_schemas name s;
  po_takes : forall r b, r ∈ routes (registry lp) -> b ∈ rd_take r -> take_ok all_schemas b;
  po_auth : auth_contract (routes (registry lp)) (auth_providers (registry lp));
  po_namespaces : forall stem tasks,
    pr_task_namespaces (runtime lp) !! stem = Some tasks -> file_namespace p modules stem tasks;
  po_stored : forall name s, persistent_schemas (registry lp) !! name = Some s
    <-> all_schemas !! name = Some s /\ is_Some (db_table s);
  po_indexes : pr_persistent_schemas (runtime lp) = persistent_schemas (registry lp)
    /\ pr_feature_flags (runtime lp) = flags;
}.

(** The checks of the whole project passed. *)
Definition checked (mg : Merge) : Prop :=
  (forall name, is_Some (mg_all_project_schemas mg !! name) -> pascal_case name)
  /\ (forall x, ~ tc (schema_contains (mg_all_project_schemas mg)) x x)
  /\ (forall name s, mg_all_project_schemas mg !! name = Some s -> is_Some (db_table s) ->
        persistent_ok (mg_all_project_schemas mg) name s)
  /\ (forall r b, r ∈ mg_routes mg -> b ∈ rd_take r -> take_ok (mg_all_project_schemas mg) b)
  /\ auth_contract (mg_routes mg) (mg_auth_providers mg).

Lemma check_project_checked mg : check_project mg = Done tt -> checked mg.
Proof.
  unfold check_project, checked. intros H.
  apply bind_Done in H as ([] & Hn%of_result_Done & H). apply bind_Done in H as ([] & Hc & H).
  apply bind_Done in H as ([] & Hp%of_result_Done & H).
  apply bind_Done in H as ([] & Ht%of_result_Done & H).
  apply bind_Done in H as ([] & Ha%of_result_Done & _).
  split_and!.
  - by apply schema_names_Ok.
  - destruct (detect_schema_cycle_spec (mg_all_project_schemas mg)) as (r & Hr & Hspec).
    rewrite Hr in Hc. intros x Hx. apply of_result_Done in Hc. apply (proj1 Hspec Hc x).
    revert Hx. apply tc_congruence with (f := id). intros a b. apply schema_contains_embeds.
  - intros name s Hs Htable. eapply persistent_schemas_valid_spec; [exact Hp | done |].
    by apply is_persistent_table.
  - intros r b Hr Hb. unfold validate_take_input_schemas in Ht.
    rewrite for_each_Ok, Forall_forall in Ht. apply Ht in Hr.
    rewrite for_each_Ok, Forall_forall in Hr. by apply check_take_schema_Ok, Hr.
  - by apply auth_contract_holds.
Qed.

Lemma merge_project_Done p mg :
  merge_project p = Done mg ->
  checked mg /\ exists modules main,
    merged (project_files p) (modules ++ [main]) mg /\ declared (marked modules main) mg
    /\ entrypoint_ok main.
Proof.
  unfold merge_project. intros (mg' & Hl & H)%bind_Done.
  apply bind_Done in H as ([] & Hc%check_project_checked & [= <-]). split; [done |].
  apply load_files_merged with (files := []) (programs := []) (earlier := []) in Hl
    as (later & program & Hm & Hd & Hmeta%validate_entrypoint_metadata_Done).
  - by exists later, program.
  - constructor; try done; try (by constructor); intros r; intros; by edestruct (not_elem_of_nil r).
  - constructor; cbn; [done | done | | constructor]. intros name p'. rewrite lookup_empty.
    setoid_rewrite elem_of_nil. naive_solver.
Qed.

Lemma always_seq {A A'} (t : Tree A) (f : A -> Tree A') P Q :
  always t P -> (forall a, P a -> always (f a) Q) -> always (tree_bind t f) Q.
Proof. intros Ht Hf. apply tree_wp_bind. eapply tree_wp_mono; [exact Ht |]. intros a [] Ha. by apply Hf. Qed.

(** A bind of the loader: what follows a value, if there is one. *)
Lemma load_seq {A A'} (m : Load A) (k : A -> Load A') (P : A -> Prop) (Q : A' -> Prop) :
  always m (fun r => forall a, r = Done a -> P a) ->
  (forall a, P a -> always (k a) (fun r => forall b, r = Done b -> Q b)) ->
  always (load_bind _ _ k m) (fun r => forall b, r = Done b -> Q b).
Proof.
  intros Hm Hk. eapply always_seq; [exact Hm |].
  intros [a|e| |] Ha; [by apply Hk, Ha | by intros ? [=]..].
Qed.

Lemma build_project_runtime_ok overflow_checks fuel defs publics persistent flags :
  always (build_project_runtime overflow_checks fuel defs publics persistent flags)
    (fun r => forall rt, r = Done rt ->
       runtime_ok defs (pr_modules rt) (pr_task_namespaces rt)
       /\ pr_persistent_schemas rt = persistent /\ pr_feature_flags rt = flags).
Proof.
  unfold build_project_runtime. eapply load_seq.
  - apply run_modules_ok with (defs := []). constructor; [by intros ? H%elem_of_nil | done | done].
  - cbn. intros st [Hm Hid Hns] rt [= <-]. split; [| done]. constructor; cbn; [| | done].
    + intros m [m' Hl]%Hm. rewrite lookup_fmap, Hl. by eexists.
    + intros id m. rewrite lookup_fmap. destruct (_ !! id) as [m'|] eqn:Hl; [| done].
      intros [= <-]. by apply Hid in Hl.
Qed.

Lemma load_project_always overflow_checks sha256 fuel p flags :
  always (load_project_with_feature_flags overflow_checks sha256 fuel p flags)
    (fun r => forall lp, r = Done lp ->
       exists modules main all_schemas, project_ok p flags lp modules main all_schemas).
Proof.
  unfold load_project_with_feature_flags.
  apply load_outcome_bind; try done. intros mg Hmg.
  apply merge_project_Done in Hmg as [(Hn & Hc & Hp & Ht & Ha) (modules & main & Hm & Hd & Hmeta)].
  eapply load_seq; [apply build_project_runtime_ok |].
  intros rt [[Hmods Hid Hns] [Hper Hfl]] lp [= <-].
  destruct Hm as [Hread Hr Hco _ Hmd Hrm Hconf], Hd as [Hall Hpub Hprov Hdefs].
  exists modules, main, (mg_all_project_schemas mg). constructor; cbn; try done.
  - intros name provider. rewrite Hprov. f_equiv. apply declared_marked.
  - intros r (m & Hm & Heq)%Hrm. destruct (Hmods m Hm) as [mr Hmr].
    exists (md_id m), mr. split_and!; [done.. | by apply Hid].
  - intros stem tasks Htasks%Hns. eapply namespace_of_file; [| exact Hmd | exact Hdefs | exact Htasks].
    apply Forall2_length in Hread. unfold project_files in Hread. rewrite !length_app in Hread. cbn in Hread. lia.
  - intros name s. apply collect_persistent_schemas_lookup.
Qed.
End Loaded.


(** ** A concrete project *)

(** [app.marreta] beside a directory with two modules and a text file. *)
Definition demo_project : Project :=
  let app := Ok (lines_of ["project_name = " +:+ dquote +:+ "shop" +:+ dquote;
                           "project_version = " +:+ dquote +:+ "1.0" +:+ dquote;
                           "requires_marreta = " +:+ dquote +:+ ">=0.2.0" +:+ dquote;
                           "limit = 3"]) in
  mkProject "shop" "app.marreta" app
    (Directory (Some
      [("routes", Directory (Some
         [("users.marreta", File (Ok (lines_of ["route GET " +:+ dquote +:+ "/users/:id" +:+ dquote;
                                                "    reply 200, pricing.twice(1)"])));
          ("notes.txt", File (Err "binary"))]));
       ("app.marreta", File app);
       ("pricing.marreta", File (Ok (lines_of ["export task twice(x) => x * 2";
                                               "export schema Price"; "    amount: integer"])));
       ("locked", Directory None)])).

Notation demo_load p :=
  (fst (run demo_handle
          (load_project_with_feature_flags (AH := demo_host) true (fun _ => []) 30 p (mkFeatureFlags ∅))
          [])).

Definition loaded_summary (p : Project) : option (list string * list string * list string) :=
  match demo_load p with
  | Done lp => Some (map rd_path (routes (registry lp)), map fst (map_to_list (pr_modules (runtime lp))),
                     map fst (map_to_list (pr_task_namespaces (runtime lp))))
  | _ => None
  end.

Example demo_summary :
  loaded_summary demo_project
  = Some (["/users/:id"], ["app"; "routes/users"; "pricing"], ["pricing"]).
Proof. vm_compute. reflexivity. Qed.

Lemma discovery_spec_witness :
  map fst (collect_marreta_files demo_project) = [["pricing.marreta"]; ["routes"; "users.marreta"]]
  /\ StronglySorted path_lt (map fst (collect_marreta_files demo_project)).
Proof.
  split; [vm_compute; reflexivity |]. apply (discovery_spec demo_project).
  unfold demo_project. cbn [p_root].
  repeat match goal with
         | |- NoDup _ => apply (bool_decide_unpack _); vm_compute; exact I
         | |- unique_names _ => constructor
         | |- Forall _ _ => constructor; cbn [snd]
         end.
Defined.


(** ** Behaviours *)

Definition with_file (name : string) (lines : list string) : Project :=
  mkProject (p_parent demo_project) (p_name demo_project) (p_text demo_project)
    (Directory (Some [(name, File (Ok (lines_of lines)))])).

(** Two routes of one file that match the same requests are not a conflict to
    the loader: a route is only compared with those of earlier files. *)
Example conflict_within_file_accepted :
  loaded_summary (with_file "users.marreta"
    ["route GET " +:+ dquote +:+ "/users/:id" +:+ dquote; "    reply 200, 1";
     "route GET " +:+ dquote +:+ "/users/:name" +:+ dquote; "    reply 200, 2"])
  = Some (["/users/:id"; "/users/:name"], ["users"; "app"], []).
Proof. vm_compute. reflexivity. Qed.

(** A path parameter may be a reserved word. *)
Example reserved_parameter_accepted :
  loaded_summary (with_file "users.marreta"
    ["route GET " +:+ dquote +:+ "/users/:match" +:+ dquote; "    reply 200, 1"])
  = Some (["/users/:match"], ["users"; "app"], []).
Proof. vm_compute. reflexivity. Qed.

(** The private schema of a later file hides one of the same name from the
    checks: the first [Price] contains itself. *)
Definition hidden_schema : Project :=
  mkProject (p_parent demo_project) (p_name demo_project) (p_text demo_project)
    (Directory (Some [("a.marreta", File (Ok (lines_of ["schema Price"; "    part: Price"])));
                      ("b.marreta", File (Ok (lines_of ["schema Price"; "    amount: integer"])))])).

Example hidden_schema_accepted : loaded_summary hidden_schema = Some ([], ["app"; "a"; "b"], []).
Proof. vm_compute. reflexivity. Qed.

(** A sign is read as part of a component of a version. *)
Example signed_requirement : parse_requires_marreta ">=+0.2.0" = Some (0, 2, 0)%Z.
Proof. reflexivity. Qed.
