(* ===== verification/OpenApiFacts.v ===== *)
(** What the OpenAPI document says of the program (OpenApi.v): the search for
    schemas ends and is closed, every route has its operation, and references
    point to components. *)
From stdpp Require Import base list strings gmap sorting.
From Stdlib Require Import ZArith Lia.
From S2P Require Import Prelude RustStr F64 Ast IndexMap Foreign QueryTypes Value Schemas Environment Crates Auth RouteLoader RouteFacts Migrations ProjectRuntime IndexInference Loader LoaderFacts EvalDemo OpenApi OpenApiOperation.

(** * The search for schemas *)

Section Resolution.
Context `{E : Ext} `{HO : HashOrder}.
Context (registry : RouteRegistry) (runtime : option ProjectRuntime).

(** The references the search can meet: those of the routes and of the public
    schemas, and those of a definition that another reference resolves to. *)
Inductive reached : SchemaRef -> Prop :=
| reached_initial ref : ref ∈ initial_pending registry -> reached ref
| reached_nested name module_id schema ref :
    reached (name, module_id) -> schemas registry !! name = None ->
    resolve_schema_for_docs registry runtime module_id name = Some schema ->
    ref ∈ collect_nested_schema_refs module_id schema -> reached ref.

(** The references inside the schemas the search meets. *)
Definition schema_reference (ref : SchemaRef) : Prop :=
  (exists name schema, schemas registry !! name = Some schema
     /\ ref ∈ collect_nested_schema_refs None schema)
  \/ exists name module_id schema, reached (name, module_id)
     /\ schemas registry !! name = None
     /\ resolve_schema_for_docs registry runtime module_id name = Some schema
     /\ ref ∈ collect_nested_schema_refs module_id schema.

(** A reference is settled when its name is defined, or nothing defines it. *)
Definition settled (resolved : gmap string SchemaDefinition) (ref : SchemaRef) : Prop :=
  is_Some (resolved !! fst ref)
  \/ resolve_schema_for_docs registry runtime (snd ref) (fst ref) = None.

(** A definition is a public schema, or what a reached reference resolves to,
    with everything it refers to settled. *)
Definition justified (resolved : gmap string SchemaDefinition) (name : string)
    (schema : SchemaDefinition) : Prop :=
  schemas registry !! name = Some schema
  \/ exists module_id, reached (name, module_id)
     /\ resolve_schema_for_docs registry runtime module_id name = Some schema
     /\ Forall (settled resolved) (collect_nested_schema_refs module_id schema).

Record closed (resolved : gmap string SchemaDefinition) : Prop := {
  cl_public : schemas registry ⊆ resolved;
  cl_initial : Forall (settled resolved) (initial_pending registry);
  cl_justified : forall name schema,
    resolved !! name = Some schema -> justified resolved name schema;
}.

(** ** The number of iterations *)

Lemma resolves_to_candidate module_id name schema :
  resolve_schema_for_docs registry runtime module_id name = Some schema ->
  (name, schema) ∈ schema_candidates registry runtime.
Proof.
  unfold resolve_schema_for_docs, schema_candidates. intros H. apply elem_of_app.
  destruct runtime as [rt|]; cbn in H; [| left; by apply elem_of_map_to_list].
  destruct (runtime_resolve_schema rt module_id name) as [s|] eqn:Hr;
    [| left; by apply elem_of_map_to_list]. injection H as ->. right.
  unfold runtime_resolve_schema in Hr. apply elem_of_app.
  destruct module_id as [id|]; cbn in Hr; [| left; by apply elem_of_map_to_list].
  destruct (pr_modules rt !! id) as [m|] eqn:Hm; cbn in Hr;
    [| left; by apply elem_of_map_to_list].
  destruct (mr_visible_schemas m !! name) as [s|] eqn:Hs;
    [| left; by apply elem_of_map_to_list]. injection Hr as ->. right.
  apply elem_of_flat_map. exists (id, m). cbn. by rewrite !elem_of_map_to_list.
Qed.

Lemma collect_schema_type_refs_length module_id t :
  length (collect_schema_type_refs module_id t) <= 1.
Proof. induction t; cbn; lia. Qed.

Lemma collect_nested_schema_refs_length module_id schema :
  length (collect_nested_schema_refs module_id schema) <= length (sd_fields schema).
Proof.
  unfold collect_nested_schema_refs. induction (sd_fields schema) as [|f fields IH]; cbn; [lia |].
  rewrite length_app. pose proof (collect_schema_type_refs_length module_id (field_type f)). lia.
Qed.

(** The references the definitions that are not resolved yet can add. *)
Definition weight (resolved : gmap string SchemaDefinition)
    (candidates : list (string * SchemaDefinition)) : nat :=
  sum_of (fun kv => match resolved !! fst kv with
                    | Some _ => 0
                    | None => length (sd_fields (snd kv))
                    end) candidates.

Lemma weight_insert_le resolved name schema cands :
  weight (<[name := schema]> resolved) cands <= weight resolved cands.
Proof.
  unfold weight. induction cands as [|[n d] cands IH]; cbn [sum_of fst snd]; [done |].
  destruct (decide (name = n)) as [->|].
  - rewrite lookup_insert_eq. destruct (resolved !! n); lia.
  - rewrite lookup_insert_ne by done. lia.
Qed.

Lemma weight_insert resolved name schema cands :
  resolved !! name = None -> (name, schema) ∈ cands ->
  weight (<[name := schema]> resolved) cands + length (sd_fields schema) <= weight resolved cands.
Proof.
  intros Hn. induction cands as [|[n d] cands IH]; [by intros ?%not_elem_of_nil |].
  intros [[= <- <-] | Hin]%elem_of_cons.
  - pose proof (weight_insert_le resolved name schema cands) as Hle.
    unfold weight in *. cbn [sum_of fst snd]. rewrite lookup_insert_eq, Hn. lia.
  - apply IH in Hin. unfold weight in *. cbn [sum_of fst snd].
    destruct (decide (name = n)) as [->|].
    + rewrite lookup_insert_eq. lia.
    + rewrite lookup_insert_ne by done. lia.
Qed.

Lemma weight_bound resolved cands :
  weight resolved cands <= sum_of (fun kv => length (sd_fields (snd kv))) cands.
Proof.
  unfold weight. induction cands as [|[n d] cands IH]; cbn [sum_of fst snd]; [done |].
  destruct (resolved !! n); lia.
Qed.

Lemma last_case {A} (l : list A) :
  (last l = None /\ l = []) \/ exists l' x, last l = Some x /\ l = l' ++ [x] /\ removelast l = l'.
Proof.
  induction l as [|x l' _] using rev_ind; [by left |]. right. exists l', x.
  by rewrite last_snoc, removelast_last.
Qed.

Lemma resolve_pending_total fuel resolved pending :
  length pending + weight resolved (schema_candidates registry runtime) < fuel ->
  is_Some (resolve_pending registry runtime fuel resolved pending).
Proof.
  revert resolved pending. induction fuel as [|fuel IH]; intros resolved pending Hfuel; [lia |].
  cbn [resolve_pending].
  destruct (last_case pending) as [[-> _] | (rest & [name module_id] & -> & -> & ->)]; [done |].
  rewrite length_app in Hfuel. cbn [length] in Hfuel.
  destruct (resolved !! name) eqn:Hname; [apply IH; lia |].
  destruct (resolve_schema_for_docs _ _ _ _) as [schema|] eqn:Hr; [| apply IH; lia].
  apply IH. rewrite length_app.
  pose proof (collect_nested_schema_refs_length module_id schema).
  pose proof (weight_insert _ _ _ _ Hname (resolves_to_candidate _ _ _ Hr)). lia.
Qed.

(** ** What the search returns *)

Lemma settled_mono resolved resolved' ref :
  resolved ⊆ resolved' -> settled resolved ref -> settled resolved' ref.
Proof.
  intros Hsub [[d Hd] | Hno]; [left | by right]. exists d. by eapply lookup_weaken.
Qed.

Lemma resolve_pending_grows fuel resolved pending res :
  resolve_pending registry runtime fuel resolved pending = Some res -> resolved ⊆ res.
Proof.
  revert resolved pending. induction fuel as [|fuel IH]; intros resolved pending; [done |].
  cbn [resolve_pending]. destruct (last pending) as [[name module_id]|]; [| by intros [= ->]].
  destruct (resolved !! name) eqn:Hname; [apply IH |].
  destruct (resolve_schema_for_docs _ _ _ _); [| apply IH].
  intros ?%IH. etrans; [by apply insert_subseteq | done].
Qed.

Lemma resolve_pending_settles fuel resolved pending res :
  resolve_pending registry runtime fuel resolved pending = Some res ->
  Forall (settled res) pending.
Proof.
  revert resolved pending. induction fuel as [|fuel IH]; intros resolved pending; [done |].
  cbn [resolve_pending].
  destruct (last_case pending) as [[-> ->] | (rest & [name module_id] & -> & -> & ->)]; [done |].
  destruct (resolved !! name) as [d|] eqn:Hname; [| destruct (resolve_schema_for_docs _ _ _ _) as [d|] eqn:Hr].
  - intros H. apply Forall_app. split; [by eapply IH |]. apply Forall_singleton. left. exists d.
    cbn. by eapply lookup_weaken; [| eapply resolve_pending_grows].
  - intros H. pose proof (resolve_pending_grows _ _ _ _ H) as Hsub.
    apply IH, Forall_app in H as [H _]. apply Forall_app. split; [done |].
    apply Forall_singleton. left. exists d. cbn.
    eapply lookup_weaken; [apply lookup_insert_eq | done].
  - intros H. apply Forall_app. split; [by eapply IH |]. apply Forall_singleton. by right.
Qed.

Lemma resolve_pending_justified fuel resolved pending res :
  resolve_pending registry runtime fuel resolved pending = Some res ->
  schemas registry ⊆ resolved -> Forall reached pending ->
  forall name schema, res !! name = Some schema ->
  resolved !! name = Some schema \/ justified res name schema.
Proof.
  revert resolved pending. induction fuel as [|fuel IH]; intros resolved pending; [done |].
  cbn [resolve_pending].
  destruct (last_case pending) as [[-> ->] | (rest & [name module_id] & -> & -> & ->)];
    [intros [= ->]; by left |].
  intros H Hsub [Hrest [Href _]%Forall_cons]%Forall_app.
  destruct (resolved !! name) as [d|] eqn:Hname; [by eapply IH |].
  destruct (resolve_schema_for_docs _ _ _ _) as [d|] eqn:Hr; [| by eapply IH].
  pose proof (resolve_pending_settles _ _ _ _ H) as [_ Hnested]%Forall_app.
  intros n schema Hn. eapply IH in Hn; [| done | |].
  - destruct Hn as [[[-> ->] | [_ ?]]%lookup_insert_Some | ?]; [| by left | by right].
    right. right. by exists module_id.
  - etrans; [done | by apply insert_subseteq].
  - apply Forall_app. split; [done |]. apply Forall_forall. intros ref Hin.
    eapply reached_nested; [done | | done | done].
    destruct (schemas registry !! name) eqn:Hreg; [| done].
    by rewrite (lookup_weaken _ _ _ _ Hreg Hsub) in Hname.
Qed.

Lemma resolve_all_schema_defs_closed resolved :
  resolve_all_schema_defs registry runtime = Some resolved -> closed resolved.
Proof.
  unfold resolve_all_schema_defs. intros H. constructor.
  - by eapply resolve_pending_grows.
  - by eapply resolve_pending_settles.
  - intros name schema Hn. eapply resolve_pending_justified in Hn; [| done | done |].
    + destruct Hn; [by left | done].
    + apply Forall_forall. intros ref. apply reached_initial.
Qed.
End Resolution.

(** C20: The search for the schemas of the document ends, whatever the
    references between schemas are, cyclic or not; what it returns has every
    public schema, settles every reference of a route, of a public schema and
    of the definitions it adds, and adds nothing that no reference reaches. *)
Theorem schema_search_total `{E : Ext} `{HO : HashOrder} (registry : RouteRegistry)
    (runtime : option ProjectRuntime) :
  exists resolved, resolve_all_schema_defs registry runtime = Some resolved
                   /\ closed registry runtime resolved.
Proof.
  destruct (resolve_pending_total registry runtime (resolve_fuel registry runtime)
              (schemas registry) (initial_pending registry)) as [resolved H].
  - unfold resolve_fuel. pose proof (weight_bound (schemas registry) (schema_candidates registry runtime)).
    lia.
  - exists resolved. split; [done |]. by apply resolve_all_schema_defs_closed.
Qed.

(** * References in the document *)

(** The text of a ["$ref"] entry. *)
Definition entry_ref (key : string) (v : Json) : list string :=
  match v with JString s => if String.eqb key "$ref" then [s] else [] | _ => [] end.

Fixpoint json_refs (j : Json) : list string :=
  match j with
  | JArray items => flat_map json_refs items
  | JObject entries => flat_map (fun kv => entry_ref (fst kv) (snd kv) ++ json_refs (snd kv)) entries
  | _ => []
  end.

(** The entries of a literal, one by one. *)
Ltac literal := repeat apply Forall_cons_2; try apply Forall_nil_2; cbn [fst snd].

Section Refs.
Context (names : gset string).

Definition refs_in (j : Json) : Prop :=
  Forall (fun s => exists name, name ∈ names /\ s = schema_path name) (json_refs j).

(** An entry whose references are in [names]. *)
Definition entry_in (key : string) (v : Json) : Prop :=
  Forall (fun s => exists name, name ∈ names /\ s = schema_path name) (entry_ref key v) /\ refs_in v.

Definition entries_in (entries : list (string * Json)) : Prop :=
  Forall (fun kv => entry_in (fst kv) (snd kv)) entries.

Lemma Forall_flat_map {A B} (P : B -> Prop) (f : A -> list B) l :
  Forall P (flat_map f l) <-> Forall (fun x => Forall P (f x)) l.
Proof.
  induction l as [|x l IH]; cbn [flat_map]; [by rewrite !Forall_nil |].
  by rewrite Forall_app, Forall_cons, IH.
Qed.

Lemma refs_in_object entries : refs_in (JObject entries) <-> entries_in entries.
Proof.
  unfold refs_in, entries_in, entry_in. cbn [json_refs]. rewrite Forall_flat_map.
  apply Forall_proper; [| done]. intros kv. by rewrite Forall_app.
Qed.

Lemma refs_in_array items : refs_in (JArray items) <-> Forall refs_in items.
Proof. unfold refs_in. cbn [json_refs]. by rewrite Forall_flat_map. Qed.

Lemma entry_in_key key v : String.eqb key "$ref" = false -> refs_in v -> entry_in key v.
Proof.
  intros Hk Hv. split; [| done]. destruct v; cbn; rewrite ?Hk; by constructor.
Qed.

Lemma entry_in_object key entries : entries_in entries -> entry_in key (JObject entries).
Proof. intros H. split; [by constructor | by apply refs_in_object]. Qed.

Lemma entry_in_array key items : Forall refs_in items -> entry_in key (JArray items).
Proof. intros H. split; [by constructor | by apply refs_in_array]. Qed.

Lemma entry_in_schema name : name ∈ names -> entry_in "$ref" (JString (schema_path name)).
Proof. intros H. split; [| by constructor]. repeat constructor. by exists name. Qed.

Lemma refs_in_string s : refs_in (JString s).
Proof. constructor. Qed.
Lemma refs_in_bool b : refs_in (JBool b).
Proof. constructor. Qed.

Lemma entries_in_insert key v entries :
  entry_in key v -> entries_in entries -> entries_in (IM.insert key v entries).
Proof.
  intros Hv. induction 1 as [|[k w] entries Hw Hentries IH]; cbn [IM.insert]; [by literal |].
  destruct (String.eqb_spec k key) as [->|]; by constructor.
Qed.

Lemma entries_in_extend pairs entries :
  entries_in pairs -> entries_in entries -> entries_in (IM.extend entries pairs).
Proof.
  unfold IM.extend. intros H. revert entries.
  induction H as [|[k v] pairs Hv Hp IH]; intros entries He; [done |]. cbn [fold_left].
  apply IH. by apply entries_in_insert.
Qed.

Lemma entries_in_or_insert key v entries :
  entry_in key v -> entries_in entries -> entries_in (or_insert key v entries).
Proof. unfold or_insert. case_match; [done | apply entries_in_insert]. Qed.

Lemma refs_in_json_set key v j : entry_in key v -> refs_in j -> refs_in (json_set key v j).
Proof.
  intros Hv Hj. destruct j; try done; cbn [json_set].
  - apply refs_in_object. by literal.
  - apply refs_in_object, entries_in_insert; [done |]. by apply refs_in_object.
Qed.

Lemma entries_in_entries `{HO : HashOrder} (m : gmap string Json) :
  (forall k v, m !! k = Some v -> entry_in k v) -> entries_in (entries m).
Proof.
  intros H. apply Forall_forall. intros [k v] Hin%elem_of_entries. by apply H.
Qed.
End Refs.

(** Goes down a JSON value, leaving the parts that are not literal. *)
Ltac refs :=
  repeat (cbn [fst snd]; first
    [ assumption
    | lazymatch goal with
      | |- refs_in _ (JString _) => apply refs_in_string
      | |- refs_in _ (jstr _) => apply refs_in_string
      | |- refs_in _ (JBool _) => apply refs_in_bool
      | |- refs_in _ (JObject _) => apply refs_in_object
      | |- refs_in _ (jobj _) => apply refs_in_object
      | |- refs_in _ (JArray _) => apply refs_in_array
      | |- refs_in _ (json_set _ _ _) => apply refs_in_json_set
      | |- entries_in _ (or_insert _ _ _) => apply entries_in_or_insert
      | |- entries_in _ [] => apply Forall_nil_2
      | |- entries_in _ (_ :: _) => apply Forall_cons_2
      | |- Forall _ [] => apply Forall_nil_2
      | |- Forall _ (_ :: _) => apply Forall_cons_2
      | |- entry_in _ _ (JObject _) => apply entry_in_object
      | |- entry_in _ _ (jobj _) => apply entry_in_object
      | |- entry_in _ _ (JArray _) => apply entry_in_array
      | |- entry_in _ _ _ => apply entry_in_key; [reflexivity |]
      end ]).

Section DocumentRefs.
Context `{E : Ext} `{C : !Crates E} `{HO : HashOrder} `{AH : AuthHost}.
Context (resolved : gmap string SchemaDefinition).
Abbreviation names := (dom (build_component_schemas resolved)).

(** Every schema a definition refers to is defined. *)
Definition nested_defined : Prop :=
  forall name schema ref, resolved !! name = Some schema ->
  ref ∈ collect_nested_schema_refs None schema -> is_Some (resolved !! fst ref).

Lemma elem_of_names name : name ∈ names <-> is_Some (resolved !! name).
Proof. unfold build_component_schemas. by rewrite dom_fmap, elem_of_dom. Qed.

Lemma map_strings_in (l : list string) : Forall (refs_in names) (map jstr l).
Proof. induction l; constructor; [constructor | done]. Qed.

(** The schema of a type is an object whose references are those collected. *)
Lemma schema_type_entries t :
  (forall ref, ref ∈ collect_schema_type_refs None t -> is_Some (resolved !! fst ref)) ->
  exists es, schema_type_to_openapi t = JObject es /\ entries_in names es.
Proof.
  induction t as [| | | | | | | | | | | |values|name|inner IH]; intros Hrefs;
    cbn [schema_type_to_openapi]; eexists; (split; [reflexivity |]); try (by refs).
  - literal; [refs |]. apply entry_in_array, map_strings_in.
  - constructor; [| constructor]. apply entry_in_schema, elem_of_names.
    apply (Hrefs (name, None)). by left.
  - destruct IH as (es & -> & Hes); [done |]. literal; [refs |].
    by apply entry_in_object.
Qed.

Lemma schema_type_in t :
  (forall ref, ref ∈ collect_schema_type_refs None t -> is_Some (resolved !! fst ref)) ->
  refs_in names (schema_type_to_openapi t).
Proof. intros (es & -> & ?)%schema_type_entries. by apply refs_in_object. Qed.

Lemma field_refs_defined name schema field :
  nested_defined -> resolved !! name = Some schema -> field ∈ sd_fields schema ->
  forall ref, ref ∈ collect_schema_type_refs None (field_type field) -> is_Some (resolved !! fst ref).
Proof.
  intros Hnd Hs Hf ref Href. eapply Hnd; [done |]. apply elem_of_flat_map. by exists field.
Qed.

Lemma schema_definition_in name schema :
  nested_defined -> resolved !! name = Some schema ->
  exists es, schema_definition_to_openapi schema = JObject es /\ entries_in names es.
Proof.
  intros Hnd Hs.
  assert (Hprops : entries_in names (entries (schema_properties schema))).
  { apply entries_in_entries. unfold schema_properties.
    assert (Hfields : forall f, f ∈ sd_fields schema ->
      forall ref, ref ∈ collect_schema_type_refs None (field_type f) -> is_Some (resolved !! fst ref))
      by (intros; by eapply field_refs_defined).
    assert (H0 : forall k v, (∅ : gmap string Json) !! k = Some v -> entry_in names k v) by done.
    revert H0. generalize (∅ : gmap string Json) as m.
    induction (sd_fields schema) as [|f fields IH]; intros m Hm; [done |]. cbn [fold_left].
    apply IH; [intros; eapply Hfields; [by right | done] |].
    intros k v [[<- <-] | [_ ?]]%lookup_insert_Some; [| by apply Hm].
    destruct (schema_type_entries (field_type f)) as (es & -> & Hes);
      [apply Hfields; by left |]. by apply entry_in_object. }
  assert (Hbase : entries_in names [("type", jstr "object"); ("properties", JObject (entries (schema_properties schema)))]).
  { literal; [refs | by apply entry_in_object]. }
  unfold schema_definition_to_openapi. destruct (required_fields schema) as [|r rs]; eexists;
    (split; [reflexivity |]); [done |].
  apply entries_in_insert; [| done]. apply entry_in_array, map_strings_in.
Qed.

(** ** Operations *)

Lemma schema_ref_or_fallback_in name :
  exists es, schema_ref_or_fallback names name = JObject es /\ entries_in names es.
Proof.
  unfold schema_ref_or_fallback. destruct (decide _); eexists; (split; [reflexivity |]).
  - apply Forall_cons_2; [by apply entry_in_schema | apply Forall_nil_2].
  - refs.
Qed.

Lemma schema_ref_in name : refs_in names (schema_ref_or_fallback names name).
Proof. destruct (schema_ref_or_fallback_in name) as (es & -> & ?). by apply refs_in_object. Qed.

Lemma infer_list_item_schema_in l :
  Forall (refs_in names) l -> refs_in names (infer_list_item_schema l).
Proof.
  destruct 1 as [|x l Hx Hl]; cbn; [refs |]. destruct (forallb _ _); refs.
Qed.

Definition inferred_in (e : Expression) : Prop :=
  exists es, infer_expression_schema names e = JObject es /\ entries_in names es.

Lemma inferred_refs e : inferred_in e -> refs_in names (infer_expression_schema names e).
Proof. intros (es & -> & ?). by apply refs_in_object. Qed.

Lemma infer_expression_in e : inferred_in e.
Proof.
  change (match NExpression e with NExpression e => inferred_in e | _ => True end).
  generalize (NExpression e). clear e. intros n. induction n as [n IH] using tree_ind.
  destruct n as [ | | |e| | | | | |]; try done. unfold inferred_in.
  destruct e; cbn [infer_expression_schema];
    try (eexists; split; [reflexivity | solve [refs]]); try (apply schema_ref_or_fallback_in).
  - eexists. split; [reflexivity |]. refs. apply infer_list_item_schema_in, Forall_map.
    apply Forall_forall. intros item Hin. apply inferred_refs.
    apply (IH (NExpression item)). by apply list_elem_of_fmap_2.
  - eexists. split; [reflexivity |]. refs. apply entries_in_extend; [| refs].
    unfold entries_in. apply Forall_map, Forall_forall. intros [k v] Hin. cbn [fst snd].
    destruct (IH (NExpression v)) as (es & -> & Hes); [| by apply entry_in_object].
    cbn. apply list_elem_of_fmap. by exists (k, v).
  - destruct arguments; [eexists; split; [reflexivity | refs] |].
    destruct (String.eqb _ _); (eexists; split; [reflexivity | refs]).
Qed.

Lemma response_in response : refs_in names (response_to_openapi names response).
Proof.
  assert (Hschema : refs_in names match rs_schema_name response with
    | Some name => schema_ref_or_fallback names name
    | None => infer_expression_schema names (rs_body response) end)
    by (case_match; [apply schema_ref_in | apply inferred_refs, infer_expression_in]).
  unfold response_to_openapi, content_of, text_schema.
  destruct (rs_content_type response), (rs_code response); refs.
Qed.

Lemma described_entries key v es :
  v = JObject es -> entries_in names es -> entry_in names key v.
Proof. intros ->. apply entry_in_object. Qed.

Lemma response_entry response :
  exists es, response_to_openapi names response = JObject es.
Proof.
  unfold response_to_openapi. destruct (rs_code response); cbn [json_set jobj]; by eexists.
Qed.

Lemma response_entry_in key response : entry_in names key (response_to_openapi names response).
Proof.
  destruct (response_entry response) as [es Hes]. pose proof (response_in response) as Hin.
  rewrite Hes in *. apply entry_in_object. by apply refs_in_object.
Qed.

Lemma operation_responses_in route : entries_in names (operation_responses names route).
Proof.
  unfold operation_responses. set (outcomes := collect_route_outcomes (rd_body route)).
  assert (H1 : forall acc, entries_in names acc ->
    entries_in names (fold_left (insert_response names) (ro_responses outcomes) acc)).
  { induction (ro_responses outcomes) as [|r l IH]; intros acc Hacc; [done |]. cbn [fold_left].
    apply IH. unfold insert_response. apply entries_in_or_insert; [apply response_entry_in | done]. }
  assert (H2 : forall acc, entries_in names acc ->
    entries_in names (fold_left insert_error_code (ro_error_codes outcomes) acc)).
  { induction (ro_error_codes outcomes) as [|c l IH]; intros acc Hacc; [done |]. cbn [fold_left].
    apply IH. unfold insert_error_code, described. refs. }
  assert (Hlast : forall acc, entries_in names acc ->
    entries_in names match acc with
      | [] => [("200", jobj [("description", jstr "Success");
                 ("content", content_of "application/json" generic_json_object_schema)])]
      | _ => acc end).
  { intros [|]; [| done]. intros _. unfold content_of, generic_json_object_schema. refs. }
  specialize (H2 _ (H1 [] (Forall_nil_2 _))).
  apply Hlast. unfold described.
  destruct (rd_auth route), (rd_allow route), (has_schema_binding route); refs.
Qed.

Lemma field_parameter_in name schema location :
  nested_defined -> resolved !! name = Some schema ->
  Forall (refs_in names) (map (field_parameter location) (sd_fields schema)).
Proof.
  intros Hnd Hs. apply Forall_map, Forall_forall. intros field Hf. unfold field_parameter.
  assert (refs_in names (schema_type_to_openapi (field_type field)))
    by (eapply schema_type_in, field_refs_defined; done).
  destruct (is_list_type _); refs.
Qed.

Lemma operation_parameters_in route :
  nested_defined -> Forall (refs_in names) (operation_parameters resolved route).
Proof.
  intros Hnd. unfold operation_parameters. rewrite !Forall_app. split_and!.
  - unfold path_parameters, text_schema. apply Forall_flat_map, Forall_forall. intros seg _.
    case_match; refs.
  - unfold schema_parameters. destruct (binding_schema route TKQuery) as [name|]; cbn; [| done].
    destruct (resolved !! name) eqn:Hn; [by eapply field_parameter_in | done].
  - unfold schema_parameters. destruct (binding_schema route TKHeaders) as [name|]; cbn; [| done].
    destruct (resolved !! name) eqn:Hn; [by eapply field_parameter_in | done].
Qed.

Lemma request_body_in route body :
  build_request_body names route = Some body -> refs_in names body.
Proof.
  assert (Hschema : refs_in names match payload_schema (rd_take route) with
    | Some name => schema_ref_or_fallback names name
    | None => free_form_json_object_schema end).
  { case_match; [apply schema_ref_in | unfold free_form_json_object_schema; refs]. }
  unfold build_request_body, required_body, content_of, text_schema, generic_json_object_schema.
  intros H. repeat case_match; simplify_eq; refs.
Qed.

Lemma build_operation_in tag route :
  nested_defined ->
  exists es, build_operation names resolved tag route = JObject es /\ entries_in names es.
Proof.
  intros Hnd. pose proof (operation_responses_in route) as Hr.
  pose proof (operation_parameters_in route Hnd) as Hp. unfold build_operation.
  destruct (operation_parameters resolved route) as [|p ps], (rd_auth route) as [auth|];
    unfold jobj; rewrite ?json_set_entries; eexists; (split; [reflexivity |]);
    repeat apply entries_in_insert; refs.
  all: apply entry_in_array; refs.
Qed.

Lemma route_operation_in title id route :
  nested_defined ->
  exists es, route_operation names resolved title id route = JObject es /\ entries_in names es.
Proof.
  intros Hnd. unfold route_operation.
  destruct (build_operation_in (route_tag title route) route Hnd) as (es & -> & Hes).
  pose proof (request_body_in route) as Hb.
  destruct (build_request_body names route) as [body|]; [specialize (Hb _ eq_refl) |];
    destruct (has_headers_binding route); rewrite ?json_set_entries; eexists;
    (split; [reflexivity |]); repeat apply entries_in_insert; refs.
Qed.

(** ** The document *)

Definition path_objects (m : gmap string Json) : Prop :=
  forall path j, m !! path = Some j -> exists es, j = JObject es /\ entries_in names es.

Lemma verb_entry_in verb v es :
  v = JObject es -> entries_in names es -> entry_in names (verb_str verb) v.
Proof. intros -> ?. by apply entry_in_object. Qed.

Lemma add_route_objects title st route :
  nested_defined -> path_objects (ds_paths st) ->
  path_objects (ds_paths (add_route names resolved title st route)).
Proof.
  intros Hnd Hst. unfold add_route.
  destruct (operation_id route (ds_operation_ids st)) as [oid ids]. cbn [ds_paths].
  destruct (route_operation_in title oid route Hnd) as (op & Hop & Hin).
  intros path j [[<- <-] | [_ ?]]%lookup_insert_Some; [| by eapply Hst].
  destruct (ds_paths st !! to_openapi_path (rd_path route)) as [entry|] eqn:Hentry; cbn [from_option]; unfold id.
  - destruct (Hst _ _ Hentry) as (es & -> & Hes). rewrite json_set_entries. eexists.
    split; [reflexivity |]. apply entries_in_insert; [by eapply verb_entry_in | done].
  - unfold jobj. rewrite json_set_entries. eexists. split; [reflexivity |].
    apply entries_in_insert; [by eapply verb_entry_in | refs].
Qed.

Lemma document_routes_objects registry title :
  nested_defined -> path_objects (ds_paths (document_routes registry resolved title)).
Proof.
  intros Hnd. unfold document_routes.
  assert (H : path_objects (ds_paths (mkDocState ∅ [] ∅))) by done. revert H.
  generalize (mkDocState ∅ [] ∅). induction (routes registry) as [|r rs IH]; intros st Hst; [done |].
  cbn [fold_left]. by apply IH, add_route_objects.
Qed.

Lemma security_schemes_in providers : entries_in names (entries (build_security_schemes providers)).
Proof.
  apply entries_in_entries. intros k v. unfold build_security_schemes. rewrite lookup_fmap_Some.
  intros (p & <- & _). destruct p; cbn [security_scheme]; refs.
Qed.

Lemma component_schemas_in :
  nested_defined -> entries_in names (entries (build_component_schemas resolved)).
Proof.
  intros Hnd. apply entries_in_entries. intros k v. unfold build_component_schemas.
  rewrite lookup_fmap_Some. intros (s & <- & Hs).
  destruct (schema_definition_in k s Hnd Hs) as (es & -> & Hes). by apply entry_in_object.
Qed.

Lemma consumer_in c : refs_in names (consumer_to_openapi c).
Proof. unfold consumer_to_openapi. destruct (cd_kind c), (cd_schema c); refs. Qed.

Lemma document_in registry title version :
  nested_defined -> refs_in names (document registry resolved title version).
Proof.
  intros Hnd. unfold document.
  set (tag_names := match ds_tag_names _ with [] => _ | _ => _ end).
  assert (Hpaths : entries_in names (entries (ds_paths (document_routes registry resolved title)))).
  { apply entries_in_entries. intros k v Hv.
    destruct (document_routes_objects registry title Hnd _ _ Hv) as (es & -> & ?).
    by apply entry_in_object. }
  assert (Htags : Forall (refs_in names) (map (fun n => jobj [("name", jstr n)]) tag_names)).
  { apply Forall_map, Forall_forall. intros n _. cbn. refs. }
  pose proof (component_schemas_in Hnd) as Hcomp.
  pose proof (security_schemes_in (auth_providers registry)) as Hsec.
  assert (Hcons : Forall (refs_in names) (map consumer_to_openapi (consumers registry))).
  { apply Forall_map, Forall_forall. intros c _. apply consumer_in. }
  unfold add_consumers, add_components.
  destruct (consumers registry), (map_nonempty (build_component_schemas resolved)),
    (map_nonempty (build_security_schemes (auth_providers registry))); cbn [orb]; refs.
Qed.
End DocumentRefs.

(** A reference without its module. *)
Lemma collect_schema_type_refs_module m m' t ref :
  ref ∈ collect_schema_type_refs m t -> (fst ref, m') ∈ collect_schema_type_refs m' t.
Proof.
  induction t; cbn; try (by intros ?%not_elem_of_nil); [| done].
  intros ->%list_elem_of_singleton. by left.
Qed.

Lemma collect_nested_schema_refs_module m m' schema ref :
  ref ∈ collect_nested_schema_refs m schema -> (fst ref, m') ∈ collect_nested_schema_refs m' schema.
Proof.
  unfold collect_nested_schema_refs. rewrite !elem_of_flat_map. intros (f & Hf & H).
  exists f. split; [done |]. by eapply collect_schema_type_refs_module.
Qed.

(** C18: Every ["$ref"] of the document names a component of the document, as
    long as every schema that the search meets can be resolved from the module
    that refers to it: in the operations, whatever the bodies of the routes
    are, and in the schemas of the components, which are referred to without
    a test. *)
Theorem references_name_components `{E : Ext} `{C : !Crates E} `{HO : HashOrder} `{AH : AuthHost}
    (registry : RouteRegistry) (runtime : option ProjectRuntime)
    (resolved : gmap string SchemaDefinition) (title version ref : string)
    (Hresolves : forall name module_id, schema_reference registry runtime (name, module_id) ->
                 resolve_schema_for_docs registry runtime module_id name <> None)
    (Hresolved : resolve_all_schema_defs registry runtime = Some resolved)
    (Href : ref ∈ json_refs (document registry resolved title version)) :
  exists name, ref = schema_path name /\ is_Some (build_component_schemas resolved !! name).
Proof.
  assert (Hnd : nested_defined resolved).
  { pose proof (resolve_all_schema_defs_closed _ _ _ Hresolved) as [Hpub Hinit Hjust].
    rewrite Forall_forall in Hinit. intros name schema r Hs Hr.
    destruct (schemas registry !! name) as [d|] eqn:Hreg.
    - assert (d = schema) as -> by (eapply lookup_weaken in Hpub; [| done]; congruence).
      apply collect_nested_schema_refs_module with (m' := None) in Hr.
      assert (Hp : (fst r, None) ∈ initial_pending registry).
      { unfold initial_pending. apply elem_of_app. right. apply elem_of_flat_map.
        exists (name, schema). by rewrite elem_of_entries. }
      destruct (Hinit _ Hp) as [? | Hno]; [done |].
      edestruct Hresolves; [left; by exists name, schema | done].
    - destruct (Hjust _ _ Hs) as [? | (m & Hreach & Hm & Hset)]; [congruence |].
      apply collect_nested_schema_refs_module with (m' := m) in Hr.
      rewrite Forall_forall in Hset. destruct (Hset _ Hr) as [? | Hno]; [done |].
      edestruct Hresolves; [right; by exists name, m, schema | done]. }
  pose proof (document_in resolved registry title version Hnd) as Hin.
  unfold refs_in in Hin. rewrite Forall_forall in Hin.
  destruct (Hin _ Href) as (name & Hname & ->). exists name. split; [done |].
  by apply elem_of_dom.
Qed.

(** * The operations of the document *)

(** Two literal segments never clash with a parameter: none begins with a
    brace. *)
Definition plain_path (path : string) : Prop :=
  forall segment, segment ∈ split_on "/" path -> starts_with "{" segment = false.

Lemma strip_prefix_starts p s :
  starts_with p s = match strip_prefix p s with Some _ => true | None => false end.
Proof.
  revert s. induction p as [|a p IH]; intros [|b s]; try done. unfold starts_with in *.
  cbn [String.prefix strip_prefix]. destruct (Ascii.eqb_spec a b) as [->|].
  - destruct (Ascii.ascii_dec b b); [apply IH | done].
  - by destruct (Ascii.ascii_dec a b).
Qed.

Lemma openapi_segment_matches a b :
  starts_with "{" a = false -> starts_with "{" b = false ->
  openapi_segment a = openapi_segment b -> segment_matches a b.
Proof.
  unfold openapi_segment, segment_matches. rewrite !(strip_prefix_starts ":").
  destruct (strip_prefix ":" a), (strip_prefix ":" b); intros Ha Hb; [by right | | | by left].
  - intros <-. rewrite strip_prefix_starts, strip_prefix_append in Hb. discriminate Hb.
  - intros ->. rewrite strip_prefix_starts, strip_prefix_append in Ha. discriminate Ha.
Qed.

Lemma openapi_segment_free w : str_has "/" w = false -> str_has "/" (openapi_segment w) = false.
Proof.
  unfold openapi_segment. intros Hw. destruct (strip_prefix ":" w) as [name|] eqn:Hs; [| done].
  destruct w as [|c w]; [done |]. cbn [strip_prefix] in Hs.
  destruct (Ascii.eqb _ _); [| done]. injection Hs as ->. cbn [str_has] in Hw.
  apply orb_false_iff in Hw as [_ Hw]. by rewrite !str_has_app, Hw.
Qed.

Lemma split_openapi_path p : split_on "/" (to_openapi_path p) = map openapi_segment (split_on "/" p).
Proof.
  unfold to_openapi_path. apply split_join.
  - intros Hm. apply map_eq_nil in Hm. by eapply split_on_nonnil.
  - intros w (v & -> & Hv)%list_elem_of_fmap. apply openapi_segment_free. by eapply split_on_free.
Qed.

Lemma to_openapi_path_documents p : documents_path p (to_openapi_path p).
Proof.
  unfold documents_path. rewrite split_openapi_path.
  induction (split_on "/" p) as [|segment l IH]; [constructor |].
  constructor; [apply openapi_segment_documents | exact IH].
Qed.

Lemma to_openapi_path_matches p q :
  plain_path p -> plain_path q -> to_openapi_path p = to_openapi_path q ->
  Forall2 segment_matches (split_on "/" p) (split_on "/" q).
Proof.
  intros Hp Hq Heq.
  assert (Hmap : map openapi_segment (split_on "/" p) = map openapi_segment (split_on "/" q))
    by (by rewrite <- !split_openapi_path, Heq).
  unfold plain_path in Hp, Hq. revert Hp Hq Hmap. clear Heq.
  generalize (split_on "/" p) (split_on "/" q). intros l r. revert r.
  induction l as [|a l IH]; intros [|b r] Hl Hr; cbn; try done. intros [= Hab Hlr]. constructor.
  - apply openapi_segment_matches; [apply Hl; by left | apply Hr; by left | done].
  - apply IH; [intros; apply Hl; by right | intros; apply Hr; by right | done].
Qed.

Lemma verb_str_inj v w : verb_str v = verb_str w -> v = w.
Proof. by destruct v, w. Qed.

Section Operations.
Context `{E : Ext} `{C : !Crates E} `{HO : HashOrder} `{AH : AuthHost}.
Context (component_names : gset string) (resolved : gmap string SchemaDefinition) (title : string).

(** The key of an operation. *)
Definition operation_key (route : RouteDefinition) : string * string :=
  (to_openapi_path (rd_path route), verb_str (rd_verb route)).

(** What the paths hold under a path and a verb. *)
Definition operation_at (paths : gmap string Json) (key : string * string) : option Json :=
  match paths !! fst key with Some (JObject es) => IM.get (snd key) es | _ => None end.

Definition all_objects (paths : gmap string Json) : Prop :=
  forall path j, paths !! path = Some j -> exists es, j = JObject es.

Lemma add_route_operation_at earlier st route :
  all_objects (ds_paths st) -> numbered earlier (ds_operation_ids st) ->
  let st' := add_route component_names resolved title st route in
  all_objects (ds_paths st') /\ numbered (earlier ++ [route]) (ds_operation_ids st') /\
  operation_at (ds_paths st') (operation_key route)
  = Some (route_operation component_names resolved title (route_identifier earlier route) route) /\
  (forall key, key <> operation_key route ->
     operation_at (ds_paths st') key = operation_at (ds_paths st) key).
Proof.
  intros Hst Hids. unfold add_route.
  destruct (operation_id_numbered earlier route (ds_operation_ids st) Hids) as [Hid Hnext].
  destruct (operation_id route (ds_operation_ids st)) as [oid ids]. cbn [fst snd] in Hid, Hnext. subst oid.
  cbn [ds_paths ds_operation_ids]. set (op := route_operation _ _ _ _ _).
  assert (Hentry : exists es, default (jobj []) (ds_paths st !! to_openapi_path (rd_path route)) = JObject es
    /\ forall verb, operation_at (ds_paths st) (to_openapi_path (rd_path route), verb) = IM.get verb es).
  { unfold operation_at. cbn [fst snd].
    destruct (ds_paths st !! to_openapi_path (rd_path route)) as [j|] eqn:Hj; [| by exists []].
    destruct (Hst _ _ Hj) as [es ->]. by exists es. }
  destruct Hentry as (es & -> & Hes). rewrite json_set_entries. split_and!; [| done | |].
  - intros path j [[_ <-] | [_ ?]]%lookup_insert_Some; [by eexists | by eapply Hst].
  - unfold operation_at. cbn [operation_key fst snd].
    by rewrite lookup_insert_eq, IM.get_insert_eq.
  - intros [path verb] Hkey. destruct (decide (path = to_openapi_path (rd_path route))) as [->|Hne].
    + rewrite Hes. unfold operation_at. cbn [fst snd]. rewrite lookup_insert_eq, IM.get_insert_ne; [done |].
      intros <-. done.
    + unfold operation_at. cbn [fst snd]. by rewrite lookup_insert_ne by done.
Qed.

Lemma add_routes_operation_at rs : forall earlier st,
  all_objects (ds_paths st) -> numbered earlier (ds_operation_ids st) ->
  let st' := fold_left (add_route component_names resolved title) rs st in
  all_objects (ds_paths st') /\
  (NoDup (map operation_key rs) -> forall i route, rs !! i = Some route ->
     operation_at (ds_paths st') (operation_key route)
     = Some (route_operation component_names resolved title
               (route_identifier (earlier ++ take i rs) route) route)) /\
  (forall key, key ∉ map operation_key rs ->
     operation_at (ds_paths st') key = operation_at (ds_paths st) key).
Proof.
  induction rs as [|r rs IH]; intros earlier st Hst Hids; cbn [fold_left map].
  { split_and!; [done | by intros _ [|i] route | done]. }
  destruct (add_route_operation_at earlier st r Hst Hids) as (Hobj & Hids' & Hop & Hother).
  destruct (IH _ _ Hobj Hids') as (Hobj' & Hin & Hout). split_and!; [done | |].
  - intros [Hfresh Hnd]%NoDup_cons [|i] route Hr.
    + injection Hr as <-. cbn [take]. by rewrite app_nil_r, Hout.
    + cbn in Hr. cbn [take]. rewrite (Hin Hnd i route Hr), <- app_assoc. done.
  - intros key [Hne Hnot]%not_elem_of_cons. by rewrite Hout, Hother.
Qed.
End Operations.

Lemma operation_keys_distinct rs :
  distinct_requests rs -> Forall (fun r => plain_path (rd_path r)) rs -> NoDup (map operation_key rs).
Proof.
  intros Hok Hplain. apply NoDup_alt. intros i j key Hi Hj.
  rewrite list_lookup_fmap in Hi, Hj.
  destruct (rs !! i) as [a|] eqn:Ha; [| done]. destruct (rs !! j) as [b|] eqn:Hb; [| done].
  cbn in Hi, Hj. rewrite <- Hj in Hi. injection Hi as Hpath Hverb%verb_str_inj.
  destruct (decide (i = j)) as [|Hij]; [done |]. exfalso.
  eapply (Hok i j); [done.. |].
  rewrite Forall_forall in Hplain.
  apply to_openapi_path_matches; [| | done]; apply Hplain; by eapply list_elem_of_lookup_2.
Qed.

Lemma document_paths `{E : Ext} `{C : !Crates E} `{HO : HashOrder} `{AH : AuthHost}
    registry resolved title version :
  exists spec, document registry resolved title version = JObject spec
  /\ IM.get "paths" spec
     = Some (JObject (entries (ds_paths (document_routes registry resolved title)))).
Proof.
  unfold document, add_consumers, add_components.
  destruct (consumers registry); destruct (_ || _); unfold jobj; rewrite ?json_set_entries;
    (eexists; split; [reflexivity |]); rewrite ?IM.get_insert; reflexivity.
Qed.


(** * Examples *)

#[local] Existing Instance demo_host.

Definition demo_route (verb : HttpVerb) (path : string) (body : list Statement) : RouteDefinition :=
  mkRouteDefinition verb path None [] [] body 1 1 (Some "order_api") (Some "order_api").

Definition demo_doc_registry : RouteRegistry :=
  mkRouteRegistry
    [demo_route VGet "/orders/:id"
       [SReply (EInteger 200) RJson (ESchemaConstructor "Order" []) None None 1 1;
        SFail 404 (EStringLiteral "no order") 2 1];
     demo_route VDelete "/orders/:id" []]
    {["Order" := mkSchemaDefinition None [mkSchemaField "line" (Reference "Line") false];
      "Line" := mkSchemaDefinition None [mkSchemaField "total" DecimalType true]]}
    ∅ [] [] ∅.

Example demo_document_refs :
  (fun resolved => json_refs (document demo_doc_registry resolved "Shop" "1.0"))
    <$> resolve_all_schema_defs demo_doc_registry None
  = Some ["#/components/schemas/Order"; "#/components/schemas/Line"].
Proof. vm_compute. reflexivity. Qed.

Lemma references_name_components_witness :
  exists resolved, resolve_all_schema_defs demo_doc_registry None = Some resolved
  /\ exists name, "#/components/schemas/Line" = schema_path name
     /\ is_Some (build_component_schemas resolved !! name).
Proof.
  destruct (resolve_all_schema_defs demo_doc_registry None) as [resolved|] eqn:Hres;
    [| vm_compute in Hres; discriminate Hres].
  exists resolved. split; [reflexivity |].
  apply (references_name_components demo_doc_registry None resolved "Shop" "1.0"); [| exact Hres |].
  - intros name module_id [(n & schema & Hs & Href) | (n & m & schema & _ & Hno & Hr & _)].
    + cbn in Hs. apply lookup_insert_Some in Hs as [[<- <-] | [_ Hs]].
      * apply list_elem_of_singleton in Href. injection Href as -> ->. vm_compute. discriminate.
      * apply lookup_singleton_Some in Hs as [<- <-]. exfalso. exact (not_elem_of_nil _ Href).
    + unfold resolve_schema_for_docs in Hr. cbn in Hr, Hno. by rewrite Hno in Hr.
  - pose proof demo_document_refs as Hrefs. rewrite Hres in Hrefs. cbn [fmap option_fmap option_map] in Hrefs.
    injection Hrefs as ->. right. left.
Defined.


(** The identifiers of the routes are as described. *)
Example demo_route_name :
  route_name (demo_route VGet "/Orders/:order-id//items.csv" []) = "get_orders_by_order_id_items_csv".
Proof. vm_compute. reflexivity. Qed.

(** ** Behaviours *)

(** The operations of the routes: path, verb and identifier. *)
Definition summary_of_entry (verb_op : string * Json) : string * string :=
  (fst verb_op, match snd verb_op with
                | JObject es => match IM.get "operationId" es with Some (JString s) => s | _ => EmptyString end
                | _ => EmptyString
                end).

Definition operation_summary (rs : list RouteDefinition) : list (string * list (string * string)) :=
  let st := document_routes (mkRouteRegistry rs ∅ ∅ [] [] ∅) ∅ "Shop" in
  map (fun kv => (fst kv, match snd kv with JObject es => map summary_of_entry es | _ => [] end))
    (entries (ds_paths st)).

(** A path with a brace has the path of a parameter: the document keeps the
    operation of the later route only. *)
Example brace_route_overwrites :
  operation_summary [demo_route VGet "/a/:x" []; demo_route VGet "/a/{x}" []]
  = [("/a/{x}", [("get", "get_a_x")])].
Proof. vm_compute. reflexivity. Qed.

(** The number given to a repeated identifier can be that of another route. *)
Example duplicate_operation_id :
  operation_summary [demo_route VGet "/x" []; demo_route VGet "/x-" []; demo_route VGet "/x/2" []]
  = [("/x/2", [("get", "get_x_2")]); ("/x-", [("get", "get_x_2")]); ("/x", [("get", "get_x")])].
Proof. vm_compute. reflexivity. Qed.

(** A project with the files beside [app.marreta]. *)
Definition doc_project (files : list (string * list string)) : Project :=
  mkProject (p_parent demo_project) (p_name demo_project) (p_text demo_project)
    (Directory (Some (map (fun f => (fst f, File (Ok (lines_of (snd f))))) files))).

(** The references and the components of the document of a project. *)
Definition doc_references (p : Project) : option (list string * list (string * Json)) :=
  match demo_load p with
  | Done lp =>
      (fun resolved => (json_refs (document (registry lp) resolved "shop" "1.0"),
                        entries (build_component_schemas resolved)))
        <$> resolve_all_schema_defs (registry lp) (Some (runtime lp))
  | _ => None
  end.

(** An exported schema that refers to a private schema of its file: the
    reference is printed and the private schema is not a component. *)
Example dangling_reference :
  prod_map id (map fst) <$> doc_references (doc_project
    [("shop.marreta", ["schema Line"; "    amount: integer";
                       "export schema Order"; "    line: Line"])])
  = Some (["#/components/schemas/Line"], ["Order"]).
Proof. vm_compute. reflexivity. Qed.

(** Private schemas of one name share a component: that of the last route. *)
Example private_schemas_share_component :
  doc_references (doc_project
    [("a.marreta", ["schema Item"; "    amount: integer";
                    "route POST " +:+ dquote +:+ "/a" +:+ dquote; "    take payload as Item";
                    "    reply 200, 1"]);
     ("b.marreta", ["schema Item"; "    title: string";
                    "route POST " +:+ dquote +:+ "/b" +:+ dquote; "    take payload as Item";
                    "    reply 200, 1"])])
  = Some (["#/components/schemas/Item"; "#/components/schemas/Item"],
          [("Item", JObject [("type", JString "object");
                             ("properties", JObject [("title", JObject [("type", JString "string")])]);
                             ("required", JArray [JString "title"])])]).
Proof. vm_compute. reflexivity. Qed.
