(* ===== verification/Server.v ===== *)
(** The HTTP server (src/src/server.rs): authentication of a request, the
    execution of a route, error responses, structured logs, and the consumers of
    queues and topics.

    A handler is a [Srv A]: from the cache of key sets, a tree of requests whose
    leaves are a value, a response that ends the handler early ([Fails]) or a
    panic, with the cache that is left. *)
From stdpp Require Import base list strings gmap.
From Stdlib Require Import ZArith Lia.
From S2P Require Import Prelude RustStr F64 Errors Token Ast IndexMap Foreign QueryTypes Value Schemas Validator Environment Crates DocBson Auth RouteLoader TraceContext FeatureFlags ProjectRuntime Interaction Interp Calls Evaluator Loader.

(** * What the server uses from other crates *)

(** [jsonwebtoken::Algorithm]. *)
Inductive Algorithm : Type :=
| HS256 | HS384 | HS512 | ES256 | ES384 | RS256 | RS384 | RS512 | PS256 | PS384 | PS512 | EdDSA.
#[export] Instance Algorithm_eq_dec : EqDecision Algorithm.
Proof. solve_decision. Defined.

(** [jsonwebtoken::Validation], the fields that are set here. *)
Record Validation : Type := mkValidation {
  v_algorithm : Algorithm;
  v_audience : option string;
  v_issuer : option string;
  v_validate_nbf : bool;
  v_leeway : Z;
  v_required_spec_claims : list string;
}.

(** [Validation::new]. *)
Definition Validation_new (algorithm : Algorithm) : Validation :=
  mkValidation algorithm None None false 60 ["exp"].

Class ServerCrates (E : Ext) : Type := {
  (* chrono: to_rfc3339_opts(Millis, true) *)
  instant_show_millis : instant -> string;
  (* http: HeaderValue::to_str, and the names and values a response may carry *)
  header_to_str : string -> option string;
  response_header_ok : string -> string -> bool;
  (* serde_urlencoded::from_str and from_bytes *)
  urlencoded_pairs : string -> option (list (string * string));
  (* String::from_utf8_lossy *)
  utf8_lossy : string -> string;
  (* jsonwebtoken *)
  DecodingKey : Type;
  Jwk : Type;
  JwkSet : Type;
  key_from_secret : string -> DecodingKey;
  key_from_rsa_pem : string -> option DecodingKey;
  key_from_ec_pem : string -> option DecodingKey;
  key_from_jwk : Jwk -> option DecodingKey;
  decode_header : string -> option (Algorithm * option string);   (* alg, kid *)
  jwt_decode : instant -> string -> DecodingKey -> Validation -> option (list (string * Json));
  jwk_set_parse : string -> option JwkSet;
  jwk_find : JwkSet -> string -> option Jwk;
  jwk_key_algorithm : Jwk -> option string;
  (* argon2: verify_password; sha2, in lower-case hexadecimal *)
  argon2_verify : string -> string -> bool;
  sha256_hex : string -> string;
}.

(** * Responses *)

Record Response : Type := mkResponse {
  resp_status : Z;
  resp_headers : list (string * string);
  resp_body : string;
}.

Definition OK : Z := 200.
Definition NO_CONTENT : Z := 204.
Definition NOT_MODIFIED : Z := 304.
Definition BAD_REQUEST : Z := 400.
Definition UNAUTHORIZED : Z := 401.
Definition FORBIDDEN : Z := 403.
Definition CONFLICT : Z := 409.
Definition INTERNAL_SERVER_ERROR : Z := 500.

(** [StatusCode::from_u16]. *)
Definition status_from_u16 (code : Z) : option Z :=
  if ((100 <=? code) && (code <=? 999))%Z then Some code else None.

(** [status.into_response()]. *)
Definition status_response (status : Z) : Response := mkResponse status [] EmptyString.

Section Server.
Context `{E : Ext} `{C : !Crates E} `{B : !BsonCrate E} `{SC : !ServerCrates E}
  `{HO : HashOrder} `{AH : AuthHost}.
Variable overflow_checks : bool.
Variable stderr_is_terminal : bool.

(** [(status, Json(body)).into_response()]. *)
Definition json_response (status : Z) (body : Json) : Response :=
  mkResponse status [("content-type", "application/json")] (json_show body).

Definition unauthorized_response : Response :=
  json_response UNAUTHORIZED (JObject [("error", JString "unauthorized")]).
Definition forbidden_response : Response :=
  json_response FORBIDDEN (JObject [("error", JString "forbidden")]).

Definition status_for_error (e : MarretaError) : Z :=
  match e with
  | HttpResponse status_code _ _ _ _ => default INTERNAL_SERVER_ERROR (status_from_u16 status_code)
  | HttpError status_code _ => default INTERNAL_SERVER_ERROR (status_from_u16 (to_u16 status_code))
  | UniqueConstraintViolation _ _ => CONFLICT
  | DbIdentifierError _ _ => BAD_REQUEST
  | _ => INTERNAL_SERVER_ERROR
  end.

(** [Response::builder()]: a name or a value that is no header fails. *)
Definition build_response (status : Z) (headers : list (string * string)) (body : string) : Response :=
  if forallb (fun kv => response_header_ok (fst kv) (snd kv)) headers
  then mkResponse status (map (fun kv => (to_ascii_lowercase (fst kv), snd kv)) headers) body
  else status_response INTERNAL_SERVER_ERROR.

Definition error_to_response (e : MarretaError) : Response :=
  match e with
  | HttpResponse status_code body content_type extra_headers _ =>
      let status := default INTERNAL_SERVER_ERROR (status_from_u16 status_code) in
      if ((status =? NO_CONTENT) || (status =? NOT_MODIFIED))%Z then status_response status
      else build_response status (("Content-Type", content_type) :: extra_headers) body
  | HttpError status_code message =>
      json_response (default INTERNAL_SERVER_ERROR (status_from_u16 (to_u16 status_code)))
        (JObject [("error", JString message)])
  | UniqueConstraintViolation _ _ =>
      json_response CONFLICT
        (JObject [("error", JString "unique constraint violation"); ("code", JString (semantic_code e))])
  | DbIdentifierError _ _ =>
      json_response BAD_REQUEST
        (JObject [("error", JString (display_message e)); ("code", JString (semantic_code e))])
  | e =>
      json_response INTERNAL_SERVER_ERROR
        (JObject [("error", JString (display_message e)); ("code", JString (semantic_code e))])
  end.

(** * Settings *)

Definition parse_runtime_bool_env (key : string) : option bool :=
  value ← env_var key;
  let value := to_ascii_lowercase (trim value) in
  if existsb (String.eqb value) ["1"; "true"; "yes"; "on"] then Some true
  else if existsb (String.eqb value) ["0"; "false"; "no"; "off"] then Some false
  else None.

Definition request_log_enabled_for_serve_from_env : bool :=
  default true (parse_runtime_bool_env "MARRETA_REQUEST_LOG").
Definition trace_context_enabled_for_serve_from_env : bool :=
  default true (parse_runtime_bool_env "MARRETA_TRACE_CONTEXT").

Definition string_variable (name default_value : string) (env : Environment Value) : string :=
  match get name env with Some (VString s) => s | _ => default_value end.

Definition project_metadata (env : Environment Value) : string * string :=
  (string_variable "project_name" "MarretaLang Project" env,
   string_variable "project_version" "1.0.0" env).

(** The drivers of the server, and its authentication: providers, and the
    contexts a test scenario puts in their place. *)
Record ServerContext : Type := mkServerContext {
  sc_runtime : ProjectRuntime;
  sc_db : bool;
  sc_doc : bool;
  sc_queue : bool;
  sc_cache : option (option Z);
  sc_http_client : bool;
  sc_registry : AuthRegistry;
  sc_auth_overrides : gmap string Value;
}.

(** The body of [GET /_health]. *)
Definition health_body (ctx : ServerContext) : Json :=
  let '(project_name, project_version) := project_metadata (pr_global_env (sc_runtime ctx)) in
  let connected (b : bool) := JString (if b then "connected" else "not_configured") in
  JObject ([("ok", JBool true); ("api", JString project_name); ("version", JString project_version)]
           ++ (if sc_db ctx then [("db", JString "connected")] else [])
           ++ (if sc_doc ctx then [("doc", JString "connected")] else [])
           ++ [("queue", connected (sc_queue ctx));
               ("cache", connected (bool_decide (is_Some (sc_cache ctx))))]).

Definition health_response (ctx : ServerContext) : Response :=
  build_response OK [("Content-Type", "application/json")] (json_show (health_body ctx)).

(** * Paths *)

Definition to_axum_segment (seg : string) : string :=
  match strip_prefix ":" seg with
  | Some name => "{" +:+ name +:+ "}"
  | None => seg
  end.
Definition to_axum_path (path : string) : string :=
  join "/" (map to_axum_segment (split_on "/" path)).

Definition to_marreta_segment (seg : string) : string :=
  match strip_prefix "{" seg with
  | Some rest =>
      match strip_suffix "}" rest with
      | Some name => if 3 <=? String.length seg then ":" +:+ name else seg
      | None => seg
      end
  | None => seg
  end.
Definition to_marreta_route_path (path : string) : string :=
  join "/" (map to_marreta_segment (split_on "/" path)).

(** * Handlers *)

Record CachedJwks : Type := mkCachedJwks {
  cj_set : JwkSet;
  cj_expires_at : Z;
}.
Definition JwksCache : Type := gmap string CachedJwks.

Definition Srv (A : Type) : Type := JwksCache -> Tree (outcome Response A * JwksCache).

#[export] Instance srv_ret : MRet Srv := fun _ a cache => TRet (Done a, cache).
#[export] Instance srv_bind : MBind Srv := fun _ _ k m cache =>
  tree_bind (m cache) (fun r =>
    match r with
    | (Done a, cache) => k a cache
    | (Fails response, cache) => TRet (Fails response, cache)
    | (Panics, cache) => TRet (Panics, cache)
    | (NoFuel, cache) => TRet (NoFuel, cache)
    end).

(** [return response]. *)
Definition respond {A} (response : Response) : Srv A := fun cache => TRet (Fails response, cache).
Definition srv_panic {A} : Srv A := fun cache => TRet (Panics, cache).
Definition srv_outcome {A} (o : outcome Response A) : Srv A := fun cache => TRet (o, cache).
Definition ask (r : Req) : Srv (Answer r) := fun cache => TReq r (fun x => TRet (Done x, cache)).
Definition ask_server (op : ServerOperation) : Srv (server_answer op) := ask (RServer op).

(** A step of the interpreter. *)
Definition interpret {A} (m : Tree (Res A)) : Srv (result (MarretaError * Interp) (A * Interp)) :=
  fun cache => tree_bind m (fun r =>
    TRet (match r with
          | RDone a s => Done (Ok (a, s))
          | RFail e s => Done (Err (e, s))
          | RPanic => Panics
          | RNoFuel => NoFuel
          end, cache)).

(** [.ok_or_else(unauthorized_response)]. *)
Definition or_unauthorized {A} (o : option A) : Srv A :=
  match o with Some a => mret a | None => respond unauthorized_response end.

(** * Logs *)

(** [Duration::as_secs_f64] of a number of nanoseconds, in milliseconds. *)
Definition as_secs_f64 (nanos : Z) : f64 :=
  f64_add (f64_of_Z (nanos / 10 ^ 9)) (f64_div (f64_of_Z (nanos mod 10 ^ 9)) (f64_of_Z (10 ^ 9))).
Definition round_ms (ms : f64) : f64 :=
  f64_div (f64_round (f64_mul ms (f64_of_Z 1000))) (f64_of_Z 1000).
Definition duration_ms (duration : Z) : Json :=
  json_of_f64 (round_ms (f64_mul (as_secs_f64 duration) (f64_of_Z 1000))).

Definition trace_fields (trace_context : option TraceContext) : list (string * Json) :=
  match trace_context with
  | Some c => [("trace_id", JString (trace_id c)); ("span_id", JString (span_id c))]
  | None => []
  end.

Definition log_header (now : instant) (kind : string) (trace_context : option TraceContext)
  : list (string * Json) :=
  [("timestamp", JString (instant_show_millis now)); ("kind", JString kind)]
  ++ trace_fields trace_context.

Definition build_request_log_event (now : instant) (method path : string) (route : option string)
    (trace_context : option TraceContext) (status duration : Z) : Json :=
  JObject (log_header now "request" trace_context
           ++ [("method", JString method); ("path", JString path)]
           ++ match route with Some route => [("route", JString route)] | None => [] end
           ++ [("status", JNumber (PosInt status)); ("duration_ms", duration_ms duration)]).

Definition consumer_kind_str (kind : ConsumerKind) : string :=
  match kind with QueueConsumer => "queue" | TopicConsumer => "topic" end.

Definition nonempty_field (key value : string) : list (string * Json) :=
  if String.eqb value EmptyString then [] else [(key, JString value)].

Definition build_consumer_log_event (now : instant) (kind : ConsumerKind)
    (target routing_key exchange : string) (trace_context : option TraceContext) (status : string)
    (duration : Z) : Json :=
  JObject (log_header now "consumer" trace_context
           ++ [("consumer_kind", JString (consumer_kind_str kind)); ("target", JString target)]
           ++ nonempty_field "routing_key" routing_key ++ nonempty_field "exchange" exchange
           ++ [("status", JString status); ("duration_ms", duration_ms duration)]).

Inductive RuntimeErrorLogScope : Type :=
| ScopeRequest (http_status : Z)
| ScopeConsumer (kind : ConsumerKind) (target consumer_status : string)
| ScopeStartup.

Definition scope_fields (scope : RuntimeErrorLogScope) : list (string * Json) :=
  match scope with
  | ScopeRequest http_status =>
      [("scope", JString "request"); ("http_status", JNumber (PosInt http_status))]
  | ScopeConsumer kind target consumer_status =>
      [("scope", JString "consumer"); ("consumer_kind", JString (consumer_kind_str kind));
       ("target", JString target); ("consumer_status", JString consumer_status)]
  | ScopeStartup => [("scope", JString "startup")]
  end.

Definition build_runtime_error_log_event (now : instant) (trace_context : option TraceContext)
    (e : MarretaError) (scope : RuntimeErrorLogScope) : Json :=
  JObject (log_header now "runtime_error" trace_context ++ scope_fields scope
           ++ [("error_code", JString (semantic_code e)); ("operation", JString (operation_name e));
               ("message", JString (display_message e))]).

Definition emit (event : instant -> Json) : Srv unit :=
  now ← ask RNow; ask_server (SStdout (json_show (event now))).

Definition emit_request_log (method path : string) (route : option string)
    (trace_context : option TraceContext) (status duration : Z) : Srv unit :=
  emit (fun now => build_request_log_event now method path route trace_context status duration).
Definition emit_consumer_log (kind : ConsumerKind) (target routing_key exchange : string)
    (trace_context : option TraceContext) (status : string) (duration : Z) : Srv unit :=
  emit (fun now => build_consumer_log_event now kind target routing_key exchange trace_context status
                     duration).
Definition emit_runtime_error_log (trace_context : option TraceContext) (e : MarretaError)
    (scope : RuntimeErrorLogScope) : Srv unit :=
  emit (fun now => build_runtime_error_log_event now trace_context e scope).

(** [eprintln!], which panics when standard error is closed. *)
Definition eprintln (line : string) : Srv unit :=
  written ← ask_server (SStderr line); if (written : bool) then mret tt else srv_panic.

Definition stderr_supports_color : bool :=
  negb (bool_decide (is_Some (env_var "NO_COLOR"))) && stderr_is_terminal.

Definition ESC : string := String (byte 27) EmptyString.
Definition format_error_code (code : string) : string :=
  if stderr_supports_color then ESC +:+ "[31m" +:+ code +:+ ESC +:+ "[0m" else code.

(** Errors that are responses, or decisions of a handler. *)
Definition is_logged (e : MarretaError) : bool :=
  match e with
  | HttpResponse _ _ _ _ _ | HttpError _ _ | NackSignal _ | DbIdentifierError _ _ => false
  | _ => true
  end.

Fixpoint eprint_lines (lines : list string) : Srv unit :=
  match lines with
  | [] => mret tt
  | line :: lines => _ ← eprintln ("  " +:+ line); eprint_lines lines
  end.

Definition log_uncaught_runtime_error (trace_context : option TraceContext) (interp : Interp)
    (e : MarretaError) (scope : RuntimeErrorLogScope) : Srv unit :=
  if is_logged e then
    _ ← emit_runtime_error_log trace_context e scope;
    _ ← eprintln ("[marreta] " +:+ format_error_code (semantic_code e) +:+ ": " +:+ display_message e);
    match uncaught_trace_lines e interp with
    | [] => mret tt
    | lines => _ ← eprintln "[marreta] trace:"; eprint_lines lines
    end
  else mret tt.

(** * Authentication *)

(** The headers of a request, their names in lower case. *)
Definition HeaderMap : Type := list (string * string).

Definition header_get (name : string) (headers : HeaderMap) : option string :=
  snd <$> find (fun kv => String.eqb (fst kv) (to_ascii_lowercase name)) headers.

(** ** Contexts *)

Definition map_value (entries : gmap string Value) : Value :=
  VMap (IM.from_pairs (Prelude.entries entries)).

Definition claim_string (claims : list (string * Json)) (key : string) : option string :=
  match IM.get key claims with Some (JString s) => Some s | _ => None end.

Definition claim_roles (claims : list (string * Json)) (key : string) : list string :=
  match IM.get key claims with
  | Some (JArray items) => omap (fun item => match item with JString s => Some s | _ => None end) items
  | Some (JString role) => [role]
  | _ => []
  end.

Definition auth_context (provider type subject : string) (user claims : Value) : Value :=
  map_value (list_to_map [("provider", VString provider); ("type", VString type);
                          ("subject", VString subject); ("user", user); ("claims", claims)]).

Definition jwt_auth_context (config : JwtAuthConfig) (claims : list (string * Json)) : option Value :=
  subject ← claim_string claims (subject_claim config);
  let user_id := default subject (claim_string claims (user_id_claim config)) in
  let roles := claim_roles claims (roles_claim config) in
  let user_entries : gmap string Value :=
    list_to_map [("id", VString user_id); ("subject", VString subject);
                 ("roles", VList (map VString roles))] in
  let user_entries := match claim_string claims (email_claim config) with
                      | Some email => <["email" := VString email]> user_entries
                      | None => user_entries
                      end in
  Some (auth_context (jwt_name config) "jwt" subject (map_value user_entries)
          (json_to_value (JObject claims))).

Definition api_key_auth_context (config : ApiKeyAuthConfig) : Value :=
  let principal := ak_principal config in
  auth_context (ak_name config) "api_key" principal
    (map_value (list_to_map [("id", VString principal); ("subject", VString principal);
                             ("roles", VList [])]))
    (map_value ∅).

Definition scenario_auth_context (provider : AuthProviderRuntimeConfig) (value : Value)
  : option Value :=
  match provider with
  | RJwt config => match value_to_json value with
                   | JObject claims => jwt_auth_context config claims
                   | _ => None
                   end
  | RApiKey config => Some (api_key_auth_context config)
  end.

(** ** API keys *)

(** The time it takes is not modelled. *)
Definition constant_time_eq (left right : string) : bool := String.eqb left right.

Definition verify_api_key_hash (supplied expected_hash : string) : bool :=
  if starts_with "$argon2id$" expected_hash then
    password_hash_ok expected_hash && argon2_verify expected_hash supplied
  else
    match match strip_prefix "sha256:" expected_hash with
          | Some expected => Some expected
          | None => strip_prefix "SHA256:" expected_hash
          end with
    | None => false
    | Some expected => constant_time_eq (sha256_hex supplied) expected
    end.

Definition api_key_valid (config : ApiKeyAuthConfig) (supplied : string) : bool :=
  match ak_secret_source config with
  | AKSecret secret => constant_time_eq supplied secret
  | AKSecretHash expected_hash => verify_api_key_hash supplied expected_hash
  end.

Definition authenticate_api_key (config : ApiKeyAuthConfig) (headers : HeaderMap)
  : result Response Value :=
  match header_get (ak_header config) headers with
  | None => Err unauthorized_response
  | Some supplied =>
      if api_key_valid config supplied then Ok (api_key_auth_context config)
      else Err unauthorized_response
  end.

(** ** Tokens *)

Definition bearer_token (headers : HeaderMap) : option string :=
  value ← header_get "authorization" headers ≫= header_to_str;
  token ← match strip_prefix "Bearer " value with
          | Some token => Some token
          | None => strip_prefix "bearer " value
          end;
  if String.eqb (trim token) EmptyString then None else Some token.

Definition jwt_algorithm (name : string) : option Algorithm :=
  if String.eqb name "HS256" then Some HS256
  else if String.eqb name "HS384" then Some HS384
  else if String.eqb name "HS512" then Some HS512
  else if String.eqb name "RS256" then Some RS256
  else if String.eqb name "RS384" then Some RS384
  else if String.eqb name "RS512" then Some RS512
  else if String.eqb name "ES256" then Some ES256
  else if String.eqb name "ES384" then Some ES384
  else None.

Definition is_supported_jwks_algorithm (algorithm : Algorithm) : bool :=
  match algorithm with RS256 | RS384 | RS512 | ES256 | ES384 => true | _ => false end.

Definition jwt_header_algorithm (config : JwtAuthConfig) (header_alg : Algorithm)
  : option Algorithm :=
  match algorithm config with
  | Some name =>
      configured ← jwt_algorithm name;
      if bool_decide (configured = header_alg) then Some configured else None
  | None => if is_supported_jwks_algorithm header_alg then Some header_alg else None
  end.

Definition fixed_public_key (pem : string) (algorithm : Algorithm) : option DecodingKey :=
  match algorithm with
  | RS256 | RS384 | RS512 => key_from_rsa_pem pem
  | ES256 | ES384 => key_from_ec_pem pem
  | _ => None
  end.

(** [trim_end_matches('/')]. *)
Definition trim_end_slashes (s : string) : string :=
  of_chars (rev (drop_while (fun c => c =? ch "/")%N (rev (chars s)))).

(** A failure to find the key has no detail ([AuthRuntimeError]): [None]. *)
Definition discover_jwks_url (config : JwtAuthConfig) : Srv (option string) :=
  body ← ask_server (SGet (trim_end_slashes (issuer config) +:+ "/.well-known/openid-configuration"));
  mret (body ← (body : option string);
        match json_parse body with
        | Ok (JObject entries) =>
            match IM.get "jwks_uri" entries with Some (JString url) => Some url | _ => None end
        | _ => None
        end).

(** [Instant + Duration] panics beyond the range of the clock. *)
Definition instant_max : Z := 2 ^ 63 * 10 ^ 9.

Definition read_cache (jwks_url : string) : Srv (option CachedJwks) :=
  fun cache => TRet (Done (cache !! jwks_url), cache).
Definition write_cache (jwks_url : string) (cached : CachedJwks) : Srv unit :=
  fun cache => TRet (Done tt, <[jwks_url := cached]> cache).

Definition fetch_jwks (config : JwtAuthConfig) (jwks_url : string) : Srv (option JwkSet) :=
  now ← ask_server SInstant;
  cached ← read_cache jwks_url;
  match (cached ← cached; if (now <? cj_expires_at cached)%Z then Some (cj_set cached) else None) with
  | Some set => mret (Some set)
  | None =>
      body ← ask_server (SGet jwks_url);
      match (body : option string) ≫= jwk_set_parse with
      | None => mret None
      | Some set =>
          now ← ask_server SInstant;
          let expires_at := (now + jwks_cache_ttl_seconds config * 10 ^ 9)%Z in
          if (instant_max <=? expires_at)%Z then srv_panic
          else _ ← write_cache jwks_url (mkCachedJwks set expires_at); mret (Some set)
      end
  end.

(** The key of a set, if it is meant for the algorithm. *)
Definition jwk_for (config : JwtAuthConfig) (algorithm : Algorithm) (jwk : Jwk) : option DecodingKey :=
  _ ← match jwk_key_algorithm jwk with
      | Some name =>
          jwk_alg ← jwt_algorithm name;
          if bool_decide (jwk_alg = algorithm) then Some tt else None
      | None => match Auth.algorithm config with None => None | Some _ => Some tt end
      end;
  key_from_jwk jwk.

Definition jwks_decoding_key (config : JwtAuthConfig) (token : string) (algorithm : Algorithm)
    (jwks_url : string) : Srv (option DecodingKey) :=
  match '(_, kid) ← decode_header token; kid with
  | None => mret None
  | Some kid =>
      jwks ← fetch_jwks config jwks_url;
      mret (jwks ← (jwks : option JwkSet); jwk ← jwk_find jwks kid; jwk_for config algorithm jwk)
  end.

Definition decoding_key (config : JwtAuthConfig) (token : string) (algorithm : Algorithm)
  : Srv (option DecodingKey) :=
  match validation_source config with
  | Secret secret => mret (Some (key_from_secret secret))
  | PublicKeyPem pem => mret (fixed_public_key pem algorithm)
  | JwksUrl url => jwks_decoding_key config token algorithm url
  | OidcDiscovery =>
      url ← discover_jwks_url config;
      match (url : option string) with
      | Some url => jwks_decoding_key config token algorithm url
      | None => mret None
      end
  end.

Definition jwt_validation (config : JwtAuthConfig) (algorithm : Algorithm) : Validation :=
  let validation := Validation_new algorithm in
  mkValidation (v_algorithm validation) (Some (audience config)) (Some (issuer config)) true
    (clock_skew_seconds config) ["exp"; "iss"; "aud"].

Definition decode_jwt_claims (config : JwtAuthConfig) (token : string) (algorithm : Algorithm)
    (key : DecodingKey) : Srv Value :=
  now ← ask RNow;
  claims ← or_unauthorized (jwt_decode now token key (jwt_validation config algorithm));
  or_unauthorized (jwt_auth_context config claims).

Definition authenticate_jwt (config : JwtAuthConfig) (headers : HeaderMap) : Srv Value :=
  token ← or_unauthorized (bearer_token headers);
  header ← or_unauthorized (decode_header token);
  algorithm ← or_unauthorized (jwt_header_algorithm config (fst header));
  key ← decoding_key config token algorithm;
  key ← or_unauthorized key;
  decode_jwt_claims config token algorithm key.

Definition authenticate_route (ctx : ServerContext) (route : RouteDefinition) (headers : HeaderMap)
  : Srv Value :=
  match rd_auth route with
  | None => mret VNull
  | Some route_auth =>
      match sc_registry ctx !! ra_provider route_auth with
      | None => respond unauthorized_response
      | Some provider =>
          match sc_auth_overrides ctx !! ra_provider route_auth with
          | Some auth => or_unauthorized (scenario_auth_context provider auth)
          | None =>
              match provider with
              | RApiKey config =>
                  srv_outcome (of_result (authenticate_api_key config headers))
              | RJwt config => authenticate_jwt config headers
              end
          end
      end
  end.

(** * Executing a route *)

(** What axum hands to a handler. *)
Record HttpRequestParts : Type := mkHttpRequestParts {
  rq_url_params : gmap string string;
  rq_query_params : gmap string string;
  rq_raw_query : option string;
  rq_headers : HeaderMap;
  rq_trace_context : option TraceContext;
  rq_body : string;
}.

(** The configuration of an interpreter with the drivers of the server. *)
Definition server_config (ctx : ServerContext) (queue : bool) (trace_context : option TraceContext)
  : Config :=
  mkConfig (default_max_recursion_depth env_var) (Some (sc_runtime ctx)) None (sc_db ctx) (sc_doc ctx)
    queue (bool_decide (is_Some (sc_cache ctx))) (default None (sc_cache ctx)) (sc_http_client ctx)
    trace_context (mkFeatureFlags ∅) env_var overflow_checks.

Definition module_interpreter (ctx : ServerContext) (module_id : option string) : Interp :=
  with_module module_id (from_environment (env_for_module (sc_runtime ctx) module_id)).

(** Numeric-looking parameters are integers. *)
Definition coerce_param (v : string) : Value :=
  match parse_i64 v with Some n => VInteger n | None => VString v end.

Definition env_let (name : string) (v : Value) (s : Interp) : Interp :=
  with_env (set name v (i_env s)) s.

Definition params_map (request : HttpRequestParts) : list (string * Value) :=
  IM.from_pairs (map (fun kv => (fst kv, coerce_param (snd kv))) (entries (rq_url_params request))).

(** The headers that are text. *)
Definition text_headers (headers : HeaderMap) : list (string * string) :=
  omap (fun kv => v ← header_to_str (snd kv); Some (fst kv, v)) headers.
Definition headers_map (request : HttpRequestParts) : list (string * Value) :=
  IM.from_pairs (map (fun kv => (fst kv, VString (snd kv))) (text_headers (rq_headers request))).
Definition query_map (request : HttpRequestParts) : list (string * Value) :=
  IM.from_pairs (map (fun kv => (fst kv, VString (snd kv))) (entries (rq_query_params request))).

Definition bind_request (request : HttpRequestParts) (s : Interp) : Interp :=
  let s := env_let "params" (VMap (params_map request)) s in
  let s := fold_left (fun s kv => env_let (fst kv) (coerce_param (snd kv)) s)
             (entries (rq_url_params request)) s in
  env_let "headers" (VMap (headers_map request)) (env_let "query" (VMap (query_map request)) s).

(** [inputs.entry(k).or_default().push(v)]. *)
Definition push_input (inputs : gmap string (list string)) (kv : string * string)
  : gmap string (list string) :=
  <[fst kv := default [] (inputs !! fst kv) ++ [snd kv]]> inputs.
Definition multimap (pairs : list (string * string)) : gmap string (list string) :=
  fold_left push_input pairs ∅.

Definition query_inputs (request : HttpRequestParts) : gmap string (list string) :=
  multimap (match rq_raw_query request with
            | Some raw => default [] (urlencoded_pairs raw)
            | None => entries (rq_query_params request)
            end).
Definition header_inputs (request : HttpRequestParts) : gmap string (list string) :=
  multimap (text_headers (rq_headers request)).

(** A value that does not conform is answered at once. *)
Definition or_error_response (o : Coerced) : outcome Response Value :=
  match o with
  | Done v => Done v
  | Fails e => Fails (error_to_response e)
  | Panics => Panics
  | NoFuel => NoFuel
  end.

Definition json_payload (body : string) : Value :=
  if String.eqb body EmptyString then VNull
  else match json_parse body with Ok j => json_to_value j | Err _ => VNull end.

(** The value of a [take] binding. *)
Definition take_value (rt : ProjectRuntime) (module_id : option string) (request : HttpRequestParts)
    (binding : TakeBinding) : outcome Response Value :=
  let schema := name ← tb_schema binding; runtime_resolve_schema rt module_id name in
  match tb_kind binding with
  | TKPayload =>
      let val := json_payload (rq_body request) in
      match schema with
      | Some schema_def =>
          or_error_response (coerce_payload (visible_schemas_for rt module_id) val schema_def)
      | None => Done val
      end
  | TKQuery =>
      match schema with
      | Some schema_def =>
          or_error_response (coerce_scalar_input (query_inputs request) schema_def false)
      | None => Done (VMap (query_map request))
      end
  | TKHeaders =>
      match schema with
      | Some schema_def =>
          or_error_response (coerce_scalar_input (header_inputs request) schema_def true)
      | None => Done (VMap (headers_map request))
      end
  | TKForm =>
      Done (VMap (IM.from_pairs (map (fun kv => (fst kv, VString (snd kv)))
                                   (default [] (urlencoded_pairs (rq_body request))))))
  | TKRaw => Done (VString (utf8_lossy (rq_body request)))
  end.

Fixpoint bind_takes (rt : ProjectRuntime) (module_id : option string) (request : HttpRequestParts)
    (takes : list TakeBinding) (s : Interp) : outcome Response Interp :=
  match takes with
  | [] => Done s
  | binding :: takes =>
      v ← take_value rt module_id request binding;
      bind_takes rt module_id request takes (env_let (tb_name binding) v s)
  end.

Section Execute.
Variable fuel : nat.

(** An error of the program is logged, and answered. *)
Definition fail_request {A} (trace_context : option TraceContext) (e : MarretaError) (s : Interp)
  : Srv A :=
  _ ← log_uncaught_runtime_error trace_context s e (ScopeRequest (status_for_error e));
  respond (error_to_response e).

(** The [allow] rules, in order. *)
Fixpoint check_allow (cfg : Config) (rules : list Expression) (s : Interp) : Srv Interp :=
  match rules with
  | [] => mret s
  | allow :: rules =>
      r ← interpret (evaluate cfg fuel allow s);
      match (r : result (MarretaError * Interp) (Value * Interp)) with
      | Ok (value, s) => if is_truthy value then check_allow cfg rules s else respond forbidden_response
      | Err (e, s) => fail_request (c_trace_context cfg) e s
      end
  end.

Definition enter_route_frame (route : RouteDefinition) (s : Interp) : Interp :=
  with_trace_frames (i_trace_frames s ++
    [mkMarretaFrame (FRoute (rd_verb route) (rd_path route)) (rd_module_id route)
       (Some (rd_line route)) (Some (rd_column route))]) s.

Definition execute_route (ctx : ServerContext) (route : RouteDefinition) (request : HttpRequestParts)
  : Srv Response :=
  let cfg := server_config ctx (sc_queue ctx) (rq_trace_context request) in
  auth ← match rd_auth route with
         | Some _ => auth ← authenticate_route ctx route (rq_headers request); mret (Some auth)
         | None => mret None
         end;
  let s := enter_route_frame route (module_interpreter ctx (rd_module_id route)) in
  let s := bind_request request s in
  s ← match (auth : option Value) with
      | Some auth => check_allow cfg (rd_allow route) (env_let "auth" auth s)
      | None => mret s
      end;
  s ← srv_outcome (bind_takes (sc_runtime ctx) (rd_module_id route) request (rd_take route) s);
  r ← interpret (execute_program cfg fuel (rd_body route) s);
  match (r : result (MarretaError * Interp) (Value * Interp)) with
  | Err (e, s) => fail_request (c_trace_context cfg) e s
  | Ok _ => mret (status_response NO_CONTENT)
  end.

(** ** Around the routes *)

Definition trace_context_of (traceparent tracestate : option string) : Srv TraceContext :=
  trace_draws ← ask RSpanDraws;
  span_draws ← ask RSpanDraws;
  match from_headers traceparent tracestate trace_draws span_draws with
  | Some context => mret context
  | None => srv_outcome NoFuel
  end.

Definition trace_context_middleware (headers : HeaderMap) (next : TraceContext -> Srv Response)
  : Srv Response :=
  context ← trace_context_of (header_get "traceparent" headers ≫= header_to_str)
              (header_get "tracestate" headers ≫= header_to_str);
  next context.

(** A response is a response, early or not. *)
Definition settled (m : Srv Response) : Srv Response :=
  fun cache => tree_bind (m cache) (fun r =>
    TRet (match fst r with Fails response => Done response | o => o end, snd r)).

Definition request_logging_middleware (method path : string) (matched_path : option string)
    (trace_context : option TraceContext) (next : Srv Response) : Srv Response :=
  started_at ← ask_server SInstant;
  response ← settled next;
  now ← ask_server SInstant;
  _ ← emit_request_log method path (to_marreta_route_path <$> matched_path) trace_context
        (resp_status response) (now - started_at);
  mret response.

(** * Consumers *)

Definition enter_consumer_frame (consumer : ConsumerDefinition) (target : string) (s : Interp)
  : Interp :=
  with_trace_frames (i_trace_frames s ++
    [mkMarretaFrame (FConsumer (consumer_kind_str (cd_kind consumer)) target) (cd_module_id consumer)
       (Some (cd_line consumer)) (Some (cd_column consumer))]) s.

Definition make_consumer_trace_interpreter (consumer : ConsumerDefinition) (target_label : string)
  : Interp :=
  enter_consumer_frame consumer target_label Interp_new.

Definition log_consumer_bootstrap_error (consumer : ConsumerDefinition) (target_label : string)
    (e : MarretaError) : Srv unit :=
  log_uncaught_runtime_error None (make_consumer_trace_interpreter consumer target_label) e
    ScopeStartup.

Definition log_consumer_queue_driver_error (consumer : ConsumerDefinition)
    (target_label operation : string) (err : QueueDriverError) : Srv unit :=
  log_consumer_bootstrap_error consumer target_label (QueueError (show_queue_error err) operation).

(** [execute_stmts_pub]. *)
Definition execute_stmts_pub (cfg : Config) (stmts : list Statement) : Eval Value :=
  execute_program cfg fuel stmts.

Section Consumer.
Variable ctx : ServerContext.
Variable request_log_enabled trace_context_enabled : bool.
Variable consumer : ConsumerDefinition.

Definition settle (delivery : QueueDelivery) (nack : option bool) : Srv unit :=
  ask_server (SSettle (qd_tag delivery) nack).

Definition log_delivery (target_name : string) (delivery : QueueDelivery)
    (trace_context : option TraceContext) (status : string) (started_at : Z) : Srv unit :=
  if request_log_enabled then
    now ← ask_server SInstant;
    emit_consumer_log (cd_kind consumer) target_name (qd_routing_key delivery) (qd_exchange delivery)
      trace_context status (now - started_at)
  else mret tt.

Definition delivery_context (delivery : QueueDelivery) : Srv (option TraceContext) :=
  if trace_context_enabled then
    context ← trace_context_of (qd_metadata delivery !! "traceparent")
                (qd_metadata delivery !! "tracestate");
    mret (Some context)
  else mret None.

(** The payload the handler sees; [None] if it does not conform. *)
Definition delivery_payload (delivery : QueueDelivery) : outcome Response (option Value) :=
  match name ← cd_schema consumer; runtime_resolve_schema (sc_runtime ctx) (cd_module_id consumer) name with
  | None => Done (Some (qd_payload delivery))
  | Some schema_def =>
      match coerce_payload (visible_schemas_for (sc_runtime ctx) (cd_module_id consumer))
              (qd_payload delivery) schema_def with
      | Done coerced => Done (Some coerced)
      | Fails _ => Done None
      | Panics => Panics
      | NoFuel => NoFuel
      end
  end.

Definition delivery_interpreter (queue_name : string) (delivery : QueueDelivery) (payload : Value)
  : Interp :=
  env_let "message_topic" (VString (qd_routing_key delivery))
    (env_let (cd_binding consumer) payload
       (enter_consumer_frame consumer queue_name (module_interpreter ctx (cd_module_id consumer)))).

(** The end of a handler: what is told to the broker, and the status that is
    logged. *)
Definition settle_result (cfg : Config) (target_name : string) (delivery : QueueDelivery)
    (r : result (MarretaError * Interp) (Value * Interp)) : Srv string :=
  match r with
  | Ok _ => _ ← settle delivery None; mret "ack"
  | Err (NackSignal requeue, _) =>
      _ ← settle delivery (Some requeue);
      mret (if requeue then "nack_requeue" else "nack")
  | Err (e, s) =>
      _ ← log_uncaught_runtime_error (c_trace_context cfg) s e
            (ScopeConsumer (cd_kind consumer) target_name "error");
      _ ← settle delivery (Some false);
      mret "error"
  end.

Definition consume_delivery (target_name queue_name : string) (delivery : QueueDelivery) : Srv unit :=
  started_at ← ask_server SInstant;
  trace_context ← delivery_context delivery;
  payload ← srv_outcome (delivery_payload delivery);
  match (payload : option Value) with
  | None =>
      _ ← settle delivery (Some false);
      log_delivery target_name delivery trace_context "schema_rejected" started_at
  | Some payload =>
      let cfg := server_config ctx true trace_context in
      r ← interpret (execute_stmts_pub cfg (cd_body consumer)
                       (delivery_interpreter queue_name delivery payload));
      status ← settle_result cfg target_name delivery r;
      log_delivery target_name delivery trace_context status started_at
  end.

(** The loop over the stream, for [n] deliveries. *)
Fixpoint consume_stream (n : nat) (target_name queue_name : string) : Srv unit :=
  match n with
  | O => srv_outcome NoFuel
  | S n =>
      delivery ← ask_server (SNextDelivery queue_name);
      match (delivery : option QueueDelivery) with
      | None => mret tt
      | Some delivery =>
          _ ← consume_delivery target_name queue_name delivery;
          consume_stream n target_name queue_name
      end
  end.

(** The name of the queue or topic, a constant expression; [None] if it has
    none. *)
Definition resolve_target : Srv (option string) :=
  let cfg := mkConfig (default_max_recursion_depth env_var) (Some (sc_runtime ctx)) None false false
               false false None false None (mkFeatureFlags ∅) env_var overflow_checks in
  r ← interpret (evaluate cfg fuel (cd_target consumer)
                   (module_interpreter ctx (cd_module_id consumer)));
  match (r : result (MarretaError * Interp) (Value * Interp)) with
  | Ok (VString name, _) => mret (Some name)
  | Ok (other, _) =>
      _ ← log_consumer_bootstrap_error consumer "<target>"
            (TypeError ("consumer target must evaluate to a string, got " +:+ type_name other)
               (cd_line consumer) (cd_column consumer));
      mret None
  | Err (e, _) => _ ← log_consumer_bootstrap_error consumer "<target>" e; mret None
  end.

Definition declare_infrastructure (target_name : string) : Srv (option string) :=
  match cd_kind consumer with
  | QueueConsumer =>
      r ← ask_server (SDeclareQueue target_name);
      match (r : result QueueDriverError unit) with
      | Ok _ => mret (Some target_name)
      | Err e =>
          _ ← log_consumer_queue_driver_error consumer target_name "queue.declare_queue" e; mret None
      end
  | TopicConsumer =>
      r ← ask_server (SBindTopic target_name);
      match (r : result QueueDriverError string) with
      | Ok name => mret (Some name)
      | Err e =>
          _ ← log_consumer_queue_driver_error consumer target_name "queue.bind_topic" e; mret None
      end
  end.

Definition open_stream (queue_name : string) : Srv bool :=
  r ← match cd_kind consumer with
      | QueueConsumer => ask_server (SConsumeQueue queue_name)
      | TopicConsumer => ask_server (SConsumeTopic queue_name)
      end;
  match (r : result QueueDriverError unit) with
  | Ok _ => mret true
  | Err e =>
      let operation := match cd_kind consumer with
                       | QueueConsumer => "queue.consume_queue"
                       | TopicConsumer => "queue.consume_topic"
                       end in
      _ ← log_consumer_queue_driver_error consumer queue_name operation e; mret false
  end.

(** One task of [start_consumers]. *)
Definition run_consumer (n : nat) : Srv unit :=
  target_name ← resolve_target;
  match (target_name : option string) with
  | None => mret tt
  | Some target_name =>
      queue_name ← declare_infrastructure target_name;
      match (queue_name : option string) with
      | None => mret tt
      | Some queue_name =>
          opened ← open_stream queue_name;
          if (opened : bool) then consume_stream n target_name queue_name else mret tt
      end
  end.

End Consumer.

(** The tasks that are spawned, each to run on its own. *)
Definition start_consumers (ctx : ServerContext) (request_log_enabled trace_context_enabled : bool)
    (consumers : list ConsumerDefinition) (n : nat) : Srv (list (Srv unit)) :=
  if sc_queue ctx then
    mret (map (fun consumer =>
                 run_consumer ctx request_log_enabled trace_context_enabled consumer n) consumers)
  else
    _ ← eprintln "[queue] consumers defined but no queue driver configured — skipping"; mret [].

End Execute.

Definition swagger_ui_html (spec_url : string) : string :=
  join (of_chars [10%N])
    ["<!DOCTYPE html>"; "<html>"; "<head>"; "  <title>MarretaLang API Docs</title>";
     "  <meta charset=" +:+ dquote +:+ "utf-8" +:+ dquote +:+ "/>";
     "  <meta name=" +:+ dquote +:+ "viewport" +:+ dquote +:+ " content=" +:+ dquote
       +:+ "width=device-width, initial-scale=1" +:+ dquote +:+ ">";
     "  <link rel=" +:+ dquote +:+ "stylesheet" +:+ dquote +:+ " type=" +:+ dquote +:+ "text/css"
       +:+ dquote +:+ " href=" +:+ dquote +:+ "https://unpkg.com/swagger-ui-dist/swagger-ui.css"
       +:+ dquote +:+ ">";
     "</head>"; "<body>"; "  <div id=" +:+ dquote +:+ "swagger-ui" +:+ dquote +:+ "></div>";
     "  <script src=" +:+ dquote +:+ "https://unpkg.com/swagger-ui-dist/swagger-ui-bundle.js" +:+ dquote
       +:+ "></script>";
     "  <script>"; "    SwaggerUIBundle({"; "      url: " +:+ dquote +:+ spec_url +:+ dquote +:+ ",";
     "      dom_id: " +:+ dquote +:+ "#swagger-ui" +:+ dquote +:+ ",";
     "      presets: [SwaggerUIBundle.presets.apis, SwaggerUIBundle.SwaggerUIStandalonePreset],";
     "      layout: " +:+ dquote +:+ "BaseLayout" +:+ dquote; "    })"; "  </script>"; "</body>";
     "</html>"].

End Server.
