(* ===== verification/ServerFacts.v ===== *)
(** Theorems on the server: unauthenticated requests are refused before anything
    runs, accepted tokens are verified with a key of the right kind, responses
    have a status, and every delivery of a queue is settled once. *)
From stdpp Require Import base list strings gmap.
From Stdlib Require Import ZArith Lia.
From S2P Require Import Prelude RustStr F64 Errors Token Ast IndexMap Foreign QueryTypes Value Schemas Validator Environment Crates DocBson Auth RouteLoader TraceContext FeatureFlags ProjectRuntime Interaction Interp EvalLogic Calls Evaluator Loader EvalSafe EvaluatorFuel EvalDemo EvaluatorFacts Server.

(** * A logic for handlers

    A handler that only makes requests which leave the state of the protocol as
    it is: [calmly m Q F] says so, and that its values satisfy [Q] and its early
    responses [F]. *)
Section Logic.
Context `{E : Ext} `{SC : !ServerCrates E} {G : Type} (P : Protocol G) (calm : G -> Prop).

Definition neutral (r : Req) : Prop :=
  forall g, calm g -> allowed P g r /\ forall x, next P g r x = g.

Definition ends {A} (Q : A -> Prop) (F : Response -> Prop) (o : outcome Response A) : Prop :=
  match o with Done a => Q a | Fails r => F r | Panics | NoFuel => True end.

Definition calmly {A} (m : Srv A) (Q : A -> Prop) (F : Response -> Prop) : Prop :=
  forall cache g, calm g -> wp P (m cache) g (fun r g' => ends (fun a => g' = g /\ Q a) (fun x => g' = g /\ F x) (fst r)).

Lemma calmly_mono {A} (m : Srv A) (Q Q' : A -> Prop) (F F' : Response -> Prop) :
  calmly m Q F -> (forall a, Q a -> Q' a) -> (forall r, F r -> F' r) -> calmly m Q' F'.
Proof.
  intros Hm HQ HF cache g Hg. eapply tree_wp_mono; [by apply Hm |].
  intros [[a|r| |] c] g'; cbn; try done; intros [-> H]; auto.
Qed.

Lemma calmly_ret {A} (a : A) (Q : A -> Prop) F : Q a -> calmly (mret a) Q F.
Proof. intros Ha cache g Hg. by split. Qed.

Lemma calmly_respond {A} r (Q : A -> Prop) (F : Response -> Prop) : F r -> calmly (respond r) Q F.
Proof. intros Hr cache g Hg. by split. Qed.

Lemma calmly_panic {A} (Q : A -> Prop) F : calmly srv_panic Q F.
Proof. done. Qed.

Lemma calmly_outcome {A} (o : outcome Response A) (Q : A -> Prop) F :
  ends Q F o -> calmly (srv_outcome o) Q F.
Proof. intros Ho cache g Hg. by destruct o; cbn in *. Qed.

Lemma calmly_bind {A A'} (m : Srv A) (k : A -> Srv A') Q Q' F :
  calmly m Q F -> (forall a, Q a -> calmly (k a) Q' F) -> calmly (m ≫= k) Q' F.
Proof.
  intros Hm Hk cache g Hg. apply tree_wp_bind. eapply tree_wp_mono; [by apply Hm |].
  intros [[a|r| |] c] g'; cbn; try done. intros [-> H]. by apply Hk.
Qed.

Lemma calmly_ask r F : neutral r -> calmly (ask r) (fun _ => True) F.
Proof.
  intros Hr cache g Hg. destruct (Hr g Hg) as [? Hn].
  split; [done |]. intros x. cbn. split; [apply Hn | done].
Qed.

Lemma calmly_ask_bind {A} r (k : Answer r -> Srv A) (Q : A -> Prop) F :
  neutral r -> (forall x, calmly (k x) Q F) -> calmly (ask r ≫= k) Q F.
Proof. intros Hr Hk. eapply calmly_bind; [by apply calmly_ask |]. intros x _. apply Hk. Qed.

Lemma calmly_server_bind {A} op (k : server_answer op -> Srv A) (Q : A -> Prop) F :
  neutral (RServer op) -> (forall x, calmly (k x) Q F) -> calmly (ask_server op ≫= k) Q F.
Proof. apply (calmly_ask_bind (RServer op)). Qed.

Lemma calmly_or_unauthorized {A} (o : option A) (Q : A -> Prop) (F : Response -> Prop) :
  F unauthorized_response -> (forall a, o = Some a -> Q a) -> calmly (or_unauthorized o) Q F.
Proof. intros Hf HQ. destruct o; [apply calmly_ret; auto | by apply calmly_respond]. Qed.

(** The cache of key sets is not a request. *)
Lemma calmly_read_cache url F : calmly (read_cache url) (fun _ => True) F.
Proof. intros cache g Hg. by split. Qed.
Lemma calmly_write_cache url x F : calmly (write_cache url x) (fun _ => True) F.
Proof. intros cache g Hg. by split. Qed.
End Logic.

(** * Authentication *)

Section Authentication.
Context `{E : Ext} `{C : !Crates E} `{SC : !ServerCrates E} `{HO : HashOrder} `{AH : AuthHost}.

(** The keys a provider verifies a token with. *)
Inductive key_of (config : JwtAuthConfig) (alg : Algorithm) (kid : option string) : DecodingKey -> Prop :=
| key_secret secret :
    validation_source config = Secret secret -> key_of config alg kid (key_from_secret secret)
| key_rsa pem key :
    validation_source config = PublicKeyPem pem -> alg ∈ [RS256; RS384; RS512] ->
    key_from_rsa_pem pem = Some key -> key_of config alg kid key
| key_ec pem key :
    validation_source config = PublicKeyPem pem -> alg ∈ [ES256; ES384] ->
    key_from_ec_pem pem = Some key -> key_of config alg kid key
| key_of_set set id jwk key :
    (exists url, validation_source config = JwksUrl url) \/ validation_source config = OidcDiscovery ->
    kid = Some id -> jwk_find set id = Some jwk ->
    match jwk_key_algorithm jwk with
    | Some name => jwt_algorithm name = Some alg
    | None => is_Some (algorithm config)
    end ->
    key_from_jwk jwk = Some key -> key_of config alg kid key.

(** The algorithm of a token is the configured one, or an asymmetric one when
    none is configured. *)
Definition algorithm_accepted (config : JwtAuthConfig) (alg : Algorithm) : Prop :=
  match algorithm config with
  | Some name => jwt_algorithm name = Some alg
  | None => alg ∈ [RS256; RS384; RS512; ES256; ES384]
  end.

(** The request carries a token that verifies: signed with a key of the
    provider, by an accepted algorithm, for this audience and issuer, with an
    expiry, at some time. *)
Definition token_verified (config : JwtAuthConfig) (headers : HeaderMap) (auth : Value) : Prop :=
  exists token alg kid key now claims,
    bearer_token headers = Some token /\ decode_header token = Some (alg, kid)
    /\ algorithm_accepted config alg /\ key_of config alg kid key
    /\ jwt_decode now token key
         (mkValidation alg (Some (audience config)) (Some (issuer config)) true
            (clock_skew_seconds config) ["exp"; "iss"; "aud"]) = Some claims
    /\ jwt_auth_context config claims = Some auth.

Definition key_verified (config : ApiKeyAuthConfig) (headers : HeaderMap) : Prop :=
  exists supplied, header_get (ak_header config) headers = Some supplied
    /\ api_key_valid config supplied = true.

(** The principal a route may be run for. *)
Definition authenticated (ctx : ServerContext) (route : RouteDefinition) (headers : HeaderMap)
    (auth : Value) : Prop :=
  match rd_auth route with
  | None => auth = VNull
  | Some route_auth =>
      exists provider, sc_registry ctx !! ra_provider route_auth = Some provider /\
        match sc_auth_overrides ctx !! ra_provider route_auth, provider with
        | Some override, _ => scenario_auth_context provider override = Some auth
        | None, RApiKey config => key_verified config headers /\ auth = api_key_auth_context config
        | None, RJwt config => token_verified config headers auth
        end
  end.

Lemma jwt_header_algorithm_accepted config alg alg' :
  jwt_header_algorithm config alg = Some alg' -> alg' = alg /\ algorithm_accepted config alg.
Proof.
  unfold jwt_header_algorithm, algorithm_accepted. destruct (algorithm config) as [name|].
  - destruct (jwt_algorithm name) as [configured|]; cbn; [| done].
    case_bool_decide; [| done]. intros [= <-]. by subst.
  - destruct (is_supported_jwks_algorithm alg) eqn:Hs; [| done]. intros [= <-]. split; [done |].
    destruct alg; try discriminate Hs; set_solver.
Qed.

Section Protocol.
Context {G : Type} (P : Protocol G) (calm : G -> Prop).
Hypothesis neutral_get : forall url, neutral P calm (RServer (SGet url)).
Hypothesis neutral_instant : neutral P calm (RServer SInstant).
Hypothesis neutral_now : neutral P calm RNow.

Lemma calmly_fetch_jwks config url F : calmly P calm (fetch_jwks config url) (fun _ => True) F.
Proof.
  unfold fetch_jwks. apply calmly_server_bind; [done | intros now].
  eapply calmly_bind; [apply calmly_read_cache | intros cached _].
  destruct (cached ≫= _); [by apply calmly_ret |].
  apply calmly_server_bind; [done | intros body].
  destruct (_ ≫= jwk_set_parse) as [set|]; [| by apply calmly_ret].
  apply calmly_server_bind; [done | intros now']. cbv zeta.
  destruct (_ <=? _)%Z; [apply calmly_panic |].
  eapply calmly_bind; [apply calmly_write_cache | intros _ _].
  by apply calmly_ret.
Qed.

Lemma calmly_jwks_key config token alg kid url F :
  decode_header token = Some (alg, kid) ->
  (exists url, validation_source config = JwksUrl url) \/ validation_source config = OidcDiscovery ->
  calmly P calm (jwks_decoding_key config token alg url)
    (fun key => forall k, key = Some k -> key_of config alg kid k) F.
Proof.
  intros Hh Hsrc. unfold jwks_decoding_key. rewrite Hh. cbn.
  destruct kid as [kid|]; [| by apply calmly_ret].
  eapply calmly_bind; [apply calmly_fetch_jwks | intros jwks _]. apply calmly_ret. intros key Hk.
  destruct jwks as [set|]; [cbn in Hk | done]. destruct (jwk_find set kid) as [jwk|] eqn:Hf; [cbn in Hk | done].
  unfold jwk_for in Hk. eapply key_of_set; try done.
  - destruct (jwk_key_algorithm jwk) as [name|]; [| by destruct (algorithm config)].
    destruct (jwt_algorithm name) as [a|]; cbn in Hk; [| done]. case_bool_decide; [by subst | done].
  - destruct (match jwk_key_algorithm jwk with Some _ => _ | None => _ end) as [[]|]; done.
Qed.

Lemma calmly_decoding_key config token alg kid F :
  decode_header token = Some (alg, kid) ->
  calmly P calm (decoding_key config token alg)
    (fun key => forall k, key = Some k -> key_of config alg kid k) F.
Proof.
  intros Hh. unfold decoding_key. destruct (validation_source config) as [|url|pem|secret] eqn:Hs.
  - eapply calmly_bind with (Q := fun _ => True).
    + unfold discover_jwks_url. apply calmly_server_bind; [done |].
      intros body. by apply calmly_ret.
    + intros [url|] _; [| by apply calmly_ret]. apply calmly_jwks_key; auto.
  - apply calmly_jwks_key; eauto.
  - apply calmly_ret. intros k Hk. unfold fixed_public_key in Hk.
    destruct alg; try discriminate Hk; by (eapply key_rsa + eapply key_ec; [done | set_solver | done]).
  - apply calmly_ret. intros k [= <-]. by apply key_secret.
Qed.

Lemma calmly_authenticate_jwt config headers :
  calmly P calm (authenticate_jwt config headers) (token_verified config headers)
    (fun r => r = unauthorized_response).
Proof.
  unfold authenticate_jwt.
  eapply calmly_bind; [by apply calmly_or_unauthorized with (Q := fun t => bearer_token headers = Some t) |].
  intros token Ht.
  eapply calmly_bind; [by apply calmly_or_unauthorized with (Q := fun h => decode_header token = Some h) |].
  intros [alg kid] Hh.
  eapply calmly_bind; [by apply calmly_or_unauthorized with
    (Q := fun a => jwt_header_algorithm config alg = Some a) |].
  intros alg' [-> Ha]%jwt_header_algorithm_accepted.
  eapply calmly_bind; [by apply calmly_decoding_key |]. intros key Hkey.
  eapply calmly_bind; [by apply calmly_or_unauthorized with (Q := key_of config alg kid); [| exact Hkey] |].
  intros k Hk. unfold decode_jwt_claims.
  apply (calmly_ask_bind _ _ RNow); [done |]. intros now.
  eapply calmly_bind; [by apply calmly_or_unauthorized with
    (Q := fun c => jwt_decode now token k (jwt_validation config alg) = Some c) |].
  intros claims Hc. apply calmly_or_unauthorized; [done |]. intros auth Hauth.
  by exists token, alg, kid, k, now, claims.
Qed.

Lemma calmly_authenticate_route ctx route headers :
  calmly P calm (authenticate_route ctx route headers) (authenticated ctx route headers)
    (fun r => r = unauthorized_response).
Proof.
  unfold authenticate_route, authenticated. destruct (rd_auth route) as [ra|]; [| by apply calmly_ret].
  destruct (sc_registry ctx !! _) as [provider|]; [| by apply calmly_respond].
  destruct (sc_auth_overrides ctx !! _) as [override|].
  - apply calmly_or_unauthorized; [done |]. intros auth Ha. by exists provider.
  - destruct provider as [config|config].
    + eapply calmly_mono; [apply calmly_authenticate_jwt | | done]. intros auth Ha. by eexists.
    + apply calmly_outcome. unfold authenticate_api_key.
      destruct (header_get _ _) as [supplied|] eqn:Hg; [| done].
      destruct (api_key_valid _ _) eqn:Hv; cbn; [| done].
      eexists. split; [done |]. split; [| done]. by exists supplied.
Qed.
End Protocol.
End Authentication.

(** ** Refusal *)

(** Only what authentication itself needs may be asked. *)
Definition lookup_protocol `{E : Ext} : Protocol unit :=
  mkProtocol
    (fun _ r => match r with RServer (SGet _) | RServer SInstant | RNow => True | _ => False end)
    (fun g _ _ => g) (fun _ => False) tt (fun _ _ => True).

Lemma lookup_neutral `{E : Ext} r :
  match r with RServer (SGet _) | RServer SInstant | RNow => True | _ => False end ->
  neutral lookup_protocol (fun _ => True) r.
Proof. intros Hr g _. split; [exact Hr | done]. Qed.

(** C3: a request that proves no principal of the provider its route requires is
    refused: whatever the outside answers, the server answers 401 and has asked
    for nothing but key sets and the time.  No rule and no statement of the
    route has run, and no driver was called. *)
Theorem unauthenticated_requests_refused `{E : Ext} `{C : !Crates E} `{B : !BsonCrate E}
    `{SC : !ServerCrates E} `{HO : HashOrder} `{AH : AuthHost} overflow_checks stderr_is_terminal fuel
    ctx route request cache :
  is_Some (rd_auth route) ->
  (forall auth, ~ authenticated ctx route (rq_headers request) auth) ->
  wp lookup_protocol (execute_route overflow_checks stderr_is_terminal fuel ctx route request cache) tt
    (fun r _ => match fst r with
                | Fails response => response = unauthorized_response
                | Done _ => False
                | Panics | NoFuel => True
                end).
Proof.
  intros [ra Hra] Hno.
  eapply tree_wp_mono; [| intros r g H; exact H].
  unfold execute_route. rewrite Hra.
  apply tree_wp_bind, tree_wp_bind. eapply tree_wp_mono.
  - apply (calmly_authenticate_route lookup_protocol (fun _ => True)); try done;
      intros; by apply lookup_neutral.
  - intros [[auth|response| |] c] []; cbn; try done; intros [_ H]; [by destruct (Hno auth) | done].
Qed.

(** ** Keys and algorithms *)

(** The name of an algorithm in a configuration and in a key. *)
Definition algorithm_text (alg : Algorithm) : string :=
  match alg with
  | HS256 => "HS256" | HS384 => "HS384" | HS512 => "HS512"
  | RS256 => "RS256" | RS384 => "RS384" | RS512 => "RS512"
  | ES256 => "ES256" | ES384 => "ES384"
  | _ => EmptyString
  end.

Lemma jwt_algorithm_name name alg :
  jwt_algorithm name = Some alg ->
  name = algorithm_text alg
  /\ (is_hmac_algorithm name = true -> alg ∈ [HS256; HS384; HS512])
  /\ (is_asymmetric_algorithm name = true -> alg ∈ [RS256; RS384; RS512; ES256; ES384]).
Proof.
  unfold jwt_algorithm. intros H.
  repeat match type of H with
         | (if String.eqb name ?s then _ else _) = _ =>
             destruct (String.eqb_spec name s) as [-> | _]; [injection H as <- |]
         end; [.. | discriminate H]; (split_and!; [reflexivity | intros H'; try discriminate H'; set_solver ..]).
Qed.

Section Tokens.
Context `{E : Ext} `{C : !Crates E} `{SC : !ServerCrates E} `{AH : AuthHost}
  {W : Type} (handle : forall r, W -> Answer r * W).

(** What a handler returns when it is run, and the cache it leaves. *)
Definition gives {A} (m : Srv A) (cache : JwksCache) (Q : A -> JwksCache -> Prop) : Prop :=
  forall w, match fst (run handle (m cache) w) with (Done a, c) => Q a c | _ => True end.

Lemma gives_ret {A} (a : A) cache (Q : A -> JwksCache -> Prop) : Q a cache -> gives (mret a) cache Q.
Proof. intros H w. exact H. Qed.

Lemma gives_bind {A A'} (m : Srv A) (k : A -> Srv A') cache Q :
  gives m cache (fun a c => gives (k a) c Q) -> gives (m ≫= k) cache Q.
Proof.
  intros Hm w. specialize (Hm w). unfold mbind, srv_bind. rewrite run_bind.
  destruct (run handle (m cache) w) as [[[a|r| |] c] w1]; cbn in *; [apply Hm | done..].
Qed.

Lemma gives_mono {A} (m : Srv A) cache (Q Q' : A -> JwksCache -> Prop) :
  gives m cache Q -> (forall a c, Q a c -> Q' a c) -> gives m cache Q'.
Proof. intros Hm H w. specialize (Hm w). destruct (fst _) as [[] c]; auto. Qed.

Lemma gives_ask r cache (Q : Answer r -> JwksCache -> Prop) :
  (forall w, Q (fst (handle r w)) cache) -> gives (ask r) cache Q.
Proof. intros H w. specialize (H w). cbn. by destruct (handle r w). Qed.

Lemma gives_or_unauthorized {A} (o : option A) cache (Q : A -> JwksCache -> Prop) :
  (forall a, o = Some a -> Q a cache) -> gives (or_unauthorized o) cache Q.
Proof. intros H w. destruct o; [by apply H | done]. Qed.

(** The outside answered [a] to the operation [op]. *)
Definition answered (op : ServerOperation) (a : server_answer op) : Prop :=
  exists w, fst (handle (RServer op) w) = a.

(** A key set of an address: one cached under it that has not expired, or the
    document found there. *)
Inductive served (cache : JwksCache) (url : string) : JwkSet -> Prop :=
| served_cached cached now :
    cache !! url = Some cached -> answered SInstant now -> (now < cj_expires_at cached)%Z ->
    served cache url (cj_set cached)
| served_fetched body set :
    answered (SGet url) (Some body) -> jwk_set_parse body = Some set -> served cache url set.

(** A key of the set at [url], the one the token names, for the algorithm [alg]:
    the algorithm the key itself names, or else the one the provider names. *)
Definition set_key (config : JwtAuthConfig) (cache : JwksCache) (alg : Algorithm)
    (kid : option string) (key : DecodingKey) (url : string) : Prop :=
  exists set id jwk,
    served cache url set /\ kid = Some id /\ jwk_find set id = Some jwk /\ key_from_jwk jwk = Some key
    /\ match jwk_key_algorithm jwk with
       | Some name => name = algorithm_text alg
       | None => algorithm config = Some (algorithm_text alg)
       end.

(** The address of the key set in the discovery document of the issuer. *)
Definition discovered (config : JwtAuthConfig) (url : string) : Prop :=
  exists body entries,
    answered (SGet (trim_end_slashes (issuer config) +:+ "/.well-known/openid-configuration")) (Some body)
    /\ json_parse body = Ok (JObject entries) /\ IM.get "jwks_uri" entries = Some (JString url).

(** The algorithm is the configured one; when none is, it is asymmetric. *)
Definition algorithm_allowed (config : JwtAuthConfig) (alg : Algorithm) : Prop :=
  match algorithm config with
  | Some name => name = algorithm_text alg
  | None => alg ∈ [RS256; RS384; RS512; ES256; ES384]
  end.

(** The key is of the one source of the provider, and fit for the algorithm. *)
Definition key_verifies (config : JwtAuthConfig) (cache : JwksCache) (alg : Algorithm)
    (kid : option string) (key : DecodingKey) : Prop :=
  match validation_source config with
  | Secret secret => key = key_from_secret secret
  | PublicKeyPem pem =>
      (alg ∈ [RS256; RS384; RS512] /\ key_from_rsa_pem pem = Some key)
      \/ (alg ∈ [ES256; ES384] /\ key_from_ec_pem pem = Some key)
  | JwksUrl url => set_key config cache alg kid key url
  | OidcDiscovery => exists url, discovered config url /\ set_key config cache alg kid key url
  end.

Lemma algorithm_accepted_allowed config alg : algorithm_accepted config alg -> algorithm_allowed config alg.
Proof.
  unfold algorithm_accepted, algorithm_allowed. destruct (algorithm config) as [name|]; [| done].
  intros H. by apply jwt_algorithm_name in H as [-> _].
Qed.

Lemma gives_fetch_jwks config url cache :
  gives (fetch_jwks config url) cache (fun set _ => forall s, set = Some s -> served cache url s).
Proof.
  unfold fetch_jwks. apply gives_bind, (gives_ask (RServer SInstant)). intros w0.
  apply gives_bind. intros w1. cbn [read_cache run fst].
  match goal with |- context [match ?o with Some _ => _ | None => _ end] => destruct o as [set|] eqn:Hc end.
  - apply bind_Some in Hc as (cached & Hc & Hnow).
    destruct (Z.ltb_spec (fst (handle (RServer SInstant) w0)) (cj_expires_at cached)); [| done].
    injection Hnow as <-. apply gives_ret. intros s [= <-].
    eapply served_cached; [exact Hc | by exists w0 | done].
  - apply gives_bind, (gives_ask (RServer (SGet url))). intros w2.
    destruct (fst (handle (RServer (SGet url)) w2)) as [body|] eqn:Hbody; cbn [mbind option_bind];
      [| by apply gives_ret].
    destruct (jwk_set_parse body) as [set|] eqn:Hset; [| by apply gives_ret].
    apply gives_bind, (gives_ask (RServer SInstant)). intros w3. cbv zeta.
    destruct (_ <=? _)%Z; [by intros w |]. apply gives_bind. intros w4. cbn [write_cache run fst].
    apply gives_ret. intros s [= <-]. eapply served_fetched; [by exists w2 | done].
Qed.

Lemma gives_jwks_key config token alg kid url cache :
  decode_header token = Some (alg, kid) -> algorithm_allowed config alg ->
  gives (jwks_decoding_key config token alg url) cache
    (fun key _ => forall k, key = Some k -> set_key config cache alg kid k url).
Proof.
  intros Hh Ha. unfold jwks_decoding_key. rewrite Hh. cbn [mbind option_bind].
  destruct kid as [kid|]; [| by apply gives_ret].
  apply gives_bind. eapply gives_mono; [apply gives_fetch_jwks |]. intros jwks c Hs.
  apply gives_ret. intros key Hk.
  apply bind_Some in Hk as (set & -> & (jwk & Hf & Hk)%bind_Some).
  unfold jwk_for in Hk. apply bind_Some in Hk as ([] & Hg & Hk).
  exists set, kid, jwk. split_and!; [by apply Hs | done | done | done |].
  destruct (jwk_key_algorithm jwk) as [name|].
  - apply bind_Some in Hg as (a & Hn & Hg). case_bool_decide; [subst a | done].
    by apply jwt_algorithm_name in Hn as [-> _].
  - unfold algorithm_allowed in Ha. destruct (algorithm config) as [name|]; [by rewrite Ha | done].
Qed.

Lemma gives_decoding_key config token alg kid cache :
  decode_header token = Some (alg, kid) -> algorithm_allowed config alg ->
  gives (decoding_key config token alg) cache
    (fun key _ => forall k, key = Some k -> key_verifies config cache alg kid k).
Proof.
  intros Hh Ha. unfold decoding_key, key_verifies.
  destruct (validation_source config) as [|url|pem|secret].
  - apply gives_bind. unfold discover_jwks_url.
    apply gives_bind, (gives_ask (RServer (SGet _))). intros w.
    apply gives_ret. destruct (fst (handle _ w)) as [body|] eqn:Hbody; [| by apply gives_ret].
    cbn [mbind option_bind]. destruct (json_parse body) as [j|] eqn:Hj; [| by apply gives_ret].
    destruct j as [| | | | |entries]; try (by apply gives_ret).
    destruct (IM.get "jwks_uri" entries) as [u|] eqn:Hu; [| by apply gives_ret].
    destruct u as [| | |url| |]; try (by apply gives_ret).
    eapply gives_mono; [by apply gives_jwks_key |]. intros key c Hk k Hkey.
    exists url. split; [| by apply Hk]. exists body, entries. split_and!; [by exists w | done | done].
  - by apply gives_jwks_key.
  - apply gives_ret. intros k Hk. unfold fixed_public_key in Hk.
    destruct alg; try discriminate Hk; (by left; split; [set_solver | done]) || (by right; split; [set_solver | done]).
  - apply gives_ret. by intros k [= <-].
Qed.

Lemma gives_authenticate_jwt config headers cache :
  gives (authenticate_jwt config headers) cache (fun auth _ =>
    exists token alg kid key now claims,
      bearer_token headers = Some token /\ decode_header token = Some (alg, kid)
      /\ algorithm_accepted config alg /\ key_verifies config cache alg kid key
      /\ (exists w, fst (handle RNow w) = now)
      /\ jwt_decode now token key
           (mkValidation alg (Some (audience config)) (Some (issuer config)) true
              (clock_skew_seconds config) ["exp"; "iss"; "aud"]) = Some claims
      /\ jwt_auth_context config claims = Some auth).
Proof.
  unfold authenticate_jwt. apply gives_bind, gives_or_unauthorized. intros token Ht.
  apply gives_bind, gives_or_unauthorized. intros [alg kid] Hh.
  apply gives_bind, gives_or_unauthorized. intros alg' [-> Ha]%jwt_header_algorithm_accepted.
  apply gives_bind. eapply gives_mono;
    [apply (gives_decoding_key _ _ _ kid); [done | by apply algorithm_accepted_allowed] |].
  intros key c Hkey. apply gives_bind, gives_or_unauthorized. intros k Hk.
  unfold decode_jwt_claims. apply gives_bind, (gives_ask RNow). intros w.
  apply gives_bind, gives_or_unauthorized. intros claims Hc.
  apply gives_or_unauthorized. intros auth Hauth.
  exists token, alg, kid, k, (fst (handle RNow w)), claims.
  split_and!; [done | done | done | by apply Hkey | by exists w | exact Hc | done].
Qed.
End Tokens.

(** C8: a token that is accepted was verified, with no confusion of key material
    and algorithm.  It was decoded, at the time the clock gave, with a key of
    the one source of the provider: its secret; its PEM; or the key that the
    token names in a key set served from the address of the provider (or from
    the one in the discovery document of the issuer), cached and not expired or
    just fetched.  The algorithm is that of the token's header and is the one
    the provider is configured with; when the provider names none, it is
    asymmetric.  A secret or a PEM always has a configured algorithm, an HMAC
    one for a secret and one of the PEM's own family for a PEM; a key of a key
    set verifies only the algorithm that the key itself names or, when it names
    none, the one the provider names, so with neither the token is refused.
    The token was decoded for the provider's audience and issuer, with an
    expiry, and it has a subject. *)
Theorem accepted_token_verified `{E : Ext} `{C : !Crates E} `{SC : !ServerCrates E} `{AH : AuthHost}
    {W} (handle : forall r, W -> Answer r * W) provider config headers cache auth w :
  build_jwt_config provider = Ok config ->
  fst (fst (run handle (authenticate_jwt config headers cache) w)) = Done auth ->
  exists token alg kid key now claims,
    bearer_token headers = Some token /\ decode_header token = Some (alg, kid)
    /\ (exists w, fst (handle RNow w) = now)
    /\ jwt_decode now token key
         (mkValidation alg (Some (audience config)) (Some (issuer config)) true
            (clock_skew_seconds config) ["exp"; "iss"; "aud"]) = Some claims
    /\ is_Some (claim_string claims (subject_claim config))
    /\ jwt_auth_context config claims = Some auth
    /\ algorithm_allowed config alg
    /\ key_verifies handle config cache alg kid key
    /\ match validation_source config with
       | Secret _ => algorithm config = Some (algorithm_text alg) /\ alg ∈ [HS256; HS384; HS512]
       | PublicKeyPem _ =>
           algorithm config = Some (algorithm_text alg) /\ alg ∈ [RS256; RS384; RS512; ES256; ES384]
       | JwksUrl _ | OidcDiscovery => True
       end.
Proof.
  intros Hconfig Hrun. apply jwt_config_sound in Hconfig as (_ & _ & _ & Hsrc & _).
  pose proof (gives_authenticate_jwt handle config headers cache w) as Hv.
  destruct (fst (run handle _ w)) as [out c]. cbn in Hrun. subst out.
  destruct Hv as (token & alg & kid & key & now & claims & Ht & Hh & Ha & Hk & Hnow & Hd & Hc).
  exists token, alg, kid, key, now, claims.
  split_and!; try done; [| by apply algorithm_accepted_allowed |].
  - unfold jwt_auth_context in Hc. destruct (claim_string claims (subject_claim config)); [by eexists |].
    cbn in Hc. discriminate Hc.
  - unfold algorithm_accepted in Ha.
    destruct (validation_source config); [done | done | |];
      destruct Hsrc as (a & Heq & Hkind); rewrite Heq in Ha |- *;
      destruct (jwt_algorithm_name a alg Ha) as (-> & Hh1 & Hh2); auto.
Qed.

(** * The server and the broker *)

Section Serving.
Context `{E : Ext} `{C : !Crates E} `{B : !BsonCrate E} `{SC : !ServerCrates E}
  `{HO : HashOrder} `{AH : AuthHost}.

(** The open transaction, the deliveries that were taken and those that were
    settled, with what the broker was told. *)
Record ServerState : Type := mkServerState {
  ss_tx : option nat;
  ss_taken : list Z;
  ss_settled : list (Z * option bool);
}.

(** Outside a transaction, with every delivery settled: what a consumer is
    between two deliveries. *)
Definition idle (g : ServerState) : Prop :=
  ss_tx g = None /\ ss_taken g = map fst (ss_settled g).

(** Nothing the server asks is asked inside a transaction; a delivery is taken
    when the one before is settled, and only the delivery in hand is settled. *)
Definition server_allowed (g : ServerState) (r : Req) : Prop :=
  match r with
  | RServer op =>
      ss_tx g = None /\
      match op with
      | SNextDelivery _ => ss_taken g = map fst (ss_settled g)
      | SSettle tag _ => ss_taken g = map fst (ss_settled g) ++ [tag]
      | _ => True
      end
  | r => tx_allowed (ss_tx g) r
  end.

Definition server_op_next (g : ServerState) (op : ServerOperation) : server_answer op -> ServerState :=
  match op return server_answer op -> ServerState with
  | SNextDelivery _ => fun x =>
      match (x : option QueueDelivery) with
      | Some delivery => mkServerState (ss_tx g) (ss_taken g ++ [qd_tag delivery]) (ss_settled g)
      | None => g
      end
  | SSettle tag nack => fun _ => mkServerState (ss_tx g) (ss_taken g) (ss_settled g ++ [(tag, nack)])
  | _ => fun _ => g
  end.

Definition server_next (g : ServerState) (r : Req) : Answer r -> ServerState :=
  match r return Answer r -> ServerState with
  | RServer op => server_op_next g op
  | r => fun x => mkServerState (tx_next (ss_tx g) r x) (ss_taken g) (ss_settled g)
  end.

Definition server_protocol : Protocol ServerState :=
  mkProtocol server_allowed server_next (fun g => ss_tx g = None) (mkServerState None [] [])
    (fun o g => tx_branch_done o (ss_tx g)).

Definition outside_tx (g : ServerState) : Prop := ss_tx g = None.

(** Evaluation keeps to the protocol of the server if it keeps to that of
    transactions. *)
Lemma evaluation_in_server {A} (t : Tree A) : forall g Q taken done,
  wp tx_protocol t g Q ->
  wp server_protocol t (mkServerState g taken done)
    (fun a g' => Q a (ss_tx g') /\ ss_taken g' = taken /\ ss_settled g' = done).
Proof.
  induction A, t as [A a|A r k IH|A bs k IHb IH] using Tree_induction; intros g Q taken done H.
  - by split_and!.
  - destruct H as [Ha Hk]. destruct r; try contradiction Ha; (split; [exact Ha |]); intros x;
      apply IH, Hk.
  - apply wp_par in H as (Hg & Hb & Hk). apply wp_par. split_and!; [done | |].
    + clear -Hb IHb. induction IHb as [|b bs IH' _ IHbs]; [constructor |].
      apply Forall_cons in Hb as [Hb Hbs]. constructor; [| by apply IHbs].
      eapply tree_wp_mono; [by apply IH' |]. by intros o g' [Hd _].
    + intros outs Hl. by apply IH, Hk.
Qed.

Variable overflow_checks stderr_is_terminal : bool.
Variable fuel : nat.

(** Running a program, or evaluating an expression, in the server. *)
Definition ready_result {A} (cfg : Config) (r : result (MarretaError * Interp) (A * Interp)) : Prop :=
  match r with
  | Ok (_, s) | Err (_, s) => ready cfg s None
  end.

Lemma calmly_interpret {A} cfg (m : Eval A) s F :
  safe cfg m -> ready cfg s None ->
  calmly server_protocol outside_tx (interpret (m s)) (ready_result cfg) F.
Proof.
  intros Hm Hr cache [tx taken settled] Htx. unfold outside_tx in Htx. cbn in Htx. subst tx.
  unfold interpret. apply tree_wp_bind. eapply tree_wp_mono.
  { eapply evaluation_in_server. apply (Hm s s None). by split. }
  intros [a s'|e s'| |] [tx' taken' settled'] (Hp & Hta & Hse); cbn in *; subst; try done;
    destruct Hp as [Hr' [_ _ Hi Ht _ _]];
    assert (tx' = None) as -> by (destruct Hr as (? & _), Hr' as (? & _); congruence); by split.
Qed.

(** ** What changes nothing for the broker *)

Lemma server_neutral r :
  match r with
  | RNow | RSpanDraws => True
  | RServer (SNextDelivery _) | RServer (SSettle _ _) => False
  | RServer _ => True
  | _ => False
  end -> neutral server_protocol outside_tx r.
Proof.
  intros Hr [tx taken settled] Hg. destruct r; try contradiction Hr; [by split.. |].
  destruct op; try contradiction Hr; by split.
Qed.

Notation quiet m := (calmly server_protocol outside_tx m (fun _ => True) (fun _ => False)).

Lemma quiet_emit event : quiet (emit event).
Proof.
  unfold emit. apply (calmly_ask_bind _ _ RNow); [by apply server_neutral |]. intros now.
  by apply calmly_ask, server_neutral.
Qed.

Lemma quiet_eprintln line : quiet (eprintln line).
Proof.
  unfold eprintln. apply calmly_server_bind; [by apply server_neutral |].
  intros []; [by apply calmly_ret | apply calmly_panic].
Qed.

Lemma quiet_eprint_lines lines : quiet (eprint_lines lines).
Proof.
  induction lines as [|line lines IH]; cbn [eprint_lines]; [by apply calmly_ret |].
  eapply calmly_bind; [apply quiet_eprintln |]. by intros _ _.
Qed.

Lemma quiet_log trace_context s e scope :
  quiet (log_uncaught_runtime_error stderr_is_terminal trace_context s e scope).
Proof.
  unfold log_uncaught_runtime_error. destruct (is_logged e); [| by apply calmly_ret].
  eapply calmly_bind; [apply quiet_emit | intros _ _].
  eapply calmly_bind; [apply quiet_eprintln | intros _ _].
  destruct (uncaught_trace_lines e s); [by apply calmly_ret |].
  eapply calmly_bind; [apply quiet_eprintln | intros _ _]. apply quiet_eprint_lines.
Qed.

Lemma quiet_trace_context_of traceparent tracestate : quiet (trace_context_of traceparent tracestate).
Proof.
  unfold trace_context_of. apply (calmly_ask_bind _ _ RSpanDraws); [by apply server_neutral | intros draws].
  apply (calmly_ask_bind _ _ RSpanDraws); [by apply server_neutral | intros draws'].
  destruct (from_headers _ _ _ _); [by apply calmly_ret | by apply calmly_outcome].
Qed.

Lemma quiet_delivery_context enabled delivery : quiet (delivery_context enabled delivery).
Proof.
  unfold delivery_context. destruct enabled; [| by apply calmly_ret].
  eapply calmly_bind; [apply quiet_trace_context_of | intros c _]. by apply calmly_ret.
Qed.

Lemma quiet_log_delivery enabled consumer target delivery c status started_at :
  quiet (log_delivery enabled consumer target delivery c status started_at).
Proof.
  unfold log_delivery. destruct enabled; [| by apply calmly_ret].
  apply calmly_server_bind; [by apply server_neutral | intros now]. apply quiet_emit.
Qed.

(** ** Deliveries *)

(** What the broker is told when a handler ends. *)
Definition verdict (r : result (MarretaError * Interp) (Value * Interp)) : option bool :=
  match r with
  | Ok _ => None
  | Err (NackSignal requeue, _) => Some requeue
  | Err _ => Some false
  end.

(** [tag] is in hand. *)
Definition in_hand (tag : Z) (g : ServerState) : Prop :=
  ss_tx g = None /\ ss_taken g = map fst (ss_settled g) ++ [tag].

Definition settled_with (tag : Z) (nack : option bool) (g : ServerState) : ServerState :=
  mkServerState (ss_tx g) (ss_taken g) (ss_settled g ++ [(tag, nack)]).

Lemma settled_idle tag nack g : in_hand tag g -> idle (settled_with tag nack g).
Proof. intros [Htx Ht]. split; [done |]. cbn. by rewrite Ht, map_app. Qed.

(** A step that ends with the delivery settled as [V] allows. *)
Definition settles {A} (delivery : QueueDelivery) (m : Srv A) (V : option bool -> Prop) : Prop :=
  forall cache g, in_hand (qd_tag delivery) g ->
    wp server_protocol (m cache) g (fun r g' =>
      match fst r with
      | Done _ => exists nack, V nack /\ g' = settled_with (qd_tag delivery) nack g
      | Fails _ => False
      | Panics | NoFuel => True
      end).

Lemma settles_after {A A'} delivery (m : Srv A) (k : A -> Srv A') Q V :
  calmly server_protocol outside_tx m Q (fun _ => False) ->
  (forall a, Q a -> settles delivery (k a) V) -> settles delivery (m ≫= k) V.
Proof.
  intros Hm Hk cache g Hg. apply tree_wp_bind. eapply tree_wp_mono; [apply Hm, Hg |].
  intros [[a|r| |] c] g'; cbn; try done; intros [-> H]; [by apply Hk | done].
Qed.

Lemma settles_then {A A'} delivery (m : Srv A) (k : A -> Srv A') V :
  settles delivery m V -> (forall a, quiet (k a)) -> settles delivery (m ≫= k) V.
Proof.
  intros Hm Hk cache g Hg. apply tree_wp_bind. eapply tree_wp_mono; [by apply Hm |].
  intros [[a|r| |] c] g'; cbn; try done. intros (nack & HV & ->).
  eapply tree_wp_mono; [apply Hk, (settled_idle _ nack g Hg) |].
  intros [[a'|r| |] c'] g'; cbn; try done; intros [-> H]; [by exists nack | done].
Qed.

Lemma settles_settle delivery nack (V : option bool -> Prop) :
  V nack -> settles delivery (settle delivery nack) V.
Proof.
  intros HV cache g [Htx Ht]. split; [by split |]. intros x. cbn. by exists nack.
Qed.

Lemma settles_result cfg consumer target delivery r (V : option bool -> Prop) :
  V (verdict r) ->
  settles delivery (settle_result stderr_is_terminal consumer cfg target delivery r) V.
Proof.
  intros HV. unfold settle_result.
  assert (Hend : forall nack status, V nack ->
    settles delivery (_ ← settle delivery nack; mret (M := Srv) (status : string)) V).
  { intros nack status Hn. apply settles_then; [by apply settles_settle |]. intros. by apply calmly_ret. }
  destruct r as [[v s]|[e s]]; [by apply Hend |].
  assert (Hlog : V (Some false) ->
    settles delivery (_ ← log_uncaught_runtime_error stderr_is_terminal (c_trace_context cfg) s e
      (ScopeConsumer (cd_kind consumer) target "error");
      _ ← settle delivery (Some false); mret (M := Srv) "error") V).
  { intros Hf. eapply settles_after; [apply quiet_log | intros _ _]. by apply Hend. }
  destruct e; try (by apply Hlog). by apply Hend.
Qed.

(** Two claims about the same paths. *)
Lemma wp_and_always {G A} (P : Protocol G) (t : Tree A) : forall g Q R,
  wp P t g Q -> always t R -> wp P t g (fun a g' => Q a g' /\ R a).
Proof.
  induction A, t as [A a|A r k IH|A bs k _ IH] using Tree_induction; intros g Q R Hq Hr.
  - by split.
  - destruct Hq as [Ha Hq], Hr as [_ Hr]. split; [done |]. intros x. apply IH; [apply Hq | apply Hr].
  - apply wp_par in Hq as (Hp & Hb & Hq). apply wp_par in Hr as (_ & _ & Hr).
    apply wp_par. split_and!; [done | done |]. intros outs Hl. apply IH; [by apply Hq | by apply Hr].
Qed.

Definition res_result {A} (R : result (MarretaError * Interp) (A * Interp) -> Prop) (r : Res A) : Prop :=
  match r with
  | RDone a s => R (Ok (a, s))
  | RFail e s => R (Err (e, s))
  | RPanic | RNoFuel => True
  end.

Lemma calmly_interpret_result {A} cfg (m : Eval A) s R F :
  safe cfg m -> ready cfg s None -> always (m s) (res_result R) ->
  calmly server_protocol outside_tx (interpret (m s)) (fun r => ready_result cfg r /\ R r) F.
Proof.
  intros Hm Hr HR cache g Hg.
  assert (Hc := calmly_interpret cfg m s F Hm Hr cache g Hg).
  assert (Ha : always (interpret (m s) cache) (fun r => match fst r with Done r => R r | _ => True end)).
  { unfold interpret. apply tree_wp_bind. eapply tree_wp_mono; [exact HR |].
    by intros [a s'|e s'| |] [] H. }
  eapply tree_wp_mono; [by apply wp_and_always; [exact Hc | exact Ha] |].
  intros [[a|r| |] c] g'; cbn; try done; tauto.
Qed.

Section Consume.
Variable ctx : ServerContext.
Variable request_log_enabled trace_context_enabled : bool.
Variable consumer : ConsumerDefinition.

(** The schema of the consumer, if it names one that its module can see. *)
Definition consumer_schema : option SchemaDefinition :=
  name ← cd_schema consumer; runtime_resolve_schema (sc_runtime ctx) (cd_module_id consumer) name.

Definition coerced_delivery (delivery : QueueDelivery) (schema : SchemaDefinition) : Coerced :=
  coerce_payload (visible_schemas_for (sc_runtime ctx) (cd_module_id consumer))
    (qd_payload delivery) schema.

(** The payload a handler may see: the one of the delivery when no schema is
    asked for, and else the coerced one. *)
Inductive payload_for (delivery : QueueDelivery) : Value -> Prop :=
| payload_raw : consumer_schema = None -> payload_for delivery (qd_payload delivery)
| payload_coerced schema v :
    consumer_schema = Some schema -> coerced_delivery delivery schema = Done v ->
    payload_for delivery v.

(** The payload does not conform. *)
Definition payload_rejected (delivery : QueueDelivery) : Prop :=
  exists schema e, consumer_schema = Some schema /\ coerced_delivery delivery schema = Fails e.

Lemma delivery_payload_spec delivery :
  match delivery_payload ctx consumer delivery with
  | Done (Some payload) => payload_for delivery payload
  | Done None => payload_rejected delivery
  | Fails _ => False
  | Panics | NoFuel => True
  end.
Proof.
  unfold delivery_payload. fold consumer_schema. destruct consumer_schema as [schema|] eqn:Hs.
  - fold (coerced_delivery delivery schema).
    destruct (coerced_delivery delivery schema) as [v|e| |] eqn:Hc; [| | done | done].
    + by eapply payload_coerced.
    + by exists schema, e.
  - by apply payload_raw.
Qed.

(** What happened to the payload, or else in the handler, and what the broker
    was told of it. *)
Inductive handled (delivery : QueueDelivery)
    (R : Value -> result (MarretaError * Interp) (Value * Interp) -> Prop) : option bool -> Prop :=
| schema_rejected : payload_rejected delivery -> handled delivery R (Some false)
| handler_ended payload r :
    payload_for delivery payload -> R payload r -> handled delivery R (verdict r).

Lemma settles_delivery target queue delivery R :
  (forall trace_context payload,
     payload_for delivery payload ->
     always (execute_stmts_pub fuel (server_config overflow_checks ctx true trace_context) (cd_body consumer)
               (delivery_interpreter ctx consumer queue delivery payload)) (res_result (R payload))) ->
  settles delivery
    (consume_delivery overflow_checks stderr_is_terminal fuel ctx request_log_enabled
       trace_context_enabled consumer target queue delivery) (handled delivery R).
Proof.
  intros HR. unfold consume_delivery.
  eapply settles_after with (Q := fun _ => True);
    [by apply (calmly_ask _ _ (RServer SInstant)), server_neutral | intros started_at _].
  eapply settles_after; [apply quiet_delivery_context | intros c _].
  eapply settles_after with
    (Q := fun p => match p with Some payload => payload_for delivery payload | None => payload_rejected delivery end).
  { apply calmly_outcome. pose proof (delivery_payload_spec delivery) as Hp.
    by destruct (delivery_payload ctx consumer delivery). }
  intros [payload|] Hp.
  - eapply settles_after.
    { apply calmly_interpret_result; [apply safe_execute_program | | by apply HR].
      split_and!; [done | done | cbn; lia]. }
    intros r [_ Hr]. apply settles_then; [| intros status; apply quiet_log_delivery].
    apply settles_result. by eapply handler_ended.
  - apply settles_then; [| intros _; apply quiet_log_delivery].
    apply settles_settle. by constructor.
Qed.

Lemma consume_stream_settles target queue n : forall cache g,
  idle g ->
  wp server_protocol
    (consume_stream overflow_checks stderr_is_terminal fuel ctx request_log_enabled
       trace_context_enabled consumer n target queue cache) g
    (fun r g' => match fst r with Done _ => idle g' | Fails _ => False | Panics | NoFuel => True end).
Proof.
  induction n as [|n IH]; intros cache g [Htx Ht]; [done |]. cbn [consume_stream].
  split; [by split |]. intros [delivery|]; cbn; [| by split].
  apply tree_wp_bind. eapply tree_wp_mono.
  - apply (settles_delivery target queue delivery (fun _ _ => True)).
    + intros c payload _. eapply tree_wp_mono; [apply always_True |]. by intros [] [].
    + split; [done |]. cbn. by rewrite Ht.
  - intros [[[]|r| |] c] g'; cbn; try done. intros (nack & _ & ->). apply IH.
    apply settled_idle. split; [done |]. cbn. by rewrite Ht.
Qed.

Lemma calmly_evaluate cfg expr module_id F :
  calmly server_protocol outside_tx
    (interpret (evaluate cfg fuel expr (module_interpreter ctx module_id))) (ready_result cfg) F.
Proof.
  apply calmly_interpret; [by apply safe_interp |]. split_and!; [done | done | cbn; lia].
Qed.

Lemma quiet_resolve_target :
  quiet (resolve_target overflow_checks stderr_is_terminal fuel ctx consumer).
Proof.
  unfold resolve_target. eapply calmly_bind; [apply calmly_evaluate |].
  assert (Hlog : forall e, quiet (_ ← log_consumer_bootstrap_error stderr_is_terminal consumer "<target>" e;
                                  mret (M := Srv) (None (A := string)))).
  { intros e. eapply calmly_bind; [apply quiet_log | intros _ _]. by apply calmly_ret. }
  intros [[v s]|[e s]] _; [| apply Hlog]. destruct v; try apply Hlog. by apply calmly_ret.
Qed.

Lemma quiet_driver_error {A} target operation err (a : A) :
  quiet (_ ← log_consumer_queue_driver_error stderr_is_terminal consumer target operation err;
         mret (M := Srv) a).
Proof. eapply calmly_bind; [apply quiet_log | intros _ _]. by apply calmly_ret. Qed.

Lemma quiet_declare target :
  quiet (declare_infrastructure stderr_is_terminal consumer target).
Proof.
  unfold declare_infrastructure. destruct (cd_kind consumer);
    (apply calmly_server_bind; [by apply server_neutral |];
     intros [x|e]; [by apply calmly_ret | apply quiet_driver_error]).
Qed.

Lemma quiet_open_stream queue : quiet (open_stream stderr_is_terminal consumer queue).
Proof.
  unfold open_stream. eapply calmly_bind with (Q := fun _ => True).
  - destruct (cd_kind consumer);
      [apply (calmly_ask _ _ (RServer (SConsumeQueue queue)))
      | apply (calmly_ask _ _ (RServer (SConsumeTopic queue)))]; by apply server_neutral.
  - intros [x|e] _; [by apply calmly_ret | apply quiet_driver_error].
Qed.
End Consume.

(** ** What is asked of nobody but the server's own host

    A rejected delivery is settled and logged, and that is all. *)

Definition host_protocol : Protocol unit :=
  mkProtocol (fun _ r => match r with RNow | RSpanDraws | RServer _ => True | _ => False end)
    (fun g _ _ => g) (fun _ => False) tt (fun _ _ => True).

Definition host_only {A} (m : Srv A) : Prop :=
  forall cache, wp host_protocol (m cache) tt (fun _ _ => True).

Lemma host_bind {A A'} (m : Srv A) (k : A -> Srv A') :
  host_only m -> (forall a, host_only (k a)) -> host_only (m ≫= k).
Proof.
  intros Hm Hk cache. apply tree_wp_bind. eapply tree_wp_mono; [apply Hm |].
  intros [[a|r| |] c] [] _; cbn; [apply Hk | done..].
Qed.

Lemma host_ask r : match r with RNow | RSpanDraws | RServer _ => True | _ => False end -> host_only (ask r).
Proof. intros Hr cache. by split. Qed.

Lemma host_emit event : host_only (emit event).
Proof. apply host_bind; [by apply (host_ask RNow) |]. intros now. by apply (host_ask (RServer _)). Qed.

Lemma host_delivery_context enabled delivery : host_only (delivery_context enabled delivery).
Proof.
  unfold delivery_context. destruct enabled; [| done].
  apply host_bind; [| done]. unfold trace_context_of.
  apply host_bind; [by apply host_ask | intros draws].
  apply host_bind; [by apply host_ask | intros draws']. by destruct (from_headers _ _ _ _).
Qed.

Lemma host_log_delivery enabled consumer target delivery c status started_at :
  host_only (log_delivery enabled consumer target delivery c status started_at).
Proof.
  unfold log_delivery. destruct enabled; [| done].
  apply host_bind; [by apply (host_ask (RServer _)) |]. intros now. apply host_emit.
Qed.

Lemma host_rejected_delivery ctx request_log_enabled trace_context_enabled consumer target queue delivery :
  payload_rejected ctx consumer delivery ->
  host_only (consume_delivery overflow_checks stderr_is_terminal fuel ctx request_log_enabled
               trace_context_enabled consumer target queue delivery).
Proof.
  intros (schema & e & Hs & He).
  assert (Hp : delivery_payload ctx consumer delivery = Done None).
  { unfold delivery_payload. fold (consumer_schema ctx consumer). rewrite Hs.
    fold (coerced_delivery ctx consumer delivery schema). by rewrite He. }
  unfold consume_delivery. rewrite Hp.
  apply host_bind; [by apply (host_ask (RServer _)) | intros started_at].
  apply host_bind; [apply host_delivery_context | intros c].
  change (host_only (_ ← settle delivery (Some false);
    log_delivery request_log_enabled consumer target delivery c "schema_rejected" started_at)).
  apply host_bind; [by apply (host_ask (RServer _)) | intros _]. apply host_log_delivery.
Qed.

(** ** Responses *)

Definition valid_status (response : Response) : Prop := (100 <= resp_status response <= 999)%Z.

Lemma status_from_u16_valid code d :
  (100 <= d <= 999)%Z -> (100 <= default d (status_from_u16 code) <= 999)%Z.
Proof.
  intros Hd. unfold status_from_u16. destruct (_ && _) eqn:Hb; [| done]. cbn.
  apply andb_true_iff in Hb as [H1%Z.leb_le H2%Z.leb_le]. lia.
Qed.

Lemma error_to_response_valid e : valid_status (error_to_response e).
Proof.
  unfold valid_status. destruct e; cbn [error_to_response json_response resp_status];
    try (unfold INTERNAL_SERVER_ERROR, CONFLICT, BAD_REQUEST; lia).
  - apply status_from_u16_valid. unfold INTERNAL_SERVER_ERROR. lia.
  - pose proof (status_from_u16_valid status_code INTERNAL_SERVER_ERROR) as H.
    cbv zeta. destruct (_ || _); cbn; [apply H; unfold INTERNAL_SERVER_ERROR; lia |].
    unfold build_response. destruct (forallb _ _); cbn; [apply H |]; unfold INTERNAL_SERVER_ERROR; lia.
Qed.

Notation answers m := (calmly server_protocol outside_tx m (fun _ => True) valid_status).

Lemma quiet_answers {A} (m : Srv A) : quiet m -> answers m.
Proof. intros H. by eapply calmly_mono. Qed.

Lemma answers_fail {A} c e s (Q : A -> Prop) :
  calmly server_protocol outside_tx (fail_request (A := A) stderr_is_terminal c e s) Q valid_status.
Proof.
  unfold fail_request. eapply calmly_bind; [apply quiet_answers, quiet_log | intros _ _].
  apply calmly_respond, error_to_response_valid.
Qed.

Lemma calmly_check_allow cfg rules : forall s,
  ready cfg s None ->
  calmly server_protocol outside_tx (check_allow stderr_is_terminal fuel cfg rules s)
    (fun s' => ready cfg s' None) valid_status.
Proof.
  induction rules as [|rule rules IH]; intros s Hs; cbn [check_allow]; [by apply calmly_ret |].
  eapply calmly_bind; [by apply calmly_interpret; [apply safe_interp |] |].
  intros [[v s']|[e s']] Hr; [| apply answers_fail].
  destruct (is_truthy v); [by apply IH |]. apply calmly_respond. unfold valid_status. cbn. unfold FORBIDDEN. lia.
Qed.

Lemma ready_env cfg e s g : ready cfg s g -> ready cfg (with_env e s) g.
Proof. done. Qed.

Lemma bind_request_ready cfg request s g : ready cfg s g -> ready cfg (bind_request request s) g.
Proof.
  intros H. unfold bind_request. do 2 apply ready_env.
  assert (Hf : forall l s, ready cfg s g -> ready cfg
    (fold_left (fun s kv => env_let (fst kv) (coerce_param (snd kv)) s) l s) g).
  { intros l. induction l as [|kv l IH]; intros s' Hs'; [done |]. by apply IH, ready_env. }
  by apply Hf, ready_env.
Qed.

Lemma bind_takes_ends cfg rt module_id request takes : forall s,
  ready cfg s None ->
  ends (fun s' => ready cfg s' None) valid_status (bind_takes rt module_id request takes s).
Proof.
  induction takes as [|b takes IH]; intros s Hs; cbn [bind_takes]; [done |].
  assert (Hv : ends (fun _ => True) valid_status (take_value rt module_id request b)).
  { assert (Ho : forall o, ends (fun _ => True) valid_status (or_error_response o))
      by (intros []; cbn; auto using error_to_response_valid).
    unfold take_value. cbv zeta. destruct (tb_kind b); try done; case_match; try done; apply Ho. }
  destruct (take_value rt module_id request b); cbn in *; try done. by apply IH, ready_env.
Qed.

Lemma authentication_answers ctx route headers :
  calmly server_protocol outside_tx (authenticate_route ctx route headers)
    (authenticated ctx route headers) (fun r => r = unauthorized_response).
Proof. apply calmly_authenticate_route; intros; by apply server_neutral. Qed.

Lemma execute_route_answers ctx route request :
  calmly server_protocol outside_tx
    (execute_route overflow_checks stderr_is_terminal fuel ctx route request) valid_status valid_status.
Proof.
  unfold execute_route.
  eapply calmly_bind with (Q := fun _ => True).
  { destruct (rd_auth route); [| by apply calmly_ret].
    eapply calmly_bind; [eapply calmly_mono; [apply authentication_answers | done |] |].
    - intros ? ->. unfold valid_status. cbn. unfold UNAUTHORIZED. lia.
    - intros auth _. by apply calmly_ret. }
  intros auth _.
  assert (Hs : ready (server_config overflow_checks ctx (sc_queue ctx) (rq_trace_context request))
    (bind_request request (enter_route_frame route (module_interpreter ctx (rd_module_id route)))) None).
  { apply bind_request_ready. split_and!; [done | done | cbn; lia]. }
  eapply calmly_bind with
    (Q := fun s => ready (server_config overflow_checks ctx (sc_queue ctx) (rq_trace_context request)) s None).
  { destruct auth; [by apply calmly_check_allow, ready_env | by apply calmly_ret]. }
  intros s Hs'. eapply calmly_bind; [by apply calmly_outcome; eapply bind_takes_ends |].
  intros s1 Hs1. eapply calmly_bind; [by apply calmly_interpret; [apply safe_execute_program |] |].
  intros [[v s2]|[e s2]] _; [| apply answers_fail].
  apply calmly_ret. unfold valid_status. cbn. unfold NO_CONTENT. lia.
Qed.
(** ** What is printed

    The lines the server writes to standard output. *)

Definition printed_next (lines : list string) (r : Req) : list string :=
  match r with RServer (SStdout line) => lines ++ [line] | _ => lines end.

(** The branches of a broadcast print nothing. *)
Definition printed_protocol : Protocol (list string) :=
  mkProtocol (fun _ _ => True) (fun lines r _ => printed_next lines r) (fun _ => True) []
    (fun _ lines => lines = []).

Lemma evaluation_prints_nothing {A} (t : Tree A) : forall g Q lines,
  wp tx_protocol t g Q ->
  wp printed_protocol t lines (fun a lines' => lines' = lines /\ exists g', Q a g').
Proof.
  induction A, t as [A a|A r k IH|A bs k IHb IH] using Tree_induction; intros g Q lines H.
  - split; [done | by exists g].
  - destruct H as [Ha Hk]. split; [done |]. intros x.
    assert (next printed_protocol lines r x = lines) as -> by (by destruct r).
    eapply IH, Hk.
  - apply wp_par in H as (Hg & Hb & Hk). apply wp_par. split_and!; [done | |].
    + clear -Hb IHb. induction IHb as [|b bs IH' _ IHbs]; [constructor |].
      apply Forall_cons in Hb as [Hb Hbs]. constructor; [| by apply IHbs].
      eapply tree_wp_mono; [by eapply IH' |]. by intros o lines [-> _].
    + intros outs Hl. by eapply IH, Hk.
Qed.

(** The error is a reply, or an answer of its own kind: it is not logged. *)
Definition replies (e : MarretaError) : bool :=
  match e with
  | HttpResponse _ _ _ _ _ | HttpError _ _ | NackSignal _ | DbIdentifierError _ _ => true
  | _ => false
  end.

(** The log line of a failed request: an event of the kind [runtime_error], with
    the status that the response has. *)
Definition logs_status (response : Response) (line : string) : Prop :=
  exists fields, line = json_show (JObject fields) /\
    IM.get "kind" fields = Some (JString "runtime_error") /\
    IM.get "http_status" fields = Some (JNumber (PosInt (resp_status response))).

(** Why a request got an early response, and what was printed for it. *)
Definition reported (ctx : ServerContext) (route : RouteDefinition) (request : HttpRequestParts)
    (response : Response) (lines : list string) : Prop :=
  (lines = [] /\ (response = unauthorized_response \/ response = forbidden_response))
  \/ (lines = [] /\ exists binding, binding ∈ rd_take route /\
       take_value (sc_runtime ctx) (rd_module_id route) request binding = Fails response)
  \/ exists e, response = error_to_response e /\
       if replies e then lines = [] else exists line, lines = [line] /\ logs_status response line.

Section Reported.
Context (ctx : ServerContext) (route : RouteDefinition) (request : HttpRequestParts).

(** Nothing is printed on the way, and an early response is reported. *)
Definition reports {A} (m : Srv A) (Q : A -> Prop) : Prop :=
  forall cache, wp printed_protocol (m cache) [] (fun r lines =>
    match fst r with
    | Done a => Q a /\ lines = []
    | Fails response => reported ctx route request response lines
    | Panics | NoFuel => True
    end).

Lemma reports_ret {A} (a : A) (Q : A -> Prop) : Q a -> reports (mret a) Q.
Proof. intros H cache. by split. Qed.

Lemma reports_bind {A A'} (m : Srv A) (k : A -> Srv A') Q Q' :
  reports m Q -> (forall a, Q a -> reports (k a) Q') -> reports (m ≫= k) Q'.
Proof.
  intros Hm Hk cache. apply tree_wp_bind. eapply tree_wp_mono; [apply Hm |].
  intros [[a|r| |] c] lines; cbn; try done. intros [Ha ->]. by apply Hk.
Qed.

Lemma reports_calmly {A} (m : Srv A) Q (F : Response -> Prop) :
  calmly printed_protocol (fun _ => True) m Q F ->
  (forall r, F r -> reported ctx route request r []) -> reports m Q.
Proof.
  intros Hm HF cache. eapply tree_wp_mono; [by apply Hm |].
  intros [[a|r| |] c] lines; cbn; try done; intros [-> H]; auto.
Qed.

Lemma reports_outcome {A} (o : outcome Response A) (Q : A -> Prop) :
  ends Q (fun r => reported ctx route request r []) o -> reports (srv_outcome o) Q.
Proof. intros Ho cache. by destruct o. Qed.

Lemma reports_interpret {A} cfg (m : Eval A) s :
  safe cfg m -> ready cfg s None -> reports (interpret (m s)) (ready_result cfg).
Proof.
  intros Hm Hr cache. unfold interpret. apply tree_wp_bind. eapply tree_wp_mono.
  { eapply evaluation_prints_nothing. apply (Hm s s None). by split. }
  intros [a s'|e s'| |] lines [-> [g Hp]]; cbn in *; try done;
    destruct Hp as [Hr' [_ _ Hi Ht _ _]];
    assert (g = None) as -> by (destruct Hr as (? & _), Hr' as (? & _); congruence); by split.
Qed.

(** Lines written to standard error do not count. *)
Lemma calm_eprintln line :
  calmly printed_protocol (fun _ => True) (eprintln line) (fun _ => True) (fun _ => False).
Proof.
  unfold eprintln. apply calmly_server_bind; [by intros lines _ |].
  intros []; [by apply calmly_ret | apply calmly_panic].
Qed.

Lemma calm_eprint_lines lines :
  calmly printed_protocol (fun _ => True) (eprint_lines lines) (fun _ => True) (fun _ => False).
Proof.
  induction lines as [|line lines IH]; cbn [eprint_lines]; [by apply calmly_ret |].
  eapply calmly_bind; [apply calm_eprintln |]. by intros _ _.
Qed.

Lemma runtime_error_line now c e response :
  resp_status response = status_for_error e ->
  logs_status response
    (json_show (build_runtime_error_log_event now c e (ScopeRequest (status_for_error e)))).
Proof.
  intros Hs. eexists. split; [reflexivity |]. rewrite Hs.
  unfold log_header, trace_fields. by destruct c.
Qed.

(** An error of the program is logged with the status it is answered with. *)
Lemma reports_fail {A} c e s (Q : A -> Prop) : reports (fail_request stderr_is_terminal c e s) Q.
Proof.
  intros cache. unfold fail_request, log_uncaught_runtime_error.
  destruct (is_logged e) eqn:Hl.
  2: { cbn. right; right. exists e. split; [done |]. by destruct e. }
  unfold emit_runtime_error_log, emit. apply tree_wp_bind, tree_wp_bind.
  split; [done |]. intros now. cbn. split; [done |]. intros [].
  set (line := json_show _).
  assert (Hc : calmly printed_protocol (fun _ => True)
    (_ ← eprintln ("[marreta] " +:+ format_error_code stderr_is_terminal (semantic_code e) +:+ ": " +:+ display_message e);
     match uncaught_trace_lines e s with
     | [] => mret tt
     | lines => _ ← eprintln "[marreta] trace:"; eprint_lines lines
     end) (fun _ => True) (fun _ => False)).
  { eapply calmly_bind; [apply calm_eprintln | intros _ _].
    destruct (uncaught_trace_lines e s); [by apply calmly_ret |].
    eapply calmly_bind; [apply calm_eprintln | intros _ _]. apply calm_eprint_lines. }
  eapply tree_wp_mono; [exact (Hc cache [line] I) |].
  intros [[u|r| |] c'] lines; cbn; try done; intros [-> H]; [| done].
  right; right. exists e. split; [done |].
  assert (replies e = false) as -> by (by destruct e).
  exists line. split; [done |]. apply runtime_error_line. by destruct e.
Qed.

Lemma reports_check_allow cfg rules : forall s,
  ready cfg s None ->
  reports (check_allow stderr_is_terminal fuel cfg rules s) (fun s' => ready cfg s' None).
Proof.
  induction rules as [|rule rules IH]; intros s Hs; cbn [check_allow]; [by apply reports_ret |].
  eapply reports_bind; [by apply reports_interpret; [apply safe_interp |] |].
  intros [[v s']|[e s']] Hr; [| apply reports_fail].
  destruct (is_truthy v); [by apply IH |]. intros cache. left. auto.
Qed.

Lemma bind_takes_reported cfg takes : forall s,
  (forall b, b ∈ takes -> b ∈ rd_take route) -> ready cfg s None ->
  ends (fun s' => ready cfg s' None) (fun r => reported ctx route request r [])
    (bind_takes (sc_runtime ctx) (rd_module_id route) request takes s).
Proof.
  induction takes as [|b takes IH]; intros s Hin Hs; cbn [bind_takes]; [done |].
  destruct (take_value (sc_runtime ctx) (rd_module_id route) request b) as [v|response| |] eqn:Hv;
    cbn; try done.
  - apply IH; [intros b' Hb; apply Hin; by right | by apply ready_env].
  - right; left. split; [done |]. exists b. split; [apply Hin; by left | done].
Qed.

Lemma execute_route_reports :
  reports (execute_route overflow_checks stderr_is_terminal fuel ctx route request) (fun _ => True).
Proof.
  unfold execute_route.
  eapply reports_bind with (Q := fun _ => True).
  { destruct (rd_auth route); [| by apply reports_ret].
    eapply reports_bind; [eapply reports_calmly |].
    - apply calmly_authenticate_route; intros; by intros lines _.
    - intros ? ->. left. auto.
    - intros auth _. by apply reports_ret. }
  intros auth _.
  set (cfg := server_config overflow_checks ctx (sc_queue ctx) (rq_trace_context request)).
  assert (Hs : ready cfg (bind_request request (enter_route_frame route (module_interpreter ctx (rd_module_id route)))) None).
  { apply bind_request_ready. split_and!; [done | done | cbn; lia]. }
  eapply reports_bind with (Q := fun s => ready cfg s None).
  { destruct auth; [by apply reports_check_allow, ready_env | by apply reports_ret]. }
  intros s Hs'. eapply reports_bind;
    [apply reports_outcome; by eapply (bind_takes_reported cfg) |].
  intros s1 Hs1. eapply reports_bind; [by apply reports_interpret; [apply safe_execute_program |] |].
  intros [[v s2]|[e s2]] _; [by apply reports_ret | apply reports_fail].
Qed.
End Reported.
End Serving.

(** * The theorems *)

Section Theorems.
Context `{E : Ext} `{C : !Crates E} `{B : !BsonCrate E} `{SC : !ServerCrates E}
  `{HO : HashOrder} `{AH : AuthHost}.
Variable overflow_checks stderr_is_terminal : bool.
Variable fuel : nat.

(** C4: whatever the drivers and the broker answer, a consumer settles every
    delivery it takes, exactly once, outside any transaction and before it takes
    the next; when it ends, all are settled, unless it panicked. *)
Theorem deliveries_settled ctx request_log_enabled trace_context_enabled consumer n cache :
  wp server_protocol
    (run_consumer overflow_checks stderr_is_terminal fuel ctx request_log_enabled trace_context_enabled
       consumer n cache)
    (mkServerState None [] [])
    (fun r g => match fst r with
                | Done _ => ss_tx g = None /\ ss_taken g = map fst (ss_settled g)
                | Fails _ => False
                | Panics | NoFuel => True
                end).
Proof.
  set (start := mkServerState None [] []).
  unfold run_consumer. apply tree_wp_bind.
  eapply tree_wp_mono; [by apply quiet_resolve_target |].
  intros [[[target|]|r| |] c1] g; cbn; try done; intros [-> ?]; [| done | done].
  apply tree_wp_bind. eapply tree_wp_mono; [by apply quiet_declare |].
  intros [[[queue|]|r| |] c2] g; cbn; try done; intros [-> ?]; [| done | done].
  apply tree_wp_bind. eapply tree_wp_mono; [by apply quiet_open_stream |].
  intros [[[]|r| |] c3] g; cbn; try done; intros [-> ?]; [| done | done].
  eapply tree_wp_mono; [by apply consume_stream_settles |].
  by intros [[]] g.
Qed.



End Theorems.

(** * A concrete server *)

(** Keys are texts; the token [good] is signed with [s3cret]. *)
Definition demo_server : ServerCrates demo_ext := {|
  instant_show_millis := instant_show;
  header_to_str s := if is_ascii s then Some s else None;
  response_header_ok k v := negb (str_has " " k);
  urlencoded_pairs s := Some (omap (split_once "=") (split_on "&" s));
  utf8_lossy s := s;
  DecodingKey := string; Jwk := string; JwkSet := gmap string string;
  key_from_secret s := s; key_from_rsa_pem := Some; key_from_ec_pem := Some; key_from_jwk := Some;
  decode_header token := if String.eqb token "good" then Some (HS256, None) else None;
  jwt_decode _ token key v :=
    if String.eqb token "good" && String.eqb key "s3cret" && bool_decide (v_algorithm v = HS256)
    then Some [("sub", JString "ann"); ("roles", JArray [JString "admin"])] else None;
  jwk_set_parse _ := None; jwk_find set kid := set !! kid; jwk_key_algorithm _ := None;
  argon2_verify _ _ := false; sha256_hex s := s;
|}.
#[export] Existing Instance demo_server.
#[export] Existing Instance demo_host.

Definition demo_jwt_config : JwtAuthConfig :=
  match build_jwt_config (demo_jwt "HS256") with
  | Ok config => config
  | Err _ => mkJwtAuthConfig "" "" "" "" "" "" "" OidcDiscovery None 0 0
  end.

Definition demo_server_context : ServerContext :=
  mkServerContext (single Environment_new ∅) true false true None false
    {[ "shop" := RJwt demo_jwt_config ]} ∅.

Definition demo_private_route : RouteDefinition :=
  mkRouteDefinition VGet "/me/:id" (Some (mkRouteAuth "shop" 2 5))
    [EBinaryOp (EIdentifier "id") OpGreater (EInteger 0)] []
    (program_of ["reply 200, auth.subject"]) 1 1 None None.

Definition demo_request (id : string) (headers : HeaderMap) : HttpRequestParts :=
  mkHttpRequestParts {[ "id" := id ]} ∅ None headers None EmptyString.

Definition with_token (token : string) : HeaderMap := [("authorization", "Bearer " +:+ token)].

Notation answer_of request :=
  (fst (fst (run demo_handle (execute_route true false 30 demo_server_context demo_private_route request ∅) []))).

Definition status_of (o : outcome Response Response) : option Z :=
  match o with Done r | Fails r => Some (resp_status r) | Panics | NoFuel => None end.

Example route_answers :
  map (fun request => status_of (answer_of request))
    [demo_request "7" (with_token "good"); demo_request "-7" (with_token "good");
     demo_request "7" (with_token "bad"); demo_request "x" (with_token "good"); demo_request "7" []]
  = [Some 200; Some 403; Some 401; Some 500; Some 401]%Z.
Proof. vm_compute. reflexivity. Qed.

(** A consumer of two deliveries: the world is what is left on the queue, and
    what was settled. *)
Definition Broker : Type := list (@QueueDelivery demo_ext) * list (Z * option bool).

Definition broker_handle (r : Req) (w : Broker) : Answer r * Broker :=
  match r return Answer r * Broker with
  | RServer (SNextDelivery _) =>
      match fst w with
      | [] => (None, w)
      | d :: ds => (Some d, (ds, snd w))
      end
  | RServer (SSettle tag nack) => (tt, (fst w, snd w ++ [(tag, nack)]))
  | r => (fst (demo_handle r []), w)
  end.

Definition consumer_of_lines (lines : list string) : ConsumerDefinition :=
  mkConsumerDefinition QueueConsumer (EStringLiteral "orders") "order" None (program_of lines) 1 1
    None None.

Definition demo_consumer : ConsumerDefinition :=
  consumer_of_lines ["require order.amount >= 0 else nack requeue"; "10 / order.amount"].

Definition demo_delivery (tag amount : Z) : @QueueDelivery demo_ext :=
  mkQueueDelivery tag (VMap [("amount", VInteger amount)]) ∅ EmptyString EmptyString.

Definition consumer_run (consumer : ConsumerDefinition) (deliveries : list (@QueueDelivery demo_ext))
  : list (Z * option bool) :=
  snd (snd (run broker_handle
    (run_consumer true false 30 demo_server_context true false consumer 10 ∅) (deliveries, []))).

Example consumer_settles :
  consumer_run demo_consumer [demo_delivery 1 5; demo_delivery 2 (-1); demo_delivery 3 0]
  = [(1%Z, None); (2%Z, Some true); (3%Z, Some false)].
Proof. vm_compute. reflexivity. Qed.

(** A panic in a handler ends the task: the delivery is not settled, and no other
    is taken. *)
Example panic_ends_consumer :
  consumer_run (consumer_of_lines ["order.amount / (0 - 1)"])
    [demo_delivery 1 5; demo_delivery 2 i64_min; demo_delivery 3 1]
  = [(1%Z, None)].
Proof. vm_compute. reflexivity. Qed.

(** A digest in upper case passes the configuration and matches no key: the
    digest of the key is written in lower case. *)
Example uppercase_digest_never_matches :
  is_ok (validate_secret_hash "p" ("sha256:" +:+ String.concat "" (repeat "AB" 32))) = true
  /\ verify_api_key_hash (String.concat "" (repeat "ab" 32))
       ("sha256:" +:+ String.concat "" (repeat "AB" 32)) = false.
Proof. vm_compute. split; reflexivity. Qed.

(** ** The theorems at work *)

Lemma unauthenticated_requests_refused_witness :
  wp lookup_protocol
    (execute_route true false 30 demo_server_context demo_private_route (demo_request "7" []) ∅) tt
    (fun r _ => match fst r with
                | Fails response => response = unauthorized_response
                | Done _ => False
                | Panics | NoFuel => True
                end).
Proof.
  apply (unauthenticated_requests_refused true false 30 demo_server_context demo_private_route).
  - eexists. reflexivity.
  - intros auth (provider & Hp & H). vm_compute in Hp. injection Hp as <-.
    destruct H as (token & alg & kid & key & now & claims & Ht & _). discriminate Ht.
Defined.

Lemma accepted_token_verified_witness :
  exists auth token alg kid key now claims,
    fst (fst (run demo_handle (authenticate_jwt demo_jwt_config (with_token "good") ∅) [])) = Done auth
    /\ bearer_token (with_token "good") = Some token /\ decode_header token = Some (alg, kid)
    /\ jwt_decode now token key
         (mkValidation alg (Some (audience demo_jwt_config)) (Some (issuer demo_jwt_config)) true
            (clock_skew_seconds demo_jwt_config) ["exp"; "iss"; "aud"]) = Some claims
    /\ alg ∈ [HS256; HS384; HS512].
Proof.
  assert (Hc : build_jwt_config (demo_jwt "HS256") = Ok demo_jwt_config) by (vm_compute; reflexivity).
  assert (Hok : is_ok (match fst (fst (run demo_handle
      (authenticate_jwt demo_jwt_config (with_token "good") ∅) [])) with
      | Done a => Ok a | _ => Err tt end) = true) by (vm_compute; reflexivity).
  destruct (fst (fst (run demo_handle (authenticate_jwt demo_jwt_config (with_token "good") ∅) [])))
    as [auth|r| |] eqn:Hrun; try discriminate Hok.
  destruct (accepted_token_verified demo_handle (demo_jwt "HS256") demo_jwt_config (with_token "good") ∅
              auth [] Hc Hrun) as (token & alg & kid & key & now & claims & H1 & H2 & _ & H3 & _ & _ & _ & _ & H4).
  exists auth, token, alg, kid, key, now, claims.
  assert (Hs : validation_source demo_jwt_config = Secret "s3cret") by reflexivity.
  rewrite Hs in H4. destruct H4 as [_ H4].
  repeat (split; [assumption || reflexivity |]). exact H4.
Defined.


