(* ===== verification/BroadcastFacts.v ===== *)
(** Expressions that only compute, and the two ways of running a broadcast.

    [plain] is the part of what [expression_has_side_effects] calls pure that
    has no method calls, which may print, log, read the clock or call a task.
    Its evaluation always ends, and asks no driver anything; and for tasks with
    such bodies the fast path of a broadcast, which runs the branches in turn,
    gives what the parallel path gives. *)
From stdpp Require Import base list strings gmap sets.
From Stdlib Require Import ZArith Lia.
From S2P Require Import Prelude RustStr F64 Errors Token Ast IndexMap Foreign QueryTypes Value Schemas Validator ValidatorFacts Environment Operators Crates ValueMethods DocBson FeatureFlags ProjectRuntime Interaction Interp EvalLogic Namespaces Infra QueryPipeline Calls Evaluator EvalDemo EvaluatorFuel.

Fixpoint plain (expr : Expression) : bool :=
  match expr with
  | EInteger _ | EFloat _ | EBoolean _ | ENull => true
  | EStringLiteral s => negb (str_contains placeholder_mark s)
  | EIdentifier name => negb (impure_name name)
  | EList items => forallb plain items
  | EMapLiteral entries => forallb (fun kv => plain (snd kv)) entries
  | EBinaryOp l _ r => plain l && plain r
  | EUnaryOp _ operand => plain operand
  | EPropertyAccess object _ => plain object
  | ESubscript object key => plain object && plain key
  | _ => false
  end.

Section Silent.
Context `{E : Ext}.

(** The computation ends, whatever the state, and asks nothing. *)
Definition silent {A} (m : Eval A) : Prop := forall s, exists r, m s = TRet r /\ r <> RNoFuel.

Lemma silent_mret {A} (a : A) : silent (mret a).
Proof. intros s. by eexists. Qed.
Lemma silent_raise {A} e : silent (raise (A := A) e).
Proof. intros s. by eexists. Qed.
Lemma silent_raise_at {A} e : silent (raise_at (A := A) e).
Proof. intros s. by eexists. Qed.
Lemma silent_panic {A} : silent (panic (A := A)).
Proof. intros s. by eexists. Qed.
Lemma silent_gets {A} (f : Interp -> A) : silent (gets f).
Proof. intros s. by eexists. Qed.
Lemma silent_get_state : silent get_state.
Proof. intros s. by eexists. Qed.
Lemma silent_modify f : silent (modify f).
Proof. intros s. by eexists. Qed.
Lemma silent_push_trace_frame frame : silent (push_trace_frame frame).
Proof. intros s. by eexists. Qed.

Lemma silent_of_outcome {A} (o : outcome MarretaError A) : o <> NoFuel -> silent (of_outcome o).
Proof. intros H s. destruct o; [by eexists.. | done]. Qed.

Lemma silent_of_res {A} (r : result MarretaError A) : silent (of_res r).
Proof. destruct r; [apply silent_mret | apply silent_raise]. Qed.

Lemma silent_bind {A B} (m : Eval A) (k : A -> Eval B) :
  silent m -> (forall a, silent (k a)) -> silent (m ≫= k).
Proof.
  intros Hm Hk s. unfold mbind, eval_bind. destruct (Hm s) as (r & -> & Hr).
  destruct r as [a s'|e s'| |]; cbn; [apply Hk | by eexists.. | done].
Qed.

Lemma silent_attempt {A} (m : Eval A) : silent m -> silent (attempt m).
Proof.
  intros Hm s. unfold attempt. destruct (Hm s) as (r & -> & Hr).
  destruct r; cbn; [by eexists.. | done].
Qed.

Lemma silent_mapE {A B} (f : A -> Eval B) l :
  (forall a, a ∈ l -> silent (f a)) -> silent (mapE f l).
Proof.
  intros Hf. induction l as [|a l IH]; [apply silent_mret |]. cbn.
  apply silent_bind; [apply Hf; set_solver | intros b].
  apply silent_bind; [apply IH; set_solver | intros bs]. apply silent_mret.
Qed.

Lemma silent_foldE {A S} (f : S -> A -> Eval S) acc l :
  (forall acc a, a ∈ l -> silent (f acc a)) -> silent (foldE f acc l).
Proof.
  intros Hf. revert acc. induction l as [|a l IH]; intros acc; [apply silent_mret |]. cbn.
  apply silent_bind; [apply Hf; set_solver | intros b]. apply IH. set_solver.
Qed.
End Silent.

Create HintDb silent.
#[export] Hint Resolve silent_mret silent_raise silent_raise_at silent_panic silent_gets
  silent_get_state silent_modify silent_push_trace_frame silent_of_res : silent.

Ltac silent_step :=
  match goal with
  | |- forall _, _ => intros
  | |- silent (mbind _ _) => apply silent_bind
  | |- silent (attempt _) => apply silent_attempt
  | |- silent (match ?x with _ => _ end) => destruct x
  | |- silent (match ?x with _ => _ end _) => destruct x
  | |- silent _ => solve [eauto 2 with silent nocore]
  | |- silent ?m => let h := head_of m in unfold h; cbv beta zeta
  end.
Ltac silent := repeat silent_step.

Section Plain.
Context `{E : Ext} `{C : !Crates E} `{B : !BsonCrate E} `{HO : HashOrder}.
Variable cfg : Config.

(** ** Operators and properties *)

Lemma apply_binary_op_fuel checks line column op l r :
  apply_binary_op checks line column op l r <> NoFuel.
Proof.
  destruct op; cbn; unfold op_add, op_arith, op_divide, op_modulo, op_compare, op_in, decimal_op,
    int_result, dec_result, i64_quot, i64_rem, division_by_zero, Operators.type_error; repeat case_match; done.
Qed.

Lemma apply_unary_op_fuel checks line column op v : apply_unary_op checks line column op v <> NoFuel.
Proof. destruct op; cbn; unfold int_result, Operators.type_error; repeat case_match; done. Qed.

Lemma silent_computed f :
  (forall checks line column, f checks line column <> NoFuel) -> silent (computed cfg f).
Proof.
  intros Hf. apply silent_bind; [apply silent_get_state | intros s]. by apply silent_of_outcome.
Qed.

Lemma silent_binary op l r :
  silent (computed cfg (fun checks line column => apply_binary_op checks line column op l r)).
Proof. apply silent_computed. intros. apply apply_binary_op_fuel. Qed.

Lemma silent_unary op v :
  silent (computed cfg (fun checks line column => apply_unary_op checks line column op v)).
Proof. apply silent_computed. intros. apply apply_unary_op_fuel. Qed.
#[local] Hint Resolve silent_binary silent_unary : silent.

Lemma silent_local_date_time d t prefer_latest :
  silent (local_date_time_to_utc cfg d t prefer_latest).
Proof.
  unfold local_date_time_to_utc, resolve_local_datetime.
  destruct (from_local_datetime _ d t); silent.
Qed.
#[local] Hint Resolve silent_local_date_time : silent.

Lemma silent_access_property obj property : silent (access_property cfg obj property).
Proof. silent. Qed.
#[local] Hint Resolve silent_access_property : silent.

(** ** Plain expressions *)

Lemma plain_in items e : forallb plain items = true -> e ∈ items -> plain e = true.
Proof. rewrite forallb_forall. intros H He. by apply H, list_elem_of_In. Qed.

Lemma size_in (f : Expression -> nat) (l : list Expression) e : e ∈ l -> f e <= sum_of f l.
Proof.
  induction l as [|x l IH]; [by intros H%not_elem_of_nil |].
  intros [-> | He]%elem_of_cons; cbn; [lia |]. specialize (IH He). lia.
Qed.

Lemma plain_silent fuel expr :
  plain expr = true -> expression_size expr <= fuel -> silent (evaluate cfg fuel expr).
Proof.
  unfold evaluate. revert expr. induction fuel as [|fuel IH]; intros expr Hp Hs.
  { destruct expr; cbn in Hs; lia. }
  cbn [interp evaluator]. destruct expr; try discriminate Hp; cbn [evaluate_with];
    cbn [plain] in Hp; cbn [expression_size] in Hs;
    repeat match goal with H : _ && _ = true |- _ => apply andb_true_iff in H as [? ?] end.
  - silent.
  - silent.
  - unfold interpolate_string. apply negb_true_iff in Hp. rewrite Hp. silent.
  - silent.
  - silent.
  - apply silent_bind; [| silent]. apply silent_mapE. intros e He.
    apply IH; [by eapply plain_in | pose proof (size_in expression_size items e He); lia].
  - apply silent_bind; [| silent]. apply silent_foldE. intros m [key e] He. cbn.
    apply silent_bind; [| silent]. apply IH.
    + by apply forallb_forall with (x := (key, e)) in Hp; [| apply list_elem_of_In].
    + assert (expression_size e <= sum_of (fun kv : string * Expression => expression_size (snd kv)) entries);
        [| lia]. clear -He. induction entries as [|x l IHl]; [by apply not_elem_of_nil in He |].
      apply elem_of_cons in He as [<- | He]; cbn; [lia | specialize (IHl He); lia].
  - silent.
  - assert (silent (evaluator (interp cfg fuel) expr1)) by (apply IH; [done | lia]).
    assert (silent (evaluator (interp cfg fuel) expr2)) by (apply IH; [done | lia]).
    unfold evaluate_binary. destruct operator; silent; done.
  - apply silent_bind; [apply IH; [done | lia] | silent].
  - assert (silent (evaluator (interp cfg fuel) expr)) by (apply IH; [done | lia]). silent; done.
  - assert (silent (evaluator (interp cfg fuel) expr1)) by (apply IH; [done | lia]).
    assert (silent (evaluator (interp cfg fuel) expr2)) by (apply IH; [done | lia]). silent; done.
Qed.

(** What is plain is pure in the sense of the source. *)
Lemma plain_has_no_side_effects expr : plain expr = true -> expression_has_side_effects expr = false.
Proof.
  assert (H : forall n, match n with
    | NExpression e => plain e = true -> expression_has_side_effects e = false
    | _ => True end); [| apply (H (NExpression expr))].
  clear expr. induction n as [n IH] using tree_ind. destruct n as [ | | |expr| | | | | |]; try done.
  intros Hp.
  assert (IHe : forall e, NExpression e ∈ expression_children expr ->
    plain e = true -> expression_has_side_effects e = false) by (intros e He; apply (IH (NExpression e)), He).
  clear IH. destruct expr; try discriminate Hp; cbn in Hp |- *; try done;
    repeat match goal with H : _ && _ = true |- _ => apply andb_true_iff in H as [? ?] end;
    try (apply negb_true_iff in Hp; exact Hp).
  - apply not_true_iff_false. rewrite existsb_exists. intros (e & He & Ht).
    rewrite forallb_forall in Hp. rewrite IHe in Ht; [done | | by apply Hp].
    cbn. by apply list_elem_of_fmap_2, list_elem_of_In.
  - apply not_true_iff_false. rewrite existsb_exists. intros (kv & He & Ht).
    rewrite forallb_forall in Hp. rewrite IHe in Ht; [done | | by apply Hp].
    cbn. apply list_elem_of_fmap. exists kv. by rewrite list_elem_of_In.
  - rewrite !IHe; [done | set_solver | done | set_solver | done].
  - rewrite IHe; [done | set_solver | done].
  - rewrite IHe; [done | set_solver | done].
  - rewrite !IHe; [done | set_solver | done | set_solver | done].
Qed.

(** ** Tasks with plain bodies *)

Definition plain_body (body : TaskBody) : bool :=
  match body with TInline e | TBlock [] e => plain e | TBlock _ _ => false end.

Definition plain_task (fuel : nat) (task : option Value) : bool :=
  match task with
  | Some (VTask _ _ body _ _ _ _) => plain_body body && (task_body_size body <=? fuel)
  | _ => false
  end.

(** A branch that names such a task. *)
Definition plain_branch (fuel : nat) (s : Interp) (target : Expression) : bool :=
  match target with
  | EIdentifier name | ETaskCall name => negb (is_fetch name) && plain_task fuel (get name (i_env s))
  | EPropertyAccess object property => plain_task fuel (namespace_stage_task cfg object property s)
  | _ => false
  end.

Section Branches.
Variable fuel : nat.
#[local] Notation ev := (evaluate cfg fuel).
#[local] Notation ex := (execute_statement cfg fuel).

Lemma silent_run_body body :
  plain_body body = true -> task_body_size body <= fuel -> silent (run_body ev ex body).
Proof.
  destruct body as [e|[|stmt stmts] e]; cbn; intros Hp Hs; try done.
  - apply plain_silent; [done | lia].
  - apply silent_bind; [silent |]. intros _. apply plain_silent; [done | lia].
Qed.

Lemma silent_coerce_arguments owner name params args :
  silent (coerce_arguments cfg owner name params args).
Proof.
  apply silent_bind; [silent | intros current]. apply silent_mapE. intros [param arg] _.
  unfold coerce_argument. destruct (pd_schema (fst (param, arg))); [| silent].
  destruct (_ !! _) as [schema|]; [| silent].
  pose proof (coerce_payload_fuel (schema_registry_for cfg (match owner with
    | Some m => Some m | None => current end)) (snd (param, arg)) schema).
  destruct (coerce_payload _ _ _); silent; done.
Qed.

Lemma silent_call_task task args call_name :
  plain_task fuel (Some task) = true -> silent (call_task_value cfg ev ex task args call_name).
Proof.
  destruct task; try done. cbn [plain_task]. intros [Hp Hs%Nat.leb_le]%andb_true_iff.
  pose proof (silent_run_body body Hp Hs) as Hb.
  pose proof (silent_coerce_arguments owner_module name params args) as Hc.
  assert (Hcross : forall owner coerced, silent (call_cross_module cfg ev ex owner name params body
    source_module line column coerced)).
  { intros owner coerced s. unfold call_cross_module.
    match goal with |- context [tree_bind (_ ?f) _] => destruct (Hb f) as (r & -> & Hr) end.
    destruct r; [by eexists.. | done]. }
  cbn [call_task_value]. silent; done.
Qed.

Lemma plain_branch_runs s input target :
  plain_branch fuel s target = true ->
  exists r, run_branch cfg ev ex s input target = TRet r /\ r <> RNoFuel.
Proof.
  unfold run_branch, plain_branch. destruct target; try done; cbn [apply_broadcast_value].
  - intros [Hf Ht]%andb_true_iff. apply negb_true_iff in Hf. unfold named_stage. rewrite Hf.
    run_eval. cbn [clone i_env with_active_tx]. destruct (get name (i_env s)) as [[]|]; try discriminate Ht.
    by apply silent_call_task.
  - intros Ht. unfold property_stage. change (namespace_stage_task cfg target property (clone s))
      with (namespace_stage_task cfg target property s).
    destruct (namespace_stage_task cfg target property s); [| done]. by apply silent_call_task.
  - intros [Hf Ht]%andb_true_iff. apply negb_true_iff in Hf. unfold named_stage. rewrite Hf.
    run_eval. cbn [clone i_env with_active_tx]. destruct (get name (i_env s)) as [[]|]; try discriminate Ht.
    by apply silent_call_task.
Qed.

Lemma plain_branch_pure s target :
  plain_branch fuel s target = true -> broadcast_branch_is_pure cfg s target = true.
Proof.
  assert (Hb : forall body, plain_body body = true -> task_body_is_pure body = true).
  { intros [e|[|stmt stmts] e]; cbn; try done; intros H; by rewrite plain_has_no_side_effects. }
  assert (Ht : forall task, plain_task fuel task = true -> is_pure_task task = true).
  { intros [[]|]; try done. cbn. intros [H _]%andb_true_iff. by apply Hb. }
  unfold plain_branch, broadcast_branch_is_pure.
  destruct target; try done; [| apply Ht |]; destruct (is_fetch name); cbn; auto.
Qed.

End Branches.
(** ** The two paths *)

(** The results of branches that end without asking anything. *)
Fixpoint branches_end (fuel : nat) (s : Interp) (input : Value) (targets : list Expression)
    (rs : list (Res Value)) : Prop :=
  match targets, rs with
  | [], [] => True
  | target :: targets, r :: rs =>
      run_branch cfg (evaluate cfg fuel) (execute_statement cfg fuel) s input target = TRet r
      /\ r <> RNoFuel /\ branches_end fuel s input targets rs
  | _, _ => False
  end.

Lemma plain_branches_end fuel s input targets :
  forallb (plain_branch fuel s) targets = true -> exists rs, branches_end fuel s input targets rs.
Proof.
  induction targets as [|target targets IH]; [by exists [] |].
  cbn [forallb]. intros [Ht Hts]%andb_true_iff. destruct (IH Hts) as [rs Hrs].
  destruct (plain_branch_runs fuel s input target Ht) as (r & Hr & Hn). by exists (r :: rs).
Qed.

Lemma run_all_branches fuel s input targets rs {W} (handle : forall r, W -> Answer r * W) w :
  branches_end fuel s input targets rs ->
  run_all handle (map (fun target => tree_bind
      (run_branch cfg (evaluate cfg fuel) (execute_statement cfg fuel) s input target)
      (fun r => TRet (branch_result r))) targets) w
  = (map branch_result rs, w).
Proof.
  revert rs. induction targets as [|target targets IH]; intros [|r rs]; try done.
  intros (Hr & _ & Hrs). cbn [map run_all]. rewrite Hr. cbn [tree_bind run]. by rewrite (IH rs).
Qed.

(** In turn and joined, up to a panic. *)
Lemma paths_agree fuel s input targets rs :
  branches_end fuel s input targets rs ->
  exists x y,
    mapE (fun target s =>
      tree_bind (run_branch cfg (evaluate cfg fuel) (execute_statement cfg fuel) s input target)
        (fun r => match r with
                  | RDone v _ => TRet (RDone v s)
                  | RFail e _ => TRet (RFail e s)
                  | RPanic => TRet RPanic
                  | RNoFuel => TRet RNoFuel
                  end)) targets s = TRet x
    /\ mapE join_branch (map branch_result rs) s = TRet y
    /\ (x = RPanic \/ x = y)
    /\ match x with RDone _ s' | RFail _ s' => s' = s | RPanic => True | RNoFuel => False end.
Proof.
  revert rs. induction targets as [|target targets IH]; intros [|r rs]; try done.
  { intros _. do 2 eexists. split_and!; [done | done | by right | done]. }
  intros (Hr & Hn & Hrs). destruct (IH rs Hrs) as (x & y & Hx & Hy & Hxy & Hs).
  cbn [mapE map]. unfold mbind, eval_bind. rewrite Hr. cbn [tree_bind].
  destruct r as [v s'|e s'| |]; cbn [branch_result join_branch tree_bind].
  - rewrite Hx. unfold mret, eval_ret. cbn [tree_bind]. rewrite Hy.
    destruct Hxy as [-> | <-].
    + exists RPanic. destruct y; cbn [tree_bind]; (eexists; split_and!; [done | done | by left | done]).
    + destruct x as [vs s''|e s''| |]; cbn [tree_bind]; try done; subst;
        (do 2 eexists; split_and!; [done | done | by right | done]).
  - do 2 eexists. split_and!; [done | done | by right | done].
  - exists RPanic. eexists. split_and!; [done | done | by left | done].
  - done.
Qed.

(** C13: when the branches of a broadcast are tasks that only compute, the fast
    path is taken; it ends, asks no driver anything, and its result is that of
    the parallel path: the same list, or the error of the same branch.  They
    differ only when a branch panics, which the parallel path catches. *)
Theorem broadcast_paths_agree fuel s input targets {W} (handle : forall r, W -> Answer r * W) (w : W) :
  forallb (plain_branch fuel s) targets = true ->
  let ev := evaluate cfg fuel in
  let ex := execute_statement cfg fuel in
  broadcast_branches_are_pure cfg s targets = true
  /\ exists r,
       run_branches_in_turn cfg ev ex input targets s = TRet r /\ r <> RNoFuel
       /\ (r = RPanic \/ run handle (run_branches_in_parallel cfg ev ex input targets s) w = (r, w)).
Proof.
  intros Hp ev ex. subst ev ex. split.
  { unfold broadcast_branches_are_pure. rewrite forallb_forall in *. intros target Ht.
    by eapply plain_branch_pure, Hp. }
  destruct (plain_branches_end fuel s input targets Hp) as [rs Hrs].
  destruct (paths_agree fuel s input targets rs Hrs) as (x & y & Hx & Hy & Hxy & Hs).
  unfold run_branches_in_turn, run_branches_in_parallel. rewrite run_par.
  rewrite (run_all_branches fuel s input targets rs handle w Hrs).
  unfold mbind, eval_bind. rewrite Hx, Hy. unfold mret, eval_ret.
  destruct x as [vs s'|e s'| |]; [| | | done]; cbn [tree_bind]; eexists; (split; [done |]);
    (split; [done |]); destruct Hxy as [Hxy | <-]; try done; [by right.. | by left | by left].
Qed.

(** The evaluation of a plain expression ends, with its size as fuel and
    whatever the state, in a value, an error or a panic, and asks no driver
    anything. *)
Theorem plain_expressions_evaluate expr s :
  plain expr = true ->
  exists r, evaluate cfg (expression_size expr) expr s = TRet r /\ r <> RNoFuel.
Proof. intros Hp. by apply plain_silent. Qed.

End Plain.

(** ** The theorems at work *)

(** Two tasks that only compute, as variables. *)
Definition demo_tasks : Interp :=
  from_environment
    (set "a" (VTask "a" [mkParamDef "p" None] (TInline (EBinaryOp (EIdentifier "p") Add (EInteger 1)))
                None None 1 1)
       (set "b" (VTask "b" [mkParamDef "p" None] (TInline (EList [EIdentifier "p"])) None None 2 1)
          Environment_new)).

Lemma broadcast_paths_agree_witness :
  let ev := evaluate demo_config 5 in
  let ex := execute_statement demo_config 5 in
  exists r,
    run_branches_in_turn demo_config ev ex (VInteger 5) [ETaskCall "a"; ETaskCall "b"] demo_tasks = TRet r
    /\ (r = RPanic
        \/ run demo_handle (run_branches_in_parallel demo_config ev ex (VInteger 5)
                             [ETaskCall "a"; ETaskCall "b"] demo_tasks) [] = (r, [])).
Proof.
  intros ev ex.
  destruct (broadcast_paths_agree demo_config 5 demo_tasks (VInteger 5) [ETaskCall "a"; ETaskCall "b"]
    demo_handle [] eq_refl) as [_ (r & Hr & _ & Ha)].
  exists r. split; [exact Hr | exact Ha].
Defined.

Lemma plain_expressions_evaluate_witness :
  exists r, evaluate demo_config 4 (EList [EInteger 1; EIdentifier "x"]) Interp_new = TRet r.
Proof.
  destruct (plain_expressions_evaluate demo_config (EList [EInteger 1; EIdentifier "x"]) Interp_new eq_refl)
    as (r & Hr & _).
  exists r. exact Hr.
Defined.
